(* ===== verification/_CoqProject ===== *)
-Q . S2P
Prelude.v
Words.v
CMem.v
CString.v
Struct.v
Uuid.v
SmallPrograms.v
Segments.v
SegmentsSpec.v
Sha256.v
Sha256Spec.v
Purgatory.v
PurgatorySpec.v
Console.v
ConsoleSpec.v
Elf.v
ElfSpec.v
Gpio.v
GpioSpec.v
Kdump.v
KdumpSpec.v
IpChecksum.v
ElfBoot.v
ElfExec.v
ElfRel.v
ElfRelSpec.v
ElfRelLoad.v
Kexec.v
KexecSpec.v
KexecX86.v
KexecX86Spec.v
X86Linux.v
X86LinuxSpec.v
LoadersX86.v
LoadersPpc.v
Monoimage.v
Multiboot.v
Linuxrc.v
BootSpec.v
LoadersX86Spec.v
MultibootSpec.v
LoadersPpcSpec.v
KexecX86_64.v
KexecX86_64Spec.v
Cli.v
CliCommands.v
CliSpec.v
CliLoop.v
CliLoopSpec.v
CliLoopInv.v
Monoboot.v
MonobootSpec.v
MonobootCli.v
MonobootCliSpec.v
Clitest.v
