(* ===== verification/Prelude.v ===== *)
(** * monoimage: a verification development

    monoimage boots a machine from images that hold a kernel, a ramdisk and a root
    file system.  The boot manager (src/monoboot/) chooses an image and calls kexec
    (src/kexec-tools/), which reads the image, puts the kernel, the ramdisk, the
    kernel's parameters and a small program called purgatory into segments of
    memory, and asks the running kernel to jump there.  Purgatory checks the
    segments and enters the new kernel; the program of the ramdisk
    (src/linuxrc/linuxrc.c) reads the new kernel's command line, finds the image
    again and makes its root file system a block device.  The shell of the boot
    manager is built on a command line library (src/libcli/).

    ** Conventions

    A C function becomes a Rocq function on the data it reads and changes.  Its
    result is in the type [outcome] of this file: a value, the end of the process
    ([Die]), undefined behaviour of C ([UB]), or a loop that never ends ([Spin]).
    Nothing is claimed of a program after undefined behaviour; theorems that a
    function returns state [Ret], and theorems that it is defined exclude [UB].
    Machine integers are [Z] with their wrap-around written out (Words.v); the
    width of a long and the byte order of the host are the class [Arch].  Memory is
    a finite map of blocks of bytes (CMem.v), a C string the list of its bytes
    before the NUL (CString.v), a struct an object representation whose fields
    have offsets and sizes (Struct.v).  malloc is taken to succeed, and the C
    locale is the plain one.  Messages on standard error are left out.

    Recursion that is not structural has fuel, which is always more than the loop
    can use; a theorem shows that it is not used up, or gives the inputs for which
    the loop of the program never ends.  The fuel is: 2 * length + 2 for the words
    of a command line, the length of the file + 1 for loops over the lines of a
    file (each reads at least one byte), length + 2 for the walk to console=, 2050 for
    the words in which a multiboot header is looked for (8192 bytes), 34 for the segment
    headers of a network boot image (512 bytes of them, 16 bytes or more each), n + n * n
    for merging n segments of a DOL file (a walk over them after each merge, and each merge
    leaves one less), 18 for the sections of a segment.

    ** The parts

    - Words.v, CMem.v, CString.v, Struct.v: C's integers, memory, strings, structs.
    - Segments.v (kexec/kexec.c): the memory map, the list of segments,
      [locate_hole], [add_segment], [add_buffer], [sort_segments].  SegmentsSpec.v
      shows that the segments that [add_buffer] makes are in RAM, aligned, disjoint
      and at the lowest or highest place, and where the search goes wrong.
    - Sha256.v (util_lib/sha256.c), Sha256Spec.v: the streaming hash is the one of
      FIPS 180-2, which is defined there from the standard.
    - Purgatory.v (kexec.c, purgatory/purgatory.c, purgatory/string.c),
      PurgatorySpec.v: the digest that kexec stores is the one purgatory computes, for up
      to eight segments; more are written past the array of regions.
    - Elf.v, ElfSpec.v (kexec/kexec-elf.c): the ELF reader: its byte order, its
      tables inside the file, its termination, a round trip of the headers.
    - IpChecksum.v, ElfBoot.v: the checksum of RFC 1071 and the notes sealed by it.
    - ElfExec.v (kexec-elf-exec.c): the loader of ELF executables.
    - ElfRel.v, ElfRelSpec.v, ElfRelLoad.v (kexec-elf-rel.c and its files under
      arch/): placing and relocating purgatory.  The class [Machine] is what a
      target promises the loader; i386, x86_64 and ppc are its instances, and the
      loader's theorems are proved against the class.
    - Kexec.v, KexecSpec.v (kexec.c): reading files, the choice of a loader, the
      system call, the options and the actions of [main].  The class [KexecArch] is
      what an architecture promises; KexecX86.v, KexecX86Spec.v
      (arch/i386/kexec-x86.c) is the instance of i386.
    - X86Linux.v, X86LinuxSpec.v (arch/i386/x86-linux-setup.c, kexec-bzImage.c): the
      loader of Linux kernels and what the kernel finds in memory.
    - LoadersX86.v, LoadersX86Spec.v (kexec-elf-x86.c, kexec-beoboot-x86.c,
      kexec-nbi.c): ELF executables, whose kernel finds its sealed boot notes and its
      registers; Beoboot images; network boot images, which never load.
    - Multiboot.v, MultibootSpec.v (kexec-multiboot-x86.c): a multiboot kernel finds the
      block of information, the memory map, the modules and their command lines.
      Multiboot.v has the table of the loaders of i386.
    - KexecX86_64.v, KexecX86_64Spec.v (arch/x86_64/): the ELF loader of x86_64 and its
      table.  KexecX86.v, X86Linux.v, LoadersX86.v and Multiboot.v are definitions for
      any width of a long, and this is their second instance.
    - LoadersPpc.v, LoadersPpcSpec.v (arch/ppc/): the executables of the GameCube: the
      merging of their segments ends with disjoint segments that hold every section, and each
      address has the byte of the last section that covers it; ELF executables, whose
      argument block is sealed, while that of the former is not.
    - Console.v, ConsoleSpec.v (purgatory/printf.c, arch/i386/console-x86.c, vga.c,
      pic.c): purgatory's printf, against a reference definition of its formats, and its
      screen, which refines an abstract terminal.
    - Kdump.v, KdumpSpec.v (kdump/kdump.c): the core file byte by byte: its new headers, of
      which all but the last of those for the memory are lost, the notes of each segment but
      its last one, and the note segments again; none of the memory of the crashed kernel.
    - Uuid.v (util_lib/ext2_uuid.c): identifiers of file systems.
    - SmallPrograms.v (kexec/ifdown.c, utils/get-uuid.c, util/bin-to-hex.c): the order in
      which interfaces go down; the array that bin-to-hex writes is its input.
    - Gpio.v, GpioSpec.v (gpio/gpio.c): the program switches one pin and no other.
    - Monoimage.v (kexec-tools/include/monoimage.h, utils/makeimage.pl,
      arch/i386/kexec-monoimage.c), Linuxrc.v (linuxrc/linuxrc.c), BootSpec.v: the
      image format, whose offsets are the signed off_t of 4 bytes of i386, its loader, the
      program of the ramdisk, and their composition:
      what is written is loaded; the command line that kexec writes names the first
      argument that exists and the devices of its file system and of the configuration's, and is
      the one linuxrc reads where no letter of its variables comes before them; the device
      with the image is found again, and the loop device
      starts at the ramdisk, because linuxrc has a header of another layout.
      include/monoimage.h has a third layout, which no program includes.
    - Monoboot.v, MonobootSpec.v (monoboot/): the boot manager and monoinit.  The
      class [Confuse] is what the documentation of libconfuse promises.  The
      theorems give what a boot sets and writes, its order and the choice of the image, and
      show that a saved configuration is lost and that monoboot's part of the
      command line hides kexec's from linuxrc.
    - Cli.v, CliCommands.v, CliSpec.v (libcli/libcli.c): a session's data, the output
      filters, the tree of commands, the words of a line, the choice of a command.
      The classes [Regex] and [Program] are the C library's regular expressions
      and the callbacks of the program; a callback may change the session, but
      the print callback does not.
    - CliLoop.v, CliLoopSpec.v, CliLoopInv.v (libcli.c, [cli_loop]): the line editor
      and the login, over a list of events from select and read.  While the line is echoed the
      editor refines a line with a cursor in it, and the states past the login are reached
      with the right password only.  Before a login the buffer can be overflowed, and the
      history read past its end; a run is one that does neither.
    - MonobootCli.v, MonobootCliSpec.v (monoboot/monoboot_cli.c, monoboot_cmds.c): the
      shell of the boot manager as a program of libcli: the word after a command
      does not reach its callback.
    - Clitest.v (libcli/clitest.c): the example of libcli, as a program of it.

    A *Spec.v file holds the theorems of its part, each with a concrete instance in
    its module Witness where it has hypotheses.

    ** What is an argument

    The system calls and the third-party libraries are arguments: what read, stat,
    readdir, getopt_long, select and mount return, the contents of /proc/iomem,
    /proc/mounts and /proc/cmdline, zlib, libext2fs, libconfuse, crypt, regcomp.
    The contents of a variable that the program reads before it writes it is an
    argument too ([stack_garbage], [garbage], [ret0]).  In Linuxrc.v and Monoboot.v
    the program's effects are the state it leaves or the list of its actions, one
    entry for each program run; what an answer of the system depends on is that
    list.  A reboot or halt is taken to end the program.

    ** What is not modelled

    The files for ppc64 and ia64 do not compile: kexec-elf-ppc64.c uses a variable that it
    does not declare, kexec-elf-rel-ppc64.c a field that does not exist, and kexec-ia64.c
    defines a function twice.  bzImage-loader.c is a copy of part of kexec-bzImage.c that is
    not built, and monoboot_confuse.c and timer.c have functions that nothing calls.
    The assembly of purgatory and the code that the loaders of ppc put before the kernel are
    bytes given to the definitions; kexec_test is assembly that runs in place of a kernel.
    The functions that only print a usage, the debugging messages and the test vectors of
    sha256.c are left out.  Most of include/elf.h, of debug.h and of ppc_asm.h are
    constants and macros that the C code does not use.  The rest of src/ is scripts, build
    files and configuration. *)

From Stdlib Require Import ZArith Lia String Strings.Byte.
From stdpp Require Import base tactics list numbers strings option.
From coqutil Require Export Byte Word.LittleEndianList.

(** ** Outcomes of a C function

    [Ret a]: the function returns [a].  [Die why]: it ends the process through
    [die]/[exit(1)]; [why] is the message's format.  [UB why]: it runs into
    behaviour that C leaves undefined (a read or write outside an object, the
    use of a dangling index); nothing is claimed of the program after it.
    [Spin]: a loop of it never ends. *)

Inductive outcome (A : Type) : Type :=
| Ret (a : A)
| Die (why : string)
| UB (why : string)
| Spin.
Arguments Ret {A} a.
Arguments Die {A} why.
Arguments UB {A} why.
Arguments Spin {A}.

#[export] Instance outcome_ret : MRet outcome := fun A a => Ret a.
#[export] Instance outcome_bind : MBind outcome := fun A B f m =>
  match m with
  | Ret a => f a
  | Die w => Die w
  | UB w => UB w
  | Spin => Spin
  end.

(** [m] does not run into undefined behaviour. *)
Definition defined {A} (m : outcome A) : Prop :=
  match m with UB _ => False | _ => True end.

#[export] Instance defined_dec {A} (m : outcome A) : Decision (defined m).
Proof. destruct m; apply _. Defined.

(** [m] returns: it neither dies nor runs into undefined behaviour. *)
Definition returns {A} (m : outcome A) : Prop :=
  match m with Ret _ => True | _ => False end.

#[export] Instance returns_dec {A} (m : outcome A) : Decision (returns m).
Proof. destruct m; apply _. Defined.

#[export] Instance byte_eq_dec : EqDecision byte.
Proof. intros a b. destruct (Byte.byte_eq_dec a b); [by left | by right]. Defined.

(** A C string literal as the list of its bytes, without the final NUL. *)
Definition bs (s : string) : list byte := list_byte_of_string s.

(** ** Tactics *)

(** Split boolean tests on [Z] in the hypotheses and the goal. *)
Ltac zbool_hyp H :=
  first [ rewrite Z.ltb_lt in H | rewrite Z.ltb_ge in H
        | rewrite Z.leb_le in H | rewrite Z.leb_gt in H
        | rewrite Z.eqb_eq in H | rewrite Z.eqb_neq in H
        | rewrite Z.gtb_lt in H | rewrite Z.gtb_ltb in H
        | rewrite Z.geb_le in H | rewrite Z.geb_leb in H
        | rewrite andb_true_iff in H | rewrite andb_false_iff in H
        | rewrite orb_true_iff in H | rewrite orb_false_iff in H
        | rewrite negb_true_iff in H | rewrite negb_false_iff in H ].

Ltac zbool :=
  repeat match goal with
    | H : _ = true |- _ => progress (zbool_hyp H)
    | H : _ = false |- _ => progress (zbool_hyp H)
    | H : _ ∧ _ |- _ => destruct H
    end.

(** Case analysis on the innermost test of the goal. *)
Ltac case_if :=
  match goal with
  | |- context [if ?b then _ else _] =>
      lazymatch b with
      | context [if _ then _ else _] => fail
      | _ => let E := fresh "E" in destruct b eqn:E
      end
  end.

Ltac case_if_in H :=
  match type of H with
  | context [if ?b then _ else _] =>
      lazymatch b with
      | context [if _ then _ else _] => fail
      | _ => let E := fresh "E" in destruct b eqn:E
      end
  end.

(** A decidable fact on concrete data. *)
Ltac decided := refine (bool_decide_eq_true_1 _ _); vm_compute; reflexivity.

(** ** Lemmas on outcomes *)

Section outcome_lemmas.
Context {A B : Type}.
Implicit Types (m : outcome A) (f : A → outcome B).

Lemma bind_Ret m f b :
  (m ≫= f) = Ret b ↔ ∃ a, m = Ret a ∧ f a = Ret b.
Proof.
  split; [ | by intros (a & -> & ?)].
  destruct m as [a | | |]; simpl; [by exists a | done..].
Qed.

Lemma bind_Ret_l (a : A) f : (Ret a ≫= f) = f a.
Proof. done. Qed.

Lemma bind_mret (a : A) f : (mret a ≫= f) = f a.
Proof. done. Qed.

Lemma bind_defined m f :
  defined m → (∀ a, m = Ret a → defined (f a)) → defined (m ≫= f).
Proof. destruct m; simpl; auto. Qed.

Lemma bind_returns m f :
  returns (m ≫= f) ↔ ∃ a, m = Ret a ∧ returns (f a).
Proof.
  split; [ | by intros (a & -> & ?)].
  destruct m as [a | | |]; simpl; [by exists a | done..].
Qed.

Lemma bind_not_spin m f : m ≠ Spin → (∀ a, m = Ret a → f a ≠ Spin) → (m ≫= f) ≠ Spin.
Proof. intros Hm Hf. destruct m; [by apply Hf | done..]. Qed.

Lemma returns_Ret m : returns m ↔ ∃ a, m = Ret a.
Proof.
  split; [ | by intros (a & ->)].
  destruct m as [a | | |]; simpl; [by exists a | done..].
Qed.

Lemma Ret_inj (a a' : A) : Ret a = Ret a' → a = a'.
Proof. congruence. Qed.
End outcome_lemmas.

(** Take a hypothesis [m ≫= f = Ret b] apart. *)
Ltac inv_ret :=
  repeat match goal with
    | H : Ret _ = Ret _ |- _ => apply Ret_inj in H; subst
    | H : Die _ = Ret _ |- _ => discriminate H
    | H : UB _ = Ret _ |- _ => discriminate H
    | H : Spin = Ret _ |- _ => discriminate H
    | H : (_ ≫= _) = Ret _ |- _ =>
        let E := fresh "E" in
        apply bind_Ret in H; destruct H as (? & E & H); simpl in H
    | H : mret _ = Ret _ |- _ => unfold mret, outcome_ret in H
    end.

(** Show that a function ends, by the structure of its body. *)
Create HintDb ends discriminated.
Ltac ends :=
  repeat first
    [ progress intros
    | discriminate
    | solve [auto with ends nocore]
    | match goal with
      | |- (_ ≫= _) ≠ Spin => apply bind_not_spin
      | |- mret _ ≠ Spin => discriminate
      | |- context [let '(_, _) := ?p in _] => destruct p
      | |- context [match ?x with None => _ | Some _ => _ end] => destruct x
      | |- context [if ?b then _ else _] => destruct b
      end ].

(** Partial correctness: what a function returns, if it returns, has [Q]. *)
Definition post {A} (Q : A → Prop) (m : outcome A) : Prop := ∀ a, m = Ret a → Q a.

Section post_lemmas.
Context {A B : Type}.

Lemma post_ret (Q : A → Prop) a : Q a → post Q (Ret a).
Proof. intros Ha a' E. by apply Ret_inj in E as <-. Qed.

Lemma post_UB (Q : A → Prop) w : post Q (UB w).
Proof. done. Qed.

Lemma post_Spin (Q : A → Prop) : post Q Spin.
Proof. done. Qed.

Lemma post_any (m : outcome A) : post (λ _, True) m.
Proof. done. Qed.

Lemma post_weaken (Q R : A → Prop) m : post R m → (∀ a, R a → Q a) → post Q m.
Proof. intros Hm HR a E. by apply HR, Hm. Qed.

Lemma post_bind (R : A → Prop) (Q : B → Prop) m f :
  post R m → (∀ a, R a → post Q (f a)) → post Q (m ≫= f).
Proof. intros Hm Hf b (a & Ha & Hb)%bind_Ret. by apply (Hf a (Hm a Ha)). Qed.
End post_lemmas.

(** ** Lists *)

Section list_lemmas.
Context {A : Type}.
Implicit Types l k : list A.

Lemma take_drop_app_length l k : take (length l) (l ++ k) = l.
Proof. by rewrite take_app_length. Qed.

Lemma Forall_foldl_inv {B} (P : B → Prop) (f : B → A → B) l b :
  P b → Forall (λ x, ∀ b, P b → P (f b x)) l → P (foldl f b l).
Proof.
  intros Hb Hl. revert b Hb.
  induction Hl as [|x l Hx _ IH]; intros b Hb; simpl; auto.
Qed.

Lemma length_concat_sum (ls : list (list A)) :
  length (concat ls) = foldr Nat.add 0 (map length ls).
Proof. induction ls as [|x ls IH]; simpl; [done | ]. by rewrite length_app, IH. Qed.
End list_lemmas.

Lemma Forall2_impl_l {A B} (P : A → Prop) (Q R : A → B → Prop) l k :
  Forall P l → Forall2 Q l k → (∀ x y, P x → Q x y → R x y) → Forall2 R l k.
Proof.
  intros Hp Hq Hr. revert Hp. induction Hq as [|x y l k Hxy _ IH]; intros Hp; [constructor | ].
  apply Forall_cons_1 in Hp as [? ?]. constructor; auto.
Qed.

(** The list of the natural numbers from [i] up to, not including, [n]: the
    values of the index of [for (k = i; k < n; k++)]. *)
Definition upto (i n : nat) : list nat := seq i (n - i).

Lemma elem_of_upto i n k : k ∈ upto i n ↔ i ≤ k < n.
Proof. unfold upto. rewrite elem_of_seq. lia. Qed.

(** Induction on the iterations of a counted loop: [P k] holds of the state
    before the iteration [k]. *)
Lemma foldl_upto_ind {A} (P : nat → A → Prop) (f : A → nat → A) i n a :
  i ≤ n → P i a → (∀ k a, i ≤ k < n → P k a → P (S k) (f a k)) →
  P n (foldl f a (upto i n)).
Proof.
  intros Hle Ha Hstep. unfold upto.
  assert (∀ m k a, k + m = n → i ≤ k → P k a → P n (foldl f a (seq k m))) as Hgen.
  { induction m as [|m IH]; intros k b Hk Hik Hb; simpl.
    - by replace n with k by lia.
    - apply IH; [lia | lia | ]. apply Hstep; [lia | done]. }
  apply Hgen; [lia | lia | done].
Qed.

(** Two counted loops that run in step. *)
Lemma foldl_seq_rel {A B} (Q : nat → A → B → Prop) (f : A → nat → A) (g : B → nat → B) i n a b :
  Q i a b → (∀ k a b, i ≤ k < i + n → Q k a b → Q (S k) (f a k) (g b k)) →
  Q (i + n) (foldl f a (seq i n)) (foldl g b (seq i n)).
Proof.
  revert i a b. induction n as [|n IH]; intros i a b Hab Hstep; simpl.
  - by rewrite Nat.add_0_r.
  - rewrite <- Nat.add_succ_comm. apply IH; [apply Hstep; [lia | done] | ].
    intros k a' b' Hk. apply Hstep. lia.
Qed.
