(* ===== verification/Words.v ===== *)
(** Machine words of the C code: the build target as a type class, unsigned
    arithmetic with its wrap-around, the complement of a mask, rounding to a
    power of two, and byte strings as integers in either byte order. *)

From Stdlib Require Import ZArith Lia.
From stdpp Require Import base tactics list numbers.
From coqutil Require Import Byte Word.LittleEndianList.
From S2P Require Import Prelude.

#[local] Open Scope Z_scope.

(** ** The target

    The same C sources are built for i386, x86_64 and ppc: the width of
    [unsigned long] and [size_t], the page size [getpagesize ()] and the byte
    order ([BYTE_ORDER]) are the target's. *)

Class Arch := {
  ulong_bits : Z;
  page_bits : Z;
  host_be : bool;
  ulong_bits_ok : ulong_bits = 32 ∨ ulong_bits = 64;
  page_bits_ok : 12 ≤ page_bits ≤ 16
}.

Definition i386 : Arch.
Proof. refine {| ulong_bits := 32; page_bits := 12; host_be := false |}; lia. Defined.

Definition x86_64 : Arch.
Proof. refine {| ulong_bits := 64; page_bits := 12; host_be := false |}; lia. Defined.

Definition ppc : Arch.
Proof. refine {| ulong_bits := 32; page_bits := 12; host_be := true |}; lia. Defined.

(** ** Unsigned integers *)

Definition u8 (z : Z) : Z := z `mod` 2 ^ 8.
Definition u16 (z : Z) : Z := z `mod` 2 ^ 16.
Definition u32 (z : Z) : Z := z `mod` 2 ^ 32.
Definition u64 (z : Z) : Z := z `mod` 2 ^ 64.

(** [~x] on unsigned integers of [w] bits. *)
Definition notw (w x : Z) : Z := Z.land (Z.lnot x) (Z.ones w).

Section arch.
Context `{Arch}.

(** Conversion to [unsigned long] (and to [size_t]). *)
Definition ul (z : Z) : Z := z `mod` 2 ^ ulong_bits.

Definition ULONG_MAX : Z := 2 ^ ulong_bits - 1.

Definition pagesize : Z := 2 ^ page_bits.
End arch.

Definition INT_MAX : Z := 2 ^ 31 - 1.

(** ** Rounding to a power of two *)

Definition pow2 (a : Z) : Prop := ∃ k, 0 ≤ k ∧ a = 2 ^ k.

(** [x & ~(a - 1)] and [(x + a - 1) & ~(a - 1)] without the wrap-around. *)
Definition round_down (x a : Z) : Z := a * (x / a).
Definition round_up (x a : Z) : Z := round_down (x + a - 1) a.

(** ** Bytes as integers *)

(** Big-endian counterpart of coqutil's [le_combine] and [le_split]. *)
Definition be_combine (l : list byte) : Z := le_combine (rev l).
Definition be_split (n : nat) (z : Z) : list byte := rev (le_split n z).

(** The value of the integer whose object representation is [l] in the byte
    order [be], and the representation of an integer. *)
Definition combine (be : bool) (l : list byte) : Z :=
  if be then be_combine l else le_combine l.
Definition split (be : bool) (n : nat) (z : Z) : list byte :=
  if be then be_split n z else le_split n z.

(** [bswap_16], [bswap_32] and [bswap_64] of <byteswap.h>. *)
Definition bswap (n : nat) (z : Z) : Z := be_combine (le_split n z).

(** ** Lemmas *)

Section arch_lemmas.
Context `{Arch}.

Lemma ulong_bits_pos : 32 ≤ ulong_bits ≤ 64.
Proof. destruct ulong_bits_ok as [-> | ->]; lia. Qed.

Lemma ulong_mod_pos : 0 < 2 ^ ulong_bits.
Proof. pose proof ulong_bits_pos. apply Z.pow_pos_nonneg; lia. Qed.

Lemma ulong_mod_ge : 2 ^ 32 ≤ 2 ^ ulong_bits ≤ 2 ^ 64.
Proof. pose proof ulong_bits_pos. split; apply Z.pow_le_mono_r; lia. Qed.

Lemma ul_range z : 0 ≤ ul z < 2 ^ ulong_bits.
Proof. unfold ul. apply Z.mod_pos_bound, ulong_mod_pos. Qed.

Lemma ul_le_max z : 0 ≤ ul z ≤ ULONG_MAX.
Proof. unfold ULONG_MAX. pose proof (ul_range z). lia. Qed.

Lemma ul_small z : 0 ≤ z < 2 ^ ulong_bits → ul z = z.
Proof. apply Z.mod_small. Qed.

Lemma ul_id z : 0 ≤ z ≤ ULONG_MAX → ul z = z.
Proof. intros. apply ul_small. unfold ULONG_MAX in *. lia. Qed.

Lemma pagesize_pos : 0 < pagesize.
Proof. unfold pagesize. pose proof page_bits_ok. apply Z.pow_pos_nonneg; lia. Qed.

Lemma pow2_pagesize : pow2 pagesize.
Proof. exists page_bits. pose proof page_bits_ok. split; [lia | done]. Qed.

Lemma pagesize_ge : 4096 ≤ pagesize.
Proof.
  unfold pagesize. pose proof page_bits_ok. change 4096 with (2 ^ 12).
  apply Z.pow_le_mono_r; lia.
Qed.

Lemma pagesize_lt : pagesize < 2 ^ 32.
Proof. unfold pagesize. pose proof page_bits_ok. apply Z.pow_lt_mono_r; lia. Qed.
End arch_lemmas.

Lemma u64_small z : 0 ≤ z < 2 ^ 64 → u64 z = z.
Proof. apply Z.mod_small. Qed.

Lemma u32_small z : 0 ≤ z < 2 ^ 32 → u32 z = z.
Proof. apply Z.mod_small. Qed.

Lemma u32_range z : 0 ≤ u32 z < 2 ^ 32.
Proof. apply Z.mod_pos_bound. lia. Qed.

Lemma u32_add_l a b : u32 (u32 a + b) = u32 (a + b).
Proof. apply Zplus_mod_idemp_l. Qed.

Lemma u32_add_r a b : u32 (a + u32 b) = u32 (a + b).
Proof. apply Zplus_mod_idemp_r. Qed.

Lemma pow2_pos a : pow2 a → 0 < a.
Proof. intros (k & ? & ->). apply Z.pow_pos_nonneg; lia. Qed.

(** [x & ~(a - 1)] rounds down to a multiple of [a]. *)
Lemma land_notw_pow2 w x a :
  0 ≤ w → pow2 a → 0 ≤ x < 2 ^ w → Z.land x (notw w (a - 1)) = round_down x a.
Proof.
  intros Hw (k & Hk & ->) Hx. unfold notw, round_down.
  rewrite Z.land_assoc, <- Z.ldiff_land.
  replace (2 ^ k - 1) with (Z.ones k) by (rewrite Z.ones_equiv; lia).
  rewrite Z.ldiff_ones_r by lia.
  rewrite Z.land_ones, Z.shiftl_mul_pow2, Z.shiftr_div_pow2 by lia.
  assert (0 < 2 ^ k) by (apply Z.pow_pos_nonneg; lia).
  pose proof (Z.mul_div_le x (2 ^ k)). pose proof (Z.div_pos x (2 ^ k)).
  rewrite Z.mod_small; lia.
Qed.

(** [x & (a - 1)] is the remainder. *)
Lemma land_pow2_mod x a : pow2 a → Z.land x (a - 1) = x `mod` a.
Proof.
  intros (k & Hk & ->).
  replace (2 ^ k - 1) with (Z.ones k) by (rewrite Z.ones_equiv; lia).
  by apply Z.land_ones.
Qed.

Lemma round_down_spec x a : 0 < a → round_down x a ≤ x < round_down x a + a.
Proof.
  intros. unfold round_down.
  pose proof (Z.mul_div_le x a). pose proof (Z.mul_succ_div_gt x a). lia.
Qed.

Lemma round_down_divide x a : (a | round_down x a).
Proof. unfold round_down. apply Z.divide_factor_l. Qed.

Lemma round_down_nonneg x a : 0 < a → 0 ≤ x → 0 ≤ round_down x a.
Proof. intros. unfold round_down. pose proof (Z.div_pos x a). nia. Qed.

Lemma round_up_spec x a : 0 < a → x ≤ round_up x a < x + a.
Proof. intros. unfold round_up. pose proof (round_down_spec (x + a - 1) a). lia. Qed.

Lemma round_up_divide x a : (a | round_up x a).
Proof. apply round_down_divide. Qed.

(** An [or] of numbers without a common bit is their sum. *)
Lemma lor_disjoint a b k : 0 ≤ k → 0 ≤ a < 2 ^ k → Z.lor a (b * 2 ^ k) = a + b * 2 ^ k.
Proof.
  intros Hk Ha. rewrite <- Z.add_lor_land.
  enough (Z.land a (b * 2 ^ k) = 0) by lia.
  apply Z.bits_inj'. intros n Hn. rewrite Z.land_spec, Z.bits_0.
  destruct (decide (n < k)).
  - rewrite Z.mul_pow2_bits_low by lia. apply andb_false_r.
  - replace a with (a `mod` 2 ^ k) by (apply Z.mod_small; lia).
    rewrite Z.mod_pow2_bits_high by lia. done.
Qed.

(** Among the multiples of [a], [round_up x a] is the least one not below [x]
    and [round_down x a] the greatest one not above [x]. *)
Lemma round_up_least x a y : 0 < a → (a | y) → x ≤ y → round_up x a ≤ y.
Proof.
  intros Ha [q ->] Hy. pose proof (round_up_spec x a Ha).
  destruct (round_up_divide x a) as [p Hp]. rewrite Hp in H |- *.
  apply Z.mul_le_mono_nonneg_r; [lia | ].
  apply Z.lt_succ_r, (Z.mul_lt_mono_pos_r a); lia.
Qed.

Lemma round_down_greatest x a y : 0 < a → (a | y) → y ≤ x → y ≤ round_down x a.
Proof.
  intros Ha [q ->] Hy. pose proof (round_down_spec x a Ha).
  destruct (round_down_divide x a) as [p Hp]. rewrite Hp in H |- *.
  apply Z.mul_le_mono_nonneg_r; [lia | ].
  apply Z.lt_succ_r, (Z.mul_lt_mono_pos_r a); lia.
Qed.

Lemma pow2_divide a b : pow2 a → pow2 b → a ≤ b → (a | b).
Proof.
  intros (i & Hi & ->) (j & Hj & ->) Hle.
  assert (i ≤ j) by (apply (Z.pow_le_mono_r_iff 2); lia).
  exists (2 ^ (j - i)). rewrite <- Z.pow_add_r by lia. f_equal. lia.
Qed.

Lemma divide_lt_add a x y : 0 < a → (a | x) → (a | y) → x < y → x + a ≤ y.
Proof.
  intros Ha [p ->] [q ->] Hlt%(Z.mul_lt_mono_pos_r a); [ | done].
  replace (p * a + a) with ((p + 1) * a) by ring.
  apply Z.mul_le_mono_nonneg_r; lia.
Qed.

(** ** Lemmas on byte order *)

Lemma be_combine_split n z : be_combine (be_split n z) = z `mod` 2 ^ (Z.of_nat n * 8).
Proof. unfold be_combine, be_split. rewrite rev_involutive. apply le_combine_split. Qed.

Lemma combine_split be n z : combine be (split be n z) = z `mod` 2 ^ (Z.of_nat n * 8).
Proof. destruct be; [apply be_combine_split | apply le_combine_split]. Qed.

Lemma length_split be n z : length (split be n z) = n.
Proof.
  destruct be; simpl; unfold be_split; rewrite ?length_rev; apply length_le_split.
Qed.

Lemma split_combine be l : split be (length l) (combine be l) = l.
Proof.
  destruct be; simpl; [ | apply split_le_combine].
  unfold be_split, be_combine.
  rewrite <- (length_rev l), split_le_combine. apply rev_involutive.
Qed.

Lemma combine_range be l : 0 ≤ combine be l < 2 ^ (8 * Z.of_nat (length l)).
Proof.
  destruct be; simpl; [ | apply le_combine_bound].
  unfold be_combine. rewrite <- (length_rev l). apply le_combine_bound.
Qed.

Lemma bswap_combine be l :
  bswap (length l) (combine be l) = combine (negb be) l.
Proof.
  unfold bswap. destruct be; simpl.
  - unfold be_combine. rewrite <- (length_rev l), split_le_combine.
    by rewrite rev_involutive.
  - by rewrite split_le_combine.
Qed.
