(* ===== verification/CMem.v ===== *)
(** The memory of a C program: a finite map of blocks (the objects and the
    results of [malloc]), each a string of bytes; pointers are a block and an
    offset.  Reading or writing outside a block is undefined behaviour. *)

From Stdlib Require Import ZArith Lia String.
From stdpp Require Import base tactics list numbers gmap.
From coqutil Require Import Byte.
From S2P Require Import Prelude Words.

#[local] Open Scope Z_scope.

Record ptr := { p_blk : positive; p_off : Z }.

#[export] Instance ptr_eq_dec : EqDecision ptr.
Proof. solve_decision. Defined.

(** Pointer arithmetic on [char *]. *)
Definition ptr_add (p : ptr) (n : Z) : ptr :=
  {| p_blk := p_blk p; p_off := p_off p + n |}.

(** The [n] bytes at offset [off] of an object, as [memcpy] reads them. *)
Definition read_at (l : list byte) (off n : Z) : outcome (list byte) :=
  if (0 <=? off) && (0 <=? n) && (off + n <=? Z.of_nat (length l))
  then Ret (take (Z.to_nat n) (drop (Z.to_nat off) l))
  else UB "read outside an object".

(** [l] with [data] written at index [i], as [memcpy (l + i, data, ...)]
    leaves it when the copy stays inside [l]. *)
Definition overwrite (l : list byte) (i : nat) (data : list byte) : list byte :=
  take i l ++ data ++ drop (i + length data) l.

Definition write_at (l : list byte) (off : Z) (data : list byte) : outcome (list byte) :=
  if (0 <=? off) && (off + Z.of_nat (length data) <=? Z.of_nat (length l))
  then Ret (overwrite l (Z.to_nat off) data)
  else UB "write outside an object".

Definition load (m : gmap positive (list byte)) (p : ptr) (n : Z) : outcome (list byte) :=
  match m !! p_blk p with
  | Some l => read_at l (p_off p) n
  | None => UB "read through a dangling pointer"
  end.

Definition store (m : gmap positive (list byte)) (p : ptr) (data : list byte)
    : outcome (gmap positive (list byte)) :=
  match m !! p_blk p with
  | Some l => l' ← write_at l (p_off p) data; mret (<[p_blk p := l']> m)
  | None => UB "write through a dangling pointer"
  end.

(** A fresh object with the contents [l]. *)
Definition alloc (m : gmap positive (list byte)) (l : list byte)
    : gmap positive (list byte) * ptr :=
  let b := fresh (dom m) in (<[b := l]> m, {| p_blk := b; p_off := 0 |}).

(** ** Lemmas *)

Lemma read_at_Ret l off n d :
  read_at l off n = Ret d ↔
  0 ≤ off ∧ 0 ≤ n ∧ off + n ≤ Z.of_nat (length l) ∧
  d = take (Z.to_nat n) (drop (Z.to_nat off) l).
Proof.
  unfold read_at. case_if.
  - rewrite !andb_true_iff, !Z.leb_le in E. naive_solver.
  - rewrite !andb_false_iff, !Z.leb_gt in E. split; [done | lia].
Qed.

Lemma read_at_defined l off n :
  defined (read_at l off n) ↔ 0 ≤ off ∧ 0 ≤ n ∧ off + n ≤ Z.of_nat (length l).
Proof.
  unfold read_at. case_if; simpl.
  - rewrite !andb_true_iff, !Z.leb_le in E. tauto.
  - rewrite !andb_false_iff, !Z.leb_gt in E. lia.
Qed.

Lemma read_at_length l off n d :
  read_at l off n = Ret d → Z.of_nat (length d) = n.
Proof.
  intros (? & ? & ? & ->)%read_at_Ret. rewrite length_take, length_drop. lia.
Qed.

Lemma length_overwrite l i data :
  (i + length data ≤ length l)%nat → length (overwrite l i data) = length l.
Proof.
  intros. unfold overwrite. rewrite !length_app, length_take, length_drop. lia.
Qed.

Lemma take_overwrite l i data :
  (i ≤ length l)%nat → take (i + length data) (overwrite l i data) = take i l ++ data.
Proof.
  intros. unfold overwrite. rewrite app_assoc, take_app_length'; [done | ].
  rewrite length_app, length_take. lia.
Qed.

Lemma overwrite_read l i data :
  (i + length data ≤ length l)%nat →
  take (length data) (drop i (overwrite l i data)) = data.
Proof.
  intros. unfold overwrite.
  rewrite drop_app_length' by (rewrite length_take; lia).
  by rewrite take_app_length.
Qed.

Lemma overwrite_full l data :
  length data = length l → overwrite l 0 data = data.
Proof. intros E. unfold overwrite. simpl. rewrite E, drop_all. by rewrite app_nil_r. Qed.

Lemma write_at_Ret l off data l' :
  write_at l off data = Ret l' ↔
  0 ≤ off ∧ off + Z.of_nat (length data) ≤ Z.of_nat (length l) ∧
  l' = overwrite l (Z.to_nat off) data.
Proof.
  unfold write_at. case_if.
  - rewrite !andb_true_iff, !Z.leb_le in E. naive_solver.
  - rewrite !andb_false_iff, !Z.leb_gt in E. split; [done | lia].
Qed.

Lemma alloc_lookup m l : (alloc m l).1 !! p_blk (alloc m l).2 = Some l.
Proof. simpl. by rewrite lookup_insert_eq. Qed.

Lemma alloc_fresh m l b l0 : m !! b = Some l0 → (alloc m l).1 !! b = Some l0.
Proof.
  intros Hb. simpl. rewrite lookup_insert_ne; [done | ].
  intros <-. apply (is_fresh (dom m)). by apply elem_of_dom_2 in Hb.
Qed.

(** ** Loads and stores *)

Lemma store_Ret m p data m' :
  store m p data = Ret m' ↔
  ∃ l, m !! p_blk p = Some l ∧ 0 ≤ p_off p ∧
       p_off p + Z.of_nat (length data) ≤ Z.of_nat (length l) ∧
       m' = <[p_blk p := overwrite l (Z.to_nat (p_off p)) data]> m.
Proof.
  unfold store. split.
  - destruct (m !! p_blk p) as [l|]; [ | done]. intros (l' & E & Hm)%bind_Ret. inv_ret.
    apply write_at_Ret in E as (? & ? & ->). eauto 6.
  - intros (l & -> & ? & ? & ->). apply bind_Ret. eexists. split; [ | done].
    by apply write_at_Ret.
Qed.

Lemma load_Ret m p n d :
  load m p n = Ret d ↔
  ∃ l, m !! p_blk p = Some l ∧ 0 ≤ p_off p ∧ 0 ≤ n ∧
       p_off p + n ≤ Z.of_nat (length l) ∧ d = take (Z.to_nat n) (drop (Z.to_nat (p_off p)) l).
Proof.
  unfold load. split.
  - destruct (m !! p_blk p) as [l|]; [ | done]. intros (? & ? & ? & ->)%read_at_Ret. eauto 8.
  - intros (l & -> & ? & ? & ? & ->). by apply read_at_Ret.
Qed.

Lemma load_length m p n d : load m p n = Ret d → Z.of_nat (length d) = n.
Proof. unfold load. destruct (m !! _); [apply read_at_length | done]. Qed.

Lemma load_other_block m p q l n :
  p_blk q ≠ p_blk p → load (<[p_blk p := l]> m) q n = load m q n.
Proof. intros. unfold load. by rewrite lookup_insert_ne. Qed.

Lemma store_load m p data m' :
  store m p data = Ret m' → load m' p (Z.of_nat (length data)) = Ret data.
Proof.
  intros (l & Hl & H0 & Hle & ->)%store_Ret. apply load_Ret.
  eexists. rewrite lookup_insert_eq. split; [done | ]. split; [done | ]. split; [lia | ].
  rewrite length_overwrite by lia. split; [lia | ].
  rewrite Nat2Z.id. by rewrite overwrite_read by lia.
Qed.

(** What [overwrite] leaves before and after the bytes it writes. *)
Lemma overwrite_before l i data j n :
  (i + length data ≤ length l)%nat → (j + n ≤ i)%nat →
  take n (drop j (overwrite l i data)) = take n (drop j l).
Proof.
  intros Hl Hn. unfold overwrite.
  rewrite drop_app_le by (rewrite length_take; lia).
  rewrite take_app_le by (rewrite length_drop, length_take; lia).
  rewrite skipn_firstn_comm, take_take. f_equal. lia.
Qed.

Lemma overwrite_after l i data j n :
  (i + length data ≤ length l)%nat → (i + length data ≤ j)%nat →
  take n (drop j (overwrite l i data)) = take n (drop j l).
Proof.
  intros Hl Hn. unfold overwrite. rewrite app_assoc.
  rewrite drop_app_ge by (rewrite length_app, length_take; lia).
  rewrite length_app, length_take, drop_drop. f_equal. f_equal. lia.
Qed.

Lemma store_load_disjoint m p data m' q n :
  store m p data = Ret m' →
  p_blk q ≠ p_blk p ∨ p_off q + n ≤ p_off p ∨ p_off p + Z.of_nat (length data) ≤ p_off q →
  load m' q n = load m q n.
Proof.
  intros (l & Hl & H0 & Hle & ->)%store_Ret Hd.
  destruct (decide (p_blk q = p_blk p)) as [E | E]; [ | by apply load_other_block].
  destruct Hd as [? | Hd]; [done | ]. unfold load. rewrite E, lookup_insert_eq, Hl.
  unfold read_at. rewrite length_overwrite by lia. case_if; [ | done]. zbool. f_equal.
  destruct Hd.
  - apply overwrite_before; lia.
  - apply overwrite_after; lia.
Qed.

(** ** Reads and writes end *)

Lemma read_at_ends l off n : read_at l off n ≠ Spin.
Proof. unfold read_at. ends. Qed.

Lemma write_at_ends l off d : write_at l off d ≠ Spin.
Proof. unfold write_at. ends. Qed.

Lemma load_ends m p n : load m p n ≠ Spin.
Proof. unfold load. destruct (m !! p_blk p); [apply read_at_ends | done]. Qed.

Lemma store_ends m p d : store m p d ≠ Spin.
Proof.
  unfold store. destruct (m !! p_blk p); [ | done].
  apply bind_not_spin; [apply write_at_ends | by intros].
Qed.

#[export] Hint Resolve read_at_ends write_at_ends load_ends store_ends : ends.

(** Reads and writes of a part of an object. *)
Lemma read_at_app x y z i n :
  i = Z.of_nat (length x) → n = Z.of_nat (length y) → read_at (x ++ y ++ z) i n = Ret y.
Proof.
  intros -> ->. apply read_at_Ret. rewrite !length_app. split_and!; [lia.. | ].
  by rewrite !Nat2Z.id, drop_app_length, take_app_length.
Qed.

Lemma write_at_app x y z i d :
  i = Z.of_nat (length x) → length d = length y → write_at (x ++ y ++ z) i d = Ret (x ++ d ++ z).
Proof.
  intros -> Hd. unfold write_at. rewrite !length_app, Hd.
  assert ((0 <=? Z.of_nat (length x)) &&
          (Z.of_nat (length x) + Z.of_nat (length y) <=?
           Z.of_nat (length x + (length y + length z))) = true) as ->.
  { apply andb_true_iff. split; apply Z.leb_le; lia. }
  unfold overwrite. rewrite Nat2Z.id, take_app_length, Hd. do 3 f_equal.
  rewrite app_assoc, <- length_app. apply drop_app_length.
Qed.

Lemma read_at_front y z n : n = Z.of_nat (length y) → read_at (y ++ z) 0 n = Ret y.
Proof. apply (read_at_app []). done. Qed.

Lemma write_at_front y z d : length d = length y → write_at (y ++ z) 0 d = Ret (d ++ z).
Proof. apply (write_at_app []). done. Qed.
