(* ===== verification/CString.v ===== *)
(** The C library's strings as the program uses them.  A string is the list of
    its bytes before the final NUL; a buffer that need not be terminated is a
    plain [list byte]. *)

From Stdlib Require Import ZArith Lia String.
From stdpp Require Import base tactics list numbers.
From coqutil Require Import Byte.
From S2P Require Import Prelude Words CMem.

#[local] Open Scope Z_scope.

Definition byte_eqb (a b : byte) : bool := byte.unsigned a =? byte.unsigned b.

Definition isspace (c : byte) : bool :=
  let n := byte.unsigned c in (n =? 32) || ((9 <=? n) && (n <=? 13)).

Definition isdigit (c : byte) : bool :=
  let n := byte.unsigned c in (48 <=? n) && (n <=? 57).

Definition tolower (c : byte) : byte :=
  let n := byte.unsigned c in if (65 <=? n) && (n <=? 90) then byte.of_Z (n + 32) else c.

Definition toupper (c : byte) : byte :=
  let n := byte.unsigned c in if (97 <=? n) && (n <=? 122) then byte.of_Z (n - 32) else c.

(** The difference of the first bytes that differ. *)
Fixpoint strcmp (a b : list byte) : Z :=
  match a, b with
  | [], [] => 0
  | [], y :: _ => - byte.unsigned y
  | x :: _, [] => byte.unsigned x
  | x :: a, y :: b =>
      if byte_eqb x y then strcmp a b else byte.unsigned x - byte.unsigned y
  end.

Definition strncmp (a b : list byte) (n : nat) : Z := strcmp (take n a) (take n b).

Definition strcasecmp (a b : list byte) : Z := strcmp (map tolower a) (map tolower b).

Definition strncasecmp (a b : list byte) (n : nat) : Z :=
  strcasecmp (take n a) (take n b).

(** The index of the first byte [c]. *)
Fixpoint strchr (s : list byte) (c : byte) : option nat :=
  match s with
  | [] => None
  | x :: s => if byte_eqb x c then Some O else S <$> strchr s c
  end.

Definition prefixb (p s : list byte) : bool :=
  bool_decide (take (length p) s = p).

(** The index of the first occurrence of [needle]. *)
Fixpoint strstr (s needle : list byte) : option nat :=
  if prefixb needle s then Some O
  else match s with
       | [] => None
       | _ :: s => S <$> strstr s needle
       end.

(** The string that starts at a pointer into a buffer, up to its NUL; [None]
    when the buffer has no NUL. *)
Fixpoint cstr (buf : list byte) : option (list byte) :=
  match buf with
  | [] => None
  | c :: buf => if byte_eqb c Byte.x00 then Some [] else (cons c) <$> cstr buf
  end.

Definition nonul (s : list byte) : Prop := Byte.x00 ∉ s.

#[export] Instance nonul_dec s : Decision (nonul s).
Proof. unfold nonul. apply _. Defined.

(** ** strtoul *)

(** The value of a digit of a number in a base. *)
Definition digit (c : byte) : option Z :=
  let n := byte.unsigned c in
  if (48 <=? n) && (n <=? 57) then Some (n - 48)
  else if (97 <=? n) && (n <=? 122) then Some (n - 87)
  else if (65 <=? n) && (n <=? 90) then Some (n - 55)
  else None.

Fixpoint digits (base : Z) (s : list byte) (acc : Z) : Z * list byte :=
  match s with
  | [] => (acc, [])
  | c :: s' =>
      match digit c with
      | Some d => if d <? base then digits base s' (acc * base + d) else (acc, s)
      | None => (acc, s)
      end
  end.

(** [strtoul(s, &end, 0)]: the value and the string at [end].  Out of range
    values saturate at [ULONG_MAX]. *)
Definition strtoul `{Arch} (s : list byte) : Z * list byte :=
  let t := list_find (λ c, isspace c = false) s in
  let t := match t with Some (i, _) => drop i s | None => [] end in
  let '(neg, t) := match t with
    | Byte.x2d :: t => (true, t)
    | Byte.x2b :: t => (false, t)
    | _ => (false, t)
    end in
  let '(v, rest, any) := match t with
    | Byte.x30 :: (Byte.x78 | Byte.x58) :: ((c :: _) as u) =>
        match digit c with
        | Some d => if d <? 16 then let '(v, r) := digits 16 u 0 in (v, r, true)
                    else (0, drop 1 t, true)
        | None => (0, drop 1 t, true)
        end
    | Byte.x30 :: u => let '(v, r) := digits 8 u 0 in (v, r, true)
    | _ => let '(v, r) := digits 10 t 0 in (v, r, negb (length r =? length t)%nat)
    end in
  if negb any then (0, s)
  else if ULONG_MAX <? v then (ULONG_MAX, rest)
  else (if neg then ul (- v) else v, rest).

(** ** atoi *)

Definition blank_prefix (s : list byte) : list byte :=
  (fix skip s := match s with c :: s' => if isspace c then skip s' else s | [] => [] end) s.

Definition atoi `{Arch} (s : list byte) : Z :=
  let '(negative, s) := match blank_prefix s with
                        | Byte.x2d :: s => (true, s)
                        | Byte.x2b :: s => (false, s)
                        | s => (false, s)
                        end in
  let v := (digits 10 s 0).1 in
  let long_max := 2 ^ (ulong_bits - 1) - 1 in
  let v := if negative then Z.max (- long_max - 1) (- v) else Z.min long_max v in
  (v + 2 ^ 31) `mod` 2 ^ 32 - 2 ^ 31.

(** ** Lines of a file *)

(** [fgets(line, n, fp)]: the line, at most [n - 1] bytes up to and with the
    newline, and the rest of the file; [None] at its end. *)
Fixpoint fgets_bytes (n : nat) (s : list byte) : list byte * list byte :=
  match n, s with
  | S n, c :: s => if byte_eqb c Byte.x0a then ([c], s)
                   else let '(l, rest) := fgets_bytes n s in (c :: l, rest)
  | _, _ => ([], s)
  end.

Definition fgets (n : nat) (s : list byte) : option (list byte * list byte) :=
  match s with [] => None | _ => Some (fgets_bytes (n - 1) s) end.

(** The string in a buffer that holds [s] and then a NUL. *)
Fixpoint before_nul (s : list byte) : list byte :=
  match s with
  | [] => []
  | c :: s => if byte_eqb c Byte.x00 then [] else c :: before_nul s
  end.

Definition newline : byte := Byte.x0a.

(** The hexadecimal digit of a number below 16. *)
Definition hex_digit (d : Z) : byte := byte.of_Z (if d <? 10 then 48 + d else 87 + d).

(** ** Lemmas *)

Lemma unsigned_inj a b : byte.unsigned a = byte.unsigned b → a = b.
Proof. intros E. rewrite <- (byte.of_Z_unsigned a), E. apply byte.of_Z_unsigned. Qed.

Lemma byte_eqb_eq a b : byte_eqb a b = true ↔ a = b.
Proof. unfold byte_eqb. rewrite Z.eqb_eq. split; [apply unsigned_inj | by intros ->]. Qed.

Lemma byte_eqb_refl a : byte_eqb a a = true.
Proof. by apply byte_eqb_eq. Qed.

Lemma nonul_cons c s : nonul (c :: s) ↔ c ≠ Byte.x00 ∧ nonul s.
Proof. unfold nonul. rewrite elem_of_cons. naive_solver. Qed.

Lemma nonul_take n s : nonul s → nonul (take n s).
Proof.
  intros Hs Hin. apply Hs. rewrite <- (take_drop n s). apply elem_of_app. by left.
Qed.

Lemma nonul_app a b : nonul (a ++ b) ↔ nonul a ∧ nonul b.
Proof. unfold nonul. rewrite elem_of_app. tauto. Qed.

Lemma nonul_pos c : c ≠ Byte.x00 → 0 < byte.unsigned c.
Proof.
  intros Hc. pose proof (byte.unsigned_range c).
  assert (byte.unsigned c ≠ 0); [ | lia]. intros E. apply Hc. by apply unsigned_inj.
Qed.

(** On strings, without NUL inside, the comparisons tell equality. *)
Lemma strcmp_0 a b : nonul a → nonul b → strcmp a b = 0 ↔ a = b.
Proof.
  revert b. induction a as [|x a IH]; intros [|y b] Ha Hb; simpl; [done | | | ].
  - apply nonul_cons in Hb as [?%nonul_pos _]. split; [lia | done].
  - apply nonul_cons in Ha as [?%nonul_pos _]. split; [lia | done].
  - apply nonul_cons in Ha as [_ Ha]. apply nonul_cons in Hb as [_ Hb].
    destruct (byte_eqb x y) eqn:E.
    + apply byte_eqb_eq in E as ->. rewrite IH by done. naive_solver.
    + unfold byte_eqb in E. zbool. split; [lia | ]. intros [= -> ->]. lia.
Qed.

Lemma strncmp_0 a b n : nonul a → nonul b → strncmp a b n = 0 ↔ take n a = take n b.
Proof. intros. unfold strncmp. apply strcmp_0; by apply nonul_take. Qed.

Lemma prefixb_spec p s : prefixb p s = true ↔ p `prefix_of` s.
Proof.
  unfold prefixb. rewrite bool_decide_eq_true. split.
  - intros E. exists (drop (length p) s). by rewrite <- E at 1; rewrite take_drop.
  - intros [k ->]. by rewrite take_app_length.
Qed.

(** [strstr] finds the first occurrence. *)
Lemma strstr_Some s needle i :
  strstr s needle = Some i →
  needle `prefix_of` drop i s ∧ (i ≤ length s)%nat ∧
  ∀ j, (j < i)%nat → ¬ needle `prefix_of` drop j s.
Proof.
  revert i. induction s as [|c s IH]; intros i; simpl; destruct (prefixb needle _) eqn:E; try done.
  - intros [= <-]. apply prefixb_spec in E. split_and!; [done | lia | lia].
  - intros [= <-]. apply prefixb_spec in E. split_and!; [done | simpl; lia | lia].
  - intros (k & Hk & ->)%fmap_Some. destruct (IH k Hk) as (? & ? & Hno).
    split_and!; [done | simpl; lia | ]. intros [|j] Hj; simpl.
    + rewrite <- prefixb_spec, E. done.
    + apply Hno. lia.
Qed.

Lemma strstr_None s needle i :
  strstr s needle = None → (i ≤ length s)%nat → ¬ needle `prefix_of` drop i s.
Proof.
  revert i. induction s as [|c s IH]; intros i; simpl; destruct (prefixb needle _) eqn:E; try done.
  - intros _ Hi. replace i with 0%nat by lia. simpl. by rewrite <- prefixb_spec, E.
  - intros Hs%fmap_None Hi. destruct i as [|i]; simpl.
    + by rewrite <- prefixb_spec, E.
    + apply IH; [done | lia].
Qed.

Lemma strchr_Some s c i :
  strchr s c = Some i ↔ s !! i = Some c ∧ c ∉ take i s.
Proof.
  revert i. induction s as [|x s IH]; intros i; simpl; [split; [done | naive_solver] | ].
  destruct (byte_eqb x c) eqn:E.
  - apply byte_eqb_eq in E as ->. destruct i as [|i]; simpl.
    + split; [intros _; split; [done | apply not_elem_of_nil] | done].
    + split; [done | ]. intros [_ Hn]. exfalso. apply Hn. constructor.
  - assert (x ≠ c) as Hne by (intros ->; by rewrite byte_eqb_refl in E).
    destruct i as [|i]; simpl.
    + split; [by intros (? & _ & ?)%fmap_Some | naive_solver].
    + rewrite not_elem_of_cons. split.
      * intros (k & Hk & [= ->])%fmap_Some. apply IH in Hk as [? ?]. done.
      * intros (? & _ & ?). assert (strchr s c = Some i) as -> by (apply IH; done). done.
Qed.

Lemma cstr_Some buf s :
  cstr buf = Some s ↔ nonul s ∧ ∃ rest, buf = s ++ Byte.x00 :: rest.
Proof.
  revert s. induction buf as [|c buf IH]; intros s; simpl.
  { split; [done | ]. intros [_ [rest Hr]]. by destruct s. }
  destruct (byte_eqb c Byte.x00) eqn:E.
  - apply byte_eqb_eq in E as ->. split.
    + intros [= <-]. split; [apply not_elem_of_nil | by exists buf].
    + intros [Hs [rest Hr]]. destruct s as [|x s]; [done | ].
      injection Hr as <- _. apply nonul_cons in Hs as [? _]. done.
  - assert (c ≠ Byte.x00) as Hne by (intros ->; by rewrite byte_eqb_refl in E). split.
    + intros (k & (? & rest & ->)%IH & ->)%fmap_Some. split; [by apply nonul_cons | by exists rest].
    + intros [Hs [rest Hr]]. destruct s as [|x s].
      { injection Hr as Hc _. done. }
      injection Hr as Hc Hr. apply nonul_cons in Hs as [_ Hs].
      assert (cstr buf = Some s) as -> by (apply IH; by eauto). by subst.
Qed.

Lemma sixteen d : 0 ≤ d < 16 → d ∈ map Z.of_nat (seq 0 16).
Proof.
  intros Hd. replace d with (Z.of_nat (Z.to_nat d)) by lia. apply list_elem_of_fmap.
  exists (Z.to_nat d). split; [done | ]. apply elem_of_seq. lia.
Qed.

(** A property of the sixteen digits that computes. *)
Lemma hex_digit_forall (P : byte → bool) d :
  forallb P (map (λ n, hex_digit (Z.of_nat n)) (seq 0 16)) = true → 0 ≤ d < 16 → P (hex_digit d) = true.
Proof.
  intros HP Hd. rewrite forallb_forall in HP. apply HP, list_elem_of_In.
  apply sixteen, list_elem_of_fmap in Hd as (n & -> & Hn). apply list_elem_of_fmap. by exists n.
Qed.

Lemma digit_hex_digit d : 0 ≤ d < 16 → digit (hex_digit d) = Some d.
Proof.
  intros Hd. apply sixteen in Hd. simpl in Hd. rewrite !elem_of_cons, elem_of_nil in Hd.
  repeat (destruct Hd as [-> | Hd]; [reflexivity | ]). done.
Qed.

Lemma fgets_bytes_line n l rest :
  newline ∉ l → (length l < n)%nat → fgets_bytes n (l ++ newline :: rest) = (l ++ [newline], rest).
Proof.
  revert n. induction l as [|c l IH]; intros [|n] Hn Hl; simpl in Hl; try lia; cbn [app fgets_bytes].
  - change (byte_eqb newline Byte.x0a) with true. done.
  - rewrite not_elem_of_cons in Hn. destruct (byte_eqb c Byte.x0a) eqn:E.
    { apply byte_eqb_eq in E as ->. by destruct Hn. }
    rewrite IH; [done | apply Hn | lia].
Qed.

(** The first occurrence of a byte. *)
Lemma strchr_first a c b : c ∉ a → strchr (a ++ c :: b) c = Some (length a).
Proof.
  induction a as [|x a IH]; intros Ha; cbn [app strchr length]; [by rewrite byte_eqb_refl | ].
  rewrite not_elem_of_cons in Ha. destruct Ha as [Hx Ha].
  destruct (byte_eqb x c) eqn:E; [apply byte_eqb_eq in E; congruence | ]. by rewrite IH.
Qed.

Lemma strchr_absent s c : c ∉ s → strchr s c = None.
Proof.
  induction s as [|x s IH]; intros Hs; cbn [strchr]; [done | ].
  rewrite not_elem_of_cons in Hs. destruct Hs as [Hx Hs].
  destruct (byte_eqb x c) eqn:E; [apply byte_eqb_eq in E; congruence | ]. by rewrite IH.
Qed.

Lemma strstr_byte s c : strstr s [c] = strchr s c.
Proof.
  induction s as [|x s IH]; cbn [strstr strchr]; [done | ].
  assert (prefixb [c] (x :: s) = byte_eqb x c) as ->.
  { unfold prefixb. cbn [length take]. rewrite firstn_O. case_bool_decide as E; symmetry.
    - apply byte_eqb_eq. congruence.
    - apply not_true_is_false. rewrite byte_eqb_eq. congruence. }
  by rewrite IH.
Qed.
