(* ===== verification/Struct.v ===== *)
(** C structs as object representations: a struct type names its fields, each
    with an offset and a size, which do not overlap; a field of a struct in
    memory is read and written through a pointer to the struct. *)

From Stdlib Require Import ZArith Lia String.
From stdpp Require Import base tactics list numbers gmap.
From coqutil Require Import Byte.
From S2P Require Import Prelude Words CMem.

#[local] Open Scope Z_scope.

(** The layout of a struct with the fields [F]. *)
Class Struct (F : Type) := {
  f_off : F → Z;
  f_size : F → nat;
  sizeof : Z;
  f_inside : ∀ f, 0 ≤ f_off f ∧ f_off f + Z.of_nat (f_size f) ≤ sizeof;
  f_apart : ∀ f g, f ≠ g →
    f_off f + Z.of_nat (f_size f) ≤ f_off g ∨ f_off g + Z.of_nat (f_size g) ≤ f_off f
}.
#[global] Arguments sizeof F {_}.

(** The laws of a layout on an enumerated type of fields. *)
Ltac layout_laws :=
  lazymatch goal with
  | |- ∀ f, _ ∧ _ => intros []; vm_compute; split; discriminate
  | |- ∀ f g, f ≠ g → _ =>
      intros [] []; (intros ?; congruence) ||
        (intros _; first [left; vm_compute; discriminate | right; vm_compute; discriminate])
  end.

Section struct.
Context `{Arch} `{Struct F}.
Implicit Types (m : gmap positive (list byte)) (p : ptr) (f g : F) (l : list byte).

(** The integer in the field [f] of the struct whose representation is [l]. *)
Definition sfield l f : Z :=
  combine host_be (take (f_size f) (drop (Z.to_nat (f_off f)) l)).

(** [p->f] and [p->f = v], for a struct in memory. *)
Definition get_field m p f : outcome Z :=
  l ← load m (ptr_add p (f_off f)) (Z.of_nat (f_size f)); mret (combine host_be l).

Definition set_field m p f (v : Z) : outcome (gmap positive (list byte)) :=
  store m (ptr_add p (f_off f)) (split host_be (f_size f) v).

(** [s.f = v], for a struct held by value. *)
Definition with_field l f (v : Z) : list byte :=
  overwrite l (Z.to_nat (f_off f)) (split host_be (f_size f) v).

(** Several assignments [p->f = v], in their order. *)
Fixpoint set_fields m p (fs : list (F * Z)) : outcome (gmap positive (list byte)) :=
  match fs with
  | [] => Ret m
  | (f, v) :: fs => m ← set_field m p f v; set_fields m p fs
  end.

(** ** Lemmas *)

Lemma get_set_field m p f v m' :
  set_field m p f v = Ret m' → get_field m' p f = Ret (v `mod` 2 ^ (Z.of_nat (f_size f) * 8)).
Proof.
  unfold set_field, get_field. intros Hs. apply store_load in Hs.
  rewrite length_split in Hs. by rewrite Hs, bind_Ret_l, combine_split.
Qed.

Lemma get_set_field_ne m p f g v m' :
  set_field m p f v = Ret m' → f ≠ g → get_field m' p g = get_field m p g.
Proof.
  unfold set_field, get_field. intros Hs Hne.
  rewrite (store_load_disjoint _ _ _ _ _ _ Hs); [done | ]. right. simpl.
  rewrite length_split. pose proof (f_apart f g Hne). lia.
Qed.

Lemma set_field_load m p f v m' q n :
  set_field m p f v = Ret m' →
  p_blk q ≠ p_blk p ∨ p_off q + n ≤ p_off p + f_off f ∨
    p_off p + f_off f + Z.of_nat (f_size f) ≤ p_off q →
  load m' q n = load m q n.
Proof.
  unfold set_field. intros Hs Hd. apply (store_load_disjoint _ _ _ _ _ _ Hs). simpl.
  rewrite length_split. done.
Qed.

(** What a run of assignments leaves in a field: the last value assigned to it. *)
Lemma set_fields_get_other fs : ∀ m p g m',
  set_fields m p fs = Ret m' → g ∉ map fst fs → get_field m' p g = get_field m p g.
Proof.
  induction fs as [|[f v] fs IH]; intros m p g m'; simpl; [by intros [= ->] | ].
  intros (m1 & Hs & Hm)%bind_Ret Hg. rewrite not_elem_of_cons in Hg. destruct Hg as [Hne Hg].
  rewrite (IH _ _ _ _ Hm Hg). by eapply get_set_field_ne.
Qed.

Lemma set_fields_get fs : ∀ m p g v m',
  set_fields m p fs = Ret m' → NoDup (map fst fs) → (g, v) ∈ fs →
  get_field m' p g = Ret (v `mod` 2 ^ (Z.of_nat (f_size g) * 8)).
Proof.
  induction fs as [|[f v'] fs IH]; intros m p g v m'; simpl; [by intros _ _ ?%not_elem_of_nil | ].
  intros (m1 & Hs & Hm)%bind_Ret [Hf Hnd]%NoDup_cons [[= <- <-] | Hin]%elem_of_cons; [ | by eapply IH].
  rewrite (set_fields_get_other _ _ _ _ _ Hm Hf). by eapply get_set_field.
Qed.

(** Assignments leave what lies off their fields. *)
Definition off_field p q (n : Z) f : Prop :=
  p_blk q ≠ p_blk p ∨ p_off q + n ≤ p_off p + f_off f ∨
  p_off p + f_off f + Z.of_nat (f_size f) ≤ p_off q.

Lemma set_fields_load_off fs : ∀ m p m' q n,
  set_fields m p fs = Ret m' → Forall (off_field p q n) (map fst fs) → load m' q n = load m q n.
Proof.
  induction fs as [|[f v] fs IH]; intros m p m' q n; simpl; [by intros [= ->] | ].
  intros (m1 & Hs & Hm)%bind_Ret [Hf Hd]%Forall_cons. rewrite (IH _ _ _ _ _ Hm Hd).
  by apply (set_field_load _ _ _ _ _ _ _ Hs).
Qed.

Lemma off_struct p q n fs :
  p_blk q ≠ p_blk p ∨ p_off q + n ≤ p_off p ∨ p_off p + sizeof F ≤ p_off q →
  Forall (off_field p q n) fs.
Proof. intros Hd. apply Forall_true. intros f. pose proof (f_inside f). unfold off_field. lia. Qed.

Lemma set_field_block m p f v m' b :
  set_field m p f v = Ret m' → b ≠ p_blk p → m' !! b = m !! b.
Proof.
  unfold set_field. intros (l & _ & _ & _ & ->)%store_Ret Hb. by rewrite lookup_insert_ne.
Qed.

Lemma set_fields_app fs gs m p :
  set_fields m p (fs ++ gs) = (m ← set_fields m p fs; set_fields m p gs).
Proof.
  revert m. induction fs as [|[f v] fs IH]; intros m; simpl; [done | ].
  destruct (set_field m p f v); [apply IH | done..].
Qed.

Lemma length_with_field l f v :
  Z.of_nat (length l) = sizeof F → length (with_field l f v) = length l.
Proof.
  intros Hl. apply length_overwrite. rewrite length_split. pose proof (f_inside f). lia.
Qed.

Lemma field_with_field l f v :
  Z.of_nat (length l) = sizeof F →
  sfield (with_field l f v) f = v `mod` 2 ^ (Z.of_nat (f_size f) * 8).
Proof.
  intros Hl. unfold sfield, with_field. pose proof (f_inside f).
  rewrite <- (length_split host_be (f_size f) v) at 1.
  rewrite overwrite_read by (rewrite length_split; lia). apply combine_split.
Qed.

Lemma field_with_field_ne l f g v :
  Z.of_nat (length l) = sizeof F → f ≠ g → sfield (with_field l f v) g = sfield l g.
Proof.
  intros Hl Hne. unfold sfield, with_field. f_equal.
  pose proof (f_inside f). pose proof (f_inside g). destruct (f_apart f g Hne).
  - apply overwrite_after; rewrite length_split; lia.
  - apply overwrite_before; rewrite ?length_split; lia.
Qed.

(** A field whose representation is a part of a concatenation. *)
Lemma sfield_app x y z f :
  f_off f = Z.of_nat (length x) → f_size f = length y → sfield (x ++ y ++ z) f = combine host_be y.
Proof.
  intros Ho Hs. unfold sfield. rewrite Ho, Nat2Z.id, Hs, drop_app_length, take_app_length. done.
Qed.

Lemma sfield_range l f : 0 ≤ sfield l f < 2 ^ (8 * Z.of_nat (f_size f)).
Proof.
  unfold sfield. pose proof (combine_range host_be (take (f_size f) (drop (Z.to_nat (f_off f)) l))) as Hr.
  rewrite length_take in Hr.
  pose proof (Z.pow_le_mono_r 2 (8 * Z.of_nat (f_size f `min` length (drop (Z.to_nat (f_off f)) l)))
    (8 * Z.of_nat (f_size f))). lia.
Qed.

(** A run of assignments to a struct held by value. *)
Definition with_fields (l : list byte) (fs : list (F * Z)) : list byte :=
  foldl (λ l '(f, v), with_field l f v) l fs.

Lemma length_with_fields fs : ∀ l,
  Z.of_nat (length l) = sizeof F → length (with_fields l fs) = length l.
Proof.
  induction fs as [|[f v] fs IH]; intros l Hl; [done | ]. unfold with_fields in *. cbn [foldl].
  rewrite IH; rewrite length_with_field; done.
Qed.
End struct.
