(* ===== verification/Uuid.v ===== *)
(** The identifiers of file systems: kexec-tools/util_lib/ext2_uuid.c, whose text
    linuxrc/linuxrc.c and utils/get-uuid.c repeat.  An identifier is 16 bytes of
    the superblock; the program compares and prints it as a string. *)

From Stdlib Require Import ZArith Lia String.
From stdpp Require Import base tactics list numbers.
From coqutil Require Import Byte.
From S2P Require Import Prelude Words CMem CString.

#[local] Open Scope Z_scope.

(** ** printf *)

(** The hexadecimal digits of an unsigned int. *)
Fixpoint hex_digits (fuel : nat) (z : Z) (acc : list byte) : list byte :=
  match fuel with
  | O => acc
  | S fuel =>
      if z <? 16 then hex_digit z :: acc
      else hex_digits fuel (z / 16) (hex_digit (z `mod` 16) :: acc)
  end.

(** [%0<n>x] *)
Definition print_x (n : nat) (z : Z) : list byte :=
  let d := hex_digits 8 z [] in repeat Byte.x30 (n - length d) ++ d.

(** ** ext2_uuid.c *)

Record uuid := {
  time_low : Z; time_mid : Z; time_hi_and_version : Z; clock_seq : Z; node : list byte
}.

(** The loop does not advance its pointer: it looks at the first byte 16 times. *)
Definition is_null_uuid (uu : list byte) : bool :=
  forallb (λ _, bool_decide (nth 0 uu Byte.x00 = Byte.x00)) (upto 0 16).

(** [tmp = (tmp << 8) | *ptr++], on [__u32]. *)
Definition take_byte (tmp : Z) (b : byte) : Z := u32 (Z.lor (Z.shiftl tmp 8) (byte.unsigned b)).

Definition unpack_uuid (i : list byte) : uuid :=
  let word n off := foldl take_byte 0 (take n (drop off i)) in
  {| time_low := word 4%nat 0%nat; time_mid := u16 (word 2%nat 4%nat);
     time_hi_and_version := u16 (word 2%nat 6%nat); clock_seq := u16 (word 2%nat 8%nat);
     node := take 6 (drop 10 i) |}.

Definition uuid_to_str (uu : list byte) : list byte :=
  let u := unpack_uuid uu in
  print_x 8 (time_low u) ++ bs "-" ++ print_x 4 (time_mid u) ++ bs "-"
  ++ print_x 4 (time_hi_and_version u) ++ bs "-" ++ print_x 2 (Z.shiftr (clock_seq u) 8)
  ++ print_x 2 (Z.land (clock_seq u) 0xFF) ++ bs "-"
  ++ concat (map (λ b, print_x 2 (byte.unsigned b)) (node u)).

Definition uuid2str (uu : list byte) : list byte :=
  if is_null_uuid uu then bs "<none>" else uuid_to_str uu.

(** kexec's [ext2_uuid] does not look at the result of [ext2fs_open]: without a file
    system, the pointer to it is not initialised. *)
Definition ext2_uuid (fs : option (list byte)) : outcome (list byte) :=
  match fs with
  | Some uu => Ret (uuid2str uu)
  | None => UB "the file system is not initialised"
  end.

(** ** Lemmas *)

(** The two digits of a byte. *)
Definition hex2 (b : byte) : list byte :=
  [hex_digit (byte.unsigned b / 16); hex_digit (byte.unsigned b `mod` 16)].

(** The [n] last digits. *)
Fixpoint hexn (n : nat) (z : Z) : list byte :=
  match n with O => [] | S n => hexn n (z / 16) ++ [hex_digit (z `mod` 16)] end.

Lemma length_hexn n : ∀ z, length (hexn n z) = n.
Proof. induction n as [|n IH]; intros z; simpl; [done | ]. rewrite length_app, IH. simpl. lia. Qed.

Lemma hexn_0 n : hexn n 0 = repeat Byte.x30 n.
Proof.
  induction n as [|n IH]; [done | ]. cbn [hexn]. change (0 / 16) with 0. rewrite IH.
  change [hex_digit (0 `mod` 16)] with (repeat Byte.x30 1). by rewrite <- repeat_app, Nat.add_comm.
Qed.

Lemma hex_digits_app fuel : ∀ z acc, hex_digits fuel z acc = hex_digits fuel z [] ++ acc.
Proof.
  induction fuel as [|fuel IH]; intros z acc; simpl; [done | ]. case_if; [done | ].
  rewrite IH, (IH _ [_]), <- app_assoc. done.
Qed.

Lemma hex_digits_hexn n : ∀ fuel z, 0 ≤ z < 16 ^ Z.of_nat (S n) → (S n ≤ fuel)%nat →
  repeat Byte.x30 (S n - length (hex_digits fuel z [])) ++ hex_digits fuel z [] = hexn (S n) z.
Proof.
  induction n as [|n IH]; intros fuel z Hz Hf;
    (destruct fuel as [|fuel]; [lia | ]); cbn [hex_digits hexn].
  - change (16 ^ Z.of_nat 1) with 16 in Hz. destruct (Z.ltb_spec z 16); [ | lia].
    rewrite (Z.mod_small z) by lia. done.
  - destruct (Z.ltb_spec z 16).
    + cbn [length]. rewrite (Z.mod_small z), (Z.div_small z), Zdiv_0_l by lia.
      rewrite hexn_0. change [hex_digit (0 `mod` 16)] with (repeat Byte.x30 1).
      rewrite <- repeat_app. do 2 f_equal. lia.
    + rewrite hex_digits_app, length_app, app_assoc. cbn [length]. f_equal.
      replace (S (S n) - (length (hex_digits fuel (z / 16) []) + 1))%nat
        with (S n - length (hex_digits fuel (z / 16) []))%nat by lia.
      apply IH; [ | lia]. rewrite Nat2Z.inj_succ, Z.pow_succ_r in Hz by lia.
      split; [apply Z.div_pos; lia | apply Z.div_lt_upper_bound; lia].
Qed.

Lemma print_x_hexn n z : (1 ≤ n ≤ 8)%nat → 0 ≤ z < 16 ^ Z.of_nat n → print_x n z = hexn n z.
Proof. destruct n as [|n]; [lia | ]. intros Hn Hz. apply hex_digits_hexn; [done | lia]. Qed.

Lemma hexn_byte n z b :
  0 ≤ z → hexn (S (S n)) (z * 256 + byte.unsigned b) = hexn n z ++ hex2 b.
Proof.
  intros Hz. pose proof (byte.unsigned_range b). cbn [hexn]. rewrite <- app_assoc. unfold hex2.
  set (v := byte.unsigned b) in *.
  replace ((z * 256 + v) / 16) with (z * 16 + v / 16)
    by (replace (z * 256 + v) with (v + z * 16 * 16) by ring; rewrite Z.div_add by lia; ring).
  assert (0 ≤ v / 16 < 16) by (split; [apply Z.div_pos | apply Z.div_lt_upper_bound]; lia).
  replace ((z * 16 + v / 16) / 16) with z
    by (rewrite Z.add_comm, Z.div_add, (Z.div_small (v / 16)) by lia; lia).
  replace ((z * 16 + v / 16) `mod` 16) with (v / 16)
    by (rewrite Z.add_comm, Z.mod_add, Z.mod_small by lia; lia).
  replace ((z * 256 + v) `mod` 16) with (v `mod` 16)
    by (replace (z * 256 + v) with (v + z * 16 * 16) by ring; by rewrite Z.mod_add by lia).
  done.
Qed.

Lemma take_byte_add z b : 0 ≤ z < 2 ^ 24 → take_byte z b = z * 256 + byte.unsigned b.
Proof.
  intros Hz. pose proof (byte.unsigned_range b). unfold take_byte.
  rewrite Z.shiftl_mul_pow2, Z.lor_comm, (lor_disjoint _ z 8) by lia.
  change (2 ^ 8) with 256. rewrite u32_small; lia.
Qed.

(** ** The text of an identifier *)

(** Two digits per byte, with dashes after 4, 6, 8 and 10 bytes. *)
Definition canonical (uu : list byte) : list byte :=
  let digits i n := concat (map hex2 (take n (drop i uu))) in
  digits 0%nat 4%nat ++ bs "-" ++ digits 4%nat 2%nat ++ bs "-" ++ digits 6%nat 2%nat ++ bs "-"
  ++ digits 8%nat 2%nat ++ bs "-" ++ digits 10%nat 6%nat.

Lemma print_x_byte b : print_x 2 (byte.unsigned b) = hex2 b.
Proof.
  pose proof (byte.unsigned_range b). rewrite print_x_hexn by (change (16 ^ Z.of_nat 2) with 256; lia).
  apply (hexn_byte 0 0 b). lia.
Qed.

Lemma print_x_2bytes a b :
  print_x 4 (u16 (take_byte (take_byte 0 a) b)) = hex2 a ++ hex2 b.
Proof.
  pose proof (byte.unsigned_range a). pose proof (byte.unsigned_range b).
  rewrite (take_byte_add 0), take_byte_add by lia.
  unfold u16. rewrite Z.mod_small by lia.
  rewrite print_x_hexn by (change (16 ^ Z.of_nat 4) with 65536; lia).
  rewrite (hexn_byte 2), (hexn_byte 0) by lia. done.
Qed.

Lemma print_x_4bytes a b c d :
  print_x 8 (take_byte (take_byte (take_byte (take_byte 0 a) b) c) d) = hex2 a ++ hex2 b ++ hex2 c ++ hex2 d.
Proof.
  pose proof (byte.unsigned_range a). pose proof (byte.unsigned_range b).
  pose proof (byte.unsigned_range c). pose proof (byte.unsigned_range d).
  rewrite (take_byte_add 0 a), (take_byte_add _ b), (take_byte_add _ c), (take_byte_add _ d) by lia.
  rewrite print_x_hexn by (change (16 ^ Z.of_nat 8) with (2 ^ 32); lia).
  rewrite (hexn_byte 6), (hexn_byte 4), (hexn_byte 2), (hexn_byte 0) by lia. by rewrite <- !app_assoc.
Qed.

(** [clock_seq] is printed byte by byte. *)
Lemma clock_seq_bytes a b :
  let w := u16 (take_byte (take_byte 0 a) b) in
  print_x 2 (Z.shiftr w 8) ++ print_x 2 (Z.land w 0xFF) = hex2 a ++ hex2 b.
Proof.
  pose proof (byte.unsigned_range a). pose proof (byte.unsigned_range b). cbv zeta.
  rewrite (take_byte_add 0), take_byte_add by lia. unfold u16. rewrite Z.mod_small by lia.
  rewrite Z.shiftr_div_pow2 by lia. change 0xFF with (Z.ones 8). rewrite Z.land_ones by lia.
  change (2 ^ 8) with 256. rewrite Z.div_add_l, (Z.div_small (byte.unsigned b)), Z.add_0_r by lia.
  rewrite (Z.add_comm _ (byte.unsigned b)), Z.mod_add, Z.mod_small by lia. rewrite Z.mul_0_l, Z.add_0_l. by rewrite !print_x_byte.
Qed.

Lemma uuid_to_str_canonical uu : length uu = 16%nat → uuid_to_str uu = canonical uu.
Proof.
  intros Hl. do 16 (destruct uu as [|? uu]; [discriminate Hl | ]). destruct uu; [ | discriminate Hl].
  unfold uuid_to_str, canonical, unpack_uuid.
  cbn [take drop foldl map concat time_low time_mid time_hi_and_version clock_seq node].
  rewrite (app_assoc (print_x 2 (Z.shiftr _ _))), clock_seq_bytes.
  rewrite print_x_4bytes, !print_x_2bytes, !print_x_byte, !app_nil_r. by rewrite <- !app_assoc.
Qed.

(** The bytes that a text stands for. *)
Fixpoint parse_uuid (s : list byte) : list byte :=
  match s with
  | a :: ((b :: s'') as s') =>
      if byte_eqb a Byte.x2d then parse_uuid s'
      else match digit a, digit b with
           | Some x, Some y => byte.of_Z (x * 16 + y) :: parse_uuid s''
           | _, _ => []
           end
  | _ => []
  end.

Lemma hex2_digits b :
  digit (hex_digit (byte.unsigned b / 16)) = Some (byte.unsigned b / 16) ∧
  digit (hex_digit (byte.unsigned b `mod` 16)) = Some (byte.unsigned b `mod` 16) ∧
  byte_eqb (hex_digit (byte.unsigned b / 16)) Byte.x2d = false.
Proof.
  pose proof (byte.unsigned_range b).
  assert (0 ≤ byte.unsigned b / 16 < 16) by (split; [apply Z.div_pos | apply Z.div_lt_upper_bound]; lia).
  split; [by apply digit_hex_digit | ].
  split; [apply digit_hex_digit, Z.mod_pos_bound; lia | ].
  apply negb_true_iff. by apply (hex_digit_forall (λ c, negb (byte_eqb c Byte.x2d))).
Qed.

Lemma parse_hex2 b s : parse_uuid (hex2 b ++ s) = b :: parse_uuid s.
Proof.
  unfold hex2. destruct (hex2_digits b) as (H1 & H2 & H3). simpl.
  rewrite H3, H1, H2. f_equal.
  rewrite (Z.mul_comm (_ / 16)), <- Z.div_mod by lia. apply byte.of_Z_unsigned.
Qed.

Lemma parse_digits l s : parse_uuid (concat (map hex2 l) ++ s) = l ++ parse_uuid s.
Proof. induction l as [|b l IH]; [done | ]. cbn [map concat]. rewrite <- app_assoc, parse_hex2, IH. done. Qed.

Lemma parse_dash c s : parse_uuid (bs "-" ++ c :: s) = parse_uuid (c :: s).
Proof. reflexivity. Qed.

Lemma parse_canonical uu : length uu = 16%nat → parse_uuid (canonical uu) = uu.
Proof.
  intros Hl. do 16 (destruct uu as [|? uu]; [discriminate Hl | ]). destruct uu; [ | discriminate Hl].
  unfold canonical. cbn [take drop map concat]. rewrite !app_nil_r, <- !app_assoc.
  repeat (rewrite parse_hex2 || change (parse_uuid (bs "-" ++ hex2 ?b ++ ?s)) with (parse_uuid (hex2 b ++ s))).
  match goal with |- context [parse_uuid (hex2 ?b)] => change (hex2 b) with (hex2 b ++ []) end.
  by rewrite parse_hex2.
Qed.

Lemma length_canonical uu : length uu = 16%nat → length (canonical uu) = 36%nat.
Proof.
  intros Hl. do 16 (destruct uu as [|? uu]; [discriminate Hl | ]). destruct uu; [done | discriminate Hl].
Qed.

Lemma is_null_uuid_first b uu : is_null_uuid (b :: uu) = bool_decide (b = Byte.x00).
Proof. unfold is_null_uuid. simpl. by case_bool_decide. Qed.

(** The letters of an identifier's text. *)
Definition uuid_char (c : byte) : bool :=
  isdigit c || ((97 <=? byte.unsigned c) && (byte.unsigned c <=? 102)) || byte_eqb c Byte.x2d.

Lemma hex2_chars b : Forall (λ c, uuid_char c = true) (hex2 b).
Proof.
  pose proof (byte.unsigned_range b).
  assert (0 ≤ byte.unsigned b / 16 < 16) by (split; [apply Z.div_pos | apply Z.div_lt_upper_bound]; lia).
  repeat apply List.Forall_cons; [ | | apply List.Forall_nil];
    (apply (hex_digit_forall uuid_char); [done | ]); [lia | apply Z.mod_pos_bound; lia].
Qed.

Lemma canonical_chars uu : Forall (λ c, uuid_char c = true) (canonical uu).
Proof.
  assert (∀ l, Forall (λ c, uuid_char c = true) (concat (map hex2 l))) as Hl.
  { induction l as [|b l IH]; simpl; [apply List.Forall_nil | ].
    repeat apply List.Forall_cons; try exact IH; pose proof (hex2_chars b) as Hb;
      apply Forall_cons_1 in Hb as [? [? _]%Forall_cons_1]; done. }
  unfold canonical. repeat (apply Forall_app_2; [apply Hl | apply Forall_app_2; [by repeat constructor | ]]).
  apply Hl.
Qed.

(** the text of an identifier is its 36 characters in the usual form, from
    which the 16 bytes can be read back; the strings of two file systems are equal
    exactly when their identifiers are, or when both begin with a zero byte: the
    test for the null identifier looks at the first byte alone. *)
Theorem uuid2str_identifies uu vv :
  length uu = 16%nat → length vv = 16%nat →
  (uuid_to_str uu = canonical uu ∧ parse_uuid (uuid_to_str uu) = uu) ∧
  (uuid2str uu = uuid2str vv ↔
   uu = vv ∨ (nth 0 uu Byte.x00 = Byte.x00 ∧ nth 0 vv Byte.x00 = Byte.x00)).
Proof.
  intros Hu Hv. rewrite (uuid_to_str_canonical uu) by done. split; [by rewrite parse_canonical | ].
  pose proof (length_canonical uu Hu) as Hlu. pose proof (length_canonical vv Hv) as Hlv.
  unfold uuid2str. rewrite !uuid_to_str_canonical by done.
  destruct uu as [|a uu'] eqn:Eu; [done | ]. destruct vv as [|b vv'] eqn:Ev; [done | ].
  rewrite !is_null_uuid_first. cbn [nth]. rewrite <- Eu, <- Ev in *.
  repeat case_bool_decide; subst a || idtac; subst b || idtac.
  - split; [by right | done].
  - split; [ | intros [? | [_ ?]]; [congruence | done]].
    intros E. rewrite <- E in Hlv. discriminate Hlv.
  - split; [ | intros [? | [? _]]; [congruence | done]].
    intros E. rewrite E in Hlu. discriminate Hlu.
  - split; [ | intros [-> | [? _]]; done].
    intros E. left. rewrite <- (parse_canonical uu), E by congruence. apply parse_canonical. congruence.
Qed.

Module Witness.
Definition some_uuid : list byte :=
  [Byte.x5a; Byte.x01; Byte.x02; Byte.x03; Byte.x04; Byte.x05; Byte.x06; Byte.x07;
   Byte.x08; Byte.x09; Byte.x0a; Byte.x0b; Byte.x0c; Byte.x0d; Byte.x0e; Byte.xff].

Lemma uuid2str_identifies_witness :
  uuid_to_str some_uuid = bs "5a010203-0405-0607-0809-0a0b0c0d0eff" ∧
  parse_uuid (uuid_to_str some_uuid) = some_uuid ∧
  uuid2str (Byte.x00 :: drop 1 some_uuid) = uuid2str (repeat Byte.x00 16).
Proof.
  split; [by vm_compute | ]. split.
  - apply (uuid2str_identifies some_uuid some_uuid); reflexivity.
  - apply (uuid2str_identifies (Byte.x00 :: drop 1 some_uuid) (repeat Byte.x00 16)); [done | done | by right].
Defined.
End Witness.
