(* ===== verification/SmallPrograms.v ===== *)
(** Small programs: ifdown, with which kexec takes down the network
    (kexec-tools/kexec/ifdown.c), get-uuid (utils/get-uuid.c), whose functions are those
    of ext2_uuid.c, and bin-to-hex (kexec-tools/util/bin-to-hex.c), which makes purgatory
    a C array. *)

From Stdlib Require Import ZArith Lia String.
From stdpp Require Import base tactics list numbers.
From coqutil Require Import Byte.
From S2P Require Import Prelude Words CMem CString Uuid.

#[local] Open Scope Z_scope.

(** ** ifdown *)

Definition IFF_UP : Z := 1.

(** An interface as SIOCGIFCONF gives it; [ifr_flags] shares its two bytes with the
    beginning of the address. *)
Record ifreq := { ifr_name : list byte; ifr_flags : Z }.

Definition is_shaper (r : ifreq) : bool := strncmp (ifr_name r) (bs "shaper") 6 =? 0.

Definition clear_up (r : ifreq) : ifreq :=
  {| ifr_name := ifr_name r; ifr_flags := Z.land (ifr_flags r) (notw 16 IFF_UP) |}.

(** The loop over the interfaces: the array after it and the requests SIOCSIFFLAGS that
    are made, whose results only matter to the messages. *)
Fixpoint down_pass (shaper : bool) (ifr : list ifreq) : list ifreq * list ifreq :=
  match ifr with
  | [] => ([], [])
  | r :: ifr =>
      let '(rest, requests) := down_pass shaper ifr in
      if negb (Bool.eqb (is_shaper r) shaper) then (r :: rest, requests)
      else if strcmp (ifr_name r) (bs "lo") =? 0 then (r :: rest, requests)
      else match strchr (ifr_name r) Byte.x3a with
           | Some _ => (r :: rest, requests)
           | None => (clear_up r :: rest, clear_up r :: requests)
           end
  end.

(** [socket] tells whether there is a socket, [conf] is what SIOCGIFCONF gives.  The
    result, and the requests in their order. *)
Definition ifdown (socket : bool) (conf : option (list ifreq)) : Z * list ifreq :=
  if negb socket then (-1, [])
  else
    match conf with
    | None => (-1, [])
    | Some ifr =>
        let '(ifr, shapers) := down_pass true ifr in
        let '(_, others) := down_pass false ifr in
        (0, shapers ++ others)
    end.

(** ** get-uuid *)

Definition get_uuid_is_null_uuid : list byte → bool := is_null_uuid.
Definition get_uuid_unpack_uuid : list byte → uuid := unpack_uuid.
Definition get_uuid_uuid_to_str : list byte → list byte := uuid_to_str.
Definition get_uuid_uuid2str : list byte → list byte := uuid2str.

(** What is printed; [fs] is the identifier of the file system, unless it cannot be
    opened, which is not looked at. *)
Definition get_uuid_main (fs : option (list byte)) : outcome (list byte) :=
  match fs with
  | Some uu => Ret (get_uuid_uuid2str uu ++ [newline])
  | None => UB "the file system is not initialised"
  end.

(** ** bin-to-hex *)

(** The loop over the input, from the [i]-th byte on. *)
Fixpoint hex_body (i : Z) (input : list byte) : outcome (list byte) :=
  match input with
  | [] => Ret []
  | c :: input =>
      if i =? INT_MAX then UB "signed overflow"
      else
        rest ← hex_body (i + 1) input;
        mret ((if i mod 16 =? 0 then [] else bs " ") ++ bs "0x" ++ print_x 2 (byte.unsigned c) ++ bs ","
              ++ (if (i + 1) mod 16 =? 0 then [newline] else []) ++ rest)
  end.

Definition hex_header (name : list byte) : list byte :=
  bs "#include <stddef.h>" ++ newline :: bs "const unsigned char " ++ name ++ bs "[] = {" ++ [newline].

Definition hex_trailer (name : list byte) : list byte :=
  newline :: bs "};" ++ newline :: bs "size_t " ++ name ++ bs "_size = sizeof(" ++ name ++ bs ");" ++ [newline].

Definition bin_to_hex (name input : list byte) : outcome (list byte) :=
  body ← hex_body 0 input; mret (hex_header name ++ body ++ hex_trailer name).

(** ** What ifdown does *)

(** An interface that is taken down: not the loopback and not an alias. *)
Definition real_interface (r : ifreq) : bool :=
  bool_decide (ifr_name r ≠ bs "lo") && bool_decide (Byte.x3a ∉ ifr_name r).

Lemma strchr_None s c : strchr s c = None ↔ c ∉ s.
Proof.
  split; [ | by apply strchr_absent]. induction s as [|x s IH]; [by intros _ ?%elem_of_nil | ]. cbn [strchr].
  destruct (byte_eqb x c) eqn:E; [done | ]. intros Hs. rewrite not_elem_of_cons. split.
  - intros ->. by rewrite byte_eqb_refl in E.
  - apply IH. by destruct (strchr s c).
Qed.

Lemma filter_and {A} (p q : A → bool) l : List.filter (λ x, p x && q x) l = List.filter q (List.filter p l).
Proof. induction l as [|x l IH]; [done | ]. cbn [List.filter]. destruct (p x); cbn [andb List.filter]; by rewrite IH. Qed.

Lemma down_pass_spec shaper ifr :
  Forall (λ r, nonul (ifr_name r)) ifr →
  (down_pass shaper ifr).2
    = map clear_up (List.filter (λ r, Bool.eqb (is_shaper r) shaper && real_interface r) ifr) ∧
  List.filter (λ r, Bool.eqb (is_shaper r) (negb shaper)) (down_pass shaper ifr).1
    = List.filter (λ r, Bool.eqb (is_shaper r) (negb shaper)) ifr.
Proof.
  induction 1 as [|r ifr Hr _ [IH1 IH2]]; [done | ]. cbn [down_pass List.filter].
  destruct (down_pass shaper ifr) as [rest requests]. cbn [fst snd] in IH1, IH2.
  destruct (Bool.eqb (is_shaper r) shaper) eqn:Es; cbn [negb andb].
  2: { cbn [fst snd List.filter]. split; [done | ]. by rewrite IH2. }
  apply eqb_prop in Es. assert (∀ r', is_shaper r' = shaper → Bool.eqb (is_shaper r') (negb shaper) = false) as Hno
    by (intros r' ->; by destruct shaper).
  assert (is_shaper (clear_up r) = shaper) as Ec by done.
  assert ((strcmp (ifr_name r) (bs "lo") =? 0) = negb (bool_decide (ifr_name r ≠ bs "lo"))) as ->.
  { destruct (Z.eqb_spec (strcmp (ifr_name r) (bs "lo")) 0) as [E | E].
    - apply strcmp_0 in E; [ | done | decided]. by rewrite bool_decide_false by (intros Hx; by apply Hx).
    - rewrite bool_decide_true; [done | ]. intros Ex. apply E. apply strcmp_0; [done | decided | done]. }
  unfold real_interface.
  destruct (bool_decide (ifr_name r ≠ bs "lo")); cbn [negb andb].
  2: { cbn [fst snd List.filter]. rewrite Hno by done. by split. }
  destruct (strchr (ifr_name r) Byte.x3a) as [n|] eqn:Ec'.
  - rewrite bool_decide_false; [cbn [fst snd List.filter]; rewrite Hno by done; by split | ].
    intros Hin. apply strchr_None in Hin. congruence.
  - rewrite bool_decide_true by (by apply strchr_None). cbn [fst snd List.filter map]. rewrite !Hno by done. by rewrite IH1, IH2.
Qed.

Lemma down_pass_names shaper ifr : map ifr_name (down_pass shaper ifr).1 = map ifr_name ifr.
Proof.
  induction ifr as [|r ifr IH]; [done | ]. cbn [down_pass]. destruct (down_pass shaper ifr) as [rest requests].
  cbn [fst] in IH. destruct (negb _); [cbn; by rewrite IH | ]. destruct (_ =? _); [cbn; by rewrite IH | ].
  destruct (strchr _ _); cbn; by rewrite IH.
Qed.

(** Every interface but the loopback and the aliases is taken down once, the shapers before
    all others, each group in the order in which the system lists them. *)
Theorem ifdown_order ifr :
  Forall (λ r, nonul (ifr_name r)) ifr →
  let down p := map clear_up (List.filter (λ r, p r && real_interface r) ifr) in
  ifdown true (Some ifr) = (0, down is_shaper ++ down (λ r, negb (is_shaper r))).
Proof.
  intros Hn down. unfold ifdown. cbn [negb]. destruct (down_pass_spec true ifr Hn) as [H1 H2].
  destruct (down_pass true ifr) as [ifr1 shapers] eqn:E1. cbn [fst snd] in H1, H2.
  assert (Forall (λ r, nonul (ifr_name r)) ifr1) as Hn1.
  { pose proof (down_pass_names true ifr) as Em. rewrite E1 in Em. cbn [fst] in Em.
    assert (∀ l, Forall (λ r, nonul (ifr_name r)) l ↔ Forall nonul (map ifr_name l)) as Hm by (intros l; by rewrite Forall_map).
    apply Hm. rewrite Em. by apply Hm. }
  destruct (down_pass_spec false ifr1 Hn1) as [H3 _]. destruct (down_pass false ifr1) as [ifr2 others].
  cbn [snd] in H3. assert (shapers = down is_shaper) as ->.
  { rewrite H1. unfold down. f_equal. apply filter_ext. intros r. by destruct (is_shaper r). }
  assert (others = down (λ r, negb (is_shaper r))) as ->; [ | done].
  rewrite H3. unfold down. rewrite !filter_and. cbn [negb] in H2. by rewrite H2.
Qed.

(** ** What bin-to-hex writes *)

(** The bytes of an array in C, written in hexadecimal with two digits each. *)
Fixpoint constants (s : list byte) : list byte :=
  match s with
  | Byte.x30 :: Byte.x78 :: a :: b :: Byte.x2c :: s =>
      match digit a, digit b with
      | Some a, Some b => byte.of_Z (a * 16 + b) :: constants s
      | _, _ => []
      end
  | Byte.x20 :: s | Byte.x0a :: s => constants s
  | _ => []
  end.

Lemma constants_hex2 c s : constants (bs "0x" ++ hex2 c ++ bs "," ++ s) = c :: constants s.
Proof.
  change (constants (bs "0x" ++ hex2 c ++ bs "," ++ s)) with
    (match digit (hex_digit (byte.unsigned c / 16)), digit (hex_digit (byte.unsigned c `mod` 16)) with
     | Some a, Some b => byte.of_Z (a * 16 + b) :: constants s | _, _ => [] end).
  destruct (hex2_digits c) as (-> & -> & _). pose proof (byte.unsigned_range c).
  rewrite Z.mul_comm, <- Z.div_mod by lia. by rewrite byte.of_Z_unsigned.
Qed.

Lemma hex_body_spec input : ∀ i rest,
  0 ≤ i → i + Z.of_nat (length input) ≤ INT_MAX →
  ∃ body, hex_body i input = Ret body ∧ constants (body ++ rest) = input ++ constants rest.
Proof.
  induction input as [|c input IH]; intros i rest Hi Hl; cbn [hex_body]; [by exists [] | ].
  cbn [length] in Hl. destruct (Z.eqb_spec i INT_MAX) as [-> | _]; [lia | ].
  destruct (IH (i + 1) rest ltac:(lia) ltac:(lia)) as (body & -> & Hc). rewrite bind_Ret_l. eexists. split; [done | ].
  rewrite print_x_byte. rewrite <- !app_assoc.
  assert (∀ s, constants ((if i mod 16 =? 0 then [] else bs " ") ++ s) = constants s) as Hb by (intros s; by destruct (_ =? _)).
  rewrite Hb, constants_hex2. change ((c :: input) ++ constants rest) with (c :: (input ++ constants rest)). rewrite <- Hc.
  by destruct ((i + 1) mod 16 =? 0).
Qed.

(** The array that bin-to-hex writes for an input of less than 2 GiB has the name and the bytes of
    the input, and so its size is that of the input. *)
Theorem bin_to_hex_roundtrip name input :
  Z.of_nat (length input) ≤ INT_MAX →
  ∃ body, bin_to_hex name input = Ret (hex_header name ++ body ++ hex_trailer name) ∧
    constants (body ++ hex_trailer name) = input.
Proof.
  intros Hl. destruct (hex_body_spec input 0 (hex_trailer name)) as (body & Hb & Hc); [lia | lia | ].
  exists body. unfold bin_to_hex. rewrite Hb, bind_Ret_l. split; [done | ]. rewrite Hc. apply app_nil_r.
Qed.

Module Witness.

Lemma ifdown_order_witness :
  let shaper := {| ifr_name := bs "shaper0"; ifr_flags := 2 |} in
  ifdown true (Some [{| ifr_name := bs "lo"; ifr_flags := 2 |}; {| ifr_name := bs "eth0"; ifr_flags := 2 |};
    {| ifr_name := bs "eth0:1"; ifr_flags := 2 |}; shaper])
  = (0, [shaper; {| ifr_name := bs "eth0"; ifr_flags := 2 |}]).
Proof.
  cbv zeta. rewrite ifdown_order; [vm_compute; reflexivity | ].
  repeat constructor; decided.
Defined.

Lemma bin_to_hex_roundtrip_witness :
  ∃ body, bin_to_hex (bs "purgatory") (bs "0123456789abcdefg") = Ret (hex_header (bs "purgatory") ++ body ++ hex_trailer (bs "purgatory")) ∧
    constants (body ++ hex_trailer (bs "purgatory")) = bs "0123456789abcdefg".
Proof. apply (bin_to_hex_roundtrip (bs "purgatory")). by vm_compute. Defined.
End Witness.
