(* ===== verification/Segments.v ===== *)
(** The segment manager of kexec-tools/kexec/kexec.c: the table of physical
    memory ranges, the list of segments of the kernel being loaded, the search
    for a free hole and the insertion of a segment. *)

From Stdlib Require Import ZArith Lia String.
From stdpp Require Import base tactics list numbers sorting.
From S2P Require Import Prelude Words CMem.

#[local] Open Scope Z_scope.

(** ** Data (kexec.h) *)

Record kexec_segment := {
  seg_buf : ptr;
  seg_bufsz : Z;
  seg_mem : Z;
  seg_memsz : Z
}.

Definition RANGE_RAM := 0.
Definition RANGE_RESERVED := 1.
Definition RANGE_ACPI := 2.
Definition RANGE_ACPI_NVS := 3.

(** [start] and [end] are [unsigned long long]. *)
Record memory_range := {
  mr_start : Z;
  mr_end : Z;
  mr_type : Z
}.

(** The static variables of kexec.c: [memory_range] (with [memory_ranges] its
    length), [mem_min] and [mem_max]. *)
Record layout := {
  memory_ranges : list memory_range;
  mem_min : Z;
  mem_max : Z
}.

Section kexec.
Context `{Arch}.

(** ** Validity of a range *)

Definition valid_memory_range (lay : layout) (sstart send : Z) : bool :=
  if send <? sstart then false
  else if (mem_max lay <? send) || (sstart <? mem_min lay) then false
  else existsb (λ r,
    let mstart := ul (mr_start r) in
    let mend := ul (mr_end r) in
    (mr_type r =? RANGE_RAM) && (mstart <=? sstart) && (send <=? mend))
    (memory_ranges lay).

Definition valid_memory_segment (lay : layout) (s : kexec_segment) : bool :=
  let sstart := seg_mem s in
  let send := ul (sstart + seg_memsz s - 1) in
  valid_memory_range lay sstart send.

(** ** Sorting *)

(** The inner loop [for (j = i + 1; ...)]: the index of a least segment. *)
Definition least_from (l : list kexec_segment) (i : nat) : nat :=
  foldl (λ tidx j,
    match l !! j, l !! tidx with
    | Some s, Some t => if seg_mem s <? seg_mem t then j else tidx
    | _, _ => tidx
    end) i (upto (S i) (length l)).

(** The exchange of the segments [tidx] and [i]. *)
Definition swap (l : list kexec_segment) (i tidx : nat) : list kexec_segment :=
  match l !! i, l !! tidx with
  | Some s, Some t => <[i := t]> (<[tidx := s]> l)
  | _, _ => l
  end.

Definition sort_step (l : list kexec_segment) (i : nat) : list kexec_segment :=
  let tidx := least_from l i in
  if decide (tidx = i) then l else swap l i tidx.

(** The loop that sees if any of the segments overlap: [end] is where the
    segment before ends. *)
Fixpoint no_overlap (e : Z) (l : list kexec_segment) : bool :=
  match l with
  | [] => true
  | s :: l => if seg_mem s <? e then false
              else no_overlap (ul (seg_mem s + seg_memsz s)) l
  end.

(** The result and the list of segments [sort_segments] leaves. *)
Definition sort_segments (l : list kexec_segment) : Z * list kexec_segment :=
  let l := foldl sort_step l (upto 0 (length l)) in
  (if no_overlap 0 l then 0 else -1, l).

(** ** The search for a hole *)

(** The inner loop of the merge: the ranges left of each segment that starts
    not after [mend], the value of [mstart] and the segments not consumed. *)
Fixpoint carve (mstart mend : Z) (segs : list kexec_segment)
    : list memory_range * Z * list kexec_segment :=
  match segs with
  | [] => ([], mstart, [])
  | s :: rest =>
      if seg_mem s <=? mend then
        let sstart := seg_mem s in
        let send := ul (sstart + seg_memsz s - 1) in
        let out := if mstart <? sstart
          then [{| mr_start := mstart; mr_end := ul (sstart - 1); mr_type := RANGE_RAM |}]
          else [] in
        let '(more, mstart', rest') := carve (ul (send + 1)) mend rest in
        (out ++ more, mstart', rest')
      else ([], mstart, segs)
  end.

(** The free memory ranges. *)
Fixpoint free_ranges (ranges : list memory_range) (segs : list kexec_segment)
    : list memory_range :=
  match ranges with
  | [] => []
  | r :: ranges =>
      if negb (mr_type r =? RANGE_RAM) then free_ranges ranges segs
      else
        let '(out, mstart, segs') := carve (ul (mr_start r)) (ul (mr_end r)) segs in
        let last := if mstart <=? ul (mr_end r)
          then [{| mr_start := mstart; mr_end := ul (mr_end r); mr_type := RANGE_RAM |}]
          else [] in
        out ++ last ++ free_ranges ranges segs'
  end.

(** A free range seen through the lens of [mem_min], [mem_max], the bounds of
    the hole and its alignment. *)
Definition clip_start (lay : layout) (hole_align hole_min : Z) (start : Z) : Z :=
  let start := if start <? mem_min lay then mem_min lay else start in
  let start := if start <? hole_min then hole_min else start in
  Z.land (u64 (start + hole_align - 1)) (notw ulong_bits (hole_align - 1)).

Definition clip_end (lay : layout) (hole_max : Z) (e : Z) : Z :=
  let e := if mem_max lay <? e then mem_max lay else e in
  if hole_max <? e then hole_max else e.

(** The loop that picks the hole, from the current [hole_base]. *)
Fixpoint pick_hole (lay : layout) (hole_size hole_align hole_min hole_max hole_end : Z)
    (frees : list memory_range) (hole_base : Z) : Z :=
  match frees with
  | [] => hole_base
  | r :: frees =>
      let continue := pick_hole lay hole_size hole_align hole_min hole_max hole_end frees in
      let start := clip_start lay hole_align hole_min (mr_start r) in
      let e := clip_end lay hole_max (mr_end r) in
      if (e <=? start) || (mem_max lay <=? start) || (e <=? mem_min lay)
      then continue hole_base
      else
        let size := e - start in
        if hole_size <=? size then
          if 0 <? hole_end then ul start
          else continue (ul (Z.land (u64 (e - hole_size)) (notw ulong_bits (hole_align - 1))))
        else continue hole_base
  end.

(** [hole_align] after the two checks at the top of [locate_hole]. *)
Definition sane_align (hole_align : Z) : Z :=
  let hole_align := if hole_align =? 0 then 1 else hole_align in
  if hole_align <? pagesize then pagesize else hole_align.

(** The array of free ranges is allocated for [memory_ranges + (nr_segments - 1)]
    entries; a write past them is undefined. *)
Definition locate_hole (lay : layout) (segs : list kexec_segment)
    (hole_size hole_align hole_min hole_max hole_end : Z) : outcome Z :=
  if hole_end =? 0 then Die "Invalid hole end argument of 0 specified to locate_hole"
  else
    let hole_align := sane_align hole_align in
    let max_mem_ranges := Z.of_nat (length (memory_ranges lay))
                          + (Z.of_nat (length segs) - 1) in
    let mem_range := free_ranges (memory_ranges lay) segs in
    if max_mem_ranges <? Z.of_nat (length mem_range)
    then UB "locate_hole writes past the end of mem_range"
    else
      let hole_base := pick_hole lay hole_size hole_align hole_min hole_max hole_end
                         mem_range ULONG_MAX in
      if hole_base =? ULONG_MAX then Ret ULONG_MAX
      else if hole_max <? ul (hole_base + hole_size) then Ret ULONG_MAX
      else Ret hole_base.

(** ** Adding a segment *)

Definition add_segment (lay : layout) (segs : list kexec_segment)
    (buf : ptr) (bufsz base memsz : Z) : outcome (list kexec_segment) :=
  let bufsz := if memsz <? bufsz then memsz else bufsz in
  if memsz =? 0 then Ret segs
  else
    let memsz := Z.land (ul (memsz + (pagesize - 1))) (notw ulong_bits (pagesize - 1)) in
    if negb (Z.land base (pagesize - 1) =? 0) then Die "Base address: %x is not page aligned"
    else
      let last := ul (base + memsz - 1) in
      if negb (valid_memory_range lay base last) then Die "Invalid memory segment %p - %p"
      else Ret (segs ++ [{| seg_buf := buf; seg_bufsz := bufsz;
                            seg_mem := base; seg_memsz := memsz |}]).

Definition add_buffer (lay : layout) (segs : list kexec_segment)
    (buf : ptr) (bufsz memsz buf_align buf_min buf_max buf_end : Z)
    : outcome (Z * list kexec_segment) :=
  let '(result, segs) := sort_segments segs in
  if result <? 0 then Die "sort_segments failed"
  else
    base ← locate_hole lay segs memsz buf_align buf_min buf_max buf_end;
    if base =? ULONG_MAX then Die "locate_hole failed"
    else
      segs ← add_segment lay segs buf bufsz base memsz;
      mret (base, segs).
End kexec.
