(* ===== verification/SegmentsSpec.v ===== *)
(** What the segment manager promises: [sort_segments] sorts and detects
    overlaps, [locate_hole] finds the lowest (or highest) free hole, and
    [add_buffer] keeps the segments page-aligned, inside RAM and disjoint. *)

From Stdlib Require Import ZArith Lia String.
From stdpp Require Import base tactics list numbers sorting.
From S2P Require Import Prelude Words CMem Segments.

#[local] Open Scope Z_scope.

(** ** Abstract notions *)

(** A segment occupies the addresses from [seg_mem s] up to, not including,
    [seg_end s]. *)
Definition seg_end (s : kexec_segment) : Z := seg_mem s + seg_memsz s.

Definition before (s t : kexec_segment) : Prop := seg_end s ≤ seg_mem t.
Definition disjoint_seg (s t : kexec_segment) : Prop := before s t ∨ before t s.
Definition mem_le (s t : kexec_segment) : Prop := seg_mem s ≤ seg_mem t.

(** The addresses from [lo] to [hi] avoid the segment [s]. *)
Definition avoids (lo hi : Z) (s : kexec_segment) : Prop :=
  hi < seg_mem s ∨ seg_end s ≤ lo.

Definition within (lo hi : Z) (r : memory_range) : Prop :=
  mr_start r ≤ lo ∧ hi ≤ mr_end r.

(** The RAM ranges of a table. *)
Definition ram (rs : list memory_range) : list memory_range :=
  filter (λ r, mr_type r = RANGE_RAM) rs.

Section spec.
Context `{Arch}.

(** A table of memory ranges as [get_memory_ranges] promises it: the RAM
    ranges are sorted, disjoint and end below [ULONG_MAX]. *)
Record wf_layout (lay : layout) : Prop := {
  wf_ram : Forall (λ r, 0 ≤ mr_start r ≤ mr_end r ∧ mr_end r < ULONG_MAX)
             (ram (memory_ranges lay));
  wf_sorted : StronglySorted (λ r q, mr_end r < mr_start q) (ram (memory_ranges lay));
  wf_min : 0 ≤ mem_min lay ≤ ULONG_MAX;
  wf_max : 0 ≤ mem_max lay ≤ ULONG_MAX
}.

Definition in_ram (lay : layout) (lo hi : Z) : Prop :=
  Exists (within lo hi) (ram (memory_ranges lay)).

(** A segment as [add_segment] makes it. *)
Record wf_segment (lay : layout) (s : kexec_segment) : Prop := {
  wf_mem_aligned : (pagesize | seg_mem s);
  wf_memsz_pages : (pagesize | seg_memsz s);
  wf_memsz_pos : 0 < seg_memsz s;
  wf_bufsz : seg_bufsz s ≤ seg_memsz s;
  wf_in_ram : in_ram lay (seg_mem s) (seg_end s - 1);
  wf_mem_min : mem_min lay ≤ seg_mem s;
  wf_mem_max : seg_end s - 1 ≤ mem_max lay
}.

Definition wf_segments (lay : layout) (l : list kexec_segment) : Prop :=
  Forall (wf_segment lay) l ∧ StronglySorted disjoint_seg l.

(** The placement that [locate_hole] looks for: an aligned address [b] such
    that [b] to [b + size] lie in one RAM range, in the allowed window, and
    off every segment. *)
Record fits (lay : layout) (segs : list kexec_segment)
    (size align lo hi b : Z) : Prop := {
  fits_aligned : (align | b);
  fits_low : mem_min lay ≤ b ∧ lo ≤ b;
  fits_high : b + size ≤ mem_max lay ∧ b + size ≤ hi;
  fits_ram : in_ram lay b (b + size);
  fits_free : Forall (avoids b (b + size)) segs
}.
End spec.

(** ** Sorting *)

Lemma disjoint_seg_sym : Symmetric disjoint_seg.
Proof. intros s t [? | ?]; [by right | by left]. Qed.

(** Order does not matter to a symmetric relation between the elements. *)
Lemma StronglySorted_perm {A} (R : relation A) (l k : list A) :
  Symmetric R → l ≡ₚ k → StronglySorted R l → StronglySorted R k.
Proof.
  intros Hsym Hp. induction Hp as [|x l k Hp IH|x y l|l k m _ IH1 _ IH2]; auto.
  - rewrite !StronglySorted_cons. intros [Hx Hl]. split; [by rewrite <- Hp | auto].
  - rewrite !StronglySorted_cons, !Forall_cons. intros ([? ?] & ? & ?). auto.
Qed.

Section sorting.
Context `{Arch}.
Implicit Types (l : list kexec_segment) (i j : nat).

Lemma least_from_spec l i s :
  l !! i = Some s →
  ∃ t, l !! least_from l i = Some t ∧ (i ≤ least_from l i)%nat ∧
       ∀ j u, (i ≤ j)%nat → l !! j = Some u → mem_le t u.
Proof.
  intros Hi. pose proof (lookup_lt_Some _ _ _ Hi) as Hlt.
  assert (∃ t, l !! least_from l i = Some t ∧ (i ≤ least_from l i)%nat ∧
    ∀ j u, (i ≤ j < length l)%nat → l !! j = Some u → mem_le t u) as (t & ? & ? & Hmin).
  { unfold least_from.
    apply (foldl_upto_ind (λ k tidx, ∃ t, l !! tidx = Some t ∧ (i ≤ tidx)%nat ∧
      ∀ j u, (i ≤ j < k)%nat → l !! j = Some u → mem_le t u)); [lia | | ].
    - exists s. split; [done | ]. split; [done | ]. intros j u ? Hj.
      replace j with i in Hj by lia. unfold mem_le. simplify_eq. lia.
    - intros k tidx Hk (t & Ht & Hle & Hmin). rewrite Ht.
      destruct (lookup_lt_is_Some_2 l k) as [u Hu]; [lia | ]. rewrite Hu.
      destruct (seg_mem u <? seg_mem t) eqn:E; zbool.
      + exists u. split; [done | ]. split; [lia | ]. intros j v Hj Hv.
        destruct (decide (j = k)) as [-> | ?]; [unfold mem_le; simplify_eq; lia | ].
        specialize (Hmin j v ltac:(lia) Hv). unfold mem_le in *. lia.
      + exists t. split; [done | ]. split; [lia | ]. intros j v Hj Hv.
        destruct (decide (j = k)) as [-> | ?]; [unfold mem_le; simplify_eq; lia | ].
        apply (Hmin j v); [lia | done]. }
  exists t. split; [done | ]. split; [done | ]. intros j u Hj Hu.
  apply (Hmin j u); [ | done]. apply lookup_lt_Some in Hu. lia.
Qed.

(** After [i] iterations the first [i] segments are in place. *)
Definition sorted_upto i l : Prop :=
  ∀ a b s t, (a < b)%nat → (a < i)%nat → l !! a = Some s → l !! b = Some t → mem_le s t.

Lemma swap_perm l i j : swap l i j ≡ₚ l.
Proof.
  unfold swap. destruct (l !! i) as [s|] eqn:Hi; [ | done].
  destruct (l !! j) as [t|] eqn:Hj; [ | done].
  by apply Permutation_insert_swap.
Qed.

Lemma sort_step_perm l i : sort_step l i ≡ₚ l.
Proof. unfold sort_step. case_decide; [done | apply swap_perm]. Qed.

(** An element of the list after the exchange of [i] and [j]. *)
Lemma swap_lookup l i j s t k u :
  l !! i = Some s → l !! j = Some t → swap l i j !! k = Some u →
  (k = i ∧ u = t) ∨ (k = j ∧ u = s) ∨ (k ≠ i ∧ k ≠ j ∧ l !! k = Some u).
Proof.
  intros Hi Hj. unfold swap. rewrite Hi, Hj.
  pose proof (lookup_lt_Some _ _ _ Hi). pose proof (lookup_lt_Some _ _ _ Hj).
  destruct (decide (k = i)) as [-> | ?].
  - rewrite list_lookup_insert_eq by (rewrite length_insert; lia).
    intros [= ->]. by left.
  - rewrite list_lookup_insert_ne by done. destruct (decide (k = j)) as [-> | ?].
    + rewrite list_lookup_insert_eq by lia. intros [= ->]. right; by left.
    + rewrite list_lookup_insert_ne by done. intros ?. right; by right.
Qed.

Lemma sort_step_sorted l i :
  (i < length l)%nat → sorted_upto i l → sorted_upto (S i) (sort_step l i).
Proof.
  intros Hlt Hs. destruct (lookup_lt_is_Some_2 l i Hlt) as [s Hi].
  destruct (least_from_spec l i s Hi) as (t & Ht & Hle & Hmin).
  unfold sort_step. case_decide as Heq.
  - intros a b u v Hab Ha Hu Hv. destruct (decide (a = i)) as [-> | ?].
    + assert (t = u) as <- by congruence. apply (Hmin b v); [lia | done].
    + apply (Hs a b u v); [done | lia | done | done].
  - intros a b u v Hab Ha Hu Hv.
    pose proof (swap_lookup l i _ s t b v Hi Ht Hv) as Hb.
    destruct (swap_lookup l i _ s t a u Hi Ht Hu) as [[-> ->] | [[? ?] | (? & ? & Hu')]].
    + destruct Hb as [[? _] | [[_ ->] | (_ & _ & Hv')]]; [lia | | ].
      * by apply (Hmin i s).
      * apply (Hmin b v); [lia | done].
    + lia.
    + destruct Hb as [[_ ->] | [[_ ->] | (_ & _ & Hv')]].
      * apply (Hs a (least_from l i)); [lia | lia | done | done].
      * apply (Hs a i); [lia | lia | done | done].
      * apply (Hs a b); [lia | lia | done | done].
Qed.

Lemma sort_loop l :
  let l' := foldl sort_step l (upto 0 (length l)) in
  l' ≡ₚ l ∧ StronglySorted mem_le l'.
Proof.
  simpl.
  assert (let l' := foldl sort_step l (upto 0 (length l)) in
          l' ≡ₚ l ∧ sorted_upto (length l) l') as [Hp Hs].
  { apply (foldl_upto_ind (λ k l', l' ≡ₚ l ∧ sorted_upto k l')); [lia | | ].
    - split; [done | ]. intros a b s t ? ?. lia.
    - intros k l' Hk [Hp Hs]. split; [by rewrite sort_step_perm | ].
      apply sort_step_sorted; [ | done]. rewrite Hp. lia. }
  split; [done | ]. revert Hp Hs.
  generalize (foldl sort_step l (upto 0 (length l))) as k.
  intros k Hp. rewrite <- (Permutation_length Hp). clear Hp.
  induction k as [|s k IH]; intros Hs; [constructor | ].
  apply StronglySorted_cons. split.
  - apply Forall_lookup. intros j t Hj.
    apply (Hs 0%nat (S j)); simpl; [lia | lia | done | done].
  - apply IH. intros a b u v ? ? Hu Hv.
    apply (Hs (S a) (S b)); simpl; [lia | lia | done | done].
Qed.

Lemma no_overlap_spec e l :
  Forall (λ s, 0 ≤ seg_mem s ∧ 0 < seg_memsz s ∧ seg_end s ≤ ULONG_MAX) l →
  no_overlap e l = true ↔ Forall (λ s, e ≤ seg_mem s) l ∧ StronglySorted before l.
Proof.
  intros Hl. revert e. induction Hl as [|s l (? & ? & ?) Hl IH]; intros e; simpl.
  { split; [ | done]. intros _. split; constructor. }
  rewrite Forall_cons, StronglySorted_cons. unfold seg_end in *.
  destruct (seg_mem s <? e) eqn:E; zbool.
  { split; [done | lia]. }
  rewrite ul_id by lia. rewrite IH. unfold before, seg_end.
  split; [intros [Hb ?] | naive_solver]. split; [ | done]. split; [done | ].
  eapply Forall_impl; [exact Hb | ]. simpl. intros. lia.
Qed.

Lemma sorted_disjoint l :
  Forall (λ s, 0 < seg_memsz s) l → StronglySorted mem_le l →
  StronglySorted disjoint_seg l ↔ StronglySorted before l.
Proof.
  intros Hpos Hs. induction Hs as [|s l Hs IH Hle]; [split; constructor | ].
  apply Forall_cons in Hpos as [? Hpos]. rewrite !StronglySorted_cons, IH by done.
  assert (Forall (disjoint_seg s) l ↔ Forall (before s) l); [ | tauto].
  rewrite !Forall_forall in *. split; intros Hd t Ht; [ | left; auto].
  specialize (Hle t Ht). specialize (Hpos t Ht).
  destruct (Hd t Ht) as [? | Hb]; [done | ].
  unfold before, mem_le, seg_end in *. lia.
Qed.
End sorting.

(** ** The free ranges *)

Section free.
Context `{Arch}.
Implicit Types (segs : list kexec_segment) (ranges : list memory_range).

Definition free_in (lo hi : Z) ranges : Prop := Exists (within lo hi) ranges.

(** Ranges in increasing order inside [lo .. hi]. *)
Definition increasing (lo hi : Z) ranges : Prop :=
  Forall (λ r, lo ≤ mr_start r ∧ mr_start r ≤ mr_end r ∧ mr_end r ≤ hi) ranges ∧
  StronglySorted (λ r q, mr_end r < mr_start q) ranges.

(** The range that the merge adds once no segment starts in the RAM range. *)
Definition tail_range (mstart mend : Z) : list memory_range :=
  if mstart <=? mend
  then [{| mr_start := mstart; mr_end := mend; mr_type := RANGE_RAM |}] else [].

Lemma increasing_app lo mid hi k l :
  increasing lo mid k → increasing (mid + 1) hi l → lo ≤ mid + 1 → mid ≤ hi →
  increasing lo hi (k ++ l).
Proof.
  intros [Hk Sk] [Hl Sl] ? ?. rewrite Forall_forall in Hk, Hl. split.
  - rewrite Forall_forall. intros r [Hr | Hr]%elem_of_app.
    + specialize (Hk r Hr). lia.
    + specialize (Hl r Hr). lia.
  - apply StronglySorted_app_2; [ | done | done].
    intros r q Hr Hq. specialize (Hk r Hr). specialize (Hl q Hq). lia.
Qed.

Lemma increasing_nil lo hi : increasing lo hi [].
Proof. split; constructor. Qed.

Lemma increasing_single lo hi r :
  lo ≤ mr_start r → mr_start r ≤ mr_end r → mr_end r ≤ hi → increasing lo hi [r].
Proof. intros. split; repeat constructor; lia. Qed.

Lemma free_in_app lo hi k l : free_in lo hi (k ++ l) ↔ free_in lo hi k ∨ free_in lo hi l.
Proof. apply Exists_app. Qed.

Lemma free_in_single lo hi r : free_in lo hi [r] ↔ within lo hi r.
Proof. unfold free_in. rewrite Exists_cons, Exists_nil. tauto. Qed.

Lemma free_in_nil lo hi : free_in lo hi [] ↔ False.
Proof. apply Exists_nil. Qed.

(** The segments that [carve] consumes in one RAM range. *)
Definition carve_pre (mstart mend : Z) segs : Prop :=
  StronglySorted before segs ∧
  Forall (λ s, mstart ≤ seg_mem s ∧ 0 < seg_memsz s ∧
               (seg_mem s ≤ mend → seg_end s ≤ mend + 1)) segs.

Lemma carve_pre_step s segs mstart mend :
  0 ≤ mstart → carve_pre mstart mend (s :: segs) → carve_pre (seg_end s) mend segs.
Proof.
  intros ? [Hs Hall]. apply StronglySorted_cons in Hs as [Hb Hs].
  apply Forall_cons in Hall as [_ Hall]. split; [done | ].
  rewrite Forall_forall in *. intros t Ht.
  specialize (Hb t Ht). specialize (Hall t Ht). unfold before in Hb.
  split; [done | tauto].
Qed.

Lemma tail_range_spec mstart mend :
  increasing mstart mend (tail_range mstart mend) ∧
  ∀ lo hi, lo ≤ hi →
    free_in lo hi (tail_range mstart mend) ↔ mstart ≤ lo ∧ hi ≤ mend.
Proof.
  unfold tail_range. destruct (mstart <=? mend) eqn:E; zbool; split.
  - apply increasing_single; simpl; lia.
  - intros. rewrite free_in_single. done.
  - apply increasing_nil.
  - intros. rewrite free_in_nil. lia.
Qed.

(** The piece of free memory below a segment. *)
Definition piece (mstart sstart : Z) : list memory_range :=
  if mstart <? sstart
  then [{| mr_start := mstart; mr_end := sstart - 1; mr_type := RANGE_RAM |}] else [].

Lemma piece_tail mstart sstart : piece mstart sstart = tail_range mstart (sstart - 1).
Proof.
  unfold piece, tail_range.
  destruct (mstart <? sstart) eqn:E, (mstart <=? sstart - 1) eqn:E'; zbool; done || lia.
Qed.

Lemma length_piece mstart sstart : (length (piece mstart sstart) ≤ 1)%nat.
Proof. unfold piece. case_if; simpl; lia. Qed.

Lemma piece_eq mstart sstart :
  0 ≤ mstart → sstart ≤ ULONG_MAX →
  (if mstart <? sstart
   then [{| mr_start := mstart; mr_end := ul (sstart - 1); mr_type := RANGE_RAM |}]
   else []) = piece mstart sstart.
Proof. intros. unfold piece. case_if; [ | done]. zbool. by rewrite ul_id by lia. Qed.

Lemma carve_spec segs : ∀ mstart mend out mstart' rest,
  0 ≤ mstart → mend < ULONG_MAX → mstart ≤ mend + 1 →
  carve_pre mstart mend segs →
  carve mstart mend segs = (out, mstart', rest) →
  ∃ used, segs = used ++ rest ∧ Forall (λ s, seg_mem s ≤ mend) used ∧
    Forall (λ s, mend < seg_mem s) rest ∧
    (length out ≤ length used)%nat ∧
    increasing mstart mend (out ++ tail_range mstart' mend) ∧
    ∀ lo hi, lo ≤ hi →
      free_in lo hi (out ++ tail_range mstart' mend) ↔
      mstart ≤ lo ∧ hi ≤ mend ∧ Forall (avoids lo hi) used.
Proof.
  induction segs as [|s segs IH]; intros mstart mend out mstart' rest H0 Hmax Hle Hpre Hc;
    simpl in Hc.
  { simplify_eq. exists []. destruct (tail_range_spec mstart' mend) as [? Hf].
    split; [done | ]. split; [by constructor | ]. split; [by constructor | ].
    split; [simpl; lia | ]. split; [done | ].
    intros lo hi Hlo. simpl. rewrite Hf by done. rewrite Forall_nil. tauto. }
  pose proof (carve_pre_step _ _ _ _ H0 Hpre) as Hpre'.
  destruct Hpre as [_ [(Hms & Hpos & Hend) _]%Forall_cons].
  destruct (seg_mem s <=? mend) eqn:E; zbool.
  2:{ simplify_eq. exists []. destruct (tail_range_spec mstart' mend) as [? Hf].
      split; [done | ]. split; [by constructor | ]. split.
      { constructor; [done | ]. destruct Hpre' as [_ Hall'].
        eapply Forall_impl; [exact Hall' | ]. unfold seg_end. simpl. intros. lia. }
      split; [simpl; lia | ]. split; [done | ].
      intros lo hi Hlo. simpl. rewrite Hf by done. rewrite Forall_nil. tauto. }
  specialize (Hend E).
  assert (seg_end s = seg_mem s + seg_memsz s) as He by done.
  rewrite piece_eq in Hc by lia.
  replace (ul (ul (seg_mem s + seg_memsz s - 1) + 1)) with (seg_end s) in Hc
    by (rewrite !ul_id; rewrite ?ul_id; lia).
  destruct (carve (seg_end s) mend segs) as [[more mst] rest'] eqn:Hc'. simplify_eq.
  destruct (IH (seg_end s) mend more mstart' rest) as (used & -> & ? & ? & Hlen & Hinc & Hfree);
    [lia | done | lia | done | done | ].
  exists (s :: used). rewrite <- app_assoc, piece_tail. split; [done | ].
  split; [by constructor | ]. split; [done | ]. split.
  { rewrite length_app, <- piece_tail. pose proof (length_piece mstart (seg_mem s)).
    simpl. lia. }
  destruct (tail_range_spec mstart (seg_mem s - 1)) as [Hinc' Hfree'].
  split.
  { apply (increasing_app _ (seg_mem s - 1)); [done | | lia | lia].
    destruct Hinc as [Ha Hb]. split; [ | done].
    eapply Forall_impl; [exact Ha | ]. simpl. intros. lia. }
  intros lo hi Hlo. rewrite free_in_app, Hfree', Hfree, Forall_cons by done.
  unfold avoids at 2. split.
  - intros [? | (? & ? & Hu)]; [ | split; [lia | ]; split; [done | ]; split; [lia | done]].
    split; [lia | ]. split; [lia | ]. split; [lia | ].
    destruct Hpre' as [_ Hall']. apply Forall_app in Hall' as [Hall' _].
    eapply Forall_impl; [exact Hall' | ]. unfold avoids. simpl. intros. lia.
  - intros (? & ? & [? | ?] & Hu); [left; lia | right; split; [lia | done]].
Qed.

(** The RAM ranges of a table, and segments each inside one of them. *)
Definition good_ram ranges : Prop :=
  Forall (λ r, 0 ≤ mr_start r ≤ mr_end r ∧ mr_end r < ULONG_MAX) ranges ∧
  StronglySorted (λ r q, mr_end r < mr_start q) ranges.

Definition placed ranges segs : Prop :=
  Forall (λ s, 0 < seg_memsz s ∧ free_in (seg_mem s) (seg_end s - 1) ranges) segs.

Lemma good_ram_cons r ranges :
  good_ram (r :: ranges) ↔
  (0 ≤ mr_start r ≤ mr_end r ∧ mr_end r < ULONG_MAX) ∧
  Forall (λ q, mr_end r < mr_start q) ranges ∧ good_ram ranges.
Proof. unfold good_ram. rewrite Forall_cons, StronglySorted_cons. tauto. Qed.

Lemma placed_carve_pre r ranges segs :
  good_ram (r :: ranges) → placed (r :: ranges) segs → StronglySorted before segs →
  carve_pre (mr_start r) (mr_end r) segs.
Proof.
  rewrite good_ram_cons. intros (? & Hlt & _) Hp Hs. split; [done | ].
  unfold placed in Hp. rewrite !Forall_forall in *. intros s Hin.
  destruct (Hp s Hin) as [? [[? ?] | Hq]%Exists_cons]; [lia | ].
  apply Exists_exists in Hq as (q & Hq & [? ?]). specialize (Hlt q Hq). lia.
Qed.

Lemma placed_rest r ranges segs :
  placed (r :: ranges) segs → Forall (λ s, mr_end r < seg_mem s) segs → placed ranges segs.
Proof.
  unfold placed. rewrite !Forall_forall. intros Hp Hr s Hs.
  specialize (Hr s Hs). destruct (Hp s Hs) as [? [[? ?] | ?]%Exists_cons]; [ | done].
  unfold seg_end in *. lia.
Qed.

Lemma free_ranges_ram ranges segs :
  free_ranges ranges segs = free_ranges (ram ranges) segs.
Proof.
  revert segs. induction ranges as [|r ranges IH]; intros segs; [done | ].
  unfold ram in *. simpl. destruct (mr_type r =? RANGE_RAM) eqn:E; zbool.
  - rewrite filter_cons_True by done. simpl. rewrite E. simpl.
    destruct (carve _ _ _) as [[? ?] ?]. by rewrite IH.
  - rewrite filter_cons_False by done. simpl. by rewrite IH.
Qed.

(** The free ranges are the RAM less the segments. *)
Lemma free_ranges_spec ranges : ∀ segs,
  Forall (λ r, mr_type r = RANGE_RAM) ranges →
  good_ram ranges → placed ranges segs → StronglySorted before segs →
  (length (free_ranges ranges segs) ≤ length ranges + length segs)%nat ∧
  (∀ l, Forall (λ r, l ≤ mr_start r) ranges →
        increasing l (ULONG_MAX - 1) (free_ranges ranges segs)) ∧
  ∀ lo hi, lo ≤ hi →
    free_in lo hi (free_ranges ranges segs) ↔
    free_in lo hi ranges ∧ Forall (avoids lo hi) segs.
Proof.
  induction ranges as [|r ranges IH]; intros segs Hty Hr Hp Hs; simpl.
  { split; [lia | ]. split; [intros; apply increasing_nil | ].
    intros. rewrite free_in_nil. tauto. }
  apply Forall_cons in Hty as [-> Hty]. rewrite Z.eqb_refl. simpl.
  pose proof (placed_carve_pre _ _ _ Hr Hp Hs) as Hpre.
  apply good_ram_cons in Hr as (Hr & Hlt & Hgood).
  rewrite !ul_id by lia.
  destruct (carve _ _ _) as [[out mst] rest] eqn:Hc.
  destruct (carve_spec segs (mr_start r) (mr_end r) out mst rest)
    as (used & -> & Hused & Hrest & Hlen & Hinc & Hfree); [lia | lia | lia | done | done | ].
  fold (tail_range mst (mr_end r)).
  assert (StronglySorted before rest) as Hs' by (by apply StronglySorted_app in Hs as (_ & _ & ?)).
  assert (placed (r :: ranges) rest) as Hp' by (by apply Forall_app in Hp as [_ ?]).
  pose proof (placed_rest _ _ _ Hp' Hrest) as Hp''.
  destruct (IH rest Hty Hgood Hp'' Hs') as (Hlen' & Hinc' & Hfree').
  split.
  { rewrite !length_app. assert (length (tail_range mst (mr_end r)) ≤ 1)%nat.
    { unfold tail_range. case_if; simpl; lia. } lia. }
  split.
  { intros l [Hl _]%Forall_cons. rewrite app_assoc.
    apply (increasing_app _ (mr_end r)); [ | | lia | lia].
    - destruct Hinc as [Ha Hb]. split; [ | done].
      eapply Forall_impl; [exact Ha | ]. simpl. intros. lia.
    - apply Hinc'. eapply Forall_impl; [exact Hlt | ]. simpl. intros. lia. }
  intros lo hi Hlo. rewrite app_assoc, free_in_app, Hfree, Hfree', Forall_app by done.
  unfold free_in at 2. rewrite Exists_cons. fold (free_in lo hi ranges).
  unfold within. split.
  - intros [(? & ? & ?) | [Hq ?]].
    + split; [by left | ]. split; [done | ].
      eapply Forall_impl; [exact Hrest | ]. unfold avoids. simpl. intros. lia.
    + split; [by right | ]. split; [ | done].
      apply Exists_exists in Hq as (q & Hq & [? ?]). rewrite Forall_forall in Hlt.
      specialize (Hlt q Hq). destruct Hpre as [_ [Hall _]%Forall_app].
      rewrite Forall_forall in *. intros s Hin. specialize (Hall s Hin). specialize (Hused s Hin).
      unfold avoids. lia.
  - intros [[[? ?] | ?] [? ?]]; [by left | by right].
Qed.
End free.

(** ** The search for a hole *)

Section hole.
Context `{Arch} (lay : layout) (size align lo hi : Z).

(** A base that fits in one free range. *)
Definition fits_in (r : memory_range) (b : Z) : Prop :=
  (align | b) ∧ mem_min lay ≤ b ∧ lo ≤ b ∧
  b + size ≤ mem_max lay ∧ b + size ≤ hi ∧ within b (b + size) r.

(** No address that the search computes wraps around. *)
Record no_wrap (ranges : list memory_range) : Prop := {
  nw_align : pow2 align;
  nw_size : 0 < size;
  nw_lo : 0 ≤ lo ∧ lo + align ≤ 2 ^ ulong_bits;
  nw_min : 0 ≤ mem_min lay ∧ mem_min lay + align ≤ 2 ^ ulong_bits;
  nw_ranges : Forall (λ r, 0 ≤ mr_start r ≤ mr_end r ∧ mr_end r + align ≤ 2 ^ ulong_bits)
                ranges
}.

Lemma no_wrap_cons r ranges :
  no_wrap (r :: ranges) →
  no_wrap ranges ∧ 0 ≤ mr_start r ≤ mr_end r ∧ mr_end r + align ≤ 2 ^ ulong_bits.
Proof. intros [? ? ? ? [? ?]%Forall_cons]. split; [by constructor | done]. Qed.

Let base_start (r : memory_range) : Z := clip_start lay align lo (mr_start r).
Let base_end (r : memory_range) : Z := clip_end lay hi (mr_end r).

Lemma clip_start_spec r ranges :
  no_wrap (r :: ranges) →
  base_start r = round_up ((mr_start r `max` mem_min lay) `max` lo) align.
Proof.
  intros Hnw. pose proof (nw_align _ Hnw) as Ha. pose proof (pow2_pos _ Ha).
  destruct (nw_lo _ Hnw). destruct (nw_min _ Hnw).
  apply no_wrap_cons in Hnw as (_ & ? & ?). pose proof ulong_mod_ge.
  unfold base_start, clip_start.
  assert (∀ a b, (if a <? b then b else a) = a `max` b) as Hmax.
  { intros. case_if; zbool; lia. }
  cbv zeta. rewrite !Hmax.
  pose proof ulong_bits_pos.
  rewrite u64_small by lia. unfold round_up. rewrite land_notw_pow2 by (done || lia). done.
Qed.

Lemma clip_end_spec r : base_end r = (mr_end r `min` mem_max lay) `min` hi.
Proof. unfold base_end, clip_end. repeat case_if; zbool; lia. Qed.

(** The test that the loop makes of a range. *)
Let usable (r : memory_range) : bool :=
  negb ((base_end r <=? base_start r) || (mem_max lay <=? base_start r)
        || (base_end r <=? mem_min lay)) && (size <=? base_end r - base_start r).

Lemma usable_spec r ranges :
  no_wrap (r :: ranges) →
  (usable r = true → fits_in r (base_start r) ∧
                     fits_in r (round_down (base_end r - size) align)) ∧
  (∀ b, fits_in r b → usable r = true ∧ base_start r ≤ b ≤
                      round_down (base_end r - size) align).
Proof.
  intros Hnw. pose proof (clip_start_spec _ _ Hnw) as Hs. pose proof (clip_end_spec r) as He.
  pose proof (nw_size _ Hnw). pose proof (pow2_pos _ (nw_align _ Hnw)) as Ha.
  destruct (nw_lo _ Hnw). destruct (nw_min _ Hnw).
  set (m := (mr_start r `max` mem_min lay) `max` lo) in Hs.
  pose proof (round_up_spec m align Ha).
  pose proof (round_up_divide m align) as Hd. rewrite <- Hs in Hd.
  pose proof (round_down_divide (base_end r - size) align) as Hd'.
  pose proof (round_down_spec (base_end r - size) align Ha).
  split.
  - unfold usable. intros Hu. zbool.
    assert (base_start r ≤ round_down (base_end r - size) align)
      by (apply round_down_greatest; [lia | done | lia]).
    unfold fits_in, within. split; split; try done; lia.
  - intros b (Hb & ? & ? & ? & ? & ? & ?).
    assert (base_start r ≤ b) by (rewrite Hs; apply round_up_least; [lia | done | lia]).
    assert (b ≤ round_down (base_end r - size) align)
      by (apply round_down_greatest; [lia | done | lia]).
    split; [ | lia]. unfold usable.
    apply andb_true_iff; split; [apply negb_true_iff; rewrite !orb_false_iff, !Z.leb_gt | apply Z.leb_le]; lia.
Qed.

Definition fits_some (ranges : list memory_range) (b : Z) : Prop :=
  Exists (λ r, fits_in r b) ranges.

Lemma fits_in_range r ranges b : no_wrap (r :: ranges) → fits_in r b → ul b = b ∧ b < ULONG_MAX.
Proof.
  intros Hnw (_ & ? & _ & _ & _ & ? & ?). destruct (nw_min _ Hnw).
  pose proof (nw_size _ Hnw). pose proof (pow2_pos _ (nw_align _ Hnw)).
  apply no_wrap_cons in Hnw as (_ & ? & ?).
  unfold ULONG_MAX. rewrite ul_small by lia. lia.
Qed.

Lemma pick_hole_cons r ranges hole_end d :
  no_wrap (r :: ranges) →
  pick_hole lay size align lo hi hole_end (r :: ranges) d =
  if usable r then
    if 0 <? hole_end then base_start r
    else pick_hole lay size align lo hi hole_end ranges (round_down (base_end r - size) align)
  else pick_hole lay size align lo hi hole_end ranges d.
Proof.
  intros Hnw. simpl. fold (base_start r) (base_end r). unfold usable.
  destruct (((base_end r <=? base_start r) || (mem_max lay <=? base_start r)
             || (base_end r <=? mem_min lay))) eqn:E1; simpl; [done | ].
  destruct (size <=? base_end r - base_start r) eqn:E2; [ | done].
  assert (usable r = true) as Hu by (unfold usable; by rewrite E1, E2).
  destruct (usable_spec _ _ Hnw) as [Hs _]. destruct (Hs Hu) as [Hf Hf']. clear Hs.
  destruct (fits_in_range _ _ _ Hnw Hf) as [-> _].
  destruct (fits_in_range _ _ _ Hnw Hf') as [Hul ?].
  case_if; [done | ]. f_equal.
  pose proof (nw_size _ Hnw). destruct Hf as (_ & ? & _ & _ & _ & ? & ?). destruct (nw_min _ Hnw).
  pose proof (nw_align _ Hnw) as Ha. pose proof (pow2_pos _ Ha).
  pose proof (clip_end_spec r). apply no_wrap_cons in Hnw as (_ & ? & ?).
  pose proof ulong_mod_ge. pose proof ulong_bits_pos. zbool.
  rewrite u64_small by lia. rewrite land_notw_pow2 by (done || lia). done.
Qed.

Lemma fits_later r ranges b b' :
  StronglySorted (λ r q, mr_end r < mr_start q) (r :: ranges) → 0 < size →
  fits_in r b → fits_some ranges b' → b < b'.
Proof.
  intros [_ Hlt]%StronglySorted_inv ? (_ & _ & _ & _ & _ & ? & ?) [q [Hq Hf]]%Exists_exists.
  rewrite Forall_forall in Hlt. specialize (Hlt q Hq).
  destruct Hf as (_ & _ & _ & _ & _ & ? & ?). lia.
Qed.

(** The loop finds the lowest base when [hole_end] is positive, else the
    highest one, and leaves [hole_base] alone when nothing fits. *)
Lemma pick_hole_spec ranges hole_end : ∀ d,
  no_wrap ranges → StronglySorted (λ r q, mr_end r < mr_start q) ranges →
  let b := pick_hole lay size align lo hi hole_end ranges d in
  (b = d ∧ ∀ b', ¬ fits_some ranges b') ∨
  (fits_some ranges b ∧
   ∀ b', fits_some ranges b' → if 0 <? hole_end then b ≤ b' else b' ≤ b).
Proof.
  induction ranges as [|r ranges IH]; intros d Hnw Hs; cbv zeta.
  { left. split; [done | ]. intros b' Hb'%Exists_nil. done. }
  destruct (usable_spec _ _ Hnw) as [Husable Hfits].
  pose proof (no_wrap_cons _ _ Hnw) as (Hnw' & _).
  pose proof Hs as Hs'. apply StronglySorted_inv in Hs' as [Hs' _].
  pose proof (nw_size _ Hnw) as Hsize.
  rewrite (pick_hole_cons _ _ _ _ Hnw). destruct (usable r) eqn:Hu.
  - destruct (Husable eq_refl) as [Hf Hf']. clear Husable.
    assert (∀ b', fits_some (r :: ranges) b' →
      base_start r ≤ b' ∧ (b' ≤ round_down (base_end r - size) align ∨ fits_some ranges b')) as Hcase.
    { intros b' [Hb' | Hb']%Exists_cons.
      - destruct (Hfits b' Hb') as [_ ?]. split; [lia | left; lia].
      - split; [ | by right]. pose proof (fits_later _ _ _ _ Hs Hsize Hf Hb'). lia. }
    right. destruct (0 <? hole_end) eqn:E.
    + split; [by apply Exists_cons_hd | ]. intros b' Hb'. by apply Hcase.
    + destruct (IH (round_down (base_end r - size) align) Hnw' Hs') as [[-> Hno] | [Hb Hmax]].
      * split; [by apply Exists_cons_hd | ]. intros b' Hb'.
        destruct (Hcase b' Hb') as [_ [? | []%Hno]]; done.
      * split; [by apply Exists_cons_tl | ]. intros b' Hb'.
        destruct (Hcase b' Hb') as [_ [? | ?]]; [ | by apply Hmax].
        pose proof (fits_later _ _ _ _ Hs Hsize Hf' Hb). lia.
  - assert (∀ b', fits_some (r :: ranges) b' ↔ fits_some ranges b') as Heq.
    { intros b'. unfold fits_some. rewrite Exists_cons. split; [ | by right].
      intros [Hb' | ?]; [ | done]. by destruct (Hfits b' Hb'). }
    destruct (IH d Hnw' Hs') as [[-> Hno] | [Hb Hmax]]; [left | right].
    + split; [done | ]. intros b'. by rewrite Heq.
    + split; [by rewrite Heq | ]. intros b'. rewrite Heq. apply Hmax.
Qed.
End hole.

(** ** The operations *)

Section operations.
Context `{Arch}.

Lemma in_ram_bounds lay lo hi : wf_layout lay → in_ram lay lo hi → 0 ≤ lo ∧ hi < ULONG_MAX.
Proof.
  intros Hwf (r & Hr & [? ?])%Exists_exists. pose proof (wf_ram _ Hwf) as Hall.
  rewrite Forall_forall in Hall. specialize (Hall r Hr). lia.
Qed.

Lemma valid_memory_range_spec lay lo hi :
  wf_layout lay →
  valid_memory_range lay lo hi = true ↔
  lo ≤ hi ∧ mem_min lay ≤ lo ∧ hi ≤ mem_max lay ∧ in_ram lay lo hi.
Proof.
  intros Hwf. unfold valid_memory_range, in_ram.
  destruct (hi <? lo) eqn:E1; zbool; [split; [done | lia] | ].
  destruct ((mem_max lay <? hi) || (lo <? mem_min lay)) eqn:E2; zbool; [split; [done | lia] | ].
  rewrite existsb_exists, Exists_exists. pose proof (wf_ram _ Hwf) as Hr.
  rewrite Forall_forall in Hr. split.
  - intros (r & Hin & Ht). zbool. repeat (split; [done | ]). exists r.
    assert (r ∈ ram (memory_ranges lay)) as Hram.
    { apply list_elem_of_filter. split; [done | by apply list_elem_of_In]. }
    split; [done | ]. specialize (Hr r Hram). rewrite !ul_id in * by lia. done.
  - intros (_ & _ & _ & r & Hram & [? ?]). exists r. specialize (Hr r Hram).
    apply list_elem_of_filter in Hram as [Ht Hin]. split; [by apply list_elem_of_In | ].
    rewrite !ul_id by lia. rewrite !andb_true_iff. rewrite Z.eqb_eq, !Z.leb_le. done.
Qed.

(** The segment that [add_segment] appends. *)
Definition new_segment (buf : ptr) (bufsz base memsz : Z) : kexec_segment :=
  {| seg_buf := buf; seg_bufsz := bufsz `min` memsz; seg_mem := base;
     seg_memsz := round_up memsz pagesize |}.

(** Rounding up to pages in [unsigned long]: only the last page wraps. *)
Lemma page_round m :
  0 ≤ m ≤ ULONG_MAX →
  Z.land (ul (m + (pagesize - 1))) (notw ulong_bits (pagesize - 1)) = ul (round_up m pagesize) ∧
  round_up m pagesize ≤ 2 ^ ulong_bits.
Proof.
  unfold ULONG_MAX. intros Hm. pose proof pagesize_pos as Hp. pose proof pow2_pagesize as Hp2.
  pose proof ulong_bits_pos. pose proof ulong_mod_ge. pose proof pagesize_lt.
  assert (round_up m pagesize ≤ 2 ^ ulong_bits) as Hle.
  { apply round_up_least; [lia | | lia]. apply pow2_divide; [done | | lia].
    exists ulong_bits. lia. }
  split; [ | done]. rewrite land_notw_pow2; [ | lia | done | apply ul_range].
  pose proof (round_up_spec m pagesize Hp).
  replace (m + (pagesize - 1)) with (m + pagesize - 1) by lia.
  destruct (decide (m + pagesize - 1 < 2 ^ ulong_bits)).
  - rewrite (ul_small (m + pagesize - 1)) by lia. fold (round_up m pagesize).
    rewrite ul_small; [done | ]. split; [lia | ].
    assert (round_up m pagesize ≤ m + pagesize - 1) by lia. lia.
  - assert (round_up m pagesize = 2 ^ ulong_bits) as ->.
    { pose proof (divide_lt_add pagesize (round_up m pagesize) (2 ^ ulong_bits) Hp
        (round_up_divide _ _)) as Hd.
      assert (pagesize | 2 ^ ulong_bits) as Hd2 by (apply pow2_divide; [done | exists ulong_bits; lia | lia]).
      assert (¬ round_up m pagesize < 2 ^ ulong_bits); [ | lia]. intros Hlt.
      specialize (Hd Hd2 Hlt). lia. }
    unfold ul. rewrite Z_mod_same_full.
    replace ((m + pagesize - 1) `mod` 2 ^ ulong_bits) with (m + pagesize - 1 - 2 ^ ulong_bits).
    + unfold round_down. rewrite Z.div_small by lia. lia.
    + apply (Z.mod_unique _ _ 1); lia.
Qed.

(** The last address of a segment is computed without harm: when it wraps
    around, the range it gives is not valid. *)
Lemma valid_wrap lay base n :
  wf_layout lay → 0 ≤ base ≤ ULONG_MAX → 0 < n ≤ 2 ^ ulong_bits →
  valid_memory_range lay base (ul (base + n - 1)) = true ↔
  mem_min lay ≤ base ∧ base + n - 1 ≤ mem_max lay ∧ in_ram lay base (base + n - 1).
Proof.
  intros Hwf Hb Hn. rewrite valid_memory_range_spec by done.
  destruct (decide (base + n - 1 < 2 ^ ulong_bits)).
  - rewrite ul_small by lia. split; [tauto | ]. intros (? & ? & ?). repeat split; try done; lia.
  - unfold ULONG_MAX in *.
    replace (ul (base + n - 1)) with (base + n - 1 - 2 ^ ulong_bits)
      by (apply (Z.mod_unique _ _ 1); lia).
    split; [lia | ]. intros (_ & ? & _). pose proof (wf_max _ Hwf). unfold ULONG_MAX in *. lia.
Qed.

Lemma add_segment_Ret lay segs buf bufsz base memsz segs' :
  wf_layout lay → 0 ≤ base ≤ ULONG_MAX → 0 < memsz ≤ ULONG_MAX →
  add_segment lay segs buf bufsz base memsz = Ret segs' ↔
  segs' = segs ++ [new_segment buf bufsz base memsz] ∧
  wf_segment lay (new_segment buf bufsz base memsz).
Proof.
  intros Hwf Hbase Hmem. pose proof pagesize_pos as Hp. pose proof pow2_pagesize as Hp2.
  pose proof (round_up_spec memsz pagesize Hp). pose proof (round_up_divide memsz pagesize).
  destruct (page_round memsz) as [Hr Hle]; [lia | ]. unfold add_segment. rewrite Hr.
  destruct (memsz =? 0) eqn:E0; zbool; [lia | ].
  assert ((if memsz <? bufsz then memsz else bufsz) = bufsz `min` memsz) as ->.
  { case_if; zbool; lia. }
  rewrite land_pow2_mod by done. rewrite Z.eqb_sym.
  destruct (negb (0 =? base `mod` pagesize)) eqn:E1; zbool.
  { split; [done | ]. intros [_ Hs]. apply wf_mem_aligned, Z.mod_divide in Hs; [ | lia].
    simpl in Hs. congruence. }
  replace (ul (base + ul (round_up memsz pagesize) - 1))
    with (ul (base + round_up memsz pagesize - 1))
    by (unfold ul; rewrite <- !Z.add_opp_r, <- !Z.add_assoc, (Z.add_comm (_ `mod` _)),
          (Z.add_comm (round_up _ _)), !Z.add_assoc, Zplus_mod_idemp_r; done).
  destruct (valid_memory_range _ _ _) eqn:Hv; simpl.
  - apply valid_wrap in Hv as (? & ? & Hin); [ | done | lia | lia].
    rewrite ul_small by (apply in_ram_bounds in Hin; unfold ULONG_MAX in *; [lia | done]).
    assert (wf_segment lay (new_segment buf bufsz base memsz)).
    { split; unfold seg_end; simpl; try done; try lia. apply Z.mod_divide; lia. }
    unfold new_segment in *. split; [intros; by inv_ret | by intros [-> _]].
  - split; [done | ]. intros [_ [_ _ _ _ Hin Hmin Hmax]]. unfold seg_end in *. simpl in *.
    enough (false = true) by done. rewrite <- Hv. apply valid_wrap; [done | lia | lia | done].
Qed.

(** What [locate_hole] promises of the base [b] that it returns. *)
Definition hole_spec lay segs size align lo hi hole_end b : Prop :=
  (b = ULONG_MAX ∧ ∀ b', ¬ fits lay segs size align lo hi b') ∨
  (fits lay segs size align lo hi b ∧
   ∀ b', fits lay segs size align lo hi b' → if 0 <? hole_end then b ≤ b' else b' ≤ b).

Lemma fits_some_free lay segs size align lo hi b :
  wf_layout lay → StronglySorted before segs → placed (ram (memory_ranges lay)) segs → 0 < size →
  fits_some lay size align lo hi (free_ranges (memory_ranges lay) segs) b ↔
  fits lay segs size align lo hi b.
Proof.
  intros Hwf Hs Hp Hsize. rewrite free_ranges_ram.
  destruct (free_ranges_spec (ram (memory_ranges lay)) segs) as (_ & _ & Hfree);
    [ | split; [apply Hwf | apply Hwf] | done | done | ].
  { apply Forall_forall. intros r Hr. by apply list_elem_of_filter in Hr as [? _]. }
  specialize (Hfree b (b + size) ltac:(lia)). unfold free_in in Hfree. unfold fits_some, fits_in.
  split.
  - intros [r [Hr (? & ? & ? & ? & ? & ?)]]%Exists_exists.
    destruct Hfree as [Hfree _]. destruct Hfree; [apply Exists_exists; by exists r | ].
    by split.
  - intros [? [? ?] [? ?] ? ?]. destruct Hfree as [_ Hfree].
    specialize (Hfree ltac:(done)) as (r & Hr & ?)%Exists_exists. apply Exists_exists.
    exists r. done.
Qed.

Lemma locate_hole_spec lay segs size align lo hi hole_end :
  wf_layout lay → StronglySorted before segs → placed (ram (memory_ranges lay)) segs →
  no_wrap lay size (sane_align align) lo (ram (memory_ranges lay)) →
  (length (ram (memory_ranges lay)) < length (memory_ranges lay))%nat → hole_end ≠ 0 →
  ∃ b, locate_hole lay segs size align lo hi hole_end = Ret b ∧
       hole_spec lay segs size (sane_align align) lo hi hole_end b.
Proof.
  intros Hwf Hs Hp Hnw Hlen He.
  pose proof (fun b => fits_some_free lay segs size (sane_align align) lo hi b Hwf Hs Hp
                         (nw_size _ _ _ _ _ Hnw)) as Hfits.
  assert (Forall (λ r, mr_type r = RANGE_RAM) (ram (memory_ranges lay))) as Hty.
  { apply Forall_forall. intros r Hr. by apply list_elem_of_filter in Hr as [? _]. }
  destruct (free_ranges_spec (ram (memory_ranges lay)) segs) as (Hl & Hinc & Hfree);
    [done | split; apply Hwf | done | done | ].
  rewrite <- free_ranges_ram in *. set (frees := free_ranges _ _) in *.
  destruct (Hinc 0) as [Hin Hsort].
  { eapply Forall_impl; [apply Hwf | ]. simpl. lia. }
  assert (no_wrap lay size (sane_align align) lo frees) as Hnw'.
  { destruct Hnw as [? ? ? ? Hall]. split; [done | done | done | done | ].
    rewrite Forall_forall in Hin, Hall |- *. intros r Hr. specialize (Hin r Hr).
    destruct (Hfree (mr_start r) (mr_end r)) as [Hf _]; [lia | ].
    destruct Hf as [Hf _]; [by apply Exists_exists; exists r | ].
    apply Exists_exists in Hf as (q & Hq & [? ?]). specialize (Hall q Hq). lia. }
  unfold locate_hole. fold frees.
  destruct (hole_end =? 0) eqn:E; zbool; [done | ].
  destruct (_ <? _) eqn:E2; zbool; [lia | ].
  pose proof (pick_hole_spec lay size (sane_align align) lo hi frees hole_end ULONG_MAX
                Hnw' Hsort) as Hpick. cbv zeta in Hpick.
  set (b := pick_hole _ _ _ _ _ _ _ _) in *.
  destruct Hpick as [[Hb Hno] | [Hb Hbest]].
  - rewrite Hb, Z.eqb_refl. exists ULONG_MAX. split; [done | ]. left. split; [done | ].
    intros b' Hb'%Hfits. by apply (Hno b').
  - apply Hfits in Hb. exists b. split; [ | right; split; [done | ]].
    + destruct Hb as [? [? ?] [? ?] Hram _]. apply in_ram_bounds in Hram as [? ?]; [ | done].
      pose proof (nw_size _ _ _ _ _ Hnw).
      destruct (b =? ULONG_MAX) eqn:E3; zbool; [lia | ]. rewrite ul_id by lia.
      destruct (hi <? b + size) eqn:E4; zbool; [lia | done].
    + intros b' Hb'. apply Hbest. by apply Hfits.
Qed.

Lemma sort_segments_spec l :
  Forall (λ s, 0 ≤ seg_mem s ∧ 0 < seg_memsz s ∧ seg_end s ≤ ULONG_MAX) l →
  ∃ r l', sort_segments l = (r, l') ∧ l' ≡ₚ l ∧ StronglySorted mem_le l' ∧
        (r = 0 ∧ StronglySorted disjoint_seg l ∧ StronglySorted before l' ∨
         r = -1 ∧ ¬ StronglySorted disjoint_seg l).
Proof.
  intros Hl. unfold sort_segments. destruct (sort_loop l) as [Hp Hs].
  set (l' := foldl sort_step l _) in *. eexists _, l'. split; [done | ].
  split; [done | ]. split; [done | ].
  assert (Forall (λ s, 0 ≤ seg_mem s ∧ 0 < seg_memsz s ∧ seg_end s ≤ ULONG_MAX) l') as Hl'
    by (by rewrite Hp).
  pose proof (no_overlap_spec 0 l' Hl') as Hno.
  assert (StronglySorted disjoint_seg l ↔ StronglySorted before l') as Hd.
  { rewrite <- sorted_disjoint; [ | | done].
    - split; apply StronglySorted_perm; [apply disjoint_seg_sym | done | apply disjoint_seg_sym | done].
    - eapply Forall_impl; [exact Hl' | ]. simpl. lia. }
  rewrite Hd. destruct (no_overlap 0 l'); [left | right].
  - split; [done | ]. destruct Hno as [[_ ?] _]; done.
  - split; [done | ]. intros Hb. enough (false = true) by done. apply Hno. split; [ | done].
    eapply Forall_impl; [exact Hl' | ]. simpl. lia.
Qed.

Lemma add_segment_outcome lay segs buf bufsz base memsz :
  (∃ l, add_segment lay segs buf bufsz base memsz = Ret l) ∨
  (∃ w, add_segment lay segs buf bufsz base memsz = Die w).
Proof. unfold add_segment. repeat case_if; eauto. Qed.

Lemma add_segment_cases lay segs buf bufsz base memsz :
  wf_layout lay → 0 ≤ base ≤ ULONG_MAX → 0 < memsz ≤ ULONG_MAX → (pagesize | base) →
  let s := new_segment buf bufsz base memsz in
  add_segment lay segs buf bufsz base memsz = Ret (segs ++ [s]) ∧ wf_segment lay s ∨
  add_segment lay segs buf bufsz base memsz = Die "Invalid memory segment %p - %p" ∧
    ¬ wf_segment lay s.
Proof.
  intros Hwf Hb Hm Hal s.
  pose proof (add_segment_Ret lay segs buf bufsz base memsz (segs ++ [s]) Hwf Hb Hm) as HRet.
  fold s in HRet.
  destruct (add_segment_outcome lay segs buf bufsz base memsz) as [[l E] | [w E]].
  - left. pose proof E as E'. apply add_segment_Ret in E' as [-> ?]; done.
  - right. rewrite E in HRet |- *.
    split; [ | intros Hs; destruct HRet as [_ HRet]; by discriminate HRet].
    unfold add_segment in E. destruct (memsz =? 0) eqn:E0; [done | ].
    rewrite land_pow2_mod in E by apply pow2_pagesize.
    pose proof pagesize_pos. apply Z.mod_divide in Hal; [ | lia]. rewrite Hal in E. simpl in E.
    case_if_in E; congruence.
Qed.

Lemma wf_segment_bounds lay s :
  wf_layout lay → wf_segment lay s → 0 ≤ seg_mem s ∧ 0 < seg_memsz s ∧ seg_end s ≤ ULONG_MAX.
Proof.
  intros Hwf [_ _ ? _ Hin _ _]. apply in_ram_bounds in Hin; [ | done]. lia.
Qed.

Lemma wf_segments_perm lay l k : l ≡ₚ k → wf_segments lay l → wf_segments lay k.
Proof.
  intros Hp [Hl Hs]. split; [by rewrite <- Hp | ].
  apply (StronglySorted_perm _ l); [apply disjoint_seg_sym | done | done].
Qed.

Lemma pow2_sane_align align : pow2 (sane_align align) → (pagesize | sane_align align).
Proof.
  intros Ha. apply pow2_divide; [apply pow2_pagesize | done | ].
  unfold sane_align. repeat case_if; zbool; lia.
Qed.

(** A base that fits starts a segment that no other one overlaps, even after
    its size is rounded up to whole pages. *)
Lemma fits_disjoint lay segs buf bufsz size align lo hi b :
  fits lay segs size align lo hi b → (pagesize | align) → Forall (wf_segment lay) segs →
  Forall (disjoint_seg (new_segment buf bufsz b size)) segs.
Proof.
  intros [Hb _ _ _ Hfree] Hdiv Hwf. rewrite Forall_forall in *. intros s Hs.
  specialize (Hfree s Hs). destruct (Hwf s Hs) as [Hal Hpg ? _ _ _ _]. unfold disjoint_seg, before.
  destruct Hfree as [Hlt | ?]; [left | right; done]. unfold seg_end. simpl.
  assert (round_up size pagesize ≤ seg_mem s - b); [ | lia].
  apply round_up_least; [apply pagesize_pos | | lia].
  apply Z.divide_sub_r; [done | ]. by apply (Z.divide_trans _ align).
Qed.

Lemma wf_segments_snoc lay segs s :
  wf_segments lay segs → wf_segment lay s → Forall (disjoint_seg s) segs →
  wf_segments lay (segs ++ [s]).
Proof.
  intros [Hwf Hs] Hw Hd. apply (wf_segments_perm _ (s :: segs)).
  - apply Permutation_cons_append.
  - split; [by constructor | by apply StronglySorted_cons].
Qed.

Lemma wf_segments_placed lay l : wf_segments lay l → placed (ram (memory_ranges lay)) l.
Proof.
  intros [Hl _]. eapply Forall_impl; [exact Hl | ]. intros s [_ _ ? _ ? _ _]. done.
Qed.

(** [sort_segments] on the segments of a load. *)
Lemma sort_wf_segments lay segs :
  wf_layout lay → wf_segments lay segs →
  ∃ sorted, sort_segments segs = (0, sorted) ∧ sorted ≡ₚ segs ∧
            StronglySorted before sorted ∧ wf_segments lay sorted.
Proof.
  intros Hwf Hw. destruct (sort_segments_spec segs) as (r & l' & -> & Hp & _ & Hr).
  { destruct Hw as [Hw _]. eapply Forall_impl; [exact Hw | ].
    intros s Hs. by apply (wf_segment_bounds lay). }
  destruct Hr as [(-> & _ & Hb) | [_ Hno]]; [ | by destruct Hno, Hw].
  exists l'. split; [done | ]. split; [done | ]. split; [done | ].
  by apply (wf_segments_perm _ segs).
Qed.

Lemma fits_perm lay segs segs' size align lo hi b :
  segs ≡ₚ segs' → fits lay segs size align lo hi b ↔ fits lay segs' size align lo hi b.
Proof.
  intros Hp. split; intros [? ? ? ? Hf]; (split; [done | done | done | done | ]);
    [by rewrite <- Hp | by rewrite Hp].
Qed.

(** The conditions under which a hole can be looked for without harm: a table
    of ranges that is not all RAM, and no address that wraps around. *)
Record search_ok (lay : layout) (size align lo : Z) : Prop := {
  so_layout : wf_layout lay;
  so_capacity : (length (ram (memory_ranges lay)) < length (memory_ranges lay))%nat;
  so_no_wrap : no_wrap lay size (sane_align align) lo (ram (memory_ranges lay))
}.

(** The whole behaviour of [add_buffer]. *)
Lemma add_buffer_spec lay segs buf bufsz memsz align lo hi hole_end :
  search_ok lay memsz align lo → wf_segments lay segs → hole_end ≠ 0 →
  let fit := fits lay segs memsz (sane_align align) lo hi in
  match add_buffer lay segs buf bufsz memsz align lo hi hole_end with
  | Ret (b, segs') =>
      fit b ∧ (∀ b', fit b' → if 0 <? hole_end then b ≤ b' else b' ≤ b) ∧
      segs' ≡ₚ new_segment buf bufsz b memsz :: segs ∧ wf_segments lay segs'
  | Die w =>
      w = "locate_hole failed"%string ∧ (∀ b, ¬ fit b) ∨
      w = "Invalid memory segment %p - %p"%string ∧
        ∃ b, (fit b ∧ ∀ b', fit b' → if 0 <? hole_end then b ≤ b' else b' ≤ b) ∧
          ¬ wf_segment lay (new_segment buf bufsz b memsz)
  | UB _ | Spin => False
  end.
Proof.
  intros [Hwf Hcap Hnw] Hsegs He. simpl. unfold add_buffer.
  destruct (sort_wf_segments lay segs Hwf Hsegs) as (sorted & -> & Hp & Hb & Hw). simpl.
  destruct (locate_hole_spec lay sorted memsz align lo hi hole_end Hwf Hb
    (wf_segments_placed _ _ Hw) Hnw Hcap He) as (b & -> & Hspec). simpl.
  pose proof (nw_size _ _ _ _ _ Hnw) as Hsize.
  destruct Hspec as [[-> Hno] | [Hfit Hbest]].
  { rewrite Z.eqb_refl. left. split; [done | ]. intros b Hb'. apply (Hno b).
    by rewrite (fits_perm _ _ _ _ _ _ _ _ Hp). }
  pose proof Hfit as [_ _ _ [Hb0 Hb1]%in_ram_bounds _]; [ | done].
  destruct (b =? ULONG_MAX) eqn:E; zbool; [lia | ].
  pose proof (pow2_sane_align align (nw_align _ _ _ _ _ Hnw)) as Hdiv.
  assert (pagesize | b) as Hbal by (eapply Z.divide_trans; [exact Hdiv | apply Hfit]).
  assert (0 ≤ b ≤ ULONG_MAX) as Hbr by lia. assert (0 < memsz ≤ ULONG_MAX) as Hmr by lia.
  assert (fits lay segs memsz (sane_align align) lo hi b) as Hfit'
    by (by rewrite <- (fits_perm _ _ _ _ _ _ _ _ Hp)).
  destruct (add_segment_cases lay sorted buf bufsz b memsz Hwf Hbr Hmr Hbal)
    as [[-> Hnew] | [-> Hbad]]; simpl.
  - split; [done | ]. split.
    { intros b' Hb'. apply Hbest. by rewrite (fits_perm _ _ _ _ _ _ _ _ Hp). }
    split; [etrans; [symmetry; apply Permutation_cons_append | by apply Permutation_skip] | ].
    apply wf_segments_snoc; [done | done | ].
    eapply fits_disjoint; [exact Hfit | done | apply Hw].
  - right. split; [done | ]. exists b. split; [split; [done | ] | done].
    intros b' Hb'. apply Hbest. by rewrite (fits_perm _ _ _ _ _ _ _ _ Hp).
Qed.

(** C1: on a table of ranges that is not all RAM, and segments that are
    page-aligned, in RAM and disjoint, [add_buffer] places the new segment at
    the lowest (for a positive [hole_end], else the highest) aligned base that
    fits, keeps every segment page-aligned, in RAM and disjoint, and dies only
    when nothing fits or when the segment rounded up to pages leaves the RAM;
    the write to the array of free ranges never leaves it. *)
Theorem add_buffer_correct lay segs buf bufsz memsz align lo hi hole_end :
  search_ok lay memsz align lo → wf_segments lay segs → hole_end ≠ 0 →
  let fit := fits lay segs memsz (sane_align align) lo hi in
  match add_buffer lay segs buf bufsz memsz align lo hi hole_end with
  | Ret (b, segs') =>
      fit b ∧ (∀ b', fit b' → if 0 <? hole_end then b ≤ b' else b' ≤ b) ∧
      segs' ≡ₚ new_segment buf bufsz b memsz :: segs ∧ wf_segments lay segs'
  | Die w =>
      w = "locate_hole failed"%string ∧ (∀ b, ¬ fit b) ∨
      w = "Invalid memory segment %p - %p"%string ∧
        ∃ b, fit b ∧ ¬ wf_segment lay (new_segment buf bufsz b memsz)
  | UB _ | Spin => False
  end.
Proof.
  intros Hso Hsegs He fit. pose proof (add_buffer_spec lay segs buf bufsz memsz align lo hi hole_end Hso Hsegs He) as Ha.
  cbv zeta in Ha. destruct (add_buffer _ _ _ _ _ _ _ _ _) as [[b segs'] | w | w | ]; [done | | done | done].
  destruct Ha as [Ha | (Hw & b & [Hb _] & Hbad)]; [by left | right; eauto].
Qed.

(** [sort_segments] sorts the segments by address, keeps each of them, and
    returns 0 exactly when no two of them overlap. *)
Theorem sort_segments_correct l :
  Forall (λ s, 0 ≤ seg_mem s ∧ 0 < seg_memsz s ∧ seg_end s ≤ ULONG_MAX) l →
  (sort_segments l).2 ≡ₚ l ∧ StronglySorted mem_le (sort_segments l).2 ∧
  ((sort_segments l).1 = 0 ↔ StronglySorted disjoint_seg l).
Proof.
  intros Hl. destruct (sort_segments_spec l Hl) as (r & l' & -> & Hp & Hs & Hr). simpl.
  split; [done | ]. split; [done | ]. destruct Hr as [(-> & ? & _) | [-> ?]]; [done | ].
  split; [lia | done].
Qed.

(** [add_segment] appends a page-aligned segment whose size is rounded up
    to pages exactly when that segment lies in RAM and between [mem_min] and
    [mem_max]; otherwise it dies, also where the last address wraps around. *)
Theorem add_segment_correct lay segs buf bufsz base memsz :
  wf_layout lay → 0 ≤ base ≤ ULONG_MAX → 0 ≤ memsz ≤ ULONG_MAX →
  let s := new_segment buf bufsz base memsz in
  if decide (memsz = 0) then add_segment lay segs buf bufsz base memsz = Ret segs
  else (wf_segment lay s ∧ add_segment lay segs buf bufsz base memsz = Ret (segs ++ [s])) ∨
       (¬ wf_segment lay s ∧ ∃ why, add_segment lay segs buf bufsz base memsz = Die why).
Proof.
  intros Hwf Hb Hm s. case_decide as H0.
  { unfold add_segment. by rewrite H0. }
  pose proof (add_segment_Ret lay segs buf bufsz base memsz (segs ++ [s]) Hwf Hb ltac:(lia)) as HR.
  destruct (add_segment_outcome lay segs buf bufsz base memsz) as [[l E] | [why E]]; rewrite E in *.
  - left. apply add_segment_Ret in E as [-> ?]; [done | done | done | lia].
  - right. split; [ | by exists why]. intros Hs. destruct HR as [_ HR]. by discriminate HR.
Qed.
End operations.

(** ** What the loaders use: the segments stay, and the new one is among them *)

Section adding.
Context `{Arch}.

(** A segment with the buffer [buf] that will be at [base]. *)
Definition loaded_at (segs : list kexec_segment) (buf : ptr) (bufsz base : Z) : Prop :=
  ∃ s, s ∈ segs ∧ seg_buf s = buf ∧ seg_bufsz s = bufsz ∧ seg_mem s = base.

Lemma loaded_at_mono segs segs' buf n base :
  segs ⊆ segs' → loaded_at segs buf n base → loaded_at segs' buf n base.
Proof. intros Hs (s & ? & ?). exists s. auto. Qed.

Lemma add_segment_in lay segs buf base size segs' :
  add_segment lay segs buf size base size = Ret segs' →
  segs ⊆ segs' ∧ (size ≠ 0 → loaded_at segs' buf size base).
Proof.
  unfold add_segment. rewrite Z.ltb_irrefl. case_if; zbool.
  { intros [= <-]. split; [done | by intros ?]. }
  case_if; [done | ]. case_if; [done | ]. intros [= <-].
  split; [by intros x Hx; apply elem_of_app; left | ]. intros _. eexists.
  split; [apply elem_of_app; right; by apply list_elem_of_singleton | done].
Qed.

Lemma add_buffer_in lay segs buf size align lo hi e b segs' :
  add_buffer lay segs buf size size align lo hi e = Ret (b, segs') →
  segs ⊆ segs' ∧ (size ≠ 0 → loaded_at segs' buf size b).
Proof.
  unfold add_buffer, sort_segments. destruct (sort_loop segs) as [Hp _].
  set (l := foldl sort_step segs _) in *. destruct (no_overlap 0 l); [ | done]. cbn -[locate_hole add_segment].
  intros (base & _ & Hr)%bind_Ret. case_if_in Hr; [done | ].
  apply bind_Ret in Hr as (l' & Hl & Hr). apply Ret_inj in Hr. simplify_eq.
  apply add_segment_in in Hl as [Hsub ?]. split; [ | done].
  intros x Hx. apply Hsub. by rewrite Hp.
Qed.

Lemma add_buffer_sub lay segs buf bufsz memsz align lo hi e b segs' :
  add_buffer lay segs buf bufsz memsz align lo hi e = Ret (b, segs') → segs ⊆ segs'.
Proof.
  unfold add_buffer, sort_segments. destruct (sort_loop segs) as [Hp _].
  set (l := foldl sort_step segs _) in *. destruct (no_overlap 0 l); [ | done]. cbn -[locate_hole add_segment].
  intros (base & _ & Hr)%bind_Ret. case_if_in Hr; [done | ].
  apply bind_Ret in Hr as (l' & Hl & Hr). apply Ret_inj in Hr. simplify_eq.
  assert (l ⊆ segs') as Hsub.
  { unfold add_segment in Hl. cbv zeta in Hl. repeat case_if_in Hl; try done; apply Ret_inj in Hl; subst;
      first [done | intros x Hx; apply elem_of_app; by left]. }
  intros x Hx. apply Hsub. by rewrite Hp.
Qed.
End adding.

(** where every range of the table is RAM, the array that [locate_hole]
    allocates has one entry too few: one segment inside one RAM range leaves two
    free ranges and the second is written past the end. *)
Theorem locate_hole_overflow `{Arch} lay r s size align lo hi hole_end :
  memory_ranges lay = [r] → mr_type r = RANGE_RAM →
  0 ≤ mr_start r < seg_mem s → seg_mem s < seg_end s ≤ mr_end r → mr_end r < ULONG_MAX →
  hole_end ≠ 0 →
  ∃ w, locate_hole lay [s] size align lo hi hole_end = UB w.
Proof.
  intros Hr Ht Hs He Hmax Hh. unfold locate_hole. unfold seg_end in *.
  destruct (hole_end =? 0) eqn:E; zbool; [done | ]. rewrite Hr. simpl. rewrite Ht. simpl.
  rewrite !(ul_id (mr_start r)), !(ul_id (mr_end r)) by lia.
  rewrite (ul_id (seg_mem s + seg_memsz s - 1)) by lia.
  rewrite (ul_id (seg_mem s + seg_memsz s - 1 + 1)) by lia.
  destruct (seg_mem s <=? mr_end r) eqn:E1; zbool; [ | lia]. cbv beta iota zeta.
  destruct (mr_start r <? seg_mem s) eqn:E2; zbool; [ | lia].
  destruct (seg_mem s + seg_memsz s - 1 + 1 <=? mr_end r) eqn:E3; zbool; [ | lia].
  simpl. by eexists.
Qed.

(** ** Witnesses *)

Module Witness.
#[local] Existing Instance i386.

(** The memory map of a small PC. *)
Definition pc : layout := {|
  memory_ranges := [
    {| mr_start := 0; mr_end := 0x9ffff; mr_type := RANGE_RAM |};
    {| mr_start := 0xa0000; mr_end := 0xfffff; mr_type := RANGE_RESERVED |};
    {| mr_start := 0x100000; mr_end := 0x7ffffff; mr_type := RANGE_RAM |}];
  mem_min := 0;
  mem_max := ULONG_MAX |}.

Definition null : ptr := {| p_blk := 1; p_off := 0 |}.

Definition kernel : kexec_segment :=
  {| seg_buf := null; seg_bufsz := 5000; seg_mem := 0x100000; seg_memsz := 0x2000 |}.

Definition setup : kexec_segment :=
  {| seg_buf := null; seg_bufsz := 512; seg_mem := 0x90000; seg_memsz := 0x1000 |}.

Lemma wf_pc : wf_layout pc.
Proof.
  assert (ULONG_MAX = 0xffffffff) as HU by reflexivity.
  assert (ram (memory_ranges pc) = [
    {| mr_start := 0; mr_end := 0x9ffff; mr_type := RANGE_RAM |};
    {| mr_start := 0x100000; mr_end := 0x7ffffff; mr_type := RANGE_RAM |}]) as Hram by reflexivity.
  split; rewrite ?Hram; simpl; rewrite ?HU;
    repeat first [apply Forall_cons_2 | apply Forall_nil_2 | apply SSorted_cons | apply SSorted_nil];
    simpl; lia.
Defined.

Lemma pc_search_ok : search_ok pc 10000 0 0x10000.
Proof.
  split; [apply wf_pc | apply Nat.ltb_lt; reflexivity | ].
  split; [by exists 12 | lia | by vm_compute | by vm_compute | ].
  repeat (apply Forall_cons_2 || apply Forall_nil_2); by vm_compute.
Defined.

Lemma wf_kernel : wf_segments pc [kernel; setup].
Proof.
  split; [ | ].
  - apply Forall_cons_2; [ | apply Forall_cons_2; [ | apply Forall_nil_2]];
      (split; [apply Z.mod_divide; done | apply Z.mod_divide; done | done | done | | done | done]).
    + right. left. done.
    + left. done.
  - apply SSorted_cons; [by repeat constructor | ]. apply Forall_cons_2; [by right | constructor].
Defined.

Lemma add_buffer_correct_witness :
  search_ok pc 10000 0 0x10000 ∧ wf_segments pc [kernel; setup] ∧
  ∃ segs', add_buffer pc [kernel; setup] null 9000 10000 0 0x10000 0xffffff (-1)
             = Ret (0xffd000, segs') ∧ wf_segments pc segs'.
Proof.
  split; [apply pc_search_ok | ]. split; [apply wf_kernel | ].
  pose proof (add_buffer_correct pc [kernel; setup] null 9000 10000 0 0x10000 0xffffff (-1)
    pc_search_ok wf_kernel ltac:(lia)) as Hc.
  destruct (add_buffer _ _ _ _ _ _ _ _ _) as [[b segs'] | w | w | ] eqn:E.
  - exists segs'. assert (b = 0xffd000) as -> by (vm_compute in E; congruence).
    split; [done | apply Hc].
  - vm_compute in E. discriminate E.
  - vm_compute in E. discriminate E.
  - vm_compute in E. discriminate E.
Defined.

Lemma sort_segments_correct_witness :
  (sort_segments [kernel; setup]).1 = 0 ∧ (sort_segments [kernel; setup]).2 ≡ₚ [kernel; setup].
Proof.
  split; [done | ]. refine (proj1 (sort_segments_correct [kernel; setup] _)).
  repeat (apply Forall_cons_2 || apply Forall_nil_2); by vm_compute.
Defined.

Lemma add_segment_correct_witness :
  wf_segment pc (new_segment null 10 0x200000 20) ∧
  add_segment pc [kernel] null 10 0x200000 20
    = Ret [kernel; new_segment null 10 0x200000 20].
Proof.
  destruct (add_segment_correct pc [kernel] null 10 0x200000 20 wf_pc) as [? | [_ [w Hw]]];
    [done | done | done | ].
  vm_compute in Hw. discriminate Hw.
Defined.

Lemma locate_hole_overflow_witness :
  ∃ w, locate_hole
    {| memory_ranges := [{| mr_start := 0; mr_end := 0x7ffffff; mr_type := RANGE_RAM |}];
       mem_min := 0; mem_max := ULONG_MAX |} [kernel] 10 0 0 0xffffff 1 = UB w.
Proof.
  eapply (locate_hole_overflow _ _ kernel); [reflexivity | | | | | ]; done.
Defined.
End Witness.
