(* ===== verification/Sha256.v ===== *)
(** SHA-256 as kexec-tools/util_lib/sha256.c computes it: the context with its
    byte counters and its partial block, [sha256_starts], [sha256_process] with
    the macros it is written in, [sha256_update] and [sha256_finish]. *)

From Stdlib Require Import ZArith Lia String.
From stdpp Require Import base tactics list numbers.
From coqutil Require Import Byte.
From S2P Require Import Prelude Words CMem.

#[local] Open Scope Z_scope.

(** ** Data (sha256.h) *)

(** [total] is an array of two [size_t], [state] one of eight [uint32_t] and
    [buffer] one of 64 bytes. *)
Record sha256_context := {
  total0 : Z;
  total1 : Z;
  state : list Z;
  buffer : list byte
}.

(** ** Macros *)

Definition GET_UINT32 (b : list byte) (i : nat) : Z :=
  let at_ k := byte.unsigned (nth (i + k) b Byte.x00) in
  Z.lor (Z.lor (Z.lor (Z.shiftl (at_ 0%nat) 24) (Z.shiftl (at_ 1%nat) 16))
               (Z.shiftl (at_ 2%nat) 8)) (at_ 3%nat).

(** The four bytes that [PUT_UINT32] stores. *)
Definition PUT_UINT32 (n : Z) : list byte :=
  [byte.of_Z (Z.shiftr n 24); byte.of_Z (Z.shiftr n 16); byte.of_Z (Z.shiftr n 8); byte.of_Z n].

Definition SHR (x n : Z) : Z := Z.shiftr (Z.land x 0xFFFFFFFF) n.
Definition ROTR (x n : Z) : Z := Z.lor (SHR x n) (u32 (Z.shiftl x (32 - n))).

Definition S0 (x : Z) : Z := Z.lxor (Z.lxor (ROTR x 7) (ROTR x 18)) (SHR x 3).
Definition S1 (x : Z) : Z := Z.lxor (Z.lxor (ROTR x 17) (ROTR x 19)) (SHR x 10).
Definition S2 (x : Z) : Z := Z.lxor (Z.lxor (ROTR x 2) (ROTR x 13)) (ROTR x 22).
Definition S3 (x : Z) : Z := Z.lxor (Z.lxor (ROTR x 6) (ROTR x 11)) (ROTR x 25).

Definition F0 (x y z : Z) : Z := Z.lor (Z.land x y) (Z.land z (Z.lor x y)).
Definition F1 (x y z : Z) : Z := Z.lxor z (Z.land x (Z.lxor y z)).

(** [R(t)]: the value it computes and stores in [W[t]]. *)
Definition R (W : list Z) (t : nat) : Z :=
  u32 (S1 (W !!! (t - 2)%nat) + W !!! (t - 7)%nat + S0 (W !!! (t - 15)%nat) + W !!! (t - 16)%nat).

(** [P(a,b,c,d,e,f,g,h,x,K)] on the registers with these indices. *)
Definition P (regs : list Z) (a b c d e f g h : nat) (x K : Z) : list Z :=
  let temp1 := u32 (regs !!! h + S3 (regs !!! e) + F1 (regs !!! e) (regs !!! f) (regs !!! g) + K + x) in
  let temp2 := u32 (S2 (regs !!! a) + F0 (regs !!! a) (regs !!! b) (regs !!! c)) in
  <[h := u32 (temp1 + temp2)]> (<[d := u32 (regs !!! d + temp1)]> regs).

(** The constants of the 64 rounds, in their order. *)
Definition round_constants : list Z := [
  0x428A2F98; 0x71374491; 0xB5C0FBCF; 0xE9B5DBA5; 0x3956C25B; 0x59F111F1; 0x923F82A4; 0xAB1C5ED5;
  0xD807AA98; 0x12835B01; 0x243185BE; 0x550C7DC3; 0x72BE5D74; 0x80DEB1FE; 0x9BDC06A7; 0xC19BF174;
  0xE49B69C1; 0xEFBE4786; 0x0FC19DC6; 0x240CA1CC; 0x2DE92C6F; 0x4A7484AA; 0x5CB0A9DC; 0x76F988DA;
  0x983E5152; 0xA831C66D; 0xB00327C8; 0xBF597FC7; 0xC6E00BF3; 0xD5A79147; 0x06CA6351; 0x14292967;
  0x27B70A85; 0x2E1B2138; 0x4D2C6DFC; 0x53380D13; 0x650A7354; 0x766A0ABB; 0x81C2C92E; 0x92722C85;
  0xA2BFE8A1; 0xA81A664B; 0xC24B8B70; 0xC76C51A3; 0xD192E819; 0xD6990624; 0xF40E3585; 0x106AA070;
  0x19A4C116; 0x1E376C08; 0x2748774C; 0x34B0BCB5; 0x391C0CB3; 0x4ED8AA4A; 0x5B9CCA4F; 0x682E6FF3;
  0x748F82EE; 0x78A5636F; 0x84C87814; 0x8CC70208; 0x90BEFFFA; 0xA4506CEB; 0xBEF9A3F7; 0xC67178F2].

(** The register that has the letter of index [i] in the call of round [t]:
    [A, B, ..., H] in the first one, [H, A, ..., G] in the second one, ... *)
Definition letter (t i : nat) : nat := (i + 8 - t `mod` 8) `mod` 8.

(** One of the 64 calls of [P]: the registers and the schedule so far. *)
Definition round (st : list Z * list Z) (t : nat) : list Z * list Z :=
  let '(regs, W) := st in
  let W := if (t <? 16)%nat then W else W ++ [R W t] in
  (P regs (letter t 0) (letter t 1) (letter t 2) (letter t 3)
          (letter t 4) (letter t 5) (letter t 6) (letter t 7)
          (W !!! t) (round_constants !!! t), W).

(** ** Operations *)

Definition sha256_starts (ctx : sha256_context) : sha256_context :=
  {| total0 := 0; total1 := 0;
     state := [0x6A09E667; 0xBB67AE85; 0x3C6EF372; 0xA54FF53A;
               0x510E527F; 0x9B05688C; 0x1F83D9AB; 0x5BE0CD19];
     buffer := buffer ctx |}.

(** The new [ctx->state]; [data] is a pointer to at least 64 bytes. *)
Definition sha256_process (st : list Z) (data : list byte) : list Z :=
  let W := map (λ i, GET_UINT32 data (4 * i)) (seq 0 16) in
  let '(regs, _) := foldl round (st, W) (seq 0 64) in
  zip_with (λ s r, u32 (s + r)) st regs.

(** The loop [while (length >= 64)]: the state and what is left of the input. *)
Fixpoint sha256_blocks (fuel : nat) (st : list Z) (input : list byte) : list Z * list byte :=
  match fuel with
  | O => (st, input)
  | S fuel =>
      if (64 <=? length input)%nat
      then sha256_blocks fuel (sha256_process st input) (drop 64 input)
      else (st, input)
  end.

Definition sha256_padding : list byte := Byte.x80 :: replicate 63 Byte.x00.

Section sha256.
Context `{Arch}.

(** [input] is the [length] bytes that the argument points to. *)
Definition sha256_update (ctx : sha256_context) (input : list byte) : outcome sha256_context :=
  let len := Z.of_nat (length input) in
  if len =? 0 then Ret ctx
  else
    let left := Z.to_nat (Z.land (total0 ctx) 0x3F) in
    let fill := (64 - left)%nat in
    let t0 := Z.land (ul (total0 ctx + len)) 0xFFFFFFFF in
    let t1 := if t0 <? len then ul (total1 ctx + 1) else total1 ctx in
    '(buf, st, input, left) ←
      (if negb (left =? 0)%nat && (fill <=? length input)%nat then
         buf ← write_at (buffer ctx) (Z.of_nat left) (take fill input);
         mret (buf, sha256_process (state ctx) buf, drop fill input, 0%nat)
       else mret (buffer ctx, state ctx, input, left));
    let '(st, input) := sha256_blocks (length input) st input in
    buf ← (if (length input =? 0)%nat then mret buf
           else write_at buf (Z.of_nat left) input);
    mret {| total0 := t0; total1 := t1; state := st; buffer := buf |}.

(** The digest and the context that [sha256_finish] leaves. *)
Definition sha256_finish (ctx : sha256_context) : outcome (list byte * sha256_context) :=
  let high := u32 (Z.lor (Z.shiftr (total0 ctx) 29) (ul (Z.shiftl (total1 ctx) 3))) in
  let low := u32 (ul (Z.shiftl (total0 ctx) 3)) in
  let msglen := PUT_UINT32 high ++ PUT_UINT32 low in
  let last := Z.to_nat (Z.land (total0 ctx) 0x3F) in
  let padn := if (last <? 56)%nat then (56 - last)%nat else (120 - last)%nat in
  ctx ← sha256_update ctx (take padn sha256_padding);
  ctx ← sha256_update ctx msglen;
  mret (concat (map PUT_UINT32 (state ctx)), ctx).
End sha256.

Example sha256_abc :
  (ctx ← sha256_update (H := i386) (sha256_starts {| total0 := 0; total1 := 0; state := [];
             buffer := replicate 64 Byte.x00 |}) (bs "abc");
   r ← sha256_finish (H := i386) ctx; Ret (map byte.unsigned r.1))
  = Ret [0xba; 0x78; 0x16; 0xbf; 0x8f; 0x01; 0xcf; 0xea; 0x41; 0x41; 0x40; 0xde; 0x5d; 0xae; 0x22; 0x23;
         0xb0; 0x03; 0x61; 0xa3; 0x96; 0x17; 0x7a; 0x9c; 0xb4; 0x10; 0xff; 0x61; 0xf2; 0x00; 0x15; 0xad].
Proof. vm_compute. reflexivity. Qed.
