(* ===== verification/Sha256Spec.v ===== *)
(** FIPS 180-2: the hash as the standard defines it, and the proof that the
    streaming code of sha256.c computes it for every way to cut a message in
    pieces.  The constants are the standard's definitions, the fractional parts
    of square and cube roots of primes, not the code's numbers. *)

From Stdlib Require Import ZArith Lia String.
From stdpp Require Import base tactics list numbers.
From coqutil Require Import Byte Word.LittleEndianList.
From S2P Require Import Prelude Words CMem Sha256.

#[local] Open Scope Z_scope.

(** ** The standard *)

Module Fips.
Definition rotr (n x : Z) : Z := x / 2 ^ n + (x `mod` 2 ^ n) * 2 ^ (32 - n).
Definition shr (n x : Z) : Z := x / 2 ^ n.

Definition Ch (x y z : Z) : Z := Z.lxor (Z.land x y) (Z.land (notw 32 x) z).
Definition Maj (x y z : Z) : Z := Z.lxor (Z.lxor (Z.land x y) (Z.land x z)) (Z.land y z).

Definition Sigma0 (x : Z) : Z := Z.lxor (Z.lxor (rotr 2 x) (rotr 13 x)) (rotr 22 x).
Definition Sigma1 (x : Z) : Z := Z.lxor (Z.lxor (rotr 6 x) (rotr 11 x)) (rotr 25 x).
Definition sigma0 (x : Z) : Z := Z.lxor (Z.lxor (rotr 7 x) (rotr 18 x)) (shr 3 x).
Definition sigma1 (x : Z) : Z := Z.lxor (Z.lxor (rotr 17 x) (rotr 19 x)) (shr 10 x).

Definition is_prime (n : Z) : bool :=
  forallb (λ d, negb (n `mod` Z.of_nat d =? 0)) (seq 2 (Z.to_nat n - 2)).

Definition primes (n : nat) : list Z :=
  take n (List.filter is_prime (map Z.of_nat (seq 2 400))).

(** The greatest [r] below [2 ^ bits] with [r ^ 3 <= n]. *)
Fixpoint cbrt (bits : nat) (r n : Z) : Z :=
  match bits with
  | O => r
  | S bits =>
      let r' := r + 2 ^ Z.of_nat bits in
      cbrt bits (if r' * r' * r' <=? n then r' else r) n
  end.

(** The first 32 bits of the fractional parts of the cube roots of the first 64
    primes, and of the square roots of the first 8 primes. *)
Definition K : list Z := map (λ p, cbrt 40 0 (p * 2 ^ 96) `mod` 2 ^ 32) (primes 64).
Definition H0 : list Z := map (λ p, Z.sqrt (p * 2 ^ 64) `mod` 2 ^ 32) (primes 8).

(** One more word of the message schedule. *)
Definition extend (W : list Z) : list Z :=
  let t := length W in
  W ++ [u32 (sigma1 (W !!! (t - 2)%nat) + W !!! (t - 7)%nat
             + sigma0 (W !!! (t - 15)%nat) + W !!! (t - 16)%nat)].

(** The 16 words of a block, and the 64 words of its schedule. *)
Definition words (block : list byte) : list Z :=
  map (λ i, be_combine (take 4 (drop (4 * i) block))) (seq 0 16).
Definition schedule (block : list byte) : list Z := Nat.iter 48 extend (words block).

Definition round (W : list Z) (v : list Z) (t : nat) : list Z :=
  match v with
  | [a; b; c; d; e; f; g; h] =>
      let T1 := h + Sigma1 e + Ch e f g + K !!! t + W !!! t in
      let T2 := Sigma0 a + Maj a b c in
      [u32 (T1 + T2); a; b; c; u32 (d + T1); e; f; g]
  | _ => v
  end.

Definition compress (H : list Z) (block : list byte) : list Z :=
  zip_with (λ x y, u32 (x + y)) H (foldl (round (schedule block)) H (seq 0 64)).

(** The hash of the first [n] blocks of a message, and of all full ones. *)
Fixpoint hash_n (n : nat) (H : list Z) (m : list byte) : list Z :=
  match n with
  | O => H
  | S n => hash_n n (compress H (take 64 m)) (drop 64 m)
  end.
Definition hash_blocks (H : list Z) (m : list byte) : list Z := hash_n (length m / 64) H m.

(** A 1 bit, the least number of 0 bits and the length in bits. *)
Definition pad (m : list byte) : list byte :=
  m ++ [Byte.x80] ++ replicate (Z.to_nat ((55 - Z.of_nat (length m)) `mod` 64)) Byte.x00
    ++ be_split 8 (8 * Z.of_nat (length m)).

Definition sha256 (m : list byte) : list byte :=
  concat (map (be_split 4) (hash_blocks H0 (pad m))).
End Fips.

Definition word (x : Z) : Prop := 0 ≤ x < 2 ^ 32.

(** ** The functions on words *)

Lemma land_ones32 x : Z.land x 0xFFFFFFFF = u32 x.
Proof. change 0xFFFFFFFF with (Z.ones 32). by rewrite Z.land_ones by lia. Qed.

Lemma SHR_spec x n : word x → 0 ≤ n → SHR x n = Fips.shr n x.
Proof.
  intros Hx Hn. unfold SHR, Fips.shr. rewrite land_ones32, u32_small by done.
  by apply Z.shiftr_div_pow2.
Qed.

Lemma ROTR_spec x n : word x → 0 ≤ n ≤ 32 → ROTR x n = Fips.rotr n x.
Proof.
  intros Hx Hn. unfold ROTR. rewrite SHR_spec by (done || lia). unfold Fips.rotr, Fips.shr.
  rewrite Z.shiftl_mul_pow2 by lia. unfold u32.
  replace (2 ^ 32) with (2 ^ n * 2 ^ (32 - n)) by (rewrite <- Z.pow_add_r by lia; f_equal; lia).
  rewrite Zmult_mod_distr_r. apply lor_disjoint; [lia | ].
  unfold word in Hx. split; [apply Z.div_pos; lia | ].
  apply Z.div_lt_upper_bound; [lia | ].
  rewrite <- Z.pow_add_r by lia. replace (n + (32 - n)) with 32 by lia. lia.
Qed.

Lemma F0_spec x y z : F0 x y z = Fips.Maj x y z.
Proof.
  unfold F0, Fips.Maj. apply Z.bits_inj'. intros n Hn.
  rewrite !Z.lxor_spec, !Z.lor_spec, !Z.land_spec, !Z.lor_spec.
  by destruct (Z.testbit x n), (Z.testbit y n), (Z.testbit z n).
Qed.

Lemma F1_spec x y z : word y → word z → F1 x y z = Fips.Ch x y z.
Proof.
  intros Hy Hz. unfold F1, Fips.Ch, notw. apply Z.bits_inj'. intros n Hn.
  rewrite !Z.lxor_spec, !Z.land_spec, !Z.lxor_spec, Z.lnot_spec by done.
  destruct (decide (n < 32)).
  - rewrite Z.ones_spec_low by lia.
    by destruct (Z.testbit x n), (Z.testbit y n), (Z.testbit z n).
  - unfold word in *. rewrite <- (Z.mod_small y (2 ^ 32)), <- (Z.mod_small z (2 ^ 32)) by lia.
    rewrite !Z.mod_pow2_bits_high by lia. by destruct (Z.testbit x n), (Z.testbit _ n).
Qed.

Lemma S_specs x :
  word x →
  S0 x = Fips.sigma0 x ∧ S1 x = Fips.sigma1 x ∧ S2 x = Fips.Sigma0 x ∧ S3 x = Fips.Sigma1 x.
Proof.
  intros Hx. unfold S0, S1, S2, S3.
  rewrite !ROTR_spec, !SHR_spec by (done || lia). done.
Qed.

Lemma word_u32 x : word (u32 x).
Proof. apply u32_range. Qed.

Lemma constants_spec : round_constants = Fips.K.
Proof. vm_compute. reflexivity. Qed.

Lemma starts_spec ctx : state (sha256_starts ctx) = Fips.H0.
Proof. vm_compute. reflexivity. Qed.

(** ** Words and bytes *)

Lemma be_combine_4 a b c d :
  be_combine [a; b; c; d] =
  Z.lor (Z.lor (Z.lor (Z.shiftl (byte.unsigned a) 24) (Z.shiftl (byte.unsigned b) 16))
               (Z.shiftl (byte.unsigned c) 8)) (byte.unsigned d).
Proof.
  unfold be_combine. cbn [rev app]. unfold le_combine. rewrite !Z.shiftl_lor, !Z.shiftl_shiftl by lia.
  rewrite Z.shiftl_0_l, Z.lor_0_r.
  rewrite !(Z.lor_comm _ (byte.unsigned d)). f_equal.
  rewrite (Z.lor_comm _ (Z.shiftl (byte.unsigned c) 8)). f_equal. apply Z.lor_comm.
Qed.

Lemma GET_UINT32_spec data i :
  (i + 4 ≤ length data)%nat → GET_UINT32 data i = be_combine (take 4 (drop i data)).
Proof.
  intros Hi. unfold GET_UINT32.
  assert (∀ k, (k < 4)%nat → nth (i + k) data Byte.x00 = nth k (drop i data) Byte.x00) as Hnth.
  { intros k Hk. rewrite !nth_lookup, lookup_drop. done. }
  rewrite !Hnth by lia.
  assert (4 ≤ length (drop i data))%nat as Hlen by (rewrite length_drop; lia).
  destruct (drop i data) as [|a [|b [|c [|d l]]]]; simpl in Hlen; try lia.
  simpl. symmetry. apply be_combine_4.
Qed.

Lemma PUT_UINT32_spec n : PUT_UINT32 n = be_split 4 n.
Proof. unfold PUT_UINT32, be_split. simpl. rewrite !Z.shiftr_shiftr by lia. done. Qed.

Lemma words_spec data :
  (64 ≤ length data)%nat →
  map (λ i, GET_UINT32 data (4 * i)) (seq 0 16) = Fips.words (take 64 data).
Proof.
  intros Hl. apply map_ext_in. intros i Hi%in_seq. rewrite GET_UINT32_spec by lia.
  rewrite skipn_firstn_comm, take_take. do 2 f_equal. lia.
Qed.

Lemma words_word data : Forall word (Fips.words data).
Proof.
  apply Forall_map, Forall_forall. intros i _. unfold word.
  pose proof (combine_range true (take 4 (drop (4 * i) data))) as Hr. unfold combine in Hr.
  assert (2 ^ (8 * Z.of_nat (length (take 4 (drop (4 * i) data)))) ≤ 2 ^ 32).
  { apply Z.pow_le_mono_r; [lia | ]. rewrite length_take. lia. }
  lia.
Qed.

(** ** The message schedule *)

Lemma length_extend k W : length (Nat.iter k Fips.extend W) = (length W + k)%nat.
Proof.
  induction k as [|k IH]; simpl; [lia | ]. unfold Fips.extend at 1. rewrite length_app, IH. simpl. lia.
Qed.

Lemma extend_word k W : Forall word W → Forall word (Nat.iter k Fips.extend W).
Proof.
  intros HW. induction k as [|k IH]; simpl; [done | ].
  apply Forall_app. split; [done | ]. constructor; [apply word_u32 | constructor].
Qed.

(** Later words do not change earlier ones. *)
Lemma extend_lookup k n W t :
  (t < length W + k)%nat → Nat.iter (k + n) Fips.extend W !!! t = Nat.iter k Fips.extend W !!! t.
Proof.
  intros Ht. induction n as [|n IH]; [by rewrite Nat.add_0_r | ].
  rewrite Nat.add_succ_r. simpl. unfold Fips.extend at 1.
  rewrite lookup_total_app_l; [done | ]. rewrite length_extend. lia.
Qed.

Lemma Forall_lookup_total_word W t : Forall word W → word (W !!! t).
Proof.
  intros HW. rewrite list_lookup_total_alt. destruct (W !! t) eqn:E; simpl.
  - by eapply Forall_lookup_1.
  - by vm_compute.
Qed.

Lemma R_spec W : Forall word W → W ++ [R W (length W)] = Fips.extend W.
Proof.
  intros HW. unfold R, Fips.extend.
  destruct (S_specs (W !!! (length W - 2)%nat)) as (_ & -> & _); [by apply Forall_lookup_total_word | ].
  destruct (S_specs (W !!! (length W - 15)%nat)) as (-> & _); [by apply Forall_lookup_total_word | ].
  done.
Qed.

(** ** The rounds *)

(** The registers in the order of the letters of round [t]. *)
Definition lettered (t : nat) (regs : list Z) : list Z :=
  map (λ i, regs !!! letter t i) (seq 0 8).

Lemma letter_mod t i : letter t i = letter (t `mod` 8) i.
Proof. unfold letter. by rewrite Nat.Div0.mod_mod. Qed.

Lemma lettered_mod t regs : lettered t regs = lettered (t `mod` 8) regs.
Proof. apply map_ext. intros i. by rewrite letter_mod. Qed.

Lemma length_8 {A} (l : list A) :
  length l = 8%nat → ∃ a b c d e f g h, l = [a; b; c; d; e; f; g; h].
Proof.
  intros Hl. do 8 (destruct l as [|? l]; [discriminate Hl | simpl in Hl]).
  destruct l; [ | discriminate Hl]. by repeat eexists.
Qed.

Lemma Forall_lettered t regs :
  length regs = 8%nat → Forall word regs → Forall word (lettered t regs).
Proof.
  intros _ Hw. apply Forall_map, Forall_forall. intros i _. by apply Forall_lookup_total_word.
Qed.

(** The new values of the registers [d] and [h]. *)
Lemma P_eq regs a b c d e f g h x K :
  Forall word regs →
  let T1 := regs !!! h + Fips.Sigma1 (regs !!! e) + Fips.Ch (regs !!! e) (regs !!! f) (regs !!! g) + K + x in
  let T2 := Fips.Sigma0 (regs !!! a) + Fips.Maj (regs !!! a) (regs !!! b) (regs !!! c) in
  P regs a b c d e f g h x K = <[h := u32 (T1 + T2)]> (<[d := u32 (regs !!! d + T1)]> regs).
Proof.
  intros Hw T1 T2. pose proof (fun i => Forall_lookup_total_word regs i Hw) as Hl. unfold P.
  destruct (S_specs (regs !!! e) (Hl e)) as (_ & _ & _ & ->).
  destruct (S_specs (regs !!! a) (Hl a)) as (_ & _ & -> & _).
  rewrite F0_spec, F1_spec by apply Hl. by rewrite u32_add_l, !u32_add_r.
Qed.

Lemma P_word regs a b c d e f g h x K :
  Forall word regs → Forall word (P regs a b c d e f g h x K).
Proof.
  intros Hw. unfold P. do 2 (apply Forall_insert; [ | apply word_u32]). done.
Qed.

Lemma length_P regs a b c d e f g h x K : length (P regs a b c d e f g h x K) = length regs.
Proof. unfold P. by rewrite !length_insert. Qed.

Lemma P_round W regs t :
  length regs = 8%nat → Forall word regs →
  lettered (S t) (P regs (letter t 0) (letter t 1) (letter t 2) (letter t 3)
                    (letter t 4) (letter t 5) (letter t 6) (letter t 7)
                    (W !!! t) (round_constants !!! t)) =
  Fips.round W (lettered t regs) t.
Proof.
  intros Hl Hw. rewrite P_eq by done. rewrite constants_spec. unfold Fips.round.
  generalize (W !!! t) as x, (Fips.K !!! t) as k. intros x k.
  assert (S t `mod` 8 = S (t `mod` 8) `mod` 8)%nat as HS.
  { rewrite <- (Nat.add_1_r (t `mod` 8)), Nat.Div0.add_mod_idemp_l. by rewrite Nat.add_1_r. }
  rewrite (lettered_mod (S t)), HS, (lettered_mod t), !(letter_mod t).
  pose proof (Nat.mod_upper_bound t 8 ltac:(lia)) as Hr.
  destruct (length_8 regs Hl) as (r0 & r1 & r2 & r3 & r4 & r5 & r6 & r7 & ->).
  generalize (t `mod` 8)%nat, Hr. intros r Hr8.
  do 8 (destruct r as [|r]; [cbn; do 2 (f_equal; try lia) | ]); lia.
Qed.

(** The registers, the schedule so far and the standard's variables after the
    same number of rounds. *)
Record in_step (W16 : list Z) (t : nat) (st : list Z * list Z) (v : list Z) : Prop := {
  is_regs : length st.1 = 8%nat;
  is_word : Forall word st.1;
  is_sched : st.2 = Nat.iter (t - 16) Fips.extend W16;
  is_vars : v = lettered t st.1
}.

Lemma round_in_step W16 t st v :
  length W16 = 16%nat → Forall word W16 → (t < 64)%nat →
  in_step W16 t st v →
  in_step W16 (S t) (round st t) (Fips.round (Nat.iter 48 Fips.extend W16) v t).
Proof.
  intros HW HWw Ht [Hl Hw Hs ->]. destruct st as [regs W]. cbn [fst snd] in *. unfold round.
  set (W' := if (t <? 16)%nat then W else W ++ [R W t]).
  assert (W' = Nat.iter (S t - 16) Fips.extend W16) as HW'.
  { subst W' W. destruct (Nat.ltb_spec t 16).
    - by replace (S t - 16)%nat with (t - 16)%nat by lia.
    - replace (S t - 16)%nat with (S (t - 16)) by lia. simpl.
      rewrite <- R_spec by (by apply extend_word). rewrite length_extend. do 3 f_equal. lia. }
  assert (W' !!! t = Nat.iter 48 Fips.extend W16 !!! t) as Hlook.
  { rewrite HW'. destruct (decide (t < 16)%nat).
    - replace (S t - 16)%nat with 0%nat by lia. symmetry.
      apply (extend_lookup 0 48). lia.
    - replace 48%nat with (S t - 16 + (48 - (S t - 16)))%nat by lia.
      symmetry. apply extend_lookup. lia. }
  split; cbn [fst snd].
  - by rewrite length_P.
  - by apply P_word.
  - done.
  - rewrite Hlook. symmetry. by apply P_round.
Qed.

Lemma lettered_8 t regs : (t `mod` 8 = 0)%nat → length regs = 8%nat → lettered t regs = regs.
Proof.
  intros Ht Hl. rewrite lettered_mod, Ht.
  by destruct (length_8 regs Hl) as (? & ? & ? & ? & ? & ? & ? & ? & ->).
Qed.

Lemma sha256_process_spec st data :
  length st = 8%nat → Forall word st → (64 ≤ length data)%nat →
  sha256_process st data = Fips.compress st (take 64 data).
Proof.
  intros Hl Hw Hd. unfold sha256_process, Fips.compress, Fips.schedule.
  rewrite words_spec by done. set (W16 := Fips.words (take 64 data)).
  pose proof (foldl_seq_rel (in_step W16) round (Fips.round (Nat.iter 48 Fips.extend W16)) 0 64
    (st, W16) st) as Hrel.
  destruct Hrel as [Hl' _ _ Hv].
  - split; cbn [fst snd]; [done | done | done | ]. symmetry. by apply lettered_8.
  - intros k a b Hk. apply round_in_step; [done | apply words_word | lia].
  - destruct (foldl round _ _) as [regs W]. cbn [fst snd] in Hl', Hv. rewrite Hv.
    by rewrite lettered_8.
Qed.

Lemma compress_word st block :
  length st = 8%nat → Forall word st →
  length (Fips.compress st block) = 8%nat ∧ Forall word (Fips.compress st block).
Proof.
  intros Hl Hw. unfold Fips.compress.
  assert (length (foldl (Fips.round (Fips.schedule block)) st (seq 0 64)) = 8%nat) as Hr.
  { generalize (seq 0 64). intros l. revert st Hl Hw.
    induction l as [|t l IH]; intros st Hl Hw; simpl; [done | ].
    destruct (length_8 st Hl) as (a & b & c & d & e & f & g & h & ->). apply IH; [done | ].
    inversion Hw; subst. simpl. decompose_Forall_hyps. repeat (constructor; [done || apply word_u32 | ]).
    constructor. }
  split; [rewrite length_zip_with; lia | ].
  apply Forall_lookup. intros i x Hx. apply lookup_zip_with_Some in Hx as (? & ? & -> & _).
  apply word_u32.
Qed.

(** ** Blocks *)

Definition wf_state (st : list Z) : Prop := length st = 8%nat ∧ Forall word st.

Lemma hash_n_wf n st m : wf_state st → wf_state (Fips.hash_n n st m).
Proof.
  revert st m. induction n as [|n IH]; intros st m Hst; simpl; [done | ].
  apply IH. by apply compress_word; apply Hst.
Qed.

Lemma hash_n_add n k st m :
  Fips.hash_n (n + k) st m = Fips.hash_n k (Fips.hash_n n st m) (drop (64 * n) m).
Proof.
  revert st m. induction n as [|n IH]; intros st m; [done | ].
  cbn [Nat.add Fips.hash_n]. rewrite IH, drop_drop. do 2 f_equal. lia.
Qed.

Lemma hash_n_app_l n st a b :
  (64 * n ≤ length a)%nat → Fips.hash_n n st (a ++ b) = Fips.hash_n n st a.
Proof.
  revert st a. induction n as [|n IH]; intros st a Hn; [done | ]. cbn [Fips.hash_n].
  rewrite take_app_le, drop_app_le by lia. apply IH. rewrite length_drop. lia.
Qed.

Lemma hash_blocks_app k st a b :
  length a = (64 * k)%nat →
  Fips.hash_blocks st (a ++ b) = Fips.hash_blocks (Fips.hash_blocks st a) b.
Proof.
  intros Ha. unfold Fips.hash_blocks. rewrite length_app, Ha.
  rewrite (Nat.mul_comm 64 k), Nat.div_add_l, Nat.div_mul by lia.
  rewrite hash_n_add, hash_n_app_l by lia. by rewrite drop_app_length' by lia.
Qed.

Lemma hash_blocks_one st a : length a = 64%nat → Fips.hash_blocks st a = Fips.compress st a.
Proof.
  intros Ha. unfold Fips.hash_blocks. rewrite Ha. cbn [Nat.div Nat.divmod fst Fips.hash_n].
  by rewrite take_ge by lia.
Qed.

Lemma hash_blocks_small st a : (length a < 64)%nat → Fips.hash_blocks st a = st.
Proof. intros Ha. unfold Fips.hash_blocks. by rewrite Nat.div_small. Qed.

(** The full blocks of an input and what is left of it. *)
Lemma sha256_blocks_spec fuel : ∀ st input,
  wf_state st → (length input ≤ fuel)%nat →
  ∃ k full rest, sha256_blocks fuel st input = (Fips.hash_blocks st full, rest) ∧
    input = full ++ rest ∧ length full = (64 * k)%nat ∧ (length rest < 64)%nat.
Proof.
  induction fuel as [|fuel IH]; intros st input Hst Hf; cbn [sha256_blocks].
  { exists 0%nat, [], input. destruct input; [split_and!; simpl; done || lia | simpl in Hf; lia]. }
  destruct (Nat.leb_spec 64 (length input)).
  - rewrite sha256_process_spec by (apply Hst || done).
    destruct (IH (Fips.compress st (take 64 input)) (drop 64 input))
      as (k & full & rest & -> & Hin & Hfull & Hrest).
    { by apply compress_word; apply Hst. }
    { rewrite length_drop. lia. }
    assert (length (take 64 input) = 64%nat) as H64 by (rewrite length_take; lia).
    exists (S k), (take 64 input ++ full), rest.
    rewrite (hash_blocks_app 1), (hash_blocks_one st) by lia.
    rewrite length_app. split; [done | ]. rewrite <- app_assoc, <- Hin, take_drop. split; [done | lia].
  - exists 0%nat, [], input. split_and!; simpl; done || lia.
Qed.

Lemma sha256_blocks_small fuel st input :
  (length input < 64)%nat → sha256_blocks fuel st input = (st, input).
Proof. intros Hl. destruct fuel; cbn [sha256_blocks]; [done | ]. by destruct (Nat.leb_spec 64 (length input)); [lia | ]. Qed.

(** ** Streaming *)

(** The blocks and the buffer of a context that has seen the message [m]. *)
Definition chunked (m : list byte) (st : list Z) (buf : list byte) : Prop :=
  ∃ k full tl, m = full ++ tl ∧ length full = (64 * k)%nat ∧ (length tl < 64)%nat ∧
    st = Fips.hash_blocks Fips.H0 full ∧ length buf = 64%nat ∧ take (length tl) buf = tl.

Record absorbed (m : list byte) (ctx : sha256_context) : Prop := {
  ab_chunked : chunked m (state ctx) (buffer ctx);
  ab_low : total0 ctx = Z.of_nat (length m) `mod` 2 ^ 32;
  ab_high : total1 ctx = Z.of_nat (length m) / 2 ^ 32
}.

Lemma wf_H0 : wf_state Fips.H0.
Proof.
  split; [by vm_compute | ].
  rewrite <- (starts_spec {| total0 := 0; total1 := 0; state := []; buffer := [] |}).
  repeat (apply Forall_cons_2 || apply Forall_nil_2); by vm_compute.
Qed.

Lemma wf_hash_blocks m : wf_state (Fips.hash_blocks Fips.H0 m).
Proof. apply hash_n_wf, wf_H0. Qed.

Lemma absorbed_starts ctx : length (buffer ctx) = 64%nat → absorbed [] (sha256_starts ctx).
Proof.
  intros Hb. split; [ | done | done]. exists 0%nat, [], [].
  rewrite starts_spec. split_and!; [done | done | cbn [length]; lia | | done | done].
  by rewrite hash_blocks_small by (cbn [length]; lia).
Qed.

(** The number of bytes in the buffer. *)
Lemma land_63 x : Z.land x 0x3F = x `mod` 64.
Proof. change 0x3F with (Z.ones 6). by rewrite Z.land_ones by lia. Qed.

Lemma chunked_left m st buf t0 :
  chunked m st buf → t0 = Z.of_nat (length m) `mod` 2 ^ 32 →
  ∃ k full tl, m = full ++ tl ∧ length full = (64 * k)%nat ∧ (length tl < 64)%nat ∧
    st = Fips.hash_blocks Fips.H0 full ∧ length buf = 64%nat ∧ take (length tl) buf = tl ∧
    Z.to_nat (Z.land t0 0x3F) = length tl.
Proof.
  intros (k & full & tl & -> & Hk & Htl & -> & Hb & Ht) ->. exists k, full, tl.
  split_and!; try done. rewrite land_63.
  rewrite Z.mod_mod_divide by (exists (2 ^ 26); lia). rewrite length_app, Nat2Z.inj_add, Hk.
  replace (Z.of_nat (64 * k)) with (Z.of_nat k * 64) by lia.
  rewrite Z.add_comm, Z.mod_add, Z.mod_small by lia. lia.
Qed.

(** From a full buffer's boundary on: the full blocks of the input, and the
    copy of the rest into the buffer. *)
Lemma chunked_blocks k full input buf :
  length full = (64 * k)%nat → length buf = 64%nat →
  ∃ st rest buf',
    sha256_blocks (length input) (Fips.hash_blocks Fips.H0 full) input = (st, rest) ∧
    (if (length rest =? 0)%nat then mret buf else write_at buf 0 rest) = Ret buf' ∧
    chunked (full ++ input) st buf'.
Proof.
  intros Hk Hb.
  destruct (sha256_blocks_spec (length input) (Fips.hash_blocks Fips.H0 full) input)
    as (j & more & rest & -> & -> & Hj & Hrest); [apply wf_hash_blocks | lia | ].
  rewrite <- (hash_blocks_app k) by done.
  destruct (Nat.eqb_spec (length rest) 0) as [H0 | H0]; eexists _, rest, _; (split; [done | ]).
  - rewrite H0. split; [done | ]. exists (k + j)%nat, (full ++ more), rest.
    apply nil_length_inv in H0 as ->. rewrite length_app, app_assoc.
    split_and!; try done; cbn [length]; lia.
  - destruct (Nat.eqb_spec (length rest) 0); [done | ].
    split; [apply write_at_Ret; split; [done | ]; split; [lia | reflexivity] | ].
    exists (k + j)%nat, (full ++ more), rest. rewrite length_app, app_assoc, length_overwrite by lia.
    split_and!; try done; try lia. apply (take_overwrite buf 0 rest). lia.
Qed.

(** Filling the buffer up: it holds the next block. *)
Lemma fill_buffer k full tl st buf c :
  length full = (64 * k)%nat → (length tl < 64)%nat → st = Fips.hash_blocks Fips.H0 full →
  length buf = 64%nat → take (length tl) buf = tl → (64 - length tl ≤ length c)%nat →
  let b1 := tl ++ take (64 - length tl) c in
  write_at buf (Z.of_nat (length tl)) (take (64 - length tl) c) = Ret b1 ∧
  sha256_process st b1 = Fips.hash_blocks Fips.H0 (full ++ b1).
Proof.
  intros Hk Htl -> Hb Ht Hc b1.
  assert (length (take (64 - length tl) c) = 64 - length tl)%nat as Hl by (rewrite length_take; lia).
  assert (length b1 = 64%nat) as Hb1 by (subst b1; rewrite length_app; lia).
  split.
  - apply write_at_Ret. split; [lia | ]. split; [lia | ]. unfold overwrite.
    rewrite Nat2Z.id, Ht, Hl, drop_ge, app_nil_r by lia. done.
  - rewrite sha256_process_spec by (apply wf_hash_blocks || lia).
    by rewrite (hash_blocks_app k), (hash_blocks_one _ b1), take_ge by lia.
Qed.

#[local] Opaque Fips.H0 Fips.compress.

Section streaming.
Context `{Arch}.

Lemma u32_ul z : u32 (ul z) = u32 z.
Proof.
  unfold u32, ul. apply Z.mod_mod_divide. pose proof ulong_bits_pos.
  exists (2 ^ (ulong_bits - 32)). rewrite <- Z.pow_add_r by lia. f_equal. lia.
Qed.

(** The two words of the byte counter are one 64-bit counter. *)
Lemma counter_step L n :
  0 ≤ L → 0 ≤ n < 2 ^ 32 → L + n < 2 ^ 64 →
  let t0 := Z.land (ul (L `mod` 2 ^ 32 + n)) 0xFFFFFFFF in
  t0 = (L + n) `mod` 2 ^ 32 ∧
  (if t0 <? n then ul (L / 2 ^ 32 + 1) else L / 2 ^ 32) = (L + n) / 2 ^ 32.
Proof.
  intros HL Hn Hsum. cbv zeta. rewrite land_ones32, u32_ul. unfold u32.
  rewrite Z.add_mod_idemp_l by lia. split; [done | ].
  pose proof (Z.div_mod L (2 ^ 32) ltac:(lia)) as HL'.
  pose proof (Z.mod_pos_bound L (2 ^ 32) ltac:(lia)).
  set (q := L / 2 ^ 32) in *. set (r := L `mod` 2 ^ 32) in *.
  assert (0 ≤ q < 2 ^ 32 - 1 ∨ r + n < 2 ^ 32 ∧ 0 ≤ q) as Hq by lia.
  destruct (decide (r + n < 2 ^ 32)).
  - replace ((L + n) `mod` 2 ^ 32) with (r + n) by (apply (Z.mod_unique _ _ q); lia).
    destruct (Z.ltb_spec (r + n) n); [lia | ]. apply (Z.div_unique _ _ _ (r + n)); lia.
  - replace ((L + n) `mod` 2 ^ 32) with (r + n - 2 ^ 32) by (apply (Z.mod_unique _ _ (q + 1)); lia).
    destruct (Z.ltb_spec (r + n - 2 ^ 32) n); [ | lia].
    pose proof ulong_mod_ge. rewrite ul_small by lia.
    apply (Z.div_unique _ _ _ (r + n - 2 ^ 32)); lia.
Qed.

Lemma sha256_update_spec m ctx c :
  absorbed m ctx → Z.of_nat (length c) < 2 ^ 32 →
  Z.of_nat (length m) + Z.of_nat (length c) < 2 ^ 64 →
  ∃ ctx', sha256_update ctx c = Ret ctx' ∧ absorbed (m ++ c) ctx'.
Proof.
  intros [Hch Hlow Hhigh] Hc Hsum. unfold sha256_update.
  destruct (Z.eqb_spec (Z.of_nat (length c)) 0) as [H0 | H0].
  { exists ctx. split; [done | ]. destruct c; [by rewrite app_nil_r | simpl in H0; lia]. }
  destruct (counter_step (Z.of_nat (length m)) (Z.of_nat (length c))) as [Ht0 Ht1]; [lia | lia | lia | ].
  rewrite <- Nat2Z.inj_add, <- length_app in Ht0, Ht1. rewrite <- Hlow in Ht0, Ht1. rewrite <- Hhigh in Ht1.
  destruct (chunked_left _ _ _ _ Hch Hlow) as (k & full & tl & -> & Hk & Htl & Hst & Hb & Ht & Hleft).
  rewrite Hleft. set (t0 := Z.land _ 0xFFFFFFFF) in *. set (t1 := if _ <? _ then _ else _) in *.
  destruct (Nat.eqb_spec (length tl) 0) as [Hz | Hz]; cbn [negb andb].
  - apply nil_length_inv in Hz as ->. rewrite app_nil_r in *. cbn [length]. rewrite Hst.
    destruct (chunked_blocks k full c (buffer ctx) Hk Hb) as (st & rest & buf' & Hbl & Hw & Hch').
    rewrite bind_mret, Hbl. change (Z.of_nat 0) with 0. rewrite Hw. eexists. split; [reflexivity | ].
    split; done.
  - destruct (Nat.leb_spec (64 - length tl) (length c)) as [Hfit | Hfit].
    + destruct (fill_buffer k full tl (state ctx) (buffer ctx) c Hk Htl Hst Hb Ht Hfit) as [Hw1 Hp1].
      rewrite Hw1, !bind_Ret_l, Hp1.
      set (b1 := tl ++ take _ c) in *.
      assert (length b1 = 64%nat) as Hb1 by (subst b1; rewrite length_app, length_take; lia).
      destruct (chunked_blocks (S k) (full ++ b1) (drop (64 - length tl) c) b1)
        as (st & rest & buf' & Hbl & Hw & Hch'); [rewrite length_app; lia | done | ].
      rewrite Hbl. change (Z.of_nat 0) with 0. rewrite Hw.
      eexists. split; [reflexivity | ]. split; [ | done | done]. cbn.
      subst b1. rewrite <- app_assoc, <- app_assoc, take_drop in Hch'. by rewrite <- app_assoc.
    + rewrite bind_mret, sha256_blocks_small by lia. destruct (Nat.eqb_spec (length c) 0); [lia | ].
      assert (write_at (buffer ctx) (Z.of_nat (length tl)) c =
              Ret (overwrite (buffer ctx) (length tl) c)) as ->.
      { apply write_at_Ret. rewrite Nat2Z.id. split; [lia | ]. split; [lia | done]. }
      eexists. split; [reflexivity | ]. split; [ | done | done]. cbn.
      exists k, full, (tl ++ c). rewrite length_app, length_overwrite by lia.
      split_and!; try done; [by rewrite <- app_assoc | lia | ].
      by rewrite take_overwrite, Ht by lia.
Qed.
(** ** Finishing *)

Lemma be_split_8 x : be_split 8 x = be_split 4 (x / 2 ^ 32) ++ be_split 4 (x `mod` 2 ^ 32).
Proof.
  unfold be_split. change (2 ^ 32) with (2 ^ (Z.of_nat 4 * 8)) at 2. rewrite <- le_split_mod.
  rewrite <- rev_app_distr. f_equal. rewrite <- Z.shiftr_div_pow2 by lia.
  rewrite <- (take_drop 4 (le_split 8 x)) at 1. rewrite skipn_le_split by lia. done.
Qed.

(** The counter shifted left by three bits is the message's length in bits. *)
Lemma msglen_spec t0 t1 L :
  0 ≤ L < 2 ^ 61 → t0 = L `mod` 2 ^ 32 → t1 = L / 2 ^ 32 →
  PUT_UINT32 (u32 (Z.lor (Z.shiftr t0 29) (ul (Z.shiftl t1 3)))) ++
  PUT_UINT32 (u32 (ul (Z.shiftl t0 3))) = be_split 8 (8 * L).
Proof.
  intros HL H0 H1. rewrite !PUT_UINT32_spec, be_split_8, u32_ul. do 2 f_equal.
  - pose proof (Z.div_mod L (2 ^ 32) ltac:(lia)) as HL'. rewrite <- H0, <- H1 in HL'.
    assert (0 ≤ t0 < 2 ^ 32) by (subst t0; apply Z.mod_pos_bound; lia).
    assert (0 ≤ t1 < 2 ^ 29) by (subst t1; split; [apply Z.div_pos; lia | apply Z.div_lt_upper_bound; lia]).
    pose proof ulong_mod_ge. rewrite Z.shiftl_mul_pow2, ul_small by lia.
    rewrite Z.shiftr_div_pow2 by lia. rewrite lor_disjoint; [ | lia | ].
    + rewrite u32_small.
      * apply (Z.div_unique _ _ _ (8 * (t0 `mod` 2 ^ 29))).
        -- pose proof (Z.mod_pos_bound t0 (2 ^ 29) ltac:(lia)). lia.
        -- pose proof (Z.div_mod t0 (2 ^ 29) ltac:(lia)). lia.
      * pose proof (Z.div_lt_upper_bound t0 (2 ^ 29) 8 ltac:(lia) ltac:(lia)).
        pose proof (Z.div_pos t0 (2 ^ 29) ltac:(lia) ltac:(lia)). lia.
    + split; [apply Z.div_pos; lia | apply Z.div_lt_upper_bound; lia].
  - rewrite Z.shiftl_mul_pow2 by lia. unfold u32. subst t0.
    rewrite Z.mul_mod_idemp_l by lia. f_equal. lia.
Qed.

(** What the code appends is the standard's padding. *)
Lemma padding_spec (m : list byte) last :
  last = Z.to_nat (Z.of_nat (length m) `mod` 64) →
  take (if (last <? 56)%nat then 56 - last else 120 - last) sha256_padding =
  Byte.x80 :: replicate (Z.to_nat ((55 - Z.of_nat (length m)) `mod` 64)) Byte.x00.
Proof.
  intros Hlast. pose proof (Z.mod_pos_bound (Z.of_nat (length m)) 64 ltac:(lia)) as Hr.
  assert ((55 - Z.of_nat (length m)) `mod` 64 =
          Z.of_nat ((if (last <? 56)%nat then 56 - last else 120 - last) - 1)) as ->.
  { rewrite <- Zminus_mod_idemp_r.
    destruct (Nat.ltb_spec last 56).
    - rewrite Z.mod_small by lia. lia.
    - symmetry. apply (Z.mod_unique _ _ (-1)); lia. }
  rewrite Nat2Z.id. set (n := if (last <? 56)%nat then (56 - last)%nat else (120 - last)%nat).
  assert (1 ≤ n ≤ 64)%nat as Hn by (subst n; destruct (Nat.ltb_spec last 56); lia).
  clearbody n. destruct n as [|n]; [lia | ]. unfold sha256_padding. cbn [take].
  f_equal. rewrite take_replicate. f_equal. lia.
Qed.

Lemma length_pad m : ∃ n, length (Fips.pad m) = (64 * n)%nat.
Proof.
  unfold Fips.pad. rewrite !length_app. cbn [length].
  rewrite length_replicate. unfold be_split. rewrite length_rev, length_le_split.
  pose proof (Z.mod_pos_bound (55 - Z.of_nat (length m)) 64 ltac:(lia)).
  pose proof (Z.div_mod (55 - Z.of_nat (length m)) 64 ltac:(lia)) as Hd.
  exists (Z.to_nat (1 - (55 - Z.of_nat (length m)) / 64)). lia.
Qed.

Lemma chunked_full n m st buf :
  chunked m st buf → length m = (64 * n)%nat → st = Fips.hash_blocks Fips.H0 m.
Proof.
  intros (k & full & tl & -> & Hk & Htl & -> & _) Hn. rewrite length_app in Hn.
  assert (length tl = 0)%nat as ->%nil_length_inv by lia. by rewrite app_nil_r.
Qed.

Lemma sha256_finish_spec m ctx :
  absorbed m ctx → Z.of_nat (length m) < 2 ^ 61 →
  ∃ ctx', sha256_finish ctx = Ret (Fips.sha256 m, ctx').
Proof.
  intros Hab Hm. pose proof (ab_low _ _ Hab) as Hlow. unfold sha256_finish.
  rewrite (msglen_spec _ _ (Z.of_nat (length m))) by (apply Hab || lia).
  rewrite (padding_spec m).
  2:{ rewrite land_63, Hlow, Z.mod_mod_divide by (exists (2 ^ 26); lia). done. }
  set (pad1 := Byte.x80 :: _). set (pad2 := be_split 8 _).
  pose proof (Z.mod_pos_bound (55 - Z.of_nat (length m)) 64 ltac:(lia)).
  assert (Z.of_nat (length pad1) ≤ 64) as Hl1.
  { subst pad1. cbn [length]. rewrite length_replicate. lia. }
  assert (length pad2 = 8%nat) as Hl2.
  { subst pad2. unfold be_split. by rewrite length_rev, length_le_split. }
  destruct (sha256_update_spec m ctx pad1 Hab) as (ctx1 & -> & Hab1); [lia | lia | ].
  rewrite bind_Ret_l.
  destruct (sha256_update_spec _ ctx1 pad2 Hab1) as (ctx2 & -> & Hab2);
    [lia | rewrite length_app; lia | ].
  rewrite bind_Ret_l. exists ctx2. unfold Fips.sha256.
  assert ((m ++ pad1) ++ pad2 = Fips.pad m) as Hpad.
  { unfold Fips.pad. subst pad1 pad2. by rewrite <- app_assoc. }
  rewrite Hpad in Hab2. destruct (length_pad m) as [n Hn].
  rewrite <- (chunked_full n _ _ _ (ab_chunked _ _ Hab2) Hn).
  rewrite (map_ext PUT_UINT32 (be_split 4) PUT_UINT32_spec). done.
Qed.

(** The updates of a message that comes in pieces. *)
Fixpoint sha256_updates (ctx : sha256_context) (chunks : list (list byte))
    : outcome sha256_context :=
  match chunks with
  | [] => Ret ctx
  | c :: chunks => ctx ← sha256_update ctx c; sha256_updates ctx chunks
  end.

Lemma sha256_updates_spec chunks : ∀ m ctx,
  absorbed m ctx → Forall (λ c, Z.of_nat (length c) < 2 ^ 32) chunks →
  Z.of_nat (length (m ++ concat chunks)) < 2 ^ 64 →
  ∃ ctx', sha256_updates ctx chunks = Ret ctx' ∧ absorbed (m ++ concat chunks) ctx'.
Proof.
  induction chunks as [|c chunks IH]; intros m ctx Hab Hall Hlen; cbn [concat sha256_updates] in *.
  { exists ctx. by rewrite app_nil_r. }
  apply Forall_cons_1 in Hall as [Hc Hall]. rewrite !length_app in Hlen.
  destruct (sha256_update_spec m ctx c Hab Hc) as (ctx1 & -> & Hab1); [lia | ].
  rewrite bind_Ret_l, app_assoc. apply IH; [done | done | ]. rewrite !length_app. lia.
Qed.

(** The digest of a message hashed in one run. *)
Definition sha256_chunks (ctx : sha256_context) (chunks : list (list byte)) : outcome (list byte) :=
  ctx ← sha256_updates (sha256_starts ctx) chunks;
  '(digest, _) ← sha256_finish ctx;
  mret digest.

Lemma sha256_chunks_spec ctx chunks :
  length (buffer ctx) = 64%nat → Forall (λ c, Z.of_nat (length c) < 2 ^ 32) chunks →
  Z.of_nat (length (concat chunks)) < 2 ^ 61 →
  sha256_chunks ctx chunks = Ret (Fips.sha256 (concat chunks)).
Proof.
  intros Hb Hc Hlen. unfold sha256_chunks.
  destruct (sha256_updates_spec chunks [] (sha256_starts ctx)) as (ctx1 & -> & Hab);
    [by apply absorbed_starts | done | cbn [app]; lia | ].
  rewrite bind_Ret_l. cbn [app] in Hab.
  by destruct (sha256_finish_spec _ ctx1 Hab Hlen) as (ctx2 & ->).
Qed.
End streaming.

(** C2: however a message is cut in pieces of less than 4 GiB, starting a
    context, updating it with the pieces in order and finishing it returns,
    without a write outside the 64-byte buffer, the digest that FIPS 180-2
    defines for the whole message. *)
Theorem sha256_correct `{Arch} ctx chunks :
  length (buffer ctx) = 64%nat → Forall (λ c, Z.of_nat (length c) < 2 ^ 32) chunks →
  Z.of_nat (length (concat chunks)) < 2 ^ 61 →
  (ctx ← sha256_updates (sha256_starts ctx) chunks; '(digest, _) ← sha256_finish ctx; mret digest)
  = Ret (Fips.sha256 (concat chunks)).
Proof. apply sha256_chunks_spec. Qed.

Module Witness.
Definition ctx0 : sha256_context :=
  {| total0 := 7; total1 := 7; state := []; buffer := replicate 64 Byte.xff |}.

Definition abc : list byte := [Byte.x61; Byte.x62; Byte.x63].

Lemma sha256_correct_witness :
  map byte.unsigned (Fips.sha256 abc) =
    [0xba; 0x78; 0x16; 0xbf; 0x8f; 0x01; 0xcf; 0xea; 0x41; 0x41; 0x40; 0xde; 0x5d; 0xae; 0x22; 0x23;
     0xb0; 0x03; 0x61; 0xa3; 0x96; 0x17; 0x7a; 0x9c; 0xb4; 0x10; 0xff; 0x61; 0xf2; 0x00; 0x15; 0xad] ∧
  sha256_chunks (H := x86_64) ctx0 [take 1 abc; []; drop 1 abc] = Ret (Fips.sha256 abc).
Proof.
  split; [vm_compute; reflexivity | ].
  apply (sha256_correct (H := x86_64) ctx0 [take 1 abc; []; drop 1 abc]).
  - reflexivity.
  - repeat (apply Forall_cons_2 || apply Forall_nil_2); by vm_compute.
  - by vm_compute.
Defined.
End Witness.
