(* ===== verification/Purgatory.v ===== *)
(** The integrity check around the jump into the new kernel: the digest that
    [update_purgatory] of kexec-tools/kexec/kexec.c computes over the segments,
    and its verification by purgatory/purgatory.c with the string functions of
    purgatory/string.c. *)

From Stdlib Require Import ZArith Lia String.
From stdpp Require Import base tactics list numbers gmap.
From coqutil Require Import Byte.
From S2P Require Import Prelude Words CMem Segments Sha256.

#[local] Open Scope Z_scope.

(** ** purgatory/string.c *)

(** [s] is what the pointer points to; reading past it is undefined, hence the
    [None]. *)
Fixpoint strnlen (s : list byte) (max : nat) : option nat :=
  match max with
  | O => Some O
  | S max => match s with
             | [] => None
             | c :: s => if byte.unsigned c =? 0 then Some O else S <$> strnlen s max
             end
  end.

(** [memset] and [memcpy] on the object that the destination points into:
    byte by byte, in increasing order. *)
Fixpoint memset (obj : list byte) (i : nat) (c : byte) (n : nat) : list byte :=
  match n with
  | O => obj
  | S n => memset (<[i := c]> obj) (S i) c n
  end.

Fixpoint memcpy (obj : list byte) (i : nat) (src : list byte) : list byte :=
  match src with
  | [] => obj
  | c :: src => memcpy (<[i := c]> obj) (S i) src
  end.

(** The loop never moves [s1] and [s2]: [n] comparisons of the same bytes. *)
Fixpoint memcmp_loop (s1 s2 : byte) (n : nat) : Z :=
  match n with
  | O => 0
  | S n => if negb (byte.unsigned s1 =? byte.unsigned s2)
           then byte.unsigned s2 - byte.unsigned s1
           else memcmp_loop s1 s2 n
  end.

Definition memcmp (src1 src2 : list byte) (len : nat) : outcome Z :=
  match len, src1, src2 with
  | O, _, _ => Ret 0
  | _, s1 :: _, s2 :: _ => Ret (memcmp_loop s1 s2 len)
  | _, _, _ => UB "memcmp reads outside an object"
  end.

(** ** Data (kexec-sha256.h) *)

Record sha256_region := { start : Z; len : Z }.

Definition SHA256_REGIONS : nat := 8.

Section purgatory.
Context `{Arch}.

(** ** update_purgatory: the hash of the loaded kernel *)

(** The loop [while (nullsz)], with its 256 bytes of zeros. *)
Fixpoint hash_nulls (fuel : nat) (ctx : sha256_context) (nullsz : Z) : outcome sha256_context :=
  match fuel with
  | O => Ret ctx
  | S fuel =>
      if nullsz =? 0 then Ret ctx
      else
        let bytes := if 256 <? nullsz then 256 else nullsz in
        ctx ← sha256_update ctx (replicate (Z.to_nat bytes) Byte.x00);
        hash_nulls fuel ctx (nullsz - bytes)
  end.

(** The loop over the segments: the context, [region] and [j]. *)
Fixpoint hash_segments (m : gmap positive (list byte)) (rel_addr : Z) (segs : list kexec_segment)
    (ctx : sha256_context) (region : list sha256_region) (j : nat)
    : outcome (sha256_context * list sha256_region) :=
  match segs with
  | [] => Ret (ctx, region)
  | s :: segs =>
      if seg_mem s =? rel_addr then hash_segments m rel_addr segs ctx region j
      else
        data ← load m (seg_buf s) (seg_bufsz s);
        ctx ← sha256_update ctx data;
        let nullsz := ul (seg_memsz s - seg_bufsz s) in
        ctx ← hash_nulls (Z.to_nat nullsz) ctx nullsz;
        if (j <? SHA256_REGIONS)%nat
        then hash_segments m rel_addr segs ctx
               (<[j := {| start := seg_mem s; len := seg_memsz s |}]> region) (S j)
        else UB "update_purgatory writes past the end of region"
  end.

(** The regions and the digest that [update_purgatory] stores in purgatory's
    variables; [ctx] is the uninitialised context on its stack. *)
Definition purgatory_digest (m : gmap positive (list byte)) (rel_addr : Z)
    (segs : list kexec_segment) (ctx : sha256_context)
    : outcome (list sha256_region * list byte) :=
  let region := replicate SHA256_REGIONS {| start := 0; len := 0 |} in
  '(ctx, region) ← hash_segments m rel_addr segs (sha256_starts ctx) region 0;
  '(digest, _) ← sha256_finish ctx;
  mret (region, digest).

(** ** purgatory.c *)

(** The contents of [n] bytes of physical memory. *)
Definition bytes_at (phys : Z → byte) (a n : Z) : list byte :=
  map (λ i, phys (a + Z.of_nat i)) (seq 0 (Z.to_nat n)).

Fixpoint hash_regions (phys : Z → byte) (ctx : sha256_context) (regions : list sha256_region)
    : outcome sha256_context :=
  match regions with
  | [] => Ret ctx
  | r :: regions =>
      ctx ← sha256_update ctx (bytes_at phys (start r) (len r));
      hash_regions phys ctx regions
  end.

(** How [verify_sha256_digest] ends: it returns, or prints that the digests
    differ and loops forever. *)
Inductive verdict := Returned | Loops.

#[export] Instance verdict_eq_dec : EqDecision verdict.
Proof. solve_decision. Defined.

Definition verify_sha256_digest (phys : Z → byte) (sha256_regions : list sha256_region)
    (sha256_digest : list byte) (ctx : sha256_context) : outcome verdict :=
  ctx ← hash_regions phys (sha256_starts ctx) sha256_regions;
  '(digest, _) ← sha256_finish ctx;
  r ← memcmp digest sha256_digest 32;
  mret (if negb (r =? 0) then Loops else Returned).

(** [purgatory]: the console output apart, it sets the architecture up and
    verifies the digest. *)
Definition purgatory (setup_arch : (Z → byte) → Z → byte) (phys : Z → byte)
    (sha256_regions : list sha256_region) (sha256_digest : list byte) (ctx : sha256_context)
    : outcome verdict :=
  verify_sha256_digest (setup_arch phys) sha256_regions sha256_digest ctx.
End purgatory.
