(* ===== verification/PurgatorySpec.v ===== *)
(** What the integrity check promises and what it does not. *)

From Stdlib Require Import ZArith Lia String.
From stdpp Require Import base tactics list numbers gmap.
From coqutil Require Import Byte.
From S2P Require Import Prelude Words CMem Segments SegmentsSpec Sha256 Sha256Spec Purgatory.

#[local] Open Scope Z_scope.
#[local] Opaque Fips.H0 Fips.compress.

(** ** string.c *)

Lemma length_memset obj i c n : length (memset obj i c n) = length obj.
Proof. revert obj i. induction n as [|n IH]; intros; simpl; [done | ]. by rewrite IH, length_insert. Qed.

Lemma memset_lookup obj i c n j :
  (i + n ≤ length obj)%nat →
  memset obj i c n !! j = if decide (i ≤ j < i + n)%nat then Some c else obj !! j.
Proof.
  revert obj i. induction n as [|n IH]; intros obj i Hn; simpl.
  { case_decide; [lia | done]. }
  rewrite IH by (rewrite length_insert; lia). repeat case_decide; try lia; try done.
  - replace j with i by lia. rewrite list_lookup_insert_eq by lia. done.
  - by rewrite list_lookup_insert_ne by lia.
Qed.

(** [memcpy] into an object is the copy of all bytes at once. *)
Lemma memcpy_overwrite obj i src :
  (i + length src ≤ length obj)%nat → memcpy obj i src = overwrite obj i src.
Proof.
  revert obj i. induction src as [|c src IH]; intros obj i Hn; simpl in *.
  { unfold overwrite. simpl. by rewrite Nat.add_0_r, take_drop. }
  rewrite IH by (rewrite length_insert; lia). unfold overwrite. simpl.
  rewrite (take_S_r _ i c) by (apply list_lookup_insert_eq; lia).
  rewrite take_insert_ge, drop_insert_lt by lia.
  rewrite <- app_assoc. simpl. do 4 f_equal. lia.
Qed.

Lemma strnlen_spec s rest max :
  Byte.x00 ∉ s → (length s ≤ max)%nat →
  strnlen (s ++ Byte.x00 :: rest) max = Some (length s).
Proof.
  revert max. induction s as [|c s IH]; intros max Hs Hm; simpl in *.
  - by destruct max.
  - destruct max as [|max]; [lia | ]. simpl. apply not_elem_of_cons in Hs as [Hc Hs].
    destruct (Z.eqb_spec (byte.unsigned c) 0) as [E | E].
    + exfalso. apply Hc. rewrite <- (byte.of_Z_unsigned c), E. done.
    + rewrite IH; [done | done | lia].
Qed.

Lemma memcmp_loop_0 s1 s2 n : memcmp_loop s1 s2 (S n) = 0 ↔ s1 = s2.
Proof.
  assert (byte.unsigned s1 = byte.unsigned s2 ↔ s1 = s2) as Hu.
  { split; [ | by intros ->]. intros E. rewrite <- (byte.of_Z_unsigned s1), E. apply byte.of_Z_unsigned. }
  cbn [memcmp_loop]. destruct (Z.eqb_spec (byte.unsigned s1) (byte.unsigned s2)) as [E | E]; cbn [negb].
  - induction n as [|n IH]; cbn [memcmp_loop]; [tauto | ].
    destruct (Z.eqb_spec (byte.unsigned s1) (byte.unsigned s2)); [done | done].
  - split; [lia | ]. intros ->. lia.
Qed.

Section digest.
Context `{Arch}.

(** ** The hash of the segments *)

(** Zeros are absorbed like any other bytes, 256 at a time. *)
Lemma hash_nulls_spec fuel : ∀ msg ctx n,
  0 ≤ n → (Z.to_nat n ≤ fuel)%nat → absorbed msg ctx → Z.of_nat (length msg) + n < 2 ^ 64 →
  ∃ ctx', hash_nulls fuel ctx n = Ret ctx' ∧
    absorbed (msg ++ replicate (Z.to_nat n) Byte.x00) ctx'.
Proof.
  induction fuel as [|fuel IH]; intros msg ctx n Hn Hf Hab Hlen; cbn [hash_nulls].
  { exists ctx. replace (Z.to_nat n) with 0%nat by lia. by rewrite app_nil_r. }
  destruct (Z.eqb_spec n 0) as [-> | H0]; [exists ctx; by rewrite app_nil_r | ].
  set (b := if 256 <? n then 256 else n).
  assert (0 < b ≤ 256 ∧ b ≤ n) as Hb by (subst b; destruct (Z.ltb_spec 256 n); lia).
  clearbody b.
  destruct (sha256_update_spec msg ctx (replicate (Z.to_nat b) Byte.x00) Hab)
    as (ctx1 & -> & Hab1); [rewrite length_replicate; lia | rewrite length_replicate; lia | ].
  rewrite bind_Ret_l.
  destruct (IH (msg ++ replicate (Z.to_nat b) Byte.x00) ctx1 (n - b)) as (ctx2 & -> & Hab2);
    [lia | lia | exact Hab1 | rewrite length_app, length_replicate; lia | ].
  exists ctx2. split; [done | ]. rewrite <- app_assoc, <- replicate_add in Hab2.
  by replace (Z.to_nat b + Z.to_nat (n - b))%nat with (Z.to_nat n) in Hab2 by lia.
Qed.

(** What the kernel makes of a segment when it loads it: the buffer at the
    segment's address, then zeros. *)
Definition loaded (m : gmap positive (list byte)) (phys : Z → byte) (s : kexec_segment) : Prop :=
  ∃ data, load m (seg_buf s) (seg_bufsz s) = Ret data ∧
    bytes_at phys (seg_mem s) (seg_memsz s) =
      data ++ replicate (Z.to_nat (seg_memsz s - seg_bufsz s)) Byte.x00.

Definition good_size (s : kexec_segment) : Prop :=
  0 ≤ seg_bufsz s ≤ seg_memsz s ∧ seg_memsz s < 2 ^ 32.

(** The segments that the digest covers. *)
Definition covered (rel_addr : Z) (segs : list kexec_segment) : list kexec_segment :=
  filter (λ s, seg_mem s ≠ rel_addr) segs.

Definition region_of (s : kexec_segment) : sha256_region :=
  {| start := seg_mem s; len := seg_memsz s |}.

Definition image (phys : Z → byte) (segs : list kexec_segment) : list byte :=
  concat (map (λ s, bytes_at phys (seg_mem s) (seg_memsz s)) segs).

Lemma length_bytes_at phys a n : length (bytes_at phys a n) = Z.to_nat n.
Proof. unfold bytes_at. by rewrite length_map, length_seq. Qed.


(** Writing the next entry of the array of regions. *)
Lemma region_step (l : list sha256_region) j x k :
  (j + S (length k) ≤ length l)%nat →
  take (S j) (<[j := x]> l) ++ k ++ drop (S j + length k) (<[j := x]> l) =
  take j l ++ (x :: k) ++ drop (j + S (length k)) l.
Proof.
  intros Hj. rewrite (take_S_r _ j x) by (apply list_lookup_insert_eq; lia).
  rewrite take_insert_ge, drop_insert_lt by lia. rewrite <- app_assoc. simpl. do 4 f_equal. lia.
Qed.

Lemma hash_segments_spec m phys rel_addr segs : ∀ msg ctx region j,
  Forall (loaded m phys) (covered rel_addr segs) → Forall good_size (covered rel_addr segs) →
  length region = SHA256_REGIONS →
  (j + length (covered rel_addr segs) ≤ SHA256_REGIONS)%nat →
  absorbed msg ctx →
  Z.of_nat (length (msg ++ image phys (covered rel_addr segs))) < 2 ^ 64 →
  ∃ ctx',
    hash_segments m rel_addr segs ctx region j = Ret (ctx',
      take j region ++ map region_of (covered rel_addr segs)
        ++ drop (j + length (covered rel_addr segs)) region) ∧
    absorbed (msg ++ image phys (covered rel_addr segs)) ctx'.
Proof.
  induction segs as [|s segs IH]; intros msg ctx region j Hload Hsize Hr Hj Hab Hlen;
    cbn [hash_segments].
  { exists ctx. unfold image. cbn. by rewrite Nat.add_0_r, take_drop, app_nil_r. }
  destruct (Z.eqb_spec (seg_mem s) rel_addr) as [E | E].
  { unfold covered in *. rewrite filter_cons_False in * by tauto. by apply IH. }
  unfold covered in *. rewrite filter_cons_True in * by done.
  apply Forall_cons_1 in Hload as [(data & Hd & Hphys) Hload].
  apply Forall_cons_1 in Hsize as [[Hbs Hms] Hsize].
  unfold image in *. cbn [map concat length] in *.
  fold (image phys (filter (λ s, seg_mem s ≠ rel_addr) segs)) in *.
  pose proof (load_length _ _ _ _ Hd) as Hld. rewrite Hd, bind_Ret_l, ul_small.
  2:{ pose proof ulong_mod_ge. lia. }
  rewrite !length_app, length_bytes_at in Hlen.
  destruct (sha256_update_spec msg ctx data Hab) as (ctx1 & -> & Hab1); [lia | lia | ].
  rewrite bind_Ret_l.
  destruct (hash_nulls_spec (Z.to_nat (seg_memsz s - seg_bufsz s)) (msg ++ data) ctx1
    (seg_memsz s - seg_bufsz s)) as (ctx2 & -> & Hab2); [lia | lia | done | rewrite length_app; lia | ].
  rewrite bind_Ret_l. destruct (Nat.ltb_spec j SHA256_REGIONS); [ | lia].
  rewrite <- app_assoc, <- Hphys in Hab2.
  destruct (IH (msg ++ bytes_at phys (seg_mem s) (seg_memsz s)) ctx2 (<[j := region_of s]> region)
    (S j) Hload Hsize) as (ctx3 & Heq & Hab3);
    [by rewrite length_insert | lia | exact Hab2 | rewrite !length_app, length_bytes_at; lia | ].
  exists ctx3. rewrite <- app_assoc in Hab3. split; [ | done].
  unfold region_of in Heq at 1. rewrite Heq. do 2 f_equal.
  rewrite <- (length_map region_of). apply region_step. rewrite length_map. lia.
Qed.

Definition region_image (phys : Z → byte) (regions : list sha256_region) : list byte :=
  concat (map (λ r, bytes_at phys (start r) (len r)) regions).

Lemma hash_regions_spec phys regions : ∀ msg ctx,
  Forall (λ r, len r < 2 ^ 32) regions → absorbed msg ctx →
  Z.of_nat (length (msg ++ region_image phys regions)) < 2 ^ 64 →
  ∃ ctx', hash_regions phys ctx regions = Ret ctx' ∧
          absorbed (msg ++ region_image phys regions) ctx'.
Proof.
  induction regions as [|r regions IH]; intros msg ctx Hr Hab Hlen; cbn [hash_regions].
  { exists ctx. unfold region_image. cbn. by rewrite app_nil_r. }
  apply Forall_cons_1 in Hr as [Hlr Hr]. unfold region_image in *. cbn [map concat] in *.
  fold (region_image phys regions) in *. rewrite !length_app, length_bytes_at in Hlen.
  destruct (sha256_update_spec msg ctx (bytes_at phys (start r) (len r)) Hab) as (ctx1 & -> & Hab1);
    [rewrite length_bytes_at; lia | rewrite length_bytes_at; lia | ].
  rewrite bind_Ret_l, app_assoc. apply IH; [done | done | ].
  rewrite !length_app, length_bytes_at. lia.
Qed.
(** ** The digest and its verification *)

Lemma purgatory_digest_spec m phys rel_addr segs ctx :
  length (buffer ctx) = 64%nat →
  Forall (loaded m phys) (covered rel_addr segs) → Forall good_size (covered rel_addr segs) →
  (length (covered rel_addr segs) ≤ SHA256_REGIONS)%nat →
  Z.of_nat (length (image phys (covered rel_addr segs))) < 2 ^ 61 →
  purgatory_digest m rel_addr segs ctx =
    Ret (map region_of (covered rel_addr segs)
           ++ replicate (SHA256_REGIONS - length (covered rel_addr segs)) {| start := 0; len := 0 |},
         Fips.sha256 (image phys (covered rel_addr segs))).
Proof.
  intros Hb Hload Hsize Hn Hlen. unfold purgatory_digest.
  destruct (hash_segments_spec m phys rel_addr segs [] (sha256_starts ctx)
    (replicate SHA256_REGIONS {| start := 0; len := 0 |}) 0) as (ctx1 & -> & Hab);
    [done | done | apply length_replicate | lia | by apply absorbed_starts | cbn [app]; lia | ].
  rewrite bind_Ret_l. cbn [app] in Hab.
  destruct (sha256_finish_spec _ ctx1 Hab Hlen) as (ctx2 & ->).
  rewrite bind_Ret_l, drop_replicate. done.
Qed.

Lemma length_be_split n z : length (be_split n z) = n.
Proof. unfold be_split. by rewrite length_rev, LittleEndianList.length_le_split. Qed.

Lemma length_sha256 m : length (Fips.sha256 m) = 32%nat.
Proof.
  unfold Fips.sha256. destruct (wf_hash_blocks (Fips.pad m)) as [Hl _].
  destruct (length_8 _ Hl) as (a & b & c & d & e & f & g & h & ->).
  cbn [map concat]. rewrite !length_app, !length_be_split. done.
Qed.

(** The verification compares the first byte of the digests. *)
Lemma verify_spec phys regions digest ctx :
  length (buffer ctx) = 64%nat → Forall (λ r, len r < 2 ^ 32) regions →
  Z.of_nat (length (region_image phys regions)) < 2 ^ 61 → length digest = 32%nat →
  verify_sha256_digest phys regions digest ctx =
    Ret (if decide (head digest = head (Fips.sha256 (region_image phys regions)))
         then Returned else Loops).
Proof.
  intros Hb Hr Hlen Hd. unfold verify_sha256_digest.
  destruct (hash_regions_spec phys regions [] (sha256_starts ctx)) as (ctx1 & -> & Hab);
    [done | by apply absorbed_starts | cbn [app]; lia | ].
  rewrite bind_Ret_l. cbn [app] in Hab.
  destruct (sha256_finish_spec _ ctx1 Hab Hlen) as (ctx2 & ->). rewrite bind_Ret_l.
  pose proof (length_sha256 (region_image phys regions)) as Hl.
  destruct (Fips.sha256 _) as [|d l]; [done | ]. destruct digest as [|d' l']; [done | ].
  cbn [memcmp head]. rewrite bind_Ret_l. pose proof (memcmp_loop_0 d d' 31) as Hm.
  case_decide as E.
  - destruct Hm as [_ Hm]. rewrite Hm by congruence. done.
  - destruct (Z.eqb_spec (memcmp_loop d d' 32) 0) as [E0 | E0]; [ | done].
    apply Hm in E0 as ->. done.
Qed.

(** The regions and the image of the same segments. *)
Lemma region_image_of phys segs n :
  region_image phys (map region_of segs ++ replicate n {| start := 0; len := 0 |}) = image phys segs.
Proof.
  unfold region_image, image. rewrite map_app, concat_app, map_map. cbn [region_of start len].
  rewrite <- (app_nil_r (concat (map (λ s, bytes_at phys (seg_mem s) (seg_memsz s)) segs))) at 2.
  f_equal. induction n as [|n IH]; [done | ]. cbn. by rewrite IH.
Qed.

(** A ninth segment is written past the array of regions. *)
Lemma hash_segments_overflow m phys rel_addr segs : ∀ msg ctx region j,
  Forall (loaded m phys) (covered rel_addr segs) → Forall good_size (covered rel_addr segs) →
  (j ≤ SHA256_REGIONS)%nat → (SHA256_REGIONS < j + length (covered rel_addr segs))%nat →
  absorbed msg ctx →
  Z.of_nat (length (msg ++ image phys (covered rel_addr segs))) < 2 ^ 64 →
  ∃ w, hash_segments m rel_addr segs ctx region j = UB w.
Proof.
  induction segs as [|s segs IH]; intros msg ctx region j Hload Hsize Hj Hover Hab Hlen;
    cbn [hash_segments].
  { cbn in Hover. lia. }
  destruct (Z.eqb_spec (seg_mem s) rel_addr) as [E | E].
  { unfold covered in *. rewrite filter_cons_False in * by tauto. by apply (IH msg). }
  unfold covered in *. rewrite filter_cons_True in * by done.
  apply Forall_cons_1 in Hload as [(data & Hd & Hphys) Hload].
  apply Forall_cons_1 in Hsize as [[Hbs Hms] Hsize].
  unfold image in *. cbn [map concat length] in *.
  fold (image phys (filter (λ s, seg_mem s ≠ rel_addr) segs)) in *.
  pose proof (load_length _ _ _ _ Hd) as Hld. rewrite Hd, bind_Ret_l, ul_small.
  2:{ pose proof ulong_mod_ge. lia. }
  rewrite !length_app, length_bytes_at in Hlen.
  destruct (sha256_update_spec msg ctx data Hab) as (ctx1 & -> & Hab1); [lia | lia | ].
  rewrite bind_Ret_l.
  destruct (hash_nulls_spec (Z.to_nat (seg_memsz s - seg_bufsz s)) (msg ++ data) ctx1
    (seg_memsz s - seg_bufsz s)) as (ctx2 & -> & Hab2); [lia | lia | done | rewrite length_app; lia | ].
  rewrite bind_Ret_l. destruct (Nat.ltb_spec j SHA256_REGIONS); [ | by eexists].
  rewrite <- app_assoc, <- Hphys in Hab2.
  apply (IH (msg ++ bytes_at phys (seg_mem s) (seg_memsz s))); [done | done | lia | lia | done | ].
  rewrite !length_app, length_bytes_at. lia.
Qed.

Lemma digest_overflow m phys rel_addr segs ctx :
  length (buffer ctx) = 64%nat →
  Forall (loaded m phys) (covered rel_addr segs) → Forall good_size (covered rel_addr segs) →
  (SHA256_REGIONS < length (covered rel_addr segs))%nat →
  Z.of_nat (length (image phys (covered rel_addr segs))) < 2 ^ 61 →
  ∃ w, purgatory_digest m rel_addr segs ctx = UB w.
Proof.
  intros Hb Hload Hsize Hn Hlen. unfold purgatory_digest.
  destruct (hash_segments_overflow m phys rel_addr segs [] (sha256_starts ctx)
    (replicate SHA256_REGIONS {| start := 0; len := 0 |}) 0) as [w ->];
    [done | done | lia | done | by apply absorbed_starts | cbn [app]; lia | by eexists].
Qed.
(** C3: when the kernel puts each segment that the digest covers at its address,
    followed by zeros, and at most eight segments are covered, as many as the array of regions
    has entries, the digest and the regions that [update_purgatory] stores
    are the SHA-256 of the memory image and its bounds, and purgatory's
    verification of that memory returns.  With more segments the array is written past its end.
    The segments have less than 4 GiB each, and less than 2^61 bytes together. *)
Theorem purgatory_accepts m phys rel_addr segs ctx ctx' :
  length (buffer ctx) = 64%nat → length (buffer ctx') = 64%nat →
  Forall (loaded m phys) (covered rel_addr segs) → Forall good_size (covered rel_addr segs) →
  Z.of_nat (length (image phys (covered rel_addr segs))) < 2 ^ 61 →
  if (length (covered rel_addr segs) <=? SHA256_REGIONS)%nat then
    ∃ regions digest,
      purgatory_digest m rel_addr segs ctx = Ret (regions, digest) ∧
      length regions = SHA256_REGIONS ∧
      take (length (covered rel_addr segs)) regions = map region_of (covered rel_addr segs) ∧
      digest = Fips.sha256 (image phys (covered rel_addr segs)) ∧
      verify_sha256_digest phys regions digest ctx' = Ret Returned
  else ∃ w, purgatory_digest m rel_addr segs ctx = UB w.
Proof.
  intros Hb Hb' Hload Hsize Hlen. destruct (Nat.leb_spec (length (covered rel_addr segs)) SHA256_REGIONS) as [Hn | Hn].
  2:{ by apply (digest_overflow m phys). }
  rewrite (purgatory_digest_spec m phys) by done.
  eexists _, _. split; [done | ]. split.
  { rewrite length_app, length_map, length_replicate. lia. }
  split; [apply take_app_length'; by rewrite length_map | ].
  split; [done | ]. rewrite verify_spec, region_image_of.
  - by rewrite decide_True.
  - done.
  - apply Forall_app. split.
    + apply Forall_map. eapply Forall_impl; [exact Hsize | ]. intros s [_ ?]. done.
    + apply Forall_replicate. done.
  - by rewrite region_image_of.
  - apply length_sha256.
Qed.

(** purgatory's verification returns exactly when the first byte of the
    stored digest is the first byte of the memory's digest: its [memcmp] never
    advances, so the 31 other bytes are not compared. *)
Theorem verify_first_byte phys regions digest ctx :
  length (buffer ctx) = 64%nat → Forall (λ r, len r < 2 ^ 32) regions →
  Z.of_nat (length (region_image phys regions)) < 2 ^ 61 → length digest = 32%nat →
  (verify_sha256_digest phys regions digest ctx = Ret Returned ↔
   head digest = head (Fips.sha256 (region_image phys regions))) ∧
  (verify_sha256_digest phys regions digest ctx = Ret Loops ↔
   head digest ≠ head (Fips.sha256 (region_image phys regions))).
Proof.
  intros Hb Hr Hlen Hd. rewrite (verify_spec phys regions digest ctx) by done.
  case_decide; split; split; done.
Qed.

(** with more than eight segments besides purgatory, [update_purgatory]
    writes past the end of its array of regions. *)
Theorem update_purgatory_overflow m phys rel_addr segs ctx :
  length (buffer ctx) = 64%nat →
  Forall (loaded m phys) (covered rel_addr segs) → Forall good_size (covered rel_addr segs) →
  (SHA256_REGIONS < length (covered rel_addr segs))%nat →
  Z.of_nat (length (image phys (covered rel_addr segs))) < 2 ^ 61 →
  ∃ w, purgatory_digest m rel_addr segs ctx = UB w.
Proof. apply digest_overflow. Qed.
End digest.

(** ** Witnesses *)

Module Witness.
#[local] Existing Instance i386.

Definition data : list byte := [Byte.x61; Byte.x62; Byte.x63].

Definition mem0 : gmap positive (list byte) := {[ 1%positive := data ]}.

Definition seg (a : Z) : kexec_segment :=
  {| seg_buf := {| p_blk := 1; p_off := 0 |}; seg_bufsz := 3; seg_mem := a; seg_memsz := 5 |}.

(** A memory with the data at each multiple of 4096. *)
Definition phys0 (a : Z) : byte := nth (Z.to_nat (a `mod` 4096)) data Byte.x00.

Definition ctx0 : sha256_context :=
  {| total0 := 0; total1 := 0; state := []; buffer := replicate 64 Byte.xff |}.

Lemma loaded_seg k : loaded mem0 phys0 (seg (k * 4096)).
Proof.
  exists data. split; [done | ]. unfold bytes_at, seg. cbn [seg_mem seg_memsz seg_bufsz].
  change (Z.to_nat 5) with 5%nat. cbn [seq map]. unfold phys0.
  rewrite !(Z.add_comm (k * 4096)), !Z.mod_add by lia. reflexivity.
Defined.

Lemma purgatory_accepts_witness :
  ∃ regions digest,
    purgatory_digest mem0 8192 [seg 4096; seg 8192; seg 12288] ctx0 = Ret (regions, digest) ∧
    verify_sha256_digest phys0 regions digest ctx0 = Ret Returned.
Proof.
  destruct (purgatory_accepts mem0 phys0 8192 [seg 4096; seg 8192; seg 12288] ctx0 ctx0)
    as (regions & digest & ? & _ & _ & _ & ?).
  - done.
  - done.
  - repeat (apply Forall_cons_2 || apply Forall_nil_2); [apply (loaded_seg 1) | apply (loaded_seg 3)].
  - repeat (apply Forall_cons_2 || apply Forall_nil_2); by vm_compute.
  - by vm_compute.
  - exists regions, digest. split; assumption.
Defined.

(** A digest that differs from the memory's one in the 31 last bytes. *)
Definition wrong : list byte :=
  match head (Fips.sha256 []) with Some b => b :: replicate 31 Byte.x00 | None => [] end.

Lemma verify_first_byte_witness :
  wrong ≠ Fips.sha256 [] ∧
  verify_sha256_digest phys0 (replicate 8 {| start := 0; len := 0 |}) wrong ctx0 = Ret Returned.
Proof.
  split; [vm_compute; done | ].
  apply (verify_first_byte phys0 (replicate 8 {| start := 0; len := 0 |}) wrong ctx0).
  - done.
  - apply Forall_replicate. done.
  - by vm_compute.
  - vm_compute. reflexivity.
  - vm_compute. reflexivity.
Defined.

Lemma update_purgatory_overflow_witness :
  ∃ w, purgatory_digest mem0 0 (map (λ k, seg (Z.of_nat k * 4096)) (seq 1 9)) ctx0 = UB w.
Proof.
  apply (update_purgatory_overflow mem0 phys0).
  - done.
  - repeat (apply Forall_cons_2 || apply Forall_nil_2); apply loaded_seg.
  - repeat (apply Forall_cons_2 || apply Forall_nil_2); by vm_compute.
  - apply Nat.ltb_lt; vm_compute; reflexivity.
  - by vm_compute.
Defined.
End Witness.
