(* ===== verification/Console.v ===== *)
(** The output of purgatory (src/kexec-tools/purgatory/): printf.c, the VGA and the
    serial console of arch/i386/console-x86.c, the reset of the VGA card (vga.c) and of
    the interrupt controllers (pic.c), and setup_arch (purgatory-x86.c).

    The text memory of the VGA card is a list of its 16-bit cells from 0xb8000 on.  Port
    input and output is the list of the operations in their order; what [inb] returns is
    the next of the [answers]: when there is none left, the program waits for ever. *)

From Stdlib Require Import ZArith Lia String.
From stdpp Require Import base tactics list numbers.
From coqutil Require Import Byte.
From S2P Require Import Prelude Words CMem CString.

#[local] Open Scope Z_scope.

(** ** printf *)

(** An argument after the format: an integer with the width of its type after
    promotion, as it is passed, or a string. *)
Inductive va :=
| VNum (width z : Z)
| VStr (s : list byte).

Section printf.
Context `{Arch}.

Definition LONG_LONG_SHIFT : Z := 60.
Definition LONG_SHIFT : Z := ulong_bits - 4.
Definition INT_SHIFT : Z := 28.
Definition SHRT_SHIFT : Z := 12.
Definition CHAR_SHIFT : Z := 4.

(** The signed value of [z] in [w] bits. *)
Definition signed (w z : Z) : Z := (z + 2 ^ (w - 1)) `mod` 2 ^ w - 2 ^ (w - 1).

(** [*q++ = c]: [tmp] holds 40 characters. *)
Definition put_tmp (tmp : list byte) (c : byte) : outcome (list byte) :=
  if (length tmp <? 40)%nat then Ret (tmp ++ [c]) else UB "write past tmp".

(** [va_arg] for an integer of the width that goes with [shift]. *)
Definition va_integer (shift : Z) (args : list va) : outcome (Z * Z * list va) :=
  let width := if LONG_SHIFT <? shift then 64 else if INT_SHIFT <? shift then ulong_bits else 32 in
  match args with
  | VNum w z :: args => if w =? width then Ret (w, z, args) else UB "va_arg"
  | _ => UB "va_arg"
  end.

Definition hex_chars : list byte := bs "0123456789ABCDEF".

(** The digits of [h] from the one at [shift] down, [n] of them. *)
Fixpoint hex_loop (n : nat) (h shift ncase : Z) (tmp : list byte) : outcome (list byte) :=
  match n with
  | O => Ret tmp
  | S n =>
      let c := nth (Z.to_nat (Z.land (Z.shiftr h shift) 0xf)) hex_chars Byte.x00 in
      tmp ← put_tmp tmp (byte.of_Z (Z.lor (byte.unsigned c) ncase));
      hex_loop n h (shift - 4) ncase tmp
  end.

(** The digits of [i], the last one first. *)
Fixpoint dec_loop (fuel : nat) (i : Z) (tmp : list byte) : outcome (list byte) :=
  match fuel with
  | O => Spin
  | S fuel =>
      tmp ← put_tmp tmp (byte.of_Z (48 + Z.rem i 10));
      if Z.quot i 10 =? 0 then Ret tmp else dec_loop fuel (Z.quot i 10) tmp
  end.

(** The loop that exchanges the characters at [p] and at [r - 1] until they meet. *)
Fixpoint reverse_loop (fuel : nat) (p r : nat) (tmp : list byte) : outcome (list byte) :=
  match fuel with
  | O => Spin
  | S fuel =>
      let r := (r - 1)%nat in
      if (p <? r)%nat then
        match tmp !! p, tmp !! r with
        | Some a, Some b => reverse_loop fuel (S p) r (<[p := b]> (<[r := a]> tmp))
        | _, _ => UB "read past tmp"
        end
      else Ret tmp
  end.

(** The item for the conversion [c] after its length modifier. *)
Definition item (shift : Z) (c : byte) (args : list va) : outcome (list byte * list va) :=
  let n := byte.unsigned c in
  if Z.lor n 0x20 =? 0x78 then
    '(w, h, args) ← va_integer shift args;
    tmp ← hex_loop (Z.to_nat (shift / 4 + 1)) (h `mod` 2 ^ w) shift (Z.land n 0x20) [];
    mret (tmp, args)
  else if n =? 0x64 then
    '(w, z, args) ← va_integer shift args;
    let i := signed ulong_bits (signed w z) in
    tmp ← (if i <? 0 then put_tmp [] Byte.x2d else Ret []);
    i ← (if i <? 0 then if i =? - 2 ^ (ulong_bits - 1) then UB "negation overflows" else Ret (- i)
         else Ret i);
    let p := length tmp in
    tmp ← dec_loop 20 i tmp;
    tmp ← reverse_loop 20 p (length tmp) tmp;
    mret (tmp, args)
  else if n =? 0x63 then
    match args with
    | VNum w z :: args =>
        if w =? 32 then tmp ← put_tmp [] (byte.of_Z (z `mod` 2 ^ 8)); mret (tmp, args) else UB "va_arg"
    | _ => UB "va_arg"
    end
  else tmp ← put_tmp [] c; mret (tmp, args).

(** The characters printed for [fmt].  A format that ends inside a conversion is read
    past its end: the loop steps over the final NUL. *)
Fixpoint printf (fmt : list byte) (args : list va) : outcome (list byte) :=
  match fmt with
  | [] => Ret []
  | c :: fmt =>
      if negb (byte_eqb c Byte.x25) then out ← printf fmt args; mret (c :: out)
      else
        match fmt with
        | [] => UB "read past the format"
        | c :: fmt =>
            if byte_eqb c Byte.x73 then
              match args with
              | VStr s :: args => out ← printf fmt args; mret (s ++ out)
              | _ => UB "va_arg"
              end
            else if byte_eqb c Byte.x4c then
              match fmt with
              | [] => UB "read past the format"
              | c :: fmt =>
                  '(s, args) ← item LONG_LONG_SHIFT c args; out ← printf fmt args; mret (s ++ out)
              end
            else if byte_eqb c Byte.x6c then
              match fmt with
              | [] => UB "read past the format"
              | c :: fmt =>
                  '(s, args) ← item LONG_SHIFT c args; out ← printf fmt args; mret (s ++ out)
              end
            else if byte_eqb c Byte.x68 then
              match fmt with
              | [] => UB "read past the format"
              | c :: fmt =>
                  if byte_eqb c Byte.x68 then
                    match fmt with
                    | [] => UB "read past the format"
                    | c :: fmt =>
                        '(s, args) ← item CHAR_SHIFT c args; out ← printf fmt args; mret (s ++ out)
                    end
                  else '(s, args) ← item SHRT_SHIFT c args; out ← printf fmt args; mret (s ++ out)
              end
            else '(s, args) ← item INT_SHIFT c args; out ← printf fmt args; mret (s ++ out)
        end
  end.
End printf.

(** ** The VGA console *)

Definition MAX_YPOS : Z := 25.
Definition MAX_XPOS : Z := 80.

(** The cells of the text memory, and the cursor. *)
Record screen := { cells : list Z; current_ypos : Z; current_xpos : Z }.

(** Where the cursor is when purgatory starts. *)
Definition first_screen (cells : list Z) : screen :=
  {| cells := cells; current_ypos := 1; current_xpos := 0 |}.

(** [readw] and [writew] at [VGABASE + 2 * i]. *)
Definition readw (l : list Z) (i : Z) : outcome Z :=
  if 0 <=? i then
    match l !! Z.to_nat i with Some w => Ret w | None => UB "read past the text memory" end
  else UB "read before the text memory".

Definition writew (l : list Z) (w i : Z) : outcome (list Z) :=
  if (0 <=? i) && (i <? Z.of_nat (length l)) then Ret (<[Z.to_nat i := w `mod` 2 ^ 16]> l)
  else UB "write past the text memory".

(** The inner loop, from the column [i] on, [n] more columns. *)
Fixpoint scroll_row (n : nat) (k j i : Z) (l : list Z) : outcome (list Z) :=
  match n with
  | O => Ret l
  | S n =>
      w ← readw l (MAX_XPOS * k + i);
      l ← writew l w (MAX_XPOS * j + i);
      scroll_row n k j (i + 1) l
  end.

Fixpoint scroll_rows (n : nat) (k j : Z) (l : list Z) : outcome (list Z) :=
  match n with
  | O => Ret l
  | S n => l ← scroll_row (Z.to_nat MAX_XPOS) k j 0 l; scroll_rows n (k + 1) (j + 1) l
  end.

Fixpoint clear_row (n : nat) (j i : Z) (l : list Z) : outcome (list Z) :=
  match n with
  | O => Ret l
  | S n => l ← writew l 0x720 (MAX_XPOS * j + i); clear_row n j (i + 1) l
  end.

Definition scroll (s : screen) : outcome screen :=
  let rows := MAX_YPOS - 1 in
  l ← scroll_rows (Z.to_nat rows) 1 0 (cells s);
  l ← clear_row (Z.to_nat MAX_XPOS) rows 0 l;
  mret {| cells := l; current_ypos := MAX_YPOS - 1; current_xpos := current_xpos s |}.

(** [ch] is a [char] with its sign. *)
Definition putchar_vga (console_vga : bool) (s : screen) (ch : Z) : outcome screen :=
  if negb console_vga then Ret s
  else
    s ← (if MAX_YPOS <=? current_ypos s then scroll s else Ret s);
    if ch =? 10 then
      Ret {| cells := cells s; current_ypos := current_ypos s + 1; current_xpos := 0 |}
    else if negb (ch =? 13) then
      l ← writew (cells s) (Z.lor (Z.shiftl 7 8) (ch `mod` 2 ^ 16)) (MAX_XPOS * current_ypos s + current_xpos s);
      let x := current_xpos s + 1 in
      Ret (if MAX_XPOS <=? x then {| cells := l; current_ypos := current_ypos s + 1; current_xpos := 0 |}
           else {| cells := l; current_ypos := current_ypos s; current_xpos := x |})
    else Ret s.

(** ** The serial console *)

Inductive io :=
| Inb (port : Z)
| Outb (value port : Z)
| Outw (value port : Z).

(** The operations done, the answers of the ports to come, and the static variable
    [initialized] of [serial_init]. *)
Record ports := { done_io : list io; answers : list Z; initialized : bool }.

Definition outb (value port : Z) (p : ports) : ports :=
  {| done_io := done_io p ++ [Outb (value `mod` 2 ^ 8) (port `mod` 2 ^ 16)];
     answers := answers p; initialized := initialized p |}.

Definition outw (value port : Z) (p : ports) : ports :=
  {| done_io := done_io p ++ [Outw (value `mod` 2 ^ 16) (port `mod` 2 ^ 16)];
     answers := answers p; initialized := initialized p |}.

Definition inb (port : Z) (p : ports) : outcome (Z * ports) :=
  match answers p with
  | a :: rest =>
      Ret (a `mod` 2 ^ 8, {| done_io := done_io p ++ [Inb (port `mod` 2 ^ 16)]; answers := rest;
                             initialized := initialized p |})
  | [] => Spin
  end.

Definition set_initialized (p : ports) : ports :=
  {| done_io := done_io p; answers := answers p; initialized := true |}.

Definition DLAB : Z := 0x80.
Definition TBR : Z := 0.
Definition IER : Z := 1.
Definition FCR : Z := 2.
Definition LCR : Z := 3.
Definition MCR : Z := 4.
Definition LSR : Z := 5.
Definition DLL : Z := 0.
Definition DLH : Z := 1.

Section serial.
Context (console_serial : bool) (serial_base serial_baud : Z).

Definition serial_init (p : ports) : outcome ports :=
  if initialized p then Ret p
  else
    let p := outb 3 (serial_base + LCR) p in
    let p := outb 0 (serial_base + IER) p in
    let p := outb 0 (serial_base + FCR) p in
    let p := outb 3 (serial_base + MCR) p in
    '(lcr, p) ← inb (serial_base + LCR) p;
    let p := outb (Z.lor lcr DLAB) (serial_base + LCR) p in
    let p :=
      if serial_baud =? 0 then p
      else
        let divisor := 115200 / serial_baud in
        let p := outb (Z.land divisor 0xff) (serial_base + DLL) p in
        outb (Z.land (Z.shiftr divisor 8) 0xff) (serial_base + DLH) p in
    let p := outb (Z.land lcr (notw 32 DLAB)) (serial_base + LCR) p in
    mret (set_initialized p).

(** The loop that reads the line status until one of the bits of [mask] is set. *)
Fixpoint wait_for (fuel : nat) (mask : Z) (p : ports) : outcome ports :=
  match fuel with
  | O => Spin
  | S fuel =>
      '(status, p) ← inb (serial_base + LSR) p;
      if Z.land status mask =? 0 then wait_for fuel mask p else Ret p
  end.

(** A loop ends with one of the answers, or waits for ever. *)
Definition wait (mask : Z) (p : ports) : outcome ports := wait_for (S (length (answers p))) mask p.

Definition serial_tx_byte (byte : Z) (p : ports) : outcome ports :=
  p ← serial_init p;
  p ← wait 0x20 p;
  wait 0x40 (outb byte (serial_base + TBR) p).

Definition putchar_serial (ch : Z) (p : ports) : outcome ports :=
  if negb console_serial then Ret p
  else
    p ← (if ch =? 10 then serial_tx_byte 13 p else Ret p);
    serial_tx_byte ch p.
End serial.

(** ** Both *)

(** The variables of purgatory that kexec sets. *)
Record console_config := {
  console_vga : bool; console_serial : bool; serial_base : Z; serial_baud : Z
}.

Definition console : Type := screen * ports.

(** A [char] as the [int] that is passed. *)
Definition char_value (c : byte) : Z := signed 8 (byte.unsigned c).

Definition putchar (cfg : console_config) (c : console) (ch : byte) : outcome console :=
  s ← putchar_vga (console_vga cfg) c.1 (char_value ch);
  p ← putchar_serial (console_serial cfg) (serial_base cfg) (serial_baud cfg) (char_value ch) c.2;
  mret (s, p).

Fixpoint putchars (cfg : console_config) (c : console) (s : list byte) : outcome console :=
  match s with
  | [] => Ret c
  | ch :: s => c ← putchar cfg c ch; putchars cfg c s
  end.

(** ** The set-up of the machine *)

(** The operations of a list, one after the other; what is read is not used. *)
Fixpoint perform (l : list io) (p : ports) : outcome ports :=
  match l with
  | [] => Ret p
  | Inb port :: l => '(_, p) ← inb port p; perform l p
  | Outb value port :: l => perform l (outb value port p)
  | Outw value port :: l => perform l (outw value port p)
  end.

(** The VGA card's registers for text mode 3. *)
Definition vga_io : list io := [
  Inb 0x3da; Outb 0 0x3c0; Outw 0x0300 0x3c4; Outw 0x0001 0x3c4; Outw 0x0302 0x3c4;
  Outw 0x0003 0x3c4; Outw 0x0204 0x3c4; Outw 0x0e11 0x3d4; Outw 0x5f00 0x3d4; Outw 0x4f01 0x3d4;
  Outw 0x5002 0x3d4; Outw 0x8203 0x3d4; Outw 0x5504 0x3d4; Outw 0x8105 0x3d4; Outw 0xbf06 0x3d4;
  Outw 0x1f07 0x3d4; Outw 0x0008 0x3d4; Outw 0x4f09 0x3d4; Outw 0x200a 0x3d4; Outw 0x0e0b 0x3d4;
  Outw 0x000c 0x3d4; Outw 0x000d 0x3d4; Outw 0x010e 0x3d4; Outw 0xe00f 0x3d4; Outw 0x9c10 0x3d4;
  Outw 0x8e11 0x3d4; Outw 0x8f12 0x3d4; Outw 0x2813 0x3d4; Outw 0x1f14 0x3d4; Outw 0x9615 0x3d4;
  Outw 0xb916 0x3d4; Outw 0xa317 0x3d4; Outw 0xff18 0x3d4; Outw 0x0000 0x3ce; Outw 0x0001 0x3ce;
  Outw 0x0002 0x3ce; Outw 0x0003 0x3ce; Outw 0x0004 0x3ce; Outw 0x1005 0x3ce; Outw 0x0e06 0x3ce;
  Outw 0x0007 0x3ce; Outw 0xff08 0x3ce; Inb 0x3da; Outb 0x00 0x3c0; Outb 0x00 0x3c0; Inb 0x3da;
  Outb 0x01 0x3c0; Outb 0x01 0x3c0; Inb 0x3da; Outb 0x02 0x3c0; Outb 0x02 0x3c0; Inb 0x3da;
  Outb 0x03 0x3c0; Outb 0x03 0x3c0; Inb 0x3da; Outb 0x04 0x3c0; Outb 0x04 0x3c0; Inb 0x3da;
  Outb 0x05 0x3c0; Outb 0x05 0x3c0; Inb 0x3da; Outb 0x06 0x3c0; Outb 0x14 0x3c0; Inb 0x3da;
  Outb 0x07 0x3c0; Outb 0x07 0x3c0; Inb 0x3da; Outb 0x08 0x3c0; Outb 0x38 0x3c0; Inb 0x3da;
  Outb 0x09 0x3c0; Outb 0x39 0x3c0; Inb 0x3da; Outb 0x0a 0x3c0; Outb 0x3a 0x3c0; Inb 0x3da;
  Outb 0x0b 0x3c0; Outb 0x3b 0x3c0; Inb 0x3da; Outb 0x0c 0x3c0; Outb 0x3c 0x3c0; Inb 0x3da;
  Outb 0x0d 0x3c0; Outb 0x3d 0x3c0; Inb 0x3da; Outb 0x0e 0x3c0; Outb 0x3e 0x3c0; Inb 0x3da;
  Outb 0x0f 0x3c0; Outb 0x3f 0x3c0; Inb 0x3da; Outb 0x10 0x3c0; Outb 0x0c 0x3c0; Inb 0x3da;
  Outb 0x11 0x3c0; Outb 0x00 0x3c0; Inb 0x3da; Outb 0x12 0x3c0; Outb 0x0f 0x3c0; Inb 0x3da;
  Outb 0x13 0x3c0; Outb 0x08 0x3c0; Inb 0x3da; Outb 0x14 0x3c0; Outb 0x00 0x3c0; Inb 0x3da;
  Outb 0x20 0x3c0].

Definition x86_reset_vga : ports → outcome ports := perform vga_io.

(** The settings of DOS for the interrupt controllers. *)
Definition pic_io : list io := [
  Outb 0xff 0x21; Outb 0xff 0xa1; Outb 0x11 0x20; Outb 0x11 0x80; Outb 0x08 0x21; Outb 0x08 0x80;
  Outb 0x01 0x21; Outb 0x01 0x80; Outb 0x11 0xa0; Outb 0x11 0x80; Outb 0x70 0xa1; Outb 0x70 0x80;
  Outb 0x01 0xa1; Outb 0x01 0x80; Outb 0x00 0x21; Outb 0x00 0xa1].

Definition x86_setup_legacy_pic : ports → outcome ports := perform pic_io.

(** [legacy_timer] is not used, and x86_setup_cpu is empty. *)
Definition setup_arch (reset_vga legacy_pic : bool) (p : ports) : outcome ports :=
  p ← (if reset_vga then x86_reset_vga p else Ret p);
  if legacy_pic then x86_setup_legacy_pic p else Ret p.

(** ** The message about a digest that does not match (purgatory.c) *)

Fixpoint print_digest `{Arch} (digest : list byte) : outcome (list byte) :=
  match digest with
  | [] => Ret []
  | d :: digest =>
      s ← printf (bs "%hhx ") [VNum 32 (byte.unsigned d)];
      out ← print_digest digest; mret (s ++ out)
  end.

Definition mismatch `{Arch} (digest sha256_digest : list byte) : outcome (list byte) :=
  s1 ← printf (bs "sha256 digests do not match :(" ++ [newline]) [];
  s2 ← printf (bs "       digest: ") [];
  s3 ← print_digest digest;
  s4 ← printf (bs "sha256_digest: ") [];
  s5 ← print_digest sha256_digest;
  mret (s1 ++ s2 ++ s3 ++ [newline] ++ s4 ++ s5 ++ [newline]).
