(* ===== verification/ConsoleSpec.v ===== *)
(** What purgatory prints: printf is the usual one on the conversions that it knows, the
    text memory shows the last 25 lines of all that was printed, and the serial port
    gets the same characters. *)

From Stdlib Require Import ZArith Lia String Ascii.
From stdpp Require Import base tactics list numbers sets pretty.
From coqutil Require Import Byte.
From S2P Require Import Prelude Words CMem CString Console.

#[local] Open Scope Z_scope.

(** ** printf *)

(** *** The reference *)

Inductive modifier := m_hh | m_h | m_none | m_l | m_L.

Inductive directive :=
| Lit (c : byte)
| Percent
| Str
| Chr
| Hex (upper : bool) (m : modifier)
| Dec (m : modifier).

Definition modifier_text (m : modifier) : list byte :=
  bs (match m with m_hh => "hh" | m_h => "h" | m_none => "" | m_l => "l" | m_L => "L" end)%string.

Definition directive_text (d : directive) : list byte :=
  match d with
  | Lit c => [c]
  | Percent => bs "%%"
  | Str => bs "%s"
  | Chr => bs "%c"
  | Hex upper m => bs "%" ++ modifier_text m ++ bs (if upper then "X" else "x")%string
  | Dec m => bs "%" ++ modifier_text m ++ bs "d"
  end.

Definition format (ds : list directive) : list byte := concat (map directive_text ds).

(** The [n] last digits of a number in a base, the greatest first. *)
Fixpoint positional (n : nat) (base z : Z) : list Z :=
  match n with
  | O => []
  | S n => positional n base (z / base) ++ [z `mod` base]
  end.

Definition hex_digit_of (upper : bool) (d : Z) : byte :=
  byte.of_Z (d + (if d <? 10 then 48 else if upper then 55 else 87)).

Section reference.
Context `{Arch}.

(** The width of the argument, and the number of hexadecimal digits. *)
Definition arg_width (m : modifier) : Z :=
  match m with m_hh | m_h | m_none => 32 | m_l => ulong_bits | m_L => 64 end.

Definition hex_width (m : modifier) : nat :=
  match m with
  | m_hh => 2 | m_h => 4 | m_none => 8 | m_l => Z.to_nat (ulong_bits / 4) | m_L => 16
  end%nat.

(** What a directive prints, and the arguments that are left. *)
Definition render_one (d : directive) (args : list va) : option (list byte * list va) :=
  match d, args with
  | Lit c, _ => Some ([c], args)
  | Percent, _ => Some ([Byte.x25], args)
  | Str, VStr s :: args => Some (s, args)
  | Chr, VNum 32 z :: args => Some ([byte.of_Z (z `mod` 2 ^ 8)], args)
  | Hex upper m, VNum w z :: args =>
      if w =? arg_width m then
        Some (map (hex_digit_of upper) (positional (hex_width m) 16 z), args)
      else None
  | Dec m, VNum w z :: args =>
      let i := signed ulong_bits (signed w z) in
      if (w =? arg_width m) && negb (i =? - 2 ^ (ulong_bits - 1)) then Some (bs (pretty i), args) else None
  | _, _ => None
  end.

Fixpoint render (ds : list directive) (args : list va) : option (list byte) :=
  match ds with
  | [] => Some []
  | d :: ds => '(s, args) ← render_one d args; out ← render ds args; Some (s ++ out)
  end.
End reference.

(** *** Digits *)

Lemma positional_head n base z : 0 < base →
  positional (S n) base z = (z / base ^ Z.of_nat n) `mod` base :: positional n base z.
Proof.
  intros Hb. revert z. induction n as [|n IH]; intros z.
  - cbn [positional app]. by rewrite Z.pow_0_r, Z.div_1_r.
  - cbn [positional] in *. rewrite IH. cbn [app]. f_equal.
    rewrite Z.div_div, <- Z.pow_succ_r by lia. by rewrite Nat2Z.inj_succ.
Qed.

Lemma length_positional n base : ∀ z, length (positional n base z) = n.
Proof. induction n as [|n IH]; intros z; [done | ]. cbn [positional]. rewrite length_app, IH. simpl. lia. Qed.

Lemma put_tmp_room tmp c : (length tmp < 40)%nat → put_tmp tmp c = Ret (tmp ++ [c]).
Proof. intros Hl. unfold put_tmp. by destruct (Nat.ltb_spec (length tmp) 40); [ | lia]. Qed.

Lemma hex_char (upper : bool) d : 0 ≤ d < 16 →
  byte.of_Z (Z.lor (byte.unsigned (nth (Z.to_nat d) hex_chars Byte.x00)) (if upper then 0 else 0x20))
    = hex_digit_of upper d.
Proof.
  intros Hd.
  assert (forallb (λ k : nat, bool_decide (byte.of_Z (Z.lor (byte.unsigned (nth k hex_chars Byte.x00)) (if upper then 0 else 0x20))
    = hex_digit_of upper (Z.of_nat k))) (seq 0 16) = true) as Hall by (destruct upper; vm_compute; reflexivity).
  rewrite forallb_forall in Hall. specialize (Hall (Z.to_nat d)).
  rewrite Z2Nat.id in Hall by lia. apply (bool_decide_eq_true_1 _), Hall, in_seq. lia.
Qed.

Lemma hex_loop_spec (upper : bool) : ∀ n h tmp, 0 ≤ h → (length tmp + n ≤ 40)%nat →
  hex_loop n h (4 * (Z.of_nat n - 1)) (if upper then 0 else 0x20) tmp
    = Ret (tmp ++ map (hex_digit_of upper) (positional n 16 h)).
Proof.
  induction n as [|n IH]; intros h tmp Hh Hl; [by rewrite app_nil_r | ]. cbn [hex_loop].
  rewrite put_tmp_room, bind_Ret_l by lia. rewrite positional_head by lia.
  replace (4 * (Z.of_nat (S n) - 1) - 4) with (4 * (Z.of_nat n - 1)) by lia.
  rewrite IH by (rewrite ?length_app; simpl; lia). rewrite <- app_assoc. cbn [map app]. do 4 f_equal.
  replace (4 * (Z.of_nat (S n) - 1)) with (4 * Z.of_nat n) by lia.
  rewrite Z.shiftr_div_pow2 by lia. change 0xf with (Z.ones 4). rewrite Z.land_ones by lia.
  rewrite (Z.pow_mul_r 2 4) by lia. apply hex_char. apply Z.mod_pos_bound. lia.
Qed.

(** The decimal digits come out in the reverse of their usual order. *)
Lemma dec_loop_spec : ∀ k fuel x tmp, (0 < x)%N → (x < 10 ^ N.of_nat k)%N → (k ≤ fuel)%nat → (length tmp + k ≤ 40)%nat →
  ∃ l, dec_loop fuel (Z.of_N x) tmp = Ret (tmp ++ l) ∧ (length l ≤ k)%nat ∧
    ∀ s, bs (pretty_N_go x s) = rev l ++ bs s.
Proof.
  induction k as [|k IH]; intros fuel x tmp Hx Hk Hf Hl; [simpl in Hk; lia | ].
  destruct fuel as [|fuel]; [lia | ]. cbn [dec_loop]. rewrite put_tmp_room, bind_Ret_l by lia.
  rewrite Z.rem_mod_nonneg, Z.quot_div_nonneg by lia.
  set (c := byte.of_Z _).
  assert (∀ s, bs (String (pretty_N_char (x `mod` 10)) s) = c :: bs s) as Hc.
  { intros s. change (bs (String ?a s)) with (byte_of_ascii a :: bs s). f_equal. unfold c.
    assert ((x `mod` 10 < 10)%N) as Hm by (by apply N.mod_lt).
    replace (Z.of_N x `mod` 10) with (Z.of_N (x `mod` 10)) by (by rewrite N2Z.inj_mod).
    revert Hm. generalize (x `mod` 10)%N. intros d Hd.
    assert (forallb (λ k : nat, bool_decide (byte_of_ascii (pretty_N_char (N.of_nat k)) = byte.of_Z (48 + Z.of_nat k)))
      (seq 0 10) = true) as Hall by (vm_compute; reflexivity).
    rewrite forallb_forall in Hall. specialize (Hall (N.to_nat d)).
    rewrite N2Nat.id, N_nat_Z in Hall. apply (bool_decide_eq_true_1 _), Hall, in_seq. lia. }
  assert ((Z.of_N x / 10 =? 0) = (x `div` 10 =? 0)%N) as ->.
  { change 10 with (Z.of_N 10). rewrite <- N2Z.inj_div. destruct (N.eqb_spec (x `div` 10) 0) as [-> | Hne]; [done | ].
    apply Z.eqb_neq. lia. }
  destruct (N.eqb_spec (x `div` 10) 0) as [E | Hne].
  - exists [c]. split; [done | ]. split; [simpl; lia | ]. intros s.
    rewrite pretty_N_go_step by done. rewrite E, pretty_N_go_0. apply Hc.
  - destruct (IH fuel (x `div` 10)%N (tmp ++ [c])) as (l & Hr & Hll & Hs).
    + by apply N.neq_0_lt_0.
    + apply N.Div0.div_lt_upper_bound. rewrite Nat2N.inj_succ, N.pow_succ_r' in Hk. lia.
    + lia.
    + rewrite length_app. simpl. lia.
    + exists (c :: l). change 10 with (Z.of_N 10). rewrite <- N2Z.inj_div, Hr. rewrite <- app_assoc.
      split; [done | ]. split; [simpl; lia | ]. intros s. rewrite pretty_N_go_step by done.
      rewrite Hs, Hc. cbn [rev]. by rewrite <- app_assoc.
Qed.

Lemma dec_loop_pretty x tmp : 0 ≤ x < 10 ^ 20 → (length tmp + 20 ≤ 40)%nat →
  ∃ l, dec_loop 20 x tmp = Ret (tmp ++ l) ∧ (length l ≤ 20)%nat ∧ rev l = bs (pretty x).
Proof.
  intros Hx Hl. destruct (decide (x = 0)) as [-> | Hne].
  { exists [Byte.x30]. cbn [dec_loop]. rewrite put_tmp_room, bind_Ret_l by lia. split; [done | ]. split; [simpl; lia | by vm_compute]. }
  destruct (dec_loop_spec 20 20 (Z.to_N x) tmp) as (l & Hr & Hll & Hs); [lia | | lia.. | ].
  - apply N2Z.inj_lt. rewrite Z2N.id by lia. change (Z.of_N (10 ^ N.of_nat 20)) with (10 ^ 20). apply Hx.
  - rewrite Z2N.id in Hr by lia. exists l. split; [done | ]. split; [done | ].
    specialize (Hs EmptyString). cbn [bs list_byte_of_string] in Hs. rewrite app_nil_r in Hs. rewrite <- Hs.
    destruct x as [ | p | p]; [lia | | lia]. reflexivity.
Qed.

Lemma reverse_loop_spec : ∀ fuel pre l post, (length l < 2 * fuel)%nat →
  reverse_loop fuel (length pre) (length pre + length l) (pre ++ l ++ post) = Ret (pre ++ rev l ++ post).
Proof.
  induction fuel as [|fuel IH]; intros pre l post Hf; [lia | ]. cbn [reverse_loop].
  destruct (Nat.ltb_spec (length pre) (length pre + length l - 1)) as [Hlt | Hge].
  2: { destruct l as [|a [|b l]]; [done | done | simpl in Hge; lia]. }
  destruct l as [|a l]; [simpl in Hlt; lia | ]. destruct l as [|b mid _] using rev_ind; [simpl in Hlt; lia | ].
  cbn [length] in *. rewrite length_app in *. cbn [length] in *.
  assert ((pre ++ (a :: mid ++ [b]) ++ post) !! length pre = Some a) as -> by (cbn [app]; by rewrite list_lookup_middle).
  set (r := (length pre + S (length mid + 1) - 1)%nat).
  assert (pre ++ (a :: mid ++ [b]) ++ post = (pre ++ a :: mid) ++ b :: post) as E
    by (cbn [app]; by rewrite <- !app_assoc).
  assert (r = length (pre ++ a :: mid)) as Er by (unfold r; rewrite length_app; simpl; lia).
  assert ((pre ++ (a :: mid ++ [b]) ++ post) !! r = Some b) as -> by (rewrite E; by rewrite list_lookup_middle).
  assert (<[length pre := b]> (<[r := a]> (pre ++ (a :: mid ++ [b]) ++ post)) = (pre ++ [b]) ++ mid ++ (a :: post)) as ->.
  { rewrite E, Er, insert_app_r_alt, Nat.sub_diag by lia. cbn [list_insert].
    rewrite <- app_assoc, insert_app_r_alt, Nat.sub_diag by lia. by rewrite <- app_assoc. }
  replace (S (length pre)) with (length (pre ++ [b])) by (rewrite length_app; simpl; lia).
  replace r with (length (pre ++ [b]) + length mid)%nat by (unfold r; rewrite length_app; simpl; lia).
  rewrite IH by lia. cbn [rev]. rewrite rev_app_distr. cbn [rev app]. by rewrite <- !app_assoc.
Qed.

Lemma positional_low n : ∀ z z', z `mod` 2 ^ (4 * Z.of_nat n) = z' `mod` 2 ^ (4 * Z.of_nat n) →
  positional n 16 z = positional n 16 z'.
Proof.
  induction n as [|n IH]; intros z z' E; [done | ].
  replace (4 * Z.of_nat (S n)) with (4 + 4 * Z.of_nat n) in E by lia.
  rewrite Z.pow_add_r in E by lia. rewrite !Z.rem_mul_r in E by lia. change (2 ^ 4) with 16 in E.
  pose proof (Z.mod_pos_bound z 16 ltac:(lia)). pose proof (Z.mod_pos_bound z' 16 ltac:(lia)).
  cbn [positional]. f_equal; [apply IH; lia | f_equal; lia].
Qed.

(** *** Items *)

Section items.
Context `{Arch}.

Lemma item_hex (upper : bool) shift n w args z :
  (0 < n ≤ 16)%nat → shift = 4 * (Z.of_nat n - 1) → va_integer shift (VNum w z :: args) = Ret (w, z, args) →
  4 * Z.of_nat n ≤ w →
  item shift (if upper then Byte.x58 else Byte.x78) (VNum w z :: args)
    = Ret (map (hex_digit_of upper) (positional n 16 z), args).
Proof.
  intros Hn Es Hva Hnw. unfold item.
  assert ((Z.lor (byte.unsigned (if upper then Byte.x58 else Byte.x78)) 0x20 =? 0x78) = true) as -> by (by destruct upper).
  rewrite Hva, bind_Ret_l. cbv beta iota zeta.
  assert (Z.land (byte.unsigned (if upper then Byte.x58 else Byte.x78)) 0x20 = if upper then 0 else 0x20) as ->
    by (by destruct upper).
  replace (Z.to_nat (shift / 4 + 1)) with n by (rewrite Es, Z.mul_comm, Z.div_mul by lia; lia).
  assert (0 < 2 ^ w) by (apply Z.pow_pos_nonneg; lia).
  rewrite Es, hex_loop_spec, bind_Ret_l by (simpl; try lia; apply Z.mod_pos_bound; lia). cbn [app].
  do 3 f_equal. apply positional_low. rewrite <- Znumtheory.Zmod_div_mod; [done | lia | lia | ].
  exists (2 ^ (w - 4 * Z.of_nat n)). rewrite <- Z.pow_add_r by lia. f_equal. lia.
Qed.

Lemma pretty_neg x : x < 0 → pretty x = ("-" +:+ pretty (- x))%string.
Proof. by destruct x. Qed.

Lemma item_dec shift w args z :
  va_integer shift (VNum w z :: args) = Ret (w, z, args) →
  let i := signed ulong_bits (signed w z) in
  i ≠ - 2 ^ (ulong_bits - 1) → - 10 ^ 20 < i < 10 ^ 20 →
  item shift Byte.x64 (VNum w z :: args) = Ret (bs (pretty i), args).
Proof.
  intros Hva i Hmin Hi. unfold item. change (Z.lor (byte.unsigned Byte.x64) 0x20 =? 0x78) with false.
  change (byte.unsigned Byte.x64 =? 0x64) with true. cbv iota. rewrite Hva, bind_Ret_l. cbv beta iota zeta. fold i.
  destruct (Z.ltb_spec i 0) as [Hneg | Hpos].
  - rewrite put_tmp_room, bind_Ret_l by (simpl; lia).
    destruct (Z.eqb_spec i (- 2 ^ (ulong_bits - 1))) as [ | _]; [done | ]. rewrite bind_Ret_l.
    destruct (dec_loop_pretty (- i) ([] ++ [Byte.x2d])) as (l & -> & Hl & Hp); [lia | simpl; lia | ].
    rewrite bind_Ret_l. pose proof (reverse_loop_spec 20 [Byte.x2d] l [] ltac:(lia)) as Hr.
    rewrite !app_nil_r in Hr. cbn [app length Nat.add] in Hr |- *.
    rewrite Hr, bind_Ret_l. rewrite pretty_neg, Hp by done. done.
  - rewrite !bind_Ret_l. destruct (dec_loop_pretty i []) as (l & -> & Hl & Hp); [lia | simpl; lia | ].
    rewrite bind_Ret_l. pose proof (reverse_loop_spec 20 [] l [] ltac:(lia)) as Hr.
    rewrite !app_nil_r in Hr. cbn [app length] in *. rewrite Nat.add_0_l in Hr.
    rewrite Hr, bind_Ret_l. by rewrite Hp.
Qed.
End items.

(** *** The whole *)

Section renders.
Context `{Arch}.

(** A byte of the format that stands for itself. *)
Definition literal (d : directive) : Prop := match d with Lit c => c ≠ Byte.x25 | _ => True end.

Lemma signed_range w z : 0 < w → - 2 ^ (w - 1) ≤ signed w z < 2 ^ (w - 1).
Proof.
  intros Hw. unfold signed. pose proof (Z.mod_pos_bound (z + 2 ^ (w - 1)) (2 ^ w) ltac:(apply Z.pow_pos_nonneg; lia)).
  assert (2 ^ w = 2 * 2 ^ (w - 1)) by (rewrite <- Z.pow_succ_r by lia; f_equal; lia). lia.
Qed.

Definition shift_of (m : modifier) : Z :=
  match m with
  | m_hh => CHAR_SHIFT | m_h => SHRT_SHIFT | m_none => INT_SHIFT | m_l => LONG_SHIFT | m_L => LONG_LONG_SHIFT
  end.

Lemma va_integer_of m z args :
  va_integer (shift_of m) (VNum (arg_width m) z :: args) = Ret (arg_width m, z, args).
Proof.
  unfold va_integer, shift_of, arg_width, LONG_SHIFT, CHAR_SHIFT, SHRT_SHIFT, INT_SHIFT, LONG_LONG_SHIFT.
  destruct m, ulong_bits_ok as [-> | ->]; done.
Qed.

(** A conversion with a length modifier. *)
Lemma printf_integer m c rest args :
  c ∈ [Byte.x64; Byte.x78; Byte.x58] →
  printf (bs "%" ++ modifier_text m ++ c :: rest) args
    = ('(s, args) ← item (shift_of m) c args; out ← printf rest args; mret (s ++ out)).
Proof.
  intros Hc. rewrite !elem_of_cons in Hc. destruct Hc as [-> | [-> | [-> | []%not_elem_of_nil]]]; by destruct m.
Qed.

Lemma item_plain shift c args : c ∉ [Byte.x64; Byte.x78; Byte.x58; Byte.x63] →
  item shift c args = Ret ([c], args).
Proof.
  intros Hc. rewrite !not_elem_of_cons in Hc. destruct Hc as (? & ? & ? & ? & _). unfold item. cbv zeta.
  destruct c; (done || reflexivity).
Qed.

(** C25: on a format made of the conversions %s, %c, %% and %d, %x and %X with a length
    modifier, and arguments of their types, printf prints what the conversions stand
    for: the decimal number with its sign, the fixed number of hexadecimal digits for
    the width, the string.  No item overruns its 40 characters.  A long is as wide as the
    host's: %lx has 8 digits on i386, where the comment of printf.c promises 16
    ([Witness.long_digits_i386]). *)
Theorem printf_renders ds : ∀ args out,
  Forall literal ds → render ds args = Some out → printf (format ds) args = Ret out.
Proof.
  induction ds as [|d ds IH]; intros args out Hlit Hr; [by injection Hr as <- | ].
  apply Forall_cons_1 in Hlit as [Hd Hds]. cbn [render] in Hr.
  destruct (render_one d args) as [[s args'] | ] eqn:E1; [ | done]. cbn [mbind option_bind] in Hr.
  destruct (render ds args') as [o | ] eqn:E2; [ | done]. injection Hr as <-.
  specialize (IH args' o Hds E2). unfold format in *. cbn [map concat].
  destruct d as [c | | | | upper m | m]; cbn [directive_text] in *.
  - injection E1 as <- <-. cbn [app printf]. assert (byte_eqb c Byte.x25 = false) as ->.
    { apply not_true_is_false. by rewrite byte_eqb_eq. }
    cbn [negb]. by rewrite IH.
  - injection E1 as <- <-. cbn [bs list_byte_of_string app]. change (bs "%%") with [Byte.x25; Byte.x25].
    cbn [app printf]. change (byte_eqb Byte.x25 Byte.x25) with true. cbn [negb].
    change (byte_eqb Byte.x25 Byte.x73) with false. change (byte_eqb Byte.x25 Byte.x4c) with false.
    change (byte_eqb Byte.x25 Byte.x6c) with false. change (byte_eqb Byte.x25 Byte.x68) with false. cbv iota.
    rewrite item_plain by set_solver. by rewrite bind_Ret_l, IH.
  - destruct args as [|[ | s'] args]; [done.. | ]. injection E1 as <- <-.
    change (bs "%s") with [Byte.x25; Byte.x73]. cbn. by rewrite IH.
  - destruct args as [|[w z | ] args]; [done | | done]. cbn [render_one] in E1.
    assert (w = 32 ∧ Some ([byte.of_Z (z `mod` 2 ^ 8)], args) = Some (s, args')) as [-> E].
    { repeat case_match; done. }
    injection E as <- <-. change (bs "%c") with [Byte.x25; Byte.x63]. cbn [app].
    change (printf (Byte.x25 :: Byte.x63 :: ?rest) ?a) with ('(s, args) ← item INT_SHIFT Byte.x63 a; out ← printf rest args; mret (s ++ out)).
    change (item INT_SHIFT Byte.x63 (VNum 32 z :: args)) with (Ret ([byte.of_Z (z `mod` 2 ^ 8)], args)).
    by rewrite bind_Ret_l, IH.
  - destruct args as [|[w z | ] args]; [done | | done]. cbn [render_one] in E1.
    destruct (Z.eqb_spec w (arg_width m)) as [-> | ]; [ | done]. injection E1 as <- <-.
    replace (bs (if upper then "X" else "x")) with [if upper then Byte.x58 else Byte.x78] by (by destruct upper).
    rewrite <- !app_assoc. cbn [app]. rewrite printf_integer by (destruct upper; set_solver).
    rewrite (item_hex upper _ (hex_width m) (arg_width m)); [ | | | apply va_integer_of | ].
    + by rewrite bind_Ret_l, IH.
    + destruct m, ulong_bits_ok as [E | E]; unfold hex_width; rewrite ?E; split; apply Nat.leb_le; reflexivity.
    + unfold shift_of, LONG_SHIFT. destruct m, ulong_bits_ok as [E | E]; unfold hex_width; rewrite ?E; done.
    + unfold arg_width. destruct m, ulong_bits_ok as [E | E]; unfold hex_width; rewrite ?E; done.
  - destruct args as [|[w z | ] args]; [done | | done]. cbn [render_one] in E1.
    destruct (Z.eqb_spec w (arg_width m)) as [-> | ]; [ | done]. cbn [andb] in E1.
    destruct (Z.eqb_spec (signed ulong_bits (signed (arg_width m) z)) (- 2 ^ (ulong_bits - 1))) as [ | Hmin]; [done | ].
    injection E1 as <- <-. rewrite <- !app_assoc. change (bs "d" ++ ?l) with (Byte.x64 :: l).
    rewrite printf_integer by set_solver. rewrite item_dec; [by rewrite bind_Ret_l, IH | apply va_integer_of | done | ].
    pose proof (signed_range ulong_bits (signed (arg_width m) z)).
    destruct ulong_bits_ok as [E | E]; rewrite E in *; lia.
Qed.
End renders.

(** ** The VGA console *)

(** *** The loops that scroll *)

Definition word (w : Z) : Prop := 0 ≤ w < 2 ^ 16.

Lemma writew_Ret l w i : 0 ≤ i < Z.of_nat (length l) → word w → writew l w i = Ret (<[Z.to_nat i := w]> l).
Proof.
  intros Hi Hw. unfold writew. destruct (Z.leb_spec 0 i); [ | lia]. destruct (Z.ltb_spec i (Z.of_nat (length l))); [ | lia].
  cbn [andb]. unfold word in Hw. by rewrite Z.mod_small.
Qed.

Lemma readw_Ret l i : 0 ≤ i < Z.of_nat (length l) → Forall word l → ∃ w, readw l i = Ret w ∧ l !! Z.to_nat i = Some w ∧ word w.
Proof.
  intros Hi Hl. unfold readw. destruct (Z.leb_spec 0 i); [ | lia].
  destruct (lookup_lt_is_Some_2 l (Z.to_nat i)) as [w Hw]; [lia | ]. rewrite Hw. exists w. split_and!; [done.. | ].
  by apply (Forall_lookup_1 _ _ _ _ Hl Hw).
Qed.

(** [l'] is [l] with the [n] cells from [d] on replaced by what [f] says. *)
Definition changed (d n : Z) (f : nat → option Z) (l l' : list Z) : Prop :=
  length l' = length l ∧ Forall word l' ∧
  ∀ m, l' !! m = if bool_decide (d ≤ Z.of_nat m < d + n) then f m else l !! m.

Lemma changed_refl d f l : Forall word l → changed d 0 f l l.
Proof. intros Hl. split_and!; [done.. | ]. intros m. case_bool_decide; [lia | done]. Qed.

Lemma changed_step d n f l l' w :
  0 ≤ d < Z.of_nat (length l) → word w → Forall word l → f (Z.to_nat d) = Some w → 0 ≤ n →
  changed (d + 1) n f (<[Z.to_nat d := w]> l) l' → changed d (n + 1) f l l'.
Proof.
  intros Hd Hw Hl Hf Hn (Hlen & Hall & Hm). rewrite length_insert in Hlen. split_and!; [done.. | ]. intros m. rewrite Hm.
  destruct (decide (m = Z.to_nat d)) as [-> | Hne].
  - rewrite list_lookup_insert_eq by lia. case_bool_decide; [lia | ]. case_bool_decide; [done | lia].
  - rewrite list_lookup_insert_ne by done. do 2 case_bool_decide; (done || lia).
Qed.

Lemma scroll_row_spec j : ∀ n i l,
  0 ≤ j → 0 ≤ i → i + Z.of_nat n ≤ 80 → 80 * j + 160 ≤ Z.of_nat (length l) → Forall word l →
  ∃ l', scroll_row n (j + 1) j i l = Ret l' ∧ changed (80 * j + i) (Z.of_nat n) (λ m, l !! (m + 80)%nat) l l'.
Proof.
  intros n. remember (80 * j) as base eqn:Eb.
  induction n as [|n IH]; intros i l Hj Hi Hn Hlen Hl; [exists l; split; [done | by apply changed_refl] | ].
  cbn [scroll_row]. unfold MAX_XPOS. destruct (readw_Ret l (80 * (j + 1) + i)) as (w & -> & Hw & Hww); [lia | done | ].
  rewrite bind_Ret_l, writew_Ret, bind_Ret_l by (done || lia).
  destruct (IH (i + 1) (<[Z.to_nat (80 * j + i):=w]> l)) as (l' & -> & Hc); [lia.. | | | ].
  { rewrite length_insert. lia. }
  { by apply Forall_insert. }
  exists l'. split; [done | ]. rewrite Nat2Z.inj_succ, <- Z.add_1_r.
  destruct Hc as (Hlen' & Hall & Hm).
  apply (changed_step _ _ _ _ _ w); [lia | done | done | | lia | ].
  - rewrite <- Hw. f_equal. lia.
  - rewrite <- Eb in *. split_and!; [done.. | ]. intros m. rewrite Hm, Z.add_assoc. case_bool_decide; [ | done].
    rewrite list_lookup_insert_ne by lia. done.
Qed.

Lemma scroll_rows_spec : ∀ n j l,
  0 ≤ j → 80 * (j + Z.of_nat n + 1) ≤ Z.of_nat (length l) → Forall word l →
  ∃ l', scroll_rows n (j + 1) j l = Ret l' ∧ changed (80 * j) (80 * Z.of_nat n) (λ m, l !! (m + 80)%nat) l l'.
Proof.
  induction n as [|n IH]; intros j l Hj Hlen Hl; [exists l; split; [done | by apply changed_refl] | ].
  cbn [scroll_rows]. destruct (scroll_row_spec j (Z.to_nat MAX_XPOS) 0 l) as (l1 & -> & Hlen1 & Hl1 & Hm1);
    [lia | lia | unfold MAX_XPOS; lia | lia | done | ].
  rewrite bind_Ret_l. destruct (IH (j + 1) l1) as (l' & -> & Hlen' & Hl' & Hm'); [lia | lia | done | ].
  exists l'. split; [done | ]. split_and!; [congruence | done | ]. intros m. rewrite Hm', !Hm1.
  change (Z.of_nat (Z.to_nat MAX_XPOS)) with 80. repeat case_bool_decide; (done || lia).
Qed.

Lemma clear_row_spec j : ∀ n i l,
  0 ≤ j → 0 ≤ i → 80 * j + i + Z.of_nat n ≤ Z.of_nat (length l) → Forall word l →
  ∃ l', clear_row n j i l = Ret l' ∧ changed (80 * j + i) (Z.of_nat n) (λ _, Some 0x720) l l'.
Proof.
  induction n as [|n IH]; intros i l Hj Hi Hlen Hl; [exists l; split; [done | by apply changed_refl] | ].
  cbn [clear_row]. unfold MAX_XPOS. rewrite writew_Ret, bind_Ret_l by (done || lia).
  destruct (IH (i + 1) (<[Z.to_nat (80 * j + i):=0x720]> l)) as (l' & -> & Hc); [lia.. | | | ].
  { rewrite length_insert. lia. }
  { by apply Forall_insert. }
  exists l'. split; [done | ]. rewrite Nat2Z.inj_succ, <- Z.add_1_r.
  apply (changed_step _ _ _ _ _ 0x720); [lia | done | done | done | lia | ].
  by rewrite <- Z.add_assoc.
Qed.

Lemma scroll_spec s vram rest :
  cells s = vram ++ rest → length vram = 2000%nat → Forall word (cells s) →
  scroll s = Ret {| cells := (drop 80 vram ++ replicate 80 0x720) ++ rest; current_ypos := 24;
                    current_xpos := current_xpos s |}.
Proof.
  intros Hs Hv Hw. unfold scroll. assert (2000 ≤ length (cells s))%nat as Hlen by (rewrite Hs, length_app; lia).
  change (Z.to_nat (MAX_YPOS - 1)) with 24%nat. change (scroll_rows 24 1 0 (cells s)) with (scroll_rows 24 (0 + 1) 0 (cells s)).
  destruct (scroll_rows_spec 24 0 (cells s)) as (l1 & -> & Hlen1 & Hw1 & Hm1); [lia | lia | done | ].
  rewrite bind_Ret_l. change (Z.to_nat MAX_XPOS) with 80%nat. change (MAX_YPOS - 1) with 24.
  destruct (clear_row_spec 24 80 0 l1) as (l2 & -> & Hlen2 & Hw2 & Hm2); [lia | lia | lia | done | ].
  rewrite bind_Ret_l. unfold mret, outcome_ret. do 2 f_equal. apply list_eq. intros m. rewrite Hm2, Hm1.
  rewrite Hs. case_bool_decide as H1; [ | case_bool_decide as H2].
  - rewrite <- app_assoc, lookup_app_r, lookup_app_l, lookup_replicate_2; [done | ..];
      rewrite ?length_replicate, ?length_drop; lia.
  - rewrite lookup_app_l by lia. rewrite <- app_assoc, lookup_app_l by (rewrite length_drop; lia).
    rewrite lookup_drop. f_equal. lia.
  - rewrite !lookup_app_r; rewrite ?length_app, ?length_replicate, ?length_drop; try lia. f_equal. lia.
Qed.

(** *** The sheet of paper

    What is printed is typed on a sheet that grows by a row of 80 blank cells when the
    typing comes to its end, and never loses one. *)

Record paper := { sheet : list Z; row : nat; col : nat }.

(** The cell of a character: white on black for ASCII; the sign of the others fills the
    upper byte, the colours. *)
Definition glyph (c : byte) : Z := let n := byte.unsigned c in if n <? 128 then 0x700 + n else 0xff00 + n.

Definition blank_row : list Z := replicate 80 0x720.

Definition feed (p : paper) : paper :=
  if (length (sheet p) <=? 80 * row p)%nat then {| sheet := sheet p ++ blank_row; row := row p; col := col p |}
  else p.

Definition type_char (p : paper) (c : byte) : paper :=
  let p := feed p in
  if byte_eqb c Byte.x0a then {| sheet := sheet p; row := S (row p); col := 0 |}
  else if byte_eqb c Byte.x0d then p
  else
    let l := <[(80 * row p + col p)%nat := glyph c]> (sheet p) in
    if (S (col p) =? 80)%nat then {| sheet := l; row := S (row p); col := 0 |}
    else {| sheet := l; row := row p; col := S (col p) |}.

(** The sheet under the text memory, at the start. *)
Definition first_paper (vram : list Z) : paper := {| sheet := vram; row := 1; col := 0 |}.

(** The last 25 rows of the sheet. *)
Definition visible (p : paper) : list Z := drop (length (sheet p) - 2000) (sheet p).

(** The screen [s] shows the end of the paper [p], of which [k] rows are gone. *)
Record shows (rest : list Z) (p : paper) (s : screen) (k : nat) : Prop := {
  sh_length : length (sheet p) = (2000 + 80 * k)%nat;
  sh_cells : cells s = drop (80 * k) (sheet p) ++ rest;
  sh_row : Z.of_nat (row p) = current_ypos s + Z.of_nat k;
  sh_ypos : 0 ≤ current_ypos s ≤ 25;
  sh_col : Z.of_nat (col p) = current_xpos s;
  sh_xpos : (col p < 80)%nat;
  sh_word : Forall word (cells s)
}.

Lemma glyph_cell c :
  Z.lor (Z.shiftl 7 8) (char_value c `mod` 2 ^ 16) `mod` 2 ^ 16 = glyph c ∧ word (glyph c) ∧
  (char_value c =? 10) = byte_eqb c Byte.x0a ∧ (char_value c =? 13) = byte_eqb c Byte.x0d.
Proof. unfold word. destruct c; by vm_compute. Qed.

Lemma feed_shows rest p s k :
  shows rest p s k →
  ∃ s' k', (if MAX_YPOS <=? current_ypos s then scroll s else Ret s) = Ret s' ∧
    shows rest (feed p) s' k' ∧ current_ypos s' ≤ 24.
Proof.
  intros [Hl Hc Hr Hy Hcol Hx Hw]. unfold feed, MAX_YPOS. destruct (Z.leb_spec 25 (current_ypos s)) as [Hge | Hlt].
  - assert (current_ypos s = 25) as Hy25 by lia.
    destruct (Nat.leb_spec (length (sheet p)) (80 * row p)) as [_ | ]; [ | lia].
    rewrite (scroll_spec s (drop (80 * k) (sheet p)) rest); [ | done | rewrite length_drop; lia | done].
    eexists _, (S k). split; [done | ]. split; [ | simpl; lia].
    assert ((drop 80 (drop (80 * k) (sheet p)) ++ replicate 80 0x720) = drop (80 * S k) (sheet p ++ blank_row)) as Ed.
    { rewrite drop_drop, drop_app_le by lia. do 2 f_equal. lia. }
    rewrite Ed. constructor; cbn [sheet row col cells current_ypos current_xpos];
      [rewrite length_app; unfold blank_row; rewrite length_replicate; lia | done | lia | lia | done | done | ].
    rewrite Hc in Hw. apply Forall_app in Hw as [Hw1 Hw2]. apply Forall_app. split; [ | done].
    rewrite <- Ed. apply Forall_app. split; [by apply Forall_drop | by apply Forall_replicate].
  - destruct (Nat.leb_spec (length (sheet p)) (80 * row p)) as [ | _]; [lia | ].
    exists s, k. split; [done | ]. split; [by constructor | lia].
Qed.

Lemma putchar_vga_shows rest p s k c :
  shows rest p s k →
  ∃ s' k', putchar_vga true s (char_value c) = Ret s' ∧ shows rest (type_char p c) s' k'.
Proof.
  intros Hs. apply feed_shows in Hs as (s1 & k' & E & [Hl Hc Hr Hy Hcol Hx Hw] & Hy24).
  unfold putchar_vga, type_char. cbn [negb]. rewrite E, bind_Ret_l.
  destruct (glyph_cell c) as (Hg & Hgw & -> & ->).
  destruct (byte_eqb c Byte.x0a).
  { eexists _, k'. split; [done | ]. constructor; cbn [sheet row col cells current_ypos current_xpos]; (done || lia). }
  destruct (byte_eqb c Byte.x0d); cbn [negb].
  { exists s1, k'. split; [done | by constructor]. }
  set (q := feed p) in *. unfold MAX_XPOS.
  assert (Z.of_nat (length (cells s1)) = 2000 + Z.of_nat (length rest)) as Hlc by (rewrite Hc, length_app, length_drop; lia).
  unfold writew. destruct (Z.leb_spec 0 (80 * current_ypos s1 + current_xpos s1)); [ | lia].
  destruct (Z.ltb_spec (80 * current_ypos s1 + current_xpos s1) (Z.of_nat (length (cells s1)))); [ | lia].
  cbn [andb]. rewrite bind_Ret_l, Hg.
  assert (<[Z.to_nat (80 * current_ypos s1 + current_xpos s1):=glyph c]> (cells s1)
    = drop (80 * k') (<[(80 * row q + col q)%nat:=glyph c]> (sheet q)) ++ rest) as Ei.
  { rewrite Hc, insert_app_l by (rewrite length_drop; lia). f_equal.
    rewrite <- (take_drop (80 * k') (sheet q)) at 2. rewrite insert_app_r_alt by (rewrite length_take; lia).
    rewrite drop_app_length' by (rewrite length_take; lia). f_equal. rewrite length_take. lia. }
  rewrite Ei. destruct (Nat.eqb_spec (S (col q)) 80) as [Hlast | Hmid].
  - destruct (Z.leb_spec 80 (current_xpos s1 + 1)); [ | lia]. eexists _, k'. split; [done | ].
    constructor; cbn [sheet row col cells current_ypos current_xpos]; rewrite ?length_insert; try (done || lia).
    rewrite <- Ei. by apply Forall_insert.
  - destruct (Z.leb_spec 80 (current_xpos s1 + 1)); [lia | ]. eexists _, k'. split; [done | ].
    constructor; cbn [sheet row col cells current_ypos current_xpos]; rewrite ?length_insert; try (done || lia).
    rewrite <- Ei. by apply Forall_insert.
Qed.

(** ** The serial console *)

(** The bytes written to the ports. *)
Definition is_out (e : io) : bool := match e with Inb _ => false | _ => true end.
Definition outs (p : ports) : list io := List.filter is_out (done_io p).

(** An answer that says that the transmitter is ready and empty. *)
Definition ready (a : Z) : Prop := Z.land a 0x60 = 0x60.

Section serial_spec.
Context (base baud : Z).

(** What the initialisation writes, when the line control register holds [lcr]. *)
Definition init_outs (lcr : Z) : list io :=
  map (λ '(v, port), Outb (v `mod` 2 ^ 8) ((base + port) `mod` 2 ^ 16))
    ([(3, LCR); (0, IER); (0, FCR); (3, MCR); (Z.lor lcr DLAB, LCR)] ++
     (if baud =? 0 then [] else
        [(Z.land (115200 / baud) 0xff, DLL); (Z.land (Z.shiftr (115200 / baud) 8) 0xff, DLH)]) ++
     [(Z.land lcr (notw 32 DLAB), LCR)]).

(** A byte in the transmit register. *)
Definition sent (v : Z) : io := Outb (v `mod` 2 ^ 8) ((base + TBR) `mod` 2 ^ 16).

Lemma filter_app_out (l k : list io) : List.filter is_out (l ++ k) = List.filter is_out l ++ List.filter is_out k.
Proof. apply List.filter_app. Qed.

Lemma wait_for_post mask : ∀ fuel p,
  post (λ p', outs p' = outs p ∧ initialized p' = initialized p) (wait_for base fuel mask p).
Proof.
  induction fuel as [|fuel IH]; intros p; [done | ]. cbn [wait_for]. unfold inb.
  destruct (answers p) as [|a rest] eqn:Ea; [done | ]. rewrite bind_Ret_l. case_if; [ | ].
  - eapply post_weaken; [apply IH | ]. intros p' [Ho Hi]. rewrite Ho, Hi. unfold outs. cbn [done_io initialized].
    by rewrite filter_app_out, app_nil_r.
  - apply post_ret. unfold outs. cbn [done_io initialized]. by rewrite filter_app_out, app_nil_r.
Qed.

Lemma wait_ready mask p a rest :
  answers p = a :: rest → ready a → Z.land (a `mod` 2 ^ 8) mask ≠ 0 →
  ∃ p', wait base mask p = Ret p' ∧ answers p' = rest.
Proof.
  intros Ha _ Hm. unfold wait. cbn [wait_for]. unfold inb. rewrite Ha, bind_Ret_l.
  destruct (Z.eqb_spec (Z.land (a `mod` 2 ^ 8) mask) 0); [done | ]. by eexists.
Qed.

Lemma ready_bit a b : ready a → (b = 0x20 ∨ b = 0x40) → Z.land (a `mod` 2 ^ 8) b ≠ 0.
Proof.
  intros Ha Hb E. assert (Z.land 0x60 b = 0) as Hz.
  { rewrite <- Ha, <- Z.land_assoc, (Z.land_comm 0x60 b).
    replace (Z.land b 0x60) with (Z.land b 0x60) by done.
    rewrite <- (Z.land_ones a 8) in E by lia. destruct Hb as [-> | ->].
    - change (Z.land 0x20 0x60) with (Z.land (Z.ones 8) 0x20). by rewrite Z.land_assoc.
    - change (Z.land 0x40 0x60) with (Z.land (Z.ones 8) 0x40). by rewrite Z.land_assoc. }
  by destruct Hb as [-> | ->].
Qed.

Lemma tx_initialized v p :
  initialized p = true →
  post (λ p', outs p' = outs p ++ [sent v] ∧ initialized p' = true) (serial_tx_byte base baud v p) ∧
  (Forall ready (answers p) → (2 ≤ length (answers p))%nat →
   ∃ p', serial_tx_byte base baud v p = Ret p' ∧ answers p' = drop 2 (answers p)).
Proof.
  intros Hi. unfold serial_tx_byte, serial_init. rewrite Hi, bind_Ret_l. split.
  - eapply post_bind; [apply wait_for_post | ]. intros p1 [Ho1 Hi1].
    eapply post_weaken; [apply wait_for_post | ]. intros p2 [Ho2 Hi2]. rewrite Ho2, Hi2. unfold outs, outb in *.
    cbn [done_io initialized]. rewrite filter_app_out, Ho1, Hi1. by split.
  - intros Hr Hl. destruct (answers p) as [|a [|b rest]] eqn:Ea; [simpl in Hl; lia.. | ].
    apply Forall_cons_1 in Hr as [Ha Hr]. apply Forall_cons_1 in Hr as [Hb Hr].
    destruct (wait_ready 0x20 p a (b :: rest)) as (p1 & -> & E1); [done | done | by apply ready_bit; auto | ].
    rewrite bind_Ret_l. set (p1' := outb v (base + TBR) p1).
    destruct (wait_ready 0x40 p1' b rest) as (p2 & -> & E2); [done | done | by apply ready_bit; auto | ].
    exists p2. done.
Qed.

(** The characters with a carriage return before each end of line. *)
Definition crlf (s : list byte) : list Z :=
  concat (map (λ c, if byte_eqb c Byte.x0a then [13; 10] else [char_value c]) s).

Fixpoint serial_chars (s : list byte) (p : ports) : outcome ports :=
  match s with
  | [] => Ret p
  | c :: s => p ← putchar_serial true base baud (char_value c) p; serial_chars s p
  end.

Lemma putchar_initialized c p :
  initialized p = true →
  post (λ p', outs p' = outs p ++ map sent (crlf [c]) ∧ initialized p' = true)
    (putchar_serial true base baud (char_value c) p) ∧
  (Forall ready (answers p) → (4 ≤ length (answers p))%nat →
   ∃ p' n, putchar_serial true base baud (char_value c) p = Ret p' ∧ (n ≤ 4)%nat ∧ answers p' = drop n (answers p)).
Proof.
  intros Hi. unfold putchar_serial. cbn [negb]. destruct (glyph_cell c) as (_ & _ & -> & _).
  unfold crlf. cbn [map concat]. rewrite app_nil_r. destruct (byte_eqb c Byte.x0a) eqn:Ec.
  - apply byte_eqb_eq in Ec as ->. change (char_value Byte.x0a) with 10. destruct (tx_initialized 13 p Hi) as [Hpost Hret]. split.
    + eapply post_bind; [exact Hpost | ]. intros p1 [Ho1 Hi1].
      eapply post_weaken; [exact (proj1 (tx_initialized 10 p1 Hi1)) | ]. intros p2 [Ho2 Hi2].
      rewrite Ho2, Ho1, <- app_assoc. done.
    + intros Hr Hl. destruct Hret as (p1 & E1 & Ha1); [done | lia | ].
      assert (initialized p1 = true) as Hi1 by (by apply (Hpost p1 E1)). rewrite E1, bind_Ret_l.
      destruct (proj2 (tx_initialized 10 p1 Hi1)) as (p2 & E2 & Ha2).
      { rewrite Ha1. by apply Forall_drop. }
      { rewrite Ha1, length_drop. lia. }
      exists p2, 4%nat. split_and!; [done | lia | ]. rewrite Ha2, Ha1, drop_drop. done.
  - rewrite bind_Ret_l. destruct (tx_initialized (char_value c) p Hi) as [Hpost Hret]. split; [done | ].
    intros Hr Hl. destruct Hret as (p1 & E1 & Ha1); [done | lia | ]. exists p1, 2%nat. split_and!; [done | lia | done].
Qed.

Lemma chars_initialized s : ∀ p,
  initialized p = true →
  post (λ p', outs p' = outs p ++ map sent (crlf s) ∧ initialized p' = true) (serial_chars s p) ∧
  (Forall ready (answers p) → (4 * length s ≤ length (answers p))%nat → ∃ p', serial_chars s p = Ret p').
Proof.
  induction s as [|c s IH]; intros p Hi; cbn [serial_chars length].
  { split; [apply post_ret; by rewrite app_nil_r | by exists p]. }
  destruct (putchar_initialized c p Hi) as [Hpost Hret]. split.
  - eapply post_bind; [exact Hpost | ]. intros p1 [Ho Hi1]. eapply post_weaken; [apply (IH p1 Hi1) | ].
    intros p2 [Ho2 Hi2]. split; [ | done]. rewrite Ho2, Ho, <- app_assoc, <- map_app. do 2 f_equal.
    unfold crlf. cbn [map concat]. by rewrite app_nil_r.
  - intros Hr Hl. destruct Hret as (p1 & n & E1 & Hn & Ha); [done | lia | ].
    assert (initialized p1 = true) as Hi1 by (by apply (Hpost p1 E1)). rewrite E1, bind_Ret_l.
    apply (IH p1 Hi1); rewrite Ha; [by apply Forall_drop | rewrite length_drop; lia].
Qed.

(** The first character initialises the port. *)
Lemma chars_first c s p :
  initialized p = false →
  serial_chars (c :: s) p = (p ← serial_init base baud p; serial_chars (c :: s) p).
Proof.
  intros Hi. destruct (serial_init base baud p) as [p1 | | | ] eqn:E; cbn [mbind outcome_bind serial_chars].
  1: assert (initialized p1 = true) as Hi1.
  { unfold serial_init in E. rewrite Hi in E. apply bind_Ret in E as ([lcr p2] & _ & E). apply Ret_inj in E as <-. done. }
  1: assert (serial_init base baud p1 = Ret p1) as E1 by (unfold serial_init; by rewrite Hi1).
  all: unfold putchar_serial; cbn [negb]; destruct (char_value c =? 10); cbn [mbind outcome_bind];
    unfold serial_tx_byte; rewrite E, ?E1; done.
Qed.

Lemma init_spec p :
  initialized p = false →
  post (λ p', ∃ lcr, outs p' = outs p ++ init_outs lcr ∧ initialized p' = true) (serial_init base baud p) ∧
  (∀ a rest, answers p = a :: rest → ∃ p', serial_init base baud p = Ret p' ∧ answers p' = rest).
Proof.
  intros Hi. unfold serial_init. rewrite Hi. cbv zeta. split.
  - intros p' ([lcr p1] & Hin & E)%bind_Ret. apply Ret_inj in E as <-. exists lcr. split; [ | done].
    unfold inb in Hin. destruct (answers _) as [|a rest] in Hin; [done | ]. apply Ret_inj in Hin. injection Hin as <- <-.
    unfold outs, init_outs, outb, set_initialized. cbn [done_io].
    destruct (baud =? 0); cbn [done_io]; rewrite !filter_app_out; cbn; rewrite ?app_nil_r; by rewrite <- !app_assoc.
  - intros a rest Ha. unfold inb. cbn [outb answers]. rewrite Ha, bind_Ret_l.
    eexists. split; [done | ]. by destruct (baud =? 0).
Qed.

Lemma serial_prints s p :
  s ≠ [] → initialized p = false →
  post (λ p', ∃ lcr, outs p' = outs p ++ init_outs lcr ++ map sent (crlf s)) (serial_chars s p) ∧
  (Forall ready (answers p) → (4 * length s < length (answers p))%nat → ∃ p', serial_chars s p = Ret p').
Proof.
  intros Hs Hi. destruct s as [|c s]; [done | ]. rewrite chars_first by done.
  destruct (init_spec p Hi) as [Hpost Hret]. split.
  - eapply post_bind; [exact Hpost | ]. intros p1 (lcr & Ho & Hi1).
    eapply post_weaken; [apply (chars_initialized (c :: s) p1 Hi1) | ]. intros p2 [Ho2 _].
    exists lcr. by rewrite Ho2, Ho, <- app_assoc.
  - intros Hr Hl. destruct (answers p) as [|a rest] eqn:Ea; [simpl in Hl; lia | ].
    destruct (Hret a rest eq_refl) as (p1 & E1 & Ha). rewrite E1, bind_Ret_l.
    destruct (Hpost p1 E1) as (_ & _ & Hi1). apply (chars_initialized (c :: s) p1 Hi1); rewrite Ha.
    + by apply Forall_cons_1 in Hr as [_ Hr].
    + simpl in *. lia.
Qed.
End serial_spec.

(** ** Both consoles *)

Fixpoint vga_chars (s : list byte) (scr : screen) : outcome screen :=
  match s with
  | [] => Ret scr
  | c :: s => scr ← putchar_vga true scr (char_value c); vga_chars s scr
  end.

Lemma vga_chars_show rest text : ∀ p s k,
  shows rest p s k → ∃ s' k', vga_chars text s = Ret s' ∧ shows rest (foldl type_char p text) s' k'.
Proof.
  induction text as [|c text IH]; intros p s k Hs; cbn [vga_chars foldl]; [by exists s, k | ].
  destruct (putchar_vga_shows rest p s k c Hs) as (s1 & k1 & -> & Hs1). rewrite bind_Ret_l. by eapply IH.
Qed.

Lemma putchars_split cfg text : ∀ s s' p,
  console_vga cfg = true → console_serial cfg = true → vga_chars text s = Ret s' →
  putchars cfg (s, p) text
    = (p' ← serial_chars (serial_base cfg) (serial_baud cfg) text p; Ret (s', p')).
Proof.
  induction text as [|c text IH]; intros s s' p Hv Hse; cbn [vga_chars putchars serial_chars]; [by intros [= ->] | ].
  intros (s1 & H1 & Hs)%bind_Ret. unfold putchar. rewrite Hv, Hse. cbn [fst snd]. rewrite H1, bind_Ret_l.
  destruct (putchar_serial true _ _ _ p) as [p1 | | | ]; [ | done..]. rewrite !bind_Ret_l.
  cbn [mret outcome_ret mbind outcome_bind]. by apply IH.
Qed.

(** C23: with both consoles on, whatever is printed after the start: the text memory shows
    the last 25 rows of a sheet of paper on which the text was typed, and nothing beyond
    the 2000 cells of the screen changes; the serial port is initialised once and then
    gets every character in order, each end of line with a carriage return before it.
    Printing ends when the port is always ready. *)
Theorem console_prints cfg vram rest p text :
  console_vga cfg = true → console_serial cfg = true →
  length vram = 2000%nat → Forall word (vram ++ rest) → initialized p = false → text ≠ [] →
  let run := putchars cfg (first_screen (vram ++ rest), p) text in
  post (λ '(s, p'),
    cells s = visible (foldl type_char (first_paper vram) text) ++ rest ∧
    ∃ lcr, outs p' = outs p ++ init_outs (serial_base cfg) (serial_baud cfg) lcr
                     ++ map (sent (serial_base cfg)) (crlf text)) run ∧
  (Forall ready (answers p) → (4 * length text < length (answers p))%nat → returns run).
Proof.
  intros Hv Hse Hl Hw Hi Ht run.
  destruct (vga_chars_show rest text (first_paper vram) (first_screen (vram ++ rest)) 0) as (s' & k & Es & Hs).
  { constructor; cbn [sheet row col cells current_ypos current_xpos first_paper first_screen]; (done || lia). }
  unfold run. rewrite (putchars_split cfg text _ s') by done.
  destruct (serial_prints (serial_base cfg) (serial_baud cfg) text p Ht Hi) as [Hpost Hret]. split.
  - eapply post_bind; [exact Hpost | ]. intros p' Hp. apply post_ret. split; [ | exact Hp].
    rewrite (sh_cells _ _ _ _ Hs). unfold visible. rewrite (sh_length _ _ _ _ Hs). do 2 f_equal. lia.
  - intros Hr Hn. destruct (Hret Hr Hn) as (p' & ->). done.
Qed.

Module Witness.
#[local] Existing Instance i386.

Definition ds : list directive := [Lit Byte.x3a; Hex false m_hh; Lit Byte.x20; Hex true m_l; Lit Byte.x20; Dec m_none; Str].

Lemma printf_renders_witness :
  printf (bs ":%hhx %lX %d%s") [VNum 32 200; VNum 32 0xbeef; VNum 32 (-40); VStr (bs "!")]
    = Ret (bs ":c8 0000BEEF -40!").
Proof.
  apply (printf_renders ds); [ | by vm_compute].
  repeat apply Forall_cons_2; try apply Forall_nil_2; done.
Defined.

(** The comment of printf.c gives %lx 16 digits; on i386 it has 8. *)
Lemma long_digits_i386 : printf (bs "%lx") [VNum 32 42] = Ret (bs "0000002a").
Proof. vm_compute. reflexivity. Qed.

(** The prefix # of the comment is not there: it ends the conversion. *)
Lemma hash_prefix_missing : printf (bs "%#x") [VNum 32 42] = Ret (bs "#x").
Proof. vm_compute. reflexivity. Qed.

Definition blank : list Z := replicate 2000 0x720.
Definition port : ports := {| done_io := []; answers := replicate 100 0x60; initialized := false |}.
Definition cfg : console_config :=
  {| console_vga := true; console_serial := true; serial_base := 0x3f8; serial_baud := 9600 |}.
Definition text : list byte := bs "I'm in purgatory" ++ [newline].

Lemma console_prints_witness :
  ∃ s p', putchars cfg (first_screen blank, port) text = Ret (s, p') ∧
    cells s = visible (foldl type_char (first_paper blank) text) ∧
    ∃ lcr, outs p' = init_outs 0x3f8 9600 lcr ++ map (sent 0x3f8) (crlf text).
Proof.
  destruct (console_prints cfg blank [] port text) as [Hp Hr]; [done | done | by vm_compute | | done | done | ].
  { apply (bool_decide_eq_true_1 _). by vm_compute. }
  rewrite !app_nil_r in Hp, Hr. destruct (proj1 (returns_Ret _) (Hr ltac:(apply (bool_decide_eq_true_1 _); by vm_compute) ltac:(apply Nat.ltb_lt; by vm_compute))) as [[s p'] E].
  exists s, p'. split; [done | ]. destruct (Hp _ E) as [Hc Ho]. by split.
Defined.
End Witness.
