(* ===== verification/Elf.v ===== *)
(** Reading an ELF file: kexec-tools/kexec/kexec-elf.c.  The file is a byte list,
    [buf] the pointer to its copy in memory; a read past its end is undefined
    behaviour. *)

From Stdlib Require Import ZArith Lia String.
From stdpp Require Import base tactics list numbers.
From coqutil Require Import Byte.
From S2P Require Import Prelude Words CMem.

#[local] Open Scope Z_scope.

(** ** Data (kexec-elf.h) *)

Record mem_phdr := {
  p_paddr : Z; p_vaddr : Z; p_filesz : Z; p_memsz : Z; p_offset : Z;
  p_data : ptr;
  p_type : Z; p_flags : Z; p_align : Z
}.

Record mem_shdr := {
  sh_name : Z; sh_type : Z; sh_flags : Z; sh_addr : Z; sh_offset : Z; sh_size : Z;
  sh_link : Z; sh_info : Z; sh_addralign : Z; sh_entsize : Z;
  sh_data : ptr
}.

Record mem_note := { n_type : Z; n_descsz : Z; n_name : ptr; n_desc : ptr }.

(** The arrays are [None] for a null pointer. *)
Record mem_ehdr := {
  ei_class : Z; ei_data : Z;
  e_type : Z; e_machine : Z; e_version : Z; e_flags : Z;
  e_phnum : Z; e_shnum : Z; e_shstrndx : Z;
  e_entry : Z; e_phoff : Z; e_shoff : Z;
  e_phdr : option (list mem_phdr);
  e_shdr : option (list mem_shdr);
  e_note : option (list mem_note);
  rel_addr : Z; rel_size : Z
}.

Definition set_phdr (v : option (list mem_phdr)) (h : mem_ehdr) : mem_ehdr :=
  {| ei_class := ei_class h; ei_data := ei_data h; e_type := e_type h; e_machine := e_machine h;
     e_version := e_version h; e_flags := e_flags h; e_phnum := e_phnum h; e_shnum := e_shnum h;
     e_shstrndx := e_shstrndx h; e_entry := e_entry h; e_phoff := e_phoff h; e_shoff := e_shoff h;
     e_phdr := v; e_shdr := e_shdr h; e_note := e_note h;
     rel_addr := rel_addr h; rel_size := rel_size h |}.

Definition set_shdr (v : option (list mem_shdr)) (h : mem_ehdr) : mem_ehdr :=
  {| ei_class := ei_class h; ei_data := ei_data h; e_type := e_type h; e_machine := e_machine h;
     e_version := e_version h; e_flags := e_flags h; e_phnum := e_phnum h; e_shnum := e_shnum h;
     e_shstrndx := e_shstrndx h; e_entry := e_entry h; e_phoff := e_phoff h; e_shoff := e_shoff h;
     e_phdr := e_phdr h; e_shdr := v; e_note := e_note h;
     rel_addr := rel_addr h; rel_size := rel_size h |}.

Definition set_note (v : option (list mem_note)) (h : mem_ehdr) : mem_ehdr :=
  {| ei_class := ei_class h; ei_data := ei_data h; e_type := e_type h; e_machine := e_machine h;
     e_version := e_version h; e_flags := e_flags h; e_phnum := e_phnum h; e_shnum := e_shnum h;
     e_shstrndx := e_shstrndx h; e_entry := e_entry h; e_phoff := e_phoff h; e_shoff := e_shoff h;
     e_phdr := e_phdr h; e_shdr := e_shdr h; e_note := v;
     rel_addr := rel_addr h; rel_size := rel_size h |}.

(** ** Constants (elf.h) *)

Definition ELFMAG : list byte := [Byte.x7f; Byte.x45; Byte.x4c; Byte.x46].
Definition ELFCLASS32 := 1.
Definition ELFCLASS64 := 2.
Definition ELFDATA2LSB := 1.
Definition ELFDATA2MSB := 2.
Definition EV_CURRENT := 1.
Definition PT_NULL := 0.
Definition PT_LOAD := 1.
Definition PT_INTERP := 3.
Definition PT_NOTE := 4.
Definition SHT_SYMTAB := 2.
Definition SHT_RELA := 4.
Definition SHT_DYNAMIC := 6.
Definition SHT_NOTE := 7.
Definition SHT_NOBITS := 8.
Definition SHT_REL := 9.

(** ** Byte order *)

Section elf.
Context `{Arch}.

(** [le16_to_cpu], [be16_to_cpu] and the others (kexec.h), for values of [n]
    bytes; [cpu_to_le16] and the others are the same macros. *)
Definition le_to_cpu (n : nat) (v : Z) : Z := if host_be then bswap n v else v.
Definition be_to_cpu (n : nat) (v : Z) : Z := if host_be then v else bswap n v.

Definition elf_to_cpu (n : nat) (data v : Z) : Z :=
  if data =? ELFDATA2LSB then le_to_cpu n v
  else if data =? ELFDATA2MSB then be_to_cpu n v
  else v.

Definition elf16_to_cpu := elf_to_cpu 2.
Definition elf32_to_cpu := elf_to_cpu 4.
Definition elf64_to_cpu := elf_to_cpu 8.

Definition cpu_to_elf (n : nat) (data v : Z) : Z :=
  if data =? ELFDATA2LSB then le_to_cpu n v
  else if data =? ELFDATA2MSB then be_to_cpu n v
  else v.

Definition cpu_to_elf16 := cpu_to_elf 2.
Definition cpu_to_elf32 := cpu_to_elf 4.
Definition cpu_to_elf64 := cpu_to_elf 8.

(** [ELF64_MAX] is [ULONG_MAX] where that is smaller. *)
Definition elf_max_addr (ehdr : mem_ehdr) : Z :=
  if ei_class ehdr =? ELFCLASS32 then 0xffffffff
  else if ei_class ehdr =? ELFCLASS64
  then if ULONG_MAX <? 0xffffffffffffffff then ULONG_MAX else 0xffffffffffffffff
  else 0.

(** A field of [n] bytes at the offset [off] of a structure that [memcpy] filled:
    an integer in the byte order of the host. *)
Definition field (s : list byte) (off n : nat) : Z := combine host_be (take n (drop off s)).

(** ** The file header *)

Definition build_mem_elf32_ehdr (file : list byte) (cls data : Z) : outcome (option mem_ehdr) :=
  if Z.of_nat (length file) <? 52 then Ret None
  else
    lehdr ← read_at file 0 52;
    let h16 off := elf16_to_cpu data (field lehdr off 2) in
    let h32 off := elf32_to_cpu data (field lehdr off 4) in
    if negb (h16 40%nat =? 52) then Ret None
    else if (ULONG_MAX <? h32 24%nat) || (ULONG_MAX <? h32 28%nat) || (ULONG_MAX <? h32 32%nat)
    then Ret None
    else
      let ehdr := {|
        ei_class := cls; ei_data := data;
        e_type := h16 16%nat; e_machine := h16 18%nat; e_version := h32 20%nat;
        e_entry := h32 24%nat; e_phoff := h32 28%nat; e_shoff := h32 32%nat;
        e_flags := h32 36%nat; e_phnum := h16 44%nat; e_shnum := h16 48%nat;
        e_shstrndx := h16 50%nat;
        e_phdr := None; e_shdr := None; e_note := None; rel_addr := 0; rel_size := 0 |} in
      if (0 <? e_phnum ehdr) && negb (h16 42%nat =? 32) then Ret None
      else if (0 <? e_shnum ehdr) && negb (h16 46%nat =? 40) then Ret None
      else Ret (Some ehdr).

(** The range checks read the 64-bit fields with [elf32_to_cpu]. *)
Definition build_mem_elf64_ehdr (file : list byte) (cls data : Z) : outcome (option mem_ehdr) :=
  if Z.of_nat (length file) <? 64 then Ret None
  else
    lehdr ← read_at file 0 64;
    let h16 off := elf16_to_cpu data (field lehdr off 2) in
    let h32 off := elf32_to_cpu data (field lehdr off 4) in
    let h64 off := elf64_to_cpu data (field lehdr off 8) in
    let low off := elf32_to_cpu data (u32 (field lehdr off 8)) in
    if negb (h16 52%nat =? 64) then Ret None
    else if (ULONG_MAX <? low 24%nat) || (ULONG_MAX <? low 32%nat) || (ULONG_MAX <? low 40%nat)
    then Ret None
    else
      let ehdr := {|
        ei_class := cls; ei_data := data;
        e_type := h16 16%nat; e_machine := h16 18%nat; e_version := h32 20%nat;
        e_entry := ul (h64 24%nat); e_phoff := ul (h64 32%nat); e_shoff := ul (h64 40%nat);
        e_flags := h32 48%nat; e_phnum := h16 56%nat; e_shnum := h16 60%nat;
        e_shstrndx := h16 62%nat;
        e_phdr := None; e_shdr := None; e_note := None; rel_addr := 0; rel_size := 0 |} in
      if (0 <? e_phnum ehdr) && negb (h16 54%nat =? 56) then Ret None
      else if (0 <? e_shnum ehdr) && negb (h16 58%nat =? 64) then Ret None
      else Ret (Some ehdr).

(** [None] stands for a negative result. *)
Definition build_mem_ehdr (file : list byte) : outcome (option mem_ehdr) :=
  if Z.of_nat (length file) <? 16 then Ret None
  else
    e_ident ← read_at file 0 16;
    let id i := field e_ident i 1 in
    if negb (bool_decide (take 4 e_ident = ELFMAG)) then Ret None
    else
      let cls := id 4%nat in
      let data := id 5%nat in
      if negb (cls =? ELFCLASS32) && negb (cls =? ELFCLASS64) then Ret None
      else if negb (data =? ELFDATA2LSB) && negb (data =? ELFDATA2MSB) then Ret None
      else
        result ← (if cls =? ELFCLASS32 then build_mem_elf32_ehdr file cls data
                  else build_mem_elf64_ehdr file cls data);
        match result with
        | None => Ret None
        | Some ehdr =>
            if negb (id 6%nat =? EV_CURRENT) || negb (e_version ehdr =? EV_CURRENT)
            then Ret None else Ret (Some ehdr)
        end.

(** ** The program headers *)

Definition build_mem_elf32_phdr (file : list byte) (buf : ptr) (ehdr : mem_ehdr) (idx : nat)
    : outcome (option mem_phdr) :=
  lphdr ← read_at file (e_phoff ehdr + Z.of_nat idx * 32) 32;
  let h32 off := elf32_to_cpu (ei_data ehdr) (field lphdr off 4) in
  if (ULONG_MAX <? h32 16%nat) || (ULONG_MAX <? h32 20%nat) || (ULONG_MAX <? h32 4%nat)
     || (ULONG_MAX <? h32 12%nat) || (ULONG_MAX <? h32 8%nat) || (ULONG_MAX <? h32 28%nat)
  then Ret None
  else Ret (Some {|
    p_type := h32 0%nat; p_paddr := h32 12%nat; p_vaddr := h32 8%nat; p_filesz := h32 16%nat;
    p_memsz := h32 20%nat; p_offset := h32 4%nat; p_flags := h32 24%nat; p_align := h32 28%nat;
    p_data := buf |}).

Definition build_mem_elf64_phdr (file : list byte) (buf : ptr) (ehdr : mem_ehdr) (idx : nat)
    : outcome (option mem_phdr) :=
  lphdr ← read_at file (e_phoff ehdr + Z.of_nat idx * 56) 56;
  let h32 off := elf32_to_cpu (ei_data ehdr) (field lphdr off 4) in
  let h64 off := elf64_to_cpu (ei_data ehdr) (field lphdr off 8) in
  if (ULONG_MAX <? h64 32%nat) || (ULONG_MAX <? h64 40%nat) || (ULONG_MAX <? h64 8%nat)
     || (ULONG_MAX <? h64 24%nat) || (ULONG_MAX <? h64 16%nat) || (ULONG_MAX <? h64 48%nat)
  then Ret None
  else Ret (Some {|
    p_type := h32 0%nat; p_paddr := h64 24%nat; p_vaddr := h64 16%nat; p_filesz := h64 32%nat;
    p_memsz := h64 40%nat; p_offset := h64 8%nat; p_flags := h32 4%nat; p_align := u32 (h64 48%nat);
    p_data := buf |}).

Definition phdr_at_data (buf : ptr) (p : mem_phdr) : mem_phdr :=
  {| p_type := p_type p; p_paddr := p_paddr p; p_vaddr := p_vaddr p; p_filesz := p_filesz p;
     p_memsz := p_memsz p; p_offset := p_offset p; p_flags := p_flags p; p_align := p_align p;
     p_data := ptr_add buf (p_offset p) |}.

(** The loop over the program headers from the index [i] on, [n] of them left. *)
Fixpoint phdrs_from (file : list byte) (buf : ptr) (ehdr : mem_ehdr) (i n : nat)
    : outcome (option (list mem_phdr)) :=
  match n with
  | O => Ret (Some [])
  | S n =>
      result ← (if ei_class ehdr =? ELFCLASS32 then build_mem_elf32_phdr file buf ehdr i
                else if ei_class ehdr =? ELFCLASS64 then build_mem_elf64_phdr file buf ehdr i
                else Ret None);
      match result with
      | None => Ret None
      | Some phdr =>
          if Z.of_nat (length file) <? ul (p_offset phdr + p_filesz phdr) then Ret None
          else if ul (p_paddr phdr + p_memsz phdr) <? p_paddr phdr then Ret None
          else
            rest ← phdrs_from file buf ehdr (S i) n;
            mret (match rest with Some l => Some (phdr_at_data buf phdr :: l) | None => None end)
      end
  end.

Definition build_mem_phdrs (file : list byte) (buf : ptr) (ehdr : mem_ehdr)
    : outcome (option (list mem_phdr)) :=
  if negb (ei_class ehdr =? ELFCLASS32) && negb (ei_class ehdr =? ELFCLASS64) then Ret None
  else
    let phdr_size := (if ei_class ehdr =? ELFCLASS32 then 32 else 56) * e_phnum ehdr in
    if Z.of_nat (length file) <? ul (e_phoff ehdr + phdr_size) then Ret None
    else phdrs_from file buf ehdr 0 (Z.to_nat (e_phnum ehdr)).
(** ** The section headers *)

(** Whether [sh_entsize] is the one that the section's type asks for. *)
Definition size_ok (sym rela dyn rel : Z) (sh : mem_shdr) : bool :=
  if sh_type sh =? SHT_SYMTAB then sh_entsize sh =? sym
  else if sh_type sh =? SHT_RELA then sh_entsize sh =? rela
  else if sh_type sh =? SHT_DYNAMIC then sh_entsize sh =? dyn
  else if sh_type sh =? SHT_REL then sh_entsize sh =? rel
  else true.

Definition build_mem_elf32_shdr (file : list byte) (buf : ptr) (ehdr : mem_ehdr) (idx : nat)
    : outcome (option mem_shdr) :=
  lshdr ← read_at file (e_shoff ehdr + Z.of_nat idx * 40) 40;
  let h32 off := elf32_to_cpu (ei_data ehdr) (field lshdr off 4) in
  if (ULONG_MAX <? h32 8%nat) || (ULONG_MAX <? h32 12%nat) || (ULONG_MAX <? h32 16%nat)
     || (ULONG_MAX <? h32 20%nat) || (ULONG_MAX <? h32 32%nat) || (ULONG_MAX <? h32 36%nat)
  then Ret None
  else
    let shdr := {|
      sh_name := h32 0%nat; sh_type := h32 4%nat; sh_flags := h32 8%nat; sh_addr := h32 12%nat;
      sh_offset := h32 16%nat; sh_size := h32 20%nat; sh_link := h32 24%nat; sh_info := h32 28%nat;
      sh_addralign := h32 32%nat; sh_entsize := h32 36%nat; sh_data := buf |} in
    if negb (size_ok 16 12 8 8 shdr) then Ret None else Ret (Some shdr).

Definition build_mem_elf64_shdr (file : list byte) (buf : ptr) (ehdr : mem_ehdr) (idx : nat)
    : outcome (option mem_shdr) :=
  lshdr ← read_at file (e_shoff ehdr + Z.of_nat idx * 64) 64;
  let h32 off := elf32_to_cpu (ei_data ehdr) (field lshdr off 4) in
  let h64 off := elf64_to_cpu (ei_data ehdr) (field lshdr off 8) in
  if (ULONG_MAX <? h64 8%nat) || (ULONG_MAX <? h64 16%nat) || (ULONG_MAX <? h64 24%nat)
     || (ULONG_MAX <? h64 32%nat) || (ULONG_MAX <? h64 48%nat) || (ULONG_MAX <? h64 56%nat)
  then Ret None
  else
    let shdr := {|
      sh_name := h32 0%nat; sh_type := h32 4%nat; sh_flags := h64 8%nat; sh_addr := h64 16%nat;
      sh_offset := h64 24%nat; sh_size := h64 32%nat; sh_link := h32 40%nat; sh_info := h32 44%nat;
      sh_addralign := h64 48%nat; sh_entsize := h64 56%nat; sh_data := buf |} in
    if negb (size_ok 24 24 16 16 shdr) then Ret None else Ret (Some shdr).

Definition shdr_set_data (p : ptr) (s : mem_shdr) : mem_shdr :=
  {| sh_name := sh_name s; sh_type := sh_type s; sh_flags := sh_flags s; sh_addr := sh_addr s;
     sh_offset := sh_offset s; sh_size := sh_size s; sh_link := sh_link s; sh_info := sh_info s;
     sh_addralign := sh_addralign s; sh_entsize := sh_entsize s; sh_data := p |}.

Fixpoint shdrs_from (file : list byte) (buf : ptr) (ehdr : mem_ehdr) (i n : nat)
    : outcome (option (list mem_shdr)) :=
  match n with
  | O => Ret (Some [])
  | S n =>
      result ← (if ei_class ehdr =? ELFCLASS32 then build_mem_elf32_shdr file buf ehdr i
                else if ei_class ehdr =? ELFCLASS64 then build_mem_elf64_shdr file buf ehdr i
                else Ret None);
      match result with
      | None => Ret None
      | Some shdr =>
          if negb (sh_type shdr =? SHT_NOBITS)
             && (Z.of_nat (length file) <? ul (sh_offset shdr + sh_size shdr)) then Ret None
          else if ul (sh_addr shdr + sh_size shdr) <? sh_addr shdr then Ret None
          else
            rest ← shdrs_from file buf ehdr (S i) n;
            mret (match rest with
                  | Some l => Some (shdr_set_data (ptr_add buf (sh_offset shdr)) shdr :: l)
                  | None => None
                  end)
      end
  end.

Definition build_mem_shdrs (file : list byte) (buf : ptr) (ehdr : mem_ehdr)
    : outcome (option (list mem_shdr)) :=
  if negb (ei_class ehdr =? ELFCLASS32) && negb (ei_class ehdr =? ELFCLASS64) then Ret None
  else
    let shdr_size := (if ei_class ehdr =? ELFCLASS32 then 40 else 64) * e_shnum ehdr in
    if Z.of_nat (length file) <? ul (e_shoff ehdr + shdr_size) then Ret None
    else shdrs_from file buf ehdr 0 (Z.to_nat (e_shnum ehdr)).

(** ** The notes *)

(** The header of the note at the offset [note] of the file: [n_namesz],
    [n_descsz] and [n_type]. *)
Definition read_nhdr (file : list byte) (ehdr : mem_ehdr) (note : Z) : outcome (Z * Z * Z) :=
  hdr ← read_at file note 12;
  let h32 off := elf32_to_cpu (ei_data ehdr) (field hdr off 4) in
  mret (h32 0%nat, h32 4%nat, h32 8%nat).

(** [(x + 3) & ~3] on [uint32_t]. *)
Definition up4 (x : Z) : Z := Z.land (u32 (x + 3)) (notw 32 3).

Definition note_bytes (namesz descsz : Z) : Z := ul (12 + up4 namesz + up4 descsz).

(** The walk that counts the notes.  A note has at least 12 bytes, unless its size
    wraps around to 0: then the walk never ends. *)
Fixpoint count_notes (fuel : nat) (file : list byte) (ehdr : mem_ehdr) (note note_end : Z)
    : outcome nat :=
  match fuel with
  | O => Spin
  | S fuel =>
      if note <? note_end then
        '(namesz, descsz, _) ← read_nhdr file ehdr note;
        n ← count_notes fuel file ehdr (note + note_bytes namesz descsz) note_end;
        mret (S n)
      else Ret 0%nat
  end.

(** The walk that normalizes the notes. *)
Fixpoint normalize_notes (fuel : nat) (file : list byte) (buf : ptr) (ehdr : mem_ehdr)
    (note note_end : Z) : outcome (list mem_note) :=
  match fuel with
  | O => Spin
  | S fuel =>
      if note <? note_end then
        '(namesz, descsz, ty) ← read_nhdr file ehdr note;
        let name := note + 12 in
        let desc := note + ul (12 + up4 namesz) in
        '() ← (if negb (namesz =? 0) then
                 c ← read_at file (name + namesz - 1) 1;
                 if bool_decide (c = [Byte.x00]) then Ret ()
                 else Die "Note name is not null termiated"
               else Ret ());
        l ← normalize_notes fuel file buf ehdr (note + note_bytes namesz descsz) note_end;
        mret ({| n_type := ty; n_descsz := descsz; n_name := ptr_add buf name;
                 n_desc := ptr_add buf desc |} :: l)
      else Ret []
  end.

(** The first of the first [n] entries of a kind; [i < n] entries are read even
    where the array is a null pointer. *)
Definition find_note {A} (arr : option (list A)) (n : Z) (is_note : A → bool) : outcome (option A) :=
  match arr with
  | None => if 0 <? n then UB "null pointer dereference" else Ret None
  | Some l => Ret (List.find is_note l)
  end.

Definition build_mem_notes (file : list byte) (buf : ptr) (ehdr : mem_ehdr) : outcome mem_ehdr :=
  ph ← find_note (e_phdr ehdr) (e_phnum ehdr) (λ p, p_type p =? PT_NOTE);
  range ← match ph with
    | Some p => Ret (Some (p_offset p, p_offset p + p_filesz p))
    | None =>
        sh ← find_note (e_shdr ehdr) (e_shnum ehdr) (λ s, sh_type s =? SHT_NOTE);
        mret (match sh with
              | Some s => Some (sh_offset s, sh_offset s + sh_size s)
              | None => None
              end)
    end;
  match range with
  | None => Ret ehdr
  | Some (note_start, note_end) =>
      let fuel := S (Z.to_nat (note_end - note_start)) in
      n ← count_notes fuel file ehdr note_start note_end;
      notes ← normalize_notes fuel file buf ehdr note_start note_end;
      mret (set_note (Some notes) ehdr)
  end.

(** ** The whole file *)

Definition build_elf_info (file : list byte) (buf : ptr) : outcome (option mem_ehdr) :=
  result ← build_mem_ehdr file;
  match result with
  | None => Ret None
  | Some ehdr =>
      ph ← (if (0 <? e_phoff ehdr) && (0 <? e_phnum ehdr)
            then ph ← build_mem_phdrs file buf ehdr;
                 mret (match ph with Some l => Some (Some l) | None => None end)
            else Ret (Some None));
      match ph with
      | None => Ret None
      | Some ph =>
          let ehdr := set_phdr ph ehdr in
          sh ← (if (0 <? e_shoff ehdr) && (0 <? e_shnum ehdr)
                then sh ← build_mem_shdrs file buf ehdr;
                     mret (match sh with Some l => Some (Some l) | None => None end)
                else Ret (Some None));
          match sh with
          | None => Ret None
          | Some sh =>
              ehdr ← build_mem_notes file buf (set_shdr sh ehdr);
              mret (Some ehdr)
          end
      end
  end.
End elf.
