(* ===== verification/ElfSpec.v ===== *)
(** What the ELF reader promises: fields come out right whatever the byte orders
    of the host and of the file, an accepted program header lies in the file, a
    header that is written down is read back; and where the reader leaves the
    file. *)

From Stdlib Require Import ZArith Lia String.
From stdpp Require Import base tactics list numbers.
From coqutil Require Import Byte.
From S2P Require Import Prelude Words CMem Elf.

#[local] Open Scope Z_scope.

Section elf.
Context `{Arch}.

(** ** Byte order *)

Definition valid_data (data : Z) : Prop := data = ELFDATA2LSB ∨ data = ELFDATA2MSB.

Definition msb (data : Z) : bool := data =? ELFDATA2MSB.

Lemma elf_to_cpu_combine data l :
  valid_data data → elf_to_cpu (length l) data (combine host_be l) = combine (msb data) l.
Proof.
  unfold elf_to_cpu, le_to_cpu, be_to_cpu, msb. intros [-> | ->]; simpl.
  - pose proof (bswap_combine true l) as Hb. destruct host_be; [apply Hb | done].
  - pose proof (bswap_combine false l) as Hb. destruct host_be; [done | apply Hb].
Qed.

Lemma field_length (s : list byte) off n : (off + n ≤ length s)%nat → length (take n (drop off s)) = n.
Proof. intros. rewrite length_take, length_drop. lia. Qed.

(** A field in the byte order of the file. *)
Lemma field_spec n data s off :
  valid_data data → (off + n ≤ length s)%nat →
  elf_to_cpu n data (field s off n) = combine (msb data) (take n (drop off s)).
Proof.
  intros Hd Hn. unfold field. rewrite <- (elf_to_cpu_combine data) by done.
  by rewrite field_length.
Qed.

Lemma bswap_range n z : 0 ≤ bswap n z < 2 ^ (8 * Z.of_nat n).
Proof.
  unfold bswap. pose proof (combine_range true (LittleEndianList.le_split n z)) as Hr.
  unfold combine in Hr. by rewrite LittleEndianList.length_le_split in Hr.
Qed.

Lemma bswap_bswap n z : 0 ≤ z < 2 ^ (8 * Z.of_nat n) → bswap n (bswap n z) = z.
Proof.
  intros Hz. pose proof (bswap_combine true (LittleEndianList.le_split n z)) as Hb.
  rewrite LittleEndianList.length_le_split in Hb. unfold bswap at 2.
  change (be_combine (LittleEndianList.le_split n z))
    with (combine true (LittleEndianList.le_split n z)).
  rewrite Hb. unfold combine, negb. rewrite LittleEndianList.le_combine_split.
  apply Z.mod_small. by rewrite Z.mul_comm.
Qed.

(** Converting to the file's byte order and back. *)
Lemma elf_to_cpu_inv n data v :
  0 ≤ v < 2 ^ (8 * Z.of_nat n) → elf_to_cpu n data (cpu_to_elf n data v) = v.
Proof.
  intros Hv. unfold elf_to_cpu, cpu_to_elf, le_to_cpu, be_to_cpu.
  destruct (data =? ELFDATA2LSB), (data =? ELFDATA2MSB), host_be; try done; by apply bswap_bswap.
Qed.

Lemma elf_to_cpu_range n data s off :
  (off + n ≤ length s)%nat → 0 ≤ elf_to_cpu n data (field s off n) < 2 ^ (8 * Z.of_nat n).
Proof.
  intros Hn. assert (0 ≤ field s off n < 2 ^ (8 * Z.of_nat n)) as Hf.
  { unfold field. pose proof (combine_range host_be (take n (drop off s))) as Hr.
    by rewrite field_length in Hr. }
  unfold elf_to_cpu, le_to_cpu, be_to_cpu.
  destruct (data =? ELFDATA2LSB), (data =? ELFDATA2MSB), host_be; try done; apply bswap_range.
Qed.
(** ** Round trip of the file header *)

(** The chunks of a file header, in the byte order of the file. *)
Definition ident (cls data : Z) : list (list byte) :=
  [ELFMAG; [byte.of_Z cls]; [byte.of_Z data]; [Byte.x01]; replicate 9 Byte.x00].

Definition chunks32 (h : mem_ehdr) : list (list byte) :=
  let s := split (msb (ei_data h)) in
  ident (ei_class h) (ei_data h) ++
  [s 2%nat (e_type h); s 2%nat (e_machine h); s 4%nat (e_version h); s 4%nat (e_entry h);
   s 4%nat (e_phoff h); s 4%nat (e_shoff h); s 4%nat (e_flags h); s 2%nat 52; s 2%nat 32;
   s 2%nat (e_phnum h); s 2%nat 40; s 2%nat (e_shnum h); s 2%nat (e_shstrndx h)].

Definition chunks64 (h : mem_ehdr) : list (list byte) :=
  let s := split (msb (ei_data h)) in
  ident (ei_class h) (ei_data h) ++
  [s 2%nat (e_type h); s 2%nat (e_machine h); s 4%nat (e_version h); s 8%nat (e_entry h);
   s 8%nat (e_phoff h); s 8%nat (e_shoff h); s 4%nat (e_flags h); s 2%nat 64; s 2%nat 56;
   s 2%nat (e_phnum h); s 2%nat 64; s 2%nat (e_shnum h); s 2%nat (e_shstrndx h)].

Definition encode_ehdr (h : mem_ehdr) : list byte :=
  concat (if ei_class h =? ELFCLASS32 then chunks32 h else chunks64 h).

(** A header as it stands before the tables are read; [n] is the size of its
    addresses. *)
Record wf_ehdr (n : Z) (h : mem_ehdr) : Prop := {
  we_data : valid_data (ei_data h);
  we_version : e_version h = EV_CURRENT;
  we_half : Forall (λ v, 0 ≤ v < 2 ^ 16)
              [e_type h; e_machine h; e_phnum h; e_shnum h; e_shstrndx h];
  we_flags : 0 ≤ e_flags h < 2 ^ 32;
  we_addr : Forall (λ v, 0 ≤ v < 2 ^ n ∧ v ≤ ULONG_MAX) [e_entry h; e_phoff h; e_shoff h];
  we_null : e_phdr h = None ∧ e_shdr h = None ∧ e_note h = None ∧ rel_addr h = 0 ∧ rel_size h = 0
}.

Lemma chunk_lookup (chunks : list (list byte)) i c off :
  chunks !! i = Some c → off = length (concat (take i chunks)) →
  take (length c) (drop off (concat chunks)) = c.
Proof.
  intros Hi ->. rewrite <- (take_drop_middle chunks i c Hi) at 2.
  rewrite concat_app. cbn [concat]. rewrite drop_app_length. apply take_app_length.
Qed.

Lemma read_chunk n data chunks i off v :
  valid_data data → chunks !! i = Some (split (msb data) n v) →
  off = length (concat (take i chunks)) → 0 ≤ v < 2 ^ (8 * Z.of_nat n) →
  elf_to_cpu n data (field (concat chunks) off n) = v.
Proof.
  intros Hd Hi Hoff Hv. pose proof (chunk_lookup chunks i _ off Hi Hoff) as Hc.
  rewrite length_split in Hc. unfold field. rewrite Hc.
  pose proof (elf_to_cpu_combine data (split (msb data) n v) Hd) as He.
  rewrite length_split in He. rewrite He, combine_split, Z.mul_comm.
  by apply Z.mod_small.
Qed.

Lemma length_chunks (h : mem_ehdr) :
  length (concat (chunks32 h)) = 52%nat ∧ length (concat (chunks64 h)) = 64%nat.
Proof.
  rewrite !length_concat_sum. unfold chunks32, chunks64. cbn [app ident map].
  by rewrite !length_split.
Qed.

Lemma read_at_prefix n (a b : list byte) :
  length a = Z.to_nat n → 0 ≤ n → read_at (a ++ b) 0 n = Ret a.
Proof.
  intros Hl Hn. apply read_at_Ret. rewrite length_app. split_and!; try lia.
  rewrite <- Hl, drop_0. by rewrite take_app_length.
Qed.

End elf.

(** Where a chunk of a header starts. *)
Ltac chunk_offset :=
  rewrite length_concat_sum; cbn [chunks32 chunks64 ident app take map];
  rewrite ?length_split; reflexivity.

(** The field at an offset is the chunk with this index. *)
Ltac read_field n data chunks i off v :=
  rewrite (read_chunk n data chunks i off v); [ | assumption | reflexivity | chunk_offset | lia ].

Section roundtrip.
Context `{Arch}.

Lemma build_mem_elf32_ehdr_encode h rest :
  wf_ehdr 32 h → ei_class h = ELFCLASS32 →
  build_mem_elf32_ehdr (concat (chunks32 h) ++ rest) ELFCLASS32 (ei_data h) = Ret (Some h).
Proof.
  intros [Hd Hver Hhalf Hflags Haddr (Hp & Hsh & Hn & Hra & Hrs)] Hcls. unfold build_mem_elf32_ehdr.
  destruct (length_chunks h) as [Hl _]. rewrite length_app, Hl.
  destruct (Z.ltb_spec (Z.of_nat (52 + length rest)) 52); [lia | ].
  rewrite read_at_prefix by (rewrite ?Hl; done || lia). rewrite bind_Ret_l. cbv zeta.
  repeat match goal with Hf : Forall _ (_ :: _) |- _ => apply Forall_cons_1 in Hf as [? Hf] end.
  assert (0 ≤ e_version h < 2 ^ 32) by (rewrite Hver; done).
  unfold elf16_to_cpu, elf32_to_cpu.
  read_field 2%nat (ei_data h) (chunks32 h) 12%nat 40%nat 52.
  read_field 2%nat (ei_data h) (chunks32 h) 13%nat 42%nat 32.
  read_field 2%nat (ei_data h) (chunks32 h) 15%nat 46%nat 40.
  read_field 2%nat (ei_data h) (chunks32 h) 5%nat 16%nat (e_type h).
  read_field 2%nat (ei_data h) (chunks32 h) 6%nat 18%nat (e_machine h).
  read_field 4%nat (ei_data h) (chunks32 h) 7%nat 20%nat (e_version h).
  read_field 4%nat (ei_data h) (chunks32 h) 8%nat 24%nat (e_entry h).
  read_field 4%nat (ei_data h) (chunks32 h) 9%nat 28%nat (e_phoff h).
  read_field 4%nat (ei_data h) (chunks32 h) 10%nat 32%nat (e_shoff h).
  read_field 4%nat (ei_data h) (chunks32 h) 11%nat 36%nat (e_flags h).
  read_field 2%nat (ei_data h) (chunks32 h) 14%nat 44%nat (e_phnum h).
  read_field 2%nat (ei_data h) (chunks32 h) 16%nat 48%nat (e_shnum h).
  read_field 2%nat (ei_data h) (chunks32 h) 17%nat 50%nat (e_shstrndx h).
  cbn [Z.eqb Pos.eqb negb]. rewrite !(proj2 (Z.ltb_ge ULONG_MAX _)) by lia. cbn [orb].
  rewrite !andb_false_r. destruct h; simpl in *; subst; done.
Qed.
Lemma low_word_fits data v : (ULONG_MAX <? elf_to_cpu 4 data (u32 v)) = false.
Proof.
  apply Z.ltb_ge. unfold ULONG_MAX. pose proof ulong_mod_ge. pose proof (u32_range v).
  assert (∀ z, bswap 4 z < 2 ^ 32) as Hb by (intros z; pose proof (bswap_range 4 z); lia).
  unfold elf_to_cpu, le_to_cpu, be_to_cpu.
  destruct (data =? ELFDATA2LSB), (data =? ELFDATA2MSB), host_be;
    try (specialize (Hb (u32 v))); lia.
Qed.

Lemma build_mem_elf64_ehdr_encode h rest :
  wf_ehdr 64 h → ei_class h = ELFCLASS64 →
  build_mem_elf64_ehdr (concat (chunks64 h) ++ rest) ELFCLASS64 (ei_data h) = Ret (Some h).
Proof.
  intros [Hd Hver Hhalf Hflags Haddr (Hp & Hsh & Hn & Hra & Hrs)] Hcls. unfold build_mem_elf64_ehdr.
  destruct (length_chunks h) as [_ Hl]. rewrite length_app, Hl.
  destruct (Z.ltb_spec (Z.of_nat (64 + length rest)) 64); [lia | ].
  rewrite read_at_prefix by (rewrite ?Hl; done || lia). rewrite bind_Ret_l. cbv zeta.
  repeat match goal with Hf : Forall _ (_ :: _) |- _ => apply Forall_cons_1 in Hf as [? Hf] end.
  assert (0 ≤ e_version h < 2 ^ 32) by (rewrite Hver; done).
  unfold elf16_to_cpu, elf32_to_cpu, elf64_to_cpu. rewrite !low_word_fits.
  read_field 2%nat (ei_data h) (chunks64 h) 12%nat 52%nat 64.
  read_field 2%nat (ei_data h) (chunks64 h) 13%nat 54%nat 56.
  read_field 2%nat (ei_data h) (chunks64 h) 15%nat 58%nat 64.
  read_field 2%nat (ei_data h) (chunks64 h) 5%nat 16%nat (e_type h).
  read_field 2%nat (ei_data h) (chunks64 h) 6%nat 18%nat (e_machine h).
  read_field 4%nat (ei_data h) (chunks64 h) 7%nat 20%nat (e_version h).
  read_field 8%nat (ei_data h) (chunks64 h) 8%nat 24%nat (e_entry h).
  read_field 8%nat (ei_data h) (chunks64 h) 9%nat 32%nat (e_phoff h).
  read_field 8%nat (ei_data h) (chunks64 h) 10%nat 40%nat (e_shoff h).
  read_field 4%nat (ei_data h) (chunks64 h) 11%nat 48%nat (e_flags h).
  read_field 2%nat (ei_data h) (chunks64 h) 14%nat 56%nat (e_phnum h).
  read_field 2%nat (ei_data h) (chunks64 h) 16%nat 60%nat (e_shnum h).
  read_field 2%nat (ei_data h) (chunks64 h) 17%nat 62%nat (e_shstrndx h).
  cbn [Z.eqb Pos.eqb negb orb]. rewrite !andb_false_r, !ul_id by lia.
  destruct h; simpl in *; subst; done.
Qed.

(** The identification bytes. *)
Lemma ident_byte i (b : byte) (chunks : list (list byte)) :
  take 1 (drop i (concat chunks)) = [b] → field (concat chunks) i 1 = byte.unsigned b.
Proof.
  intros E. unfold field. rewrite E. unfold combine, be_combine. cbn [rev app].
  unfold LittleEndianList.le_combine. rewrite Z.shiftl_0_l, Z.lor_0_r. by destruct host_be.
Qed.

Lemma build_mem_ehdr_encode h rest :
  ei_class h = ELFCLASS32 ∧ wf_ehdr 32 h ∨ ei_class h = ELFCLASS64 ∧ wf_ehdr 64 h →
  build_mem_ehdr (encode_ehdr h ++ rest) = Ret (Some h).
Proof.
  intros Hwf. unfold encode_ehdr.
  set (body := if ei_class h =? ELFCLASS32 then chunks32 h else chunks64 h).
  assert (∃ tl, concat body = concat (ident (ei_class h) (ei_data h)) ++ tl) as [tl Htl].
  { subst body. unfold chunks32, chunks64. case_if; rewrite concat_app; by eexists. }
  assert (length (concat (ident (ei_class h) (ei_data h))) = 16%nat) as H16 by reflexivity.
  assert (valid_data (ei_data h)) as Hdata by (destruct Hwf as [[_ []] | [_ []]]; done).
  assert (e_version h = EV_CURRENT) as Hver by (destruct Hwf as [[_ []] | [_ []]]; done).
  unfold build_mem_ehdr. rewrite Htl, <- app_assoc, length_app, H16.
  destruct (Z.ltb_spec (Z.of_nat (16 + length (tl ++ rest))) 16); [lia | ].
  rewrite read_at_prefix by (rewrite ?H16; done || lia). rewrite bind_Ret_l. cbv zeta.
  set (id := ident (ei_class h) (ei_data h)).
  rewrite (ident_byte 4 (byte.of_Z (ei_class h)) id) by reflexivity.
  rewrite (ident_byte 5 (byte.of_Z (ei_data h)) id) by reflexivity.
  rewrite (ident_byte 6 Byte.x01 id) by reflexivity. subst id.
  replace (byte.unsigned (byte.of_Z (ei_data h))) with (ei_data h)
    by (destruct Hdata as [-> | ->]; reflexivity).
  replace (bool_decide (take 4 (concat (ident (ei_class h) (ei_data h))) = ELFMAG)) with true
    by reflexivity.
  rewrite app_assoc, <- Htl. subst body.
  replace (negb (ei_data h =? ELFDATA2LSB) && negb (ei_data h =? ELFDATA2MSB)) with false
    by (destruct Hdata as [-> | ->]; reflexivity).
  destruct Hwf as [[Hcls Hwf] | [Hcls Hwf]]; rewrite Hcls; cbn [negb].
  - change (byte.unsigned (byte.of_Z ELFCLASS32)) with ELFCLASS32. cbn [Z.eqb Pos.eqb ELFCLASS32 negb andb].
    rewrite build_mem_elf32_ehdr_encode by done. rewrite bind_Ret_l, Hver. done.
  - change (byte.unsigned (byte.of_Z ELFCLASS64)) with ELFCLASS64. cbn [Z.eqb Pos.eqb ELFCLASS64 ELFCLASS32 negb andb].
    rewrite build_mem_elf64_ehdr_encode by done. rewrite bind_Ret_l, Hver. done.
Qed.
End roundtrip.

(** ** Accepted tables lie in the file *)

Section tables.
Context `{Arch}.

(** A segment whose bytes are in a file of [len] bytes and whose addresses do not
    wrap around. *)
Record phdr_ok (len : Z) (buf : ptr) (p : mem_phdr) : Prop := {
  po_nonneg : 0 ≤ p_offset p ∧ 0 ≤ p_filesz p ∧ 0 ≤ p_paddr p ∧ 0 ≤ p_memsz p;
  po_in_file : p_offset p + p_filesz p ≤ len;
  po_no_wrap : p_paddr p + p_memsz p ≤ ULONG_MAX;
  po_data : p_data p = ptr_add buf (p_offset p)
}.

Record shdr_ok (len : Z) (buf : ptr) (s : mem_shdr) : Prop := {
  so_nonneg : 0 ≤ sh_offset s ∧ 0 ≤ sh_size s ∧ 0 ≤ sh_addr s;
  so_in_file : sh_type s ≠ SHT_NOBITS → sh_offset s + sh_size s ≤ len;
  so_no_wrap : sh_addr s + sh_size s ≤ ULONG_MAX;
  so_data : sh_data s = ptr_add buf (sh_offset s)
}.

Lemma field32_range data s off :
  length s ≠ 0%nat → (off + 4 ≤ length s)%nat →
  0 ≤ elf32_to_cpu data (field s off 4) < 2 ^ 32.
Proof. intros _ Hn. apply (elf_to_cpu_range 4 data s off Hn). Qed.

Lemma sum32_no_wrap a b :
  ulong_bits = 64 → 0 ≤ a < 2 ^ 32 → 0 ≤ b < 2 ^ 32 → ul (a + b) = a + b ∧ a + b ≤ ULONG_MAX.
Proof. intros Hb Ha Hc. unfold ULONG_MAX. rewrite Hb. rewrite ul_small; rewrite ?Hb; lia. Qed.

Lemma build_mem_elf32_phdr_spec file buf h idx :
  ulong_bits = 64 → 0 ≤ e_phoff h →
  e_phoff h + Z.of_nat idx * 32 + 32 ≤ Z.of_nat (length file) →
  ∃ r, build_mem_elf32_phdr file buf h idx = Ret r ∧
    ∀ p, r = Some p →
      0 ≤ p_offset p < 2 ^ 32 ∧ 0 ≤ p_filesz p < 2 ^ 32 ∧ 0 ≤ p_paddr p < 2 ^ 32 ∧
      0 ≤ p_memsz p < 2 ^ 32.
Proof.
  intros Hb Hoff Hlen. unfold build_mem_elf32_phdr.
  set (l := take 32 (drop (Z.to_nat (e_phoff h + Z.of_nat idx * 32)) file)).
  assert (read_at file (e_phoff h + Z.of_nat idx * 32) 32 = Ret l) as Hr
    by (apply read_at_Ret; split_and!; done || lia).
  pose proof (read_at_length _ _ _ _ Hr) as Hl. rewrite Hr, bind_Ret_l. cbv zeta.
  case_if; eexists; (split; [reflexivity | ]); intros p; [done | intros [= <-]; simpl].
  split_and!; apply field32_range; lia.
Qed.

Lemma phdrs_from_safe file buf h n : ∀ i,
  ulong_bits = 64 → ei_class h = ELFCLASS32 → 0 ≤ e_phoff h →
  e_phoff h + 32 * Z.of_nat (i + n) ≤ Z.of_nat (length file) →
  ∃ r, phdrs_from file buf h i n = Ret r ∧
    ∀ l, r = Some l → length l = n ∧ Forall (phdr_ok (Z.of_nat (length file)) buf) l.
Proof.
  induction n as [|n IH]; intros i Hb Hc Hoff Hlen; cbn [phdrs_from].
  { eexists. split; [done | ]. intros l [= <-]. done. }
  rewrite Hc. cbn [Z.eqb Pos.eqb ELFCLASS32].
  destruct (build_mem_elf32_phdr_spec file buf h i Hb Hoff) as (r & -> & Hr); [lia | ].
  rewrite bind_Ret_l. destruct r as [p | ]; [ | by exists None].
  destruct (Hr p eq_refl) as (? & ? & ? & ?).
  destruct (sum32_no_wrap (p_offset p) (p_filesz p)) as [-> ?]; [done | done | done | ].
  destruct (sum32_no_wrap (p_paddr p) (p_memsz p)) as [-> ?]; [done | done | done | ].
  destruct (Z.ltb_spec (Z.of_nat (length file)) (p_offset p + p_filesz p)); [by exists None | ].
  destruct (Z.ltb_spec (p_paddr p + p_memsz p) (p_paddr p)); [by exists None | ].
  destruct (IH (S i) Hb Hc Hoff) as (r' & -> & Hr'); [lia | ]. rewrite bind_Ret_l.
  destruct r' as [l' | ]; [ | by exists None].
  eexists. split; [reflexivity | ]. intros l [= <-]. destruct (Hr' l' eq_refl) as [Hlen' Hall].
  split; [simpl; lia | ]. constructor; [ | done]. split; simpl; lia || done.
Qed.

Lemma build_mem_elf32_shdr_spec file buf h idx :
  ulong_bits = 64 → 0 ≤ e_shoff h →
  e_shoff h + Z.of_nat idx * 40 + 40 ≤ Z.of_nat (length file) →
  ∃ r, build_mem_elf32_shdr file buf h idx = Ret r ∧
    ∀ s, r = Some s →
      0 ≤ sh_offset s < 2 ^ 32 ∧ 0 ≤ sh_size s < 2 ^ 32 ∧ 0 ≤ sh_addr s < 2 ^ 32.
Proof.
  intros Hb Hoff Hlen. unfold build_mem_elf32_shdr.
  set (l := take 40 (drop (Z.to_nat (e_shoff h + Z.of_nat idx * 40)) file)).
  assert (read_at file (e_shoff h + Z.of_nat idx * 40) 40 = Ret l) as Hr
    by (apply read_at_Ret; split_and!; done || lia).
  pose proof (read_at_length _ _ _ _ Hr) as Hl. rewrite Hr, bind_Ret_l. cbv zeta.
  case_if; [eexists; split; [reflexivity | done] | ].
  case_if; eexists; (split; [reflexivity | ]); intros s; [done | intros [= <-]; simpl].
  split_and!; apply field32_range; lia.
Qed.

Lemma shdrs_from_safe file buf h n : ∀ i,
  ulong_bits = 64 → ei_class h = ELFCLASS32 → 0 ≤ e_shoff h →
  e_shoff h + 40 * Z.of_nat (i + n) ≤ Z.of_nat (length file) →
  ∃ r, shdrs_from file buf h i n = Ret r ∧
    ∀ l, r = Some l → length l = n ∧ Forall (shdr_ok (Z.of_nat (length file)) buf) l.
Proof.
  induction n as [|n IH]; intros i Hb Hc Hoff Hlen; cbn [shdrs_from].
  { eexists. split; [done | ]. intros l [= <-]. done. }
  rewrite Hc. cbn [Z.eqb Pos.eqb ELFCLASS32].
  destruct (build_mem_elf32_shdr_spec file buf h i Hb Hoff) as (r & -> & Hr); [lia | ].
  rewrite bind_Ret_l. destruct r as [s | ]; [ | by exists None].
  destruct (Hr s eq_refl) as (? & ? & ?).
  destruct (sum32_no_wrap (sh_offset s) (sh_size s)) as [-> ?]; [done | done | done | ].
  destruct (sum32_no_wrap (sh_addr s) (sh_size s)) as [-> ?]; [done | done | done | ].
  destruct (negb _ && _) eqn:E1; [by exists None | ].
  destruct (Z.ltb_spec (sh_addr s + sh_size s) (sh_addr s)); [by exists None | ].
  destruct (IH (S i) Hb Hc Hoff) as (r' & -> & Hr'); [lia | ]. rewrite bind_Ret_l.
  destruct r' as [l' | ]; [ | by exists None].
  eexists. split; [reflexivity | ]. intros l [= <-]. destruct (Hr' l' eq_refl) as [Hlen' Hall].
  split; [simpl; lia | ]. constructor; [ | done]. split; simpl; [lia | | lia | done].
  intros Hty. zbool. destruct E1; zbool; [done | lia].
Qed.
(** ** The file header's ranges *)

Lemma build_mem_ehdr_ranges file h :
  build_mem_ehdr file = Ret (Some h) → ei_class h = ELFCLASS32 →
  0 ≤ e_phoff h < 2 ^ 32 ∧ 0 ≤ e_shoff h < 2 ^ 32 ∧ 0 ≤ e_phnum h < 2 ^ 16 ∧
  0 ≤ e_shnum h < 2 ^ 16 ∧ e_phdr h = None ∧ e_shdr h = None.
Proof.
  unfold build_mem_ehdr. intros Hb Hc. repeat (case_if_in Hb; [by inv_ret | ]).
  apply bind_Ret in Hb as (id & _ & Hb).
  repeat (case_if_in Hb; [by inv_ret | ]). apply bind_Ret in Hb as (r & Hr & Hb).
  destruct r as [h' | ]; [ | by inv_ret]. case_if_in Hb; [by inv_ret | ].
  assert (h' = h) as -> by congruence. clear Hb.
  destruct (field id 4 1 =? ELFCLASS32) eqn:E32.
  - unfold build_mem_elf32_ehdr in Hr. case_if_in Hr; [by inv_ret | ].
    apply bind_Ret in Hr as (l & Hl & Hr). apply read_at_length in Hl.
    repeat (case_if_in Hr; [by inv_ret | ]). injection Hr as <-. simpl.
    split_and!; try done; eapply elf_to_cpu_range; lia.
  - unfold build_mem_elf64_ehdr in Hr. case_if_in Hr; [by inv_ret | ].
    apply bind_Ret in Hr as (l & Hl & Hr).
    repeat (case_if_in Hr; [by inv_ret | ]). injection Hr as <-. simpl in Hc. zbool. done.
Qed.

Lemma build_mem_phdrs_safe file buf h :
  ulong_bits = 64 → ei_class h = ELFCLASS32 → 0 ≤ e_phoff h < 2 ^ 32 → 0 ≤ e_phnum h < 2 ^ 16 →
  ∃ r, build_mem_phdrs file buf h = Ret r ∧
    ∀ l, r = Some l →
      Z.of_nat (length l) = e_phnum h ∧ Forall (phdr_ok (Z.of_nat (length file)) buf) l.
Proof.
  intros Hb Hc Hoff Hnum. unfold build_mem_phdrs. rewrite Hc. cbn [Z.eqb Pos.eqb ELFCLASS32 negb andb].
  rewrite ul_small by (rewrite Hb; lia).
  destruct (Z.ltb_spec (Z.of_nat (length file)) (e_phoff h + 32 * e_phnum h)); [by exists None | ].
  destruct (phdrs_from_safe file buf h (Z.to_nat (e_phnum h)) 0 Hb Hc) as (r & -> & Hr); [lia | lia | ].
  exists r. split; [done | ]. intros l Hl. destruct (Hr l Hl). split; [lia | done].
Qed.

Lemma build_mem_shdrs_safe file buf h :
  ulong_bits = 64 → ei_class h = ELFCLASS32 → 0 ≤ e_shoff h < 2 ^ 32 → 0 ≤ e_shnum h < 2 ^ 16 →
  ∃ r, build_mem_shdrs file buf h = Ret r ∧
    ∀ l, r = Some l →
      Z.of_nat (length l) = e_shnum h ∧ Forall (shdr_ok (Z.of_nat (length file)) buf) l.
Proof.
  intros Hb Hc Hoff Hnum. unfold build_mem_shdrs. rewrite Hc. cbn [Z.eqb Pos.eqb ELFCLASS32 negb andb].
  rewrite ul_small by (rewrite Hb; lia).
  destruct (Z.ltb_spec (Z.of_nat (length file)) (e_shoff h + 40 * e_shnum h)); [by exists None | ].
  destruct (shdrs_from_safe file buf h (Z.to_nat (e_shnum h)) 0 Hb Hc) as (r & -> & Hr); [lia | lia | ].
  exists r. split; [done | ]. intros l Hl. destruct (Hr l Hl). split; [lia | done].
Qed.

Lemma build_mem_notes_tables file buf h h' :
  build_mem_notes file buf h = Ret h' → e_phdr h' = e_phdr h ∧ e_shdr h' = e_shdr h ∧
  e_phnum h' = e_phnum h ∧ e_shnum h' = e_shnum h ∧ e_phoff h' = e_phoff h ∧ e_shoff h' = e_shoff h
  ∧ ei_class h' = ei_class h.
Proof.
  unfold build_mem_notes. intros Hn.
  apply bind_Ret in Hn as (ph & _ & Hn). apply bind_Ret in Hn as (range & _ & Hn).
  destruct range as [[a b] | ]; [ | injection Hn as <-; done].
  apply bind_Ret in Hn as (n & _ & Hn). apply bind_Ret in Hn as (notes & _ & Hn).
  injection Hn as <-. done.
Qed.

(** What an accepted file gives the loaders. *)
Definition tables_ok (file : list byte) (buf : ptr) (h : mem_ehdr) : Prop :=
  match e_phdr h with
  | Some l => Z.of_nat (length l) = e_phnum h ∧ Forall (phdr_ok (Z.of_nat (length file)) buf) l
  | None => e_phoff h = 0 ∨ e_phnum h = 0
  end ∧
  match e_shdr h with
  | Some l => Z.of_nat (length l) = e_shnum h ∧ Forall (shdr_ok (Z.of_nat (length file)) buf) l
  | None => e_shoff h = 0 ∨ e_shnum h = 0
  end.

Lemma not_both_pos a b : (0 <? a) && (0 <? b) = false → 0 ≤ a → 0 ≤ b → a = 0 ∨ b = 0.
Proof. intros E ? ?. destruct (Z.ltb_spec 0 a), (Z.ltb_spec 0 b); simpl in E; try done; lia. Qed.

(** The tables are read without harm; what happens after them is the notes'. *)
Lemma build_elf_info_cases file buf h :
  ulong_bits = 64 → build_mem_ehdr file = Ret (Some h) → ei_class h = ELFCLASS32 →
  build_elf_info file buf = Ret None ∨
  ∃ ph sh, build_elf_info file buf =
             (h' ← build_mem_notes file buf (set_shdr sh (set_phdr ph h)); mret (Some h')) ∧
           tables_ok file buf (set_shdr sh (set_phdr ph h)).
Proof.
  intros Hb Hh Hc. destruct (build_mem_ehdr_ranges file h Hh Hc) as (Hpo & Hso & Hpn & Hsn & Hp0 & Hs0).
  unfold build_elf_info. rewrite Hh, bind_Ret_l.
  assert (∃ ph, (if (0 <? e_phoff h) && (0 <? e_phnum h)
            then ph ← build_mem_phdrs file buf h;
                 mret (match ph with Some l => Some (Some l) | None => None end)
            else Ret (Some None)) = Ret ph ∧
    ∀ o, ph = Some o → match o with
      | Some l => Z.of_nat (length l) = e_phnum h ∧ Forall (phdr_ok (Z.of_nat (length file)) buf) l
      | None => e_phoff h = 0 ∨ e_phnum h = 0 end) as (ph & -> & Hph).
  { destruct ((0 <? e_phoff h) && (0 <? e_phnum h)) eqn:E.
    - destruct (build_mem_phdrs_safe file buf h Hb Hc Hpo Hpn) as (r & -> & Hr).
      eexists. split; [reflexivity | ]. destruct r as [l | ]; intros o [= <-]. by apply Hr.
    - eexists. split; [reflexivity | ]. intros o [= <-]. apply not_both_pos; [done | lia | lia]. }
  rewrite bind_Ret_l. destruct ph as [ph | ]; [ | by left]. cbv zeta.
  specialize (Hph ph eq_refl). set (h1 := set_phdr ph h).
  change (e_shoff h1) with (e_shoff h). change (e_shnum h1) with (e_shnum h).
  assert (∃ sh, (if (0 <? e_shoff h) && (0 <? e_shnum h)
            then sh ← build_mem_shdrs file buf h1;
                 mret (match sh with Some l => Some (Some l) | None => None end)
            else Ret (Some None)) = Ret sh ∧
    ∀ o, sh = Some o → match o with
      | Some l => Z.of_nat (length l) = e_shnum h ∧ Forall (shdr_ok (Z.of_nat (length file)) buf) l
      | None => e_shoff h = 0 ∨ e_shnum h = 0 end) as (sh & -> & Hsh).
  { destruct ((0 <? e_shoff h) && (0 <? e_shnum h)) eqn:E.
    - destruct (build_mem_shdrs_safe file buf h1 Hb Hc Hso Hsn) as (r & -> & Hr).
      eexists. split; [reflexivity | ]. destruct r as [l | ]; intros o [= <-]. by apply Hr.
    - eexists. split; [reflexivity | ]. intros o [= <-]. apply not_both_pos; [done | lia | lia]. }
  rewrite bind_Ret_l. destruct sh as [sh | ]; [ | by left].
  specialize (Hsh sh eq_refl). right. exists ph, sh. done.
Qed.
End tables.

(** ** Notes *)

Section notes.
Context `{Arch}.

Lemma up4_range x : 0 ≤ up4 x < 2 ^ 32.
Proof.
  unfold up4. pose proof (u32_range (x + 3)).
  change 3 with (4 - 1). rewrite land_notw_pow2; [ | lia | by exists 2 | apply u32_range].
  change (4 - 1) with 3. pose proof (round_down_spec (u32 (x + 3)) 4 ltac:(lia)).
  pose proof (round_down_nonneg (u32 (x + 3)) 4 ltac:(lia) ltac:(lia)). lia.
Qed.

(** On a 64-bit host a note has at least the 12 bytes of its header. *)
Lemma note_bytes_ge a b : ulong_bits = 64 → 12 ≤ note_bytes a b.
Proof.
  intros Hb. unfold note_bytes. pose proof (up4_range a). pose proof (up4_range b).
  rewrite ul_small by (rewrite Hb; lia). lia.
Qed.

Lemma read_nhdr_not_spin file h note : read_nhdr file h note ≠ Spin.
Proof. unfold read_nhdr, read_at. case_if; done. Qed.

Lemma count_notes_ends file h fuel : ∀ note note_end,
  ulong_bits = 64 → (Z.to_nat (note_end - note) < fuel)%nat →
  count_notes fuel file h note note_end ≠ Spin.
Proof.
  induction fuel as [|fuel IH]; intros note note_end Hb Hf; [lia | ]. cbn [count_notes].
  destruct (Z.ltb_spec note note_end); [ | done].
  pose proof (read_nhdr_not_spin file h note) as Hn.
  destruct (read_nhdr file h note) as [[[a b] c] | | | ]; try done. rewrite bind_Ret_l.
  pose proof (note_bytes_ge a b Hb).
  specialize (IH (note + note_bytes a b) note_end Hb ltac:(lia)).
  by destruct (count_notes fuel file h _ _).
Qed.

Lemma normalize_notes_ends file buf h fuel : ∀ note note_end,
  ulong_bits = 64 → (Z.to_nat (note_end - note) < fuel)%nat →
  normalize_notes fuel file buf h note note_end ≠ Spin.
Proof.
  induction fuel as [|fuel IH]; intros note note_end Hb Hf; [lia | ]. cbn [normalize_notes].
  destruct (Z.ltb_spec note note_end); [ | done].
  pose proof (read_nhdr_not_spin file h note) as Hn.
  destruct (read_nhdr file h note) as [[[a b] c] | | | ]; try done. rewrite bind_Ret_l. cbv zeta.
  assert (∀ m : outcome (list mem_note), m ≠ Spin →
    ∀ P : outcome (), P ≠ Spin → ('() ← P; m) ≠ Spin) as Hseq.
  { intros m Hm [[] | | |] HP; done. }
  apply Hseq.
  - pose proof (note_bytes_ge a b Hb).
    specialize (IH (note + note_bytes a b) note_end Hb ltac:(lia)).
    by destruct (normalize_notes fuel file buf h _ _).
  - case_if; [ | done]. unfold read_at. repeat case_if; try done; simpl; case_if; done.
Qed.

(** The array is allocated for exactly the notes that are written. *)
Lemma notes_counted file buf h fuel : ∀ note note_end n l,
  count_notes fuel file h note note_end = Ret n →
  normalize_notes fuel file buf h note note_end = Ret l → n = length l.
Proof.
  induction fuel as [|fuel IH]; intros note note_end n l Hn Hl; [done | ].
  cbn [count_notes normalize_notes] in *.
  destruct (Z.ltb_spec note note_end); [ | by injection Hn as <-; injection Hl as <-].
  apply bind_Ret in Hn as ([[a b] c] & Hr & Hn). rewrite Hr, bind_Ret_l in Hl. cbv zeta in Hl.
  apply bind_Ret in Hn as (n' & Hn' & Hn). injection Hn as <-.
  apply bind_Ret in Hl as ([] & _ & Hl). apply bind_Ret in Hl as (l' & Hl' & Hl).
  injection Hl as <-. simpl. f_equal. by eapply IH.
Qed.

Lemma build_mem_notes_ends file buf h : ulong_bits = 64 → build_mem_notes file buf h ≠ Spin.
Proof.
  intros Hb. unfold build_mem_notes.
  assert (∀ A (arr : option (list A)) n f, find_note arr n f ≠ Spin) as Hfind.
  { intros A [l | ] n f; simpl; [done | case_if; done]. }
  pose proof (Hfind _ (e_phdr h) (e_phnum h) (λ p, p_type p =? PT_NOTE)) as H1.
  pose proof (Hfind _ (e_shdr h) (e_shnum h) (λ p, sh_type p =? SHT_NOTE)) as H2.
  destruct (find_note (e_phdr h) _ _) as [ph | | |]; try done. rewrite bind_Ret_l.
  assert (∀ (f : option (Z * Z) → outcome mem_ehdr), (∀ r, f r ≠ Spin) →
    ∀ m : outcome (option (Z * Z)), m ≠ Spin → (m ≫= f) ≠ Spin) as Hseq.
  { intros f Hf [r | | |] Hm; simpl; [apply Hf | done..]. }
  apply Hseq.
  - intros [[a b] | ]; [ | done].
    pose proof (count_notes_ends file h (S (Z.to_nat (b - a))) a b Hb ltac:(lia)) as H3.
    pose proof (normalize_notes_ends file buf h (S (Z.to_nat (b - a))) a b Hb ltac:(lia)) as H4.
    cbv zeta. destruct (count_notes _ _ _ _ _); try done. rewrite bind_Ret_l.
    by destruct (normalize_notes _ _ _ _ _ _).
  - destruct ph; [done | ]. by destruct (find_note (e_shdr h) _ _).
Qed.

(** A note whose size wraps around to 0 is walked forever. *)
Lemma count_notes_endless file h note note_end a b c :
  note < note_end → read_nhdr file h note = Ret (a, b, c) → note_bytes a b = 0 →
  ∀ fuel, count_notes fuel file h note note_end = Spin.
Proof.
  intros Hlt Hr Hz. induction fuel as [|fuel IH]; [done | ]. cbn [count_notes].
  destruct (Z.ltb_spec note note_end); [ | lia]. by rewrite Hr, bind_Ret_l, Hz, Z.add_0_r, IH.
Qed.
End notes.

(** ** The reader's contract *)

Section contract.
Context `{Arch}.

Lemma phdrs_from_not_spin file buf h n : ∀ i, phdrs_from file buf h i n ≠ Spin.
Proof.
  induction n as [|n IH]; intros i; [done | ]. cbn [phdrs_from].
  assert ((if ei_class h =? ELFCLASS32 then build_mem_elf32_phdr file buf h i
           else if ei_class h =? ELFCLASS64 then build_mem_elf64_phdr file buf h i
           else Ret None) ≠ Spin) as Hb.
  { unfold build_mem_elf32_phdr, build_mem_elf64_phdr, read_at.
    repeat case_if; try done; simpl; repeat case_if; done. }
  destruct (if ei_class h =? ELFCLASS32 then _ else _) as [[p | ] | | |]; try done.
  rewrite bind_Ret_l. repeat (case_if; [done | ]).
  specialize (IH (S i)). by destruct (phdrs_from file buf h (S i) n).
Qed.

Lemma shdrs_from_not_spin file buf h n : ∀ i, shdrs_from file buf h i n ≠ Spin.
Proof.
  induction n as [|n IH]; intros i; [done | ]. cbn [shdrs_from].
  assert ((if ei_class h =? ELFCLASS32 then build_mem_elf32_shdr file buf h i
           else if ei_class h =? ELFCLASS64 then build_mem_elf64_shdr file buf h i
           else Ret None) ≠ Spin) as Hb.
  { unfold build_mem_elf32_shdr, build_mem_elf64_shdr, read_at.
    repeat case_if; try done; simpl; repeat case_if; done. }
  destruct (if ei_class h =? ELFCLASS32 then _ else _) as [[p | ] | | |]; try done.
  rewrite bind_Ret_l. repeat (case_if; [done | ]).
  specialize (IH (S i)). by destruct (shdrs_from file buf h (S i) n).
Qed.

Lemma build_mem_ehdr_not_spin file : build_mem_ehdr file ≠ Spin.
Proof.
  unfold build_mem_ehdr, read_at. case_if; [done | ]. case_if; [ | done].
  rewrite bind_Ret_l. cbv zeta. repeat (case_if; [done | ]).
  assert (∀ cls data, build_mem_elf32_ehdr file cls data ≠ Spin) as H32.
  { intros. unfold build_mem_elf32_ehdr, read_at. repeat case_if; try done; simpl; repeat case_if; done. }
  assert (∀ cls data, build_mem_elf64_ehdr file cls data ≠ Spin) as H64.
  { intros. unfold build_mem_elf64_ehdr, read_at. repeat case_if; try done; simpl; repeat case_if; done. }
  match goal with |- (?m ≫= _) ≠ _ => assert (m ≠ Spin) as Hm by (case_if; auto); destruct m as [[h | ] | | |] end;
    try done.
  rewrite bind_Ret_l. case_if; done.
Qed.

(** whatever the byte orders of the host and of the file, the reader's
    conversions give the integer that the bytes of a field stand for, and writing
    a value in the file's order and reading it back gives the value. *)
Theorem elf_byte_order n data s off v :
  valid_data data → (off + n ≤ length s)%nat → 0 ≤ v < 2 ^ (8 * Z.of_nat n) →
  elf_to_cpu n data (field s off n) = combine (msb data) (take n (drop off s)) ∧
  elf_to_cpu n data (cpu_to_elf n data v) = v.
Proof. intros. split; [by apply field_spec | by apply elf_to_cpu_inv]. Qed.

(** C17: a file that starts with a well-formed 32-bit or 64-bit ELF header, in
    either byte order, is read as that header. *)
Theorem elf_header_roundtrip h rest :
  ei_class h = ELFCLASS32 ∧ wf_ehdr 32 h ∨ ei_class h = ELFCLASS64 ∧ wf_ehdr 64 h →
  build_mem_ehdr (encode_ehdr h ++ rest) = Ret (Some h).
Proof. apply build_mem_ehdr_encode. Qed.

(** C30: on a 64-bit host, the tables of an accepted 32-bit ELF file have the
    announced lengths, every segment and every section with contents lies in the
    file, no address range wraps around, and the data pointers are the buffer's
    plus the offsets. *)
Theorem elf32_tables_in_file file buf h :
  ulong_bits = 64 → build_elf_info file buf = Ret (Some h) → ei_class h = ELFCLASS32 →
  tables_ok file buf h.
Proof.
  intros Hb Hi Hc. pose proof Hi as Hi'. unfold build_elf_info in Hi'.
  apply bind_Ret in Hi' as (r & Hr & Hi'). destruct r as [h0 | ]; [ | done].
  destruct (decide (ei_class h0 = ELFCLASS32)) as [Hc0 | Hc0].
  - destruct (build_elf_info_cases file buf h0 Hb Hr Hc0) as [He | (ph & sh & He & Hok)]; [congruence | ].
    rewrite He in Hi. apply bind_Ret in Hi as (h1 & Hn & Hi). injection Hi as <-.
    apply build_mem_notes_tables in Hn as (Hp & Hs & Hpn & Hsn & Hpo & Hso & _).
    unfold tables_ok in *. by rewrite Hp, Hs, Hpn, Hsn, Hpo, Hso.
  - exfalso. apply bind_Ret in Hi' as (ph & _ & Hi'). destruct ph as [ph | ]; [ | done].
    apply bind_Ret in Hi' as (sh & _ & Hi'). destruct sh as [sh | ]; [ | done].
    apply bind_Ret in Hi' as (h1 & Hn & Hi'). injection Hi' as <-.
    apply build_mem_notes_tables in Hn as (_ & _ & _ & _ & _ & _ & Hcls). simpl in Hcls. congruence.
Qed.

(** C31: on a 64-bit host reading an ELF file always ends, however the file
    looks. *)
Theorem build_elf_info_terminates file buf : ulong_bits = 64 → build_elf_info file buf ≠ Spin.
Proof.
  intros Hb. unfold build_elf_info. pose proof (build_mem_ehdr_not_spin file) as H0.
  destruct (build_mem_ehdr file) as [[h | ] | | |]; try done. rewrite bind_Ret_l.
  assert (build_mem_phdrs file buf h ≠ Spin) as H1.
  { unfold build_mem_phdrs. repeat case_if; try done; apply phdrs_from_not_spin. }
  match goal with |- (?m ≫= _) ≠ _ => assert (m ≠ Spin) as Hm end.
  { case_if; [ | done]. by destruct (build_mem_phdrs file buf h). }
  match goal with |- (?m ≫= _) ≠ _ => destruct m as [[ph | ] | | |] end; try done.
  rewrite bind_Ret_l. cbv zeta. set (h1 := set_phdr ph h).
  assert (build_mem_shdrs file buf h1 ≠ Spin) as H2.
  { unfold build_mem_shdrs. repeat case_if; try done; apply shdrs_from_not_spin. }
  match goal with |- (?m ≫= _) ≠ _ => assert (m ≠ Spin) as Hm' end.
  { case_if; [ | done]. by destruct (build_mem_shdrs file buf h1). }
  match goal with |- (?m ≫= _) ≠ _ => destruct m as [[sh | ] | | |] end; try done.
  rewrite bind_Ret_l. pose proof (build_mem_notes_ends file buf (set_shdr sh h1) Hb) as H3.
  by destruct (build_mem_notes file buf (set_shdr sh h1)).
Qed.

(** on a 32-bit host a note whose name size rounds up, with the header's 12
    bytes, to 2^32 makes [build_mem_notes] walk in place for ever. *)
Theorem elf_notes_endless file h note note_end a b c :
  note < note_end → read_nhdr file h note = Ret (a, b, c) →
  ulong_bits = 32 → 0xfffffff1 ≤ a ≤ 0xfffffff4 → b = 0 →
  ∀ fuel, count_notes fuel file h note note_end = Spin.
Proof.
  intros Hlt Hr Hb Ha -> fuel. eapply count_notes_endless; [done | done | ].
  unfold note_bytes, up4. rewrite !u32_small by lia.
  change (notw 32 3) with (notw 32 (4 - 1)).
  rewrite !land_notw_pow2; try lia; try (by exists 2).
  unfold round_down. change (0 + 3) with 3. change (3 / 4) with 0.
  replace ((a + 3) / 4) with 0x3ffffffd by (apply (Z.div_unique _ _ _ (a + 3 - 4 * 0x3ffffffd)); lia).
  unfold ul. by rewrite Hb.
Qed.

(** a file whose header announces program headers at offset 0 makes
    [build_mem_notes] read through a null pointer. *)
Theorem elf_null_phdrs file buf h :
  build_mem_ehdr file = Ret (Some h) → e_phdr h = None → e_phoff h = 0 → 0 < e_phnum h →
  e_shoff h = 0 → build_elf_info file buf = UB "null pointer dereference".
Proof.
  intros Hh Hp Hpo Hpn Hso. unfold build_elf_info. rewrite Hh, bind_Ret_l, Hpo. cbn [Z.ltb Z.compare andb].
  rewrite bind_Ret_l. cbv zeta. change (e_shoff (set_phdr None h)) with (e_shoff h).
  rewrite Hso. cbn [Z.ltb Z.compare andb]. rewrite bind_Ret_l. unfold build_mem_notes.
  cbn [e_phdr set_shdr set_phdr e_phnum find_note].
  destruct (Z.ltb_spec 0 (e_phnum h)); [done | lia].
Qed.

(** on a 64-bit host a 64-bit ELF file whose program header offset is so
    large that adding the table's size wraps around passes the check, and the
    table is read outside the file. *)
Theorem elf64_offset_wrap file buf h :
  ulong_bits = 64 → ei_class h = ELFCLASS64 → 0 < e_phnum h < 2 ^ 16 →
  Z.of_nat (length file) < e_phoff h < 2 ^ 64 →
  2 ^ 64 ≤ e_phoff h + 56 * e_phnum h ≤ 2 ^ 64 + Z.of_nat (length file) →
  build_mem_phdrs file buf h = UB "read outside an object".
Proof.
  intros Hb Hc Hn Hoff Hwrap. unfold build_mem_phdrs. rewrite Hc.
  cbn [Z.eqb Pos.eqb ELFCLASS32 ELFCLASS64 negb andb].
  assert (ul (e_phoff h + 56 * e_phnum h) = e_phoff h + 56 * e_phnum h - 2 ^ 64) as ->.
  { unfold ul. rewrite Hb. symmetry. apply (Z.mod_unique _ _ 1); lia. }
  destruct (Z.ltb_spec (Z.of_nat (length file)) (e_phoff h + 56 * e_phnum h - 2 ^ 64)); [lia | ].
  destruct (Z.to_nat (e_phnum h)) eqn:E; [lia | ]. cbn [phdrs_from]. rewrite Hc.
  cbn [Z.eqb Pos.eqb ELFCLASS32 ELFCLASS64]. unfold build_mem_elf64_phdr, read_at.
  assert ((e_phoff h + Z.of_nat 0 * 56 + 56 <=? Z.of_nat (length file)) = false) as ->
    by (apply Z.leb_gt; lia).
  by rewrite andb_false_r.
Qed.
End contract.

(** ** Witnesses *)

Module Witness.
(** A little-endian 32-bit executable with one program header and a note. *)
Definition hdr32 : mem_ehdr := {|
  ei_class := 1; ei_data := 1; e_type := 2; e_machine := 3; e_version := 1; e_flags := 0;
  e_phnum := 1; e_shnum := 0; e_shstrndx := 0; e_entry := 0x100000; e_phoff := 52; e_shoff := 0;
  e_phdr := None; e_shdr := None; e_note := None; rel_addr := 0; rel_size := 0 |}.

Definition le4 (z : Z) : list byte := split false 4 z.

(** PT_NOTE, offset 84, 12 bytes. *)
Definition phdr32 : list byte :=
  concat (map le4 [4; 84; 0x1000; 0x1000; 12; 12; 0; 4]).

Definition note (namesz : Z) : list byte := concat (map le4 [namesz; 0; 1]).

Definition elf_file (namesz : Z) : list byte := encode_ehdr hdr32 ++ phdr32 ++ note namesz.

Definition buf0 : ptr := {| p_blk := 1; p_off := 0 |}.

Lemma wf_hdr32 a : wf_ehdr (H := a) 32 hdr32.
Proof.
  split; try (by left); try done.
  - repeat (apply Forall_cons_2 || apply Forall_nil_2); simpl; lia.
  - pose proof (ulong_mod_ge (H := a)). unfold ULONG_MAX.
    repeat (apply Forall_cons_2 || apply Forall_nil_2); simpl; lia.
Defined.

Lemma elf_byte_order_witness :
  elf_to_cpu (H := x86_64) 4 2 (field (H := x86_64) [Byte.x00; Byte.x00; Byte.x01; Byte.x02] 0 4) = 0x102 ∧
  elf_to_cpu (H := ppc) 4 2 (field (H := ppc) [Byte.x00; Byte.x00; Byte.x01; Byte.x02] 0 4) = 0x102.
Proof.
  split.
  - refine (proj1 (elf_byte_order (H := x86_64) 4 2 [Byte.x00; Byte.x00; Byte.x01; Byte.x02] 0 0 _ _ _));
      [by right | simpl; lia | done].
  - refine (proj1 (elf_byte_order (H := ppc) 4 2 [Byte.x00; Byte.x00; Byte.x01; Byte.x02] 0 0 _ _ _));
      [by right | simpl; lia | done].
Defined.

Lemma elf_header_roundtrip_witness :
  build_mem_ehdr (H := ppc) (encode_ehdr hdr32 ++ phdr32) = Ret (Some hdr32).
Proof. apply (elf_header_roundtrip (H := ppc)). left. split; [done | apply wf_hdr32]. Defined.

Lemma elf32_tables_in_file_witness :
  ∃ h, build_elf_info (H := x86_64) (elf_file 0) buf0 = Ret (Some h) ∧
       tables_ok (H := x86_64) (elf_file 0) buf0 h.
Proof.
  destruct (build_elf_info (H := x86_64) (elf_file 0) buf0) as [[h | ] | | |] eqn:E;
    [ | vm_compute in E; discriminate E..].
  exists h. split; [done | ]. apply (elf32_tables_in_file (H := x86_64)); [done | done | ].
  vm_compute in E. injection E as <-. reflexivity.
Defined.

Lemma build_elf_info_terminates_witness : build_elf_info (H := x86_64) (elf_file 0xfffffff1) buf0 ≠ Spin.
Proof. apply (build_elf_info_terminates (H := x86_64)). done. Defined.

Lemma elf_notes_endless_witness :
  count_notes (H := i386) 1000 (elf_file 0xfffffff1) hdr32 84 96 = Spin.
Proof.
  apply (elf_notes_endless (H := i386) (elf_file 0xfffffff1) hdr32 84 96 0xfffffff1 0 1).
  - done.
  - vm_compute. reflexivity.
  - done.
  - done.
  - done.
Defined.

Definition hdr_null : mem_ehdr := {|
  ei_class := 1; ei_data := 1; e_type := 2; e_machine := 3; e_version := 1; e_flags := 0;
  e_phnum := 1; e_shnum := 0; e_shstrndx := 0; e_entry := 0x100000; e_phoff := 0; e_shoff := 0;
  e_phdr := None; e_shdr := None; e_note := None; rel_addr := 0; rel_size := 0 |}.

Lemma elf_null_phdrs_witness :
  build_elf_info (H := x86_64) (encode_ehdr hdr_null) buf0 = UB "null pointer dereference".
Proof.
  apply (elf_null_phdrs (H := x86_64) (encode_ehdr hdr_null) buf0 hdr_null); try done.
Defined.

Definition hdr_wrap : mem_ehdr := {|
  ei_class := 2; ei_data := 1; e_type := 2; e_machine := 62; e_version := 1; e_flags := 0;
  e_phnum := 1; e_shnum := 0; e_shstrndx := 0; e_entry := 0x100000; e_phoff := 2 ^ 64 - 56;
  e_shoff := 0;
  e_phdr := None; e_shdr := None; e_note := None; rel_addr := 0; rel_size := 0 |}.

Lemma elf64_offset_wrap_witness :
  build_mem_ehdr (H := x86_64) (encode_ehdr hdr_wrap) = Ret (Some hdr_wrap) ∧
  build_mem_phdrs (H := x86_64) (encode_ehdr hdr_wrap) buf0 hdr_wrap = UB "read outside an object".
Proof.
  split; [vm_compute; reflexivity | ].
  apply (elf64_offset_wrap (H := x86_64)); by vm_compute.
Defined.
End Witness.
