(* ===== verification/Gpio.v ===== *)
(** gpio (src/gpio/gpio.c): the program that switches one of the nine lines of a Soekris
    board.  [mmap] is what mapping the registers gives: their page, or a failure. *)

From Stdlib Require Import ZArith Lia String.
From stdpp Require Import base tactics list numbers.
From coqutil Require Import Byte.
From S2P Require Import Prelude Words CMem CString Struct.

#[local] Open Scope Z_scope.

(** ** Data: the page of the registers *)

Module Mmcr.
Inductive t := PIOFS15_0 | PIODIR15_0 | PIODATA15_0.

#[global] Instance struct : Struct t.
Proof.
  refine {| f_off := λ f, match f with PIOFS15_0 => 3104 | PIODIR15_0 => 3114 | PIODATA15_0 => 3120 end;
            f_size := λ f, 4%nat; sizeof := 4096 |}; layout_laws.
Defined.

#[global] Instance t_eq : EqDecision t.
Proof. solve_decision. Defined.
End Mmcr.

Definition GPIOLINES : Z := 9.
Definition gpio : list Z := [5; 6; 7; 8; 21; 22; 11; 12; 9].

Section gpio.
Context `{Arch}.

(** [*p = f ( *p )] for the register at [p]. *)
Definition update (r : Mmcr.t) (f : Z → Z) (page : list byte) : outcome (list byte) :=
  l ← read_at page (f_off r) 4; write_at page (f_off r) (split host_be 4 (f (combine host_be l))).

(** [1 << gpio[i]] *)
Definition bit (line : Z) : Z := Z.shiftl 1 (nth (Z.to_nat line) gpio 0).

Fixpoint for_lines (f : Z → list byte → outcome (list byte)) (lines : list Z) (page : list byte)
    : outcome (list byte) :=
  match lines with [] => Ret page | i :: lines => page ← f i page; for_lines f lines page end.

Definition iosetup (mmap : option (list byte)) : outcome (list byte) :=
  match mmap with
  | None => Die "could not mmap MMCR: %d"
  | Some page =>
      let lines := map Z.of_nat (seq 0 (Z.to_nat GPIOLINES)) in
      page ← for_lines (λ i, update Mmcr.PIOFS15_0 (λ v, Z.land v (notw 32 (bit i)))) lines page;
      for_lines (λ i, update Mmcr.PIODIR15_0 (λ v, Z.lor v (bit i))) lines page
  end.

Definition setvalue (line : Z) (mode : bool) : list byte → outcome (list byte) :=
  update Mmcr.PIODATA15_0 (λ v, if mode then Z.lor v (bit line) else Z.land v (notw 32 (bit line))).

(** The arguments after the name of the program; the result is the page. *)
Definition main (args : list (list byte)) (mmap : option (list byte)) : outcome (list byte) :=
  match args with
  | [arg1; arg2] =>
      let gpioline := atoi arg1 in
      if (gpioline <? 0) || (GPIOLINES - 1 <? gpioline) then Die "usage"
      else
        let state := strncmp arg2 (bs "on") 2 =? 0 in
        page ← iosetup mmap;
        setvalue gpioline state page
  | _ => Die "usage"
  end.
End gpio.
