(* ===== verification/GpioSpec.v ===== *)
(** What gpio does to the registers, bit by bit. *)

From Stdlib Require Import ZArith Lia String.
From stdpp Require Import base tactics list numbers.
From coqutil Require Import Byte.
From S2P Require Import Prelude Words CMem CString Struct Gpio.

#[local] Open Scope Z_scope.

Section gpio.
Context `{Arch}.

Lemma field_in_page (r : Mmcr.t) : 0 ≤ f_off r ∧ f_off r + 4 ≤ 4096.
Proof. by destruct r. Qed.

Lemma update_spec r f page : length page = 4096%nat →
  update r f page = Ret (with_field page r (f (sfield page r))).
Proof.
  intros Hl. pose proof (field_in_page r). assert (f_size r = 4%nat) as Hs by (by destruct r). unfold update, read_at, write_at.
  rewrite (proj2 (Z.leb_le 0 (f_off r))), (proj2 (Z.leb_le (f_off r + 4) _)) by lia. cbn [andb Z.leb Z.compare].
  rewrite bind_Ret_l, length_split. rewrite (proj2 (Z.leb_le (f_off r + Z.of_nat 4) _)) by lia.
  unfold with_field, sfield. by rewrite Hs.
Qed.

Lemma with_field_twice page (r : Mmcr.t) v w : length page = 4096%nat →
  with_field (with_field page r v) r w = with_field page r w.
Proof.
  intros Hl. pose proof (field_in_page r). unfold with_field, overwrite. rewrite !length_split.
  assert (f_size r = 4%nat) as Hs by (by destruct r). rewrite Hs.
  rewrite take_app_le, take_take, Nat.min_id by (rewrite length_take; lia). do 2 f_equal.
  rewrite drop_app_ge by (rewrite length_take; lia). rewrite length_take, Nat.min_l by lia.
  rewrite drop_app_ge by (rewrite length_split; lia). rewrite length_split, drop_drop. f_equal. lia.
Qed.

Lemma with_field_same page (r : Mmcr.t) : length page = 4096%nat → with_field page r (sfield page r) = page.
Proof.
  intros Hl. pose proof (field_in_page r). unfold with_field, sfield, overwrite. rewrite length_split.
  assert (f_size r = 4%nat) as Hs by (by destruct r). rewrite Hs.
  set (d := drop (Z.to_nat (f_off r)) page). assert (length (take 4 d) = 4%nat) as Hd
    by (unfold d; rewrite length_take, length_drop; lia).
  rewrite <- Hd at 1. rewrite split_combine, <- drop_drop. fold d. rewrite take_drop. apply take_drop.
Qed.

(** A value of a register. *)
Definition word (v : Z) : Prop := 0 ≤ v < 2 ^ 32.

Lemma for_lines_spec r (g : Z → Z → Z) lines : ∀ page,
  length page = 4096%nat → (∀ i v, word v → word (g i v)) →
  for_lines (λ i, update r (g i)) lines page
    = Ret (with_field page r (foldl (λ v i, g i v) (sfield page r) lines)).
Proof.
  induction lines as [|i lines IH]; intros page Hl Hg; cbn [for_lines foldl]; [by rewrite with_field_same | ].
  assert (word (sfield page r)) as Hw by (destruct r; exact (sfield_range page _)).
  rewrite update_spec, bind_Ret_l by done. set (v := g i (sfield page r)).
  assert (Z.of_nat (length page) = sizeof Mmcr.t) as Hs by (by rewrite Hl).
  rewrite IH; [ | by rewrite length_with_field | done]. rewrite with_field_twice by done.
  rewrite field_with_field by done. rewrite Z.mod_small; [done | ].
  pose proof (Hg i _ Hw) as Hv. fold v in Hv. by destruct r.
Qed.

Lemma bits_word v : 0 ≤ v → (∀ k, 32 ≤ k → Z.testbit v k = false) → word v.
Proof.
  intros Hv Hk. split; [done | ]. destruct (decide (v = 0)) as [-> | Hne]; [done | ].
  apply Z.log2_lt_pow2; [lia | ]. destruct (Z.lt_ge_cases (Z.log2 v) 32) as [Hlt | Hge]; [done | ].
  pose proof (Z.bit_log2 v ltac:(lia)). rewrite (Hk _ Hge) in *. done.
Qed.

Lemma word_bits v k : word v → 32 ≤ k → Z.testbit v k = false.
Proof.
  intros [H0 Hv] Hk. destruct (decide (v = 0)) as [-> | Hne]; [apply Z.testbit_0_l | ].
  apply Z.bits_above_log2; [done | ]. apply Z.lt_le_trans with 32; [ | done]. apply Z.log2_lt_pow2; lia.
Qed.

(** The pin of a line. *)
Definition pin (line : Z) : Z := nth (Z.to_nat line) gpio 0.

Lemma pin_bound line : 0 ≤ pin line < 32.
Proof.
  unfold pin, gpio. generalize (Z.to_nat line) as n. intros n.
  do 9 (destruct n as [|n]; [cbn; lia | ]). destruct n; cbn; lia.
Qed.

Lemma bit_spec line k : 0 ≤ k → Z.testbit (bit line) k = (k =? pin line).
Proof.
  intros Hk. pose proof (pin_bound line). unfold bit. fold (pin line). rewrite Z.shiftl_spec by done.
  destruct (Z.eqb_spec k (pin line)) as [-> | Hne]; [by rewrite Z.sub_diag | ].
  destruct (Z.lt_ge_cases k (pin line)); [apply Z.testbit_neg_r; lia | ].
  apply (Z.bits_above_log2 1); [lia | change (Z.log2 1) with 0; lia].
Qed.

Lemma set_bit_spec v line k : 0 ≤ k → Z.testbit (Z.lor v (bit line)) k = Z.testbit v k || (k =? pin line).
Proof. intros Hk. by rewrite Z.lor_spec, bit_spec. Qed.

Lemma clear_bit_spec v line k : word v → 0 ≤ k →
  Z.testbit (Z.land v (notw 32 (bit line))) k = Z.testbit v k && negb (k =? pin line).
Proof.
  intros Hv Hk. unfold notw. rewrite !Z.land_spec, Z.lnot_spec, bit_spec by done.
  destruct (Z.lt_ge_cases k 32).
  - rewrite Z.ones_spec_low by lia. by rewrite andb_true_r.
  - by rewrite (word_bits v k).
Qed.

Lemma set_bit_word v line : word v → word (Z.lor v (bit line)).
Proof.
  intros Hv. pose proof (pin_bound line). apply bits_word.
  - apply Z.lor_nonneg. split; [apply Hv | ]. unfold bit. apply Z.shiftl_nonneg. lia.
  - intros k Hk. rewrite set_bit_spec, (word_bits v k) by (done || lia). apply Z.eqb_neq. lia.
Qed.

Lemma clear_bit_word v line : word v → word (Z.land v (notw 32 (bit line))).
Proof.
  intros Hv. apply bits_word; [apply Z.land_nonneg; left; apply Hv | ].
  intros k Hk. rewrite clear_bit_spec, (word_bits v k) by (done || lia). done.
Qed.

(** The lines, one after the other. *)
Lemma clear_bits lines : ∀ v k, word v → 0 ≤ k →
  Z.testbit (foldl (λ v i, Z.land v (notw 32 (bit i))) v lines) k
    = Z.testbit v k && negb (existsb (λ i, k =? pin i) lines).
Proof.
  induction lines as [|i lines IH]; intros v k Hv Hk; cbn [foldl existsb]; [by rewrite andb_true_r | ].
  rewrite IH by (done || by apply clear_bit_word). rewrite clear_bit_spec by done. by rewrite negb_orb, andb_assoc.
Qed.

Lemma set_bits lines : ∀ v k, 0 ≤ k →
  Z.testbit (foldl (λ v i, Z.lor v (bit i)) v lines) k = Z.testbit v k || existsb (λ i, k =? pin i) lines.
Proof.
  induction lines as [|i lines IH]; intros v k Hk; cbn [foldl existsb]; [by rewrite orb_false_r | ].
  rewrite IH, set_bit_spec by done. by rewrite orb_assoc.
Qed.

Lemma foldl_word (g : Z → Z → Z) lines : ∀ v,
  (∀ i v, word v → word (g i v)) → word v → word (foldl (λ v i, g i v) v lines).
Proof. induction lines as [|i lines IH]; intros v Hg Hv; [done | ]. apply IH; [done | by apply Hg]. Qed.

Lemma with_field_outside page (r : Mmcr.t) v i : length page = 4096%nat →
  ¬ f_off r ≤ Z.of_nat i < f_off r + 4 → with_field page r v !! i = page !! i.
Proof.
  intros Hl Hi. pose proof (field_in_page r). unfold with_field, overwrite. rewrite length_split.
  assert (f_size r = 4%nat) as -> by (by destruct r). destruct (decide (Z.of_nat i < f_off r)).
  - rewrite lookup_app_l by (rewrite length_take; lia). apply lookup_take_lt. lia.
  - rewrite lookup_app_r by (rewrite length_take; lia). rewrite length_take, Nat.min_l by lia.
    rewrite lookup_app_r by (rewrite length_split; lia). rewrite length_split, lookup_drop. f_equal. lia.
Qed.

(** The pins of the nine lines. *)
Definition is_pin (k : Z) : bool := bool_decide (k ∈ gpio).

Lemma lines_pins k : existsb (λ i : Z, k =? pin i) (map Z.of_nat (seq 0 (Z.to_nat GPIOLINES))) = is_pin k.
Proof.
  unfold is_pin. apply eq_true_iff_eq. rewrite existsb_exists, bool_decide_eq_true. split.
  - intros (i & Hi & Ek). apply Z.eqb_eq in Ek as ->. apply in_map_iff in Hi as (n & <- & Hn).
    unfold pin. rewrite Nat2Z.id. apply list_elem_of_In, nth_In. apply in_seq in Hn. exact (proj2 Hn).
  - intros Hk. apply list_elem_of_lookup in Hk as [n Hn]. exists (Z.of_nat n). split.
    + apply in_map, in_seq. split; [lia | exact (lookup_lt_Some _ _ _ Hn)].
    + apply Z.eqb_eq. unfold pin. rewrite Nat2Z.id. symmetry. by apply nth_lookup_Some with (1 := Hn).
Qed.

(** when the first argument is the number of a line and the registers are mapped,
    [gpio] ends, and bit by bit: the data register changes at the pin of the line alone,
    which is set exactly when the second argument begins with "on"; of the function
    register the bits of the nine pins are cleared and no other; of the direction
    register they are set and no other; and no byte of the page outside the three
    registers changes. *)
Theorem gpio_switches_one_pin arg1 arg2 page :
  length page = 4096%nat → nonul arg2 → 0 ≤ atoi arg1 < GPIOLINES →
  ∃ page', main [arg1; arg2] (Some page) = Ret page' ∧ length page' = 4096%nat ∧
    (∀ k, 0 ≤ k < 32 →
      Z.testbit (sfield page' Mmcr.PIODATA15_0) k
        = (if k =? pin (atoi arg1) then bool_decide (bs "on" `prefix_of` arg2)
           else Z.testbit (sfield page Mmcr.PIODATA15_0) k) ∧
      Z.testbit (sfield page' Mmcr.PIOFS15_0) k = Z.testbit (sfield page Mmcr.PIOFS15_0) k && negb (is_pin k) ∧
      Z.testbit (sfield page' Mmcr.PIODIR15_0) k = Z.testbit (sfield page Mmcr.PIODIR15_0) k || is_pin k) ∧
    ∀ i, (∀ r : Mmcr.t, ¬ f_off r ≤ Z.of_nat i < f_off r + 4) → page' !! i = page !! i.
Proof.
  intros Hl Hnul Hline. unfold main, iosetup. unfold GPIOLINES in Hline.
  rewrite (proj2 (Z.ltb_ge (atoi arg1) 0)), (proj2 (Z.ltb_ge (GPIOLINES - 1) (atoi arg1))) by (unfold GPIOLINES; lia).
  cbn [orb]. set (lines := map Z.of_nat _). set (n := atoi arg1) in *.
  assert (∀ r : Mmcr.t, word (sfield page r)) as Hw by (intros []; exact (sfield_range page _)).
  rewrite (for_lines_spec Mmcr.PIOFS15_0 (λ i v, Z.land v (notw 32 (bit i)))) by (done || intros; by apply clear_bit_word).
  rewrite bind_Ret_l. set (fs := foldl _ _ lines). set (page1 := with_field _ _ fs).
  assert (Z.of_nat (length page) = sizeof Mmcr.t) as Hs by (by rewrite Hl).
  assert (length page1 = 4096%nat) as Hl1 by (unfold page1; by rewrite length_with_field).
  rewrite (for_lines_spec Mmcr.PIODIR15_0 (λ i v, Z.lor v (bit i))) by (done || intros; by apply set_bit_word).
  rewrite bind_Ret_l. set (dir := foldl _ _ lines). set (page2 := with_field page1 _ dir).
  assert (length page2 = 4096%nat) as Hl2 by (unfold page2; rewrite length_with_field; by rewrite ?Hl1).
  unfold setvalue. rewrite update_spec by done. 
  set (on := strncmp arg2 (bs "on") 2 =? 0).
  set (v := if on then Z.lor (sfield page2 Mmcr.PIODATA15_0) (bit n) else Z.land (sfield page2 Mmcr.PIODATA15_0) (notw 32 (bit n))). eexists. split; [done | ].
  assert (Z.of_nat (length page1) = sizeof Mmcr.t) as Hs1 by (by rewrite Hl1).
  assert (Z.of_nat (length page2) = sizeof Mmcr.t) as Hs2 by (by rewrite Hl2).
  assert (sfield page2 Mmcr.PIODATA15_0 = sfield page Mmcr.PIODATA15_0) as Ed
    by (unfold page2, page1; by rewrite !field_with_field_ne).
  assert (word v) as Hv. { unfold v. destruct on; [apply set_bit_word | apply clear_bit_word]; rewrite Ed; apply Hw. }
  assert (word fs) as Hfs. { apply (foldl_word (λ i v, Z.land v (notw 32 (bit i)))); [intros; by apply clear_bit_word | done]. }
  assert (word dir) as Hdir.
  { apply (foldl_word (λ i v, Z.lor v (bit i))); [intros; by apply set_bit_word | ].
    exact (sfield_range page1 _). }
  split; [by rewrite length_with_field | ]. split.
  - intros k Hk. split_and!.
    + rewrite field_with_field, Z.mod_small by (done || apply Hv). unfold v.
      replace on with (bool_decide (bs "on" `prefix_of` arg2)).
      2: { unfold on. apply eq_true_iff_eq. rewrite bool_decide_eq_true, Z.eqb_eq.
           rewrite strncmp_0 by (done || (unfold nonul; decided)). split.
           - by intros [r ->].
           - intros E. exists (drop 2 arg2). change (bs "on") with (take 2 (bs "on")). rewrite <- E. by rewrite take_drop. }
      case_bool_decide; rewrite ?set_bit_spec, ?clear_bit_spec by (rewrite ?Ed; apply Hw || lia); rewrite Ed;
        destruct (k =? pin n); by rewrite ?orb_true_r, ?orb_false_r, ?andb_true_r, ?andb_false_r.
    + rewrite field_with_field_ne by done. unfold page2. rewrite field_with_field_ne by done.
      unfold page1. rewrite field_with_field, Z.mod_small by (done || apply Hfs). unfold fs.
      rewrite clear_bits by (apply Hw || lia). by rewrite lines_pins.
    + rewrite field_with_field_ne by done. unfold page2. rewrite field_with_field, Z.mod_small by (done || apply Hdir).
      unfold dir. rewrite set_bits by lia. unfold page1. rewrite (field_with_field_ne page _ Mmcr.PIODIR15_0) by done.
      by rewrite lines_pins.
  - intros i Hi. rewrite (with_field_outside page2) by (done || apply Hi).
    unfold page2. rewrite (with_field_outside page1) by (done || apply Hi).
    unfold page1. by rewrite (with_field_outside page) by (done || apply Hi).
Qed.

(** A line that is not one of the nine, or another number of arguments: nothing is
    mapped. *)
Lemma gpio_usage args mmap :
  (∀ arg1 arg2, args = [arg1; arg2] → ¬ 0 ≤ atoi arg1 < GPIOLINES) → main args mmap = Die "usage".
Proof.
  intros Hargs. unfold main. destruct args as [|arg1 [|arg2 [|? ?]]]; [done | done | | done].
  specialize (Hargs arg1 arg2 eq_refl). destruct (Z.ltb_spec (atoi arg1) 0); [done | ].
  by rewrite (proj2 (Z.ltb_lt (GPIOLINES - 1) (atoi arg1))) by lia.
Qed.
End gpio.

Module Witness.
#[local] Existing Instance i386.

(** The error light is switched on. *)
Lemma gpio_switches_one_pin_witness : ∃ page',
  main [bs "8"; bs "on"] (Some (repeat Byte.x00 4096)) = Ret page' ∧
  Z.testbit (sfield page' Mmcr.PIODATA15_0) 9 = true ∧ Z.testbit (sfield page' Mmcr.PIODATA15_0) 8 = false.
Proof.
  destruct (gpio_switches_one_pin (bs "8") (bs "on") (repeat Byte.x00 4096)) as (page' & E & _ & Hbits & _).
  - by rewrite repeat_length.
  - unfold nonul. decided.
  - split; [vm_compute; discriminate | vm_compute; reflexivity].
  - exists page'. split; [exact E | ]. split.
    + rewrite (proj1 (Hbits 9 ltac:(lia))). vm_compute. reflexivity.
    + rewrite (proj1 (Hbits 8 ltac:(lia))). vm_compute. reflexivity.
Defined.
End Witness.
