(* ===== verification/Kdump.v ===== *)
(** kdump (src/kexec-tools/kdump/kdump.c): it copies the memory of a crashed kernel to
    its standard output as an ELF core file.  The headers and the notes of the crash
    are at an address of the memory that the argument gives.

    [mmap size offset] is what mapping /dev/mem gives: the bytes, or a failure.  [write]
    is a list of answers: when there is none left, the program waits for ever.  What
    [malloc] finds in its memory and the variable [written] of [write_all], which is
    never set, are arguments. *)

From Stdlib Require Import ZArith Lia String.
From stdpp Require Import base tactics list numbers.
From coqutil Require Import Byte.
From S2P Require Import Prelude Words CMem CString Struct Elf.

#[local] Open Scope Z_scope.

(** ** Data: the structures of elf.h in the byte order of the host *)

Module Ehdr64.
Inductive t :=
| e_type | e_machine | e_version | e_entry | e_phoff | e_shoff | e_flags | e_ehsize | e_phentsize
| e_phnum | e_shentsize | e_shnum | e_shstrndx.

#[global] Instance struct : Struct t.
Proof.
  refine {| f_off := λ f, match f with
              | e_type => 16 | e_machine => 18 | e_version => 20 | e_entry => 24 | e_phoff => 32
              | e_shoff => 40 | e_flags => 48 | e_ehsize => 52 | e_phentsize => 54 | e_phnum => 56
              | e_shentsize => 58 | e_shnum => 60 | e_shstrndx => 62 end;
            f_size := λ f, match f with
              | e_version | e_flags => 4%nat | e_entry | e_phoff | e_shoff => 8%nat | _ => 2%nat end;
            sizeof := 64 |}; layout_laws.
Defined.
End Ehdr64.

Module Phdr64.
Inductive t := p_type | p_flags | p_offset | p_vaddr | p_paddr | p_filesz | p_memsz | p_align.

#[global] Instance struct : Struct t.
Proof.
  refine {| f_off := λ f, match f with
              | p_type => 0 | p_flags => 4 | p_offset => 8 | p_vaddr => 16 | p_paddr => 24
              | p_filesz => 32 | p_memsz => 40 | p_align => 48 end;
            f_size := λ f, match f with p_type | p_flags => 4%nat | _ => 8%nat end;
            sizeof := 56 |}; layout_laws.
Defined.
End Phdr64.

Module Nhdr64.
Inductive t := n_namesz | n_descsz | n_type.

#[global] Instance struct : Struct t.
Proof.
  refine {| f_off := λ f, match f with n_namesz => 0 | n_descsz => 4 | n_type => 8 end;
            f_size := λ f, 4%nat; sizeof := 12 |}; layout_laws.
Defined.
End Nhdr64.

Definition MAP_WINDOW_SIZE : Z := 64 * 1024 * 1024.
Definition ET_CORE : Z := 4.

(** The answer to a [write]: the number of bytes it took at most, a failure after which
    it is tried again, another failure. *)
Inductive wres := Wrote (n : Z) | Again | Failed.

(** What was written, and the answers to come. *)
Record out := { stdout : list byte; writes : list wres }.

(** 64-bit integers of any host. *)
Definition strtoull : list byte → Z * list byte := strtoul (H := x86_64).

Section kdump.
Context `{Arch}.
Context (mmap : Z → Z → option (list byte)).
Context (malloc_notes malloc_headers : list byte) (written0 : Z).

Definition map_addr (size offset : Z) : outcome (list byte) :=
  match mmap (ul size) offset with Some l => Ret l | None => Die "Cannot mmap /dev/mem" end.

Definition malloc (garbage : list byte) (size : Z) : list byte := resize (Z.to_nat size) Byte.x00 garbage.

(** ** The notes *)

(** The walk over the notes from [hdr] up to [lhdr]: [result_bytes] is where the last
    good note starts. *)
Fixpoint walk_notes (fuel : nat) (notes : list byte) (hdr lhdr result_bytes : Z) : outcome Z :=
  match fuel with
  | O => Spin
  | S fuel =>
      if hdr <? lhdr then
        namesz ← read_at notes hdr 4;
        if combine host_be namesz =? 0 then Ret result_bytes
        else
          descsz ← read_at notes (hdr + f_off Nhdr64.n_descsz) 4;
          let up4 x := Z.land (u32 (x + 3)) (notw 32 3) in
          let hdr_size := ul (ul (sizeof Nhdr64.t + up4 (combine host_be namesz)) + up4 (combine host_be descsz)) in
          let nhdr := hdr + hdr_size in
          if lhdr <? nhdr then Ret result_bytes
          else walk_notes fuel notes nhdr lhdr hdr
      else Ret result_bytes
  end.

(** The loop over the program headers: [notes] is the array, [result_bytes] its used
    part. *)
Fixpoint collect_loop (phdrs : list (list byte)) (notes : list byte) (result_bytes : Z)
    : outcome (list byte * Z) :=
  match phdrs with
  | [] => Ret (notes, result_bytes)
  | p :: phdrs =>
      if negb (sfield p Phdr64.p_type =? PT_NOTE) then collect_loop phdrs notes result_bytes
      else
        let filesz := sfield p Phdr64.p_filesz in
        pnotes ← map_addr filesz (sfield p Phdr64.p_offset);
        data ← read_at pnotes 0 (ul filesz);
        notes ← write_at notes result_bytes data;
        result_bytes ← walk_notes (S (length notes)) notes result_bytes (result_bytes + ul filesz) result_bytes;
        collect_loop phdrs notes result_bytes
  end.

Definition collect_notes (phdrs : list (list byte)) : outcome (list byte * Z) :=
  let bytes := foldl (λ b p, if sfield p Phdr64.p_type =? PT_NOTE then ul (b + sfield p Phdr64.p_filesz) else b)
                 0 phdrs in
  collect_loop phdrs (malloc malloc_notes bytes) 0.

(** ** The headers *)

(** The loop over the other program headers: each is written to the same place [nphdr],
    which the loop does not move. *)
Fixpoint headers_loop (phdrs : list (list byte)) (headers : list byte) (nphdr offset : Z) : outcome (list byte) :=
  match phdrs with
  | [] => Ret headers
  | p :: phdrs =>
      if sfield p Phdr64.p_type =? PT_NOTE then headers_loop phdrs headers nphdr offset
      else
        headers ← write_at headers nphdr (with_field p Phdr64.p_offset offset);
        headers_loop phdrs headers nphdr (u64 (offset + sfield p Phdr64.p_filesz))
  end.

Definition note_phdr (bytes note_bytes : Z) : list byte :=
  with_fields (replicate 56 Byte.x00)
    [(Phdr64.p_type, PT_NOTE); (Phdr64.p_offset, bytes); (Phdr64.p_vaddr, 0); (Phdr64.p_paddr, 0);
     (Phdr64.p_filesz, note_bytes); (Phdr64.p_memsz, note_bytes); (Phdr64.p_flags, 0); (Phdr64.p_align, 0)].

Definition new_ehdr (ehdr : list byte) (phnum : Z) : list byte :=
  with_fields ehdr
    [(Ehdr64.e_phoff, sizeof Ehdr64.t); (Ehdr64.e_phnum, phnum); (Ehdr64.e_shoff, 0); (Ehdr64.e_shentsize, 0);
     (Ehdr64.e_shnum, 0); (Ehdr64.e_shstrndx, 0)].

Definition generate_new_headers (ehdr : list byte) (phdrs : list (list byte)) (note_bytes : Z)
    : outcome (list byte) :=
  let phnum := foldl (λ n p, if sfield p Phdr64.p_type =? PT_NOTE then n else u32 (n + 1)) 1 phdrs in
  let bytes := ul (sizeof Ehdr64.t + ul (sizeof Phdr64.t * phnum)) in
  headers ← write_at (malloc malloc_headers bytes) 0 (new_ehdr ehdr phnum);
  headers ← write_at headers (sizeof Ehdr64.t) (note_phdr bytes note_bytes);
  headers_loop phdrs headers (sizeof Ehdr64.t + sizeof Phdr64.t) (u64 (bytes + note_bytes)).

(** ** The output *)

(** The loop, with [left] bytes of [ptr] to go. *)
Fixpoint write_loop (answers : list wres) (ptr : list byte) (count written : Z) (stdout : list byte) : outcome out :=
  match answers with
  | [] => Spin
  | Wrote n :: answers =>
      let n := Nat.min (Z.to_nat n) (length ptr) in
      let written := written + Z.of_nat n in
      let stdout := stdout ++ take n ptr in
      if ul written <? count then write_loop answers (drop n ptr) count written stdout
      else Ret {| stdout := stdout; writes := answers |}
  | Again :: answers =>
      if ul written <? count then write_loop answers ptr count written stdout
      else Ret {| stdout := stdout; writes := answers |}
  | Failed :: _ => Die "write failed"
  end.

Definition write_all (buf : list byte) (o : out) : outcome out :=
  write_loop (writes o) buf (Z.of_nat (length buf)) written0 (stdout o).

(** The windows of one segment. *)
Fixpoint copy_loop (fuel : nat) (offset size : Z) (o : out) : outcome out :=
  match fuel with
  | O => Spin
  | S fuel =>
      if 0 <? size then
        let wsize := if size <? MAP_WINDOW_SIZE then size else MAP_WINDOW_SIZE in
        buf ← map_addr wsize offset;
        data ← read_at buf 0 wsize;
        o ← write_all data o;
        copy_loop fuel (u64 (offset + wsize)) (size - wsize) o
      else Ret o
  end.

(** The loop over the program headers: the test keeps the notes, not the memory. *)
Fixpoint copy_segments (phdrs : list (list byte)) (o : out) : outcome out :=
  match phdrs with
  | [] => Ret o
  | p :: phdrs =>
      if negb (sfield p Phdr64.p_type =? PT_NOTE) then copy_segments phdrs o
      else
        let size := sfield p Phdr64.p_filesz in
        o ← copy_loop (S (S (Z.to_nat (size / MAP_WINDOW_SIZE)))) (sfield p Phdr64.p_offset) size o;
        copy_segments phdrs o
  end.

(** ** The program *)

Definition ELFDATALOCAL : Z := if host_be then ELFDATA2MSB else ELFDATA2LSB.

Definition valid_ehdr (e : list byte) : bool :=
  bool_decide (take 4 e = ELFMAG) && (byte.unsigned (nth 4 e Byte.x00) =? ELFCLASS64)
  && (byte.unsigned (nth 5 e Byte.x00) =? ELFDATALOCAL) && (byte.unsigned (nth 6 e Byte.x00) =? EV_CURRENT)
  && (sfield e Ehdr64.e_type =? ET_CORE) && (sfield e Ehdr64.e_version =? EV_CURRENT)
  && (sfield e Ehdr64.e_ehsize =? sizeof Ehdr64.t) && (sfield e Ehdr64.e_phentsize =? sizeof Phdr64.t)
  && negb (sfield e Ehdr64.e_phnum =? 0).

(** The table of [n] program headers. *)
Fixpoint phdr_table (n : nat) (table : list byte) : list (list byte) :=
  match n with
  | O => []
  | S n => take 56 table :: phdr_table n (drop 56 table)
  end.

(** The arguments after the name of the program, and the variable [elfcorehdr]. *)
Definition main (args : list (list byte)) (elfcorehdr : option (list byte)) (o : out) : outcome out :=
  start ← match args with
          | [] => match elfcorehdr with Some s => Ret s | None => Die "Cannot find the start of the core dump" end
          | [s] => Ret s
          | _ => Die "Invalid argument count"
          end;
  let '(start_addr, rest) := strtoull start in
  if bool_decide (rest = start) || negb (bool_decide (rest = [])) then Die "Bad core dump start addres: %s"
  else
    ehdr ← map_addr (sizeof Ehdr64.t) start_addr;
    if negb (valid_ehdr ehdr) then Die "Invalid Elf header"
    else
      let phnum := sfield ehdr Ehdr64.e_phnum in
      table ← map_addr (sizeof Phdr64.t * phnum) (sfield ehdr Ehdr64.e_phoff);
      let phdrs := phdr_table (Z.to_nat phnum) table in
      '(notes, note_bytes) ← collect_notes phdrs;
      headers ← generate_new_headers ehdr phdrs note_bytes;
      o ← write_all headers o;
      notes ← read_at notes 0 note_bytes;
      o ← write_all notes o;
      copy_segments phdrs o.
End kdump.
