(* ===== verification/KdumpSpec.v ===== *)
(** What kdump writes: of the memory of the crashed kernel, which its headers announce,
    there is nothing in the file, and the last note of each note segment is missing. *)

From Stdlib Require Import ZArith Lia String.
From stdpp Require Import base tactics list numbers sets.
From coqutil Require Import Byte.
From S2P Require Import Prelude Words CMem CString Struct Elf Kdump.

#[local] Open Scope Z_scope.

Section kdump.
Context `{Arch}.

(** ** Writing *)

Lemma write_loop_post : ∀ answers ptr count written stdout0,
  0 ≤ written → count = written + Z.of_nat (length ptr) → count < 2 ^ ulong_bits →
  post (λ o, stdout o = stdout0 ++ ptr) (write_loop answers ptr count written stdout0).
Proof.
  induction answers as [|a answers IH]; intros ptr count written stdout0 Hw Hc Hm; [done | ].
  destruct a as [n | | ]; cbn [write_loop]; [ | | done].
  - set (k := Nat.min (Z.to_nat n) (length ptr)).
    assert (ul (written + Z.of_nat k) = written + Z.of_nat k) as -> by (unfold ul; apply Z.mod_small; lia).
    destruct (Z.ltb_spec (written + Z.of_nat k) count).
    + eapply post_weaken; [apply IH; [lia | rewrite length_drop; lia | done] | ].
      intros o ->. rewrite <- app_assoc. by rewrite take_drop.
    + apply post_ret. cbn [stdout]. rewrite take_ge by lia. done.
  - assert (ul written = written) as -> by (unfold ul; apply Z.mod_small; lia).
    destruct (Z.ltb_spec written count); [by apply IH | ]. apply post_ret. cbn [stdout].
    assert (ptr = []) as -> by (apply length_zero_iff_nil; lia). by rewrite app_nil_r.
Qed.

(** A write that takes all that it is given. *)
Definition complete (a : wres) : Prop := match a with Wrote n => 2 ^ 64 ≤ n | _ => False end.

Lemma write_loop_complete a answers ptr count stdout0 :
  complete a → count = Z.of_nat (length ptr) → count < 2 ^ ulong_bits →
  write_loop (a :: answers) ptr count 0 stdout0 = Ret {| stdout := stdout0 ++ ptr; writes := answers |}.
Proof.
  intros Ha -> Hm. destruct a as [n | | ]; [ | done..]. cbn [complete write_loop] in *.
  assert (2 ^ ulong_bits ≤ 2 ^ 64) by (destruct ulong_bits_ok as [-> | ->]; done).
  replace (Nat.min (Z.to_nat n) (length ptr)) with (length ptr) by lia.
  assert (ul (0 + Z.of_nat (length ptr)) = Z.of_nat (length ptr)) as -> by (unfold ul; apply Z.mod_small; lia).
  rewrite Z.ltb_irrefl. by rewrite take_ge by lia.
Qed.

(** [buf] is written, and when all writes are complete one is enough. *)
Definition writes_ok (n : nat) (buf : list byte) (f : out → outcome out) : Prop :=
  ∀ o, post (λ o', stdout o' = stdout o ++ buf) (f o) ∧
    (Forall complete (writes o) → (n ≤ length (writes o))%nat →
     ∃ o', f o = Ret o' ∧ writes o' = drop n (writes o)).

Lemma write_all_ok buf : Z.of_nat (length buf) < 2 ^ ulong_bits → writes_ok 1 buf (write_all 0 buf).
Proof.
  intros Hm o. unfold write_all. split; [by apply write_loop_post | ]. intros Hc Hl.
  destruct (writes o) as [|a ws]; [simpl in Hl; lia | ]. apply Forall_cons_1 in Hc as [Ha _].
  rewrite write_loop_complete by done. by eexists.
Qed.

Lemma writes_ok_seq n k buf buf' f g :
  writes_ok n buf f → writes_ok k buf' g → writes_ok (n + k) (buf ++ buf') (λ o, f o ≫= g).
Proof.
  intros Hf Hg o. destruct (Hf o) as [Hp Hr]. split.
  - eapply post_bind; [exact Hp | ]. intros o1 Ho1. eapply post_weaken; [apply (Hg o1) | ].
    intros o2 ->. by rewrite Ho1, app_assoc.
  - intros Hc Hl. destruct Hr as (o1 & E1 & Hw); [done | lia | ]. rewrite E1, bind_Ret_l.
    destruct (proj2 (Hg o1)) as (o2 & E2 & Hw2); [rewrite Hw; by apply Forall_drop | rewrite Hw, length_drop; lia | ].
    exists o2. by rewrite Hw2, Hw, drop_drop.
Qed.

Lemma writes_ok_nothing : writes_ok 0 [] (λ o, Ret o).
Proof. intros o. split; [apply post_ret; by rewrite app_nil_r | intros _ _; by exists o]. Qed.

(** ** The memory *)

Context (phys : Z → byte) (size_of_memory : Z) (mmap : Z → Z → option (list byte)).

(** The [n] bytes of the memory from [off] on. *)
Definition region (off n : Z) : list byte := map (λ i, phys (off + Z.of_nat i)) (seq 0 (Z.to_nat n)).

(** A mapping of a part of the memory is possible from a page on. *)
Hypothesis mmap_region : ∀ n off,
  0 < n → (pagesize | off) → 0 ≤ off → off + n ≤ size_of_memory → mmap n off = Some (region off n).
Hypothesis memory_small : size_of_memory < 2 ^ ulong_bits.

Lemma length_region off n : length (region off n) = Z.to_nat n.
Proof. unfold region. by rewrite length_map, length_seq. Qed.

Lemma region_app off n k : 0 ≤ n → 0 ≤ k → region off (n + k) = region off n ++ region (off + n) k.
Proof.
  intros Hn Hk. unfold region. rewrite Z2Nat.inj_add, seq_app, map_app by done. f_equal.
  rewrite Nat.add_0_l. apply list_eq. intros i.
  rewrite !list_lookup_fmap. destruct (decide (i < Z.to_nat k)%nat).
  - rewrite !lookup_seq_lt by lia. cbn. do 2 f_equal. lia.
  - by rewrite !lookup_seq_ge by lia.
Qed.

(** A part of the memory that a mapping can begin with. *)
Definition mappable (off n : Z) : Prop :=
  0 ≤ off ∧ 0 ≤ n ∧ (pagesize | off) ∧ off + n ≤ size_of_memory.

Lemma map_addr_region off n : mappable off n → 0 < n → map_addr mmap n off = Ret (region off n).
Proof.
  intros (Ho & Hn & Hp & Hs) Hpos. unfold map_addr.
  assert (ul n = n) as -> by (unfold ul; apply Z.mod_small; lia). by rewrite mmap_region.
Qed.

Lemma window_aligned off : (pagesize | off) → (pagesize | off + MAP_WINDOW_SIZE).
Proof.
  intros Hp. apply Z.divide_add_r; [done | ]. unfold pagesize, MAP_WINDOW_SIZE.
  pose proof page_bits_ok. exists (2 ^ (26 - page_bits)). rewrite <- Z.pow_add_r by lia.
  by replace (26 - page_bits + page_bits) with 26 by lia.
Qed.

Definition windows (size : Z) : nat := Z.to_nat ((size + MAP_WINDOW_SIZE - 1) / MAP_WINDOW_SIZE).

Lemma windows_step size : 0 < size →
  windows size = S (windows (size - (if size <? MAP_WINDOW_SIZE then size else MAP_WINDOW_SIZE))).
Proof.
  intros Hs. unfold windows. destruct (Z.ltb_spec size MAP_WINDOW_SIZE) as [Hlt | Hge].
  - rewrite Z.sub_diag. rewrite (Z.div_small (0 + MAP_WINDOW_SIZE - 1)) by (unfold MAP_WINDOW_SIZE; lia).
    replace (size + MAP_WINDOW_SIZE - 1) with (size - 1 + 1 * MAP_WINDOW_SIZE) by lia.
    rewrite Z.div_add, Z.div_small by (unfold MAP_WINDOW_SIZE in *; lia). done.
  - replace (size + MAP_WINDOW_SIZE - 1) with (size - 1 + 1 * MAP_WINDOW_SIZE) by lia.
    replace (size - MAP_WINDOW_SIZE + MAP_WINDOW_SIZE - 1) with (size - 1) by lia.
    rewrite Z.div_add by (unfold MAP_WINDOW_SIZE; lia).
    assert (0 ≤ (size - 1) / MAP_WINDOW_SIZE) by (apply Z.div_pos; unfold MAP_WINDOW_SIZE; lia). lia.
Qed.

Lemma copy_loop_ok : ∀ fuel off size,
  mappable off size → (windows size < fuel)%nat →
  writes_ok (windows size) (region off size) (copy_loop mmap 0 fuel off size).
Proof.
  induction fuel as [|fuel IH]; intros off size Hm Hf; [lia | ]. cbn [copy_loop].
  destruct (Z.ltb_spec 0 size) as [Hpos | Hz].
  2: { destruct Hm as (_ & Hn & _). assert (size = 0) as -> by lia. exact writes_ok_nothing. }
  rewrite (windows_step size Hpos) in *. set (w := if size <? MAP_WINDOW_SIZE then size else MAP_WINDOW_SIZE) in *.
  assert (0 < w ≤ size) as Hw by (unfold w; destruct (Z.ltb_spec size MAP_WINDOW_SIZE); unfold MAP_WINDOW_SIZE in *; lia).
  destruct Hm as (Ho & Hn & Hp & Hs). assert (mappable off w) as Hmw by (split_and!; (done || lia)).
  rewrite map_addr_region by (done || lia). 
  assert (u64 (off + w) = off + w) as Hu.
  { unfold u64. apply Z.mod_small. assert (2 ^ ulong_bits ≤ 2 ^ 64) by (destruct ulong_bits_ok as [-> | ->]; done). lia. }
  assert (read_at (region off w) 0 w = Ret (region off w)) as Hread.
  { rewrite <- (app_nil_r (region off w)) at 1. apply read_at_front. rewrite length_region. lia. }
  replace (region off size) with (region off w ++ region (off + w) (size - w))
    by (rewrite <- region_app by lia; f_equal; lia).
  change (S ?n) with (1 + n)%nat.
  intros o. rewrite bind_Ret_l, Hread, bind_Ret_l, Hu.
  revert o. apply (writes_ok_seq 1 (windows (size - w))).
  - apply write_all_ok. rewrite length_region. lia.
  - destruct (decide (w = size)) as [Ews | Hne].
    + rewrite Ews, Z.sub_diag in *. destruct fuel; [lia | ]. exact writes_ok_nothing.
    + apply IH; [ | lia]. assert (w = MAP_WINDOW_SIZE) as Ew.
      { unfold w in *. by destruct (size <? MAP_WINDOW_SIZE). }
      split_and!; [lia | lia | rewrite Ew; by apply window_aligned | lia].
Qed.

(** ** The notes *)

Definition is_note (p : list byte) : bool := sfield p Phdr64.p_type =? PT_NOTE.

Record note := { nt_name : Z; nt_desc : Z; nt_type : Z; nt_body : list byte }.

Definition up4 (x : Z) : Z := round_up x 4.

(** A note with a name, and its bytes. *)
Definition good_note (n : note) : Prop :=
  0 < nt_name n < 2 ^ 30 ∧ 0 ≤ nt_desc n < 2 ^ 30 ∧
  Z.of_nat (length (nt_body n)) = up4 (nt_name n) + up4 (nt_desc n).

Definition note_bytes (n : note) : list byte :=
  split host_be 4 (nt_name n) ++ split host_be 4 (nt_desc n) ++ split host_be 4 (nt_type n) ++ nt_body n.

(** What follows the notes of a segment: nothing, or a note without a name. *)
Definition end_of_notes (t : list byte) : Prop := t = [] ∨ ∃ t', t = replicate 4 Byte.x00 ++ t'.

Definition bytes_of (ns : list note) : list byte := concat (map note_bytes ns).

Lemma length_note n : good_note n → Z.of_nat (length (note_bytes n)) = 12 + up4 (nt_name n) + up4 (nt_desc n).
Proof. intros (_ & _ & Hb). unfold note_bytes. rewrite !length_app, !length_split. lia. Qed.

Lemma read_word A x w B off : off = Z.of_nat (length A) → 0 ≤ x < 2 ^ 32 → w = 4 →
  read_at (A ++ split host_be 4 x ++ B) off w = Ret (split host_be 4 x) ∧ combine host_be (split host_be 4 x) = x.
Proof.
  intros -> Hx ->. split; [by apply read_at_app; rewrite ?length_split | ]. rewrite combine_split. by apply Z.mod_small.
Qed.

Lemma up4_mask x : 0 ≤ x < 2 ^ 30 → Z.land (u32 (x + 3)) (notw 32 3) = up4 x.
Proof.
  intros Hx. unfold u32. rewrite Z.mod_small by lia. unfold up4, round_up. replace (x + 4 - 1) with (x + 3) by lia.
  apply (land_notw_pow2 32 (x + 3) 4); [done | by exists 2 | lia].
Qed.

(** The walk stops at the start of the last note. *)
Lemma walk_notes_spec : ∀ ns fuel front tail back rb,
  Forall good_note ns → end_of_notes tail → (length ns < fuel)%nat →
  Z.of_nat (length (front ++ bytes_of ns ++ tail)) < 2 ^ 30 →
  walk_notes fuel (front ++ bytes_of ns ++ tail ++ back) (Z.of_nat (length front))
      (Z.of_nat (length (front ++ bytes_of ns ++ tail))) rb
    = Ret (match ns with
           | [] => rb
           | _ => Z.of_nat (length front) + Z.of_nat (length (bytes_of (removelast ns)))
           end).
Proof.
  induction ns as [|n ns IH]; intros fuel front tail back rb Hns Ht Hf Hsmall; (destruct fuel as [|fuel]; [lia | ]).
  - unfold bytes_of in *. cbn [walk_notes map concat app] in *. destruct Ht as [-> | (t & ->)].
    + rewrite app_nil_r, Z.ltb_irrefl. done.
    + destruct (Z.ltb_spec (Z.of_nat (length front)) (Z.of_nat (length (front ++ replicate 4 Byte.x00 ++ t)))) as [_ | Hge];
        [ | rewrite !length_app, length_replicate in Hge; lia].
      rewrite <- (app_assoc (replicate 4 Byte.x00)).
      rewrite (read_at_app front (replicate 4 Byte.x00) (t ++ back) (Z.of_nat (length front)) 4) by (by rewrite ?length_replicate). rewrite bind_Ret_l.
      assert (combine host_be (replicate 4 Byte.x00) = 0) as -> by (by destruct host_be).
      done.
  - apply Forall_cons_1 in Hns as [Hn Hns]. pose proof Hn as (Hname & Hdesc & Hbody).
    pose proof (length_note n Hn) as Hlen.
    pose proof (round_up_spec (nt_name n) 4 ltac:(lia)). pose proof (round_up_spec (nt_desc n) 4 ltac:(lia)).
    fold (up4 (nt_name n)) in *. fold (up4 (nt_desc n)) in *.
    assert (bytes_of (n :: ns) = note_bytes n ++ bytes_of ns) as Eb by done.
    rewrite Eb in *. cbn [walk_notes]. rewrite !length_app in Hsmall.
    destruct (Z.ltb_spec (Z.of_nat (length front)) (Z.of_nat (length (front ++ (note_bytes n ++ bytes_of ns) ++ tail))))
      as [_ | Hge]; [ | rewrite !length_app in Hge; lia].
    set (rest := bytes_of ns ++ tail ++ back).
    assert (front ++ (note_bytes n ++ bytes_of ns) ++ tail ++ back =
      front ++ split host_be 4 (nt_name n) ++ split host_be 4 (nt_desc n) ++ split host_be 4 (nt_type n) ++ nt_body n ++ rest)
      as E1 by (unfold rest, note_bytes; by rewrite <- !app_assoc).
    destruct (read_word front (nt_name n) 4 (split host_be 4 (nt_desc n) ++ split host_be 4 (nt_type n) ++ nt_body n ++ rest)
      (Z.of_nat (length front)) eq_refl ltac:(lia) eq_refl) as [Hr1 Hc1].
    destruct (read_word (front ++ split host_be 4 (nt_name n)) (nt_desc n) 4 (split host_be 4 (nt_type n) ++ nt_body n ++ rest)
      (Z.of_nat (length front) + 4)) as [Hr2 Hc2]; [rewrite length_app, length_split; lia | lia | done | ].
    rewrite E1, Hr1, bind_Ret_l, Hc1. destruct (Z.eqb_spec (nt_name n) 0) as [ | _]; [lia | ].
    change (f_off Nhdr64.n_descsz) with 4. rewrite <- app_assoc in Hr2. rewrite Hr2, bind_Ret_l, Hc2.
    cbv zeta. rewrite !up4_mask by lia. change (sizeof Nhdr64.t) with 12.
    assert (2 ^ 32 ≤ 2 ^ ulong_bits) by (destruct ulong_bits_ok as [-> | ->]; done).
    assert (ul (ul (12 + up4 (nt_name n)) + up4 (nt_desc n)) = Z.of_nat (length (note_bytes n))) as Eh.
    { unfold ul. rewrite (Z.mod_small (12 + up4 (nt_name n))) by lia. rewrite Z.mod_small by lia. lia. }
    rewrite Eh. replace (Z.of_nat (length front) + Z.of_nat (length (note_bytes n))) with (Z.of_nat (length (front ++ note_bytes n)))
      by (rewrite length_app; lia).
    destruct (Z.ltb_spec (Z.of_nat (length (front ++ (note_bytes n ++ bytes_of ns) ++ tail))) (Z.of_nat (length (front ++ note_bytes n))))
      as [Hlt | _]; [rewrite !length_app in Hlt; lia | ].
    rewrite <- E1. replace (front ++ (note_bytes n ++ bytes_of ns) ++ tail ++ back)
      with ((front ++ note_bytes n) ++ bytes_of ns ++ tail ++ back) by (by rewrite <- !app_assoc).
    replace (front ++ (note_bytes n ++ bytes_of ns) ++ tail) with ((front ++ note_bytes n) ++ bytes_of ns ++ tail)
      by (by rewrite <- !app_assoc).
    rewrite (IH fuel (front ++ note_bytes n)); [ | done | done | simpl in Hf; lia | rewrite !length_app; lia ].
    destruct ns as [|n' ns].
    + cbn [removelast]. unfold bytes_of. cbn. f_equal. lia.
    + cbn [removelast]. change (bytes_of (n :: ?l)) with (note_bytes n ++ bytes_of l). rewrite !length_app.
      f_equal. lia.
Qed.

(** *** All the segments *)

(** The notes and the end of a note segment that the program header [p] describes. *)
Definition note_segment (p : list byte) (seg : list note * list byte) : Prop :=
  let off := sfield p Phdr64.p_offset in
  let n := sfield p Phdr64.p_filesz in
  mappable off n ∧ 0 < n ∧ region off n = bytes_of seg.1 ++ seg.2 ∧ Forall good_note seg.1 ∧ end_of_notes seg.2.

(** What is kept: all notes but the last of each segment. *)
Definition kept (segs : list (list note * list byte)) : list byte :=
  concat (map (λ seg, bytes_of (removelast seg.1)) segs).

Definition total (segs : list (list note * list byte)) : nat :=
  list_sum (map (λ seg, length (bytes_of seg.1 ++ seg.2)) segs).

Lemma bytes_of_removelast ns : ns ≠ [] → ∃ n, bytes_of ns = bytes_of (removelast ns) ++ note_bytes n.
Proof.
  intros Hne. exists (List.last ns {| nt_name := 0; nt_desc := 0; nt_type := 0; nt_body := [] |}).
  rewrite (app_removelast_last {| nt_name := 0; nt_desc := 0; nt_type := 0; nt_body := [] |} Hne) at 1.
  unfold bytes_of. rewrite map_app, concat_app. cbn. by rewrite app_nil_r.
Qed.

Lemma collect_loop_spec : ∀ phdrs segs K rest,
  Forall2 note_segment (List.filter is_note phdrs) segs → (total segs ≤ length rest)%nat →
  Z.of_nat (length (K ++ rest)) < 2 ^ 30 →
  ∃ rest', collect_loop mmap phdrs (K ++ rest) (Z.of_nat (length K))
    = Ret ((K ++ kept segs) ++ rest', Z.of_nat (length (K ++ kept segs))).
Proof.
  induction phdrs as [|p phdrs IH]; intros segs K rest Hsegs Hroom Hsmall; cbn [List.filter] in Hsegs.
  { apply Forall2_nil_inv_l in Hsegs as ->. unfold kept. cbn. rewrite app_nil_r. by exists rest. }
  cbn [collect_loop]. fold (is_note p) in *. destruct (is_note p) eqn:Hp; cbn [negb]; [ | by apply IH].
  apply Forall2_cons_inv_l in Hsegs as (seg & segs' & Hseg & Hsegs & ->).
  destruct Hseg as (Hm & Hpos & Hreg & Hgood & Hend). destruct seg as [ns tail]. cbn [fst snd] in *.
  set (n := sfield p Phdr64.p_filesz) in *. set (off := sfield p Phdr64.p_offset) in *.
  rewrite map_addr_region, bind_Ret_l by done.
  assert (ul n = n) as Hul by (unfold ul; apply Z.mod_small; destruct Hm as (? & ? & ? & ?); lia).
  rewrite Hul. pose proof (length_region off n) as Hlr.
  assert (read_at (region off n) 0 n = Ret (region off n)) as ->.
  { rewrite <- (app_nil_r (region off n)) at 1. apply read_at_front. lia. }
  rewrite bind_Ret_l, Hreg in *. set (data := bytes_of ns ++ tail) in *.
  assert (total ((ns, tail) :: segs') = length data + total segs')%nat as Et by done. rewrite Et in Hroom.
  assert (∃ r1 r2, rest = r1 ++ r2 ∧ length r1 = length data) as (r1 & r2 & -> & Hr1).
  { exists (take (length data) rest), (drop (length data) rest). rewrite take_drop, length_take. split; [done | lia]. }
  rewrite length_app in Hroom. rewrite write_at_app, bind_Ret_l by done.
  assert (n = Z.of_nat (length data)) as En by lia. rewrite En.
  rewrite !length_app in Hsmall.
  replace (Z.of_nat (length K) + Z.of_nat (length data)) with (Z.of_nat (length (K ++ bytes_of ns ++ tail)))
    by (fold data; rewrite length_app; lia).
  unfold data. rewrite <- !(app_assoc (bytes_of ns)).
  rewrite walk_notes_spec; [ | done | done | | unfold data in Hr1; rewrite !length_app in *; lia].
  2: { rewrite !length_app. assert (length ns ≤ length (bytes_of ns))%nat; [ | lia].
       clear - Hgood. induction Hgood as [|x ns Hx _ IHn]; [done | ]. change (bytes_of (x :: ns)) with (note_bytes x ++ bytes_of ns).
       pose proof (length_note x Hx). destruct Hx as (? & ? & _). pose proof (round_up_spec (nt_name x) 4 ltac:(lia)).
       pose proof (round_up_spec (nt_desc x) 4 ltac:(lia)). unfold up4 in *. rewrite length_app. simpl. lia. }
  rewrite bind_Ret_l.
  assert (∃ back, bytes_of ns ++ tail ++ r2 = bytes_of (removelast ns) ++ back ∧ (total segs' ≤ length back)%nat) as (back & Eb & Hback).
  { destruct (decide (ns = [])) as [-> | Hne].
    - exists (tail ++ r2). split; [done | ]. rewrite length_app. lia.
    - destruct (bytes_of_removelast ns Hne) as [x Ex]. exists (note_bytes x ++ tail ++ r2).
      rewrite Ex, <- app_assoc. split; [done | ]. rewrite !length_app. lia. }
  rewrite Eb, app_assoc.
  replace (match ns with [] => Z.of_nat (length K) | _ => Z.of_nat (length K) + Z.of_nat (length (bytes_of (removelast ns))) end)
    with (Z.of_nat (length (K ++ bytes_of (removelast ns))))
    by (destruct ns; rewrite ?length_app; cbn; rewrite ?length_app; lia).
  destruct (IH segs' (K ++ bytes_of (removelast ns)) back) as (rest' & ->); [done | done | | ].
  { rewrite <- app_assoc, <- Eb. rewrite !length_app. unfold data in Hr1. rewrite length_app in Hr1. lia. }
  exists rest'. unfold kept. cbn [map concat fst]. fold (kept segs'). by rewrite <- !app_assoc.
Qed.

(** The notes that [collect_notes] keeps. *)
Lemma note_room phdrs : ∀ segs b,
  Forall2 note_segment (List.filter is_note phdrs) segs → 0 ≤ b → b + Z.of_nat (total segs) < 2 ^ 30 →
  foldl (λ b p, if sfield p Phdr64.p_type =? PT_NOTE then ul (b + sfield p Phdr64.p_filesz) else b) b phdrs
    = b + Z.of_nat (total segs).
Proof.
  induction phdrs as [|p phdrs IH]; intros segs b Hsegs Hb Hs; cbn [List.filter] in Hsegs; cbn [foldl].
  { apply Forall2_nil_inv_l in Hsegs as ->. cbn. lia. }
  fold (is_note p). destruct (is_note p); [ | by apply IH].
  apply Forall2_cons_inv_l in Hsegs as (seg & segs' & (Hm & Hpos & Hreg & _) & Hsegs & ->).
  assert (total (seg :: segs') = length (bytes_of seg.1 ++ seg.2) + total segs')%nat as Et by done.
  rewrite Et in *. rewrite <- Hreg, length_region in *.
  assert (2 ^ 32 ≤ 2 ^ ulong_bits) by (destruct ulong_bits_ok as [-> | ->]; done).
  assert (ul (b + sfield p Phdr64.p_filesz) = b + sfield p Phdr64.p_filesz) as -> by (unfold ul; apply Z.mod_small; lia).
  rewrite (IH segs') by (done || lia). lia.
Qed.

Lemma collect_notes_spec garbage phdrs segs :
  Forall2 note_segment (List.filter is_note phdrs) segs → Z.of_nat (total segs) < 2 ^ 30 →
  ∃ rest, collect_notes mmap garbage phdrs = Ret (kept segs ++ rest, Z.of_nat (length (kept segs))).
Proof.
  intros Hsegs Hs. unfold collect_notes. rewrite (note_room phdrs segs 0) by (done || lia).
  unfold malloc. rewrite Z.add_0_l, Nat2Z.id.
  apply (collect_loop_spec phdrs segs [] (resize (total segs) Byte.x00 garbage) Hsegs); simpl;
    rewrite length_resize; lia.
Qed.

(** *** The headers *)

Lemma headers_loop_spec : ∀ phdrs A slot rest offset,
  length slot = 56%nat → Forall (λ p, length p = 56%nat) phdrs →
  ∃ slot', length slot' = 56%nat ∧
    headers_loop phdrs (A ++ slot ++ rest) (Z.of_nat (length A)) offset = Ret (A ++ slot' ++ rest) ∧
    (List.filter (λ p, negb (is_note p)) phdrs = [] → slot' = slot) ∧
    ∀ before p, List.filter (λ p, negb (is_note p)) phdrs = before ++ [p] → offset < 2 ^ 64 → 0 ≤ offset →
      slot' = with_field p Phdr64.p_offset
        (u64 (offset + foldr (λ q s, sfield q Phdr64.p_filesz + s) 0 before)).
Proof.
  induction phdrs as [|q phdrs IH]; intros A slot rest offset Hslot Hlen; cbn [List.filter headers_loop].
  { exists slot. split_and!; [done.. | ]. intros before p E. by destruct before. }
  apply Forall_cons_1 in Hlen as [Hq Hlen]. fold (is_note q). destruct (is_note q); cbn [negb]; [by apply IH | ].
  assert (length (with_field q Phdr64.p_offset offset) = 56%nat) as Hl
    by (rewrite length_with_field; [done | by rewrite Hq]).
  rewrite write_at_app, bind_Ret_l; [ | done | by rewrite Hl, Hslot].
  destruct (IH A (with_field q Phdr64.p_offset offset) rest (u64 (offset + sfield q Phdr64.p_filesz)) Hl Hlen)
    as (slot' & Hl' & Erun & Hnone & Hlast).
  exists slot'. split_and!; [done.. | ]. intros before p E Ho Ho0. destruct before as [|q' before].
  - simplify_eq/=. rewrite (Hnone ltac:(done)). rewrite Z.add_0_r. unfold u64. by rewrite Z.mod_small.
  - simplify_eq/=. rewrite (Hlast before p) by (done || (unfold u64; apply Z.mod_pos_bound; done)).
    f_equal. unfold u64. rewrite Zplus_mod_idemp_l. f_equal. lia.
Qed.

Definition loads (phdrs : list (list byte)) : list (list byte) := List.filter (λ p, negb (is_note p)) phdrs.

(** The size of the new headers: the file header, a header of the notes and one for each
    segment of the memory. *)
Definition headers_size (phdrs : list (list byte)) : Z := 64 + 56 * (1 + Z.of_nat (length (loads phdrs))).

Lemma phnum_spec phdrs : ∀ n, 0 ≤ n → n + Z.of_nat (length phdrs) < 2 ^ 32 →
  foldl (λ n p, if sfield p Phdr64.p_type =? PT_NOTE then n else u32 (n + 1)) n phdrs
    = n + Z.of_nat (length (loads phdrs)).
Proof.
  induction phdrs as [|p phdrs IH]; intros n Hn Hb; [cbn; lia | ]. cbn [foldl length] in *. unfold loads. cbn [List.filter].
  fold (is_note p) (loads phdrs). destruct (is_note p); cbn [negb length]; [apply IH; lia | ].
  assert (u32 (n + 1) = n + 1) as -> by (unfold u32; apply Z.mod_small; lia). rewrite IH by lia. lia.
Qed.

Lemma length_loads phdrs : (length (loads phdrs) ≤ length phdrs)%nat.
Proof. induction phdrs as [|p phdrs IH]; [done | ]. unfold loads in *. cbn [List.filter]. destruct (negb _); simpl; lia. Qed.

(** The new headers when the last segment of the memory is that of [p] and those of
    [before] come first: of all these only the last header is there. *)
Lemma generate_new_headers_spec garbage ehdr phdrs nb before p :
  length ehdr = 64%nat → Forall (λ p, length p = 56%nat) phdrs → Z.of_nat (length phdrs) < 2 ^ 16 →
  loads phdrs = before ++ [p] → 0 ≤ nb < 2 ^ 30 →
  ∃ rest, length rest = (56 * length before)%nat ∧
    let headers := new_ehdr ehdr (1 + Z.of_nat (length (loads phdrs))) ++ note_phdr (headers_size phdrs) nb
      ++ with_field p Phdr64.p_offset
           (u64 (headers_size phdrs + nb + foldr (λ q s, sfield q Phdr64.p_filesz + s) 0 before)) ++ rest in
    Z.of_nat (length headers) = headers_size phdrs ∧ generate_new_headers garbage ehdr phdrs nb = Ret headers.
Proof.
  intros He Hlen Hsmall Hloads Hnb. unfold generate_new_headers. pose proof (length_loads phdrs) as Hll.
  rewrite phnum_spec by lia. set (n := length (loads phdrs)) in *.
  assert (n = S (length before)) as En by (unfold n; rewrite Hloads, length_app; simpl; lia).
  assert (2 ^ 32 ≤ 2 ^ ulong_bits) by (destruct ulong_bits_ok as [-> | ->]; done).
  change (sizeof Ehdr64.t) with 64. change (sizeof Phdr64.t) with 56.
  assert (ul (64 + ul (56 * (1 + Z.of_nat n))) = headers_size phdrs) as ->.
  { unfold ul. rewrite (Z.mod_small (56 * _)) by lia. rewrite Z.mod_small by lia. done. }
  assert (headers_size phdrs = 64 + 56 * (1 + Z.of_nat n)) as Es by done.
  unfold malloc. set (mem := resize _ _ _).
  assert (length mem = 64 + (56 + (56 + 56 * length before)))%nat as Hmem by (unfold mem; rewrite length_resize; lia).
  rewrite <- (take_drop 64 mem). set (m0 := take 64 mem). rewrite <- (take_drop 56 (drop 64 mem)).
  set (m1 := take 56 (drop 64 mem)). set (m' := drop 56 (drop 64 mem)). rewrite <- (take_drop 56 m').
  set (slot := take 56 m'). set (rest := drop 56 m').
  assert (length m0 = 64%nat ∧ length m1 = 56%nat ∧ length slot = 56%nat ∧ length rest = (56 * length before)%nat)
    as (Hl0 & Hl1 & Hls & Hlr).
  { unfold m0, m1, slot, rest, m'. rewrite !length_take, !length_drop, Hmem. lia. }
  clearbody m0 m1 slot rest. clear mem Hmem m'.
  assert (length (new_ehdr ehdr (1 + Z.of_nat n)) = 64%nat) as Hle.
  { unfold new_ehdr. by rewrite length_with_fields by (by rewrite He). }
  assert (length (note_phdr (headers_size phdrs) nb) = 56%nat) as Hln.
  { unfold note_phdr. by rewrite length_with_fields. }
  rewrite write_at_front, bind_Ret_l by (by rewrite Hle, Hl0).
  rewrite write_at_app, bind_Ret_l; [ | by rewrite Hle | by rewrite Hln, Hl1].
  set (eh := new_ehdr ehdr _) in *. set (nh := note_phdr _ _) in *. rewrite (app_assoc eh).
  replace (64 + 56) with (Z.of_nat (length (eh ++ nh))) by (rewrite length_app, Hle, Hln; done).
  destruct (headers_loop_spec phdrs (eh ++ nh) slot rest (u64 (headers_size phdrs + nb)) Hls Hlen)
    as (slot' & _ & -> & _ & Hlast).
  exists rest. split; [done | ]. cbv zeta. fold eh nh. split.
  { assert (length p = 56%nat) as Hp.
    { assert (In p (loads phdrs)) as Hin by (rewrite Hloads; apply in_or_app; right; by left).
      apply filter_In in Hin as [Hin _]. rewrite Forall_forall in Hlen. apply Hlen. by apply list_elem_of_In. }
    rewrite !length_app, Hle, Hln, length_with_field, Hp, Hlr by (by rewrite Hp). lia. }
  assert (u64 (headers_size phdrs + nb) = headers_size phdrs + nb) as Hu by (unfold u64; apply Z.mod_small; lia).
  rewrite Hu in Hlast. rewrite (Hlast before p) by (done || lia). by rewrite <- app_assoc.
Qed.

(** *** The copy *)

(** The windows of the note segments. *)
Definition note_windows (phdrs : list (list byte)) : nat :=
  list_sum (map (λ p, windows (sfield p Phdr64.p_filesz)) (List.filter is_note phdrs)).

Definition contents (segs : list (list note * list byte)) : list byte :=
  concat (map (λ seg, bytes_of seg.1 ++ seg.2) segs).

Lemma copy_segments_ok : ∀ phdrs segs,
  Forall2 note_segment (List.filter is_note phdrs) segs →
  writes_ok (note_windows phdrs) (contents segs) (copy_segments mmap 0 phdrs).
Proof.
  induction phdrs as [|p phdrs IH]; intros segs Hsegs; unfold note_windows; cbn [List.filter] in *.
  { apply Forall2_nil_inv_l in Hsegs as ->. exact writes_ok_nothing. }
  unfold is_note in Hsegs |- * at 1. cbn [copy_segments].
  destruct (sfield p Phdr64.p_type =? PT_NOTE); cbn [negb]; [ | by apply IH].
  apply Forall2_cons_inv_l in Hsegs as (seg & segs' & (Hm & Hpos & Hreg & _) & Hsegs & ->).
  unfold contents. cbn [map concat]. rewrite <- Hreg.
  apply (writes_ok_seq (windows (sfield p Phdr64.p_filesz)) (note_windows phdrs) _ (contents segs') _ _ ); [ | by apply IH].
  apply copy_loop_ok; [done | ]. unfold windows.
  replace (sfield p Phdr64.p_filesz + MAP_WINDOW_SIZE - 1) with (sfield p Phdr64.p_filesz - 1 + 1 * MAP_WINDOW_SIZE) by lia.
  rewrite Z.div_add by (unfold MAP_WINDOW_SIZE; lia).
  assert ((sfield p Phdr64.p_filesz - 1) / MAP_WINDOW_SIZE ≤ sfield p Phdr64.p_filesz / MAP_WINDOW_SIZE)
    by (apply Z.div_le_mono; unfold MAP_WINDOW_SIZE; lia).
  assert (0 ≤ sfield p Phdr64.p_filesz / MAP_WINDOW_SIZE) by (apply Z.div_pos; unfold MAP_WINDOW_SIZE; lia). lia.
Qed.

(** ** The program *)

Lemma phdr_table_spec n : ∀ l, length l = (56 * n)%nat →
  length (phdr_table n l) = n ∧ Forall (λ p, length p = 56%nat) (phdr_table n l).
Proof.
  induction n as [|n IH]; intros l Hl; [done | ]. cbn [phdr_table length].
  destruct (IH (drop 56 l)) as [IHl IHf]; [rewrite length_drop; lia | ].
  split; [by f_equal | ]. constructor; [ | done]. rewrite length_take. lia.
Qed.

Lemma total_length segs : (length (kept segs) ≤ total segs)%nat.
Proof.
  induction segs as [|[ns t] segs IH]; [done | ]. unfold kept, total in *. cbn [map concat fst snd] in *.
  rewrite length_app. assert (length (bytes_of (removelast ns)) ≤ length (bytes_of ns))%nat.
  { destruct (decide (ns = [])) as [-> | Hne]; [done | ]. destruct (bytes_of_removelast ns Hne) as [x ->].
    rewrite length_app. lia. }
  change (list_sum (?a :: ?l)) with (a + list_sum l)%nat. rewrite length_app. lia.
Qed.

(** C24: when the variable that [write_all] does not initialise is 0, the argument of [kdump]
    is the address of valid crash headers with note segments of less than 1 GiB in the memory, and [before ++ [p]] are the headers of the segments of the
    memory of the crashed kernel, the file that it writes, at whatever rate the writes
    go, is: the new file header, the header of the notes, the header of the last segment
    alone, uninitialised memory in the place of the headers of the others, the notes of
    each note segment but the last, and then the note segments in full.  No byte of the
    segments of the memory is in the file.  When the writes are complete the program
    ends. *)
Theorem kdump_core start addr segs before p notes_garbage headers_garbage var :
  let ehdr := region addr (sizeof Ehdr64.t) in
  let phnum := sfield ehdr Ehdr64.e_phnum in
  let phoff := sfield ehdr Ehdr64.e_phoff in
  let phdrs := phdr_table (Z.to_nat phnum) (region phoff (sizeof Phdr64.t * phnum)) in
  strtoull start = (addr, []) → start ≠ [] →
  mappable addr (sizeof Ehdr64.t) → valid_ehdr ehdr = true →
  mappable phoff (sizeof Phdr64.t * phnum) →
  Forall2 note_segment (List.filter is_note phdrs) segs → Z.of_nat (total segs) < 2 ^ 30 →
  loads phdrs = before ++ [p] →
  ∃ garbage, length garbage = (56 * length before)%nat ∧
    writes_ok (2 + note_windows phdrs)
      ((new_ehdr ehdr (1 + Z.of_nat (length (loads phdrs)))
        ++ note_phdr (headers_size phdrs) (Z.of_nat (length (kept segs)))
        ++ with_field p Phdr64.p_offset
             (u64 (headers_size phdrs + Z.of_nat (length (kept segs))
                   + foldr (λ q s, sfield q Phdr64.p_filesz + s) 0 before))
        ++ garbage) ++ kept segs ++ contents segs)
      (main mmap notes_garbage headers_garbage 0 [start] var).
Proof.
  intros ehdr phnum phoff phdrs Hstart Hne Hme Hv Hmt Hsegs Ht Hloads.
  pose proof (sfield_range ehdr Ehdr64.e_phnum) as Hnum. fold phnum in Hnum.
  change (2 ^ (8 * Z.of_nat (f_size Ehdr64.e_phnum))) with (2 ^ 16) in Hnum.
  assert (phnum ≠ 0) as Hnz.
  { intros E. revert Hv. unfold valid_ehdr. fold phnum. rewrite E. by rewrite andb_false_r. }
  change (sizeof Phdr64.t) with 56 in *. change (sizeof Ehdr64.t) with 64 in *.
  assert (length (region phoff (56 * phnum)) = 56 * Z.to_nat phnum)%nat as Hlt by (rewrite length_region; lia).
  destruct (phdr_table_spec (Z.to_nat phnum) _ Hlt) as [Hn Hlen]. fold phdrs in Hn, Hlen.
  destruct (collect_notes_spec notes_garbage phdrs segs Hsegs Ht) as [rest Ec].
  pose proof (total_length segs) as Hkl.
  destruct (generate_new_headers_spec headers_garbage ehdr phdrs (Z.of_nat (length (kept segs))) before p)
    as (garbage & Hg & Hh & Eg); [unfold ehdr; by rewrite length_region | done | lia | done | lia | ].
  exists garbage. split; [done | ]. set (headers := new_ehdr _ _ ++ _) in *.
  assert (∀ o, main mmap notes_garbage headers_garbage 0 [start] var o
    = (write_all 0 headers o ≫= λ o, write_all 0 (kept segs) o ≫= copy_segments mmap 0 phdrs)) as Emain.
  { intros o. unfold main. rewrite bind_Ret_l, Hstart.
    rewrite (bool_decide_eq_false_2 ([] = start)) by (intros E; by apply Hne).
    rewrite (bool_decide_eq_true_2 ([] = [])) by done. cbn [orb negb].
    change (sizeof Phdr64.t) with 56. change (sizeof Ehdr64.t) with 64.
    rewrite map_addr_region, bind_Ret_l by (done || lia). fold ehdr. rewrite Hv. cbn [negb].
    fold phnum phoff. rewrite map_addr_region, bind_Ret_l by (done || lia). fold phdrs.
    rewrite Ec, bind_Ret_l, Eg, bind_Ret_l.
    destruct (write_all 0 headers o) as [o1 | | | ]; [ | done..]. rewrite !bind_Ret_l.
    by rewrite read_at_front, bind_Ret_l. }
  assert (∀ n buf f g, (∀ o, f o = g o) → writes_ok n buf g → writes_ok n buf f) as Hext.
  { intros n buf f g E Hw o. rewrite E. apply Hw. }
  eapply Hext; [exact Emain | ].
  pose proof (length_loads phdrs) as Hll.
  assert (2 ^ 32 ≤ 2 ^ ulong_bits) by (destruct ulong_bits_ok as [-> | ->]; done).
  apply (writes_ok_seq 1 (1 + note_windows phdrs)).
  - apply write_all_ok. rewrite Hh. unfold headers_size. lia.
  - apply (writes_ok_seq 1 (note_windows phdrs)); [apply write_all_ok; lia | by apply copy_segments_ok].
Qed.
End kdump.

Module Witness.
#[local] Existing Instance i386.

(** Two notes, and a third that has no name. *)
Definition notes : list note :=
  [{| nt_name := 5; nt_desc := 4; nt_type := 1; nt_body := bs "CORE" ++ repeat Byte.x00 4 ++ bs "pid1" |};
   {| nt_name := 5; nt_desc := 3; nt_type := 3; nt_body := bs "CORE" ++ repeat Byte.x00 4 ++ bs "psx" ++ [Byte.x00] |}].

Definition after_notes : list byte := repeat Byte.x00 12.

Definition header (type offset filesz : Z) : list byte :=
  with_fields (repeat Byte.x00 56) [(Phdr64.p_type, type); (Phdr64.p_offset, offset); (Phdr64.p_filesz, filesz)].

Definition pages : list (list byte) :=
  [with_fields (ELFMAG ++ map byte.of_Z [2; 1; 1] ++ repeat Byte.x00 57)
     [(Ehdr64.e_type, ET_CORE); (Ehdr64.e_version, 1); (Ehdr64.e_phoff, 8192); (Ehdr64.e_ehsize, 64);
      (Ehdr64.e_phentsize, 56); (Ehdr64.e_phnum, 3)];
   header 1 0 655360 ++ header 4 12288 60 ++ header 1 1048576 267386880;
   bytes_of notes ++ after_notes].

(** The pages are in the memory from 4096 on. *)
Definition phys (a : Z) : byte :=
  nth (Z.to_nat (a `mod` 4096)) (nth (Z.to_nat (a / 4096 - 1)) pages []) Byte.xff.

Definition dev_mem (n off : Z) : option (list byte) :=
  if off + n <=? 65536 then Some (region phys off n) else None.

Lemma kdump_core_witness : ∃ o,
  main dev_mem [] [] 0 [bs "0x1000"] None {| stdout := []; writes := repeat (Wrote (2 ^ 64)) 3 |} = Ret o ∧
  length (stdout o) = (64 + 3 * 56 + 24 + 60)%nat.
Proof.
  destruct (kdump_core phys 65536 dev_mem ltac:(intros n off _ _ _ Hs; unfold dev_mem; by rewrite (proj2 (Z.leb_le _ _) Hs))
    ltac:(done) (bs "0x1000") 4096 [(notes, after_notes)] [header 1 0 655360] (header 1 1048576 267386880) [] [] None)
    as (garbage & Hg & Hw).
  1: vm_compute; reflexivity. 1: discriminate. 1: split_and!; [done | done | by exists 1 | done].
  1: vm_compute; reflexivity.
  all: change (sizeof Ehdr64.t) with 64 in *; change (sizeof Phdr64.t) with 56 in *.
  all: assert (sfield (region phys 4096 64) Ehdr64.e_phnum = 3) as Enum by (vm_compute; reflexivity); rewrite ?Enum.
  all: assert (sfield (region phys 4096 64) Ehdr64.e_phoff = 8192) as Eoff by (vm_compute; reflexivity); rewrite ?Eoff.
  - split_and!; [lia.. | by exists 2 | lia].
  - replace (List.filter _ _) with [header 4 12288 60] by (vm_compute; reflexivity).
    constructor; [ | constructor]. unfold note_segment.
    assert (sfield (header 4 12288 60) Phdr64.p_offset = 12288) as -> by (vm_compute; reflexivity).
    assert (sfield (header 4 12288 60) Phdr64.p_filesz = 60) as -> by (vm_compute; reflexivity).
    split_and!; [split_and!; [lia.. | by exists 3 | lia] | lia | vm_compute; reflexivity | | right; by exists (repeat Byte.x00 8)].
    repeat constructor; vm_compute; done.
  - vm_compute. reflexivity.
  - vm_compute. reflexivity.
  - destruct (proj2 (Hw {| stdout := []; writes := repeat (Wrote (2 ^ 64)) 3 |})) as (o & Eo & _).
    { repeat constructor; done. }
    { vm_compute. lia. }
    exists o. split; [exact Eo | ].
    destruct (Hw {| stdout := []; writes := repeat (Wrote (2 ^ 64)) 3 |}) as [Hp _]. rewrite Eo in Hp. cbn [post] in Hp.
    rewrite Hp, !length_app, Hg; [vm_compute; reflexivity | done].
Defined.
End Witness.
