(* ===== verification/IpChecksum.v ===== *)
(** The IP-style checksum of kexec-tools/util_lib/compute_ip_checksum.c, and the
    ones' complement sum that it computes. *)

From Stdlib Require Import ZArith Lia String.
From stdpp Require Import base tactics list numbers.
From coqutil Require Import Byte.
From S2P Require Import Prelude Words.

#[local] Open Scope Z_scope.

Section checksum.
Context `{Arch}.

(** [sum += w; if (sum > 0xFFFF) sum -= 0xFFFF;] *)
Definition sum_word (sum w : Z) : Z :=
  let sum := ul (sum + w) in if 0xFFFF <? sum then sum - 0xFFFF else sum.

(** The loop [while (len--)] over the 16-bit words at [ptr], and what is left. *)
Fixpoint sum_words (sum : Z) (len : nat) (data : list byte) : Z * list byte :=
  match len with
  | O => (sum, data)
  | S len => sum_words (sum_word sum (combine host_be (take 2 data))) len (drop 2 data)
  end.

(** The 16-bit buffer with one byte copied over its first byte. *)
Definition one_byte (b : byte) : Z := combine host_be [b; Byte.x00].

(** [data] are the [length] bytes at [addr]; [odd] tells whether [addr] is odd.
    An odd address with no byte at all makes [length] wrap around. *)
Definition compute_ip_checksum (odd : bool) (data : list byte) : outcome Z :=
  '(sum, data) ←
    (if odd then
       match data with
       | b :: data => Ret (sum_word 0 (one_byte b), data)
       | [] => UB "compute_ip_checksum of no byte at an odd address"
       end
     else Ret (0, data));
  let '(sum, rest) := sum_words sum (length data / 2) data in
  let sum := match rest with b :: _ => sum_word sum (one_byte b) | [] => sum end in
  mret (Z.land (notw ulong_bits sum) 0xFFFF).

Definition add_ip_checksums (offset sum new : Z) : Z :=
  let sum := Z.land (notw ulong_bits sum) 0xFFFF in
  let new := Z.land (notw ulong_bits new) 0xFFFF in
  let new := if Z.testbit offset 0
    then Z.lor (Z.land (Z.shiftr new 8) 0xff) (Z.land (Z.shiftl new 8) 0xff00)
    else new in
  let checksum := sum + new in
  let checksum := if 0xFFFF <? checksum then checksum - 0xFFFF else checksum in
  Z.land (notw ulong_bits checksum) 0xFFFF.

Definition negate_ip_checksum (sum : Z) : Z :=
  let sum := Z.land (notw ulong_bits sum) 0xFFFF in
  let sum := 0xFFFF - sum in
  Z.land (notw ulong_bits sum) 0xFFFF.

(** ** The ones' complement sum *)

(** The sum of the 16-bit words of a message, padded with a zero byte. *)
Fixpoint word_sum (data : list byte) : Z :=
  match data with
  | a :: b :: data => combine host_be [a; b] + word_sum data
  | [a] => combine host_be [a; Byte.x00]
  | [] => 0
  end.

(** The representative of a sum modulo 65535 in 0 .. 65535; only an empty sum
    has the representative 0. *)
Definition fold16 (s : Z) : Z := if s =? 0 then 0 else (s - 1) `mod` 0xFFFF + 1.

(** The checksum of RFC 1071, as a number in the byte order of the host. *)
Definition checksum (data : list byte) : Z := 0xFFFF - fold16 (word_sum data).

(** ** Lemmas *)

Lemma fold16_range s : 0 ≤ fold16 s ≤ 0xFFFF.
Proof. unfold fold16. case_if; [lia | ]. pose proof (Z.mod_pos_bound (s - 1) 0xFFFF). lia. Qed.

Lemma fold16_small s : 0 ≤ s ≤ 0xFFFF → fold16 s = s.
Proof. intros Hs. unfold fold16. destruct (Z.eqb_spec s 0); [lia | ]. rewrite Z.mod_small by lia. lia. Qed.

Lemma fold16_pos s : 0 < s → 0 < fold16 s.
Proof.
  intros. unfold fold16. destruct (Z.eqb_spec s 0); [lia | ].
  pose proof (Z.mod_pos_bound (s - 1) 0xFFFF). lia.
Qed.

(** [fold16] is determined by the residue and by being zero. *)
Lemma fold16_unique s r :
  0 ≤ s → 0 ≤ r ≤ 0xFFFF → (0xFFFF | s - r) → (r = 0 ↔ s = 0) → fold16 s = r.
Proof.
  intros Hs Hr [k Hk] Hz. unfold fold16. destruct (Z.eqb_spec s 0) as [E | E]; [lia | ].
  replace (s - 1) with (r - 1 + k * 0xFFFF) by lia.
  rewrite Z.mod_add by lia. rewrite Z.mod_small by lia. lia.
Qed.

Lemma fold16_residue s : 0 ≤ s → (0xFFFF | s - fold16 s).
Proof.
  intros Hs. unfold fold16. destruct (Z.eqb_spec s 0) as [-> | E]; [by exists 0 | ].
  exists ((s - 1) / 0xFFFF). pose proof (Z.div_mod (s - 1) 0xFFFF). lia.
Qed.

Lemma fold16_add_fold a b : 0 ≤ a → 0 ≤ b → fold16 (fold16 a + b) = fold16 (a + b).
Proof.
  intros Ha Hb. pose proof (fold16_range a). pose proof (fold16_range (a + b)).
  apply fold16_unique; [lia | lia | | ].
  - destruct (fold16_residue a Ha) as [k Hk]. destruct (fold16_residue (a + b)) as [j Hj]; [lia | ].
    exists (j - k). lia.
  - assert (∀ x, 0 ≤ x → fold16 x = 0 ↔ x = 0) as Hz.
    { intros x Hx. split; [ | by intros ->]. pose proof (fold16_pos x). lia. }
    rewrite Hz by lia. split; [intros Hab; assert (a = 0) as Ea by lia; apply Hz in Ea; lia | ].
    intros. assert (fold16 a = 0) as E by lia. pose proof (proj1 (Hz a Ha) E). lia.
Qed.

Lemma combine2_range a b : 0 ≤ combine host_be [a; b] ≤ 0xFFFF.
Proof. pose proof (combine_range host_be [a; b]) as Hr. simpl length in Hr. lia. Qed.

Lemma word_sum_nonneg data : 0 ≤ word_sum data.
Proof.
  assert (∀ n l, (length l ≤ n)%nat → 0 ≤ word_sum l) as Hgen.
  { induction n as [|n IH]; intros [|a [|b l]] Hl; simpl in *; try lia.
    - pose proof (combine2_range a Byte.x00). lia.
    - pose proof (combine2_range a b). specialize (IH l ltac:(lia)). lia. }
  by apply (Hgen (length data)).
Qed.

Lemma sum_word_spec s w :
  0 ≤ s ≤ 0xFFFF → 0 ≤ w ≤ 0xFFFF → sum_word s w = fold16 (s + w).
Proof.
  intros Hs Hw. unfold sum_word. pose proof ulong_mod_ge. rewrite ul_small by lia.
  destruct (Z.ltb_spec 0xFFFF (s + w)).
  - symmetry. apply fold16_unique; [lia | lia | exists 1; lia | lia].
  - by rewrite fold16_small by lia.
Qed.

Lemma sum_words_spec n : ∀ s data,
  0 ≤ s → length data = (2 * n)%nat ∨ length data = S (2 * n) →
  ∃ s' rest, sum_words (fold16 s) n data = (fold16 s', rest) ∧ 0 ≤ s' ∧
    (length rest ≤ 1)%nat ∧ s' + word_sum rest = s + word_sum data.
Proof.
  induction n as [|n IH]; intros s data Hs Hl; cbn [sum_words].
  { exists s, data. split_and!; try done. lia. }
  destruct data as [|a [|b data]]; simpl in Hl; [lia | lia | ].
  change (take 2 (a :: b :: data)) with [a; b]. change (drop 2 (a :: b :: data)) with data.
  pose proof (combine2_range a b). pose proof (fold16_range s).
  rewrite sum_word_spec, fold16_add_fold by lia.
  destruct (IH (s + combine host_be [a; b]) data) as (s' & rest & -> & ? & ? & Hsum); [lia | lia | ].
  exists s', rest. split_and!; try done. simpl. lia.
Qed.

(** [~sum & 0xFFFF] on a sum of 16 bits. *)
Lemma not16 s : 0 ≤ s ≤ 0xFFFF → Z.land (notw ulong_bits s) 0xFFFF = 0xFFFF - s.
Proof.
  intros Hs. pose proof ulong_bits_pos. unfold notw. rewrite <- Z.land_assoc.
  replace (Z.land (Z.ones ulong_bits) 0xFFFF) with (Z.ones 16).
  2:{ change 0xFFFF with (Z.ones 16). rewrite Z.land_comm, Z.land_ones by lia.
      rewrite !Z.ones_equiv, Z.mod_small; [done | ].
      pose proof ulong_mod_ge. lia. }
  rewrite Z.land_ones, Z.lnot_eq_pred_opp by lia.
  symmetry. apply (Z.mod_unique _ _ (-1)); lia.
Qed.

Lemma length_odd_even (data : list byte) :
  length data = (2 * (length data / 2))%nat ∨ length data = S (2 * (length data / 2)).
Proof.
  pose proof (Nat.div_mod (length data) 2 ltac:(lia)).
  pose proof (Nat.mod_upper_bound (length data) 2 ltac:(lia)). lia.
Qed.

(** From a sum [s] on, over the words of [data]. *)
Lemma compute_rest s data :
  0 ≤ s →
  (let '(sum, rest) := sum_words (fold16 s) (length data / 2) data in
   let sum := match rest with b :: _ => sum_word sum (one_byte b) | [] => sum end in
   Z.land (notw ulong_bits sum) 0xFFFF) = 0xFFFF - fold16 (s + word_sum data).
Proof.
  intros Hs. destruct (sum_words_spec (length data / 2) s data Hs (length_odd_even data))
    as (s' & rest & -> & Hs' & Hrest & Hsum). rewrite <- Hsum.
  pose proof (fold16_range s'). destruct rest as [|b [|]]; simpl in Hrest; [ | | lia]; simpl.
  - rewrite not16 by lia. by rewrite Z.add_0_r.
  - unfold one_byte. pose proof (combine2_range b Byte.x00).
    rewrite sum_word_spec, fold16_add_fold by lia. apply not16. apply fold16_range.
Qed.

Lemma compute_even data : compute_ip_checksum false data = Ret (checksum data).
Proof.
  unfold compute_ip_checksum, checksum. rewrite bind_Ret_l.
  pose proof (compute_rest 0 data ltac:(lia)) as Hc. change (fold16 0) with 0 in Hc.
  destruct (sum_words 0 (length data / 2) data) as [sum rest]. unfold mret, outcome_ret. by f_equal.
Qed.

(** At an odd address the bytes are paired as if a zero byte followed the first
    one. *)
Lemma compute_odd b data :
  compute_ip_checksum true (b :: data) = Ret (checksum (b :: Byte.x00 :: data)).
Proof.
  unfold compute_ip_checksum, checksum. rewrite bind_Ret_l. unfold one_byte.
  pose proof (combine2_range b Byte.x00).
  rewrite sum_word_spec by lia. rewrite Z.add_0_l.
  pose proof (compute_rest _ data (proj1 (combine2_range b Byte.x00))) as Hc.
  destruct (sum_words _ (length data / 2) data) as [sum rest]. unfold mret, outcome_ret. by f_equal.
Qed.

(** ** Sums of concatenations *)

Lemma word_sum_app n : ∀ a b,
  length a = (2 * n)%nat → word_sum (a ++ b) = word_sum a + word_sum b.
Proof.
  induction n as [|n IH]; intros a b Ha.
  { apply nil_length_inv in Ha as ->. done. }
  destruct a as [|x [|y a]]; simpl in Ha; [lia | lia | ]. cbn [app word_sum].
  rewrite IH by lia. lia.
Qed.

Lemma combine2 a b :
  combine host_be [a; b] =
  if host_be then 256 * byte.unsigned a + byte.unsigned b
  else byte.unsigned a + 256 * byte.unsigned b.
Proof.
  pose proof (byte.unsigned_range a). pose proof (byte.unsigned_range b).
  assert (∀ x y, 0 ≤ x < 256 → 0 ≤ y → Z.lor x (Z.shiftl y 8) = x + 256 * y) as Hl.
  { intros x y Hx Hy. rewrite Z.shiftl_mul_pow2, lor_disjoint by lia. lia. }
  unfold combine, be_combine. cbn [rev app]. unfold LittleEndianList.le_combine.
  destruct host_be; rewrite Z.shiftl_0_l, Z.lor_0_r, Hl by lia; lia.
Qed.

(** A message after an odd number of bytes counts with its bytes exchanged: 256
    times, modulo 65535. *)
Lemma word_sum_shift : ∀ n b, (length b ≤ n)%nat → ∀ x,
  (0xFFFF | word_sum (x :: b) - (word_sum [x] + 256 * word_sum b)).
Proof.
  induction n as [|n IH]; intros b Hb x.
  { destruct b; [ | simpl in Hb; lia]. exists 0. simpl. lia. }
  destruct b as [|y b]; [exists 0; simpl; lia | ]. simpl in Hb.
  destruct b as [|z b].
  - cbn [word_sum]. rewrite !combine2. change (byte.unsigned Byte.x00) with 0.
    destruct host_be; [exists (- byte.unsigned y) | exists 0]; lia.
  - destruct (IH b ltac:(simpl in Hb; lia) z) as [k Hk].
    change (word_sum (x :: y :: z :: b)) with (combine host_be [x; y] + word_sum (z :: b)).
    change (word_sum (y :: z :: b)) with (combine host_be [y; z] + word_sum b).
    cbn [word_sum] in Hk |- *. rewrite !combine2 in *. change (byte.unsigned Byte.x00) with 0 in *.
    destruct host_be.
    + exists (k - byte.unsigned y). lia.
    + exists (k - byte.unsigned z). lia.
Qed.

Lemma word_sum_app_odd n : ∀ a b,
  length a = S (2 * n) → (0xFFFF | word_sum (a ++ b) - (word_sum a + 256 * word_sum b)).
Proof.
  induction n as [|n IH]; intros a b Ha.
  - destruct a as [|x [|]]; simpl in Ha; [lia | | lia]. apply (word_sum_shift (length b)); done.
  - destruct a as [|x [|y a]]; simpl in Ha; [lia | lia | ]. cbn [app word_sum].
    destruct (IH a b) as [k Hk]; [lia | ]. exists k. lia.
Qed.

Lemma word_sum_zero l : word_sum l = 0 ↔ Forall (λ b, byte.unsigned b = 0) l.
Proof.
  assert (∀ n l, (length l ≤ n)%nat → word_sum l = 0 ↔ Forall (λ b, byte.unsigned b = 0) l) as Hgen.
  { induction n as [|n IH]; intros [|a [|b k]] Hl; simpl in Hl; try lia.
    - done.
    - done.
    - cbn [word_sum]. rewrite combine2. change (byte.unsigned Byte.x00) with 0.
      pose proof (byte.unsigned_range a). rewrite List.Forall_cons_iff.
      assert (Forall (λ b, byte.unsigned b = 0) []) by constructor. destruct host_be; intuition lia.
    - cbn [word_sum]. rewrite combine2, !List.Forall_cons_iff, <- IH by lia.
      pose proof (byte.unsigned_range a). pose proof (byte.unsigned_range b).
      pose proof (word_sum_nonneg k). destruct host_be; lia. }
  by apply (Hgen (length l)).
Qed.

(** The exchange of the two bytes of a 16-bit sum. *)
Definition swap16 (x : Z) : Z :=
  Z.lor (Z.land (Z.shiftr x 8) 0xff) (Z.land (Z.shiftl x 8) 0xff00).

Lemma swap16_spec x : 0 ≤ x ≤ 0xFFFF → swap16 x = x / 256 + 256 * (x `mod` 256).
Proof.
  intros Hx. unfold swap16.
  assert (Z.land (Z.shiftr x 8) 0xff = x / 256) as ->.
  { change 0xff with (Z.ones 8). rewrite Z.land_ones, Z.shiftr_div_pow2 by lia.
    change (2 ^ 8) with 256. apply Z.mod_small.
    split; [apply Z.div_pos; lia | apply Z.div_lt_upper_bound; lia]. }
  assert (Z.land (Z.shiftl x 8) 0xff00 = Z.shiftl (x `mod` 256) 8) as ->.
  { change 0xff00 with (Z.shiftl (Z.ones 8) 8). rewrite <- Z.shiftl_land. f_equal.
    by rewrite Z.land_ones by lia. }
  pose proof (Z.mod_pos_bound x 256 ltac:(lia)).
  assert (0 ≤ x / 256 < 256).
  { split; [apply Z.div_pos; lia | apply Z.div_lt_upper_bound; lia]. }
  rewrite Z.shiftl_mul_pow2, lor_disjoint by lia. lia.
Qed.

Lemma swap16_fold s : 0 ≤ s → swap16 (fold16 s) = fold16 (256 * s).
Proof.
  intros Hs. pose proof (fold16_range s) as Hr. rewrite swap16_spec by done. symmetry.
  pose proof (Z.div_mod (fold16 s) 256 ltac:(lia)) as Hd.
  pose proof (Z.mod_pos_bound (fold16 s) 256 ltac:(lia)).
  assert (0 ≤ fold16 s / 256 < 256).
  { split; [apply Z.div_pos; lia | apply Z.div_lt_upper_bound; lia]. }
  apply fold16_unique; [lia | lia | | ].
  - destruct (fold16_residue s Hs) as [k Hk].
    exists (256 * k + fold16 s / 256). lia.
  - split.
    + intros E. assert (fold16 s = 0) as E0 by lia. destruct (decide (s = 0)); [lia | ].
      pose proof (fold16_pos s). lia.
    + intros E. assert (s = 0) as -> by lia. done.
Qed.

Lemma add_16 a b : 0 ≤ a → 0 ≤ b →
  (let c := fold16 a + fold16 b in if 0xFFFF <? c then c - 0xFFFF else c) = fold16 (a + b).
Proof.
  intros Ha Hb. pose proof (fold16_range a). pose proof (fold16_range b). pose proof ulong_mod_ge.
  pose proof (sum_word_spec (fold16 a) (fold16 b) ltac:(lia) ltac:(lia)) as Hs.
  unfold sum_word in Hs. rewrite ul_small in Hs by lia. cbv zeta. rewrite Hs.
  rewrite fold16_add_fold by lia. rewrite Z.add_comm, fold16_add_fold by lia. f_equal. lia.
Qed.

Lemma checksum_range data : 0 ≤ checksum data ≤ 0xFFFF.
Proof. unfold checksum. pose proof (fold16_range (word_sum data)). lia. Qed.

Lemma add_spec a b :
  add_ip_checksums (Z.of_nat (length a)) (checksum a) (checksum b) = checksum (a ++ b).
Proof.
  unfold add_ip_checksums. rewrite (not16 (checksum a)), (not16 (checksum b)) by apply checksum_range.
  unfold checksum.
  set (A := word_sum a). set (B := word_sum b).
  pose proof (word_sum_nonneg a : 0 ≤ A). pose proof (word_sum_nonneg b : 0 ≤ B).
  replace (0xFFFF - (0xFFFF - fold16 A)) with (fold16 A) by lia.
  replace (0xFFFF - (0xFFFF - fold16 B)) with (fold16 B) by lia.
  fold (swap16 (fold16 B)). rewrite swap16_fold by done.
  rewrite Z.bit0_odd.
  assert (∀ x y, 0 ≤ x → 0 ≤ y → (0xFFFF | word_sum (a ++ b) - (x + y)) →
    (x + y = 0 → word_sum (a ++ b) = 0) → (word_sum (a ++ b) = 0 → x + y = 0) →
    Z.land (notw ulong_bits (let c := fold16 x + fold16 y in
      if 0xFFFF <? c then c - 0xFFFF else c)) 0xFFFF = 0xFFFF - fold16 (word_sum (a ++ b))) as Hgen.
  { intros x y Hx Hy [k Hk] Hz1 Hz2. rewrite add_16 by done. rewrite not16 by apply fold16_range.
    f_equal. symmetry. pose proof (word_sum_nonneg (a ++ b)).
    destruct (fold16_residue (x + y)) as [j Hj]; [lia | ].
    apply fold16_unique; [done | apply fold16_range | exists (k + j); lia | ].
    split; [ | intros E; by rewrite (Hz2 E)]. intros E. apply Hz1.
    destruct (decide (x + y = 0)); [done | ]. pose proof (fold16_pos (x + y)). lia. }
  destruct (length_odd_even a) as [Hl | Hl].
  - rewrite (word_sum_app (length a / 2)) in * by done. fold A B in Hgen |- *.
    replace (Z.odd (Z.of_nat (length a))) with false
      by (symmetry; rewrite <- Z.negb_even, negb_false_iff, Z.even_spec; exists (Z.of_nat (length a / 2)); lia).
    apply Hgen; try done. exists 0. lia.
  - pose proof (word_sum_app_odd (length a / 2) a b Hl) as Hodd. fold A B in Hodd.
    replace (Z.odd (Z.of_nat (length a))) with true
      by (symmetry; rewrite Z.odd_spec; exists (Z.of_nat (length a / 2)); lia).
    pose proof (word_sum_zero (a ++ b)) as Hz. rewrite Forall_app, <- !word_sum_zero in Hz.
    fold A B in Hz. apply Hgen; [done | lia | done | | ].
    + intros. apply Hz. lia.
    + intros E. apply Hz in E. lia.
Qed.
End checksum.

Section contract.
Context `{Arch}.

(** C32: on bytes at an even address [compute_ip_checksum] is the checksum of
    RFC 1071: 65535 less the ones' complement sum of the 16-bit words, in the
    byte order of the host, the last byte padded with zero; adding the checksums
    of two messages, at an even or an odd offset, gives the checksum of the
    messages one after the other; and a checksum and its negation add up to 0. *)
Theorem ip_checksum_correct a b :
  compute_ip_checksum false a = Ret (checksum a) ∧
  compute_ip_checksum false (a ++ b) =
    Ret (add_ip_checksums (Z.of_nat (length a)) (checksum a) (checksum b)) ∧
  add_ip_checksums 0 (checksum a) (negate_ip_checksum (checksum a)) = 0.
Proof.
  split; [apply compute_even | ]. split; [by rewrite compute_even, add_spec | ].
  unfold add_ip_checksums, negate_ip_checksum. cbn [Z.testbit].
  pose proof (checksum_range a).
  rewrite !(not16 (checksum a)) by done. rewrite (not16 (0xFFFF - (0xFFFF - checksum a))) by lia.
  rewrite (not16 (0xFFFF - (0xFFFF - (0xFFFF - checksum a)))) by lia.
  change (Z.odd 0) with false. cbv iota.
  replace (0xFFFF - checksum a + (0xFFFF - (0xFFFF - (0xFFFF - (0xFFFF - checksum a))))) with 0xFFFF by lia.
  cbn [Z.ltb Z.compare Pos.compare Pos.compare_cont]. by rewrite not16.
Qed.

(** at an odd address the first byte is summed as a word of its own, which
    pairs every later byte with the wrong neighbour: the result is the checksum
    of other data. *)
Theorem ip_checksum_odd_address b data :
  compute_ip_checksum true (b :: data) = Ret (checksum (b :: Byte.x00 :: data)) ∧
  compute_ip_checksum true [Byte.x01; Byte.x02] ≠ compute_ip_checksum false [Byte.x01; Byte.x02].
Proof.
  split; [apply compute_odd | ]. rewrite compute_odd, compute_even. unfold checksum.
  cbn [word_sum]. rewrite !combine2.
  change (byte.unsigned Byte.x01) with 1. change (byte.unsigned Byte.x02) with 2.
  change (byte.unsigned Byte.x00) with 0.
  destruct host_be; rewrite !fold16_small by lia; intros Heq; injection Heq; lia.
Qed.
End contract.
