(* ===== verification/ElfBoot.v ===== *)
(** The boot notes of kexec-tools/kexec/kexec-elf-boot.c: the parameter block
    with the loader's name and version and the command line, sealed with an IP
    checksum, that is handed to an ELF kernel. *)

From Stdlib Require Import ZArith Lia String.
From stdpp Require Import base tactics list numbers gmap.
From coqutil Require Import Byte.
From S2P Require Import Prelude Words CMem Segments IpChecksum.

#[local] Open Scope Z_scope.

Definition ELF_BOOT_MAGIC : Z := 0x0E1FB007.
Definition EBN_BOOTLOADER_NAME : Z := 2.
Definition EBN_BOOTLOADER_VERSION : Z := 3.
Definition EBN_COMMAND_LINE : Z := 4.

Definition BOOTLOADER : list byte := bs "kexec".

(** [UPSZ] of a string: its size with the NUL, rounded up to four. *)
Definition UPSZ (s : list byte) : nat := Nat.div (length s + 1 + 3) 4 * 4.

(** A string in an array of [UPSZ] bytes. *)
Definition desc (s : list byte) : list byte := s ++ replicate (UPSZ s - length s) Byte.x00.

Section elf_boot.
Context `{Arch}.

Definition Elf_Nhdr (namesz descsz type : Z) : list byte :=
  split host_be 4 namesz ++ split host_be 4 descsz ++ split host_be 4 type.

Definition Elf_Bhdr (size checksum : Z) : list byte :=
  split host_be 4 ELF_BOOT_MAGIC ++ split host_be 4 size ++ split host_be 2 checksum
  ++ split host_be 2 3.

(** The records after the header: [bl_hdr], [bl_desc], [blv_hdr], [blv_desc] and
    [cmd_hdr] with a size for the command line. *)
Definition records (version : list byte) (cmdline_len : Z) : list byte :=
  Elf_Nhdr 0 (Z.of_nat (length BOOTLOADER) + 1) EBN_BOOTLOADER_NAME ++ desc BOOTLOADER
  ++ Elf_Nhdr 0 (Z.of_nat (length version) + 1) EBN_BOOTLOADER_VERSION ++ desc version
  ++ Elf_Nhdr 0 cmdline_len EBN_COMMAND_LINE.

(** [sizeof(boot_notes)]. *)
Definition sizeof_boot_notes (version : list byte) : Z :=
  12 + (12 + Z.of_nat (UPSZ BOOTLOADER) + 12 + Z.of_nat (UPSZ version) + 12).

(** The static template [boot_notes]. *)
Definition boot_notes (version : list byte) : list byte :=
  Elf_Bhdr (sizeof_boot_notes version) 0 ++ records version 0.

Definition align (val align : Z) : Z :=
  Z.land (ul (val + align - 1)) (notw ulong_bits (align - 1)).

(** The block that [elf_boot_notes] fills: [version] is the build's
    [BOOTLOADER_VERSION], [raw] what the fresh memory holds, at an even
    address. *)
Definition fill_boot_notes (version cmdline raw : list byte) : outcome (list byte) :=
  let size := sizeof_boot_notes version in
  let cmdline_len := Z.of_nat (length cmdline) in
  notes ← write_at raw 0 (boot_notes version);
  notes ← write_at notes size cmdline;
  notes ← write_at notes 4 (split host_be 4 (Z.of_nat (length raw)));
  notes ← write_at notes (size - 8) (split host_be 4 cmdline_len);
  sum ← compute_ip_checksum false notes;
  write_at notes 8 (split host_be 2 sum).

(** [xmalloc] gives [xmalloc n], [n] bytes of unknown contents. *)
Definition elf_boot_notes (lay : layout) (m : gmap positive (list byte)) (segs : list kexec_segment)
    (version cmdline : list byte) (max_addr : Z) (xmalloc : Z → list byte)
    : outcome (Z * list kexec_segment * gmap positive (list byte)) :=
  let note_bytes := ul (sizeof_boot_notes version + align (Z.of_nat (length cmdline)) 4) in
  notes ← fill_boot_notes version cmdline (xmalloc note_bytes);
  let '(m, p) := alloc m notes in
  '(note_base, segs) ← add_buffer lay segs p note_bytes note_bytes 4 0 max_addr 1;
  mret (note_base, segs, m).

(** ** What the block is *)

(** The block with a checksum field [c] and padding [pad] after the command
    line. *)
Definition notes_block (version cmdline pad : list byte) (c : Z) : list byte :=
  Elf_Bhdr (sizeof_boot_notes version + Z.of_nat (length cmdline) + Z.of_nat (length pad)) c
  ++ records version (Z.of_nat (length cmdline)) ++ cmdline ++ pad.

Lemma length_desc s : length (desc s) = UPSZ s.
Proof.
  unfold desc. rewrite length_app, length_replicate.
  assert (length s ≤ UPSZ s)%nat; [ | lia]. unfold UPSZ.
  pose proof (Nat.div_mod (length s + 1 + 3) 4 ltac:(lia)).
  pose proof (Nat.mod_upper_bound (length s + 1 + 3) 4 ltac:(lia)). lia.
Qed.

Lemma length_Nhdr a b c : length (Elf_Nhdr a b c) = 12%nat.
Proof. unfold Elf_Nhdr. by rewrite !length_app, !length_split. Qed.

Lemma length_Bhdr a b : length (Elf_Bhdr a b) = 12%nat.
Proof. unfold Elf_Bhdr. by rewrite !length_app, !length_split. Qed.

Lemma length_records version n :
  Z.of_nat (length (records version n)) = sizeof_boot_notes version - 12.
Proof.
  unfold records, sizeof_boot_notes. rewrite !length_app, !length_Nhdr, !length_desc. lia.
Qed.

(** Replacing a piece of a string. *)
Lemma write_piece (a b c d : list byte) off :
  off = Z.of_nat (length a) → length b = length d →
  write_at (a ++ b ++ c) off d = Ret (a ++ d ++ c).
Proof.
  intros -> Hd. apply write_at_Ret. rewrite !length_app. split; [lia | ]. split; [lia | ].
  unfold overwrite. rewrite Nat2Z.id, take_app_length. f_equal. f_equal.
  rewrite <- Hd, app_assoc. by rewrite drop_app_length' by (rewrite length_app; lia).
Qed.

(** The records with their last field, the size of the command line, apart. *)
Definition records_before (version : list byte) : list byte :=
  Elf_Nhdr 0 (Z.of_nat (length BOOTLOADER) + 1) EBN_BOOTLOADER_NAME ++ desc BOOTLOADER
  ++ Elf_Nhdr 0 (Z.of_nat (length version) + 1) EBN_BOOTLOADER_VERSION ++ desc version
  ++ split host_be 4 0.

Lemma records_split version n :
  records version n =
  records_before version ++ split host_be 4 n ++ split host_be 4 EBN_COMMAND_LINE.
Proof. unfold records, records_before, Elf_Nhdr. by rewrite <- !app_assoc. Qed.

Lemma fill_boot_notes_spec version cmdline raw pad :
  Z.of_nat (length raw) = sizeof_boot_notes version + Z.of_nat (length cmdline) + Z.of_nat (length pad) →
  pad = drop (Z.to_nat (sizeof_boot_notes version) + length cmdline) raw →
  fill_boot_notes version cmdline raw =
    Ret (notes_block version cmdline pad (checksum (notes_block version cmdline pad 0))).
Proof.
  intros Hlen Hpad. unfold fill_boot_notes. set (size := sizeof_boot_notes version) in *.
  assert (0 ≤ size) as Hs by (subst size; unfold sizeof_boot_notes; lia).
  assert (Z.of_nat (length (boot_notes version)) = size) as Hbn.
  { unfold boot_notes. rewrite length_app, Nat2Z.inj_add, length_records, length_Bhdr. subst size. lia. }
  set (old := take (length cmdline) (drop (Z.to_nat size) raw)).
  assert (raw = take (Z.to_nat size) raw ++ old ++ pad) as Hraw.
  { subst old pad. rewrite <- drop_drop, take_drop. by rewrite take_drop. }
  assert (length (take (Z.to_nat size) raw) = length (boot_notes version)) as Hl1
    by (rewrite length_take; lia).
  assert (length old = length cmdline) as Hl2
    by (subst old; rewrite length_take, length_drop; lia).
  rewrite Hlen. set (total := size + Z.of_nat (length cmdline) + Z.of_nat (length pad)).
  pose proof (write_piece [] (take (Z.to_nat size) raw) (old ++ pad) (boot_notes version) 0 eq_refl Hl1)
    as Hw1. cbn [app] in Hw1. rewrite <- Hraw in Hw1. rewrite Hw1, bind_Ret_l.
  rewrite (write_piece (boot_notes version) old pad cmdline size) by done.
  rewrite bind_Ret_l. unfold boot_notes, Elf_Bhdr. rewrite (records_split version 0), <- !app_assoc.
  rewrite (write_piece (split host_be 4 ELF_BOOT_MAGIC) (split host_be 4 (sizeof_boot_notes version)))
    by (by rewrite ?length_split).
  rewrite bind_Ret_l.
  set (before c := split host_be 4 ELF_BOOT_MAGIC ++ split host_be 4 total ++ split host_be 2 c
                   ++ split host_be 2 3 ++ records_before version).
  assert (Z.of_nat (length (before 0)) = size - 8) as Hlb.
  { pose proof (length_records version 0) as Hr. rewrite records_split in Hr.
    unfold before. rewrite !length_app, !length_split in *. fold size in Hr. lia. }
  replace (split host_be 4 ELF_BOOT_MAGIC ++ split host_be 4 total ++ split host_be 2 0
    ++ split host_be 2 3 ++ records_before version ++ split host_be 4 0
    ++ split host_be 4 EBN_COMMAND_LINE ++ cmdline ++ pad)
    with (before 0 ++ split host_be 4 0 ++ split host_be 4 EBN_COMMAND_LINE ++ cmdline ++ pad)
    by (unfold before; by rewrite <- !app_assoc).
  rewrite (write_piece (before 0) (split host_be 4 0)) by (done || by rewrite !length_split).
  rewrite bind_Ret_l.
  assert (∀ c, notes_block version cmdline pad c =
    before c ++ split host_be 4 (Z.of_nat (length cmdline)) ++ split host_be 4 EBN_COMMAND_LINE
    ++ cmdline ++ pad) as Hblock.
  { intros c. unfold notes_block, before, Elf_Bhdr. rewrite records_split, <- !app_assoc. done. }
  rewrite <- Hblock, compute_even, bind_Ret_l. rewrite !Hblock.
  set (sum := checksum _). unfold before. rewrite <- !app_assoc.
  rewrite (app_assoc (split host_be 4 ELF_BOOT_MAGIC)).
  rewrite (write_piece _ (split host_be 2 0)) by (by rewrite ?length_app, ?length_split).
  by rewrite <- !app_assoc.
Qed.

(** The block's checksum is right: the sum over the whole block is 0. *)
Lemma notes_block_checksum version cmdline pad :
  checksum (notes_block version cmdline pad (checksum (notes_block version cmdline pad 0))) = 0.
Proof.
  set (s := checksum (notes_block version cmdline pad 0)).
  pose proof (checksum_range (notes_block version cmdline pad 0)) as Hs. fold s in Hs.
  set (tl := split host_be 2 3 ++ records version (Z.of_nat (length cmdline)) ++ cmdline ++ pad).
  set (hd := split host_be 4 ELF_BOOT_MAGIC ++ split host_be 4
    (sizeof_boot_notes version + Z.of_nat (length cmdline) + Z.of_nat (length pad))).
  assert (∀ c, 0 ≤ c ≤ 0xFFFF →
    word_sum (notes_block version cmdline pad c) = c + word_sum hd + word_sum tl) as Hws.
  { intros c Hc. unfold notes_block, Elf_Bhdr. rewrite <- !app_assoc.
    rewrite (app_assoc (split host_be 4 ELF_BOOT_MAGIC)). fold hd. fold tl.
    rewrite (word_sum_app 4) by (subst hd; by rewrite length_app, !length_split).
    rewrite (word_sum_app 1) by (by rewrite length_split).
    assert (word_sum (split host_be 2 c) = c) as ->; [ | lia].
    pose proof (length_split host_be 2 c) as Hl. pose proof (combine_split host_be 2 c) as Hcs.
    rewrite Z.mod_small in Hcs by (simpl; lia).
    destruct (split host_be 2 c) as [|x [|y [|]]]; simpl in Hl; try lia. simpl. lia. }
  unfold checksum at 1. rewrite Hws by done.
  assert (s = 0xFFFF - fold16 (word_sum hd + word_sum tl)) as ->.
  { subst s. unfold checksum. by rewrite Hws. }
  pose proof (word_sum_nonneg hd). pose proof (word_sum_nonneg tl).
  set (S := word_sum hd + word_sum tl).
  pose proof (fold16_range S).
  destruct (fold16_residue S) as [k Hk]; [subst S; lia | ].
  enough (fold16 (0xFFFF - fold16 S + word_sum hd + word_sum tl) = 0xFFFF) by lia.
  apply fold16_unique; [lia | lia | exists k; subst S; lia | ].
  split; [lia | ]. intros E. exfalso. assert (S = 0) as E0 by (subst S; lia).
  rewrite E0 in E. change (fold16 0) with 0 in E. subst S. lia.
Qed.

(** the block of boot notes that is built in memory of any contents has the
    header, the three notes and the command line in their places, its [b_size]
    is its length, and the checksum over the whole of it is 0; no write leaves
    it. *)
Theorem boot_notes_valid version cmdline raw pad :
  Z.of_nat (length raw) = sizeof_boot_notes version + Z.of_nat (length cmdline) + Z.of_nat (length pad) →
  pad = drop (Z.to_nat (sizeof_boot_notes version) + length cmdline) raw →
  ∃ c, fill_boot_notes version cmdline raw = Ret (notes_block version cmdline pad c) ∧
       length (notes_block version cmdline pad c) = length raw ∧
       compute_ip_checksum false (notes_block version cmdline pad c) = Ret 0.
Proof.
  intros Hlen Hpad. eexists. split; [by apply fill_boot_notes_spec | ]. split.
  - unfold notes_block. rewrite !length_app, length_Bhdr. pose proof (length_records version (Z.of_nat (length cmdline))). lia.
  - by rewrite compute_even, notes_block_checksum.
Qed.
(** A block of boot notes that was filled is the sealed block. *)
Lemma fill_boot_notes_sealed version cmd raw notes :
  fill_boot_notes version cmd raw = Ret notes →
  length notes = length raw ∧ ∃ pad c, notes = notes_block version cmd pad c ∧ compute_ip_checksum false notes = Ret 0.
Proof.
  intros Hf. pose proof Hf as Hb. unfold fill_boot_notes in Hb. cbv zeta in Hb.
  apply bind_Ret in Hb as (n1 & (_ & L1 & E1)%write_at_Ret & Hb).
  apply bind_Ret in Hb as (n2 & (H0 & L2 & _)%write_at_Ret & _).
  assert (length n1 = length raw) as En by (rewrite E1; apply length_overwrite; lia).
  set (k := (Z.to_nat (sizeof_boot_notes version) + length cmd)%nat).
  destruct (boot_notes_valid version cmd raw (drop k raw)) as (c & Hc & Hl & Hs); [ | done | ].
  { rewrite length_drop. unfold k. lia. }
  rewrite Hf in Hc. apply Ret_inj in Hc. subst notes. split; [done | ]. by exists (drop k raw), c.
Qed.
End elf_boot.

Module Witness.
Lemma boot_notes_valid_witness :
  ∃ c, fill_boot_notes (H := i386) (bs "1.101") (bs "root=/dev/hda") (replicate 81 Byte.xaa)
         = Ret (notes_block (H := i386) (bs "1.101") (bs "root=/dev/hda")
                  [Byte.xaa; Byte.xaa; Byte.xaa; Byte.xaa] c) ∧
       compute_ip_checksum (H := i386) false (notes_block (H := i386) (bs "1.101") (bs "root=/dev/hda")
                  [Byte.xaa; Byte.xaa; Byte.xaa; Byte.xaa] c) = Ret 0.
Proof.
  destruct (boot_notes_valid (H := i386) (bs "1.101") (bs "root=/dev/hda") (replicate 81 Byte.xaa)
    [Byte.xaa; Byte.xaa; Byte.xaa; Byte.xaa]) as (c & ? & _ & ?).
  - vm_compute. reflexivity.
  - vm_compute. reflexivity.
  - exists c. split; assumption.
Defined.
End Witness.
