(* ===== verification/ElfExec.v ===== *)
(** Loading an ELF executable: kexec-tools/kexec/kexec-elf-exec.c. *)

From Stdlib Require Import ZArith Lia String.
From stdpp Require Import base tactics list numbers.
From coqutil Require Import Byte.
From S2P Require Import Prelude Words CMem Segments SegmentsSpec Elf.

#[local] Open Scope Z_scope.

Definition ET_REL := 1.
Definition ET_EXEC := 2.
Definition ET_DYN := 3.

Section elf_exec.
Context `{Arch}.

(** [None] stands for a negative result. *)
Definition build_elf_exec_info (file : list byte) (buf : ptr) : outcome (option mem_ehdr) :=
  result ← build_elf_info file buf;
  match result with
  | None => Ret None
  | Some ehdr =>
      if negb (e_type ehdr =? ET_EXEC) && negb (e_type ehdr =? ET_DYN) then Ret None
      else
        match e_phdr ehdr with
        | None => Ret None
        | Some phdrs =>
            if existsb (λ phdr, p_type phdr =? PT_INTERP) phdrs then Ret None
            else Ret (Some ehdr)
        end
  end.

(** The loop over the segments of a dynamic executable: [first], [last] and
    [align].  The test [start > first] assigns to the local [start]. *)
Definition dyn_step (st : Z * Z * Z) (phdr : mem_phdr) : Z * Z * Z :=
  let '(first, last, align) := st in
  if negb (p_type phdr =? PT_LOAD) || (p_memsz phdr =? 0) then st
  else
    let start := p_paddr phdr in
    let stop := ul (start + p_memsz phdr) in
    let start := if first <? start then first else start in
    let last := if last <? stop then stop else last in
    let align := if align <? p_align phdr then p_align phdr else align in
    (first, last, align).

(** The loop that adds the PT_LOAD segments. *)
Fixpoint load_phdrs (lay : layout) (base : Z) (phdrs : list mem_phdr) (segs : list kexec_segment)
    : outcome (list kexec_segment) :=
  match phdrs with
  | [] => Ret segs
  | phdr :: phdrs =>
      if negb (p_type phdr =? PT_LOAD) then load_phdrs lay base phdrs segs
      else
        let size := if p_memsz phdr <? p_filesz phdr then p_memsz phdr else p_filesz phdr in
        segs ← add_segment lay segs (p_data phdr) size (ul (p_paddr phdr + base)) (p_memsz phdr);
        load_phdrs lay base phdrs segs
  end.

(** The segments with the new ones, or [None] for the result -1. *)
Definition elf_exec_load (lay : layout) (ehdr : mem_ehdr) (segs : list kexec_segment)
    : outcome (option (list kexec_segment)) :=
  match e_phdr ehdr with
  | None => Ret None
  | Some phdrs =>
      base ←
        (if e_type ehdr =? ET_DYN then
           let '(first, last, align) := foldl dyn_step (ULONG_MAX, 0, 0) phdrs in
           if negb (valid_memory_range lay first last) then
             hole ← locate_hole lay segs (ul (last - first + 1)) align 0 (elf_max_addr ehdr) 1;
             if hole =? ULONG_MAX then Ret None else Ret (Some (ul (hole - first)))
           else Ret (Some 0)
         else Ret (Some 0));
      match base with
      | None => Ret None
      | Some base => segs ← load_phdrs lay base phdrs segs; mret (Some segs)
      end
  end.

Definition elf_exec_build_load (lay : layout) (file : list byte) (buf : ptr)
    (segs : list kexec_segment) : outcome (mem_ehdr * list kexec_segment) :=
  result ← build_elf_exec_info file buf;
  match result with
  | None => Die "ELF exec parse failed"
  | Some ehdr =>
      result ← elf_exec_load lay ehdr segs;
      match result with
      | None => Die "ELF exec load failed"
      | Some segs => Ret (ehdr, segs)
      end
  end.

(** ** What the loader does *)

(** The segments that an executable asks for. *)
Definition loadable (phdrs : list mem_phdr) : list mem_phdr :=
  filter (λ p, p_type p = PT_LOAD ∧ p_memsz p ≠ 0) phdrs.

Definition segment_of (base : Z) (p : mem_phdr) : kexec_segment :=
  new_segment (p_data p) (p_filesz p `min` p_memsz p) (ul (p_paddr p + base)) (p_memsz p).

Definition sizes_ok (p : mem_phdr) : Prop := 0 ≤ p_memsz p ≤ ULONG_MAX.

Lemma loadable_cons_yes p ps :
  p_type p = PT_LOAD → p_memsz p ≠ 0 → loadable (p :: ps) = p :: loadable ps.
Proof. intros. unfold loadable. by rewrite filter_cons_True. Qed.

Lemma loadable_cons_no p ps :
  p_type p ≠ PT_LOAD ∨ p_memsz p = 0 → loadable (p :: ps) = loadable ps.
Proof. intros Hp. unfold loadable. rewrite filter_cons_False; [done | ]. intros [? ?]. by destruct Hp. Qed.

Lemma load_phdrs_Ret lay base phdrs : ∀ segs segs',
  wf_layout lay → Forall sizes_ok phdrs →
  load_phdrs lay base phdrs segs = Ret segs' ↔
  segs' = segs ++ map (segment_of base) (loadable phdrs) ∧
  Forall (wf_segment lay) (map (segment_of base) (loadable phdrs)).
Proof.
  induction phdrs as [|p phdrs IH]; intros segs segs' Hwf Hs.
  { simpl. rewrite app_nil_r. split; [intros; inv_ret; by repeat constructor | by intros [-> _]]. }
  apply Forall_cons_1 in Hs as [Hp Hs]. cbn [load_phdrs].
  destruct (Z.eqb_spec (p_type p) PT_LOAD) as [Ht | Ht]; cbn [negb].
  2:{ rewrite loadable_cons_no by (by left). by apply IH. }
  destruct (decide (p_memsz p = 0)) as [E0 | E0].
  { rewrite loadable_cons_no by (by right).
    unfold add_segment. rewrite E0. cbn [Z.eqb]. rewrite bind_Ret_l. by apply IH. }
  rewrite loadable_cons_yes by done. cbn [map]. rewrite List.Forall_cons_iff.
  assert ((if p_memsz p <? p_filesz p then p_memsz p else p_filesz p) = p_filesz p `min` p_memsz p) as ->.
  { destruct (Z.ltb_spec (p_memsz p) (p_filesz p)); lia. }
  unfold sizes_ok in Hp. rewrite bind_Ret. fold (segment_of base p). split.
  - intros (l & Hl & Hrest).
    apply add_segment_Ret in Hl as [-> Hw]; [ | done | apply ul_le_max | lia].
    apply IH in Hrest as [-> Hall]; [ | done | done].
    by rewrite <- app_assoc.
  - intros [-> [Hw Hall]]. exists (segs ++ [segment_of base p]). split.
    + apply add_segment_Ret; [done | apply ul_le_max | lia | done].
    + apply IH; [done | done | ]. by rewrite <- app_assoc.
Qed.

(** a static executable is loaded exactly when each of its PT_LOAD segments
    that occupies memory is page-aligned and, rounded up to pages, lies in RAM;
    then those segments, and no others, are appended in their order, each at its
    physical address with the smaller of its file and memory sizes. *)
Theorem elf_exec_load_static lay ehdr phdrs segs segs' :
  wf_layout lay → e_type ehdr = ET_EXEC → e_phdr ehdr = Some phdrs → Forall sizes_ok phdrs →
  elf_exec_load lay ehdr segs = Ret (Some segs') ↔
  segs' = segs ++ map (segment_of 0) (loadable phdrs) ∧
  Forall (wf_segment lay) (map (segment_of 0) (loadable phdrs)).
Proof.
  intros Hwf Ht Hp Hs. unfold elf_exec_load. rewrite Hp, Ht.
  cbn [Z.eqb Pos.eqb ET_DYN ET_EXEC]. rewrite bind_Ret_l.
  rewrite <- load_phdrs_Ret by done. rewrite bind_Ret. split.
  - intros (l & Hl & He). injection He as <-. done.
  - intros Hl. by exists segs'.
Qed.

(** ** Dynamic executables *)

Lemma dyn_first phdrs st : (foldl dyn_step st phdrs).1.1 = st.1.1.
Proof.
  revert st. induction phdrs as [|p phdrs IH]; intros [[f l] a]; cbn [foldl]; [done | ].
  rewrite IH. unfold dyn_step. by case_if.
Qed.

Lemma land_notw_divide x a : pow2 a → a ≤ 2 ^ 32 → (a | Z.land x (notw ulong_bits (a - 1))).
Proof.
  intros Ha Hle. pose proof ulong_bits_pos.
  assert (Z.land x (notw ulong_bits (a - 1)) = Z.land (ul x) (notw ulong_bits (a - 1))) as ->.
  { unfold notw, ul. rewrite <- Z.land_ones by lia.
    rewrite <- (Z.land_assoc x), (Z.land_comm (Z.ones _)), <- (Z.land_assoc _ (Z.ones _)), Z.land_diag.
    done. }
  rewrite land_notw_pow2; [apply round_down_divide | lia | done | apply ul_range].
Qed.

Lemma divide_ul a x : pow2 a → a ≤ 2 ^ 32 → (a | x) → (a | ul x).
Proof.
  intros Ha Hle Hx. pose proof ulong_mod_ge. pose proof (pow2_pos _ Ha). unfold ul.
  rewrite Z.mod_eq by lia. apply Z.divide_sub_r; [done | ]. apply Z.divide_mul_l.
  apply pow2_divide; [done | | lia]. exists ulong_bits. pose proof ulong_bits_pos. lia.
Qed.

Lemma pick_hole_aligned lay size a lo hi e frees : ∀ d,
  pow2 a → a ≤ 2 ^ 32 →
  pick_hole lay size a lo hi e frees d = d ∨ (a | pick_hole lay size a lo hi e frees d).
Proof.
  induction frees as [|r frees IH]; intros d Ha Hle; cbn [pick_hole]; [by left | ].
  repeat case_if; auto.
  - right. apply divide_ul; [done | done | ]. by apply land_notw_divide.
  - destruct (IH (ul (Z.land (u64 (clip_end lay hi (mr_end r) - size)) (notw ulong_bits (a - 1)))) Ha Hle)
      as [-> | ?]; [ | by right]. right. apply divide_ul; [done | done | ]. by apply land_notw_divide.
Qed.

Lemma locate_hole_aligned lay segs size align lo hi e b :
  pow2 (sane_align align) → sane_align align ≤ 2 ^ 32 →
  locate_hole lay segs size align lo hi e = Ret b → b = ULONG_MAX ∨ (pagesize | b).
Proof.
  intros Ha Hle. unfold locate_hole. intros Hl.
  case_if_in Hl; [done | ]. cbv zeta in Hl. case_if_in Hl; [done | ].
  case_if_in Hl; [injection Hl as <-; by left | ].
  case_if_in Hl; [injection Hl as <-; by left | ]. injection Hl as <-.
  destruct (pick_hole_aligned lay size (sane_align align) lo hi e
    (free_ranges (memory_ranges lay) segs) ULONG_MAX Ha Hle) as [Hb | Hb].
  - zbool. done.
  - right. by eapply Z.divide_trans; [apply pow2_sane_align | ].
Qed.

(** a dynamic executable with page-aligned segments is never loaded: the
    lowest address stays [ULONG_MAX], no range that starts there is valid, and
    the load offset becomes the hole's address plus one, which is not
    page-aligned. *)
Theorem elf_exec_load_dyn_fails lay ehdr phdrs segs p :
  e_type ehdr = ET_DYN → e_phdr ehdr = Some phdrs → p ∈ loadable phdrs →
  Forall (λ p, (pagesize | p_paddr p)) (loadable phdrs) →
  (foldl dyn_step (ULONG_MAX, 0, 0) phdrs).1.2 < ULONG_MAX →
  pow2 (sane_align (foldl dyn_step (ULONG_MAX, 0, 0) phdrs).2) →
  sane_align (foldl dyn_step (ULONG_MAX, 0, 0) phdrs).2 ≤ 2 ^ 32 →
  ∀ segs', elf_exec_load lay ehdr segs ≠ Ret (Some segs').
Proof.
  intros Ht Hp Hin Hal Hlast Ha Hle segs' Hload. unfold elf_exec_load in Hload.
  rewrite Hp, Ht in Hload. cbn [Z.eqb Pos.eqb ET_DYN] in Hload.
  pose proof (dyn_first phdrs (ULONG_MAX, 0, 0)) as Hfirst.
  destruct (foldl dyn_step (ULONG_MAX, 0, 0) phdrs) as [[first last] align]. cbn [fst snd] in *. subst first.
  assert (valid_memory_range lay ULONG_MAX last = false) as Hv.
  { unfold valid_memory_range. destruct (Z.ltb_spec last ULONG_MAX); [done | lia]. }
  rewrite Hv in Hload. cbn [negb] in Hload.
  apply bind_Ret in Hload as (base & Hbase & Hload). apply bind_Ret in Hbase as (hole & Hhole & Hbase).
  destruct (Z.eqb_spec hole ULONG_MAX) as [E | E]; injection Hbase as <-; [done | ].
  destruct (locate_hole_aligned _ _ _ _ _ _ _ _ Ha Hle Hhole) as [? | Hpg]; [done | ].
  apply bind_Ret in Hload as (l & Hl & _). clear Hhole Hv Hlast.
  set (base := ul (hole - ULONG_MAX)) in *. revert segs Hl Hin Hal. clear Hp.
  induction phdrs as [|q phdrs IH]; intros segs Hl Hin Hal; [by apply not_elem_of_nil in Hin | ].
  cbn [load_phdrs] in Hl.
  destruct (Z.eqb_spec (p_type q) PT_LOAD) as [Hq | Hq]; cbn [negb] in Hl.
  2:{ rewrite loadable_cons_no in * by (by left). by apply (IH segs). }
  destruct (decide (p_memsz q = 0)) as [E0 | E0].
  { rewrite loadable_cons_no in * by (by right). apply bind_Ret in Hl as (l1 & _ & Hl). by apply (IH l1). }
  rewrite loadable_cons_yes in Hal by done. apply Forall_cons_1 in Hal as [Hqal _].
  apply bind_Ret in Hl as (l1 & Hl1 & _). unfold add_segment in Hl1.
  destruct (Z.eqb_spec (p_memsz q) 0); [done | ]. rewrite land_pow2_mod in Hl1 by apply pow2_pagesize.
  destruct (Z.eqb_spec (ul (p_paddr q + base) `mod` pagesize) 0) as [Em | Em]; cbn [negb] in Hl1; [ | done].
  pose proof pagesize_pos. pose proof pagesize_lt. pose proof pow2_pagesize as Hp2.
  apply Z.mod_divide in Em; [ | lia].
  (* hole + 1 would be a multiple of the page size *)
  assert (pagesize | 2 ^ ulong_bits) as Hbits.
  { pose proof ulong_mod_ge. apply pow2_divide; [done | | lia]. exists ulong_bits.
    pose proof ulong_bits_pos. lia. }
  assert (∀ z, (pagesize | ul z) → (pagesize | z)) as Hul.
  { intros z Hz. unfold ul in Hz. rewrite (Z.div_mod z (2 ^ ulong_bits)) by (pose proof ulong_mod_pos; lia).
    apply Z.divide_add_r; [ | done]. by apply Z.divide_mul_l. }
  apply Hul in Em.
  assert (pagesize | base) as Hb.
  { replace base with (p_paddr q + base - p_paddr q) by lia. by apply Z.divide_sub_r. }
  subst base. apply Hul in Hb. unfold ULONG_MAX in Hb.
  assert (pagesize | 1) as Hone.
  { replace 1 with (hole - (2 ^ ulong_bits - 1) - (hole - 2 ^ ulong_bits)) by lia.
    apply Z.divide_sub_r; [done | ]. by apply Z.divide_sub_r. }
  apply Z.divide_1_r_nonneg in Hone; [ | lia].
  pose proof pagesize_ge. lia.
Qed.
End elf_exec.

Module Witness.
#[local] Existing Instance i386.
Import SegmentsSpec.Witness.

Definition text : mem_phdr := {|
  p_paddr := 0x200000; p_vaddr := 0x200000; p_filesz := 5000; p_memsz := 6000; p_offset := 4096;
  p_data := {| p_blk := 1; p_off := 4096 |}; p_type := PT_LOAD; p_flags := 5; p_align := 4096 |}.

Definition gap : mem_phdr := {|
  p_paddr := 0; p_vaddr := 0; p_filesz := 10; p_memsz := 0; p_offset := 0;
  p_data := {| p_blk := 1; p_off := 0 |}; p_type := PT_LOAD; p_flags := 0; p_align := 0 |}.

Definition exec (ty : Z) : mem_ehdr := {|
  ei_class := 1; ei_data := 1; e_type := ty; e_machine := 3; e_version := 1; e_flags := 0;
  e_phnum := 2; e_shnum := 0; e_shstrndx := 0; e_entry := 0x200000; e_phoff := 52; e_shoff := 0;
  e_phdr := Some [gap; text]; e_shdr := None; e_note := None; rel_addr := 0; rel_size := 0 |}.

Lemma elf_exec_load_static_witness :
  elf_exec_load pc (exec ET_EXEC) [kernel] = Ret (Some [kernel; segment_of 0 text]) ∧
  Forall (wf_segment pc) [segment_of 0 text].
Proof.
  assert (elf_exec_load pc (exec ET_EXEC) [kernel] = Ret (Some [kernel; segment_of 0 text])) as E
    by (vm_compute; reflexivity).
  split; [done | ].
  refine (proj2 (proj1 (elf_exec_load_static pc (exec ET_EXEC) [gap; text] [kernel] _ wf_pc _ _ _) E));
    try done.
  repeat (apply Forall_cons_2 || apply Forall_nil_2); by vm_compute.
Defined.

Lemma elf_exec_load_dyn_fails_witness :
  elf_exec_load pc (exec ET_DYN) [kernel; setup] ≠ Ret (Some [kernel; setup]).
Proof.
  apply (elf_exec_load_dyn_fails pc (exec ET_DYN) [gap; text] [kernel; setup] text); try done.
  - by left.
  - apply Forall_cons_2; [by exists 512 | apply Forall_nil_2].
  - by exists 12.
Defined.
End Witness.
