(* ===== verification/ElfRel.v ===== *)
(** Loading and relocating an ELF relocatable object (purgatory):
    kexec-tools/kexec/kexec-elf-rel.c, with the relocations of the targets in
    arch/*/kexec-elf-rel-*.c behind the interface [Machine].  The contents of the
    sections are in a memory of CMem.v. *)

From Stdlib Require Import ZArith Lia String.
From stdpp Require Import base tactics list numbers gmap.
From coqutil Require Import Byte.
From S2P Require Import Prelude Words CMem CString Segments Elf ElfExec.

#[local] Open Scope Z_scope.

Abbreviation mem := (gmap positive (list byte)).

(** ** Data (kexec-elf.h) and constants (elf.h) *)

Record mem_sym := {
  st_name : Z; st_info : Z; st_other : Z; st_shndx : Z; st_value : Z; st_size : Z
}.

Record mem_rela := { r_offset : Z; r_sym : Z; r_type : Z; r_addend : Z }.

Definition SHF_ALLOC := Z.shiftl 1 1.
Definition SHF_EXECINSTR := Z.shiftl 1 2.
Definition STN_UNDEF := 0.
Definition SHN_ABS := 0xfff1.
Definition SHN_COMMON := 0xfff2.
Definition STB_GLOBAL := 1.
Definition EM_386 := 3.
Definition EM_486 := 6.
Definition EM_PPC := 20.
Definition EM_X86_64 := 62.
Definition R_386_32 := 1.
Definition R_386_PC32 := 2.
Definition R_PPC_ADDR32 := 1.
Definition R_PPC_ADDR16_LO := 4.
Definition R_PPC_ADDR16_HA := 6.
Definition R_PPC_REL24 := 10.
Definition R_PPC_REL32 := 26.
Definition R_X86_64_NONE := 0.
Definition R_X86_64_64 := 1.
Definition R_X86_64_PC32 := 2.
Definition R_X86_64_32 := 10.
Definition R_X86_64_32S := 11.

Definition ELF32_ST_BIND (val : Z) : Z := Z.shiftr (u8 val) 4.
Definition ELF32_R_SYM (val : Z) : Z := Z.shiftr val 8.
Definition ELF32_R_TYPE (val : Z) : Z := Z.land val 0xff.
Definition ELF64_R_SYM (i : Z) : Z := Z.shiftr i 32.
Definition ELF64_R_TYPE (i : Z) : Z := Z.land i 0xffffffff.

(** ** The interface of a target

    [machine_verify_elf_rel] accepts the objects of the target and
    [machine_apply_elf_rel] writes one relocation: it changes nothing but the
    object at its location, keeps its length, stays within the eight bytes from
    the location, and ends. *)

Class Machine `{Arch} := {
  machine_verify_elf_rel : mem_ehdr → bool;
  machine_apply_elf_rel : mem → Z → ptr → Z → Z → outcome mem;
  machine_apply_writes m ty loc address value m' :
    machine_apply_elf_rel m ty loc address value = Ret m' →
    m' = m ∨ ∃ data, (length data ≤ 8)%nat ∧ store m loc data = Ret m';
  machine_apply_ends m ty loc address value :
    machine_apply_elf_rel m ty loc address value ≠ Spin
}.

Section elf_rel.
Context `{Machine}.

(** ** Symbols and relocations of a file *)

Definition elf_sym_size (ehdr : mem_ehdr) : outcome Z :=
  if ei_class ehdr =? ELFCLASS32 then Ret 16
  else if ei_class ehdr =? ELFCLASS64 then Ret 24
  else Die "Bad elf class".

Definition elf_rel_size (ehdr : mem_ehdr) : outcome Z :=
  if ei_class ehdr =? ELFCLASS32 then Ret 8
  else if ei_class ehdr =? ELFCLASS64 then Ret 16
  else Die "Bad elf class".

Definition elf_rela_size (ehdr : mem_ehdr) : outcome Z :=
  if ei_class ehdr =? ELFCLASS32 then Ret 12
  else if ei_class ehdr =? ELFCLASS64 then Ret 24
  else Die "Bad elf class".

Definition elf_sym (m : mem) (ehdr : mem_ehdr) (p : ptr) : outcome mem_sym :=
  let d := ei_data ehdr in
  if ei_class ehdr =? ELFCLASS32 then
    lsym ← load m p 16;
    mret {| st_name := elf32_to_cpu d (field lsym 0 4);
            st_value := elf32_to_cpu d (field lsym 4 4);
            st_size := elf32_to_cpu d (field lsym 8 4);
            st_info := field lsym 12 1; st_other := field lsym 13 1;
            st_shndx := elf16_to_cpu d (field lsym 14 2) |}
  else if ei_class ehdr =? ELFCLASS64 then
    lsym ← load m p 24;
    mret {| st_name := elf32_to_cpu d (field lsym 0 4);
            st_value := ul (elf64_to_cpu d (field lsym 8 8));
            st_size := ul (elf64_to_cpu d (field lsym 16 8));
            st_info := field lsym 4 1; st_other := field lsym 5 1;
            st_shndx := elf16_to_cpu d (field lsym 6 2) |}
  else Die "Bad elf class".

Definition elf_rel (m : mem) (ehdr : mem_ehdr) (p : ptr) : outcome mem_rela :=
  let d := ei_data ehdr in
  if ei_class ehdr =? ELFCLASS32 then
    lrel ← load m p 8;
    let info := elf32_to_cpu d (field lrel 4 4) in
    mret {| r_offset := elf32_to_cpu d (field lrel 0 4);
            r_sym := ELF32_R_SYM info; r_type := ELF32_R_TYPE info; r_addend := 0 |}
  else if ei_class ehdr =? ELFCLASS64 then
    lrel ← load m p 16;
    let info := elf64_to_cpu d (field lrel 8 8) in
    mret {| r_offset := ul (elf64_to_cpu d (field lrel 0 8));
            r_sym := ELF64_R_SYM info; r_type := ELF64_R_TYPE info; r_addend := 0 |}
  else Die "Bad elf class".

Definition elf_rela (m : mem) (ehdr : mem_ehdr) (p : ptr) : outcome mem_rela :=
  let d := ei_data ehdr in
  if ei_class ehdr =? ELFCLASS32 then
    lrela ← load m p 12;
    let info := elf32_to_cpu d (field lrela 4 4) in
    mret {| r_offset := elf32_to_cpu d (field lrela 0 4);
            r_sym := ELF32_R_SYM info; r_type := ELF32_R_TYPE info;
            r_addend := elf32_to_cpu d (field lrela 8 4) |}
  else if ei_class ehdr =? ELFCLASS64 then
    lrela ← load m p 24;
    let info := elf64_to_cpu d (field lrela 8 8) in
    mret {| r_offset := ul (elf64_to_cpu d (field lrela 0 8));
            r_sym := ELF64_R_SYM info; r_type := ELF64_R_TYPE info;
            r_addend := ul (elf64_to_cpu d (field lrela 16 8)) |}
  else Die "Bad elf class".

Definition build_elf_rel_info (file : list byte) (buf : ptr) : outcome (option mem_ehdr) :=
  result ← build_elf_info file buf;
  match result with
  | None => Ret None
  | Some ehdr =>
      if negb (e_type ehdr =? ET_REL) then Ret None
      else
        match e_shdr ehdr with
        | None => Ret None
        | Some _ => if negb (machine_verify_elf_rel ehdr) then Ret None else Ret (Some ehdr)
        end
  end.

(** ** Placing the sections *)

Definition allocated (s : mem_shdr) : bool := negb (Z.land (sh_flags s) SHF_ALLOC =? 0).

(** The test of the loop that finds the section of the entry point. *)
Definition holds_entry (entry : Z) (s : mem_shdr) : bool :=
  allocated s && negb (Z.land (sh_flags s) SHF_EXECINSTR =? 0)
  && (sh_addr s <=? entry) && (entry <? ul (sh_addr s + sh_size s)).

(** [(x + (align - 1)) & ~(align - 1)] on [unsigned long]. *)
Definition align_up (x align : Z) : Z :=
  Z.land (ul (x + (align - 1))) (notw ulong_bits (align - 1)).

(** One iteration of the loop that measures the object: [buf_align],
    [bss_align], [bufsz] and [bsssz]. *)
Definition footprint_step (st : Z * Z * Z * Z) (s : mem_shdr) : Z * Z * Z * Z :=
  let '(buf_align, bss_align, bufsz, bsssz) := st in
  let align := sh_addralign s in
  if negb (allocated s) then st
  else if negb (sh_type s =? SHT_NOBITS) then
    (if buf_align <? align then align else buf_align, bss_align,
     ul (align_up bufsz align + sh_size s), bsssz)
  else
    (buf_align, if bss_align <? align then align else bss_align,
     bufsz, ul (align_up bsssz align + sh_size s)).

Definition shdr_place (addr : Z) (data : ptr) (s : mem_shdr) : mem_shdr :=
  {| sh_name := sh_name s; sh_type := sh_type s; sh_flags := sh_flags s; sh_addr := addr;
     sh_offset := sh_offset s; sh_size := sh_size s; sh_link := sh_link s; sh_info := sh_info s;
     sh_addralign := sh_addralign s; sh_entsize := sh_entsize s; sh_data := data |}.

(** The loop that finds an address for each section and copies its contents. *)
Fixpoint place_sections (m : mem) (buf : ptr) (buf_addr data_addr bss_addr : Z)
    (shdrs : list mem_shdr) : outcome (mem * list mem_shdr) :=
  match shdrs with
  | [] => Ret (m, [])
  | s :: shdrs =>
      let align := sh_addralign s in
      if negb (allocated s) then
        '(m, rest) ← place_sections m buf buf_addr data_addr bss_addr shdrs;
        mret (m, s :: rest)
      else if negb (sh_type s =? SHT_NOBITS) then
        let data_addr := align_up data_addr align in
        let off := ul (data_addr - buf_addr) in
        data ← load m (sh_data s) (sh_size s);
        m ← store m (ptr_add buf off) data;
        '(m, rest) ← place_sections m buf buf_addr (ul (data_addr + sh_size s)) bss_addr shdrs;
        mret (m, shdr_place data_addr (ptr_add buf off) s :: rest)
      else
        let bss_addr := align_up bss_addr align in
        '(m, rest) ← place_sections m buf buf_addr data_addr (ul (bss_addr + sh_size s)) shdrs;
        mret (m, shdr_place bss_addr (sh_data s) s :: rest)
  end.

(** The fields of the header that [elf_rel_load] assigns. *)
Definition set_loaded (shdrs : list mem_shdr) (entry addr size : Z) (h : mem_ehdr) : mem_ehdr :=
  {| ei_class := ei_class h; ei_data := ei_data h; e_type := e_type h; e_machine := e_machine h;
     e_version := e_version h; e_flags := e_flags h; e_phnum := e_phnum h; e_shnum := e_shnum h;
     e_shstrndx := e_shstrndx h; e_entry := entry; e_phoff := e_phoff h; e_shoff := e_shoff h;
     e_phdr := e_phdr h; e_shdr := Some shdrs; e_note := e_note h;
     rel_addr := addr; rel_size := size |}.

(** The part of [elf_rel_load] before the relocations, for a header with the
    section headers [shdrs]; [garbage] is what [malloc] finds in the memory it
    returns.  The result has [info->entry] last. *)
Definition place_object (lay : layout) (garbage : list byte) (m : mem) (ehdr : mem_ehdr)
    (shdrs : list mem_shdr) (segs : list kexec_segment) (min max e : Z)
    : outcome (mem * mem_ehdr * list kexec_segment * Z) :=
  let max := if elf_max_addr ehdr <? max then elf_max_addr ehdr else max in
  let entry_shdr := list_find (λ s, holds_entry (e_entry ehdr) s = true) shdrs in
  let '(buf_align, bss_align, bufsz, bsssz) := foldl footprint_step (1, 1, 0, 0) shdrs in
  let buf_align := if buf_align <? bss_align then bss_align else buf_align in
  let bss_pad := if negb (Z.land bufsz (bss_align - 1) =? 0)
    then bss_align - Z.land bufsz (bss_align - 1) else 0 in
  let '(m, buf) := alloc m (resize (Z.to_nat bufsz) Byte.x00 garbage) in
  let size := ul (bufsz + bss_pad + bsssz) in
  '(buf_addr, segs) ← add_buffer lay segs buf bufsz size buf_align min max e;
  '(m, placed) ← place_sections m buf buf_addr buf_addr (ul (buf_addr + bufsz + bss_pad)) shdrs;
  let '(entry, e_entry) :=
    match entry_shdr with
    | Some (i, s) =>
        let entry := ul (e_entry ehdr - sh_addr s
                         + match placed !! i with Some s => sh_addr s | None => 0 end) in
        (entry, entry)
    | None => (e_entry ehdr, e_entry ehdr)
    end in
  mret (m, set_loaded placed e_entry buf_addr size ehdr, segs, entry).

(** ** Relocations *)

(** [&ehdr->e_shdr[i]] is read: there are as many section headers as the file
    header says, and none at the index after them. *)
Definition section_at (shdrs : list mem_shdr) (i : Z) : outcome mem_shdr :=
  match shdrs !! Z.to_nat i with
  | Some s => Ret s
  | None => UB "read past the section headers"
  end.

(** The address of a symbol's section. *)
Definition sec_base (ehdr : mem_ehdr) (shdrs : list mem_shdr) (sym : mem_sym) : outcome Z :=
  if st_shndx sym =? STN_UNDEF then Die "Undefined symbol: %s"
  else if st_shndx sym =? SHN_COMMON then Die "symbol: '%s' in common section"
  else if st_shndx sym =? SHN_ABS then Ret 0
  else if e_shnum ehdr <? st_shndx sym then Die "Invalid section: %d for symbol %s"
  else s ← section_at shdrs (st_shndx sym); mret (sh_addr s).

(** One relocation: the entry at [p] of a section of the type [ty], for the
    section [section] and the symbols of [symtab]. *)
Definition relocate (m : mem) (ehdr : mem_ehdr) (shdrs : list mem_shdr)
    (ty : Z) (section symtab : mem_shdr) (p : ptr) : outcome mem :=
  rel ← (if ty =? SHT_REL then elf_rel m ehdr p else elf_rela m ehdr p);
  let location := ptr_add (sh_data section) (r_offset rel) in
  let address := ul (sh_addr section + r_offset rel) in
  sym_size ← elf_sym_size ehdr;
  sym ← elf_sym m ehdr (ptr_add (sh_data symtab) (ul (r_sym rel * sym_size)));
  base ← sec_base ehdr shdrs sym;
  let value := ul (st_value sym + base + r_addend rel) in
  machine_apply_elf_rel m (r_type rel) location address value.

(** The loop over the entries of a section, from the offset [off] on.  Each step
    advances by the size of an entry, so [sh_size] bounds their number. *)
Fixpoint relocate_entries (fuel : nat) (m : mem) (ehdr : mem_ehdr) (shdrs : list mem_shdr)
    (shdr section symtab : mem_shdr) (rel_size off : Z) : outcome mem :=
  match fuel with
  | O => Spin
  | S fuel =>
      if off <? sh_size shdr then
        m ← relocate m ehdr shdrs (sh_type shdr) section symtab (ptr_add (sh_data shdr) off);
        relocate_entries fuel m ehdr shdrs shdr section symtab rel_size (off + rel_size)
      else Ret m
  end.

(** One iteration of the loop over the sections. *)
Definition relocate_section (m : mem) (ehdr : mem_ehdr) (shdrs : list mem_shdr)
    (shdr : mem_shdr) : outcome mem :=
  if negb (sh_type shdr =? SHT_RELA) && negb (sh_type shdr =? SHT_REL) then Ret m
  else if (e_shnum ehdr <? sh_info shdr) || (e_shnum ehdr <? sh_link shdr)
  then Die "Invalid section number"
  else
    section ← section_at shdrs (sh_info shdr);
    if negb (allocated section) then Ret m
    else
      symtab ← section_at shdrs (sh_link shdr);
      if e_shnum ehdr <? sh_link symtab then Ret m
      else
        _ ← section_at shdrs (sh_link symtab);
        rel_size ← (if sh_type shdr =? SHT_REL then elf_rel_size ehdr else elf_rela_size ehdr);
        relocate_entries (S (Z.to_nat (sh_size shdr))) m ehdr shdrs shdr section symtab rel_size 0.

Fixpoint relocate_sections (m : mem) (ehdr : mem_ehdr) (shdrs rest : list mem_shdr) : outcome mem :=
  match rest with
  | [] => Ret m
  | shdr :: rest =>
      m ← relocate_section m ehdr shdrs shdr;
      relocate_sections m ehdr shdrs rest
  end.

(** [None] stands for the result -1. *)
Definition elf_rel_load (lay : layout) (garbage : list byte) (m : mem) (ehdr : mem_ehdr)
    (segs : list kexec_segment) (min max e : Z)
    : outcome (option (mem * mem_ehdr * list kexec_segment * Z)) :=
  match e_shdr ehdr with
  | None => Ret None
  | Some shdrs =>
      '(m, ehdr, segs, entry) ← place_object lay garbage m ehdr shdrs segs min max e;
      let shdrs := default [] (e_shdr ehdr) in
      m ← relocate_sections m ehdr shdrs shdrs;
      mret (Some (m, ehdr, segs, entry))
  end.

(** The arguments [buf] and [len] of the C function are not used: the object is
    the built-in [purgatory], whose copy in memory is at [buf]. *)
Definition elf_rel_build_load (lay : layout) (garbage : list byte) (m : mem)
    (purgatory : list byte) (buf : ptr) (segs : list kexec_segment) (min max e : Z)
    : outcome (mem * mem_ehdr * list kexec_segment * Z) :=
  result ← build_elf_rel_info purgatory buf;
  match result with
  | None => Die "ELF rel parse failed"
  | Some ehdr =>
      result ← elf_rel_load lay garbage m ehdr segs min max e;
      match result with
      | None => Die "ELF rel load failed"
      | Some r => Ret r
      end
  end.

(** ** Symbols by name *)

(** [strcmp(p, name) == 0] for the bytes [buf] from [p] on: they are read up to
    the first difference. *)
Fixpoint streq (buf name : list byte) : outcome bool :=
  match buf, name with
  | [], _ => UB "read outside an object"
  | c :: _, [] => Ret (byte_eqb c Byte.x00)
  | c :: buf, n :: name => if byte_eqb c n then streq buf name else Ret false
  end.

Definition streq_at (m : mem) (p : ptr) (name : list byte) : outcome bool :=
  match m !! p_blk p with
  | Some l =>
      if (0 <=? p_off p) then streq (drop (Z.to_nat (p_off p)) l) name
      else UB "read outside an object"
  | None => UB "read through a dangling pointer"
  end.

(** The walk through one symbol table, from the offset [off] on. *)
Fixpoint find_in_symtab (fuel : nat) (m : mem) (ehdr : mem_ehdr) (name : list byte)
    (shdr : mem_shdr) (strtab : ptr) (sym_size off : Z) : outcome (option mem_sym) :=
  match fuel with
  | O => Spin
  | S fuel =>
      let continue := find_in_symtab fuel m ehdr name shdr strtab sym_size (off + sym_size) in
      if off <? sh_size shdr then
        sym ← elf_sym m ehdr (ptr_add (sh_data shdr) off);
        if negb (ELF32_ST_BIND (st_info sym) =? STB_GLOBAL) then continue
        else
          eq ← streq_at m (ptr_add strtab (st_name sym)) name;
          if negb eq then continue
          else if (st_shndx sym =? STN_UNDEF) || (e_shnum ehdr <? st_shndx sym)
          then Die "Symbol: %s has Bad section index %d"
          else Ret (Some sym)
      else Ret None
  end.

Fixpoint find_in_sections (m : mem) (ehdr : mem_ehdr) (name : list byte)
    (shdrs rest : list mem_shdr) : outcome (option mem_sym) :=
  match rest with
  | [] => Ret None
  | shdr :: rest =>
      if negb (sh_type shdr =? SHT_SYMTAB) then find_in_sections m ehdr name shdrs rest
      else if e_shnum ehdr <? sh_link shdr then find_in_sections m ehdr name shdrs rest
      else
        strtab ← section_at shdrs (sh_link shdr);
        sym_size ← elf_sym_size ehdr;
        result ← find_in_symtab (S (Z.to_nat (sh_size shdr))) m ehdr name shdr (sh_data strtab)
                   sym_size 0;
        match result with
        | Some sym => Ret (Some sym)
        | None => find_in_sections m ehdr name shdrs rest
        end
  end.

Definition elf_rel_find_symbol (m : mem) (ehdr : mem_ehdr) (name : list byte)
    : outcome (option mem_sym) :=
  match e_shdr ehdr with
  | None => Ret None
  | Some shdrs => find_in_sections m ehdr name shdrs shdrs
  end.

Definition elf_rel_get_addr (m : mem) (ehdr : mem_ehdr) (name : list byte) : outcome Z :=
  result ← elf_rel_find_symbol m ehdr name;
  match result with
  | None => Die "Symbol: %s not found cannot retrive it's address"
  | Some sym =>
      shdr ← section_at (default [] (e_shdr ehdr)) (st_shndx sym);
      mret (ul (sh_addr shdr + st_value sym))
  end.

Definition elf_rel_set_symbol (m : mem) (ehdr : mem_ehdr) (name data : list byte) : outcome mem :=
  result ← elf_rel_find_symbol m ehdr name;
  match result with
  | None => Die "Symbol: %s not found cannot set"
  | Some sym =>
      if negb (st_size sym =? Z.of_nat (length data)) then Die "Symbol: %s has size: %ld not %ld"
      else
        shdr ← section_at (default [] (e_shdr ehdr)) (st_shndx sym);
        if sh_type shdr =? SHT_NOBITS then Die "Symbol: %s is in a bss section cannot set"
        else store m (ptr_add (sh_data shdr) (st_value sym)) data
  end.

Definition elf_rel_get_symbol (m : mem) (ehdr : mem_ehdr) (name : list byte) (size : Z)
    : outcome (list byte) :=
  result ← elf_rel_find_symbol m ehdr name;
  match result with
  | None => Die "Symbol: %s not found cannot get"
  | Some sym =>
      if negb (st_size sym =? size) then Die "Symbol: %s has size: %ld not %ld"
      else
        shdr ← section_at (default [] (e_shdr ehdr)) (st_shndx sym);
        if sh_type shdr =? SHT_NOBITS then Die "Symbol: %s is in a bss section cannot set"
        else load m (ptr_add (sh_data shdr) (st_value sym)) size
  end.
End elf_rel.

(** ** The targets *)

Section machines.
Context `{Arch}.

(** Access to the integer of [n] bytes at a pointer. *)
Definition load_int (m : mem) (n : nat) (p : ptr) : outcome Z :=
  l ← load m p (Z.of_nat n); mret (combine host_be l).
Definition store_int (m : mem) (n : nat) (p : ptr) (v : Z) : outcome mem :=
  store m p (split host_be n v).

(** The conversion of an unsigned integer to a signed one of [w] bits. *)
Definition to_signed (w z : Z) : Z :=
  let z := z `mod` 2 ^ w in if z <? 2 ^ (w - 1) then z else z - 2 ^ w.
End machines.

(** kexec-elf-rel-x86.c *)
Module X86.
#[local] Existing Instance i386.

Definition machine_verify_elf_rel (ehdr : mem_ehdr) : bool :=
  if negb (ei_data ehdr =? ELFDATA2LSB) then false
  else if negb (ei_class ehdr =? ELFCLASS32) then false
  else if negb (e_machine ehdr =? EM_386) && negb (e_machine ehdr =? EM_486) then false
  else true.

Definition machine_apply_elf_rel (m : mem) (r_type : Z) (location : ptr) (address value : Z)
    : outcome mem :=
  if r_type =? R_386_32 then
    old ← load_int m 4 location; store_int m 4 location (u32 (old + value))
  else if r_type =? R_386_PC32 then
    old ← load_int m 4 location; store_int m 4 location (u32 (old + ul (value - address)))
  else Die "Unknown rel relocation: %lu".
End X86.

(** kexec-elf-rel-x86_64.c *)
Module X86_64.
#[local] Existing Instance x86_64.

Definition machine_verify_elf_rel (ehdr : mem_ehdr) : bool :=
  if negb (ei_data ehdr =? ELFDATA2LSB) then false
  else if negb (ei_class ehdr =? ELFCLASS64) then false
  else if negb (e_machine ehdr =? EM_X86_64) then false
  else true.

Definition machine_apply_elf_rel (m : mem) (r_type : Z) (location : ptr) (address value : Z)
    : outcome mem :=
  if r_type =? R_X86_64_NONE then Ret m
  else if r_type =? R_X86_64_64 then store_int m 8 location value
  else if r_type =? R_X86_64_32 then
    m ← store_int m 4 location (u32 value);
    stored ← load_int m 4 location;
    if negb (value =? stored) then Die "overflow in relocation type %s val %Lx" else Ret m
  else if r_type =? R_X86_64_32S then
    m ← store_int m 4 location (u32 value);
    stored ← load_int m 4 location;
    if negb (to_signed 64 value =? to_signed 32 stored)
    then Die "overflow in relocation type %s val %Lx" else Ret m
  else if r_type =? R_X86_64_PC32 then store_int m 4 location (u32 (value - address))
  else Die "Unhandled rela relocation: %lu".
End X86_64.

(** kexec-elf-rel-ppc.c *)
Module PPC.
#[local] Existing Instance ppc.

Definition machine_verify_elf_rel (ehdr : mem_ehdr) : bool :=
  if negb (ei_data ehdr =? ELFDATA2MSB) then false
  else if negb (ei_class ehdr =? ELFCLASS32) then false
  else if negb (e_machine ehdr =? EM_PPC) then false
  else true.

Definition machine_apply_elf_rel (m : mem) (r_type : Z) (location : ptr) (address value : Z)
    : outcome mem :=
  if r_type =? R_PPC_ADDR32 then store_int m 4 location (u32 value)
  else if r_type =? R_PPC_ADDR16_LO then store_int m 2 location (u16 value)
  else if r_type =? R_PPC_ADDR16_HA then
    store_int m 2 location (u16 (Z.shiftr (ul (value + 0x8000)) 16))
  else if r_type =? R_PPC_REL24 then
    let d := ul (value - address) in
    if (to_signed 32 d <? -0x02000000) || (0x02000000 <=? to_signed 32 d)
    then Die "Symbol more than 16MiB away"
    else
      old ← load_int m 4 location;
      store_int m 4 location (Z.lor (Z.land old (notw 32 0x03fffffc)) (Z.land d 0x03fffffc))
  else if r_type =? R_PPC_REL32 then store_int m 4 location (u32 (value - address))
  else Die "Unknown rela relocation: %lu".
End PPC.

Section machine_writes.
Context `{Arch}.

Lemma store_int_writes m n loc v m' :
  (n ≤ 8)%nat → store_int m n loc v = Ret m' →
  ∃ data, (length data ≤ 8)%nat ∧ store m loc data = Ret m'.
Proof. intros Hn Hs. exists (split host_be n v). by rewrite length_split. Qed.
End machine_writes.

Lemma writes_x86 m ty loc address value m' :
  X86.machine_apply_elf_rel m ty loc address value = Ret m' →
  m' = m ∨ ∃ data, (length data ≤ 8)%nat ∧ store m loc data = Ret m'.
Proof.
  unfold X86.machine_apply_elf_rel. intros Hm. right.
  repeat case_if_in Hm; inv_ret; (eapply store_int_writes; [ | exact Hm]; lia).
Qed.
