(* ===== verification/ElfRelSpec.v ===== *)
(** What ElfRel.v computes: the relocations of each target make the processor
    reach the symbol, the sections of an object are placed aligned and disjoint
    in the memory reserved for it, a symbol reads back as it was set. *)

From Stdlib Require Import ZArith Lia String.
From stdpp Require Import base tactics list numbers gmap sorting.
From coqutil Require Import Byte.
From S2P Require Import Prelude Words CMem CString Segments SegmentsSpec Elf ElfSpec ElfExec ElfRel.

#[local] Open Scope Z_scope.

(** ** The targets implement the interface *)

Lemma writes_x86_64 m ty loc address value m' :
  X86_64.machine_apply_elf_rel m ty loc address value = Ret m' →
  m' = m ∨ ∃ data, (length data ≤ 8)%nat ∧ store m loc data = Ret m'.
Proof.
  unfold X86_64.machine_apply_elf_rel. intros Hm.
  repeat case_if_in Hm; inv_ret; try (by left); right.
  all: repeat case_if_in Hm; inv_ret; eapply store_int_writes; [ | eassumption]; lia.
Qed.

Lemma writes_ppc m ty loc address value m' :
  PPC.machine_apply_elf_rel m ty loc address value = Ret m' →
  m' = m ∨ ∃ data, (length data ≤ 8)%nat ∧ store m loc data = Ret m'.
Proof.
  unfold PPC.machine_apply_elf_rel. intros Hm. right. cbv zeta in Hm.
  repeat case_if_in Hm; inv_ret; (eapply store_int_writes; [ | exact Hm]; lia).
Qed.

Lemma load_int_ends `{Arch} m n p : load_int m n p ≠ Spin.
Proof. unfold load_int. ends. Qed.

Lemma store_int_ends `{Arch} m n p v : store_int m n p v ≠ Spin.
Proof. unfold store_int. ends. Qed.

#[local] Hint Resolve load_int_ends store_int_ends : ends.

Lemma ends_x86 m ty loc address value : X86.machine_apply_elf_rel m ty loc address value ≠ Spin.
Proof. unfold X86.machine_apply_elf_rel. ends. Qed.

Lemma ends_x86_64 m ty loc address value :
  X86_64.machine_apply_elf_rel m ty loc address value ≠ Spin.
Proof. unfold X86_64.machine_apply_elf_rel. ends. Qed.

Lemma ends_ppc m ty loc address value : PPC.machine_apply_elf_rel m ty loc address value ≠ Spin.
Proof. unfold PPC.machine_apply_elf_rel. ends. Qed.

Definition machine_i386 : Machine (H := i386) := {|
  machine_verify_elf_rel := X86.machine_verify_elf_rel;
  machine_apply_elf_rel := X86.machine_apply_elf_rel;
  machine_apply_writes := writes_x86; machine_apply_ends := ends_x86 |}.

Definition machine_x86_64 : Machine (H := x86_64) := {|
  machine_verify_elf_rel := X86_64.machine_verify_elf_rel;
  machine_apply_elf_rel := X86_64.machine_apply_elf_rel;
  machine_apply_writes := writes_x86_64; machine_apply_ends := ends_x86_64 |}.

Definition machine_ppc : Machine (H := ppc) := {|
  machine_verify_elf_rel := PPC.machine_verify_elf_rel;
  machine_apply_elf_rel := PPC.machine_apply_elf_rel;
  machine_apply_writes := writes_ppc; machine_apply_ends := ends_ppc |}.

(** ** Relocations *)

Lemma store_int_load `{Arch} m n p v m' :
  store_int m n p v = Ret m' → load_int m' n p = Ret (v `mod` 2 ^ (Z.of_nat n * 8)).
Proof.
  intros Hs%store_load. unfold load_int. rewrite length_split in Hs.
  rewrite Hs, bind_Ret_l. unfold mret, outcome_ret. by rewrite combine_split.
Qed.

Lemma pow2_double w : 0 < w → 2 ^ w = 2 * 2 ^ (w - 1) ∧ 0 < 2 ^ (w - 1).
Proof.
  intros. split; [ | apply Z.pow_pos_nonneg; lia].
  rewrite <- Z.pow_succ_r by lia. f_equal. lia.
Qed.

Lemma to_signed_range w z : 0 < w → - 2 ^ (w - 1) ≤ to_signed w z < 2 ^ (w - 1).
Proof.
  intros Hw. destruct (pow2_double w Hw) as [Hd Hp]. unfold to_signed.
  pose proof (Z.mod_pos_bound z (2 ^ w)). case_if; zbool; lia.
Qed.

(** The signed integer that is congruent. *)
Lemma to_signed_unique w z d :
  0 < w → - 2 ^ (w - 1) ≤ d < 2 ^ (w - 1) → z `mod` 2 ^ w = d `mod` 2 ^ w → to_signed w z = d.
Proof.
  intros Hw Hd E. destruct (pow2_double w Hw) as [Hd' Hp]. unfold to_signed. rewrite E.
  destruct (Z.le_gt_cases 0 d).
  - rewrite Z.mod_small by lia. case_if; zbool; lia.
  - rewrite <- (Z.mod_add d 1), Z.mod_small by lia. case_if; zbool; lia.
Qed.

Lemma to_signed_mod w z : 0 < w → to_signed w z `mod` 2 ^ w = z `mod` 2 ^ w.
Proof.
  intros Hw. unfold to_signed. destruct (pow2_double w Hw) as [Hd Hp]. case_if.
  - apply Z.mod_mod. lia.
  - rewrite <- (Z.mod_add _ 1) by lia.
    replace (z `mod` 2 ^ w - 2 ^ w + 1 * 2 ^ w) with (z `mod` 2 ^ w) by ring.
    apply Z.mod_mod. lia.
Qed.

(** Addition of an address to a difference taken at machine width. *)
Lemma u32_add_sub a v : u32 (a + u32 (v - a)) = u32 v.
Proof. rewrite u32_add_r. f_equal. ring. Qed.

Lemma land_u32 x c : 0 ≤ c < 2 ^ 32 → Z.land (u32 x) c = Z.land x c.
Proof.
  intros Hc. unfold u32. rewrite <- Z.land_ones, <- Z.land_assoc by lia. f_equal.
  rewrite Z.land_comm, Z.land_ones by lia. by apply Z.mod_small.
Qed.

(** The displacement of a branch: the 24 bits LI of the instruction and two
    zeros. *)
Definition branch_bits : Z := 0x03fffffc.

Lemma land_branch_bits d : d `mod` 4 = 0 → Z.land d branch_bits = d `mod` 2 ^ 26.
Proof.
  intros Hd. rewrite <- Z.land_ones by lia.
  assert (Z.land d 3 = 0) as H3 by (change 3 with (Z.ones 2); by rewrite Z.land_ones by lia).
  change (Z.ones 26) with (Z.lor branch_bits 3). by rewrite Z.land_lor_distr_r, H3, Z.lor_0_r.
Qed.

(** What an i386 relocation leaves at its location: the old word is the addend. *)
Definition i386_relocated (ty old new address value : Z) : Prop :=
  ty = R_386_32 ∧ new = u32 (old + value) ∨
  ty = R_386_PC32 ∧ u32 (address + new) = u32 (old + value).

Lemma i386_reloc m ty loc address value old m' :
  load_int (H := i386) m 4 loc = Ret old →
  X86.machine_apply_elf_rel m ty loc address value = Ret m' →
  ∃ new, load_int (H := i386) m' 4 loc = Ret new ∧ i386_relocated ty old new address value.
Proof.
  intros Hold. unfold X86.machine_apply_elf_rel, i386_relocated. rewrite Hold, !bind_Ret_l.
  intros Hm. repeat case_if_in Hm; inv_ret; zbool; apply store_int_load in Hm;
    eexists; (split; [exact Hm | ]).
  - left. split; [done | ]. unfold u32. rewrite Z.mod_mod; done.
  - right. split; [done | ]. change (2 ^ (Z.of_nat 4 * 8)) with (2 ^ 32).
    change (2 ^ 32) with (2 ^ ulong_bits (Arch := i386)).
    unfold ul. cbn [i386 ulong_bits]. fold (u32 (value - address)).
    rewrite u32_add_r. unfold u32. rewrite Zmod_mod, Zplus_mod_idemp_r. f_equal. ring.
Qed.

(** What an x86_64 relocation leaves: the field, zero-extended, sign-extended or
    added to the address of the location, is the value. *)
Definition x86_64_relocated (m' : mem) (ty : Z) (loc : ptr) (address value : Z) : Prop :=
  ty = R_X86_64_NONE ∨
  ty = R_X86_64_64 ∧ load_int (H := x86_64) m' 8 loc = Ret value ∨
  ty = R_X86_64_32 ∧ load_int (H := x86_64) m' 4 loc = Ret value ∨
  ∃ new, load_int (H := x86_64) m' 4 loc = Ret new ∧
    (ty = R_X86_64_32S ∧ to_signed 32 new = to_signed 64 value ∨
     ty = R_X86_64_PC32 ∧
       (- 2 ^ 31 ≤ value - address < 2 ^ 31 → address + to_signed 32 new = value)).

Lemma x86_64_reloc m ty loc address value m' :
  0 ≤ value < 2 ^ 64 →
  X86_64.machine_apply_elf_rel m ty loc address value = Ret m' →
  x86_64_relocated m' ty loc address value.
Proof.
  intros Hv. unfold X86_64.machine_apply_elf_rel, x86_64_relocated. intros Hm.
  destruct (Z.eqb_spec ty R_X86_64_NONE); [by left | right].
  destruct (Z.eqb_spec ty R_X86_64_64).
  { left. split; [done | ]. rewrite (store_int_load _ _ _ _ _ Hm). f_equal.
    by apply Z.mod_small. }
  right. destruct (Z.eqb_spec ty R_X86_64_32).
  { left. split; [done | ]. inv_ret. rewrite (store_int_load _ _ _ _ _ E) in E0. inv_ret.
    case_if_in Hm; inv_ret. zbool. rewrite (store_int_load _ _ _ _ _ E). by f_equal. }
  right. destruct (Z.eqb_spec ty R_X86_64_32S).
  { inv_ret. rewrite (store_int_load _ _ _ _ _ E) in E0. inv_ret.
    case_if_in Hm; inv_ret. zbool. rewrite (store_int_load _ _ _ _ _ E).
    eexists. split; [done | ]. left. by split. }
  destruct (Z.eqb_spec ty R_X86_64_PC32); [ | done].
  eexists. split; [apply (store_int_load _ _ _ _ _ Hm) | ]. right. split; [done | ].
  intros Hd. rewrite (to_signed_unique 32 _ (value - address)); [ring | lia | done | ].
  change (2 ^ (Z.of_nat 4 * 8)) with (2 ^ 32). unfold u32. by rewrite !Zmod_mod.
Qed.

(** What a ppc relocation leaves.  [ADDR16_HA] is used with an [ADDR16_LO] that
    the processor sign-extends. *)
Definition ppc_relocated (m' : mem) (ty : Z) (loc : ptr) (old address value : Z) : Prop :=
  (ty = R_PPC_ADDR32 ∧ load_int (H := ppc) m' 4 loc = Ret value) ∨
  (ty = R_PPC_ADDR16_LO ∧ load_int (H := ppc) m' 2 loc = Ret (value `mod` 2 ^ 16)) ∨
  (ty = R_PPC_ADDR16_HA ∧ ∃ ha, load_int (H := ppc) m' 2 loc = Ret ha ∧
     u32 (ha * 2 ^ 16 + to_signed 16 value) = value) ∨
  (ty = R_PPC_REL24 ∧ ∃ new, load_int (H := ppc) m' 4 loc = Ret new ∧
     Z.land new (notw 32 branch_bits) = Z.land old (notw 32 branch_bits) ∧
     ((value - address) `mod` 4 = 0 →
      u32 (address + to_signed 26 (Z.land new branch_bits)) = value)) ∨
  (ty = R_PPC_REL32 ∧ ∃ new, load_int (H := ppc) m' 4 loc = Ret new ∧ u32 (address + new) = value).

Lemma ppc_ha value : 0 ≤ value < 2 ^ 32 →
  u32 (u16 (Z.shiftr (u32 (value + 0x8000)) 16) * 2 ^ 16 + to_signed 16 value) = value.
Proof.
  intros Hv. rewrite Z.shiftr_div_pow2 by lia. unfold to_signed, u32, u16.
  pose proof (Z.div_mod value (2 ^ 16)). pose proof (Z.mod_pos_bound value (2 ^ 16)).
  change (2 ^ (16 - 1)) with 32768. change (2 ^ 16) with 65536 in *. change (2 ^ 32) with 4294967296 in *.
  case_if; zbool; Z.div_mod_to_equations; lia.
Qed.

Lemma ppc_rel24 old address value :
  let d := u32 (value - address) in
  let new := u32 (Z.lor (Z.land old (notw 32 branch_bits)) (Z.land d branch_bits)) in
  0 ≤ value < 2 ^ 32 → - 2 ^ 25 ≤ to_signed 32 d < 2 ^ 25 →
  Z.land new (notw 32 branch_bits) = Z.land old (notw 32 branch_bits) ∧
  ((value - address) `mod` 4 = 0 → u32 (address + to_signed 26 (Z.land new branch_bits)) = value).
Proof.
  intros d new Hv Hd. subst new. rewrite !land_u32 by (by vm_compute).
  rewrite !Z.land_lor_distr_l, <- !Z.land_assoc.
  change (Z.land (notw 32 branch_bits) (notw 32 branch_bits)) with (notw 32 branch_bits).
  change (Z.land branch_bits (notw 32 branch_bits)) with 0.
  change (Z.land (notw 32 branch_bits) branch_bits) with 0.
  change (Z.land branch_bits branch_bits) with branch_bits.
  rewrite !Z.land_0_r, Z.lor_0_r, Z.lor_0_l. split; [done | ]. intros H4.
  assert (d `mod` 4 = 0) as Hd4.
  { subst d. unfold u32. change (2 ^ 32) with 4294967296. Z.div_mod_to_equations. lia. }
  rewrite land_branch_bits by done.
  rewrite (to_signed_unique 26 _ (to_signed 32 d)); [ | lia | done | ].
  - rewrite <- u32_add_r. unfold u32 at 2. rewrite to_signed_mod by lia.
    fold (u32 d). rewrite u32_add_r. subst d. rewrite u32_add_sub. by apply u32_small.
  - rewrite Zmod_mod. symmetry. pose proof (to_signed_mod 32 d ltac:(lia)) as E.
    change (2 ^ 32) with 4294967296 in E. change (2 ^ 26) with 67108864.
    Z.div_mod_to_equations. lia.
Qed.

Lemma ppc_reloc m ty loc address value old m' :
  0 ≤ value < 2 ^ 32 → load_int (H := ppc) m 4 loc = Ret old →
  PPC.machine_apply_elf_rel m ty loc address value = Ret m' →
  ppc_relocated m' ty loc old address value.
Proof.
  intros Hv Hold. unfold PPC.machine_apply_elf_rel, ppc_relocated. rewrite Hold.
  intros Hm. unfold ul in Hm. cbn [ppc ulong_bits] in Hm. fold (u32 (value + 0x8000)) in Hm.
  fold (u32 (value - address)) in Hm.
  destruct (Z.eqb_spec ty R_PPC_ADDR32); [left | right].
  { split; [done | ]. rewrite (store_int_load _ _ _ _ _ Hm). f_equal.
    unfold u32. rewrite Zmod_mod. by apply Z.mod_small. }
  destruct (Z.eqb_spec ty R_PPC_ADDR16_LO); [left | right].
  { split; [done | ]. rewrite (store_int_load _ _ _ _ _ Hm). f_equal. apply Zmod_mod. }
  destruct (Z.eqb_spec ty R_PPC_ADDR16_HA); [left | right].
  { split; [done | ]. eexists. split; [apply (store_int_load _ _ _ _ _ Hm) | ].
    change (2 ^ (Z.of_nat 2 * 8)) with (2 ^ 16). fold (u16 (u16 (Z.shiftr (u32 (value + 32768)) 16))).
    unfold u16 at 1. rewrite Z.mod_small by (apply Z.mod_pos_bound; lia). by apply ppc_ha. }
  destruct (Z.eqb_spec ty R_PPC_REL24); [left | right].
  { split; [done | ]. case_if_in Hm; [done | ]. rewrite bind_Ret_l in Hm.
    pose proof (ppc_rel24 old address value Hv) as Hr. zbool.
    eexists. split; [apply (store_int_load _ _ _ _ _ Hm) | ]. apply Hr. lia. }
  destruct (Z.eqb_spec ty R_PPC_REL32); [ | done]. split; [done | ].
  eexists. split; [apply (store_int_load _ _ _ _ _ Hm) | ].
  change (2 ^ (Z.of_nat 4 * 8)) with (2 ^ 32). fold (u32 (u32 (value - address))).
  rewrite u32_add_r, u32_add_sub. by apply u32_small.
Qed.

(** ** Placement *)

(** The two groups of sections that occupy memory: those copied to the buffer
    and those that stay zero after it. *)
Definition in_data (s : mem_shdr) : bool := allocated s && negb (sh_type s =? SHT_NOBITS).
Definition in_bss (s : mem_shdr) : bool := allocated s && (sh_type s =? SHT_NOBITS).

Definition data_sections (l : list mem_shdr) : list mem_shdr := filter in_data l.
Definition bss_sections (l : list mem_shdr) : list mem_shdr := filter in_bss l.

(** Sections laid out one after the other from [x] on, each at the next multiple
    of its alignment, end at [extent x l]. *)
Definition advance (x : Z) (s : mem_shdr) : Z := round_up x (sh_addralign s) + sh_size s.
Definition extent (x : Z) (l : list mem_shdr) : Z := foldl advance x l.

Definition max_align (a : Z) (l : list mem_shdr) : Z := foldl Z.max a (map sh_addralign l).

Section placement.
Context `{Arch}.

(** The alignment of a section that occupies memory is a power of two; the other
    fields are unsigned. *)
Definition sane_section (s : mem_shdr) : Prop :=
  pow2 (sh_addralign s) ∧ sh_addralign s ≤ ULONG_MAX ∧ 0 ≤ sh_size s ∧ 0 ≤ sh_addr s.

Lemma pow2_divide_word a : pow2 a → a ≤ ULONG_MAX → (a | 2 ^ ulong_bits).
Proof.
  intros Ha Hm. apply pow2_divide; [done | | unfold ULONG_MAX in Hm; lia].
  exists ulong_bits. pose proof ulong_bits_pos. split; [lia | done].
Qed.

Lemma align_up_spec x a :
  pow2 a → a ≤ ULONG_MAX → 0 ≤ x → round_up x a ≤ ULONG_MAX → align_up x a = round_up x a.
Proof.
  intros Ha Hle Hx Hr. pose proof (pow2_pos a Ha) as Hp. pose proof ulong_bits_pos.
  unfold align_up. assert (x + (a - 1) < 2 ^ ulong_bits) as Hb.
  { apply Z.nle_gt. intros Hge. pose proof (pow2_divide_word a Ha Hle) as Hd.
    assert (2 ^ ulong_bits ≤ round_up x a); [ | unfold ULONG_MAX in *; lia].
    unfold round_up. apply round_down_greatest; [done | done | lia]. }
  rewrite ul_small by lia. rewrite land_notw_pow2 by (done || lia).
  unfold round_up. f_equal. lia.
Qed.

Lemma round_up_shift A x a : 0 < a → (a | A) → round_up (A + x) a = A + round_up x a.
Proof.
  intros Ha [q ->]. unfold round_up, round_down.
  replace (q * a + x + a - 1) with (x + a - 1 + q * a) by ring. rewrite Z.div_add by lia. ring.
Qed.

Lemma advance_le x s : sane_section s → x ≤ round_up x (sh_addralign s) ≤ advance x s.
Proof.
  intros (Ha & _ & Hs & _). unfold advance. pose proof (round_up_spec x _ (pow2_pos _ Ha)). lia.
Qed.

Lemma extent_le l : ∀ x, Forall sane_section l → x ≤ extent x l.
Proof.
  induction l as [|s l IH]; intros x Hl; [done | ]. apply Forall_cons_1 in Hl as [Hs Hl].
  change (extent x (s :: l)) with (extent (advance x s) l).
  pose proof (IH (advance x s) Hl). pose proof (advance_le x s Hs). lia.
Qed.

Lemma max_align_ge l : ∀ a, a ≤ max_align a l ∧ Forall (λ s, sh_addralign s ≤ max_align a l) l.
Proof.
  induction l as [|s l IH]; intros a; [by split | ].
  change (max_align a (s :: l)) with (max_align (a `max` sh_addralign s) l).
  destruct (IH (a `max` sh_addralign s)) as [Hle Hall].
  split; [lia | ]. apply Forall_cons_2; [lia | done].
Qed.

Lemma max_align_pow2 l : ∀ a, pow2 a → Forall sane_section l → pow2 (max_align a l).
Proof.
  induction l as [|s l IH]; intros a Ha Hl; [done | ]. apply Forall_cons_1 in Hl as [(Hs & _) Hl].
  change (max_align a (s :: l)) with (max_align (a `max` sh_addralign s) l).
  apply IH; [ | done]. by destruct (Z.max_spec a (sh_addralign s)) as [[_ ->] | [_ ->]].
Qed.

(** A section takes part in one of the two groups, or in none. *)
Lemma section_cases s :
  allocated s = false ∧ in_data s = false ∧ in_bss s = false ∨
  allocated s = true ∧ (sh_type s =? SHT_NOBITS) = false ∧ in_data s = true ∧ in_bss s = false ∨
  allocated s = true ∧ (sh_type s =? SHT_NOBITS) = true ∧ in_data s = false ∧ in_bss s = true.
Proof.
  unfold in_data, in_bss. destruct (allocated s), (sh_type s =? SHT_NOBITS); simpl; tauto.
Qed.

Lemma groups_cons s l :
  data_sections (s :: l) = (if in_data s then [s] else []) ++ data_sections l ∧
  bss_sections (s :: l) = (if in_bss s then [s] else []) ++ bss_sections l.
Proof.
  unfold data_sections, bss_sections. rewrite !filter_cons.
  destruct (in_data s), (in_bss s); by simpl.
Qed.

Lemma align_step x s :
  sane_section s → 0 ≤ x → advance x s ≤ ULONG_MAX →
  align_up x (sh_addralign s) = round_up x (sh_addralign s) ∧
  ul (align_up x (sh_addralign s) + sh_size s) = advance x s ∧ 0 ≤ advance x s.
Proof.
  intros Hs Hx Hm. pose proof (advance_le x s Hs) as Hle. destruct Hs as (Ha & Hl & Hs & _).
  unfold advance in *. rewrite align_up_spec by (done || lia).
  split; [done | ]. split; [apply ul_id | ]; lia.
Qed.

(** The sections that occupy memory. *)
Definition sane_object (l : list mem_shdr) : Prop :=
  Forall (λ s, allocated s = true → sane_section s) l.

Lemma sane_groups l : sane_object l →
  Forall sane_section (data_sections l) ∧ Forall sane_section (bss_sections l).
Proof.
  intros Hl. induction Hl as [|s l Hs Hl [IHd IHb]]; [by split | ].
  destruct (groups_cons s l) as [-> ->].
  destruct (section_cases s) as [(? & -> & ->) | [(Ha & _ & -> & ->) | (Ha & _ & -> & ->)]];
    split; try done; simpl; (apply Forall_cons_2; [by apply Hs | done]).
Qed.

(** The loop that measures the object computes the extents and the greatest
    alignments. *)
Lemma footprint_spec shdrs : ∀ ba sa b s,
  sane_object shdrs → 0 ≤ b → 0 ≤ s →
  extent b (data_sections shdrs) ≤ ULONG_MAX → extent s (bss_sections shdrs) ≤ ULONG_MAX →
  foldl footprint_step (ba, sa, b, s) shdrs =
    (max_align ba (data_sections shdrs), max_align sa (bss_sections shdrs),
     extent b (data_sections shdrs), extent s (bss_sections shdrs)).
Proof.
  induction shdrs as [|h l IH]; intros ba sa b s Hl Hb Hs Hd Hz; [done | ].
  destruct (sane_groups _ Hl) as [Hgd Hgb].
  apply Forall_cons_1 in Hl as [Hh Hl]. destruct (sane_groups _ Hl) as [Hld Hlb].
  cbn [foldl]. unfold footprint_step at 2.
  destruct (groups_cons h l) as [Ed Eb]. rewrite Ed, Eb in *.
  assert (∀ a x, (if a <? x then x else a) = a `max` x) as Hmax
    by (intros a x; destruct (Z.ltb_spec a x); lia).
  destruct (section_cases h) as
    [(Ea & Ed' & Eb') | [(Ea & En & Ed' & Eb') | (Ea & En & Ed' & Eb')]];
    rewrite Ea, ?En, ?Ed', ?Eb' in *; cbn [negb app] in *.
  - by apply IH.
  - change (extent b (h :: data_sections l)) with (extent (advance b h) (data_sections l)) in *.
    pose proof (extent_le _ (advance b h) Hld).
    destruct (align_step b h (Hh eq_refl) Hb) as (_ & -> & ?); [lia | ].
    rewrite Hmax. by apply IH.
  - change (extent s (h :: bss_sections l)) with (extent (advance s h) (bss_sections l)) in *.
    pose proof (extent_le _ (advance s h) Hlb).
    destruct (align_step s h (Hh eq_refl) Hs) as (_ & -> & ?); [lia | ].
    rewrite Hmax. by apply IH.
Qed.

(** The sections [s] before and [s'] after the placement, for an object whose
    data are at the address [A] and in the buffer [buf]; the data end before
    [dhi] and the rest before [bhi]. *)
Definition placed_as (m m' : mem) (buf : ptr) (A dhi bhi : Z) (s s' : mem_shdr) : Prop :=
  if in_data s then
    ∃ a, s' = shdr_place a (ptr_add buf (a - A)) s ∧ (sh_addralign s | a) ∧
         a + sh_size s ≤ dhi ∧ load m' (sh_data s') (sh_size s) = load m (sh_data s) (sh_size s)
  else if in_bss s then
    ∃ a, s' = shdr_place a (sh_data s) s ∧ (sh_addralign s | a) ∧ a + sh_size s ≤ bhi
  else s' = s.

Definition ends_before (s t : mem_shdr) : Prop := sh_addr s + sh_size s ≤ sh_addr t.

(** The contents of a section can be read, and are not in the buffer. *)
Definition readable (m : mem) (buf : ptr) (s : mem_shdr) : Prop :=
  in_data s = true → p_blk (sh_data s) ≠ p_blk buf ∧ ∃ c, load m (sh_data s) (sh_size s) = Ret c.

(** What [place_sections] does from the cursors [A + x] and [B + y] on. *)
Record placement (m m' : mem) (buf : ptr) (A x B y : Z) (shdrs placed : list mem_shdr) : Prop := {
  pl_other : ∀ b, b ≠ p_blk buf → m' !! b = m !! b;
  pl_length : ∀ l, m !! p_blk buf = Some l → ∃ l', m' !! p_blk buf = Some l' ∧ length l' = length l;
  pl_before : ∀ q n, p_blk q = p_blk buf → p_off q + n ≤ x → load m' q n = load m q n;
  pl_sections : Forall2 (placed_as m m' buf A (A + extent x (data_sections shdrs))
                                   (B + extent y (bss_sections shdrs))) shdrs placed;
  pl_data_after : Forall (λ s, A + x ≤ sh_addr s) (data_sections placed);
  pl_bss_after : Forall (λ s, B + y ≤ sh_addr s) (bss_sections placed);
  pl_data : StronglySorted ends_before (data_sections placed);
  pl_bss : StronglySorted ends_before (bss_sections placed)
}.

Lemma readable_store m m' buf p data s :
  store m p data = Ret m' → p_blk p = p_blk buf → readable m buf s →
  readable m' buf s ∧
  (in_data s = true → load m' (sh_data s) (sh_size s) = load m (sh_data s) (sh_size s)).
Proof.
  intros Hs Hb Hr. assert (in_data s = true →
    load m' (sh_data s) (sh_size s) = load m (sh_data s) (sh_size s)) as Heq.
  { intros Hi. destruct (Hr Hi) as [Hne _]. apply (store_load_disjoint _ _ _ _ _ _ Hs).
    left. by rewrite Hb. }
  split; [ | done]. intros Hi. rewrite Heq by done. by apply Hr.
Qed.

Lemma placed_as_store m1 m m' buf A dhi bhi s s' p data :
  store m p data = Ret m1 → p_blk p = p_blk buf → readable m buf s →
  placed_as m1 m' buf A dhi bhi s s' → placed_as m m' buf A dhi bhi s s'.
Proof.
  intros Hs Hb Hr. destruct (readable_store _ _ _ _ _ _ Hs Hb Hr) as [_ Heq].
  unfold placed_as. destruct (in_data s) eqn:E; [ | done].
  intros (a & ? & ? & ? & Hl). exists a. rewrite Heq in Hl by done. done.
Qed.

Lemma placement_skip m m' buf A x B y s shdrs placed :
  in_data s = false → in_bss s = false →
  placement m m' buf A x B y shdrs placed → placement m m' buf A x B y (s :: shdrs) (s :: placed).
Proof.
  intros Ed Eb [? ? ? ? ? ? ? ?].
  destruct (groups_cons s shdrs) as [E1 E2], (groups_cons s placed) as [E3 E4].
  rewrite Ed in E1, E3. rewrite Eb in E2, E4. cbn [app] in *.
  split; rewrite ?E1, ?E2, ?E3, ?E4; try done.
  apply Forall2_cons_2; [ | done]. unfold placed_as. by rewrite Ed, Eb.
Qed.

(** A section after which the others start is first in its group. *)
Lemma ends_before_cons A x s l :
  sh_addr s + sh_size s = A + x → Forall (λ t, A + x ≤ sh_addr t) l →
  StronglySorted ends_before l → StronglySorted ends_before (s :: l).
Proof.
  intros Hs Hl Hsl. apply SSorted_cons; [done | ].
  eapply Forall_impl; [exact Hl | ]. unfold ends_before. simpl. lia.
Qed.

Lemma placement_bss m m' buf A x B y s shdrs placed :
  sane_section s → allocated s = true → sh_type s = SHT_NOBITS → (sh_addralign s | B) →
  sane_object shdrs →
  placement m m' buf A x B (advance y s) shdrs placed →
  placement m m' buf A x B y (s :: shdrs)
    (shdr_place (B + round_up y (sh_addralign s)) (sh_data s) s :: placed).
Proof.
  intros Hs Ea En HB Hl [? ? ? Hse ? Hba ? Hbs].
  assert (in_data s = false ∧ in_bss s = true) as [Ed Eb]
    by (unfold in_data, in_bss; by rewrite Ea, En).
  set (s' := shdr_place _ _ _).
  assert (in_data s' = false ∧ in_bss s' = true) as [Ed' Eb'] by done.
  destruct (groups_cons s shdrs) as [E1 E2], (groups_cons s' placed) as [E3 E4].
  rewrite Ed in E1. rewrite Ed' in E3. rewrite Eb in E2. rewrite Eb' in E4. cbn [app] in *.
  change (extent y (s :: bss_sections shdrs)) with (extent (advance y s) (bss_sections shdrs)) in *.
  pose proof (advance_le y s Hs) as Hadv.
  split; rewrite ?E1, ?E2, ?E3, ?E4; try done.
  - apply Forall2_cons_2; [ | exact Hse]. unfold placed_as. rewrite Ed, Eb.
    exists (B + round_up y (sh_addralign s)). split; [done | ].
    split; [apply Z.divide_add_r; [done | apply round_up_divide] | ].
    destruct (sane_groups _ Hl) as [_ Hlb]. pose proof (extent_le _ (advance y s) Hlb).
    change (extent y (s :: bss_sections shdrs)) with (extent (advance y s) (bss_sections shdrs)).
    unfold advance in *. lia.
  - apply Forall_cons_2; [simpl; lia | ]. eapply Forall_impl; [exact Hba | ]. simpl. lia.
  - apply (ends_before_cons B (advance y s)); [simpl; unfold advance; lia | done | done].
Qed.

Lemma placement_data m m1 m' buf A x B y s shdrs placed c :
  sane_section s → allocated s = true → sh_type s ≠ SHT_NOBITS → (sh_addralign s | A) →
  p_off buf = 0 → 0 ≤ x → sane_object shdrs → Forall (readable m buf) shdrs →
  load m (sh_data s) (sh_size s) = Ret c →
  store m (ptr_add buf (round_up x (sh_addralign s))) c = Ret m1 →
  placement m1 m' buf A (advance x s) B y shdrs placed →
  placement m m' buf A x B y (s :: shdrs)
    (shdr_place (A + round_up x (sh_addralign s)) (ptr_add buf (round_up x (sh_addralign s))) s
     :: placed).
Proof.
  intros Hs Ea En HA Hbuf Hx Hl Hr Hc Hst [Hot Hle Hbe Hse Hda ? Hds ?].
  set (r := round_up x (sh_addralign s)) in *.
  assert (in_data s = true ∧ in_bss s = false) as [Ed Eb]
    by (unfold in_data, in_bss; rewrite Ea; destruct (Z.eqb_spec (sh_type s) SHT_NOBITS); done).
  set (s' := shdr_place (A + r) (ptr_add buf r) s).
  assert (in_data s' = true ∧ in_bss s' = false) as [Ed' Eb'] by done.
  destruct (groups_cons s shdrs) as [E1 E2], (groups_cons s' placed) as [E3 E4].
  rewrite Ed in E1. rewrite Ed' in E3. rewrite Eb in E2. rewrite Eb' in E4. cbn [app] in *.
  pose proof (advance_le x s Hs) as Hadv. fold r in Hadv.
  destruct (sane_groups _ Hl) as [Hld _]. pose proof (extent_le _ (advance x s) Hld) as Hext.
  pose proof (load_length _ _ _ _ Hc) as Hlen. assert (advance x s = r + sh_size s) as Hr' by done.
  destruct (proj1 (store_Ret _ _ _ _) Hst) as (l0 & Hl0 & H0 & Hin & Hm1). cbn [p_blk p_off ptr_add] in *.
  split; rewrite ?E1, ?E2, ?E3, ?E4; try done.
  - intros b Hb. rewrite Hot by done. subst m1. by rewrite lookup_insert_ne.
  - intros l Hl1. rewrite Hl0 in Hl1. injection Hl1 as <-.
    destruct (Hle (overwrite l0 (Z.to_nat (p_off buf + r)) c)) as (l' & ? & El).
    { subst m1. by rewrite lookup_insert_eq. }
    exists l'. split; [done | ]. rewrite El. apply length_overwrite. lia.
  - intros q n Hq Hn. rewrite Hbe by (done || lia).
    apply (store_load_disjoint _ _ _ _ _ _ Hst). right. left. simpl. lia.
  - change (extent x (s :: data_sections shdrs)) with (extent (advance x s) (data_sections shdrs)).
    apply Forall2_cons_2.
    + unfold placed_as. rewrite Ed. exists (A + r).
      replace (A + r - A) with r by ring. split; [done | ].
      split; [apply Z.divide_add_r; [done | apply round_up_divide] | ]. split; [lia | ].
      unfold s'. cbn [sh_data shdr_place]. rewrite Hbe by (simpl; lia).
      rewrite Hc, <- Hlen. by apply (store_load _ _ _ _ Hst).
    + eapply Forall2_impl_l; [exact Hr | exact Hse | ].
      intros t t' Ht Hp. eapply placed_as_store; [exact Hst | done | done | exact Hp].
  - apply Forall_cons_2; [simpl; lia | ]. eapply Forall_impl; [exact Hda | ]. simpl. lia.
  - apply (ends_before_cons A (advance x s)); [simpl; lia | done | done].
Qed.

Lemma place_sections_spec buf A B L shdrs : ∀ m x y l,
  p_off buf = 0 → 0 ≤ A → 0 ≤ B → 0 ≤ x → 0 ≤ y → m !! p_blk buf = Some l → Z.of_nat (length l) = L →
  sane_object shdrs → Forall (readable m buf) shdrs →
  Forall (λ s, (sh_addralign s | A)) (data_sections shdrs) →
  Forall (λ s, (sh_addralign s | B)) (bss_sections shdrs) →
  A + extent x (data_sections shdrs) ≤ ULONG_MAX → B + extent y (bss_sections shdrs) ≤ ULONG_MAX →
  extent x (data_sections shdrs) ≤ L →
  ∃ m' placed, place_sections m buf A (A + x) (B + y) shdrs = Ret (m', placed) ∧
    placement m m' buf A x B y shdrs placed.
Proof.
  induction shdrs as [|s shdrs IH]; intros m x y l Hbuf HA HB Hx Hy Hl HL Hs Hr Hda Hba Hd Hb Hdl.
  { exists m, []. split; [done | ]. split; try done; try (by constructor). intros ? ->. eauto. }
  destruct (sane_groups _ Hs) as [Hgd Hgb].
  apply Forall_cons_1 in Hs as [Hss Hs]. apply Forall_cons_1 in Hr as [Hrs Hr].
  destruct (sane_groups _ Hs) as [Hld Hlb].
  destruct (groups_cons s shdrs) as [Ed Eb]. rewrite Ed, Eb in *. cbn [place_sections].
  destruct (section_cases s) as
    [(Ea & Ed' & Eb') | [(Ea & En & Ed' & Eb') | (Ea & En & Ed' & Eb')]];
    rewrite Ea, ?En, ?Ed', ?Eb' in *; cbn [negb app] in *.
  - destruct (IH m x y l) as (m' & placed & -> & Hp); [done.. | ].
    exists m', (s :: placed). split; [done | ]. by apply placement_skip.
  - change (extent x (s :: data_sections shdrs)) with (extent (advance x s) (data_sections shdrs)) in *.
    pose proof (extent_le _ (advance x s) Hld). specialize (Hss eq_refl).
    apply Forall_cons_1 in Hda as [Hsa Hda].
    pose proof (advance_le x s Hss) as Hadv. pose proof Hss as (Hpw & Hal & Hsz & _).
    assert (align_up (A + x) (sh_addralign s) = A + round_up x (sh_addralign s)) as ->.
    { pose proof (round_up_shift A x _ (pow2_pos _ Hpw) Hsa) as Hsh.
      rewrite <- Hsh. apply align_up_spec; [done | done | lia | lia]. }
    set (r := round_up x (sh_addralign s)) in *. cbv zeta.
    replace (A + r - A) with r by ring.
    assert (r + sh_size s = advance x s) as Hadv' by done.
    rewrite (ul_id r), (ul_id (A + r + sh_size s)) by lia.
    destruct (Hrs Ed') as (Hne & c & Hc). rewrite Hc, bind_Ret_l.
    pose proof (load_length _ _ _ _ Hc) as Hlen.
    assert (∃ m1, store m (ptr_add buf r) c = Ret m1) as [m1 Hst].
    { eexists. apply store_Ret. exists l. simpl. repeat split; [done | lia | lia]. }
    rewrite Hst, bind_Ret_l. pose proof (proj1 (store_Ret _ _ _ _) Hst) as (l0 & Hl0 & Hof & Hin & Hm1).
    cbn [ptr_add p_blk p_off] in *.
    destruct (IH m1 (advance x s) y (overwrite l0 (Z.to_nat (p_off buf + r)) c))
      as (m' & placed & Hpl & Hp); try done; try lia.
    + subst m1. by rewrite lookup_insert_eq.
    + rewrite length_overwrite by lia. congruence.
    + eapply Forall_impl; [exact Hr | ]. intros t Ht. by eapply readable_store.
    + replace (A + r + sh_size s) with (A + advance x s) by lia. rewrite Hpl, bind_Ret_l.
      eexists _, _. split; [done | ].
      eapply placement_data; try done. by apply Z.eqb_neq.
  - change (extent y (s :: bss_sections shdrs)) with (extent (advance y s) (bss_sections shdrs)) in *.
    pose proof (extent_le _ (advance y s) Hlb). specialize (Hss eq_refl).
    apply Forall_cons_1 in Hba as [Hsa Hba].
    pose proof (advance_le y s Hss) as Hadv. pose proof Hss as (Hpw & Hal & Hsz & _).
    assert (align_up (B + y) (sh_addralign s) = B + round_up y (sh_addralign s)) as ->.
    { pose proof (round_up_shift B y _ (pow2_pos _ Hpw) Hsa) as Hsh.
      rewrite <- Hsh. apply align_up_spec; [done | done | lia | lia]. }
    cbv zeta. assert (B + round_up y (sh_addralign s) + sh_size s = B + advance y s) as ->
      by (unfold advance; ring).
    rewrite (ul_id (B + advance y s)) by lia.
    destruct (IH m x (advance y s) l) as (m' & placed & -> & Hp); try done; try lia.
    rewrite bind_Ret_l. eexists _, _. split; [done | ].
    apply placement_bss; try done. by apply Z.eqb_eq.
Qed.

(** ** The whole placement *)

Definition data_size (l : list mem_shdr) : Z := extent 0 (data_sections l).
Definition bss_start (l : list mem_shdr) : Z :=
  round_up (data_size l) (max_align 1 (bss_sections l)).
Definition object_size (l : list mem_shdr) : Z := bss_start l + extent 0 (bss_sections l).
Definition object_align (l : list mem_shdr) : Z :=
  max_align 1 (data_sections l) `max` max_align 1 (bss_sections l).

Lemma pow2_1 : pow2 1.
Proof. by exists 0. Qed.

(** The padding before the zeroed sections. *)
Lemma bss_pad x a :
  pow2 a → x + (if negb (Z.land x (a - 1) =? 0) then a - Z.land x (a - 1) else 0) = round_up x a.
Proof.
  intros Ha. pose proof (pow2_pos a Ha). rewrite land_pow2_mod by done.
  unfold round_up, round_down. pose proof (Z.div_mod x a).
  pose proof (Z.mod_pos_bound x a). destruct (Z.eqb_spec (x `mod` a) 0); cbn [negb].
  - replace (x + a - 1) with (a - 1 + (x / a) * a) by lia. rewrite Z.div_add by lia.
    rewrite (Z.div_small (a - 1)) by lia. lia.
  - replace (x + a - 1) with (x `mod` a - 1 + (x / a + 1) * a) by lia. rewrite Z.div_add by lia.
    rewrite (Z.div_small (x `mod` a - 1)) by lia. lia.
Qed.

Lemma alloc_load (m : mem) l p n c :
  load m p n = Ret c →
  load (alloc m l).1 p n = Ret c ∧ p_blk p ≠ p_blk (alloc m l).2.
Proof.
  intros Hl. apply load_Ret in Hl as (k & Hk & ? & ? & ? & ->).
  split; [apply load_Ret; exists k; by rewrite (alloc_fresh _ _ _ _ Hk) | ].
  intros E. apply (is_fresh (dom m)). change (fresh (dom m)) with (p_blk (alloc m l).2).
  rewrite <- E. by apply elem_of_dom_2 in Hk.
Qed.

Lemma object_bounds l : sane_object l →
  0 ≤ data_size l ≤ bss_start l ∧ bss_start l ≤ object_size l ∧
  pow2 (max_align 1 (bss_sections l)) ∧ (max_align 1 (bss_sections l) | bss_start l) ∧
  pow2 (object_align l) ∧ extent 0 (bss_sections l) ≤ object_size l.
Proof.
  intros Hl. destruct (sane_groups l Hl) as [Hd Hb].
  pose proof (extent_le _ 0 Hd). pose proof (extent_le _ 0 Hb).
  pose proof (max_align_pow2 _ 1 pow2_1 Hb) as Hp. pose proof (max_align_pow2 _ 1 pow2_1 Hd).
  pose proof (round_up_spec (data_size l) _ (pow2_pos _ Hp)).
  unfold object_size, bss_start, data_size in *.
  split; [lia | ]. split; [lia | ]. split; [done | ]. split; [apply round_up_divide | ].
  split; [ | lia]. unfold object_align.
  by destruct (Z.max_spec (max_align 1 (data_sections l)) (max_align 1 (bss_sections l)))
    as [[_ ->] | [_ ->]].
Qed.

(** The alignments of the sections divide that of the object. *)
Lemma divides_aligned (l : list mem_shdr) a b :
  Forall sane_section l → pow2 a → Forall (λ s, sh_addralign s ≤ a) l → (a | b) →
  Forall (λ s, (sh_addralign s | b)) l.
Proof.
  intros Hs Ha Hle Hb. apply List.Forall_forall. intros s Hin.
  pose proof (proj1 (List.Forall_forall _ _) Hs s Hin) as (Hp & _).
  pose proof (proj1 (List.Forall_forall _ _) Hle s Hin). simpl in *.
  eapply Z.divide_trans; [ | exact Hb]. by apply pow2_divide.
Qed.

(** The data sections in their order, then the zeroed sections in theirs, lie one
    after the other. *)
Lemma placed_in_order A B dhi m m' buf bhi shdrs placed :
  Forall2 (placed_as m m' buf A dhi bhi) shdrs placed → dhi ≤ B →
  Forall (λ s, B ≤ sh_addr s) (bss_sections placed) →
  StronglySorted ends_before (data_sections placed) →
  StronglySorted ends_before (bss_sections placed) →
  StronglySorted ends_before (data_sections placed ++ bss_sections placed).
Proof.
  intros Hpl HB Hb Hsd Hsb.
  assert (Forall (λ s, sh_addr s + sh_size s ≤ dhi) (data_sections placed)) as Hd.
  { clear - Hpl. induction Hpl as [|s s' l l' Hs _ IH]; [constructor | ].
    destruct (groups_cons s' l') as [-> _]. destruct (in_data s') eqn:E; [ | done].
    apply Forall_cons_2; [ | done]. unfold placed_as in Hs.
    destruct (in_data s) eqn:E1; [by destruct Hs as (a & -> & ? & ? & _) | ].
    destruct (in_bss s); [ | congruence]. destruct Hs as (a & -> & _).
    change (in_data s = true) in E. congruence. }
  induction Hsd as [|s l Hs IH Hl]; [done | ]. apply Forall_cons_1 in Hd as [Hd1 Hd].
  cbn [app]. apply SSorted_cons; [by apply IH | ]. apply Forall_app. split; [done | ].
  eapply Forall_impl; [exact Hb | ]. unfold ends_before. simpl. lia.
Qed.

Definition clip_max (ehdr : mem_ehdr) (max : Z) : Z :=
  if elf_max_addr ehdr <? max then elf_max_addr ehdr else max.

(** The entry point moves with its section. *)
Definition moved_entry (ehdr : mem_ehdr) (shdrs placed : list mem_shdr) : Z :=
  match list_find (λ s, holds_entry (e_entry ehdr) s = true) shdrs with
  | Some (i, s) =>
      ul (e_entry ehdr - sh_addr s + match placed !! i with Some s => sh_addr s | None => 0 end)
  | None => e_entry ehdr
  end.

Lemma place_object_eq lay garbage m ehdr shdrs segs min max e :
  sane_object shdrs → object_size shdrs ≤ ULONG_MAX →
  place_object lay garbage m ehdr shdrs segs min max e =
    (let '(m, buf) := alloc m (resize (Z.to_nat (data_size shdrs)) Byte.x00 garbage) in
     '(A, segs) ← add_buffer lay segs buf (data_size shdrs) (object_size shdrs)
                    (object_align shdrs) min (clip_max ehdr max) e;
     '(m, placed) ← place_sections m buf A A (ul (A + bss_start shdrs)) shdrs;
     let entry := moved_entry ehdr shdrs placed in
     mret (m, set_loaded placed entry A (object_size shdrs) ehdr, segs, entry)).
Proof.
  intros Hs Hsz. destruct (object_bounds shdrs Hs) as (Hd & Hb & Hp & _ & _ & Hx).
  unfold place_object. fold (clip_max ehdr max).
  rewrite footprint_spec by (done || (unfold data_size, object_size in *; lia)).
  fold (data_size shdrs).
  assert (data_size shdrs +
    (if negb (Z.land (data_size shdrs) (max_align 1 (bss_sections shdrs) - 1) =? 0)
     then max_align 1 (bss_sections shdrs)
          - Z.land (data_size shdrs) (max_align 1 (bss_sections shdrs) - 1) else 0)
    = bss_start shdrs) as Hpad by (by apply bss_pad).
  rewrite Hpad. fold (object_size shdrs). rewrite (ul_id (object_size shdrs)) by lia.
  assert ((if max_align 1 (data_sections shdrs) <? max_align 1 (bss_sections shdrs)
           then max_align 1 (bss_sections shdrs) else max_align 1 (data_sections shdrs))
          = object_align shdrs) as ->.
  { unfold object_align. case_if; zbool; lia. }
  unfold alloc. cbv zeta. destruct (add_buffer _ _ _ _ _ _ _ _ _) as [[A segs'] | | | ]; [ | done..].
  rewrite !bind_Ret_l. rewrite <- Z.add_assoc, Hpad.
  destruct (place_sections _ _ _ _ _ _) as [[m' placed] | | | ]; [ | done..].
  rewrite !bind_Ret_l. unfold moved_entry. by destruct (list_find _ shdrs) as [[i s] | ].
Qed.

(** The object [shdrs], after its placement at [A] in the buffer [buf]. *)
Record object_placed (m m' : mem) (buf : ptr) (A : Z) (shdrs placed : list mem_shdr) : Prop := {
  op_sections : Forall2 (placed_as m m' buf A (A + data_size shdrs) (A + object_size shdrs)) shdrs placed;
  op_order : StronglySorted ends_before (data_sections placed ++ bss_sections placed);
  op_start : Forall (λ s, A ≤ sh_addr s) (data_sections placed ++ bss_sections placed);
  op_memory : ∀ b, b ≠ p_blk buf → m' !! b = m !! b
}.

Lemma place_sections_object m garbage A shdrs :
  sane_object shdrs → A + object_size shdrs ≤ ULONG_MAX → 0 ≤ A → (object_align shdrs | A) →
  Forall (λ s, in_data s = true → ∃ c, load m (sh_data s) (sh_size s) = Ret c) shdrs →
  let m1 := (alloc m (resize (Z.to_nat (data_size shdrs)) Byte.x00 garbage)).1 in
  let buf := (alloc m (resize (Z.to_nat (data_size shdrs)) Byte.x00 garbage)).2 in
  ∃ m' placed, place_sections m1 buf A A (ul (A + bss_start shdrs)) shdrs = Ret (m', placed) ∧
    object_placed m m' buf A shdrs placed.
Proof.
  intros Hs HA HA0 Hdiv Hr m1 buf. destruct (object_bounds shdrs Hs) as (Hd & Hb & Hp & Hpb & Hpo & Hx).
  destruct (sane_groups shdrs Hs) as [Hgd Hgb]. rewrite ul_id by lia.
  set (B := A + bss_start shdrs).
  destruct (max_align_ge (data_sections shdrs) 1) as [_ Hmd].
  destruct (max_align_ge (bss_sections shdrs) 1) as [_ Hmb].
  destruct (place_sections_spec buf A B (data_size shdrs) shdrs m1 0 0
    (resize (Z.to_nat (data_size shdrs)) Byte.x00 garbage)) as (m' & placed & Hpl & Hok).
  - done.
  - done.
  - lia.
  - done.
  - done.
  - apply alloc_lookup.
  - rewrite length_resize. lia.
  - done.
  - eapply Forall_impl; [exact Hr | ]. intros s Hc Hi. destruct (Hc Hi) as [c Hl].
    destruct (alloc_load m (resize (Z.to_nat (data_size shdrs)) Byte.x00 garbage) _ _ _ Hl) as [? ?].
    split; [done | by exists c].
  - apply (divides_aligned _ (object_align shdrs)); [done | done | | done].
    eapply Forall_impl; [exact Hmd | ]. unfold object_align. simpl. lia.
  - apply (divides_aligned _ (max_align 1 (bss_sections shdrs))); [done | done | done | ].
    apply Z.divide_add_r; [ | done]. eapply Z.divide_trans; [ | exact Hdiv].
    apply pow2_divide; [done | done | unfold object_align; lia].
  - fold (data_size shdrs). lia.
  - unfold B. unfold object_size in HA. lia.
  - done.
  - rewrite !Z.add_0_r in Hpl. exists m', placed. split; [done | ].
    destruct Hok as [Hot _ _ Hse Hda Hba Hds Hbs]. rewrite Z.add_0_r in Hda, Hba.
    fold (data_size shdrs) in Hse.
    replace (B + extent 0 (bss_sections shdrs)) with (A + object_size shdrs) in Hse
      by (unfold B, object_size; ring).
    split.
    + eapply Forall2_impl_l; [exact Hr | exact Hse | ]. intros s s' Hc Hpa. simpl in Hc.
      unfold placed_as in *. destruct (in_data s); [ | done].
      destruct Hpa as (a & ? & ? & ? & Hl). exists a. repeat (split; [done | ]).
      rewrite Hl. destruct (Hc eq_refl) as [c Hlc]. rewrite Hlc.
      by apply (alloc_load m (resize (Z.to_nat (data_size shdrs)) Byte.x00 garbage)).
    + eapply (placed_in_order A B); [exact Hse | unfold B; lia | done | done | done].
    + apply Forall_app. split; [done | ]. eapply Forall_impl; [exact Hba | ]. unfold B. simpl. lia.
    + intros b Hne. rewrite Hot by done. unfold m1, buf, alloc in *. cbn [fst snd p_blk] in *.
      by apply lookup_insert_ne.
Qed.

Lemma moved_entry_spec m m' buf A ehdr shdrs placed i s s' :
  sane_object shdrs → object_placed m m' buf A shdrs placed →
  0 ≤ A → A + object_size shdrs ≤ ULONG_MAX →
  list_find (λ s, holds_entry (e_entry ehdr) s = true) shdrs = Some (i, s) →
  placed !! i = Some s' →
  moved_entry ehdr shdrs placed = sh_addr s' + (e_entry ehdr - sh_addr s).
Proof.
  intros Hs [Hse _ Hst _] HA Hsz Hf Hi. unfold moved_entry. rewrite Hf, Hi.
  apply list_find_Some in Hf as (Hsi & Hh & _).
  destruct (object_bounds shdrs Hs) as (Hd & Hb & _ & _ & _ & _).
  pose proof (Forall2_lookup_lr _ _ _ _ _ _ Hse Hsi Hi) as Hp.
  pose proof (proj1 (Forall_lookup _ _) Hs i s Hsi) as Hsane. simpl in Hsane.
  unfold holds_entry in Hh. apply andb_prop in Hh as [Hh Hhi]. apply andb_prop in Hh as [Hh Hlo].
  apply andb_prop in Hh as [Ha _]. destruct (Hsane Ha) as (_ & _ & Hss & Hsa).
  apply Z.leb_le in Hlo. apply Z.ltb_lt in Hhi.
  pose proof (Z.mod_le (sh_addr s + sh_size s) (2 ^ ulong_bits) ltac:(lia) ulong_mod_pos) as Hm.
  fold (ul (sh_addr s + sh_size s)) in Hm.
  assert (A ≤ sh_addr s' ∧ sh_addr s' + sh_size s ≤ A + object_size shdrs) as Hr.
  { assert (in_data s' = in_data s ∧ in_bss s' = in_bss s) as [Ei1 Ei2].
    { unfold placed_as in Hp. destruct (in_data s) eqn:E1; [by destruct Hp as (? & -> & _) | ].
      destruct (in_bss s) eqn:E2; [by destruct Hp as (? & -> & _) | by subst s']. }
    split.
    - apply (proj1 (Forall_forall _ _) Hst). apply list_elem_of_lookup_2 in Hi.
      unfold data_sections, bss_sections. rewrite elem_of_app, !list_elem_of_filter, Ei1, Ei2.
      destruct (section_cases s) as [(? & _) | [(_ & _ & -> & _) | (_ & _ & _ & ->)]];
        [congruence | by left | by right].
    - unfold placed_as in Hp.
      destruct (section_cases s) as [(? & _) | [(_ & _ & E & _) | (_ & _ & E1 & E2)]]; [congruence | | ].
      + rewrite E in Hp. destruct Hp as (a & -> & _ & ? & _). simpl. lia.
      + rewrite E1, E2 in Hp. destruct Hp as (a & -> & _ & ?). simpl. lia. }
  rewrite ul_id; lia.
Qed.

(** C18: for sections whose alignments are powers of two, whose sizes do not wrap around
    and whose contents are in memory, and a memory table and segments as for
    C1, [elf_rel_load] places the object in one segment at the least or greatest
    base that fits: every allocated section is aligned, inside the segment and
    apart from the others, with its contents copied to a fresh buffer; the entry
    point keeps its place in its section; nothing else in memory changes. It
    dies only when nothing fits, or when the segment at the least or greatest base that fits, once
    rounded up to pages, is not in the memory. *)
Theorem elf_rel_place lay garbage m ehdr shdrs segs min max e :
  sane_object shdrs → object_size shdrs ≤ ULONG_MAX →
  Forall (λ s, in_data s = true → ∃ c, load m (sh_data s) (sh_size s) = Ret c) shdrs →
  search_ok lay (object_size shdrs) (object_align shdrs) min → wf_segments lay segs → e ≠ 0 →
  let fit := fits lay segs (object_size shdrs) (sane_align (object_align shdrs)) min
               (clip_max ehdr max) in
  match place_object lay garbage m ehdr shdrs segs min max e with
  | Ret (m', ehdr', segs', entry) =>
      ∃ buf A placed,
        ehdr' = set_loaded placed entry A (object_size shdrs) ehdr ∧
        fit A ∧ (∀ b, fit b → if 0 <? e then A ≤ b else b ≤ A) ∧
        segs' ≡ₚ new_segment buf (data_size shdrs) A (object_size shdrs) :: segs ∧
        wf_segments lay segs' ∧ m !! p_blk buf = None ∧
        object_placed m m' buf A shdrs placed ∧
        ∀ i s s', list_find (λ s, holds_entry (e_entry ehdr) s = true) shdrs = Some (i, s) →
          placed !! i = Some s' → entry = sh_addr s' + (e_entry ehdr - sh_addr s)
  | Die w => (∀ b, ¬ fit b) ∨
      ∃ b buf, fit b ∧ (∀ b', fit b' → if 0 <? e then b ≤ b' else b' ≤ b) ∧
        ¬ wf_segment lay (new_segment buf (data_size shdrs) b (object_size shdrs))
  | UB _ | Spin => False
  end.
Proof.
  intros Hs Hsz Hr Hso Hsegs He fit. rewrite place_object_eq by done.
  set (fresh_bytes := resize (Z.to_nat (data_size shdrs)) Byte.x00 garbage).
  rewrite (surjective_pairing (alloc m fresh_bytes)).
  pose proof (add_buffer_spec lay segs (alloc m fresh_bytes).2 (data_size shdrs) (object_size shdrs)
    (object_align shdrs) min (clip_max ehdr max) e Hso Hsegs He) as Hadd. cbv zeta in Hadd.
  destruct (add_buffer _ _ _ _ _ _ _ _ _) as [[A segs'] | w | w | ]; [ | | done | done].
  2:{ destruct Hadd as [[_ Hno] | (_ & b & [? ?] & ?)]; [by left | right; eauto 10]. }
  destruct Hadd as (Hfit & Hbest & Hperm & Hwf). rewrite bind_Ret_l.
  destruct (object_bounds shdrs Hs) as (Hd & Hb & _ & _ & Hpo & _).
  pose proof Hfit as [Hal _ _ [HA0 HA1]%in_ram_bounds _]; [ | apply Hso].
  pose proof (pow2_pos _ Hpo). pose proof pagesize_pos.
  assert ((object_align shdrs | A)) as Hdiv.
  { eapply Z.divide_trans; [ | exact Hal]. unfold sane_align.
    destruct (Z.eqb_spec (object_align shdrs) 0); [lia | ].
    case_if; [ | done]. zbool. apply pow2_divide; [done | apply pow2_pagesize | lia]. }
  destruct (place_sections_object m garbage A shdrs Hs ltac:(lia) HA0 Hdiv Hr)
    as (m' & placed & Hpl & Hop). fold fresh_bytes in Hpl, Hop.
  rewrite Hpl, bind_Ret_l. cbv zeta. exists (alloc m fresh_bytes).2, A, placed.
  split; [done | ]. split; [done | ]. split; [done | ]. split; [done | ]. split; [done | ].
  split; [ | split; [done | ]].
  - apply not_elem_of_dom. apply is_fresh.
  - intros i s s'. eapply moved_entry_spec; try done. lia.
Qed.
End placement.
