(* ===== verification/ElfRelLoad.v ===== *)
(** The relocation loop and the symbols of an object, for any target that
    implements the interface [Machine]: the loader ends, its relocations change
    only the buffer of the object, and a symbol reads back as it was set. *)

From Stdlib Require Import ZArith Lia String.
From stdpp Require Import base tactics list numbers gmap sorting.
From coqutil Require Import Byte.
From S2P Require Import Prelude Words CMem CString Segments SegmentsSpec Elf ElfSpec ElfExec ElfRel ElfRelSpec.

#[local] Open Scope Z_scope.

#[local] Hint Resolve machine_apply_ends : ends.

Section load.
Context `{Machine}.

(** ** Termination *)

Lemma elf_sym_size_ends h : elf_sym_size h ≠ Spin.
Proof. unfold elf_sym_size. ends. Qed.

Lemma elf_rel_size_ends h : elf_rel_size h ≠ Spin.
Proof. unfold elf_rel_size. ends. Qed.

Lemma elf_rela_size_ends h : elf_rela_size h ≠ Spin.
Proof. unfold elf_rela_size. ends. Qed.

Lemma elf_sym_ends m h p : elf_sym m h p ≠ Spin.
Proof. unfold elf_sym. cbv zeta. ends. Qed.

Lemma elf_rel_ends m h p : elf_rel m h p ≠ Spin.
Proof. unfold elf_rel. cbv zeta. ends. Qed.

Lemma elf_rela_ends m h p : elf_rela m h p ≠ Spin.
Proof. unfold elf_rela. cbv zeta. ends. Qed.

Lemma section_at_ends l i : section_at l i ≠ Spin.
Proof. unfold section_at. ends. Qed.

Lemma sec_base_ends h l s : sec_base h l s ≠ Spin.
Proof. unfold sec_base. ends. apply section_at_ends. Qed.

#[local] Hint Resolve elf_sym_size_ends elf_rel_size_ends elf_rela_size_ends elf_sym_ends
  elf_rel_ends elf_rela_ends section_at_ends sec_base_ends : ends.

Lemma relocate_ends m h l ty s st p : relocate m h l ty s st p ≠ Spin.
Proof. unfold relocate. cbv zeta. ends. Qed.

Lemma rel_size_pos h n :
  elf_rel_size h = Ret n ∨ elf_rela_size h = Ret n ∨ elf_sym_size h = Ret n → 0 < n.
Proof.
  unfold elf_rel_size, elf_rela_size, elf_sym_size.
  intros [E | [E | E]]; repeat case_if_in E; inv_ret; lia.
Qed.

Lemma relocate_entries_ends fuel : ∀ m h l shdr s st n off,
  0 < n → 0 `max` (sh_size shdr - off) < Z.of_nat fuel →
  relocate_entries fuel m h l shdr s st n off ≠ Spin.
Proof.
  induction fuel as [|fuel IH]; intros m h l shdr s st n off Hn Hf; cbn [relocate_entries]; [lia | ].
  case_if; [ | done]. zbool. apply bind_not_spin; [apply relocate_ends | ].
  intros m' _. apply IH; lia.
Qed.

Lemma relocate_section_ends m h l shdr : relocate_section m h l shdr ≠ Spin.
Proof.
  unfold relocate_section. case_if; [done | ]. case_if; [done | ].
  apply bind_not_spin; [apply section_at_ends | ]. intros s _. case_if; [done | ].
  apply bind_not_spin; [apply section_at_ends | ]. intros st _. case_if; [done | ].
  apply bind_not_spin; [apply section_at_ends | ]. intros _ _.
  apply bind_not_spin; [case_if; auto with ends | ]. intros n Hn.
  apply relocate_entries_ends; [ | lia].
  apply (rel_size_pos h). case_if_in Hn; auto.
Qed.

Lemma relocate_sections_ends rest : ∀ m h l, relocate_sections m h l rest ≠ Spin.
Proof.
  induction rest as [|s rest IH]; intros m h l; cbn [relocate_sections]; [done | ].
  apply bind_not_spin; [apply relocate_section_ends | auto].
Qed.

Lemma place_sections_ends l : ∀ m buf A d b, place_sections m buf A d b l ≠ Spin.
Proof.
  induction l as [|s l IH]; intros m buf A d b; cbn [place_sections]; [done | ]. cbv zeta.
  repeat case_if; repeat (apply bind_not_spin; [auto with ends | intros]); ends.
Qed.

Lemma add_buffer_ends lay segs buf bufsz size a lo hi e :
  add_buffer lay segs buf bufsz size a lo hi e ≠ Spin.
Proof.
  unfold add_buffer. destruct (sort_segments segs) as [r l].
  unfold locate_hole, add_segment. cbv zeta. ends.
Qed.

Lemma place_object_ends lay garbage m h l segs lo hi e :
  place_object lay garbage m h l segs lo hi e ≠ Spin.
Proof.
  unfold place_object. destruct (foldl _ _ _) as [[[ba sa] b] s]. destruct (alloc _ _) as [m1 buf].
  apply bind_not_spin; [apply add_buffer_ends | ]. intros [A segs'] _.
  apply bind_not_spin; [apply place_sections_ends | ]. intros [m2 placed] _.
  destruct (list_find _ _) as [[i s'] | ]; done.
Qed.

(** ** What relocation changes *)

Lemma relocate_block m h l ty s st p m' b :
  relocate m h l ty s st p = Ret m' → b ≠ p_blk (sh_data s) → m' !! b = m !! b.
Proof.
  unfold relocate. cbv zeta. intros Hm Hb. inv_ret.
  apply machine_apply_writes in Hm as [-> | (data & _ & Hst)]; [done | ].
  apply store_Ret in Hst as (k & _ & _ & _ & ->). cbn [p_blk ptr_add] in *.
  by apply lookup_insert_ne.
Qed.

Lemma relocate_entries_block fuel : ∀ m h l shdr s st n off m' b,
  relocate_entries fuel m h l shdr s st n off = Ret m' → b ≠ p_blk (sh_data s) → m' !! b = m !! b.
Proof.
  induction fuel as [|fuel IH]; intros m h l shdr s st n off m' b Hm Hb;
    cbn [relocate_entries] in Hm; [done | ].
  case_if_in Hm; inv_ret; [ | done]. rewrite (IH _ _ _ _ _ _ _ _ _ _ Hm Hb). by eapply relocate_block.
Qed.

(** The sections that relocations are for. *)
Definition is_target (l : list mem_shdr) (s : mem_shdr) : Prop :=
  allocated s = true ∧ ∃ r, r ∈ l ∧ (sh_type r = SHT_RELA ∨ sh_type r = SHT_REL) ∧
    l !! Z.to_nat (sh_info r) = Some s.

Lemma relocate_section_block m h l shdr m' b :
  relocate_section m h l shdr = Ret m' → shdr ∈ l →
  (∀ s, is_target l s → b ≠ p_blk (sh_data s)) → m' !! b = m !! b.
Proof.
  unfold relocate_section. intros Hm Hin Hb.
  destruct (negb (sh_type shdr =? SHT_RELA) && negb (sh_type shdr =? SHT_REL)) eqn:Et; [by inv_ret | ].
  case_if_in Hm; [done | ]. apply bind_Ret in Hm as (s & Es & Hm).
  destruct (allocated s) eqn:Ea; cbn [negb] in Hm; [ | by inv_ret].
  apply bind_Ret in Hm as (st & _ & Hm). case_if_in Hm; [by inv_ret | ].
  apply bind_Ret in Hm as (? & _ & Hm). apply bind_Ret in Hm as (n & _ & Hm).
  eapply relocate_entries_block; [exact Hm | ]. apply Hb. split; [done | ].
  exists shdr. split; [done | ]. split.
  - apply andb_false_iff in Et as [Et | Et]; apply negb_false_iff, Z.eqb_eq in Et; auto.
  - unfold section_at in Es. destruct (l !! _); by inv_ret.
Qed.

Lemma relocate_sections_block rest : ∀ m h l m' b,
  relocate_sections m h l rest = Ret m' → (∀ s, s ∈ rest → s ∈ l) →
  (∀ s, is_target l s → b ≠ p_blk (sh_data s)) → m' !! b = m !! b.
Proof.
  induction rest as [|s rest IH]; intros m h l m' b Hm Hin Hb; cbn [relocate_sections] in Hm;
    [by inv_ret | ].
  apply bind_Ret in Hm as (m1 & Hs & Hm). rewrite (IH _ _ _ _ _ Hm); [ | set_solver | done].
  eapply relocate_section_block; [exact Hs | set_solver | done].
Qed.

(** What is left of a section header by any placement in [buf]. *)
Definition same_section (buf : ptr) (s s' : mem_shdr) : Prop :=
  allocated s' = allocated s ∧ sh_type s' = sh_type s ∧ sh_info s' = sh_info s ∧
  (in_data s = true → p_blk (sh_data s') = p_blk buf).

Lemma place_sections_shape l : ∀ m buf A d b m' placed,
  place_sections m buf A d b l = Ret (m', placed) →
  Forall2 (same_section buf) l placed ∧ ∀ k, k ≠ p_blk buf → m' !! k = m !! k.
Proof.
  induction l as [|s l IH]; intros m buf A d b m' placed Hpl; cbn [place_sections] in Hpl.
  { by simplify_eq. }
  destruct (section_cases s) as
    [(Ea & Ed & _) | [(Ea & En & _) | (Ea & En & Ed & _)]];
    rewrite Ea, ?En in Hpl; cbn [negb] in Hpl; cbv zeta in Hpl.
  - apply bind_Ret in Hpl as ([m1 rest] & Hr & Hpl). apply Ret_inj in Hpl; simplify_eq/=.
    destruct (IH _ _ _ _ _ _ _ Hr) as [? ?]. split; [ | done]. constructor; [ | done].
    repeat split; done || congruence.
  - apply bind_Ret in Hpl as (c & _ & Hpl). apply bind_Ret in Hpl as (m1 & Hst & Hpl).
    apply bind_Ret in Hpl as ([m2 rest] & Hr & Hpl). apply Ret_inj in Hpl; simplify_eq/=.
    destruct (IH _ _ _ _ _ _ _ Hr) as [? Hk]. split; [by constructor | ].
    intros k Hne. rewrite Hk by done. apply store_Ret in Hst as (k' & _ & _ & _ & ->).
    cbn [p_blk ptr_add]. by apply lookup_insert_ne.
  - apply bind_Ret in Hpl as ([m1 rest] & Hr & Hpl). apply Ret_inj in Hpl; simplify_eq/=.
    destruct (IH _ _ _ _ _ _ _ Hr) as [? ?]. split; [ | done]. constructor; [ | done].
    repeat split; done || congruence.
Qed.

Lemma place_object_shape lay garbage m h l segs lo hi e m' h' segs' entry :
  place_object lay garbage m h l segs lo hi e = Ret (m', h', segs', entry) →
  ∃ buf placed, m !! p_blk buf = None ∧ e_shdr h' = Some placed ∧
    Forall2 (same_section buf) l placed ∧ ∀ k, k ≠ p_blk buf → m' !! k = m !! k.
Proof.
  unfold place_object. destruct (foldl _ _ _) as [[[ba sa] bz] s].
  set (r := resize _ _ _). rewrite (surjective_pairing (alloc m r)). intros Hp.
  apply bind_Ret in Hp as ([A segs1] & _ & Hp). apply bind_Ret in Hp as ([m1 placed] & Hpl & Hp).
  exists (alloc m r).2, placed. split; [apply not_elem_of_dom, is_fresh | ].
  apply place_sections_shape in Hpl as [Hs Hk].
  assert (e_shdr h' = Some placed ∧ m' = m1) as [-> ->].
  { destruct (list_find _ _) as [[i s'] | ]; apply Ret_inj in Hp; by simplify_eq/=. }
  split; [done | ]. split; [done | ]. intros k Hne. rewrite Hk by done.
  unfold alloc in *. cbn [fst snd p_blk] in *. by apply lookup_insert_ne.
Qed.

Lemma target_same buf l placed s' :
  Forall2 (same_section buf) l placed → is_target placed s' →
  ∃ s, is_target l s ∧ same_section buf s s'.
Proof.
  intros Hl (Ha & r' & Hr' & Ht & Hi).
  apply list_elem_of_lookup_1 in Hr' as [i Hr'].
  destruct (Forall2_lookup_r _ _ _ _ _ Hl Hr') as (r & Hr & Hsr).
  destruct (Forall2_lookup_r _ _ _ _ _ Hl Hi) as (s & Hs & Hss).
  exists s. split; [ | done]. destruct Hsr as (_ & Et & Einfo & _), Hss as (Ea & _).
  split; [congruence | ]. exists r. split; [by eapply list_elem_of_lookup_2 | ].
  rewrite <- Et, <- Einfo. done.
Qed.

(** C33: for any target, loading an object always ends; when no relocation is for
    a section without contents, the loader writes to nothing but the buffer it
    allocates, so the image of the file (with its symbols and relocations) and
    every other object of the program keep their contents. *)
Theorem elf_rel_load_confined lay garbage m ehdr segs lo hi e :
  elf_rel_load lay garbage m ehdr segs lo hi e ≠ Spin ∧
  ∀ shdrs m' ehdr' segs' entry, e_shdr ehdr = Some shdrs →
    (∀ s, is_target shdrs s → in_bss s = false) →
    elf_rel_load lay garbage m ehdr segs lo hi e = Ret (Some (m', ehdr', segs', entry)) →
    ∀ b l, m !! b = Some l → m' !! b = Some l.
Proof.
  unfold elf_rel_load. split.
  - destruct (e_shdr ehdr) as [l | ]; [ | done].
    apply bind_not_spin; [apply place_object_ends | ]. intros [[[m1 h1] segs1] en] _. cbv zeta.
    apply bind_not_spin; [apply relocate_sections_ends | done].
  - intros shdrs m' ehdr' segs' entry -> Hbss Hl b l Hb.
    apply bind_Ret in Hl as ([[[m1 h1] segs1] en] & Hp & Hl). cbv zeta in Hl.
    apply place_object_shape in Hp as (buf & placed & Hfresh & Hh & Hs & Hk).
    rewrite Hh in Hl. apply bind_Ret in Hl as (m2 & Hr & Hl). apply Ret_inj in Hl; simplify_eq/=.
    assert (b ≠ p_blk buf) as Hne by congruence.
    rewrite (relocate_sections_block _ _ _ _ _ b Hr);
      [by rewrite Hk | done | ].
    intros s' Hs'. destruct (target_same _ _ _ _ Hs Hs') as (s & Hst & Ea & Et & _ & Hd).
    rewrite Hd; [done | ]. specialize (Hbss s Hst). destruct Hst as [Has _].
    destruct (section_cases s) as [(? & _) | [(_ & _ & ? & _) | (_ & _ & _ & ?)]]; congruence.
Qed.

(** ** Symbols *)

Lemma load_same_block (m m' : mem) p n : m' !! p_blk p = m !! p_blk p → load m' p n = load m p n.
Proof. intros E. unfold load. by rewrite E. Qed.

Lemma elf_sym_same_block (m m' : mem) h p : m' !! p_blk p = m !! p_blk p → elf_sym m' h p = elf_sym m h p.
Proof. intros E. unfold elf_sym. by rewrite !(load_same_block m m'). Qed.

Lemma find_in_symtab_same (m m' : mem) h name shdr strtab n fuel : ∀ off,
  m' !! p_blk (sh_data shdr) = m !! p_blk (sh_data shdr) → m' !! p_blk strtab = m !! p_blk strtab →
  find_in_symtab fuel m' h name shdr strtab n off = find_in_symtab fuel m h name shdr strtab n off.
Proof.
  induction fuel as [|fuel IH]; intros off Hd Hs; [done | ]. cbn [find_in_symtab].
  rewrite (elf_sym_same_block m m' h (ptr_add (sh_data shdr) off)) by done.
  rewrite (IH (off + n)) by done. case_if; [ | done].
  destruct (elf_sym m h _) as [sym | | | ]; [ | done..]. rewrite !bind_Ret_l.
  case_if; [done | ]. unfold streq_at. cbn [p_blk ptr_add]. by rewrite Hs.
Qed.

(** The symbol tables and their strings are not in the object [b]. *)
Definition names_apart (l : list mem_shdr) (b : positive) : Prop :=
  ∀ s, s ∈ l → sh_type s = SHT_SYMTAB → p_blk (sh_data s) ≠ b ∧
    ∀ t, l !! Z.to_nat (sh_link s) = Some t → p_blk (sh_data t) ≠ b.

Lemma find_in_sections_same (m m' : mem) h name l b rest :
  (∀ s, s ∈ rest → s ∈ l) → names_apart l b → (∀ k, k ≠ b → m' !! k = m !! k) →
  find_in_sections m' h name l rest = find_in_sections m h name l rest.
Proof.
  intros Hin Ha Hm. induction rest as [|s rest IH]; [done | ]. cbn [find_in_sections].
  rewrite IH by set_solver. case_if; [done | ]. case_if; [done | ].
  apply negb_false_iff, Z.eqb_eq in E. destruct (Ha s) as [Hs Ht]; [set_solver | done | ].
  unfold section_at. destruct (l !! Z.to_nat (sh_link s)) as [t | ] eqn:El; [ | done].
  rewrite !bind_Ret_l. destruct (elf_sym_size h) as [n | | | ]; [ | done..]. rewrite !bind_Ret_l.
  by rewrite (find_in_symtab_same m m') by auto.
Qed.

(** Where the object has the symbol [name]. *)
Definition symbol_at (m : mem) (h : mem_ehdr) (name : list byte) (p : ptr) (size : Z) : Prop :=
  ∃ sym shdr, elf_rel_find_symbol m h name = Ret (Some sym) ∧ st_size sym = size ∧
    section_at (default [] (e_shdr h)) (st_shndx sym) = Ret shdr ∧ sh_type shdr ≠ SHT_NOBITS ∧
    p = ptr_add (sh_data shdr) (st_value sym).

Lemma elf_rel_get_symbol_at m h name size p :
  symbol_at m h name p size → elf_rel_get_symbol m h name size = load m p size.
Proof.
  intros (sym & shdr & Hf & Hs & Hsec & Ht & ->). unfold elf_rel_get_symbol.
  rewrite Hf, bind_Ret_l, Hs, Z.eqb_refl. cbn [negb]. rewrite Hsec, bind_Ret_l.
  destruct (Z.eqb_spec (sh_type shdr) SHT_NOBITS); done.
Qed.

Lemma elf_rel_set_symbol_Ret m h name data m' :
  elf_rel_set_symbol m h name data = Ret m' ↔
  ∃ p, symbol_at m h name p (Z.of_nat (length data)) ∧ store m p data = Ret m'.
Proof.
  unfold elf_rel_set_symbol. split.
  - intros Hs. apply bind_Ret in Hs as ([sym | ] & Hf & Hs); [ | done].
    case_if_in Hs; [done | ]. apply negb_false_iff, Z.eqb_eq in E.
    apply bind_Ret in Hs as (shdr & Hsec & Hs). case_if_in Hs; [done | ]. apply Z.eqb_neq in E0.
    eexists. split; [ | exact Hs]. by exists sym, shdr.
  - intros (p & (sym & shdr & Hf & Hs & Hsec & Ht & ->) & Hst).
    rewrite Hf, bind_Ret_l, Hs, Z.eqb_refl. cbn [negb]. rewrite Hsec, bind_Ret_l.
    destruct (Z.eqb_spec (sh_type shdr) SHT_NOBITS); done.
Qed.

(** Setting a symbol is a store; every name still stands for the same place. *)
Lemma elf_rel_set_symbol_effect m ehdr shdrs name data m' :
  e_shdr ehdr = Some shdrs → elf_rel_set_symbol m ehdr name data = Ret m' →
  (∀ p size, symbol_at m ehdr name p size → names_apart shdrs (p_blk p)) →
  (∃ p, symbol_at m ehdr name p (Z.of_nat (length data)) ∧ store m p data = Ret m') ∧
  (∀ other, elf_rel_find_symbol m' ehdr other = elf_rel_find_symbol m ehdr other) ∧
  (∀ other q size, symbol_at m' ehdr other q size ↔ symbol_at m ehdr other q size).
Proof.
  intros Hsh Hset Hap. apply elf_rel_set_symbol_Ret in Hset as (p & Hat & Hst).
  assert (∀ other, elf_rel_find_symbol m' ehdr other = elf_rel_find_symbol m ehdr other) as Hfind.
  { intros other. unfold elf_rel_find_symbol. rewrite Hsh.
    apply (find_in_sections_same m m' ehdr other shdrs (p_blk p)); [done | by eapply Hap | ].
    intros k Hk. apply store_Ret in Hst as (k' & _ & _ & _ & ->). by apply lookup_insert_ne. }
  split; [by exists p | ]. split; [done | ].
  intros other q size. unfold symbol_at. by rewrite Hfind.
Qed.

Lemma symbol_at_unique m h name p q n k : symbol_at m h name p n → symbol_at m h name q k → p = q.
Proof.
  intros (? & ? & Hf & _ & Hs & _ & ->) (? & ? & Hf' & _ & Hs' & _ & ->).
  rewrite Hf in Hf'. simplify_eq. rewrite Hs in Hs'. by simplify_eq.
Qed.

(** after [elf_rel_set_symbol] of an object whose symbol tables are not in
    the section that holds the symbol, [elf_rel_get_symbol] returns the bytes
    that were set, every name still stands for the same place, and a symbol that
    does not overlap it keeps its value. *)
Theorem elf_rel_set_get_symbol m ehdr shdrs name data m' :
  e_shdr ehdr = Some shdrs → elf_rel_set_symbol m ehdr name data = Ret m' →
  (∀ p size, symbol_at m ehdr name p size → names_apart shdrs (p_blk p)) →
  elf_rel_get_symbol m' ehdr name (Z.of_nat (length data)) = Ret data ∧
  (∀ other, elf_rel_find_symbol m' ehdr other = elf_rel_find_symbol m ehdr other) ∧
  ∀ other p q size,
    symbol_at m ehdr name p (Z.of_nat (length data)) → symbol_at m ehdr other q size →
    p_blk q ≠ p_blk p ∨ p_off q + size ≤ p_off p ∨ p_off p + Z.of_nat (length data) ≤ p_off q →
    elf_rel_get_symbol m' ehdr other size = elf_rel_get_symbol m ehdr other size.
Proof.
  intros Hsh Hset Hap.
  destruct (elf_rel_set_symbol_effect m ehdr shdrs name data m' Hsh Hset Hap)
    as ((p & Hat & Hst) & Hfind & Hkeep).
  split; [ | split; [done | ]].
  - rewrite (elf_rel_get_symbol_at m' ehdr name _ p) by (by apply Hkeep).
    by apply (store_load _ _ _ _ Hst).
  - intros other p' q size Hp Hq Hd. rewrite (symbol_at_unique _ _ _ _ _ _ _ Hp Hat) in Hd.
    rewrite (elf_rel_get_symbol_at m' ehdr other _ q) by (by apply Hkeep).
    rewrite (elf_rel_get_symbol_at m ehdr other _ q) by done.
    by apply (store_load_disjoint _ _ _ _ _ _ Hst).
Qed.

(** ** Indices and alignments that the loader does not expect *)

(** the checks of section indices accept the number of sections itself, the
    index after the last section: a relocation section with that [sh_info], or
    one whose symbol table has that [sh_link], reads past the section headers,
    and so does the search of a symbol. *)
Theorem elf_rel_index_past_end m ehdr shdrs shdr name rest :
  e_shnum ehdr = Z.of_nat (length shdrs) →
  (sh_type shdr = SHT_REL → sh_info shdr = e_shnum ehdr → sh_link shdr ≤ e_shnum ehdr →
   relocate_section m ehdr shdrs shdr = UB "read past the section headers") ∧
  (∀ section symtab, sh_type shdr = SHT_REL →
   0 ≤ sh_info shdr → shdrs !! Z.to_nat (sh_info shdr) = Some section → allocated section = true →
   0 ≤ sh_link shdr → shdrs !! Z.to_nat (sh_link shdr) = Some symtab → sh_link symtab = e_shnum ehdr →
   relocate_section m ehdr shdrs shdr = UB "read past the section headers") ∧
  (sh_type shdr = SHT_SYMTAB → sh_link shdr = e_shnum ehdr →
   find_in_sections m ehdr name shdrs (shdr :: rest) = UB "read past the section headers").
Proof.
  intros Hn. assert (section_at shdrs (e_shnum ehdr) = UB "read past the section headers") as Hend.
  { unfold section_at. rewrite Hn, Nat2Z.id, lookup_ge_None_2 by lia. done. }
  unfold relocate_section. split; [ | split].
  - intros -> -> Hl. cbn [SHT_REL SHT_RELA Z.eqb Pos.eqb negb andb]. rewrite Z.ltb_irrefl.
    destruct (Z.ltb_spec (e_shnum ehdr) (sh_link shdr)); [lia | ]. cbn [orb]. by rewrite Hend.
  - intros section symtab -> H1 Hi Ha H2 Hl Hst. cbn [SHT_REL SHT_RELA Z.eqb Pos.eqb negb andb].
    apply lookup_lt_Some in Hi as Hi'. apply lookup_lt_Some in Hl as Hl'.
    destruct (Z.ltb_spec (e_shnum ehdr) (sh_info shdr)); [lia | ].
    destruct (Z.ltb_spec (e_shnum ehdr) (sh_link shdr)); [lia | ]. cbn [orb].
    assert (section_at shdrs (sh_info shdr) = Ret section) as -> by (unfold section_at; by rewrite Hi).
    assert (section_at shdrs (sh_link shdr) = Ret symtab) as -> by (unfold section_at; by rewrite Hl).
    rewrite bind_Ret_l, Ha. cbn [negb]. by rewrite bind_Ret_l, Hst, Z.ltb_irrefl, Hend.
  - intros Ht Hl. cbn [find_in_sections]. rewrite Ht, Hl. cbn [SHT_SYMTAB Z.eqb Pos.eqb negb].
    by rewrite Z.ltb_irrefl, Hend.
Qed.

(** an alignment of 0, which ELF allows for "no constraint", makes the loader
    compute the address 0 for the section and copy its contents out of the
    buffer. *)
Theorem elf_rel_zero_align m buf A data_addr bss_addr s rest contents l :
  in_data s = true → sh_addralign s = 0 → load m (sh_data s) (sh_size s) = Ret contents →
  m !! p_blk buf = Some l → p_off buf = 0 →
  0 < A → A + Z.of_nat (length l) ≤ ULONG_MAX →
  place_sections m buf A data_addr bss_addr (s :: rest) = UB "write outside an object".
Proof.
  intros Hs Ha Hc Hl Hb HA Hm. cbn [place_sections].
  destruct (section_cases s) as [(_ & ? & _) | [(-> & -> & _) | (_ & _ & ? & _)]];
    [congruence | | congruence].
  cbn [negb]. cbv zeta. rewrite Ha, Hc, bind_Ret_l.
  assert (∀ x, align_up x 0 = 0) as ->.
  { intros x. unfold align_up. change (notw ulong_bits (0 - 1)) with (Z.land 0 (Z.ones ulong_bits)).
    by rewrite Z.land_0_l, Z.land_0_r. }
  assert (ul (0 - A) = 2 ^ ulong_bits - A) as ->.
  { unfold ul, ULONG_MAX in *. rewrite <- (Z.mod_add _ 1) by lia. rewrite Z.mod_small by lia. ring. }
  unfold store, write_at. cbn [ptr_add p_blk p_off]. rewrite Hl, Hb.
  unfold ULONG_MAX in Hm. case_if; [ | done]. zbool. lia.
Qed.
End load.

(** C5: on each target a relocation makes the processor reach the symbol: the
    field that it leaves, extended, added to the address of its location or put
    together from two halves as the instructions do, is the symbol's value; on
    ppc the other bits of a branch are kept. *)
Theorem relocations_reach_symbol :
  (∀ m ty loc address value old m',
    load_int (H := i386) m 4 loc = Ret old →
    X86.machine_apply_elf_rel m ty loc address value = Ret m' →
    ∃ new, load_int (H := i386) m' 4 loc = Ret new ∧ i386_relocated ty old new address value) ∧
  (∀ m ty loc address value m', 0 ≤ value < 2 ^ 64 →
    X86_64.machine_apply_elf_rel m ty loc address value = Ret m' →
    x86_64_relocated m' ty loc address value) ∧
  (∀ m ty loc address value old m', 0 ≤ value < 2 ^ 32 →
    load_int (H := ppc) m 4 loc = Ret old →
    PPC.machine_apply_elf_rel m ty loc address value = Ret m' →
    ppc_relocated m' ty loc old address value).
Proof. split; [exact i386_reloc | ]. split; [exact x86_64_reloc | exact ppc_reloc]. Qed.

(** ** The theorems at concrete inputs *)

Module Witness.
#[local] Existing Instance i386.
#[local] Existing Instance machine_i386.

Definition le (n : nat) (z : Z) : list byte := split false n z.

Definition at_file (off : Z) : ptr := {| p_blk := 1; p_off := off |}.

(** The image of a small object: text, symbols, names and relocations. *)
Definition image : list byte :=
  le 4 7 ++ le 4 0 ++
  repeat Byte.x00 16 ++ le 4 1 ++ le 4 4 ++ le 4 4 ++ le 1 0x10 ++ le 1 0 ++ le 2 1 ++
  [Byte.x00; Byte.x78; Byte.x00; Byte.x00] ++
  le 4 0 ++ le 4 0x101.

Definition m0 : mem := {[ 1%positive := image ]}.

Definition section (ty flags size link info align : Z) (data : ptr) : mem_shdr :=
  {| sh_name := 0; sh_type := ty; sh_flags := flags; sh_addr := 0; sh_offset := p_off data;
     sh_size := size; sh_link := link; sh_info := info; sh_addralign := align; sh_entsize := 0;
     sh_data := data |}.

Definition sections : list mem_shdr := [
  section 0 0 0 0 0 0 (at_file 0);
  section 1 6 8 0 0 4 (at_file 0);
  section SHT_SYMTAB 0 32 3 0 4 (at_file 8);
  section 3 0 4 0 0 1 (at_file 40);
  section SHT_REL 0 8 2 1 4 (at_file 44);
  section SHT_NOBITS 2 10 0 0 32 (at_file 0)].

Definition object (l : list mem_shdr) : mem_ehdr := {|
  ei_class := 1; ei_data := 1; e_type := ET_REL; e_machine := EM_386; e_version := 1; e_flags := 0;
  e_phnum := 0; e_shnum := Z.of_nat (length l); e_shstrndx := 0; e_entry := 0; e_phoff := 0;
  e_shoff := 1; e_phdr := None; e_shdr := Some l; e_note := None; rel_addr := 0; rel_size := 0 |}.

Lemma sane_sections : sane_object sections.
Proof.
  repeat (apply Forall_cons_2 || apply Forall_nil_2); try (by intros [=]); intros _;
    (split; [first [by exists 2 | by exists 5] | by vm_compute]).
Defined.

Lemma readable_sections :
  Forall (λ s, in_data s = true → ∃ c, load m0 (sh_data s) (sh_size s) = Ret c) sections.
Proof.
  repeat (apply Forall_cons_2 || apply Forall_nil_2); intros [=]. eexists. by vm_compute.
Defined.

Lemma pc_object_ok : search_ok SegmentsSpec.Witness.pc (object_size sections) (object_align sections) 0.
Proof.
  split; [apply SegmentsSpec.Witness.wf_pc | apply Nat.ltb_lt; reflexivity | ].
  split; [by exists 12 | by vm_compute | by vm_compute | by vm_compute | ].
  repeat (apply Forall_cons_2 || apply Forall_nil_2); by vm_compute.
Defined.

Lemma elf_rel_place_witness :
  search_ok SegmentsSpec.Witness.pc (object_size sections) (object_align sections) 0 ∧
  sane_object sections ∧
  match place_object SegmentsSpec.Witness.pc [] m0 (object sections) sections [] 0 0xffffffff (-1) with
  | Ret (m', _, _, entry) => entry = 0x7fff000 ∧ ∃ buf, m' !! buf = Some (le 4 7 ++ le 4 0)
  | _ => False
  end.
Proof.
  split; [apply pc_object_ok | ]. split; [apply sane_sections | ].
  pose proof (elf_rel_place SegmentsSpec.Witness.pc [] m0 (object sections) sections [] 0 0xffffffff (-1)
    sane_sections ltac:(by vm_compute) readable_sections pc_object_ok ltac:(split; constructor)
    ltac:(lia)) as Hp.
  cbv zeta in Hp. destruct (place_object _ _ _ _ _ _ _ _ _) as [[[[m' h'] segs'] entry] | | | ] eqn:E.
  - vm_compute in E. injection E as <- <- <- <-. split; [done | ]. exists 2%positive. done.
  - vm_compute in E. discriminate E.
  - done.
  - done.
Defined.

Definition load_object : outcome (option (mem * mem_ehdr * list kexec_segment * Z)) :=
  elf_rel_load SegmentsSpec.Witness.pc [] m0 (object sections) [] 0 0xffffffff (-1).

Definition loaded : mem * mem_ehdr :=
  match load_object with Ret (Some (m, h, _, _)) => (m, h) | _ => (m0, object []) end.

Lemma no_bss_target s : is_target sections s → in_bss s = false.
Proof.
  intros (_ & r & Hr & Ht & Hi). unfold sections in Hr. rewrite !elem_of_cons in Hr.
  destruct Hr as [-> | [-> | [-> | [-> | [-> | [-> | []%not_elem_of_nil]]]]]];
    vm_compute in Ht; try (destruct Ht as [Ht | Ht]; discriminate Ht);
    vm_compute in Hi; by injection Hi as <-.
Defined.

Lemma elf_rel_load_confined_witness :
  load_object ≠ Spin ∧ loaded.1 !! 1%positive = Some image ∧
  loaded.1 !! 2%positive = Some (le 4 (7 + 0x7fff000 + 4) ++ le 4 0).
Proof.
  destruct (elf_rel_load_confined SegmentsSpec.Witness.pc [] m0 (object sections) [] 0 0xffffffff (-1))
    as [H1 H2].
  split; [exact H1 | ]. split; [ | by vm_compute].
  unfold loaded, load_object. destruct (elf_rel_load _ _ _ _ _ _ _ _) as [[[[[m' h'] s'] en] | ] | | | ] eqn:E;
    try (vm_compute in E; discriminate E).
  apply (H2 sections m' h' s' en eq_refl no_bss_target eq_refl 1%positive image). done.
Defined.

Definition x : list byte := [Byte.x78].

Definition after_set : outcome mem := elf_rel_set_symbol loaded.1 loaded.2 x (le 4 0x12345678).

Lemma elf_rel_set_get_symbol_witness :
  ∃ m', after_set = Ret m' ∧ elf_rel_get_symbol m' loaded.2 x 4 = Ret (le 4 0x12345678).
Proof.
  destruct after_set as [m' | | | ] eqn:E; try (vm_compute in E; discriminate E).
  exists m'. split; [done | ].
  destruct (e_shdr loaded.2) as [shdrs | ] eqn:Eh; [ | vm_compute in Eh; discriminate Eh].
  assert (∀ p size, symbol_at loaded.1 loaded.2 x p size → names_apart shdrs (p_blk p)) as Hap.
  { intros p size (sym & shdr & Hf & _ & Hs & _ & ->).
    vm_compute in Hf. injection Hf as <-. vm_compute in Hs. injection Hs as <-.
    vm_compute in Eh. injection Eh as <-. intros s Hs Ht. rewrite !elem_of_cons in Hs.
    destruct Hs as [-> | [-> | [-> | [-> | [-> | [-> | []%not_elem_of_nil]]]]]]; try discriminate Ht.
    split; [done | ]. intros t [= <-]. done. }
  unfold after_set in E.
  pose proof (elf_rel_set_get_symbol loaded.1 loaded.2 shdrs x (le 4 0x12345678) m' Eh E Hap) as Hall.
  apply Hall.
Defined.

(** A relocation section for the section after the last one. *)
Definition bad_rel : mem_shdr := section SHT_REL 0 8 2 1 4 (at_file 44).

Lemma elf_rel_index_past_end_witness :
  relocate_section m0 (object [bad_rel; bad_rel]) [bad_rel; bad_rel]
    (section SHT_REL 0 8 1 2 4 (at_file 44)) = UB "read past the section headers".
Proof.
  by apply (elf_rel_index_past_end m0 (object [bad_rel; bad_rel]) [bad_rel; bad_rel]
    (section SHT_REL 0 8 1 2 4 (at_file 44)) [] []).
Defined.

Lemma elf_rel_zero_align_witness :
  place_sections {[ 1%positive := image; 2%positive := repeat Byte.x00 8 ]}
    {| p_blk := 2; p_off := 0 |} 0x10000 0x10000 0x20000 [section 1 2 8 0 0 0 (at_file 0)]
  = UB "write outside an object".
Proof.
  by apply (elf_rel_zero_align {[ 1%positive := image; 2%positive := repeat Byte.x00 8 ]}
    {| p_blk := 2; p_off := 0 |} 0x10000 0x10000 0x20000 (section 1 2 8 0 0 0 (at_file 0)) []
    (take 8 image) (repeat Byte.x00 8)).
Defined.

(** A forward branch on ppc. *)
Definition bl : mem := {[ 1%positive := split true 4 0x48000001 ]}.

Lemma relocations_reach_symbol_witness :
  ∃ m', PPC.machine_apply_elf_rel bl R_PPC_REL24 (at_file 0) 0x1000 0x1234 = Ret m' ∧
    ppc_relocated m' R_PPC_REL24 (at_file 0) 0x48000001 0x1000 0x1234.
Proof.
  destruct (PPC.machine_apply_elf_rel bl R_PPC_REL24 (at_file 0) 0x1000 0x1234) as [m' | | | ] eqn:E;
    try (vm_compute in E; discriminate E).
  exists m'. split; [done | ].
  by apply (proj2 (proj2 relocations_reach_symbol) bl R_PPC_REL24 (at_file 0) 0x1000 0x1234).
Defined.
End Witness.
