(* ===== verification/Kexec.v ===== *)
(** The kexec program of kexec-tools/kexec/kexec.c: reading the kernel's file,
    loading it through one of the architecture's loaders, updating purgatory and
    the sequence of actions of [main].  What an architecture provides is the
    interface [KexecArch]; the system calls and zlib are arguments. *)

From Stdlib Require Import ZArith Lia String.
From stdpp Require Import base tactics list numbers gmap.
From coqutil Require Import Byte.
From S2P Require Import Prelude Words CMem CString Segments Sha256 Purgatory Elf ElfRel.

#[local] Open Scope Z_scope.

(** ** Reading a file *)

Definition EINTR := 4.
Definition EAGAIN := 11.

(** What [read] or [gzread] returns for a request: bytes, or -1 with [errno]. *)
Inductive read_result :=
| Got (bytes : list byte)
| Failed (errno : Z).

Section slurp.

(** A call for a number of bytes, and the file after it. *)
Context {file : Type} (read : file → Z → read_result * file).

(** The loop of [slurp_file], with [buf] what was read so far. *)
Fixpoint read_loop (fuel : nat) (fd : file) (size : Z) (buf : list byte) : outcome (list byte) :=
  match fuel with
  | O => Spin
  | S fuel =>
      let progress := Z.of_nat (length buf) in
      if progress <? size then
        match read fd (size - progress) with
        | (Failed errno, fd) =>
            if (errno =? EINTR) || (errno =? EAGAIN) then read_loop fuel fd size buf
            else Die "read on %s of %ld bytes failed: %s"
        | (Got bytes, fd) => read_loop fuel fd size (buf ++ bytes)
        end
      else Ret buf
  end.

(** [size] is [st_size]; the file is opened, examined and closed without an
    error. *)
Definition slurp_file (fuel : nat) (fd : file) (size : Z) : outcome (list byte) :=
  read_loop fuel fd size [].

(** The loop of [slurp_decompress_file], with [buf] the filled part of the
    [allocated] bytes; [read] is [gzread].  On EINTR and EAGAIN, [continue] jumps
    to the condition of the [do]-loop, which is false. *)
Fixpoint gzread_loop (fuel : nat) (fp : file) (allocated : Z) (buf : list byte)
    : outcome (list byte) :=
  match fuel with
  | O => Spin
  | S fuel =>
      let size := Z.of_nat (length buf) in
      let allocated := if size =? allocated then Z.shiftl allocated 1 else allocated in
      match read fp (allocated - size) with
      | (Failed errno, _) =>
          if (errno =? EINTR) || (errno =? EAGAIN) then Ret buf
          else Die "read on %s of %ld bytes failed: %s"
      | (Got bytes, fp) =>
          if 0 <? Z.of_nat (length bytes) then gzread_loop fuel fp allocated (buf ++ bytes)
          else Ret buf
      end
  end.

Definition slurp_decompress_file (fuel : nat) (fp : file) : outcome (list byte) :=
  gzread_loop fuel fp 65536 [].
End slurp.

(** ** Data (kexec.h) *)

Record kexec_info := {
  segment : list kexec_segment;
  entry : Z;
  rhdr : mem_ehdr
}.

(** A loader: [probe] tells whether it knows the file (a negative result: no) and
    [load] adds the file's segments, given the arguments of the program, the
    memory and the address of the file in it. *)
Record file_type := {
  ft_name : list byte;
  ft_probe : list byte → outcome Z;
  ft_load : layout → list (list byte) → list byte → ptr → mem → kexec_info →
            outcome (Z * mem * kexec_info)
}.

(** What an architecture provides to kexec.c. *)
Class KexecArch `{Arch} := {
  file_types : list file_type;
  arch_compat_trampoline : mem → kexec_info → Z → outcome (option (mem * kexec_info * Z));
  arch_update_purgatory : mem → kexec_info → outcome mem
}.

(** [memset(&info, 0, sizeof(info))] *)
Definition empty_ehdr : mem_ehdr := {|
  ei_class := 0; ei_data := 0; e_type := 0; e_machine := 0; e_version := 0; e_flags := 0;
  e_phnum := 0; e_shnum := 0; e_shstrndx := 0; e_entry := 0; e_phoff := 0; e_shoff := 0;
  e_phdr := None; e_shdr := None; e_note := None; rel_addr := 0; rel_size := 0 |}.

Definition empty_info : kexec_info := {| segment := []; entry := 0; rhdr := empty_ehdr |}.

Definition set_segment (l : list kexec_segment) (i : kexec_info) : kexec_info :=
  {| segment := l; entry := entry i; rhdr := rhdr i |}.

(** Arguments of the system call [kexec_load]. *)
Record kexec_load_args := { kl_entry : Z; kl_segments : list kexec_segment; kl_flags : Z }.

Section kexec.
Context `{KexecArch}.

(** ** Purgatory *)

(** The bytes of [region]: a pointer and an [unsigned long] each. *)
Definition region_bytes (r : sha256_region) : list byte :=
  let n := Z.to_nat (ulong_bits / 8) in split host_be n (start r) ++ split host_be n (len r).

Definition update_purgatory (m : mem) (info : kexec_info) (ctx : sha256_context) : outcome mem :=
  match e_shdr (rhdr info) with
  | None => Ret m
  | Some _ =>
      m ← arch_update_purgatory m info;
      '(region, digest) ← purgatory_digest m (rel_addr (rhdr info)) (segment info) ctx;
      m ← elf_rel_set_symbol m (rhdr info) (bs "sha256_regions") (concat (map region_bytes region));
      elf_rel_set_symbol m (rhdr info) (bs "sha256_digest") digest
  end.

(** ** Choosing a loader *)

(** The first loader of a name. *)
Definition type_named (name : list byte) : option file_type :=
  snd <$> list_find (λ t, strcmp name (ft_name t) = 0) file_types.

(** The loop that tries every loader. *)
Fixpoint guess_type (types : list file_type) (kernel_buf : list byte) : outcome (option file_type) :=
  match types with
  | [] => Ret None
  | t :: types =>
      r ← ft_probe t kernel_buf;
      if 0 <=? r then Ret (Some t) else guess_type types kernel_buf
  end.

(** The loader that [my_load] uses, or [None] when it gives up. *)
Definition choose_type (type : option (list byte)) (kernel_buf : list byte)
    : outcome (option file_type) :=
  match type with
  | Some name =>
      match type_named name with
      | None => Ret None
      | Some t =>
          r ← ft_probe t kernel_buf;
          if r <? 0 then
            _ ← guess_type file_types kernel_buf;
            Ret None
          else Ret (Some t)
      end
  | None => guess_type file_types kernel_buf
  end.

(** ** Loading a kernel *)

(** The result, the memory and the arguments of the system call if it was made;
    [slurped] is the result of [slurp_decompress_file], [ranges] that of
    [get_memory_ranges] and [kexec_load] the system call. *)
Definition my_load (kexec_load : mem → kexec_load_args → Z) (ctx : sha256_context)
    (slurped : outcome (list byte)) (ranges : option (list memory_range))
    (mem_min mem_max : Z) (type : option (list byte)) (fileind : Z) (argv : list (list byte))
    (m : mem) (kexec_flags : Z) : outcome (Z * option (mem * kexec_load_args)) :=
  if Z.of_nat (length argv) - fileind <=? 0 then Ret (-1, None)
  else
    kernel_buf ← slurped;
    match ranges with
    | None => Ret (-1, None)
    | Some ranges =>
        let lay := {| memory_ranges := ranges; Segments.mem_min := mem_min;
                      Segments.mem_max := mem_max |} in
        let '(m, buf) := alloc m kernel_buf in
        t ← choose_type type kernel_buf;
        match t with
        | None => Ret (-1, None)
        | Some t =>
            '(r, m, info) ← ft_load t lay argv kernel_buf buf m empty_info;
            if r <? 0 then Ret (-1, None)
            else
              tramp ← arch_compat_trampoline m info kexec_flags;
              match tramp with
              | None => Ret (-1, None)
              | Some (m, info, kexec_flags) =>
                  if negb (forallb (valid_memory_segment lay) (segment info)) then Ret (-1, None)
                  else
                    let '(r, sorted) := sort_segments (segment info) in
                    if r <? 0 then Ret (-1, None)
                    else
                      let info := set_segment sorted info in
                      m ← update_purgatory m info ctx;
                      let args := {| kl_entry := entry info; kl_segments := segment info;
                                     kl_flags := kexec_flags |} in
                      mret (kexec_load m args, Some (m, args))
              end
        end
    end.
End kexec.

(** ** The program *)

Definition OPT_HELP := 104.
Definition OPT_VERSION := 118.
Definition OPT_FORCE := 102.
Definition OPT_NOIFDOWN := 120.
Definition OPT_EXEC := 101.
Definition OPT_LOAD := 108.
Definition OPT_UNLOAD := 117.
Definition OPT_TYPE := 116.
Definition OPT_PANIC := 112.
Definition OPT_MEM_MIN := 256.
Definition OPT_MEM_MAX := 257.
Definition KEXEC_ON_CRASH := 1.

Record options := {
  do_load : bool; do_exec : bool; do_shutdown : bool; do_sync : bool; do_ifdown : bool;
  do_unload : bool; kexec_flags : Z; opt_type : option (list byte);
  opt_mem_min : Z; opt_mem_max : Z
}.

Section main.
Context `{Arch}.

Definition default_options : options := {|
  do_load := true; do_exec := false; do_shutdown := true; do_sync := true; do_ifdown := false;
  do_unload := false; kexec_flags := 0; opt_type := None;
  opt_mem_min := 0; opt_mem_max := ULONG_MAX |}.

(** One iteration of the loop over the options: the new options, or the exit
    status with which [main] returns. *)
Definition option_step (o : options) (opt : Z) (optarg : list byte) : options + Z :=
  if (opt =? OPT_HELP) || (opt =? OPT_VERSION) then inr 0
  else if opt =? OPT_NOIFDOWN then
    inl {| do_load := do_load o; do_exec := do_exec o; do_shutdown := do_shutdown o;
           do_sync := do_sync o; do_ifdown := false; do_unload := do_unload o;
           kexec_flags := kexec_flags o; opt_type := opt_type o;
           opt_mem_min := opt_mem_min o; opt_mem_max := opt_mem_max o |}
  else if opt =? OPT_FORCE then
    inl {| do_load := true; do_exec := true; do_shutdown := false;
           do_sync := true; do_ifdown := true; do_unload := do_unload o;
           kexec_flags := kexec_flags o; opt_type := opt_type o;
           opt_mem_min := opt_mem_min o; opt_mem_max := opt_mem_max o |}
  else if opt =? OPT_LOAD then
    inl {| do_load := true; do_exec := false; do_shutdown := false;
           do_sync := do_sync o; do_ifdown := do_ifdown o; do_unload := do_unload o;
           kexec_flags := kexec_flags o; opt_type := opt_type o;
           opt_mem_min := opt_mem_min o; opt_mem_max := opt_mem_max o |}
  else if opt =? OPT_UNLOAD then
    inl {| do_load := false; do_exec := do_exec o; do_shutdown := false;
           do_sync := false; do_ifdown := do_ifdown o; do_unload := true;
           kexec_flags := kexec_flags o; opt_type := opt_type o;
           opt_mem_min := opt_mem_min o; opt_mem_max := opt_mem_max o |}
  else if opt =? OPT_EXEC then
    inl {| do_load := false; do_exec := true; do_shutdown := false;
           do_sync := true; do_ifdown := true; do_unload := do_unload o;
           kexec_flags := kexec_flags o; opt_type := opt_type o;
           opt_mem_min := opt_mem_min o; opt_mem_max := opt_mem_max o |}
  else if opt =? OPT_TYPE then
    inl {| do_load := do_load o; do_exec := do_exec o; do_shutdown := do_shutdown o;
           do_sync := do_sync o; do_ifdown := do_ifdown o; do_unload := do_unload o;
           kexec_flags := kexec_flags o; opt_type := Some optarg;
           opt_mem_min := opt_mem_min o; opt_mem_max := opt_mem_max o |}
  else if opt =? OPT_PANIC then
    inl {| do_load := true; do_exec := false; do_shutdown := false;
           do_sync := false; do_ifdown := do_ifdown o; do_unload := do_unload o;
           kexec_flags := KEXEC_ON_CRASH; opt_type := opt_type o;
           opt_mem_min := opt_mem_min o; opt_mem_max := opt_mem_max o |}
  else if opt =? OPT_MEM_MIN then
    let '(v, endptr) := strtoul optarg in
    if negb (bool_decide (endptr = [])) then inr 1
    else inl {| do_load := do_load o; do_exec := do_exec o; do_shutdown := do_shutdown o;
                do_sync := do_sync o; do_ifdown := do_ifdown o; do_unload := do_unload o;
                kexec_flags := kexec_flags o; opt_type := opt_type o;
                opt_mem_min := v; opt_mem_max := opt_mem_max o |}
  else if opt =? OPT_MEM_MAX then
    let '(v, endptr) := strtoul optarg in
    if negb (bool_decide (endptr = [])) then inr 1
    else inl {| do_load := do_load o; do_exec := do_exec o; do_shutdown := do_shutdown o;
                do_sync := do_sync o; do_ifdown := do_ifdown o; do_unload := do_unload o;
                kexec_flags := kexec_flags o; opt_type := opt_type o;
                opt_mem_min := opt_mem_min o; opt_mem_max := v |}
  else inl o.

(** The options that [getopt_long] finds, in their order. *)
Fixpoint process_options (opts : list (Z * list byte)) (o : options) : options + Z :=
  match opts with
  | [] => inl o
  | (opt, optarg) :: opts =>
      match option_step o opt optarg with
      | inl o => process_options opts o
      | inr status => inr status
      end
  end.
End main.

(** The actions of [main] and how it ends: with an exit status, or because the
    shutdown program took the place of the process. *)
Inductive action :=
| Unload (flags : Z)
| Load (type : option (list byte)) (mem_min mem_max flags : Z)
| Shutdown
| Sync
| Ifdown
| Reboot.

Inductive ending := Exit (status : Z) | Replaced.

(** The results of the actions. *)
Record world := {
  w_arch_options : Z;
  w_unload : Z;
  w_load : option (list byte) → Z → Z → Z → outcome Z;
  w_execv : bool
}.

(** [k_unload] is the system call; [my_shutdown] and [my_exec] return -1 when
    they return. *)
Definition main_actions (w : world) (o : options) : outcome (list action * ending) :=
  let result := w_arch_options w in
  let '(t1, result) := if do_unload o then ([Unload (kexec_flags o)], w_unload w) else ([], result) in
  '(t2, result) ← (if do_load o && (result =? 0)
    then r ← w_load w (opt_type o) (opt_mem_min o) (opt_mem_max o) (kexec_flags o);
         mret ([Load (opt_type o) (opt_mem_min o) (opt_mem_max o) (kexec_flags o)], r)
    else Ret ([], result));
  if (result =? 0) && do_shutdown o then
    Ret (t1 ++ t2 ++ [Shutdown], if w_execv w then Replaced else Exit (-1))
  else
    let t3 := if (result =? 0) && do_sync o then [Sync] else [] in
    let t4 := if (result =? 0) && do_ifdown o then [Ifdown] else [] in
    let '(t5, result) := if (result =? 0) && do_exec o then ([Reboot], -1) else ([], result) in
    Ret (t1 ++ t2 ++ t3 ++ t4 ++ t5, Exit result).

Definition main `{Arch} (w : world) (opts : list (Z * list byte)) : outcome (list action * ending) :=
  match process_options opts default_options with
  | inr status => Ret ([], Exit status)
  | inl o => main_actions w o
  end.
