(* ===== verification/KexecSpec.v ===== *)
(** What Kexec.v does: files are read whole, the system call gets only segments
    that were checked, and the actions of [main] follow from the options. *)

From Stdlib Require Import ZArith Lia String.
From stdpp Require Import base tactics list numbers gmap sorting.
From coqutil Require Import Byte.
From S2P Require Import Prelude Words CMem CString Segments SegmentsSpec Sha256 Purgatory Elf ElfRel Kexec.

#[local] Open Scope Z_scope.

(** ** Files *)

(** A file with the contents [rest] left, whose reads give a part of what was
    asked for, nothing only at the end, and leave the file alone when they fail. *)
Record reads_file {file} (read : file → Z → read_result * file) (rest : file → list byte) : Prop := {
  rf_got fd n bytes fd' : 0 < n → read fd n = (Got bytes, fd') →
    rest fd = bytes ++ rest fd' ∧ Z.of_nat (length bytes) ≤ n ∧ (bytes = [] → rest fd = []);
  rf_failed fd n errno fd' : read fd n = (Failed errno, fd') → rest fd' = rest fd
}.

Definition never_fails {file} (read : file → Z → read_result * file) : Prop :=
  ∀ fd n, ∃ bytes fd', read fd n = (Got bytes, fd').

Section files.
Context {file : Type} (read : file → Z → read_result * file) (rest : file → list byte).
Hypothesis Hread : reads_file read rest.
Hypothesis Hok : never_fails read.

Lemma read_loop_whole fuel : ∀ fd size buf,
  Z.of_nat (length buf) ≤ size ≤ Z.of_nat (length (buf ++ rest fd)) →
  size - Z.of_nat (length buf) < Z.of_nat fuel →
  read_loop read fuel fd size buf = Ret (take (Z.to_nat size) (buf ++ rest fd)).
Proof using Hread Hok.
  induction fuel as [|fuel IH]; intros fd size buf Hs Hf; [lia | ]. cbn [read_loop].
  rewrite length_app in Hs. destruct (Z.ltb_spec (Z.of_nat (length buf)) size) as [Hlt | Hge].
  - destruct (Hok fd (size - Z.of_nat (length buf))) as (bytes & fd' & E). rewrite E.
    destruct (rf_got _ _ Hread fd (size - Z.of_nat (length buf)) bytes fd' ltac:(lia) E) as (Er & Hlen & Hend).
    rewrite Er in Hs |- *. rewrite length_app in Hs. rewrite app_assoc. apply IH.
    + rewrite !length_app. lia.
    + rewrite length_app. destruct bytes as [|c bytes]; [ | simpl; lia].
      rewrite (Hend eq_refl) in Er. simpl in Er. rewrite <- Er in Hs. simpl in Hs. lia.
  - replace (Z.to_nat size) with (length buf) by lia. by rewrite take_app_length.
Qed.

Lemma read_loop_endless fuel : ∀ fd size buf,
  Z.of_nat (length (buf ++ rest fd)) < size → read_loop read fuel fd size buf = Spin.
Proof using Hread Hok.
  induction fuel as [|fuel IH]; intros fd size buf Hs; [done | ]. cbn [read_loop].
  rewrite length_app in Hs. destruct (Z.ltb_spec (Z.of_nat (length buf)) size) as [Hlt | Hge]; [ | lia].
  destruct (Hok fd (size - Z.of_nat (length buf))) as (bytes & fd' & E). rewrite E.
  destruct (rf_got _ _ Hread fd (size - Z.of_nat (length buf)) bytes fd' ltac:(lia) E) as (Er & Hlen & Hend).
  apply IH. rewrite Er, length_app in Hs. rewrite !length_app. lia.
Qed.

Lemma gzread_loop_whole fuel : ∀ fp allocated buf,
  0 < allocated → Z.of_nat (length buf) ≤ allocated → (length (rest fp) < fuel)%nat →
  gzread_loop read fuel fp allocated buf = Ret (buf ++ rest fp).
Proof using Hread Hok.
  induction fuel as [|fuel IH]; intros fp allocated buf Ha Hb Hf; [lia | ]. cbn [gzread_loop]. cbv zeta.
  set (allocated' := if Z.of_nat (length buf) =? allocated then Z.shiftl allocated 1 else allocated).
  assert (0 < allocated' - Z.of_nat (length buf)) as Hroom.
  { unfold allocated'. rewrite Z.shiftl_mul_pow2 by lia. case_if; zbool; lia. }
  destruct (Hok fp (allocated' - Z.of_nat (length buf))) as (bytes & fp' & E). rewrite E.
  destruct (rf_got _ _ Hread _ _ _ _ Hroom E) as (Er & Hlen & Hend).
  destruct bytes as [|c bytes].
  - rewrite (Hend eq_refl). simpl. by rewrite app_nil_r.
  - rewrite Er, length_app in Hf. simpl in Hf.
    cbn [length Nat.add]. destruct (Z.ltb_spec 0 (Z.of_nat (S (length bytes)))); [ | lia].
    rewrite IH; [by rewrite Er, app_assoc | lia | rewrite length_app; simpl in *; lia | lia].
Qed.
End files.

(** ** Checked segments *)

(** The loader that the file and the name on the command line ask for. *)
Definition accepts `{KexecArch} (type : option (list byte)) (kernel_buf : list byte) (t : file_type) : Prop :=
  t ∈ file_types ∧ (∃ r, ft_probe t kernel_buf = Ret r ∧ 0 ≤ r) ∧
  match type with Some name => strcmp name (ft_name t) = 0 | None => True end.

Section my_load.
Context `{KexecArch}.

Lemma guess_type_Some types kernel_buf t :
  guess_type types kernel_buf = Ret (Some t) →
  t ∈ types ∧ ∃ r, ft_probe t kernel_buf = Ret r ∧ 0 ≤ r.
Proof.
  induction types as [|t' types IH]; intros Hg; cbn [guess_type] in Hg; [by inv_ret | ].
  apply bind_Ret in Hg as (r & Hp & Hg). destruct (Z.leb_spec 0 r).
  - apply Ret_inj in Hg. injection Hg as <-. split; [apply list_elem_of_here | by exists r].
  - destruct (IH Hg) as [? ?]. split; [by apply list_elem_of_further | done].
Qed.

Lemma choose_type_Some type kernel_buf t :
  choose_type type kernel_buf = Ret (Some t) → accepts type kernel_buf t.
Proof.
  unfold choose_type, accepts. destruct type as [name | ].
  - unfold type_named. destruct (list_find _ file_types) as [[i t'] | ] eqn:Hf; cbn; [ | done].
    apply list_find_Some in Hf as (Hi & Hn & _). intros Hc.
    apply bind_Ret in Hc as (r & Hp & Hc). destruct (Z.ltb_spec r 0).
    + apply bind_Ret in Hc as (? & _ & Hc). done.
    + apply Ret_inj in Hc. injection Hc as <-.
      split; [by eapply list_elem_of_lookup_2 | ]. split; [by exists r | done].
  - intros [? ?]%guess_type_Some. done.
Qed.

Definition word_segment (s : kexec_segment) : Prop :=
  0 ≤ seg_mem s ≤ ULONG_MAX ∧ 0 ≤ seg_memsz s ≤ ULONG_MAX.

(** A segment that lies in RAM and in the bounds of the command line. *)
Definition segment_in_ram (lay : layout) (s : kexec_segment) : Prop :=
  0 < seg_memsz s ∧ mem_min lay ≤ seg_mem s ∧ seg_mem s + seg_memsz s - 1 ≤ mem_max lay ∧
  in_ram lay (seg_mem s) (seg_mem s + seg_memsz s - 1).

Lemma valid_segment_in_ram lay s :
  wf_layout lay → word_segment s → valid_memory_segment lay s = true → segment_in_ram lay s.
Proof.
  intros Hwf [Hm Hs] Hv. unfold valid_memory_segment in Hv. cbv zeta in Hv.
  assert (0 < seg_memsz s) as Hpos.
  { destruct (decide (seg_memsz s = 0)) as [E | ?]; [ | lia]. exfalso. rewrite E in Hv.
    apply valid_memory_range_spec in Hv as (Hle & _ & _ & Hin); [ | done].
    apply in_ram_bounds in Hin as [_ Hb]; [ | done].
    destruct (decide (seg_mem s = 0)) as [E0 | ?].
    - rewrite E0 in Hb. change (0 + 0 - 1) with (-1) in Hb.
      assert (ul (-1) = ULONG_MAX) as E1; [ | lia].
      unfold ul, ULONG_MAX. pose proof ulong_mod_pos. symmetry. apply (Z.mod_unique _ _ (-1)); lia.
    - rewrite ul_id in Hle by lia. lia. }
  split; [done | ]. apply valid_wrap in Hv; [done | done | done | unfold ULONG_MAX in Hs; lia].
Qed.

(** C4: [my_load] makes the system call only when a loader recognised the file
    (the one named on the command line, when one is) and succeeded; every segment
    it passes lies in RAM within the bounds of the command line, and they are
    sorted and apart; the result is that of the system call.  Without the call
    the result is -1. *)
Theorem my_load_checked kexec_load ctx slurped ranges lo hi type fileind argv m flags r call :
  wf_layout {| memory_ranges := default [] ranges; mem_min := lo; mem_max := hi |} →
  my_load kexec_load ctx slurped ranges lo hi type fileind argv m flags = Ret (r, call) →
  match call with
  | None => r = -1
  | Some (m', args) =>
      r = kexec_load m' args ∧
      (Forall word_segment (kl_segments args) →
       Forall (segment_in_ram {| memory_ranges := default [] ranges; mem_min := lo; mem_max := hi |})
         (kl_segments args) ∧
       StronglySorted before (kl_segments args)) ∧
      ∃ kernel_buf t, slurped = Ret kernel_buf ∧ accepts type kernel_buf t
  end.
Proof.
  intros Hwf. unfold my_load. case_if; [intros Hm; by inv_ret; simplify_eq | ].
  intros Hm. apply bind_Ret in Hm as (kernel_buf & -> & Hm).
  destruct ranges as [ranges | ]; [ | by simplify_eq]. cbn [default] in *. cbv zeta in Hm.
  set (lay := {| memory_ranges := ranges; mem_min := lo; mem_max := hi |}) in *.
  rewrite (surjective_pairing (alloc m kernel_buf)) in Hm.
  apply bind_Ret in Hm as ([t | ] & Ht & Hm); [ | by simplify_eq].
  apply bind_Ret in Hm as ([[r1 m1] info1] & _ & Hm).
  case_if_in Hm; [by simplify_eq | ].
  apply bind_Ret in Hm as ([[[m2 info2] flags2] | ] & _ & Hm); [ | by simplify_eq].
  destruct (forallb (valid_memory_segment lay) (segment info2)) eqn:Hv; cbn [negb] in Hm;
    [ | by simplify_eq].
  destruct (sort_segments (segment info2)) as [r2 sorted] eqn:Hs.
  case_if_in Hm; [by simplify_eq | ].
  apply bind_Ret in Hm as (m3 & _ & Hm). apply Ret_inj in Hm. simplify_eq/=.
  split; [done | ]. split; [ | exists kernel_buf, t; split; [done | by apply choose_type_Some]].
  intros Hw. pose proof (sort_loop (segment info2)) as [Hp _]. unfold sort_segments in Hs.
  assert (sorted = foldl sort_step (segment info2) (upto 0 (length (segment info2)))) as Es
    by congruence.
  rewrite <- Es in Hp.
  assert (Forall (segment_in_ram lay) sorted) as Hin.
  { apply Forall_forall. intros s Hi. rewrite Forall_forall in Hw.
    apply valid_segment_in_ram; [done | by apply Hw | ].
    rewrite forallb_forall in Hv. apply Hv, list_elem_of_In. by rewrite <- Hp. }
  split; [done | ].
  destruct (no_overlap 0 sorted) eqn:Hno; [ | rewrite <- Es, Hno in Hs; simplify_eq; zbool; lia].
  eapply no_overlap_spec; [ | exact Hno]. eapply Forall_impl; [exact Hin | ].
  intros s (? & _ & _ & [? ?]%in_ram_bounds); [ | done]. unfold seg_end. lia.
Qed.
End my_load.

(** ** Options *)

(** The last of the given options decides. *)
Definition last_of (which : list Z) (opts : list (Z * list byte)) : option Z :=
  last (filter (λ opt, opt ∈ which) (map fst opts)).

Definition is_one_of (which : list Z) (o : option Z) : bool :=
  match o with Some opt => bool_decide (opt ∈ which) | None => false end.

Definition given (opt : Z) (opts : list (Z * list byte)) : bool := bool_decide (opt ∈ map fst opts).

(** What the options mean, whatever their order and number. *)
Record options_mean (opts : list (Z * list byte)) (o : options) : Prop := {
  om_exec : do_exec o =
    is_one_of [OPT_FORCE; OPT_EXEC] (last_of [OPT_FORCE; OPT_EXEC; OPT_LOAD; OPT_PANIC] opts);
  om_load : do_load o =
    negb (is_one_of [OPT_UNLOAD; OPT_EXEC]
      (last_of [OPT_FORCE; OPT_EXEC; OPT_LOAD; OPT_PANIC; OPT_UNLOAD] opts));
  om_shutdown : do_shutdown o =
    bool_decide (last_of [OPT_FORCE; OPT_EXEC; OPT_LOAD; OPT_PANIC; OPT_UNLOAD] opts = None);
  om_sync : do_sync o =
    negb (is_one_of [OPT_UNLOAD; OPT_PANIC]
      (last_of [OPT_FORCE; OPT_EXEC; OPT_PANIC; OPT_UNLOAD] opts));
  om_ifdown : do_ifdown o =
    is_one_of [OPT_FORCE; OPT_EXEC] (last_of [OPT_FORCE; OPT_EXEC; OPT_NOIFDOWN] opts);
  om_unload : do_unload o = given OPT_UNLOAD opts;
  om_flags : kexec_flags o = (if given OPT_PANIC opts then KEXEC_ON_CRASH else 0)
}.

Lemma last_of_snoc which opts opt arg :
  last_of which (opts ++ [(opt, arg)]) =
    if bool_decide (opt ∈ which) then Some opt else last_of which opts.
Proof.
  unfold last_of. rewrite map_app, filter_app. cbn [map fst].
  rewrite filter_cons, filter_nil. case_bool_decide.
  - rewrite decide_True by done. by rewrite last_snoc.
  - rewrite decide_False by done. by rewrite app_nil_r.
Qed.

Lemma given_snoc opt opts opt' arg :
  given opt (opts ++ [(opt', arg)]) = given opt opts || (opt =? opt').
Proof.
  unfold given. rewrite map_app. cbn [map fst]. destruct (Z.eqb_spec opt opt') as [-> | Hne].
  - rewrite orb_true_r. apply bool_decide_eq_true. set_solver.
  - rewrite orb_false_r. apply bool_decide_ext. set_solver.
Qed.

Section options.
Context `{Arch}.

Lemma process_options_snoc opts opt arg o :
  process_options (opts ++ [(opt, arg)]) o =
    match process_options opts o with
    | inl o => option_step o opt arg
    | inr status => inr status
    end.
Proof.
  revert o. induction opts as [|[opt' arg'] opts IH]; intros o; cbn [app process_options].
  - by destruct (option_step o opt arg).
  - destruct (option_step o opt' arg'); [apply IH | done].
Qed.

Lemma option_step_mean opts o opt arg o' :
  options_mean opts o → option_step o opt arg = inl o' → options_mean (opts ++ [(opt, arg)]) o'.
Proof.
  intros [He Hl Hsh Hsy Hi Hu Hf] Hs. unfold option_step in Hs.
  split; rewrite ?last_of_snoc, ?given_snoc; revert Hs;
    (destruct (Z.eqb_spec opt OPT_HELP) as [-> | N1]; [done | ];
     destruct (Z.eqb_spec opt OPT_VERSION) as [-> | N2]; [done | ]; cbn [orb];
     repeat match goal with
       | |- (if opt =? ?k then _ else _) = _ → _ =>
           destruct (Z.eqb_spec opt k) as [-> | ?]; [ | ]
       end);
    try (destruct (strtoul arg) as [v endptr]; destruct (negb (bool_decide (endptr = []))));
    intros [= <-]; cbn [do_exec do_load do_shutdown do_sync do_ifdown do_unload kexec_flags];
    try reflexivity; rewrite ?orb_false_r, ?orb_true_r; try done.
  all: try (rewrite (bool_decide_eq_false_2 (opt ∈ _)) by (rewrite !elem_of_cons, elem_of_nil; naive_solver); done).
  all: try (destruct (Z.eqb_spec OPT_UNLOAD opt); [congruence | by rewrite orb_false_r]).
  all: try (destruct (Z.eqb_spec OPT_PANIC opt); [congruence | by rewrite orb_false_r]).
Qed.

Lemma process_options_mean opts o : process_options opts default_options = inl o → options_mean opts o.
Proof.
  revert o. induction opts as [|[opt arg] opts IH] using rev_ind; intros o Ho.
  { simpl in Ho. injection Ho as <-. by split. }
  rewrite process_options_snoc in Ho.
  destruct (process_options opts default_options) as [o1 | ] eqn:E; [ | done].
  eapply option_step_mean; [by apply IH | done].
Qed.
End options.

(** ** Actions *)

Definition rank (a : action) : Z :=
  match a with
  | Unload _ => 0 | Load _ _ _ _ => 1 | Shutdown => 2 | Sync => 3 | Ifdown => 4 | Reboot => 5
  end.

(** The actions that the options ask for, when nothing fails. *)
Definition asked (o : options) : list action :=
  (if do_unload o then [Unload (kexec_flags o)] else []) ++
  (if do_load o then [Load (opt_type o) (opt_mem_min o) (opt_mem_max o) (kexec_flags o)] else []) ++
  (if do_shutdown o then [Shutdown] else
    (if do_sync o then [Sync] else []) ++ (if do_ifdown o then [Ifdown] else []) ++
    (if do_exec o then [Reboot] else [])).

(** The result of an action; [Shutdown] and [Reboot] give -1 when they come back. *)
Definition result_of (w : world) (a : action) : Z :=
  match a with
  | Unload _ => w_unload w
  | Load ty lo hi fl => match w_load w ty lo hi fl with Ret r => r | _ => -1 end
  | Sync | Ifdown => 0
  | Shutdown | Reboot => -1
  end.

(** Actions one after the other, up to the first that fails. *)
Fixpoint perform (w : world) (acts : list action) : list action :=
  match acts with
  | [] => []
  | a :: acts => a :: (if result_of w a =? 0 then perform w acts else [])
  end.

Definition ending_of (w : world) (trace : list action) : ending :=
  match last trace with
  | None => Exit 0
  | Some Shutdown => if w_execv w then Replaced else Exit (-1)
  | Some a => Exit (result_of w a)
  end.

Lemma main_actions_spec w o trace e :
  do_unload o || (w_arch_options w =? 0) = true → main_actions w o = Ret (trace, e) →
  trace = perform w (asked o) ∧ e = ending_of w trace.
Proof.
  intros Ha. unfold main_actions, asked. set (ld := Load _ _ _ _).
  assert (∀ r, w_load w (opt_type o) (opt_mem_min o) (opt_mem_max o) (kexec_flags o) = Ret r →
    result_of w ld = r) as Hld by (intros r E; simpl; by rewrite E).
  destruct (do_unload o); cbn [app perform result_of orb] in Ha |- *;
    [destruct (w_unload w =? 0) eqn:Eu | apply Z.eqb_eq in Ha; rewrite ?Ha];
    destruct (do_load o); cbn [andb]; rewrite ?Eu; change (0 =? 0) with true; cbn [andb].
  all: try (intros Hm; apply bind_Ret in Hm as ([t2 r2] & Hl & Hm);
    apply bind_Ret in Hl as (r & Hl & Hl2); apply Ret_inj in Hl2; simplify_eq/=;
    pose proof (Hld _ Hl) as Hr; revert Hm; cbn [app perform]; rewrite Hr;
    destruct (r2 =? 0) eqn:Er; cbn [andb]).
  all: try (intros Hm; rewrite bind_Ret_l in Hm; revert Hm; rewrite ?Eu; cbn [andb]).
  all: destruct (do_shutdown o), (do_sync o), (do_ifdown o), (do_exec o); cbn [andb app perform result_of];
    rewrite ?Eu; change (0 =? 0) with true; change (-1 =? 0) with false; cbn [andb];
    intros Hm; apply Ret_inj in Hm; injection Hm as <- <-.
  all: split; [done | ]; unfold ending_of; cbn [last]; rewrite ?Hr; zbool; try done; by f_equal.
Qed.

(** The options of the architecture were wrong, and no unload has replaced that result. *)
Lemma main_actions_refused w o trace e :
  do_unload o || (w_arch_options w =? 0) = false → main_actions w o = Ret (trace, e) →
  trace = [] ∧ e = Exit (w_arch_options w).
Proof.
  intros [Hu Ha]%orb_false_iff. unfold main_actions. rewrite Hu, Ha, andb_false_r, bind_Ret_l, Ha.
  cbn [andb app]. by intros [= <- <-].
Qed.

Lemma perform_in w acts a : a ∈ perform w acts → a ∈ acts.
Proof.
  induction acts as [|b acts IH]; [done | ]. cbn [perform]. rewrite !elem_of_cons.
  intros [-> | Hin]; [by left | ]. right. apply IH. destruct (result_of w b =? 0); [done | ].
  by apply not_elem_of_nil in Hin.
Qed.

(** In a run of actions, those before one that is performed succeeded. *)
Lemma perform_before w acts a b :
  a ∈ perform w acts → b ∈ perform w acts → rank b < rank a →
  StronglySorted (λ x y, rank x < rank y) acts → result_of w b = 0.
Proof.
  intros Ha Hb Hr Hs. induction Hs as [|c acts Hs IH Hc]; [by apply not_elem_of_nil in Ha | ].
  cbn [perform] in Ha, Hb. rewrite elem_of_cons in Ha, Hb.
  destruct (Z.eqb_spec (result_of w c) 0) as [E | E].
  - destruct Ha as [-> | Ha].
    + destruct Hb as [-> | Hb]; [lia | ]. apply perform_in in Hb.
      rewrite Forall_forall in Hc. specialize (Hc b Hb). simpl in Hc. lia.
    + destruct Hb as [-> | Hb]; [done | by apply IH].
  - destruct Ha as [-> | Ha]; [ | by apply not_elem_of_nil in Ha].
    destruct Hb as [-> | Hb]; [lia | by apply not_elem_of_nil in Hb].
Qed.

(** Where the last action is reached, all are done. *)
Lemma perform_all w acts a :
  StronglySorted (λ x y, rank x < rank y) acts → Reboot ∈ perform w acts → a ∈ acts → a ∈ perform w acts.
Proof.
  induction 1 as [|c acts Hs IH Hc]; [done | ]. cbn [perform]. rewrite !elem_of_cons.
  intros Hr [-> | Ha]; [by left | ]. right.
  destruct Hr as [<- | Hr].
  - rewrite Forall_forall in Hc. specialize (Hc a Ha). by destruct a.
  - destruct (result_of w c =? 0); [by apply IH | by apply not_elem_of_nil in Hr].
Qed.

Lemma asked_sorted o : StronglySorted (λ x y, rank x < rank y) (asked o).
Proof.
  unfold asked. destruct (do_unload o), (do_load o), (do_shutdown o), (do_sync o), (do_ifdown o), (do_exec o);
    cbn [app]; repeat (apply SSorted_cons || apply SSorted_nil); repeat constructor.
Qed.

(** C19: for any options, in any order and number: each mode follows from the last
    option that sets it; the actions are done in the order unload, load, shutdown,
    sync, ifdown, reboot, each only after those before it gave 0; the exit
    status is that of the last one.  When the options of the architecture are refused and no
    unload is asked for, nothing is done.  The reboot into the new kernel is reached
    only when the last of -f, -e, -l and -p is -f or -e, never together with the
    shutdown program, and a load or an unload that was asked for is done before it and gave 0; with
    -e alone there is no load.  With -h, -v or a bad address nothing is done. *)
Theorem main_performs `{Arch} w opts :
  (∀ status, process_options opts default_options = inr status →
    main w opts = Ret ([], Exit status)) ∧
  ∀ o trace e, process_options opts default_options = inl o → main w opts = Ret (trace, e) →
    options_mean opts o ∧
    (if do_unload o || (w_arch_options w =? 0) then trace = perform w (asked o) ∧ e = ending_of w trace
     else trace = [] ∧ e = Exit (w_arch_options w)) ∧
    (Reboot ∈ trace →
      (is_one_of [OPT_FORCE; OPT_EXEC] (last_of [OPT_FORCE; OPT_EXEC; OPT_LOAD; OPT_PANIC] opts) = true) ∧
      (Shutdown ∉ trace) ∧ (∀ a, a ∈ asked o → a ∈ trace) ∧
      ∀ a, a ∈ trace → a ≠ Reboot → result_of w a = 0).
Proof.
  unfold main. split; [by intros status -> | ]. intros o trace e Ho. rewrite Ho. intros Hm.
  pose proof (process_options_mean opts o Ho) as Hom. split; [done | ].
  destruct (do_unload o || (w_arch_options w =? 0)) eqn:Ha.
  2:{ destruct (main_actions_refused w o trace e Ha Hm) as [-> ->]. split; [done | by intros ?%not_elem_of_nil]. }
  destruct (main_actions_spec w o trace e Ha Hm) as [-> ->]. split; [done | ]. intros Hr.
  assert (∀ a, a ∈ perform w (asked o) → a ≠ Reboot → result_of w a = 0) as Hall.
  { intros a Hin Hne. apply (perform_before w (asked o) Reboot a); [done | done | | apply asked_sorted].
    destruct a; simpl; done || lia. }
  split; [ | split; [ | split; [ | done]]].
  - rewrite <- (om_exec _ _ Hom). apply perform_in in Hr. unfold asked in Hr.
    destruct (do_exec o); [done | ]. exfalso. rewrite !elem_of_app in Hr.
    destruct (do_unload o), (do_load o), (do_shutdown o), (do_sync o), (do_ifdown o);
      rewrite ?elem_of_app, ?elem_of_cons, ?elem_of_nil in Hr; naive_solver.
  - intros Hs. specialize (Hall Shutdown Hs ltac:(done)). done.
  - intros a. by apply perform_all; [apply asked_sorted | ].
Qed.

(** when reads do not fail, [slurp_file] returns the first [size] bytes of a
    file that has as many, and never ends on one that became shorter; and
    [slurp_decompress_file] returns the whole file, of any length. *)
Theorem slurp_whole {file} (read : file → Z → read_result * file) rest fd size :
  reads_file read rest → never_fails read → 0 ≤ size →
  (size ≤ Z.of_nat (length (rest fd)) → ∀ fuel, size < Z.of_nat fuel →
    slurp_file read fuel fd size = Ret (take (Z.to_nat size) (rest fd))) ∧
  (Z.of_nat (length (rest fd)) < size → ∀ fuel, slurp_file read fuel fd size = Spin) ∧
  (∀ fuel, (length (rest fd) < fuel)%nat → slurp_decompress_file read fuel fd = Ret (rest fd)).
Proof.
  intros Hr Hok Hs. unfold slurp_file, slurp_decompress_file. split; [ | split].
  - intros Hle fuel Hf. apply (read_loop_whole read rest Hr Hok fuel fd size []); simpl; lia.
  - intros Hlt fuel. by apply (read_loop_endless read rest Hr Hok).
  - intros fuel Hf. apply (gzread_loop_whole read rest Hr Hok fuel fd 65536 []); simpl; lia.
Qed.

(** when a read of [slurp_decompress_file] is interrupted by a signal, the
    part read so far is returned as the whole file. *)
Theorem slurp_decompress_truncates {file} (read : file → Z → read_result * file) rest fp bytes fp' fp'' :
  reads_file read rest →
  read fp 65536 = (Got bytes, fp') → bytes ≠ [] → Z.of_nat (length bytes) < 65536 →
  read fp' (65536 - Z.of_nat (length bytes)) = (Failed EINTR, fp'') → rest fp'' ≠ [] →
  ∃ lost, rest fp = bytes ++ lost ∧ lost ≠ [] ∧
    ∀ fuel, (2 ≤ fuel)%nat → slurp_decompress_file read fuel fp = Ret bytes.
Proof.
  intros Hr H1 Hne Hlt H2 Hrest. exists (rest fp').
  split; [by eapply (rf_got _ _ Hr fp 65536) | ]. split; [by rewrite <- (rf_failed _ _ Hr _ _ _ _ H2) | ].
  intros [|[|fuel]] Hf; [lia | lia | ]. unfold slurp_decompress_file. cbn [gzread_loop]. cbv zeta.
  change (Z.of_nat (@length byte []) =? 65536) with false. cbv iota.
  change (65536 - Z.of_nat (@length byte [])) with 65536. rewrite H1. cbn [app].
  destruct bytes as [|c bytes]; [done | ]. set (l := c :: bytes) in *.
  destruct (Z.ltb_spec 0 (Z.of_nat (length l))); [ | simpl in *; lia].
  destruct (Z.eqb_spec (Z.of_nat (length l)) 65536); [lia | ]. by rewrite H2.
Qed.

(** ** The theorems at concrete inputs *)

Module Witness.
#[local] Existing Instance i386.

(** A file read three bytes at a time. *)
Definition chunk (fd : list byte) (n : Z) : read_result * list byte :=
  let k := Z.to_nat (3 `min` n) in (Got (take k fd), drop k fd).

Lemma chunk_reads : reads_file chunk id.
Proof.
  split; [ | done]. intros fd n bytes fd' Hn [= <- <-]. unfold id.
  split; [by rewrite take_drop | ].
  rewrite length_take. split; [lia | ]. intros E. destruct fd as [|c fd]; [done | ].
  replace (Z.to_nat (3 `min` n)) with (S (Z.to_nat (2 `min` (n - 1)))) in E by lia. done.
Defined.

Lemma chunk_ok : never_fails chunk.
Proof. intros fd n. eexists _, _. reflexivity. Defined.

Definition hello : list byte := bs "hello, world".

Lemma slurp_whole_witness :
  slurp_file chunk 20 hello 12 = Ret hello ∧ slurp_decompress_file chunk 20 hello = Ret hello.
Proof.
  destruct (slurp_whole chunk id hello 12 chunk_reads chunk_ok ltac:(done)) as (H1 & _ & H2).
  split; [apply H1; by vm_compute | apply H2, Nat.ltb_lt; reflexivity].
Defined.

(** The same file, with a signal before each second read. *)
Definition interrupted (fd : list byte * bool) (n : Z) : read_result * (list byte * bool) :=
  if fd.2 then (Failed EINTR, (fd.1, false))
  else let '(r, rest) := chunk fd.1 n in (r, (rest, true)).

Lemma interrupted_reads : reads_file interrupted fst.
Proof.
  split.
  - intros [fd b] n bytes fd' Hn. unfold interrupted. destruct b; cbn [fst snd]; [done | ].
    destruct (chunk fd n) as [r rest] eqn:Ec. intros E. injection E as -> <-. cbn [fst].
    by apply (rf_got _ _ chunk_reads fd n).
  - intros [fd b] n errno fd'. unfold interrupted. destruct b; cbn [fst snd]; [ | done].
    intros E. by injection E as _ <-.
Defined.

Lemma slurp_decompress_truncates_witness :
  slurp_decompress_file interrupted 20 (hello, false) = Ret (bs "hel").
Proof.
  destruct (slurp_decompress_truncates interrupted fst (hello, false) (bs "hel")
    (bs "lo, world", true) (bs "lo, world", false) interrupted_reads) as (lost & _ & _ & Hf);
    [done.. | apply Hf; lia].
Defined.

(** A loader that puts the file at the address 1M. *)
Definition raw : file_type := {|
  ft_name := bs "raw";
  ft_probe kernel_buf := Ret 0;
  ft_load lay argv kernel_buf buf m info :=
    segs ← add_segment lay (segment info) buf (Z.of_nat (length kernel_buf)) 0x100000
             (Z.of_nat (length kernel_buf));
    mret (0, m, set_segment segs info) |}.

Definition raw_arch : KexecArch := {|
  file_types := [raw];
  arch_compat_trampoline m info flags := Ret (Some (m, info, flags));
  arch_update_purgatory m info := Ret m |}.
#[local] Existing Instance raw_arch.

Definition ctx : sha256_context :=
  {| total0 := 7; total1 := 7; state := []; buffer := replicate 64 Byte.xff |}.

Definition load_hello (lo : Z) : outcome (Z * option (mem * kexec_load_args)) :=
  my_load (λ _ _, 0) ctx (Ret hello) (Some (memory_ranges SegmentsSpec.Witness.pc)) lo ULONG_MAX
    (Some (bs "raw")) 1 [bs "kexec"; bs "vmlinuz"] ∅ 0.

Lemma my_load_checked_witness :
  ∃ m args, load_hello 0 = Ret (0, Some (m, args)) ∧
    StronglySorted before (kl_segments args) ∧ length (kl_segments args) = 1%nat.
Proof.
  destruct (load_hello 0) as [[r [[m args] | ]] | | | ] eqn:E; try (vm_compute in E; discriminate E).
  pose proof (my_load_checked (λ _ _, 0) ctx (Ret hello) (Some (memory_ranges SegmentsSpec.Witness.pc))
    0 ULONG_MAX (Some (bs "raw")) 1 [bs "kexec"; bs "vmlinuz"] ∅ 0 r (Some (m, args))
    SegmentsSpec.Witness.wf_pc E) as (Hr & Hs & _).
  exists m, args. split; [by rewrite Hr | ].
  assert (kl_segments args = [{| seg_buf := {| p_blk := 1; p_off := 0 |}; seg_bufsz := 12;
    seg_mem := 0x100000; seg_memsz := 0x1000 |}]) as Ea by (vm_compute in E; by simplify_eq).
  split; [ | by rewrite Ea]. apply Hs. rewrite Ea. apply Forall_cons_2; [ | constructor].
  by vm_compute.
Defined.

(** kexec -p -t raw -f vmlinuz: the load is for use on panic, and the new kernel is
    started at once. *)
Definition opts : list (Z * list byte) := [(OPT_PANIC, []); (OPT_TYPE, bs "raw"); (OPT_FORCE, [])].

Definition good_world : world :=
  {| w_arch_options := 0; w_unload := 0; w_load _ _ _ _ := Ret 0; w_execv := true |}.

Lemma main_performs_witness :
  ∃ e, main good_world opts =
    Ret ([Load (Some (bs "raw")) 0 ULONG_MAX KEXEC_ON_CRASH; Sync; Ifdown; Reboot], e) ∧
    is_one_of [OPT_FORCE; OPT_EXEC] (last_of [OPT_FORCE; OPT_EXEC; OPT_LOAD; OPT_PANIC] opts) = true.
Proof.
  destruct (process_options opts default_options) as [o | ] eqn:Eo; [ | vm_compute in Eo; discriminate Eo].
  destruct (main good_world opts) as [[trace e] | | | ] eqn:E; try (vm_compute in E; discriminate E).
  destruct (proj2 (main_performs good_world opts) o trace e Eo E) as (_ & _ & Hr).
  assert (trace = [Load (Some (bs "raw")) 0 ULONG_MAX KEXEC_ON_CRASH; Sync; Ifdown; Reboot]) as Et
    by (vm_compute in E; by simplify_eq).
  exists e. split; [by rewrite Et | ]. apply Hr. rewrite Et. set_solver.
Defined.
End Witness.
