(* ===== verification/KexecX86.v ===== *)
(** kexec on i386: the memory map of /proc/iomem, the options for purgatory's
    console, the trampoline to a 64-bit kernel and purgatory's variables, of
    kexec-tools/kexec/arch/i386/kexec-x86.c. *)

From Stdlib Require Import ZArith Lia String.
From stdpp Require Import base tactics list numbers gmap.
From coqutil Require Import Byte.
From S2P Require Import Prelude Words CMem CString Segments Sha256 Purgatory Elf ElfRel ElfRelSpec Kexec.

#[local] Open Scope Z_scope.

Section x86.
Context `{Machine}.

(** ** Hexadecimal numbers *)

Fixpoint skip_spaces (s : list byte) : list byte :=
  match s with c :: s' => if isspace c then skip_spaces s' else s | [] => [] end.

Definition strip_sign (s : list byte) : bool * list byte :=
  match s with
  | Byte.x2d :: s => (true, s)
  | Byte.x2b :: s => (false, s)
  | _ => (false, s)
  end.

Definition strip_0x (s : list byte) : list byte :=
  match s with
  | Byte.x30 :: (Byte.x78 | Byte.x58) :: s => s
  | _ => s
  end.

(** What [%Lx] of [sscanf] and [strtoul] with base 16 accept: spaces, a sign, 0x,
    digits.  The sign, the magnitude and what follows; [None] without a digit. *)
Definition scan_hex (s : list byte) : option (bool * Z * list byte) :=
  let '(neg, s) := strip_sign (skip_spaces s) in
  let s := strip_0x s in
  let '(v, rest) := digits 16 s 0 in
  if (length rest =? length s)%nat then None else Some (neg, v, rest).

(** [strtoul(s, &end, 16)] *)
Definition strtoul16 (s : list byte) : Z * list byte :=
  match scan_hex s with
  | None => (0, s)
  | Some (neg, v, rest) => (if ULONG_MAX <? v then ULONG_MAX else if neg then ul (- v) else v, rest)
  end.

(** The value that [%Lx] stores. *)
Definition hex_value (neg : bool) (v : Z) : Z :=
  if 2 ^ 64 - 1 <? v then 2 ^ 64 - 1 else if neg then u64 (- v) else v.

(** ** The memory map *)

Definition MAX_MEMORY_RANGES : nat := 64.
Definition MAX_LINE : nat := 160.

(** [sscanf(line, "%Lx-%Lx : %n", &start, &end, &consumed)]: the two values when
    the result is 2, with the rest of the line at [consumed]; that is [None] when
    the format does not match as far as the %n, and [consumed] keeps a value that
    was never set. *)
Definition sscanf_range (line : list byte) : option (Z * Z * option (list byte)) :=
  match scan_hex line with
  | Some (neg1, v1, Byte.x2d :: rest) =>
      match scan_hex rest with
      | Some (neg2, v2, rest) =>
          Some (hex_value neg1 v1, hex_value neg2 v2,
                match skip_spaces rest with
                | Byte.x3a :: rest => Some (skip_spaces rest)
                | _ => None
                end)
      | None => None
      end
  | _ => None
  end.

(** The names that the loop compares with, in their order. *)
Definition range_type (str : list byte) : option Z :=
  let newline := [Byte.x0a] in
  if prefixb (bs "System RAM" ++ newline) str then Some RANGE_RAM
  else if prefixb (bs "reserved" ++ newline) str then Some RANGE_RESERVED
  else if prefixb (bs "ACPI Tables" ++ newline) str then Some RANGE_ACPI
  else if prefixb (bs "ACPI Non-volatile Storage" ++ newline) str then Some RANGE_ACPI_NVS
  else None.

(** One line of the file: the range it adds, if any. *)
Definition iomem_line (line : list byte) : outcome (option memory_range) :=
  match sscanf_range line with
  | None => Ret None
  | Some (_, _, None) => UB "use of consumed, which sscanf did not set"
  | Some (start, e, Some str) =>
      let e := u64 (e + 1) in
      match range_type str with
      | None => Ret None
      | Some ty =>
          let start := if (ty =? RANGE_RAM) && (start <? 0x100) then 0x100 else start in
          Ret (Some {| mr_start := start; mr_end := e; mr_type := ty |})
      end
  end.

(** The loop; a line is not empty, so the length of the file bounds their number. *)
Fixpoint iomem_loop (fuel : nat) (file : list byte) (ranges : list memory_range)
    : outcome (list memory_range) :=
  match fuel with
  | O => Spin
  | S fuel =>
      match fgets MAX_LINE file with
      | None => Ret ranges
      | Some (line, file) =>
          if (MAX_MEMORY_RANGES <=? length ranges)%nat then Ret ranges
          else
            r ← iomem_line line;
            iomem_loop fuel file (match r with Some r => ranges ++ [r] | None => ranges end)
      end
  end.

(** [None]: /proc/iomem cannot be opened, or the result is -1. *)
Definition get_memory_ranges (iomem : option (list byte)) : outcome (option (list memory_range)) :=
  match iomem with
  | None => Ret None
  | Some file => ranges ← iomem_loop (S (length file)) file []; mret (Some ranges)
  end.

(** ** Options *)

Definition OPT_MAX := 258.
Definition OPT_RESET_VGA := OPT_MAX + 0.
Definition OPT_SERIAL := OPT_MAX + 1.
Definition OPT_SERIAL_BAUD := OPT_MAX + 2.
Definition OPT_CONSOLE_VGA := OPT_MAX + 3.
Definition OPT_CONSOLE_SERIAL := OPT_MAX + 4.

Record arch_options := {
  reset_vga : Z; serial_base : Z; serial_baud : Z; console_vga : Z; console_serial : Z
}.

Definition default_arch_options : arch_options :=
  {| reset_vga := 0; serial_base := 0x3f8; serial_baud := 0; console_vga := 0; console_serial := 0 |}.

(** The value of --serial. *)
Definition serial_value (optarg : list byte) : Z :=
  if strcmp optarg (bs "ttyS0") =? 0 then 0x3f8
  else if strcmp optarg (bs "ttyS1") =? 0 then 0x2f8
  else if strncmp optarg (bs "0x") 2 =? 0 then
    let '(value, e) := strtoul16 (drop 2 optarg) in
    if bool_decide (e = []) then value else ULONG_MAX
  else ULONG_MAX.

(** The test of --serial-baud, from left to right: a remainder by 0 is undefined. *)
Definition bad_baud (value : Z) (e : list byte) : outcome bool :=
  if 115200 <? value then Ret true
  else if value =? 0 then UB "division by zero"
  else Ret (negb (115200 `mod` value =? 0) || (value <? 9600) || negb (bool_decide (e = []))).

(** One iteration of the loop; [None] is the result -1. *)
Definition arch_option_step (o : arch_options) (opt : Z) (optarg : list byte)
    : outcome (option arch_options) :=
  if opt =? OPT_RESET_VGA then
    Ret (Some {| reset_vga := 1; serial_base := serial_base o; serial_baud := serial_baud o;
                 console_vga := console_vga o; console_serial := console_serial o |})
  else if opt =? OPT_CONSOLE_VGA then
    Ret (Some {| reset_vga := reset_vga o; serial_base := serial_base o; serial_baud := serial_baud o;
                 console_vga := 1; console_serial := console_serial o |})
  else if opt =? OPT_CONSOLE_SERIAL then
    Ret (Some {| reset_vga := reset_vga o; serial_base := serial_base o; serial_baud := serial_baud o;
                 console_vga := console_vga o; console_serial := 1 |})
  else if opt =? OPT_SERIAL then
    let value := serial_value optarg in
    if 65536 <=? value then Ret None
    else Ret (Some {| reset_vga := reset_vga o; serial_base := value; serial_baud := serial_baud o;
                      console_vga := console_vga o; console_serial := console_serial o |})
  else if opt =? OPT_SERIAL_BAUD then
    let '(value, e) := strtoul optarg in
    bad ← bad_baud value e;
    if (bad : bool) then Ret None
    else Ret (Some {| reset_vga := reset_vga o; serial_base := serial_base o; serial_baud := value;
                      console_vga := console_vga o; console_serial := console_serial o |})
  else Ret (Some o).

(** The options that [getopt_long] finds.  The result is 0 or -1; the options
    before a bad one have taken effect. *)
Fixpoint arch_process_options (opts : list (Z * list byte)) (o : arch_options)
    : outcome (Z * arch_options) :=
  match opts with
  | [] => Ret (0, o)
  | (opt, optarg) :: opts =>
      r ← arch_option_step o opt optarg;
      match r with
      | None => Ret (-1, o)
      | Some o => arch_process_options opts o
      end
  end.

(** ** The trampoline and purgatory's variables *)

Definition KEXEC_ARCH_DEFAULT := Z.shiftl 0 16.
Definition KEXEC_ARCH_X86_64 := Z.shiftl 62 16.

Definition set_entry (e : Z) (i : kexec_info) : kexec_info :=
  {| segment := segment i; entry := e; rhdr := rhdr i |}.

Definition arch_update_purgatory (o : arch_options) (m : mem) (info : kexec_info) : outcome mem :=
  m ← elf_rel_set_symbol m (rhdr info) (bs "reset_vga") (split host_be 1 (reset_vga o));
  m ← elf_rel_set_symbol m (rhdr info) (bs "serial_base") (split host_be 2 (serial_base o));
  m ← elf_rel_set_symbol m (rhdr info) (bs "serial_baud") (split host_be 4 (serial_baud o));
  m ← elf_rel_set_symbol m (rhdr info) (bs "console_vga") (split host_be 1 (console_vga o));
  elf_rel_set_symbol m (rhdr info) (bs "console_serial") (split host_be 1 (console_serial o)).
End x86.

(** ** i386 *)

#[local] Existing Instance i386.
#[local] Existing Instance machine_i386.

(** [machine] is what [uname] says, [None] when it fails. *)
Definition arch_compat_trampoline (machine : option (list byte)) (m : mem) (info : kexec_info)
    (flags : Z) : outcome (option (mem * kexec_info * Z)) :=
  match machine with
  | None => Ret None
  | Some machine =>
      if (strcmp machine (bs "i386") =? 0) || (strcmp machine (bs "i486") =? 0)
         || (strcmp machine (bs "i586") =? 0) || (strcmp machine (bs "i686") =? 0)
      then Ret (Some (m, info, Z.lor flags KEXEC_ARCH_DEFAULT))
      else if strcmp machine (bs "x86_64") =? 0 then
        let flags := Z.lor flags KEXEC_ARCH_X86_64 in
        match e_shdr (rhdr info) with
        | None => Ret None
        | Some _ =>
            m ← elf_rel_set_symbol m (rhdr info) (bs "compat_x86_64_entry32")
                  (split host_be 4 (entry info));
            e ← elf_rel_get_addr m (rhdr info) (bs "compat_x86_64");
            mret (Some (m, set_entry e info, flags))
        end
      else Ret None
  end.

(** i386 as an architecture, for its table of loaders, the options given and the
    machine that [uname] reports. *)
Definition x86_arch (types : list file_type) (o : arch_options) (machine : option (list byte)) : KexecArch := {|
  file_types := types;
  Kexec.arch_compat_trampoline := arch_compat_trampoline machine;
  Kexec.arch_update_purgatory := arch_update_purgatory o |}.
