(* ===== verification/KexecX86Spec.v ===== *)
(** What KexecX86.v does: purgatory's variables, the memory map, the serial
    options. *)

From Stdlib Require Import ZArith Lia String.
From stdpp Require Import base tactics list numbers gmap.
From coqutil Require Import Byte.
From S2P Require Import Prelude Words CMem CString Segments Sha256 Purgatory Elf ElfRel ElfRelSpec ElfRelLoad Kexec KexecX86.

#[local] Open Scope Z_scope.

(** ** Setting several symbols *)

Section symbols.
Context `{Machine}.

Fixpoint set_symbols (m : mem) (h : mem_ehdr) (l : list (list byte * list byte)) : outcome mem :=
  match l with
  | [] => Ret m
  | (name, data) :: l => m ← elf_rel_set_symbol m h name data; set_symbols m h l
  end.

Lemma set_symbols_app m h l k :
  set_symbols m h (l ++ k) = (m ← set_symbols m h l; set_symbols m h k).
Proof.
  revert m. induction l as [|[name data] l IH]; intros m; cbn [app set_symbols]; [done | ].
  destruct (elf_rel_set_symbol m h name data); [ | done..]. rewrite !bind_Ret_l. apply IH.
Qed.

(** Two ranges of memory that do not meet. *)
Definition apart (p : ptr) (n : Z) (q : ptr) (k : Z) : Prop :=
  p_blk p ≠ p_blk q ∨ p_off p + n ≤ p_off q ∨ p_off q + k ≤ p_off p.

(** The symbols, with the sizes, do not overlap. *)
Fixpoint disjoint_symbols (m : mem) (h : mem_ehdr) (l : list (list byte * Z)) : Prop :=
  match l with
  | [] => True
  | (name, n) :: l =>
      (∀ name' k p q, (name', k) ∈ l → symbol_at m h name p n → symbol_at m h name' q k → apart p n q k) ∧
      disjoint_symbols m h l
  end.

Definition sizes (l : list (list byte * list byte)) : list (list byte * Z) :=
  map (λ '(name, data), (name, Z.of_nat (length data))) l.

(** The symbol tables are in none of the sections that hold the symbols. *)
Definition tables_apart (m : mem) (h : mem_ehdr) (shdrs : list mem_shdr) (names : list (list byte)) : Prop :=
  ∀ name p size, name ∈ names → symbol_at m h name p size → names_apart shdrs (p_blk p).

(** *** Deciding it for an object in memory *)

(** Where a symbol is, as a computation. *)
Definition symbol_ptr (m : mem) (h : mem_ehdr) (name : list byte) : option ptr :=
  match elf_rel_find_symbol m h name with
  | Ret (Some sym) =>
      match section_at (default [] (e_shdr h)) (st_shndx sym) with
      | Ret shdr => Some (ptr_add (sh_data shdr) (st_value sym))
      | _ => None
      end
  | _ => None
  end.

Lemma symbol_at_ptr m h name p n : symbol_at m h name p n → symbol_ptr m h name = Some p.
Proof. intros (sym & shdr & Hf & _ & Hs & _ & ->). unfold symbol_ptr. by rewrite Hf, Hs. Qed.

Definition names_apartb (l : list mem_shdr) (b : positive) : bool :=
  forallb (λ s, negb (sh_type s =? SHT_SYMTAB) ||
    (negb (p_blk (sh_data s) =? b)%positive &&
     match l !! Z.to_nat (sh_link s) with
     | Some t => negb (p_blk (sh_data t) =? b)%positive
     | None => true
     end)) l.

Definition tables_apartb (m : mem) (h : mem_ehdr) (shdrs : list mem_shdr) (names : list (list byte)) : bool :=
  forallb (λ name, match symbol_ptr m h name with
                   | Some p => names_apartb shdrs (p_blk p)
                   | None => true
                   end) names.

Lemma tables_apartb_spec m h shdrs names :
  tables_apartb m h shdrs names = true → tables_apart m h shdrs names.
Proof.
  intros Ht name p n Hin Hp%symbol_at_ptr s Hs Hty. unfold tables_apartb in Ht.
  rewrite forallb_forall in Ht. specialize (Ht name). rewrite Hp in Ht.
  unfold names_apartb in Ht. specialize (Ht (proj1 (list_elem_of_In _ _) Hin)).
  rewrite forallb_forall in Ht. specialize (Ht s (proj1 (list_elem_of_In _ _) Hs)). cbv beta in Ht.
  rewrite Hty in Ht. cbn [negb Z.eqb orb] in Ht. apply andb_prop in Ht as [H1 H2].
  split; [by apply Pos.eqb_neq, negb_true_iff | ]. intros t Et. rewrite Et in H2.
  by apply Pos.eqb_neq, negb_true_iff.
Qed.

Fixpoint disjointb (l : list (Z * Z)) : bool :=
  match l with
  | [] => true
  | (p, n) :: l => forallb (λ '(q, k), (p + n <=? q) || (q + k <=? p)) l && disjointb l
  end.

Definition places (m : mem) (h : mem_ehdr) (l : list (list byte * Z)) : list (Z * Z) :=
  map (λ '(name, n), (match symbol_ptr m h name with Some p => p_off p | None => 0 end, n)) l.

Lemma disjointb_spec m h l : disjointb (places m h l) = true → disjoint_symbols m h l.
Proof.
  induction l as [|[name n] l IH]; [done | ]. cbn [places map disjointb]. intros [H1 H2]%andb_prop.
  split; [ | by apply IH]. intros name' k p q Hin Hp%symbol_at_ptr Hq%symbol_at_ptr.
  rewrite forallb_forall in H1. rewrite Hp in H1. right.
  specialize (H1 (p_off q, k)). cbv beta iota in H1.
  assert (((p_off p + n <=? p_off q) || (p_off q + k <=? p_off p)) = true) as Hor.
  { apply H1. apply list_elem_of_In, list_elem_of_fmap. exists (name', k). split; [by rewrite Hq | done]. }
  apply orb_prop in Hor as [Hor%Z.leb_le | Hor%Z.leb_le]; auto.
Qed.

Lemma disjoint_symbols_ext m m' h l :
  (∀ name q n, symbol_at m' h name q n ↔ symbol_at m h name q n) →
  disjoint_symbols m h l → disjoint_symbols m' h l.
Proof.
  intros He. induction l as [|[name n] l IH]; [done | ]. intros [H1 H2]. split; [ | by apply IH].
  intros name' k p q Hin Hp Hq. apply (H1 name' k p q Hin); by apply He.
Qed.

Lemma set_symbols_keep l : ∀ m h shdrs m' p n,
  e_shdr h = Some shdrs → tables_apart m h shdrs (map fst l) → set_symbols m h l = Ret m' →
  (∀ name k q, (name, k) ∈ sizes l → symbol_at m h name q k → apart p n q k) →
  load m' p n = load m p n ∧ ∀ other q k, symbol_at m' h other q k ↔ symbol_at m h other q k.
Proof.
  induction l as [|[name data] l IH]; intros m h shdrs m' p n Hsh Ht Hs Hd; cbn [set_symbols] in Hs.
  { by inv_ret. }
  apply bind_Ret in Hs as (m1 & H1 & Hs).
  destruct (elf_rel_set_symbol_effect m h shdrs name data m1 Hsh H1 (λ q n, Ht name q n (list_elem_of_here _ _))) as ((q & Hq & Hst) & _ & He).
  destruct (IH m1 h shdrs m' p n Hsh) as [Hl Hk]; [ | done | | ].
  - intros other q' k Hin Hq'. apply (Ht other q' k); [by apply list_elem_of_further | by apply He].
  - intros other k q' Hin Hq'. apply (Hd other k q'); [by right | by apply He].
  - split; [ | intros other q' k; by rewrite Hk, He]. rewrite Hl.
    apply (store_load_disjoint _ _ _ _ _ _ Hst).
    destruct (Hd name (Z.of_nat (length data)) q) as [? | [? | ?]]; [by left | done | auto..].
Qed.

Lemma set_symbols_get l : ∀ m h shdrs m' name data,
  e_shdr h = Some shdrs → tables_apart m h shdrs (map fst l) → set_symbols m h l = Ret m' →
  disjoint_symbols m h (sizes l) → (name, data) ∈ l →
  elf_rel_get_symbol m' h name (Z.of_nat (length data)) = Ret data.
Proof.
  induction l as [|[name0 data0] l IH]; intros m h shdrs m' name data Hsh Ht Hs Hd Hin;
    [by apply not_elem_of_nil in Hin | ].
  cbn [set_symbols] in Hs. apply bind_Ret in Hs as (m1 & H1 & Hs).
  destruct (elf_rel_set_symbol_effect m h shdrs name0 data0 m1 Hsh H1 (λ q n, Ht name0 q n (list_elem_of_here _ _)))
    as ((q & Hq & Hst) & _ & He).
  assert (tables_apart m1 h shdrs (map fst l)) as Ht1.
  { intros other q' k Hin' Hq'. apply (Ht other q' k); [by apply list_elem_of_further | by apply He]. }
  destruct Hd as [Hd1 Hd]. apply elem_of_cons in Hin as [[= -> ->] | Hin].
  - destruct (set_symbols_keep l m1 h shdrs m' q (Z.of_nat (length data0)) Hsh Ht1 Hs) as [Hl Hk].
    { intros other k q' Hin Hq'. apply (Hd1 other k q q' Hin Hq). by apply He. }
    rewrite (elf_rel_get_symbol_at m' h name0 _ q) by (by apply Hk, He).
    rewrite Hl. by apply (store_load _ _ _ _ Hst).
  - apply (IH m1 h shdrs m'); try done. by apply (disjoint_symbols_ext m).
Qed.

(** Setting symbols changes only the blocks of the symbols. *)
Lemma set_symbols_block l : ∀ m h shdrs m' b,
  e_shdr h = Some shdrs → tables_apart m h shdrs (map fst l) → set_symbols m h l = Ret m' →
  (∀ name q k, name ∈ map fst l → symbol_at m h name q k → p_blk q ≠ b) → m' !! b = m !! b.
Proof.
  induction l as [|[name data] l IH]; intros m h shdrs m' b Hsh Ht Hs Hb; cbn [set_symbols] in Hs;
    [by inv_ret | ].
  apply bind_Ret in Hs as (m1 & H1 & Hs).
  destruct (elf_rel_set_symbol_effect m h shdrs name data m1 Hsh H1 (λ q n, Ht name q n (list_elem_of_here _ _))) as ((q & Hq & Hst) & _ & He).
  rewrite (IH m1 h shdrs m' b Hsh); [ | | done | ].
  - apply store_Ret in Hst as (l0 & _ & _ & _ & ->). apply lookup_insert_ne.
    eapply Hb; [apply list_elem_of_here | exact Hq].
  - intros other q' k Hin Hq'. apply (Ht other q' k); [by apply list_elem_of_further | by apply He].
  - intros other q' k Hin Hq'. apply (Hb other q' k); [by apply list_elem_of_further | by apply He].
Qed.
End symbols.

(** ** The digest only reads the segments it covers *)

Lemma hash_segments_same `{Arch} (m m' : mem) ra segs : ∀ ctx region j,
  Forall (λ s, seg_mem s ≠ ra → m' !! p_blk (seg_buf s) = m !! p_blk (seg_buf s)) segs →
  hash_segments m' ra segs ctx region j = hash_segments m ra segs ctx region j.
Proof.
  induction segs as [|s segs IH]; intros ctx region j Hs; [done | ].
  apply Forall_cons_1 in Hs as [Hs Hrest]. cbn [hash_segments].
  destruct (Z.eqb_spec (seg_mem s) ra); [by apply IH | ].
  rewrite (load_same_block m m') by auto.
  destruct (load m (seg_buf s) (seg_bufsz s)) as [data | | | ]; [ | done..]. rewrite !bind_Ret_l.
  destruct (sha256_update ctx data) as [ctx1 | | | ]; [ | done..]. rewrite !bind_Ret_l. cbv zeta.
  destruct (hash_nulls _ _ _) as [ctx2 | | | ]; [ | done..]. rewrite !bind_Ret_l.
  destruct (j <? SHA256_REGIONS)%nat; [by apply IH | done].
Qed.

Lemma purgatory_digest_same `{Arch} (m m' : mem) ra segs ctx :
  Forall (λ s, seg_mem s ≠ ra → m' !! p_blk (seg_buf s) = m !! p_blk (seg_buf s)) segs →
  purgatory_digest m' ra segs ctx = purgatory_digest m ra segs ctx.
Proof. intros Hs. unfold purgatory_digest. by rewrite (hash_segments_same m m'). Qed.

(** ** Purgatory's variables *)

Section x86.
#[local] Existing Instance i386.
#[local] Existing Instance machine_i386.

(** The variables of purgatory that kexec sets on i386, with their sizes. *)
Definition purgatory_symbols : list (list byte * Z) :=
  [(bs "reset_vga", 1); (bs "serial_base", 2); (bs "serial_baud", 4); (bs "console_vga", 1);
   (bs "console_serial", 1); (bs "sha256_regions", 64); (bs "sha256_digest", 32)].

Definition option_symbols (o : arch_options) : list (list byte * list byte) :=
  [(bs "reset_vga", split false 1 (reset_vga o)); (bs "serial_base", split false 2 (serial_base o));
   (bs "serial_baud", split false 4 (serial_baud o)); (bs "console_vga", split false 1 (console_vga o));
   (bs "console_serial", split false 1 (console_serial o))].

Lemma bind_Ret_r {A} (m : outcome A) : (m ≫= λ a, Ret a) = m.
Proof. by destruct m. Qed.

Lemma arch_update_purgatory_symbols o m info :
  arch_update_purgatory o m info = set_symbols m (rhdr info) (option_symbols o).
Proof.
  unfold arch_update_purgatory, option_symbols. cbn [set_symbols host_be i386].
  do 4 (destruct (elf_rel_set_symbol _ _ _ _) as [? | | | ]; [rewrite !bind_Ret_l | done..]).
  by rewrite bind_Ret_r.
Qed.

Lemma length_digest m ra segs ctx region digest :
  purgatory_digest m ra segs ctx = Ret (region, digest) → length region = SHA256_REGIONS.
Proof.
  unfold purgatory_digest. intros Hd. apply bind_Ret in Hd as ([c r] & Hh & Hd).
  apply bind_Ret in Hd as ([dg c'] & _ & Hd). apply Ret_inj in Hd. injection Hd as <- <-.
  remember (replicate SHA256_REGIONS {| start := 0; len := 0 |}) as region0 eqn:E.
  assert (length region0 = SHA256_REGIONS) as H0 by (by rewrite E). clear E. revert Hh H0. generalize (sha256_starts ctx) 0%nat region0.
  induction segs as [|s segs IH]; intros c0 j r0 Hh H0; cbn [hash_segments] in Hh; [by simplify_eq | ].
  destruct (seg_mem s =? ra); [by eapply IH | ].
  apply bind_Ret in Hh as (? & _ & Hh). apply bind_Ret in Hh as (? & _ & Hh). cbv zeta in Hh.
  apply bind_Ret in Hh as (? & _ & Hh). destruct (j <? SHA256_REGIONS)%nat; [ | done].
  eapply IH; [exact Hh | ]. by rewrite length_insert.
Qed.

Lemma length_region_bytes (region : list sha256_region) :
  length (concat (map region_bytes region)) = (8 * length region)%nat.
Proof.
  induction region as [|r region IH]; [done | ]. cbn [map concat length]. rewrite length_app, IH.
  unfold region_bytes. cbn [ulong_bits i386]. rewrite length_app, !length_split. 
  change (Z.to_nat (32 / 8)) with 4%nat. lia.
Qed.

(** C28: on i386, when purgatory's symbols do not overlap and its sections hold
    neither its symbol tables nor the segments that the digest covers, then after
    [update_purgatory] every variable of purgatory reads as what kexec meant it to
    be: the options of the command line, and the regions and the digest of the
    segments as they are in the memory that is handed to the system call. *)
Theorem update_purgatory_sets types o machine m info ctx m' shdrs region digest :
  e_shdr (rhdr info) = Some shdrs →
  tables_apart m (rhdr info) shdrs (map fst purgatory_symbols) →
  disjoint_symbols m (rhdr info) purgatory_symbols →
  Forall (λ s, seg_mem s ≠ rel_addr (rhdr info) →
    ∀ name p n, name ∈ map fst purgatory_symbols → symbol_at m (rhdr info) name p n →
      p_blk p ≠ p_blk (seg_buf s)) (segment info) →
  update_purgatory (H0 := x86_arch types o machine) m info ctx = Ret m' →
  purgatory_digest m' (rel_addr (rhdr info)) (segment info) ctx = Ret (region, digest) →
  length digest = 32%nat →
  elf_rel_get_symbol m' (rhdr info) (bs "sha256_digest") 32 = Ret digest ∧
  elf_rel_get_symbol m' (rhdr info) (bs "sha256_regions") 64 = Ret (concat (map region_bytes region)) ∧
  Forall (λ '(name, data), elf_rel_get_symbol m' (rhdr info) name (Z.of_nat (length data)) = Ret data)
    (option_symbols o).
Proof.
  intros Hsh Ht Hd Hap Hu Hdig Hlen. unfold update_purgatory in Hu. rewrite Hsh in Hu.
  apply bind_Ret in Hu as (m1 & H1 & Hu). cbn [x86_arch Kexec.arch_update_purgatory] in H1.
  rewrite arch_update_purgatory_symbols in H1.
  apply bind_Ret in Hu as ([region1 digest1] & Hdig1 & Hu).
  set (last := [(bs "sha256_regions", concat (map region_bytes region1)); (bs "sha256_digest", digest1)]).
  assert (set_symbols m (rhdr info) (option_symbols o ++ last) = Ret m') as Hall.
  { rewrite set_symbols_app, H1, bind_Ret_l. unfold last. cbn [set_symbols].
    apply bind_Ret in Hu as (m2 & E2 & Hu). rewrite E2, bind_Ret_l. by rewrite Hu. }
  assert (map fst (option_symbols o ++ last) = map fst purgatory_symbols) as Hnames by reflexivity.
  assert (∀ s, s ∈ segment info → seg_mem s ≠ rel_addr (rhdr info) →
    m' !! p_blk (seg_buf s) = m !! p_blk (seg_buf s) ∧
    m1 !! p_blk (seg_buf s) = m !! p_blk (seg_buf s)) as Hblk.
  { intros s Hs Hne. pose proof (proj1 (Forall_forall _ _) Hap s Hs Hne) as Hno.
    split.
    - eapply set_symbols_block; [exact Hsh | | exact Hall | ]; by rewrite Hnames.
    - eapply (set_symbols_block (option_symbols o)); [exact Hsh | | exact H1 | ].
      + intros name p n Hin. apply Ht. rewrite <- Hnames, map_app. apply elem_of_app. by left.
      + intros name p n Hin. apply Hno. rewrite <- Hnames, map_app. apply elem_of_app. by left. }
  assert (region1 = region ∧ digest1 = digest) as [-> ->].
  { rewrite (purgatory_digest_same m) in Hdig, Hdig1.
    - rewrite Hdig in Hdig1. by simplify_eq.
    - apply Forall_forall. intros s Hs Hne. by apply Hblk.
    - apply Forall_forall. intros s Hs Hne. by apply Hblk. }
  assert (sizes (option_symbols o ++ last) = purgatory_symbols) as Hsz.
  { unfold last, option_symbols, sizes, purgatory_symbols. cbn [app map].
    rewrite length_region_bytes, (length_digest _ _ _ _ _ _ Hdig), Hlen.
    by rewrite !length_split. }
  assert (∀ name data, (name, data) ∈ option_symbols o ++ last →
    elf_rel_get_symbol m' (rhdr info) name (Z.of_nat (length data)) = Ret data) as Hget.
  { intros name data Hin. eapply set_symbols_get; [exact Hsh | by rewrite Hnames | exact Hall | by rewrite Hsz | exact Hin]. }
  split; [ | split].
  - assert ((bs "sha256_digest", digest) ∈ option_symbols o ++ last) as Hin
      by (apply elem_of_app; right; apply list_elem_of_further, list_elem_of_here).
    specialize (Hget (bs "sha256_digest") digest Hin).
    by rewrite Hlen in Hget.
  - assert ((bs "sha256_regions", concat (map region_bytes region)) ∈ option_symbols o ++ last) as Hin
      by (apply elem_of_app; right; apply list_elem_of_here).
    specialize (Hget (bs "sha256_regions") (concat (map region_bytes region)) Hin).
    by rewrite length_region_bytes, (length_digest _ _ _ _ _ _ Hdig) in Hget.
  - apply Forall_forall. intros [name data] Hin. apply Hget, elem_of_app. by left.
Qed.

(** ** The memory map *)

(** [z] with [w] hexadecimal digits, as the kernel prints it. *)
Fixpoint print_hex (w : nat) (z : Z) : list byte :=
  match w with
  | O => []
  | S w => hex_digit ((z / 16 ^ Z.of_nat w) `mod` 16) :: print_hex w z
  end.

Lemma digits_print w z c rest : ∀ acc, digit c = None →
  digits 16 (print_hex w z ++ c :: rest) acc = (acc * 16 ^ Z.of_nat w + z `mod` 16 ^ Z.of_nat w, c :: rest).
Proof.
  induction w as [|w IH]; intros acc Hc; cbn [print_hex app digits].
  { rewrite Hc. f_equal. change (16 ^ Z.of_nat 0) with 1. rewrite Z.mod_1_r. ring. }
  assert (0 < 16 ^ Z.of_nat w) as Hp by (apply Z.pow_pos_nonneg; lia).
  pose proof (Z.mod_pos_bound (z / 16 ^ Z.of_nat w) 16 ltac:(lia)) as Hd.
  rewrite digit_hex_digit by done.
  destruct (Z.ltb_spec ((z / 16 ^ Z.of_nat w) `mod` 16) 16); [ | lia]. rewrite IH by done. f_equal.
  rewrite Nat2Z.inj_succ, Z.pow_succ_r by lia. rewrite (Z.mul_comm 16 (16 ^ Z.of_nat w)).
  rewrite Z.rem_mul_r by lia. ring.
Qed.

Lemma skip_spaces_digit d s : 0 ≤ d < 16 → skip_spaces (hex_digit d :: s) = hex_digit d :: s.
Proof.
  intros Hd. cbn [skip_spaces].
  pose proof (hex_digit_forall (λ c, negb (isspace c)) d eq_refl Hd) as E. simpl in E.
  by destruct (isspace (hex_digit d)).
Qed.

Lemma strip_sign_digit d s : 0 ≤ d < 16 → strip_sign (hex_digit d :: s) = (false, hex_digit d :: s).
Proof.
  intros Hd. apply sixteen in Hd. simpl in Hd. rewrite !elem_of_cons, elem_of_nil in Hd.
  repeat (destruct Hd as [-> | Hd]; [reflexivity | ]). done.
Qed.

(** Not the x of 0x. *)
Definition not_x (c : byte) : bool := negb (byte_eqb c Byte.x78) && negb (byte_eqb c Byte.x58).

Lemma strip_0x_digit d c s :
  0 ≤ d < 16 → not_x c = true → strip_0x (hex_digit d :: c :: s) = hex_digit d :: c :: s.
Proof.
  intros Hd Hc. assert (c ≠ Byte.x78 ∧ c ≠ Byte.x58) as [H1 H2] by (by split; intros ->; vm_compute in Hc).
  apply sixteen in Hd. simpl in Hd. rewrite !elem_of_cons, elem_of_nil in Hd.
  destruct Hd as [-> | Hd]; [by destruct c | ].
  repeat (destruct Hd as [-> | Hd]; [reflexivity | ]). done.
Qed.

Lemma skip_spaces_repeat k s : skip_spaces (repeat Byte.x20 k ++ s) = skip_spaces s.
Proof. induction k as [|k IH]; [done | exact IH]. Qed.

Lemma scan_hex_print k w z c rest :
  0 ≤ z < 16 ^ Z.of_nat (S w) → digit c = None → not_x c = true →
  scan_hex (repeat Byte.x20 k ++ print_hex (S w) z ++ c :: rest) = Some (false, z, c :: rest).
Proof.
  intros Hz Hc Hx. unfold scan_hex. rewrite skip_spaces_repeat.
  assert (0 ≤ (z / 16 ^ Z.of_nat w) `mod` 16 < 16) as Hd by (apply Z.mod_pos_bound; lia).
  cbn [print_hex app]. rewrite skip_spaces_digit, strip_sign_digit by done.
  assert (strip_0x (hex_digit ((z / 16 ^ Z.of_nat w) `mod` 16) :: print_hex w z ++ c :: rest)
    = print_hex (S w) z ++ c :: rest) as ->.
  { destruct w as [|w']; cbn [print_hex app]; apply strip_0x_digit; try done.
    apply (hex_digit_forall not_x); [reflexivity | apply Z.mod_pos_bound; lia]. }
  rewrite digits_print by done. rewrite length_app. cbn [print_hex length].
  destruct (Nat.eqb_spec (S (length rest)) (S (length (print_hex w z)) + S (length rest))); [lia | ].
  by rewrite Z.mul_0_l, Z.add_0_l, Z.mod_small by done.
Qed.

(** A line of /proc/iomem: nested entries are indented. *)
Record iomem_entry := { ie_indent : nat; ie_start : Z; ie_end : Z; ie_name : list byte }.

Definition print_entry (w : nat) (r : iomem_entry) : list byte :=
  repeat Byte.x20 (ie_indent r) ++ print_hex w (ie_start r) ++ bs "-" ++ print_hex w (ie_end r) ++
  bs " : " ++ ie_name r ++ [newline].

Record wf_entry (w : nat) (r : iomem_entry) : Prop := {
  we_start : 0 ≤ ie_start r < 16 ^ Z.of_nat w;
  we_end : 0 ≤ ie_end r < 16 ^ Z.of_nat w;
  we_name : (newline ∉ ie_name r) ∧ ∃ c name, ie_name r = c :: name ∧ isspace c = false;
  we_length : (length (print_entry w r) < MAX_LINE)%nat
}.

(** What kexec takes from an entry. *)
Definition entry_type (name : list byte) : option Z :=
  if decide (name = bs "System RAM") then Some RANGE_RAM
  else if decide (name = bs "reserved") then Some RANGE_RESERVED
  else if decide (name = bs "ACPI Tables") then Some RANGE_ACPI
  else if decide (name = bs "ACPI Non-volatile Storage") then Some RANGE_ACPI_NVS
  else None.

Definition entry_range (r : iomem_entry) : option memory_range :=
  (λ ty, {| mr_start := if bool_decide (ty = RANGE_RAM) then 0x100 `max` ie_start r else ie_start r;
            mr_end := u64 (ie_end r + 1); mr_type := ty |}) <$> entry_type (ie_name r).

Lemma prefix_line (k name : list byte) :
  newline ∉ k → newline ∉ name → k ++ [newline] `prefix_of` name ++ [newline] → name = k.
Proof.
  intros Hk Hn [rest E]. revert name Hn E. induction k as [|c k IH]; intros [|d name] Hn E; simpl in *.
  - done.
  - injection E as E _. rewrite E in Hn. exfalso. apply Hn, list_elem_of_here.
  - injection E as E _. rewrite E in Hk. exfalso. apply Hk, list_elem_of_here.
  - injection E as E1 E. rewrite E1. rewrite not_elem_of_cons in Hk, Hn.
    f_equal. apply IH; [apply Hk | apply Hn | done].
Qed.

Lemma prefixb_line k name :
  newline ∉ k → newline ∉ name → prefixb (k ++ [newline]) (name ++ [newline]) = bool_decide (name = k).
Proof.
  intros Hk Hn. destruct (prefixb _ _) eqn:E; symmetry.
  - apply bool_decide_eq_true. apply prefixb_spec in E. by apply prefix_line.
  - apply bool_decide_eq_false. intros ->. assert (prefixb (k ++ [newline]) (k ++ [newline]) = true); [ | congruence].
    by apply prefixb_spec.
Qed.

Lemma range_type_line name : newline ∉ name → range_type (name ++ [newline]) = entry_type name.
Proof.
  intros Hn. unfold range_type, entry_type. cbv zeta. fold newline.
  assert (∀ s : list byte, bool_decide (newline ∉ s) = true → newline ∉ s) as Hd
    by (intros s; apply bool_decide_eq_true_1).
  rewrite !prefixb_line by (done || by apply Hd).
  repeat case_bool_decide; repeat case_decide; congruence.
Qed.

Lemma iomem_line_print w r : (w < 16)%nat → wf_entry (S w) r → iomem_line (print_entry (S w) r) = Ret (entry_range r).
Proof.
  intros Hw [Hs He [Hn (c & name & Ename & Hc)] _]. unfold iomem_line, sscanf_range, print_entry.
  change (bs "-") with [Byte.x2d]. change (bs " : ") with [Byte.x20; Byte.x3a; Byte.x20].
  cbn [app]. rewrite (scan_hex_print _ w) by done.
  pose proof (scan_hex_print 0 w (ie_end r) Byte.x20 (Byte.x3a :: Byte.x20 :: ie_name r ++ [newline]) He
    eq_refl eq_refl) as E. cbn [repeat app] in E. rewrite E.
  cbn [skip_spaces]. change (isspace Byte.x20) with true. cbv iota.
  change (isspace Byte.x3a) with false. cbv iota.
  assert (skip_spaces (Byte.x20 :: ie_name r ++ [newline]) = ie_name r ++ [newline]) as ->.
  { cbn [skip_spaces]. change (isspace Byte.x20) with true. cbv iota. rewrite Ename.
    cbn [app skip_spaces]. by rewrite Hc. }
  rewrite range_type_line by done. unfold entry_range.
  destruct (entry_type (ie_name r)) as [ty | ]; [ | done]. cbn [fmap option_fmap option_map].
  assert (∀ v, 0 ≤ v < 16 ^ Z.of_nat (S w) → hex_value false v = v) as Hv.
  { intros v Hv. unfold hex_value. assert (16 ^ Z.of_nat (S w) ≤ 2 ^ 64) as Hp.
    { change (2 ^ 64) with (16 ^ 16). apply Z.pow_le_mono_r; lia. }
    case_if; zbool; lia. }
  rewrite !Hv by done. do 3 f_equal.
  destruct (Z.eqb_spec ty RANGE_RAM) as [-> | Hne]; cbn [andb].
  - rewrite bool_decide_eq_true_2 by done. case_if; zbool; lia.
  - by rewrite bool_decide_eq_false_2.
Qed.

Lemma newline_hex w z : newline ∉ print_hex w z.
Proof.
  induction w as [|w IH]; cbn [print_hex]; [apply not_elem_of_nil | ].
  rewrite not_elem_of_cons. split; [ | done]. intros E.
  pose proof (hex_digit_forall (λ c, negb (byte_eqb c newline)) ((z / 16 ^ Z.of_nat w) `mod` 16) eq_refl
    ltac:(apply Z.mod_pos_bound; lia)) as Hb.
  rewrite <- E, byte_eqb_refl in Hb. done.
Qed.

Lemma fgets_entry w r rest : wf_entry w r →
  fgets MAX_LINE (print_entry w r ++ rest) = Some (print_entry w r, rest).
Proof.
  intros [_ _ [Hn _] Hl]. set (l := repeat Byte.x20 (ie_indent r) ++ print_hex w (ie_start r) ++ bs "-" ++
    print_hex w (ie_end r) ++ bs " : " ++ ie_name r).
  assert (print_entry w r = l ++ [newline]) as E by (unfold print_entry, l; by rewrite <- !app_assoc).
  rewrite E in Hl |- *. rewrite length_app in Hl. cbn [length] in Hl.
  assert (fgets_bytes (MAX_LINE - 1) ((l ++ [newline]) ++ rest) = (l ++ [newline], rest)) as Hf.
  { rewrite <- app_assoc. apply fgets_bytes_line; [ | unfold MAX_LINE in *; lia].
    assert (∀ s : list byte, bool_decide (newline ∉ s) = true → newline ∉ s) as Hd
    by (intros s; apply bool_decide_eq_true_1).
    unfold l. rewrite !not_elem_of_app. split; [ | split; [apply newline_hex | ]].
    - clear. induction (ie_indent r) as [|k IH]; [apply not_elem_of_nil | ].
      cbn [repeat]. apply not_elem_of_cons. split; [done | exact IH].
    - split; [by apply Hd | ]. split; [apply newline_hex | ]. split; [by apply Hd | done]. }
  unfold fgets. rewrite Hf. by destruct l.
Qed.

Lemma iomem_loop_print w entries : (w < 16)%nat → Forall (wf_entry (S w)) entries →
  ∀ fuel ranges, (length entries < fuel)%nat → (length ranges ≤ MAX_MEMORY_RANGES)%nat →
  iomem_loop fuel (concat (map (print_entry (S w)) entries)) ranges =
    Ret (take MAX_MEMORY_RANGES (ranges ++ omap entry_range entries)).
Proof.
  intros Hw Hall. induction Hall as [|r entries Hr Hall IH]; intros [|fuel] ranges Hf Hl;
    simpl in Hf; try lia; cbn [map concat iomem_loop].
  - cbn [fgets omap list_omap]. rewrite app_nil_r. by rewrite take_ge by lia.
  - rewrite fgets_entry by done. cbn [omap list_omap].
    destruct (Nat.leb_spec MAX_MEMORY_RANGES (length ranges)).
    { rewrite take_app_le, take_ge by lia. done. }
    rewrite (iomem_line_print w) by done. rewrite bind_Ret_l.
    destruct (entry_range r) as [m | ].
    + rewrite IH; [ | lia | rewrite length_app; simpl; lia]. by rewrite <- app_assoc.
    + apply IH; lia.
Qed.

(** C34: for a memory map as the kernel prints it (hexadecimal numbers of the same
    width, entries nested or not, any names, lines that fit the buffer)
    [get_memory_ranges] returns the RAM, reserved and ACPI entries in their order,
    up to 64 of them, each with the address after its last byte as its end and RAM
    starting at 0x100 or above. *)
Theorem get_memory_ranges_roundtrip w entries :
  (w < 16)%nat → Forall (wf_entry (S w)) entries →
  get_memory_ranges (Some (concat (map (print_entry (S w)) entries))) =
    Ret (Some (take MAX_MEMORY_RANGES (omap entry_range entries))).
Proof.
  intros Hw Hall. unfold get_memory_ranges.
  rewrite (iomem_loop_print w entries Hw Hall); [done | | simpl; unfold MAX_MEMORY_RANGES; lia].
  apply Nat.lt_succ_r. clear. induction entries as [|r entries IH]; [done | ].
  cbn [map concat length]. rewrite length_app. unfold print_entry at 1.
  rewrite !length_app. cbn [length]. lia.
Qed.

(** an end one past the last byte is what [get_memory_ranges] stores and the
    last byte is what [valid_memory_range] takes it for: of a RAM entry whose
    range is valid, the byte after its last one is accepted as RAM too. *)
Theorem iomem_end_off_by_one w r rest mem_min mem_max lo ranges :
  (w < 8)%nat → Forall (wf_entry (S w)) (r :: rest) → ie_name r = bs "System RAM" →
  ie_end r + 1 ≤ mem_max → mem_max ≤ ULONG_MAX → 0x100 `max` ie_start r ≤ lo ≤ ie_end r + 1 → mem_min ≤ lo →
  get_memory_ranges (Some (concat (map (print_entry (S w)) (r :: rest)))) = Ret (Some ranges) →
  valid_memory_range {| memory_ranges := ranges; mem_min := mem_min; mem_max := mem_max |}
    lo (ie_end r + 1) = true.
Proof.
  intros Hw Hall Hn Hmax Hul Hlo Hmin. unfold get_memory_ranges.
  rewrite (iomem_loop_print w (r :: rest)); [ | lia | done | | simpl; unfold MAX_MEMORY_RANGES; lia].
  2:{ apply Nat.lt_succ_r. clear. induction (r :: rest) as [|r0 entries IH]; [done | ].
      cbn [map concat length]. rewrite length_app. unfold print_entry at 1.
      rewrite !length_app. cbn [length]. lia. }
  rewrite bind_Ret_l. intros Hr. apply Ret_inj in Hr. injection Hr as <-.
  apply Forall_cons_1 in Hall as [[Hs He _ _] _].
  assert (16 ^ Z.of_nat (S w) ≤ 16 ^ 8) as Hp by (apply Z.pow_le_mono_r; lia).
  assert (ULONG_MAX = 0xffffffff) as HU by reflexivity. rewrite HU in *.
  cbn [omap list_omap]. unfold entry_range, entry_type. rewrite Hn, decide_True by done.
  cbn [fmap option_fmap option_map]. rewrite bool_decide_eq_true_2 by done.
  unfold valid_memory_range. cbn [Segments.mem_max Segments.mem_min memory_ranges].
  destruct (Z.ltb_spec (ie_end r + 1) lo); [lia | ].
  destruct (Z.ltb_spec mem_max (ie_end r + 1)); [lia | ].
  destruct (Z.ltb_spec lo mem_min); [lia | ]. cbn [orb].
  cbn [MAX_MEMORY_RANGES app take existsb mr_start mr_end mr_type].
  rewrite (u64_small (ie_end r + 1)) by lia. rewrite !ul_small by (cbn [ulong_bits i386]; lia).
  apply orb_true_iff. left. rewrite !andb_true_iff, !Z.leb_le, Z.eqb_eq. split; [split; [done | lia] | lia].
Qed.

(** ** The serial port *)

(** The divisors of 115200 that are baud rates of at least 9600. *)
Definition baud_rates : list Z := [9600; 11520; 12800; 14400; 19200; 23040; 28800; 38400; 57600; 115200].

Lemma baud_rates_spec v : 9600 ≤ v ≤ 115200 → 115200 `mod` v = 0 ↔ v ∈ baud_rates.
Proof.
  intros Hv. split.
  - intros Hm. apply Z.mod_divide in Hm as [q Hq]; [ | lia].
    assert (1 ≤ q ≤ 12) as Hq12 by nia. unfold baud_rates. rewrite !elem_of_cons.
    assert (q = 1 ∨ q = 2 ∨ q = 3 ∨ q = 4 ∨ q = 5 ∨ q = 6 ∨ q = 7 ∨ q = 8 ∨ q = 9 ∨ q = 10 ∨ q = 11 ∨ q = 12)
      as Hc by lia.
    repeat (destruct Hc as [-> | Hc]; [lia | ]). subst q. lia.
  - unfold baud_rates. rewrite !elem_of_cons, elem_of_nil. intros Hin.
    repeat (destruct Hin as [-> | Hin]; [reflexivity | ]). done.
Qed.

(** --serial-baud is accepted exactly for a number, with nothing after it,
    that is one of the ten divisors of 115200 from 9600 on; but the test divides
    by the number before it compares it, so --serial-baud=0, or a word that is no
    number, divides by zero. *)
Theorem serial_baud_option o optarg v e :
  strtoul optarg = (v, e) →
  (v = 0 → arch_option_step o OPT_SERIAL_BAUD optarg = UB "division by zero") ∧
  (0 < v → ∃ r, arch_option_step o OPT_SERIAL_BAUD optarg = Ret r ∧
     ∀ o', r = Some o' ↔ (v ∈ baud_rates) ∧ e = [] ∧
       o' = {| reset_vga := reset_vga o; serial_base := serial_base o; serial_baud := v;
               console_vga := console_vga o; console_serial := console_serial o |}).
Proof.
  intros Hs. unfold arch_option_step. cbn [OPT_SERIAL_BAUD OPT_RESET_VGA OPT_CONSOLE_VGA
    OPT_CONSOLE_SERIAL OPT_SERIAL OPT_MAX Z.add Z.eqb Pos.eqb Pos.add Pos.succ]. rewrite Hs.
  unfold bad_baud. split.
  - intros ->. done.
  - intros Hv. destruct (Z.ltb_spec 115200 v).
    { eexists. split; [done | ]. intros o'. split; [done | ]. intros (Hin & _). exfalso.
      unfold baud_rates in Hin. rewrite !elem_of_cons, elem_of_nil in Hin. lia. }
    destruct (Z.eqb_spec v 0); [lia | ]. rewrite bind_Ret_l.
    destruct (Z.ltb_spec v 9600).
    { rewrite orb_true_r. eexists. split; [done | ]. intros o'. split; [done | ].
      intros (Hin & _). exfalso. unfold baud_rates in Hin.
      rewrite !elem_of_cons, elem_of_nil in Hin. lia. }
    pose proof (baud_rates_spec v ltac:(lia)) as Hb.
    destruct (Z.eqb_spec (115200 `mod` v) 0), (decide (e = [])) as [-> | He]; cbn [negb orb].
    + rewrite bool_decide_eq_true_2 by done. eexists. split; [done | ]. naive_solver.
    + rewrite bool_decide_eq_false_2 by done. eexists. split; [done | ]. naive_solver.
    + eexists. split; [done | ]. naive_solver.
    + eexists. split; [done | ]. naive_solver.
Qed.
End x86.

(** ** The theorems at concrete inputs *)

Module Witness.
#[local] Existing Instance i386.
#[local] Existing Instance machine_i386.

(** Purgatory's object: the variables in the block 2, the names and the symbols in
    the block 1. *)
Definition le (n : nat) (z : Z) : list byte := split false n z.

Definition offsets : list Z := [0; 2; 4; 8; 9; 16; 80].

Definition strtab : list byte := [Byte.x00] ++ concat (map (λ s, s.1 ++ [Byte.x00]) purgatory_symbols).

Fixpoint symbols (st_name : Z) (l : list (list byte * Z)) (offs : list Z) : list byte :=
  match l, offs with
  | (name, size) :: l, off :: offs =>
      le 4 st_name ++ le 4 off ++ le 4 size ++ le 1 0x10 ++ le 1 0 ++ le 2 1 ++
      symbols (st_name + Z.of_nat (length name) + 1) l offs
  | _, _ => []
  end.

Definition file : list byte := strtab ++ symbols 1 purgatory_symbols offsets.

Definition m0 : mem := {[ 1%positive := file; 2%positive := repeat Byte.xff 112; 3%positive := bs "kernel" ]}.

Definition section (ty size link blk off : Z) : mem_shdr :=
  {| sh_name := 0; sh_type := ty; sh_flags := 0; sh_addr := 0; sh_offset := 0; sh_size := size;
     sh_link := link; sh_info := 0; sh_addralign := 1; sh_entsize := 0;
     sh_data := {| p_blk := Z.to_pos blk; p_off := off |} |}.

Definition shdrs : list mem_shdr :=
  [section 0 0 0 1 0; section 1 112 0 2 0;
   section SHT_SYMTAB (16 * 7) 3 1 (Z.of_nat (length strtab)); section 3 (Z.of_nat (length strtab)) 0 1 0].

Definition purgatory_ehdr : mem_ehdr := {|
  ei_class := 1; ei_data := 1; e_type := 1; e_machine := EM_386; e_version := 1; e_flags := 0;
  e_phnum := 0; e_shnum := 4; e_shstrndx := 0; e_entry := 0; e_phoff := 0; e_shoff := 1;
  e_phdr := None; e_shdr := Some shdrs; e_note := None; rel_addr := 0x8000; rel_size := 112 |}.

Definition info : kexec_info := {|
  segment := [{| seg_buf := {| p_blk := 2; p_off := 0 |}; seg_bufsz := 112; seg_mem := 0x8000; seg_memsz := 4096 |};
              {| seg_buf := {| p_blk := 3; p_off := 0 |}; seg_bufsz := 6; seg_mem := 0x100000; seg_memsz := 64 |}];
  entry := 0x8000; rhdr := purgatory_ehdr |}.

Definition opts : arch_options :=
  {| reset_vga := 1; serial_base := 0x2f8; serial_baud := 9600; console_vga := 0; console_serial := 1 |}.

Definition ctx : sha256_context :=
  {| total0 := 7; total1 := 7; state := []; buffer := replicate 64 Byte.xff |}.

Lemma symbols_cases (name : list byte) : name ∈ map fst purgatory_symbols →
  (∃ off, symbol_ptr m0 purgatory_ehdr name = Some {| p_blk := 2; p_off := off |}).
Proof.
  intros Hin. cbn [map fst purgatory_symbols] in Hin. rewrite !elem_of_cons, elem_of_nil in Hin.
  repeat (destruct Hin as [-> | Hin]; [eexists; vm_compute; reflexivity | ]). done.
Defined.

Lemma tables : tables_apart m0 purgatory_ehdr shdrs (map fst purgatory_symbols).
Proof. apply tables_apartb_spec. vm_compute. reflexivity. Defined.

Lemma disjoint : disjoint_symbols m0 purgatory_ehdr purgatory_symbols.
Proof. apply disjointb_spec. vm_compute. reflexivity. Defined.

Definition updated : outcome mem := update_purgatory (H0 := x86_arch [] opts None) m0 info ctx.

Lemma update_runs :
  match updated with
  | Ret m' => match purgatory_digest m' 0x8000 (segment info) ctx with
              | Ret (_, digest) => length digest =? 32
              | _ => false
              end%nat
  | _ => false
  end = true.
Proof. vm_compute. reflexivity. Qed.

Lemma update_purgatory_sets_witness :
  ∃ m' region digest, updated = Ret m' ∧ purgatory_digest m' 0x8000 (segment info) ctx = Ret (region, digest) ∧
    elf_rel_get_symbol m' purgatory_ehdr (bs "sha256_digest") 32 = Ret digest ∧
    elf_rel_get_symbol m' purgatory_ehdr (bs "serial_base") 2 = Ret (le 2 0x2f8).
Proof.
  pose proof update_runs as Hrun.
  destruct updated as [m' | | | ] eqn:E; try discriminate Hrun.
  destruct (purgatory_digest m' 0x8000 (segment info) ctx) as [[region digest] | | | ] eqn:Ed;
    try discriminate Hrun.
  exists m', region, digest. split; [done | ]. split; [done | ].
  destruct (update_purgatory_sets [] opts None m0 info ctx m' shdrs region digest eq_refl tables disjoint)
    as (Hdig & _ & Hopt); [ | exact E | exact Ed | | ].
  - apply Forall_cons_2; [by intros [] | ]. apply Forall_cons_2; [ | constructor].
    intros _ name p n Hin Hp. destruct (symbols_cases name Hin) as [off Eo].
    apply symbol_at_ptr in Hp. change (rhdr info) with purgatory_ehdr in Hp. rewrite Eo in Hp. by injection Hp as <-.
  - by apply Nat.eqb_eq.
  - split; [exact Hdig | ]. apply Forall_cons_1 in Hopt as [_ Hopt]. by apply Forall_cons_1 in Hopt as [Hb _].
Defined.

(** A small /proc/iomem. *)
Definition iomem : list iomem_entry := [
  {| ie_indent := 0; ie_start := 0; ie_end := 0x9ffff; ie_name := bs "System RAM" |};
  {| ie_indent := 0; ie_start := 0xa0000; ie_end := 0xfffff; ie_name := bs "reserved" |};
  {| ie_indent := 0; ie_start := 0x100000; ie_end := 0x7ffffff; ie_name := bs "System RAM" |};
  {| ie_indent := 2; ie_start := 0x100000; ie_end := 0x3fffff; ie_name := bs "Kernel code" |}].

Lemma wf_iomem : Forall (wf_entry 8) iomem.
Proof.
  repeat (apply Forall_cons_2 || apply Forall_nil_2); (split; [by vm_compute | by vm_compute | | ]);
    try (split; [by apply (bool_decide_eq_true_1 (newline ∉ _)) | by eexists _, _]);
    by apply Nat.ltb_lt.
Defined.

Lemma get_memory_ranges_roundtrip_witness :
  get_memory_ranges (Some (concat (map (print_entry 8) iomem))) = Ret (Some [
    {| mr_start := 0x100; mr_end := 0xa0000; mr_type := RANGE_RAM |};
    {| mr_start := 0xa0000; mr_end := 0x100000; mr_type := RANGE_RESERVED |};
    {| mr_start := 0x100000; mr_end := 0x8000000; mr_type := RANGE_RAM |}]).
Proof. apply (get_memory_ranges_roundtrip 7 iomem); [by apply Nat.ltb_lt | apply wf_iomem]. Defined.

Lemma iomem_end_off_by_one_witness :
  ∃ ranges, get_memory_ranges (Some (concat (map (print_entry 8) iomem))) = Ret (Some ranges) ∧
    valid_memory_range {| memory_ranges := ranges; mem_min := 0; mem_max := ULONG_MAX |} 0x9f001 0xa0000 = true.
Proof.
  eexists. split; [vm_compute; reflexivity | ].
  apply (iomem_end_off_by_one 7 (hd {| ie_indent := 0; ie_start := 0; ie_end := 0; ie_name := [] |} iomem)
    (tl iomem)); try apply wf_iomem; by vm_compute.
Defined.

Lemma serial_baud_option_witness :
  arch_option_step default_arch_options OPT_SERIAL_BAUD (bs "0") = UB "division by zero" ∧
  ∃ o', arch_option_step default_arch_options OPT_SERIAL_BAUD (bs "38400") = Ret (Some o') ∧
    serial_baud o' = 38400.
Proof.
  split; [by apply (serial_baud_option default_arch_options (bs "0") 0 []) | ].
  destruct (proj2 (serial_baud_option default_arch_options (bs "38400") 38400 [] eq_refl) ltac:(lia)) as (r & Hr & Ho).
  eexists. rewrite Hr. split; [f_equal; apply Ho; split; [ | done] | done].
  apply (bool_decide_eq_true_1 (38400 ∈ baud_rates)). reflexivity.
Defined.
End Witness.
