(* ===== verification/X86Linux.v ===== *)
(** Loading a Linux kernel on i386: the zero page of include/x86/x86-linux.h, the
    parameters that kexec/arch/i386/x86-linux-setup.c fills in and the loader of
    bzImages of kexec/arch/i386/kexec-bzImage.c. *)

From Stdlib Require Import ZArith Lia String.
From stdpp Require Import base tactics list numbers gmap.
From coqutil Require Import Byte.
From S2P Require Import Prelude Words CMem CString Struct Segments Elf ElfRel ElfRelSpec Kexec KexecX86.

#[local] Open Scope Z_scope.

(** ** Data (x86-linux.h, kexec-x86.h) *)

(** [struct x86_linux_param_header], less its reserved and unused fields and
    [e820_map]. *)
Module Param.
Inductive t :=
| orig_x | orig_y | ext_mem_k | orig_video_page | orig_video_mode | orig_video_cols
| orig_video_ega_bx | orig_video_lines | orig_video_isVGA | orig_video_points
| cl_magic | cl_offset | apm_bios_info | drive_info | sys_desc_table_length | alt_mem_k
| e820_map_nr | setup_sects | mount_root_rdonly | root_dev | aux_device_info | header_magic
| protocol_version | rmode_switch_ip | rmode_switch_cs | loader_type | loader_flags
| kernel_start | initrd_start | initrd_size | cmd_line_ptr | initrd_addr_max.

Definition offset (f : t) : Z :=
  match f with
  | orig_x => 0x00 | orig_y => 0x01 | ext_mem_k => 0x02 | orig_video_page => 0x04
  | orig_video_mode => 0x06 | orig_video_cols => 0x07 | orig_video_ega_bx => 0x0a
  | orig_video_lines => 0x0e | orig_video_isVGA => 0x0f | orig_video_points => 0x10
  | cl_magic => 0x20 | cl_offset => 0x22 | apm_bios_info => 0x40 | drive_info => 0x80
  | sys_desc_table_length => 0xa0 | alt_mem_k => 0x1e0 | e820_map_nr => 0x1e8
  | setup_sects => 0x1f1 | mount_root_rdonly => 0x1f2 | root_dev => 0x1fc
  | aux_device_info => 0x1ff | header_magic => 0x202 | protocol_version => 0x206
  | rmode_switch_ip => 0x208 | rmode_switch_cs => 0x20a | loader_type => 0x210
  | loader_flags => 0x211 | kernel_start => 0x214 | initrd_start => 0x218
  | initrd_size => 0x21c | cmd_line_ptr => 0x228 | initrd_addr_max => 0x22c
  end.

Definition size (f : t) : nat :=
  match f with
  | orig_x | orig_y | orig_video_mode | orig_video_cols | orig_video_lines | orig_video_isVGA
  | e820_map_nr | setup_sects | aux_device_info | loader_type | loader_flags => 1
  | ext_mem_k | orig_video_page | orig_video_ega_bx | orig_video_points | cl_magic | cl_offset
  | sys_desc_table_length | mount_root_rdonly | root_dev | protocol_version
  | rmode_switch_ip | rmode_switch_cs => 2
  | apm_bios_info => 64
  | drive_info => 32
  | alt_mem_k | header_magic | kernel_start | initrd_start | initrd_size | cmd_line_ptr
  | initrd_addr_max => 4
  end.

#[global] Instance struct : Struct t.
Proof. refine {| f_off := offset; f_size := size; sizeof := 0x550 |}; layout_laws. Defined.

#[global] Instance eq_dec : EqDecision t.
Proof. solve_decision. Defined.
End Param.

(** [struct e820entry], packed. *)
Module E820.
Inductive t := addr | size | type.

#[global] Instance struct : Struct t.
Proof.
  refine {| f_off := λ f, match f with addr => 0 | size => 8 | type => 16 end;
            f_size := λ f, match f with addr => 8%nat | size => 8%nat | type => 4%nat end;
            sizeof := 20 |}; layout_laws.
Defined.

#[global] Instance eq_dec : EqDecision t.
Proof. solve_decision. Defined.
End E820.

(** The fields of [struct x86_linux_header] that the program reads; it is packed
    and 32768 bytes long. *)
Module Header.
Inductive t :=
| setup_sects | boot_sector_magic | header_magic | protocol_version | kver_addr | loadflags.

#[global] Instance struct : Struct t.
Proof.
  refine {| f_off := λ f, match f with
              | setup_sects => 0x1f1 | boot_sector_magic => 0x1fe | header_magic => 0x202
              | protocol_version => 0x206 | kver_addr => 0x20e | loadflags => 0x211 end;
            f_size := λ f, match f with
              | setup_sects | loadflags => 1%nat | header_magic => 4%nat | _ => 2%nat end;
            sizeof := 32 * 1024 |}; layout_laws.
Defined.

#[global] Instance eq_dec : EqDecision t.
Proof. solve_decision. Defined.
End Header.

(** [struct entry32_regs] and [struct entry16_regs] *)
Module Regs32.
Inductive t := eax | ebx | ecx | edx | esi | edi | esp | ebp | eip.

#[global] Instance struct : Struct t.
Proof.
  refine {| f_off := λ f, match f with
              | eax => 0 | ebx => 4 | ecx => 8 | edx => 12 | esi => 16 | edi => 20 | esp => 24
              | ebp => 28 | eip => 32 end;
            f_size := λ _, 4%nat; sizeof := 36 |}; layout_laws.
Defined.

#[global] Instance eq_dec : EqDecision t.
Proof. solve_decision. Defined.
End Regs32.

Module Regs16.
Inductive t := eax | ebx | ecx | edx | esi | edi | esp | ebp | ds | es | ss | fs | gs | ip | cs | pad.

#[global] Instance struct : Struct t.
Proof.
  refine {| f_off := λ f, match f with
              | eax => 0 | ebx => 4 | ecx => 8 | edx => 12 | esi => 16 | edi => 20 | esp => 24
              | ebp => 28 | ds => 32 | es => 34 | ss => 36 | fs => 38 | gs => 40 | ip => 42
              | cs => 44 | pad => 46 end;
            f_size := λ f, match f with
              | eax | ebx | ecx | edx | esi | edi | esp | ebp => 4%nat | _ => 2%nat end;
            sizeof := 48 |}; layout_laws.
Defined.

#[global] Instance eq_dec : EqDecision t.
Proof. solve_decision. Defined.
End Regs16.

Definition E820_RAM := 1.
Definition E820_RESERVED := 2.
Definition E820_ACPI := 3.
Definition E820_NVS := 4.
Definition E820MAP := 0x2d0.
Definition E820MAX := 32.
Definition CL_MAGIC_VALUE := 0xA33F.
Definition LOADER_TYPE_UNKNOWN := 0xFF.
Definition COMMAND_LINE_SIZE := 256.
Definition DEFAULT_INITRD_ADDR_MAX := 0x37FFFFFF.
Definition SETUP_BASE := 0x90000.
Definition KERN32_BASE := 0x100000.
Definition INITRD_BASE := 0x1000000.

(** ** x86-linux-setup.c *)

Section x86.
Context `{Machine}.

Definition init_linux_parameters (m : mem) (real_mode : ptr) : outcome mem :=
  m ← store m (ptr_add real_mode (f_off Param.header_magic)) (bs "HdrS");
  set_fields m real_mode
    [(Param.protocol_version, 0x0203); (Param.initrd_addr_max, DEFAULT_INITRD_ADDR_MAX)].

(** The command line of [cmdline_len] bytes, copied to [cmdline_offset] and
    terminated. *)
Definition store_cmdline (m : mem) (real_mode : ptr) (cmdline_offset : Z) (cmdline : list byte)
    : outcome mem :=
  let cmdline_len := Z.of_nat (length cmdline) in
  let cmdline_len := if COMMAND_LINE_SIZE <? cmdline_len then COMMAND_LINE_SIZE else cmdline_len in
  let cmdline_ptr := ptr_add real_mode cmdline_offset in
  m ← store m cmdline_ptr (take (Z.to_nat cmdline_len) cmdline);
  store m (ptr_add cmdline_ptr (cmdline_len - 1)) [Byte.x00].

(** [cmdline] holds [cmdline_len] bytes; [initrd] is the buffer and its size. *)
Definition setup_linux_bootloader_parameters (lay : layout) (m : mem) (segs : list kexec_segment)
    (real_mode : ptr) (real_mode_base cmdline_offset : Z) (cmdline : list byte)
    (initrd : option (ptr * Z)) : outcome (mem * list kexec_segment) :=
  m ← set_fields m real_mode
        [(Param.loader_type, LOADER_TYPE_UNKNOWN); (Param.loader_flags, 0)];
  version ← get_field m real_mode Param.protocol_version;
  initrd_addr_max ← (if 0x0203 <=? version then get_field m real_mode Param.initrd_addr_max
                     else Ret DEFAULT_INITRD_ADDR_MAX);
  '(initrd_base, initrd_size, segs) ←
    match initrd with
    | Some (initrd_buf, initrd_size) =>
        '(base, segs) ← add_buffer lay segs initrd_buf initrd_size initrd_size 4096
                          INITRD_BASE initrd_addr_max (-1);
        mret (base, initrd_size, segs)
    | None => Ret (0, 0, segs)
    end;
  m ← set_fields m real_mode
        [(Param.initrd_start, initrd_base); (Param.initrd_size, initrd_size);
         (Param.cl_magic, CL_MAGIC_VALUE); (Param.cl_offset, cmdline_offset)];
  m ← (if 0x0202 <=? version
       then set_field m real_mode Param.cmd_line_ptr (ul (real_mode_base + cmdline_offset))
       else Ret m);
  m ← store_cmdline m real_mode cmdline_offset cmdline;
  mret (m, segs).

(** The type of an entry of the map. *)
Definition e820_type (ty : Z) : Z :=
  if ty =? RANGE_RAM then E820_RAM
  else if ty =? RANGE_ACPI then E820_ACPI
  else if ty =? RANGE_ACPI_NVS then E820_NVS
  else E820_RESERVED.

(** The sizes of extended memory that a range of RAM across the first megabyte
    gives. *)
Definition ext_memory (r : memory_range) : list (Param.t * Z) :=
  let mem_k := u64 (Z.shiftr (mr_end r) 10 - 0x100000) in
  [(Param.ext_mem_k, mem_k); (Param.alt_mem_k, mem_k)]
  ++ (if 0xfc00 <? mem_k then [(Param.ext_mem_k, 0xfc00)] else [])
  ++ (if 0xffffffff <? mem_k then [(Param.alt_mem_k, 0xffffffff)] else []).

Definition e820_entry (real_mode : ptr) (i : Z) : ptr :=
  ptr_add real_mode (E820MAP + sizeof E820.t * i).

(** The loop over the ranges, from the index [i] on. *)
Fixpoint fill_e820 (m : mem) (real_mode : ptr) (i : Z) (ranges : list memory_range) : outcome mem :=
  match ranges with
  | [] => Ret m
  | r :: ranges =>
      m ← set_fields m (e820_entry real_mode i)
            [(E820.addr, mr_start r); (E820.size, u64 (mr_end r - mr_start r));
             (E820.type, e820_type (mr_type r))];
      m ← (if (mr_type r =? RANGE_RAM) && (mr_start r <=? 0x100000) && (0x100000 <? mr_end r)
           then set_fields m real_mode (ext_memory r)
           else Ret m);
      fill_e820 m real_mode (i + 1) ranges
  end.

(** The assignments before the memory map. *)
Definition system_defaults : list (Param.t * Z) :=
  [(Param.orig_x, 0); (Param.orig_y, 0); (Param.orig_video_page, 0); (Param.orig_video_mode, 0);
   (Param.orig_video_cols, 80); (Param.orig_video_lines, 25); (Param.orig_video_ega_bx, 0);
   (Param.orig_video_isVGA, 1); (Param.orig_video_points, 16);
   (Param.ext_mem_k, 0); (Param.alt_mem_k, 0); (Param.e820_map_nr, 0);
   (Param.apm_bios_info, 0); (Param.drive_info, 0); (Param.sys_desc_table_length, 0);
   (Param.mount_root_rdonly, 0xFFFF); (Param.root_dev, Z.lor (Z.shiftl 0x3 8) 0);
   (Param.aux_device_info, 0)].

(** [ranges] is the result of [get_memory_ranges]. *)
Definition setup_linux_system_parameters (m : mem) (real_mode : ptr)
    (ranges : option (list memory_range)) : outcome mem :=
  m ← set_fields m real_mode system_defaults;
  match ranges with
  | None | Some [] => Die "Cannot get memory information"
  | Some ranges =>
      let ranges := take (Z.to_nat E820MAX) ranges in
      m ← set_field m real_mode Param.e820_map_nr (Z.of_nat (length ranges));
      fill_e820 m real_mode 0 ranges
  end.

(** ** kexec-bzImage.c *)

(** [buf] holds the file. *)
Definition bzImage_probe (buf : list byte) : Z :=
  if Z.of_nat (length buf) <? sizeof Header.t then -1
  else if negb (bool_decide (take 4 (drop 0x202 buf) = bs "HdrS")) then -1
  else if negb (sfield buf Header.boot_sector_magic =? 0xAA55) then -1
  else if sfield buf Header.protocol_version <? 0x0200 then -1
  else if Z.land (sfield buf Header.loadflags) 1 =? 0 then -1
  else 0.

(** The size of the real mode part of a kernel. *)
Definition kern16_size (kernel : list byte) : Z :=
  let setup_sects := sfield kernel Header.setup_sects in
  let setup_sects := if setup_sects =? 0 then 4 else setup_sects in
  (setup_sects + 1) * 512.

Definition set_rhdr (segs : list kexec_segment) (e : Z) (h : mem_ehdr) : kexec_info :=
  {| segment := segs; entry := e; rhdr := h |}.

(** The initial values of the registers. *)
Definition init_regs32 (setup_base stack_end eip : Z) (regs32 : list byte) : list byte :=
  foldl (λ l '(f, v), with_field l f v) regs32
    [(Regs32.eax, 0); (Regs32.ebx, 0); (Regs32.ecx, 0); (Regs32.edx, 0); (Regs32.esi, setup_base);
     (Regs32.edi, 0); (Regs32.esp, stack_end); (Regs32.ebp, 0); (Regs32.eip, eip)].

Definition init_regs16 (setup_base stack_end : Z) (regs16 : list byte) : list byte :=
  foldl (λ l '(f, v), with_field l f v) regs16
    [(Regs16.cs, setup_base + 0x20); (Regs16.ip, 0);
     (Regs16.ss, Z.shiftr (ul (stack_end - 64 * 1024)) 4); (Regs16.esp, 0xFFFC)].

(** The hooks for debugging: the new memory and the entry point. *)
Definition hook_kernel (m : mem) (h : mem_ehdr) (real_mode : ptr) : outcome (mem * Z) :=
  entry16_debug ← elf_rel_get_addr m h (bs "entry16_debug");
  pre32 ← elf_rel_get_addr m h (bs "entry16_debug_pre32");
  first32 ← elf_rel_get_addr m h (bs "entry16_debug_first32");
  m ← set_fields m real_mode
        [(Param.rmode_switch_cs, Z.shiftr entry16_debug 4);
         (Param.rmode_switch_ip, ul (pre32 - entry16_debug))];
  old_first32 ← get_field m real_mode Param.kernel_start;
  m ← set_field m real_mode Param.kernel_start first32;
  m ← elf_rel_set_symbol m h (bs "entry16_debug_old_first32") (split host_be 4 old_first32);
  mret (m, entry16_debug).

Section bzImage.

(** The built-in purgatory, what [malloc] finds in the memory it returns and the
    result of [get_memory_ranges]. *)
Context (purgatory garbage : list byte) (ranges : option (list memory_range)).

(** The part of [do_bzImage_load] that places purgatory, the real mode part and
    the kernel: purgatory's header, the block of the real mode part and its
    address. *)
Definition place_kernel (lay : layout) (m : mem) (info : kexec_info) (kernel : list byte) (kbuf : ptr)
    (command_line_len : Z) : outcome (mem * kexec_info * ptr * Z) :=
  let size16 := kern16_size kernel in
  let '(m, pbuf) := alloc m purgatory in
  '(m, h, segs, e) ← elf_rel_build_load lay garbage m purgatory pbuf (segment info)
                       0x3000 (640 * 1024) (-1);
  let setup_size := ul (size16 + command_line_len) in
  let '(m, real_mode) := alloc m (resize (Z.to_nat setup_size) Byte.x00 garbage) in
  m ← store m real_mode (take (Z.to_nat size16) kernel);
  version ← get_field m real_mode Param.protocol_version;
  '(setup_base, segs) ←
    (if 0x0200 <=? version
     then add_buffer lay segs real_mode setup_size setup_size 16 0x3000 (640 * 1024) (-1)
     else segs ← add_segment lay segs real_mode setup_size SETUP_BASE setup_size;
          mret (SETUP_BASE, segs));
  if rel_addr h <? setup_base then Die "Could not put setup code above the kernel parameters"
  else
    let size := Z.of_nat (length kernel) - size16 in
    segs ← add_segment lay segs (ptr_add kbuf size16) size KERN32_BASE size;
    mret (m, set_rhdr segs e h, real_mode, setup_base).

(** The registers with which the kernel starts. *)
Definition set_registers (m : mem) (h : mem_ehdr) (real_mode : ptr) (setup_base : Z)
    (real_mode_entry debug : bool) : outcome mem :=
  regs16 ← elf_rel_get_symbol m h (bs "entry16_regs") (sizeof Regs16.t);
  regs32 ← elf_rel_get_symbol m h (bs "entry32_regs") (sizeof Regs32.t);
  stack_end ← elf_rel_get_addr m h (bs "stack_end");
  let regs16 := init_regs16 setup_base stack_end regs16 in
  eip ← (if real_mode_entry then elf_rel_get_addr m h (bs "entry16") else Ret KERN32_BASE);
  '(m, eip) ← (if debug then hook_kernel m h real_mode else Ret (m, eip));
  m ← elf_rel_set_symbol m h (bs "entry16_regs") regs16;
  m ← elf_rel_set_symbol m h (bs "entry16_debug_regs") regs16;
  elf_rel_set_symbol m h (bs "entry32_regs") (init_regs32 setup_base stack_end eip regs32).

(** [kernel] is the contents of the buffer at [kbuf], [command_line] its bytes with
    the final NUL, none when there is no command line. *)
Definition do_bzImage_load (lay : layout) (m : mem) (info : kexec_info) (kernel : list byte)
    (kbuf : ptr) (command_line : list byte) (initrd : option (ptr * Z))
    (real_mode_entry debug : bool) : outcome (Z * mem * kexec_info) :=
  if Z.of_nat (length kernel) <? sizeof Header.t then Ret (-1, m, info)
  else if Z.of_nat (length kernel) <? kern16_size kernel then Ret (-1, m, info)
  else
    '(m, info, real_mode, setup_base) ←
      place_kernel lay m info kernel kbuf (Z.of_nat (length command_line));
    '(m, segs) ← setup_linux_bootloader_parameters lay m (segment info) real_mode setup_base
                   (kern16_size kernel) command_line initrd;
    m ← set_registers m (rhdr info) real_mode setup_base real_mode_entry debug;
    m ← (if real_mode_entry then Ret m else setup_linux_system_parameters m real_mode ranges);
    mret (0, m, set_segment segs info).

(** ** The options of bzImage_load *)

Definition OPT_DEBUG := 100.
Definition OPT_ARCH_MAX := OPT_MAX + 5.
Definition OPT_APPEND := OPT_ARCH_MAX + 0.
Definition OPT_RAMDISK := OPT_ARCH_MAX + 1.
Definition OPT_REAL_MODE := OPT_ARCH_MAX + 2.

Record bzImage_options := {
  bz_command_line : option (list byte); bz_ramdisk : option (list byte);
  bz_real_mode : bool; bz_debug : bool
}.

(** One option that [getopt_long] finds ([63] is the question mark, for a bad
    one); [None] ends the loader with -1. *)
Definition bzImage_option (o : bzImage_options) (opt : Z) (optarg : list byte)
    : option bzImage_options :=
  if opt =? OPT_DEBUG then
    Some {| bz_command_line := bz_command_line o; bz_ramdisk := bz_ramdisk o;
            bz_real_mode := bz_real_mode o; bz_debug := true |}
  else if opt =? OPT_APPEND then
    Some {| bz_command_line := Some optarg; bz_ramdisk := bz_ramdisk o;
            bz_real_mode := bz_real_mode o; bz_debug := bz_debug o |}
  else if opt =? OPT_RAMDISK then
    Some {| bz_command_line := bz_command_line o; bz_ramdisk := Some optarg;
            bz_real_mode := bz_real_mode o; bz_debug := bz_debug o |}
  else if opt =? OPT_REAL_MODE then
    Some {| bz_command_line := bz_command_line o; bz_ramdisk := bz_ramdisk o;
            bz_real_mode := true; bz_debug := bz_debug o |}
  else if opt =? 63 then None
  else if opt <? OPT_ARCH_MAX then Some o
  else None.

Fixpoint fold_options {O} (step : O → Z → list byte → option O) (opts : list (Z * list byte)) (o : O)
    : option O :=
  match opts with
  | [] => Some o
  | (opt, optarg) :: opts => match step o opt optarg with
                             | Some o => fold_options step opts o
                             | None => None
                             end
  end.

(** [opts] is what [getopt_long] finds and [slurp_file] the contents of a file. *)
Definition bzImage_load (opts : list (Z * list byte)) (slurp_file : list byte → outcome (list byte))
    (lay : layout) (argv : list (list byte)) (buf : list byte) (kbuf : ptr) (m : mem)
    (info : kexec_info) : outcome (Z * mem * kexec_info) :=
  match fold_options bzImage_option opts
          {| bz_command_line := None; bz_ramdisk := None; bz_real_mode := false; bz_debug := false |} with
  | None => Ret (-1, m, info)
  | Some o =>
      let command_line := match bz_command_line o with Some s => s ++ [Byte.x00] | None => [] end in
      '(m, initrd) ← match bz_ramdisk o with
        | Some name => data ← slurp_file name;
                       let '(m, p) := alloc m data in
                       mret (m, Some (p, Z.of_nat (length data)))
        | None => Ret (m, None)
        end;
      do_bzImage_load lay m info buf kbuf command_line initrd (bz_real_mode o) (bz_debug o)
  end.
End bzImage.
End x86.
