(* ===== verification/X86LinuxSpec.v ===== *)
(** What loading a bzImage on i386 leaves in memory: the sections of purgatory stay
    in their own blocks, the kernel finds its command line, its ramdisk and the
    memory map where the zero page says. *)

From Stdlib Require Import ZArith Lia String.
From stdpp Require Import base tactics list numbers gmap.
From coqutil Require Import Byte.
From S2P Require Import Prelude Words CMem CString Struct Segments SegmentsSpec Elf ElfRel ElfRelSpec ElfRelLoad Kexec KexecX86 X86Linux.

#[local] Open Scope Z_scope.

(** ** Memory only grows *)

Definition grows (m m' : mem) : Prop := ∀ b, is_Some (m !! b) → is_Some (m' !! b).

#[export] Instance grows_preorder : PreOrder grows.
Proof. split; [by intros m b | intros a b c H1 H2 x Hx; by apply H2, H1]. Qed.

Lemma store_grows m p d m' : store m p d = Ret m' → grows m m'.
Proof.
  intros (l & _ & _ & _ & ->)%store_Ret b Hb. destruct (decide (p_blk p = b)) as [<- | ].
  - rewrite lookup_insert_eq. eauto.
  - by rewrite lookup_insert_ne.
Qed.

Lemma alloc_grows m l : grows m (alloc m l).1.
Proof. intros b [k Hk]. exists k. by apply alloc_fresh. Qed.

Lemma set_field_grows `{Arch} `{Struct F} m p f v m' : set_field m p f v = Ret m' → grows m m'.
Proof. apply store_grows. Qed.

Section blocks.
Context `{Machine}.

(** The sections' contents are in objects of [m]. *)
Definition sections_in (m : mem) (l : list mem_shdr) : Prop :=
  Forall (λ s, is_Some (m !! p_blk (sh_data s))) l.

Lemma sections_in_grows m m' l : sections_in m l → grows m m' → sections_in m' l.
Proof. intros Hs Hg. eapply List.Forall_impl; [ | exact Hs]. intros s. apply Hg. Qed.

Lemma shdrs_from_block file buf ehdr n : ∀ i l,
  shdrs_from file buf ehdr i n = Ret (Some l) → Forall (λ s, p_blk (sh_data s) = p_blk buf) l.
Proof.
  induction n as [|n IH]; intros i l; cbn [shdrs_from]; [by intros [= <-] | ].
  intros ([s|] & _ & Hr)%bind_Ret; [ | done].
  repeat case_if_in Hr; [done.. | ]. apply bind_Ret in Hr as ([rest|] & Hrest & Hr); [ | done].
  apply Ret_inj in Hr. simplify_eq. constructor; [done | by eapply IH].
Qed.

Lemma build_elf_info_blocks file buf ehdr shdrs :
  build_elf_info file buf = Ret (Some ehdr) → e_shdr ehdr = Some shdrs →
  Forall (λ s, p_blk (sh_data s) = p_blk buf) shdrs.
Proof.
  unfold build_elf_info. intros ([h|] & Hh & Hr)%bind_Ret; [ | done].
  apply bind_Ret in Hr as ([ph|] & Hph & Hr); [ | done].
  apply bind_Ret in Hr as ([sh|] & Hsh & Hr); [ | done].
  apply bind_Ret in Hr as (h' & Hn & Hr). apply Ret_inj in Hr. simplify_eq.
  assert (e_shdr ehdr = sh) as ->.
  { unfold build_mem_notes in Hn. apply bind_Ret in Hn as (? & _ & Hn).
    apply bind_Ret in Hn as ([[a b]|] & _ & Hn); [ | by apply Ret_inj in Hn as <-].
    cbv zeta in Hn. apply bind_Ret in Hn as (? & _ & Hn). apply bind_Ret in Hn as (? & _ & Hn).
    by apply Ret_inj in Hn as <-. }
  intros ->. case_if_in Hsh; [ | done].
  apply bind_Ret in Hsh as ([l|] & Hl & Hsh); [ | done]. apply Ret_inj in Hsh. simplify_eq.
  unfold build_mem_shdrs in Hl. repeat case_if_in Hl; try done; by eapply shdrs_from_block.
Qed.

Lemma place_sections_blocks l : ∀ m buf A d b m' placed,
  place_sections m buf A d b l = Ret (m', placed) → sections_in m l → is_Some (m !! p_blk buf) →
  grows m m' ∧ sections_in m' placed.
Proof.
  induction l as [|s l IH]; intros m buf A d b m' placed Hpl Hl Hb; cbn [place_sections] in Hpl.
  { apply Ret_inj in Hpl. by simplify_eq. }
  apply Forall_cons_1 in Hl as [Hs Hl]. cbv zeta in Hpl. repeat case_if_in Hpl.
  - apply bind_Ret in Hpl as ([m1 rest] & Hr & Hpl). apply Ret_inj in Hpl. simplify_eq.
    destruct (IH _ _ _ _ _ _ _ Hr Hl Hb) as [Hg Hrest]. split; [done | ]. constructor; auto.
  - apply bind_Ret in Hpl as (c & _ & Hpl). apply bind_Ret in Hpl as (m1 & Hst & Hpl).
    apply bind_Ret in Hpl as ([m2 rest] & Hr & Hpl). apply Ret_inj in Hpl. simplify_eq.
    apply store_grows in Hst.
    destruct (IH _ _ _ _ _ _ _ Hr (sections_in_grows _ _ _ Hl Hst) (Hst _ Hb)) as [Hg Hrest].
    split; [by etrans | ]. constructor; [ | done]. by apply Hg, Hst.
  - apply bind_Ret in Hpl as ([m1 rest] & Hr & Hpl). apply Ret_inj in Hpl. simplify_eq.
    destruct (IH _ _ _ _ _ _ _ Hr Hl Hb) as [Hg Hrest]. split; [done | ]. constructor; auto.
Qed.

Lemma relocate_grows m h l ty s st p m' : relocate m h l ty s st p = Ret m' → grows m m'.
Proof.
  unfold relocate. cbv zeta. intros Hm. inv_ret.
  apply machine_apply_writes in Hm as [-> | (data & _ & Hst)]; [done | by eapply store_grows].
Qed.

Lemma relocate_entries_grows fuel : ∀ m h l shdr s st n off m',
  relocate_entries fuel m h l shdr s st n off = Ret m' → grows m m'.
Proof.
  induction fuel as [|fuel IH]; intros m h l shdr s st n off m'; cbn [relocate_entries]; [done | ].
  case_if; [ | by intros [= ->]]. intros (m1 & Hr & Hm)%bind_Ret.
  apply relocate_grows in Hr. apply IH in Hm. by etrans.
Qed.

Lemma relocate_section_grows m h l shdr m' : relocate_section m h l shdr = Ret m' → grows m m'.
Proof.
  unfold relocate_section. case_if; [intros Hm; by apply Ret_inj in Hm as <- | ]. case_if; [done | ].
  intros (s & _ & Hm)%bind_Ret. case_if_in Hm; [by apply Ret_inj in Hm as -> | ].
  apply bind_Ret in Hm as (st & _ & Hm). case_if_in Hm; [by apply Ret_inj in Hm as -> | ].
  apply bind_Ret in Hm as (? & _ & Hm). apply bind_Ret in Hm as (n & _ & Hm).
  by eapply relocate_entries_grows.
Qed.

Lemma relocate_sections_grows rest : ∀ m h l m', relocate_sections m h l rest = Ret m' → grows m m'.
Proof.
  induction rest as [|s rest IH]; intros m h l m'; cbn [relocate_sections]; [by intros [= ->] | ].
  intros (m1 & Hs & Hm)%bind_Ret. apply relocate_section_grows in Hs. apply IH in Hm. by etrans.
Qed.

(** After purgatory is loaded, each of its sections is in an object of the memory. *)
Lemma elf_rel_build_load_blocks lay garbage m file buf segs lo hi e m' h segs' entry :
  elf_rel_build_load lay garbage m file buf segs lo hi e = Ret (m', h, segs', entry) →
  is_Some (m !! p_blk buf) → grows m m' ∧ sections_in m' (default [] (e_shdr h)).
Proof.
  unfold elf_rel_build_load. intros ([ehdr|] & Hi & Hr)%bind_Ret Hbuf; [ | done].
  apply bind_Ret in Hr as ([r|] & Hl & Hr); [ | done]. apply Ret_inj in Hr. subst r.
  unfold build_elf_rel_info in Hi. apply bind_Ret in Hi as ([h0|] & Hb & Hi); [ | done].
  case_if_in Hi; [done | ]. destruct (e_shdr h0) as [shdrs|] eqn:Es; [ | done].
  case_if_in Hi; [done | ]. apply Ret_inj in Hi. simplify_eq.
  apply (build_elf_info_blocks _ _ _ shdrs) in Hb; [ | done].
  unfold elf_rel_load in Hl. rewrite Es in Hl.
  apply bind_Ret in Hl as ([[[m1 h1] segs1] en] & Hp & Hl). cbv zeta in Hl.
  apply bind_Ret in Hl as (m2 & Hrel & Hl). apply Ret_inj in Hl. simplify_eq.
  apply relocate_sections_grows in Hrel.
  unfold place_object in Hp. destruct (foldl _ _ _) as [[[ba sa] bz] sz].
  set (r := resize _ _ _) in Hp. rewrite (surjective_pairing (alloc m r)) in Hp.
  apply bind_Ret in Hp as ([A segs2] & _ & Hp). apply bind_Ret in Hp as ([m3 placed] & Hpl & Hp).
  apply place_sections_blocks in Hpl as [Hg Hin].
  - destruct (list_find _ _) as [[i s] | ]; apply Ret_inj in Hp; simplify_eq/=;
      (split; [etrans; [apply (alloc_grows m r) | etrans; [exact Hg | exact Hrel]]
             | exact (sections_in_grows _ _ _ Hin Hrel)]).
  - eapply List.Forall_impl; [ | exact Hb]. intros s ->. by apply alloc_grows.
  - rewrite alloc_lookup. eauto.
Qed.

(** Setting a symbol writes to none but the objects of the sections. *)
Lemma set_symbol_block m h name d m' b :
  elf_rel_set_symbol m h name d = Ret m' →
  Forall (λ s, p_blk (sh_data s) ≠ b) (default [] (e_shdr h)) → m' !! b = m !! b.
Proof.
  intros (p & (sym & s & _ & _ & Hs & _ & ->) & Hst)%elf_rel_set_symbol_Ret Hb.
  unfold section_at in Hs. destruct (_ !! _) as [s'|] eqn:El; [ | done]. apply Ret_inj in Hs as ->.
  apply (Forall_lookup_1 _ _ _ _ Hb) in El.
  apply store_Ret in Hst as (l & _ & _ & _ & ->). by apply lookup_insert_ne.
Qed.
End blocks.

(** ** The segments of the kernel *)

#[local] Existing Instance i386.
#[local] Existing Instance machine_i386.

Lemma kern16_size_range kernel : 1024 ≤ kern16_size kernel ≤ 131072.
Proof.
  unfold kern16_size, sfield. set (s := combine _ _).
  assert (0 ≤ s < 256) as Hs.
  { subst s. set (l := take _ _). pose proof (combine_range host_be l).
    assert (length l ≤ 1)%nat by (unfold l; rewrite length_take; apply Nat.le_min_l).
    assert (2 ^ (8 * Z.of_nat (length l)) ≤ 2 ^ 8) by (apply Z.pow_le_mono_r; lia). lia. }
  case_if; zbool; lia.
Qed.

(** ** The command line *)

(** The bytes that the kernel finds: at most 256, the last of them NUL. *)
Definition terminated (cmd : list byte) : list byte :=
  take (Nat.min 256 (length cmd) - 1) cmd ++ [Byte.x00].

Lemma store_cmdline_spec m real_mode off cmd m' :
  store_cmdline m real_mode off cmd = Ret m' → cmd ≠ [] →
  load m' (ptr_add real_mode off) (Z.of_nat (length (terminated cmd))) = Ret (terminated cmd) ∧
  ∀ q n, p_blk q ≠ p_blk real_mode ∨ p_off q + n ≤ p_off real_mode + off → load m' q n = load m q n.
Proof.
  unfold store_cmdline. intros (m1 & H1 & H2)%bind_Ret Hne.
  set (len := if _ <? _ then _ else _) in *.
  assert (Z.to_nat len = Nat.min 256 (length cmd) ∧ 0 < len) as [Hlen Hpos].
  { subst len. unfold COMMAND_LINE_SIZE. destruct cmd; [done | ]. cbn [length].
    case_if; zbool; lia. }
  rewrite Hlen in H1. set (k := Nat.min 256 (length cmd)) in *.
  assert (length (take k cmd) = k) as Hk by (rewrite length_take; lia).
  split.
  - unfold terminated. fold k. set (p := ptr_add real_mode off) in *.
    rewrite length_app, length_take, Nat.min_l by lia. cbn [length].
    pose proof (store_load _ _ _ _ H1) as Hl. rewrite Hk in Hl.
    apply load_Ret in Hl as (l & Hl & ? & _ & Hle & Htake).
    apply store_Ret in H2 as (l2 & Hl2 & _ & Hle2 & ->). simpl in Hl2, Hle2.
    assert (l2 = l) as -> by (change (m1 !! p_blk p = Some l2) in Hl2; congruence).
    apply load_Ret. exists (overwrite l (Z.to_nat (p_off p + (len - 1))) [Byte.x00]).
    rewrite lookup_insert_eq. rewrite length_overwrite by (cbn [length]; lia).
    split; [done | ]. split; [done | ]. split; [lia | ]. split; [lia | ].
    unfold overwrite. replace (Z.to_nat (p_off p + (len - 1))) with (Z.to_nat (p_off p) + (k - 1))%nat by lia.
    rewrite drop_app_le by (rewrite length_take; lia).
    rewrite skipn_firstn_comm, take_app_ge by (rewrite length_take, length_drop; lia).
    f_equal.
    + replace (Z.to_nat (p_off p) + (k - 1) - Z.to_nat (p_off p))%nat with (k - 1)%nat by lia.
      rewrite Nat2Z.id in Htake.
      transitivity (take (k - 1) (take k cmd)); [by rewrite take_take, Nat.min_l by lia | ].
      by rewrite Htake, take_take, Nat.min_l by lia.
    + rewrite length_take, length_drop.
      replace (Z.to_nat (Z.of_nat (k - 1 + 1)) - _)%nat with 1%nat by lia. done.
  - intros q n Hq. assert (0 ≤ len - 1) by lia.
    rewrite (store_load_disjoint _ _ _ _ q n H2) by (simpl; lia).
    apply (store_load_disjoint _ _ _ _ q n H1). simpl. lia.
Qed.

(** ** The memory map *)

(** The entry of a range. *)
Definition e820_is (m : mem) (p : ptr) (r : memory_range) : Prop :=
  get_field m p E820.addr = Ret (u64 (mr_start r)) ∧
  get_field m p E820.size = Ret (u64 (mr_end r - mr_start r)) ∧
  get_field m p E820.type = Ret (e820_type (mr_type r)).

(** What filling the entries from the index [i] on does not touch. *)
Definition off_map (real_mode : ptr) (i : Z) (q : ptr) (n : Z) : Prop :=
  p_blk q ≠ p_blk real_mode ∨ p_off real_mode + 0x550 ≤ p_off q ∨
  p_off real_mode + 0x1e8 ≤ p_off q ∧ p_off q + n ≤ p_off (e820_entry real_mode i).

Lemma ext_memory_fields r : Forall (λ f, f = Param.ext_mem_k ∨ f = Param.alt_mem_k) (map fst (ext_memory r)).
Proof.
  unfold ext_memory. cbv zeta. rewrite !map_app. repeat case_if;
    repeat (apply Forall_cons_2 || apply Forall_nil_2); auto.
Qed.

Lemma set_ext_memory m real_mode r m' :
  set_fields m real_mode (ext_memory r) = Ret m' →
  (∀ q n, p_blk q ≠ p_blk real_mode ∨ p_off real_mode + 0x1e4 ≤ p_off q → load m' q n = load m q n) ∧
  (∀ f, f ≠ Param.ext_mem_k → f ≠ Param.alt_mem_k → get_field m' real_mode f = get_field m real_mode f).
Proof.
  intros Hs. pose proof (ext_memory_fields r) as Hf. split.
  - intros q n Hq. apply (set_fields_load_off _ _ _ _ _ _ Hs).
    eapply List.Forall_impl; [ | exact Hf]. intros f [-> | ->]; unfold off_field; simpl; lia.
  - intros f H1 H2. apply (set_fields_get_other _ _ _ _ _ Hs).
    intros Hin. rewrite List.Forall_forall in Hf. apply list_elem_of_In in Hin.
    destruct (Hf f Hin); done.
Qed.

(** The fields that have a name lie before the memory map. *)
Lemma param_low (f : Param.t) : f_off f + Z.of_nat (f_size f) ≤ E820MAP.
Proof. destruct f; vm_compute; discriminate. Qed.

Lemma get_field_same `{Struct F} (m m' : mem) p (f : F) :
  load m' (ptr_add p (f_off f)) (Z.of_nat (f_size f)) = load m (ptr_add p (f_off f)) (Z.of_nat (f_size f)) →
  get_field m' p f = get_field m p f.
Proof. intros E. unfold get_field. by rewrite E. Qed.

Lemma set_entry_spec m p r m' :
  set_fields m p [(E820.addr, mr_start r); (E820.size, u64 (mr_end r - mr_start r));
                  (E820.type, e820_type (mr_type r))] = Ret m' →
  e820_is m' p r ∧
  ∀ q n, p_blk q ≠ p_blk p ∨ p_off q + n ≤ p_off p ∨ p_off p + 20 ≤ p_off q → load m' q n = load m q n.
Proof.
  intros Hs. split.
  - assert (NoDup (map (fst (B := Z)) [(E820.addr, mr_start r); (E820.size, u64 (mr_end r - mr_start r));
                  (E820.type, e820_type (mr_type r))])) as Hnd.
    { change (NoDup [E820.addr; E820.size; E820.type]). decided. }
    split; [ | split].
    + rewrite (set_fields_get _ _ _ E820.addr (mr_start r) _ Hs Hnd); [done | ]. set_solver.
    + rewrite (set_fields_get _ _ _ E820.size (u64 (mr_end r - mr_start r)) _ Hs Hnd); [ | set_solver].
      f_equal. apply Zmod_mod.
    + rewrite (set_fields_get _ _ _ E820.type (e820_type (mr_type r)) _ Hs Hnd); [ | set_solver].
      f_equal. unfold e820_type. by repeat case_if.
  - intros q n Hq. apply (set_fields_load_off _ _ _ _ _ _ Hs). by apply off_struct.
Qed.

Lemma e820_is_same (m m' : mem) p r :
  (∀ q n, p_blk q = p_blk p → p_off p ≤ p_off q → p_off q + n ≤ p_off p + 20 → load m' q n = load m q n) →
  e820_is m p r → e820_is m' p r.
Proof.
  intros Hl (Ha & Hs & Ht).
  assert (∀ f : E820.t, get_field m' p f = get_field m p f) as Hg.
  { intros f. apply get_field_same, Hl; [done | | ]; pose proof (f_inside f); simpl in *; lia. }
  unfold e820_is. by rewrite !Hg.
Qed.

Lemma fill_e820_spec ranges : ∀ m rm i m',
  fill_e820 m rm i ranges = Ret m' → 0 ≤ i → i + Z.of_nat (length ranges) ≤ E820MAX →
  (∀ k r, ranges !! k = Some r → e820_is m' (e820_entry rm (i + Z.of_nat k)) r) ∧
  (∀ q n, off_map rm i q n → load m' q n = load m q n) ∧
  (∀ f, f ≠ Param.ext_mem_k → f ≠ Param.alt_mem_k → get_field m' rm f = get_field m rm f).
Proof.
  induction ranges as [|r ranges IH]; intros m rm i m'; cbn [fill_e820].
  { intros [= <-] _ _. by split. }
  intros (m1 & He & Hm)%bind_Ret Hi Hn. apply bind_Ret in Hm as (m2 & Hx & Hm).
  cbn [length] in Hn. unfold E820MAX in Hn.
  apply IH in Hm as (Hent & Hoff & Hf); [ | lia | unfold E820MAX; lia]. clear IH.
  apply set_entry_spec in He as [He Hel].
  assert ((∀ q n, p_blk q ≠ p_blk rm ∨ p_off rm + 0x1e4 ≤ p_off q → load m2 q n = load m1 q n) ∧
    (∀ f, f ≠ Param.ext_mem_k → f ≠ Param.alt_mem_k → get_field m2 rm f = get_field m1 rm f)) as [Hxl Hxf].
  { case_if_in Hx; [by apply set_ext_memory in Hx | ]. apply Ret_inj in Hx as ->. by split. }
  unfold off_map, e820_entry, E820MAP in *. cbn [sizeof E820.struct p_off p_blk ptr_add] in *.
  split; [ | split].
  - intros [|k] r' Hk; simpl in Hk.
    + simplify_eq. rewrite Z.add_0_r. eapply e820_is_same; [ | eapply e820_is_same; [ | exact He]].
      * intros q n Hb H1 H2. simpl in *. apply Hoff. lia.
      * intros q n Hb H1 H2. simpl in *. apply Hxl. lia.
    + replace (i + Z.of_nat (S k)) with (i + 1 + Z.of_nat k) by lia. by apply Hent.
  - intros q n Hq. rewrite Hoff by lia. rewrite Hxl by lia. apply Hel. lia.
  - intros f H1 H2. rewrite Hf, Hxf by done. apply get_field_same, Hel. cbn [p_off p_blk ptr_add].
    pose proof (param_low f) as Hlow. unfold E820MAP in Hlow. lia.
Qed.

(** ** The zero page *)

Lemma load_sub (m : mem) p n d o k :
  load m p n = Ret d → 0 ≤ o → 0 ≤ k → o + k ≤ n →
  load m (ptr_add p o) k = Ret (take (Z.to_nat k) (drop (Z.to_nat o) d)).
Proof.
  intros (l & Hl & H0 & Hn & Hle & ->)%load_Ret Ho Hk Hok. apply load_Ret. exists l. simpl.
  split; [done | ]. split; [lia | ]. split; [done | ]. split; [lia | ].
  rewrite skipn_firstn_comm, take_take, drop_drop, Nat.min_l by lia. do 2 f_equal. lia.
Qed.

(** The ramdisk that the zero page announces. *)
Definition initrd_is (m : mem) (segs : list kexec_segment) (real_mode : ptr) (initrd : option (ptr * Z)) : Prop :=
  match initrd with
  | None => get_field m real_mode Param.initrd_start = Ret 0 ∧ get_field m real_mode Param.initrd_size = Ret 0
  | Some (p, n) => ∃ base, (n ≠ 0 → loaded_at segs p n base) ∧
      get_field m real_mode Param.initrd_start = Ret (u32 base) ∧
      get_field m real_mode Param.initrd_size = Ret (u32 n)
  end.

Lemma initrd_is_fields m m' segs segs' real_mode initrd :
  (∀ f, f = Param.initrd_start ∨ f = Param.initrd_size →
        get_field m' real_mode f = get_field m real_mode f) → segs ⊆ segs' →
  initrd_is m segs real_mode initrd → initrd_is m' segs' real_mode initrd.
Proof.
  intros Hf Hs. unfold initrd_is. rewrite !Hf by auto. destruct initrd as [[p n]|]; [ | done].
  intros (b & Hb & ?). exists b. split; [ | done]. intros Hn. by eapply loaded_at_mono, Hb.
Qed.

Lemma bootloader_parameters_spec lay m segs rm base off cmd initrd m' segs' v :
  setup_linux_bootloader_parameters lay m segs rm base off cmd initrd = Ret (m', segs') →
  cmd ≠ [] → 0x550 ≤ off → get_field m rm Param.protocol_version = Ret v →
  segs ⊆ segs' ∧
  load m' (ptr_add rm off) (Z.of_nat (length (terminated cmd))) = Ret (terminated cmd) ∧
  (0x0202 ≤ v → get_field m' rm Param.cmd_line_ptr = Ret (u32 (ul (base + off)))) ∧
  initrd_is m' segs' rm initrd.
Proof.
  unfold setup_linux_bootloader_parameters. intros (m1 & H1 & Hr)%bind_Ret Hc Hoff Hv.
  apply bind_Ret in Hr as (v' & Hv' & Hr).
  rewrite (set_fields_get_other _ _ _ Param.protocol_version _ H1), Hv in Hv'
    by decided.
  apply Ret_inj in Hv' as <-.
  apply bind_Ret in Hr as (addr_max & _ & Hr). apply bind_Ret in Hr as ([[ib isz] segs1] & Hi & Hr).
  apply bind_Ret in Hr as (m2 & H2 & Hr). apply bind_Ret in Hr as (m3 & H3 & Hr).
  apply bind_Ret in Hr as (m4 & H4 & Hr). apply Ret_inj in Hr. simplify_eq.
  apply store_cmdline_spec in H4 as [Hcmd H4]; [ | done].
  assert (∀ f : Param.t, get_field m' rm f = get_field m3 rm f) as Hf4.
  { intros f. apply get_field_same, H4. right. cbn [p_off ptr_add].
    pose proof (f_inside f) as Hin. change (sizeof Param.t) with 0x550 in Hin. lia. }
  assert (∀ f : Param.t, f ≠ Param.cmd_line_ptr → get_field m3 rm f = get_field m2 rm f) as Hf3.
  { intros f Hne. case_if_in H3; [ | by apply Ret_inj in H3 as ->].
    apply (get_set_field_ne _ _ _ _ _ _ H3). congruence. }
  assert (∀ f w, (f, w) ∈ [(Param.initrd_start, ib); (Param.initrd_size, isz)] →
    get_field m' rm f = Ret (u32 w)) as Hini.
  { intros f w Hfw. rewrite Hf4, Hf3 by (set_unfold in Hfw; destruct Hfw as [? | [? | []]]; simplify_eq; done).
    rewrite (set_fields_get _ _ _ f w _ H2); [ | | set_solver].
    - set_unfold in Hfw. destruct Hfw as [? | [? | []]]; simplify_eq; done.
    - change (NoDup [Param.initrd_start; Param.initrd_size; Param.cl_magic; Param.cl_offset]).
      decided. }
  split; [ | split; [done | split]].
  - destruct initrd as [[p n]|]; [ | by apply Ret_inj in Hi; simplify_eq].
    apply bind_Ret in Hi as ([b l] & Hb & Hi). apply Ret_inj in Hi. simplify_eq.
    by apply add_buffer_in in Hb as [? _].
  - intros Hv2. rewrite Hf4. apply Z.leb_le in Hv2. rewrite Hv2 in H3. by rewrite (get_set_field _ _ _ _ _ H3).
  - unfold initrd_is. destruct initrd as [[p n]|].
    + apply bind_Ret in Hi as ([b l] & Hb & Hi). apply Ret_inj in Hi. simplify_eq.
      apply add_buffer_in in Hb as [_ Hb]. exists ib. split; [done | ]. split; apply Hini; set_solver.
    + apply Ret_inj in Hi. simplify_eq. split; [apply (Hini Param.initrd_start 0) | apply (Hini Param.initrd_size 0)]; set_solver.
Qed.

Lemma protocol_version_same (m : mem) rm kernel n :
  load m rm n = Ret (take (Z.to_nat n) kernel) → 1024 ≤ n →
  get_field m rm Param.protocol_version = Ret (sfield kernel Header.protocol_version).
Proof.
  intros Hl Hn. unfold get_field.
  rewrite (load_sub _ _ _ _ (f_off Param.protocol_version) (Z.of_nat (f_size Param.protocol_version)) Hl)
    by (vm_compute Z.of_nat; vm_compute f_off; lia).
  rewrite bind_Ret_l. unfold sfield. do 2 f_equal.
  change (f_off Param.protocol_version) with 0x206. change (f_size Param.protocol_version) with 2%nat.
  change (f_off Header.protocol_version) with 0x206. change (f_size Header.protocol_version) with 2%nat.
  rewrite skipn_firstn_comm, take_take, Nat.min_l by lia. done.
Qed.

Lemma place_kernel_spec purgatory garbage lay m info kernel kbuf n m' info' rm sb :
  place_kernel purgatory garbage lay m info kernel kbuf n = Ret (m', info', rm, sb) →
  0 ≤ n ≤ INT_MAX → kern16_size kernel ≤ Z.of_nat (length kernel) →
  p_off rm = 0 ∧ load m' rm (kern16_size kernel) = Ret (take (Z.to_nat (kern16_size kernel)) kernel) ∧
  Forall (λ s, p_blk (sh_data s) ≠ p_blk rm) (default [] (e_shdr (rhdr info'))) ∧
  loaded_at (segment info') rm (kern16_size kernel + n) sb ∧
  (kern16_size kernel < Z.of_nat (length kernel) →
   loaded_at (segment info') (ptr_add kbuf (kern16_size kernel))
     (Z.of_nat (length kernel) - kern16_size kernel) KERN32_BASE).
Proof.
  unfold place_kernel. cbv zeta. pose proof (kern16_size_range kernel) as Hk.
  set (k := kern16_size kernel) in *. intros Hr Hn Hlen.
  rewrite (surjective_pairing (alloc m purgatory)) in Hr.
  apply bind_Ret in Hr as ([[[m1 h] segs1] en] & Hrel & Hr).
  apply elf_rel_build_load_blocks in Hrel as [_ Hin]; [ | rewrite alloc_lookup; eauto].
  set (l := resize _ _ _) in Hr. rewrite (surjective_pairing (alloc m1 l)) in Hr.
  apply bind_Ret in Hr as (m2 & Hst & Hr). apply bind_Ret in Hr as (v & _ & Hr).
  apply bind_Ret in Hr as ([b segs2] & Hb & Hr). case_if_in Hr; [done | ].
  apply bind_Ret in Hr as (segs3 & Hk32 & Hr). apply Ret_inj in Hr. simplify_eq.
  assert (ul (k + n) = k + n) as Hul.
  { apply ul_small. unfold INT_MAX in Hn. change (2 ^ ulong_bits) with (2 ^ 32). lia. }
  rewrite Hul in Hb. apply add_segment_in in Hk32 as [Hsub Hk32].
  split; [done | ]. split; [ | split; [ | split]].
  - apply store_load in Hst. rewrite length_take, Nat.min_l in Hst by lia. by rewrite Z2Nat.id in Hst by lia.
  - cbn [rhdr set_rhdr]. eapply List.Forall_impl; [ | exact Hin]. intros s [x Hx] Eb.
    rewrite Eb in Hx. cbn [alloc p_blk snd] in Hx.
    apply elem_of_dom_2 in Hx. by apply is_fresh in Hx.
  - cbn [segment set_rhdr]. apply (loaded_at_mono segs2); [done | ]. case_if_in Hb.
    + apply add_buffer_in in Hb as [_ Hb]. apply Hb. lia.
    + apply bind_Ret in Hb as (l' & Hs & Hb). apply Ret_inj in Hb. simplify_eq.
      apply add_segment_in in Hs as [_ Hs]. apply Hs. lia.
  - cbn [segment set_rhdr]. intros ?. apply Hk32. lia.
Qed.

Lemma set_registers_block m h rm sb real m' b :
  set_registers m h rm sb real false = Ret m' →
  Forall (λ s, p_blk (sh_data s) ≠ b) (default [] (e_shdr h)) → m' !! b = m !! b.
Proof.
  unfold set_registers. intros Hr Hb. cbv zeta in Hr.
  apply bind_Ret in Hr as (? & _ & Hr). apply bind_Ret in Hr as (? & _ & Hr).
  apply bind_Ret in Hr as (? & _ & Hr). apply bind_Ret in Hr as (? & _ & Hr).
  rewrite bind_Ret_l in Hr. apply bind_Ret in Hr as (m1 & H1 & Hr). apply bind_Ret in Hr as (m2 & H2 & H3).
  apply (set_symbol_block _ _ _ _ _ b) in H1, H2, H3; [ | done..]. by rewrite H3, H2.
Qed.

Lemma system_parameters_spec m rm ranges m' :
  setup_linux_system_parameters m rm ranges = Ret m' → p_off rm = 0 →
  (∃ l, ranges = Some l ∧ l ≠ [] ∧
     get_field m' rm Param.e820_map_nr = Ret (Z.of_nat (length (take 32 l))) ∧
     ∀ i r, take 32 l !! i = Some r → e820_is m' (e820_entry rm (Z.of_nat i)) r) ∧
  (∀ q n, p_blk q = p_blk rm → 0x550 ≤ p_off q → load m' q n = load m q n) ∧
  (∀ f, f ∉ map fst system_defaults → f ≠ Param.e820_map_nr → get_field m' rm f = get_field m rm f).
Proof.
  unfold setup_linux_system_parameters. intros (m1 & H1 & Hr)%bind_Ret H0.
  destruct ranges as [[|r l]|]; [done | | done].
  change (Z.to_nat E820MAX) with 32%nat in Hr. set (t := take 32 (r :: l)) in *.
  apply bind_Ret in Hr as (m2 & H2 & H3).
  assert (0 < length t ≤ 32)%nat as Ht by (unfold t; rewrite length_take; cbn [length]; lia).
  apply fill_e820_spec in H3 as (He & Hoff & Hf); [ | lia | unfold E820MAX; lia].
  split; [ | split].
  - exists (r :: l). split; [done | ]. split; [done | ]. split.
    + rewrite Hf by done. rewrite (get_set_field _ _ _ _ _ H2).
      fold t. f_equal. apply Z.mod_small.
      change (2 ^ (Z.of_nat (f_size Param.e820_map_nr) * 8)) with 256. lia.
    + intros i r' Hi. by apply (He i r').
  - intros q n Hb Hq. rewrite Hoff by (right; left; lia).
    rewrite (set_field_load _ _ _ _ _ q n H2).
    + apply (set_fields_load_off _ _ _ _ _ _ H1), off_struct. right; right.
      change (sizeof Param.t) with 0x550. lia.
    + right; right. change (f_off Param.e820_map_nr) with 0x1e8.
      change (Z.of_nat (f_size Param.e820_map_nr)) with 1. lia.
  - intros f Hd Hn.
    rewrite Hf by (intros ->; apply Hd; decided).
    rewrite (get_set_field_ne _ _ _ _ _ _ H2) by congruence.
    by apply (set_fields_get_other _ _ _ _ _ H1).
Qed.

(** What the kernel finds when it starts: its two parts and its ramdisk among the
    segments, the command line, its address and the memory map in the zero page. *)
Record handover (m : mem) (segs : list kexec_segment) (kernel : list byte) (kbuf : ptr)
    (cmd : list byte) (initrd : option (ptr * Z)) (ranges : list memory_range)
    (real_mode : ptr) (setup_base : Z) : Prop := {
  ho_setup : loaded_at segs real_mode (kern16_size kernel + Z.of_nat (length cmd)) setup_base;
  ho_kernel : kern16_size kernel < Z.of_nat (length kernel) →
    loaded_at segs (ptr_add kbuf (kern16_size kernel))
      (Z.of_nat (length kernel) - kern16_size kernel) KERN32_BASE;
  ho_cmdline : load m (ptr_add real_mode (kern16_size kernel)) (Z.of_nat (length (terminated cmd)))
    = Ret (terminated cmd);
  ho_cmd_ptr : 0x0202 ≤ sfield kernel Header.protocol_version →
    get_field m real_mode Param.cmd_line_ptr = Ret (u32 (ul (setup_base + kern16_size kernel)));
  ho_initrd : initrd_is m segs real_mode initrd;
  ho_e820_nr : get_field m real_mode Param.e820_map_nr = Ret (Z.of_nat (length (take 32 ranges)));
  ho_e820 : ∀ i r, take 32 ranges !! i = Some r → e820_is m (e820_entry real_mode (Z.of_nat i)) r
}.

(** C7: when a bzImage with a command line is loaded for the protected mode entry,
    its real mode part and the rest of the kernel are segments, the rest at 1 MiB;
    the zero page points to the command line, cut to 256 bytes and terminated,
    which nothing written later overlaps; it announces the ramdisk where its
    segment is; and its memory map lists the first 32 ranges with their types. *)
Theorem do_bzImage_load_handover purgatory garbage ranges lay m info kernel kbuf cmd initrd m' info' :
  do_bzImage_load purgatory garbage ranges lay m info kernel kbuf cmd initrd false false
    = Ret (0, m', info') →
  cmd ≠ [] → Z.of_nat (length cmd) ≤ INT_MAX → 0x550 ≤ kern16_size kernel →
  ∃ l real_mode setup_base, ranges = Some l ∧ l ≠ [] ∧
    handover m' (segment info') kernel kbuf cmd initrd l real_mode setup_base.
Proof.
  unfold do_bzImage_load. intros Hr Hc Hlen Hk. case_if_in Hr; [by apply Ret_inj in Hr; simplify_eq | ].
  case_if_in Hr; [by apply Ret_inj in Hr; simplify_eq | ]. zbool.
  apply bind_Ret in Hr as ([[[m1 info1] rm] sb] & Hp & Hr).
  apply place_kernel_spec in Hp as (H0 & Hl & Hsec & Hset & H32); [ | lia | done].
  apply bind_Ret in Hr as ([m2 segs2] & Hb & Hr). apply bind_Ret in Hr as (m3 & Hreg & Hr).
  apply bind_Ret in Hr as (m4 & Hsys & Hr). apply Ret_inj in Hr. simplify_eq.
  apply protocol_version_same in Hl; [ | apply kern16_size_range].
  apply (bootloader_parameters_spec _ _ _ _ _ _ _ _ _ _ _ Hb) in Hl as (Hsub & Hcmd & Hptr & Hini); [ | done..].
  apply (set_registers_block _ _ _ _ _ _ (p_blk rm)) in Hreg; [ | done].
  apply system_parameters_spec in Hsys as ((l & -> & Hne & Hnr & Hmap) & Hload & Hf); [ | done].
  assert (∀ f, f ∉ map fst system_defaults → f ≠ Param.e820_map_nr →
    get_field m' rm f = get_field m2 rm f) as Hf2.
  { intros f H1 H2. rewrite Hf by done. by apply get_field_same, load_same_block. }
  exists l, rm, sb. split; [done | ]. split; [done | ]. constructor; cbn [segment set_segment].
  - by apply (loaded_at_mono _ _ _ _ _ Hsub).
  - intros H1. by apply (loaded_at_mono _ _ _ _ _ Hsub), H32.
  - rewrite Hload by (simpl; lia). rewrite (load_same_block m2) by done. done.
  - intros H1. rewrite Hf2 by decided. by apply Hptr.
  - apply (initrd_is_fields m2 m' segs2 segs2); [ | done | done].
    intros f [-> | ->]; apply Hf2; decided.
  - done.
  - done.
Qed.

(** ** The sizes of extended memory *)

(** The test of the loop. *)
Definition crosses_1M (r : memory_range) : bool :=
  (mr_type r =? RANGE_RAM) && (mr_start r <=? 0x100000) && (0x100000 <? mr_end r).

Lemma ext_memory_below_1G r :
  0x100000 < mr_end r < 2 ^ 30 →
  ext_memory r = [(Param.ext_mem_k, u64 (Z.shiftr (mr_end r) 10 - 0x100000));
                  (Param.alt_mem_k, u64 (Z.shiftr (mr_end r) 10 - 0x100000));
                  (Param.ext_mem_k, 0xfc00); (Param.alt_mem_k, 0xffffffff)].
Proof.
  intros Hr. unfold ext_memory. rewrite Z.shiftr_div_pow2 by lia. change (2 ^ 10) with 1024.
  assert (0 ≤ mr_end r / 1024 < 2 ^ 20)
    by (split; [apply Z.div_pos | apply Z.div_lt_upper_bound]; lia).
  set (k := u64 _).
  assert (2 ^ 63 < k) as Hk.
  { unfold k, u64. replace (mr_end r / 1024 - 0x100000)
      with (2 ^ 64 + (mr_end r / 1024 - 0x100000) + (-1) * 2 ^ 64) by ring.
    rewrite Z.mod_add by lia. rewrite Z.mod_small; lia. }
  assert ((0xfc00 <? k) = true) as -> by (apply Z.ltb_lt; lia).
  by assert ((0xffffffff <? k) = true) as -> by (apply Z.ltb_lt; lia).
Qed.

Lemma fill_e820_ext ranges : ∀ m rm i m',
  fill_e820 m rm i ranges = Ret m' → 0 ≤ i → i + Z.of_nat (length ranges) ≤ E820MAX →
  Forall (λ r, crosses_1M r = true → mr_end r < 2 ^ 30) ranges →
  if existsb crosses_1M ranges
  then get_field m' rm Param.ext_mem_k = Ret 0xfc00 ∧ get_field m' rm Param.alt_mem_k = Ret 0xffffffff
  else get_field m' rm Param.ext_mem_k = get_field m rm Param.ext_mem_k ∧
       get_field m' rm Param.alt_mem_k = get_field m rm Param.alt_mem_k.
Proof.
  induction ranges as [|r ranges IH]; intros m rm i m'; cbn [fill_e820 existsb].
  { intros [= <-] _ _ _. by split. }
  intros (m1 & He & Hm)%bind_Ret Hi Hn [Hr Hs]%Forall_cons_1. apply bind_Ret in Hm as (m2 & Hx & Hm).
  cbn [length] in Hn. unfold E820MAX in Hn.
  apply IH in Hm; [ | lia | unfold E820MAX; lia | done]. clear IH.
  apply set_entry_spec in He as [_ He].
  assert (∀ f : Param.t, get_field m1 rm f = get_field m rm f) as Hf.
  { intros f. apply get_field_same, He. pose proof (param_low f) as Hlow.
    unfold e820_entry, E820MAP in *. cbn [sizeof E820.struct p_off p_blk ptr_add]. lia. }
  fold (crosses_1M r) in Hx. destruct (crosses_1M r) eqn:Ec; cbn [orb].
  - assert (get_field m2 rm Param.ext_mem_k = Ret 0xfc00 ∧
            get_field m2 rm Param.alt_mem_k = Ret 0xffffffff) as Hm2.
    { unfold crosses_1M in Ec. zbool. rewrite ext_memory_below_1G in Hx by auto.
      apply bind_Ret in Hx as (ma & _ & Hx). apply bind_Ret in Hx as (mb & _ & Hx).
      apply bind_Ret in Hx as (mc & Hc & Hx). apply bind_Ret in Hx as (md & Hd & Hx).
      apply Ret_inj in Hx as ->. split.
      - rewrite (get_set_field_ne _ _ _ _ _ _ Hd) by done. by rewrite (get_set_field _ _ _ _ _ Hc).
      - by rewrite (get_set_field _ _ _ _ _ Hd). }
    destruct (existsb crosses_1M ranges); [done | ]. destruct Hm as [-> ->]. done.
  - apply Ret_inj in Hx as ->. rewrite <- !Hf. done.
Qed.

(** on a machine whose RAM across the first megabyte ends below 1 GiB, the
    zero page says that 4 TiB of memory follow the first megabyte (the megabyte is
    subtracted in bytes from a number of KiB, and the difference wraps around). *)
Theorem alt_mem_k_wraps m rm ranges m' :
  setup_linux_system_parameters m rm (Some ranges) = Ret m' → p_off rm = 0 →
  Forall (λ r, crosses_1M r = true → mr_end r < 2 ^ 30) (take 32 ranges) →
  existsb crosses_1M (take 32 ranges) = true →
  get_field m' rm Param.alt_mem_k = Ret 0xffffffff ∧ get_field m' rm Param.ext_mem_k = Ret 0xfc00.
Proof.
  unfold setup_linux_system_parameters. intros (m1 & _ & Hr)%bind_Ret H0 Hs Hex.
  destruct ranges as [|r l]; [done | ]. change (Z.to_nat E820MAX) with 32%nat in Hr.
  set (t := take 32 (r :: l)) in *. apply bind_Ret in Hr as (m2 & _ & H3).
  apply fill_e820_ext in H3; [ | done | unfold t, E820MAX; rewrite length_take; lia | done].
  rewrite Hex in H3. by destruct H3.
Qed.

(** Without a command line the NUL is written before it: the last byte of the
    kernel's real mode code is lost. *)
Lemma no_command_line m rm off m' :
  store_cmdline m rm off [] = Ret m' → load m' (ptr_add rm (off - 1)) 1 = Ret [Byte.x00].
Proof.
  unfold store_cmdline. cbv zeta. intros (m1 & _ & Hs)%bind_Ret.
  apply store_load in Hs. simpl in Hs. rewrite <- Hs. unfold ptr_add. simpl. do 2 f_equal. lia.
Qed.

(** The code segment of the real mode entry is an address, cut to 16 bits. *)
Lemma real_mode_segment base se regs :
  Z.of_nat (length regs) = sizeof Regs16.t →
  sfield (init_regs16 base se regs) Regs16.cs = (base + 0x20) `mod` 2 ^ 16.
Proof.
  intros Hl. unfold init_regs16. cbn [foldl].
  assert (∀ l (f : Regs16.t) v, Z.of_nat (length l) = sizeof Regs16.t →
    Z.of_nat (length (with_field l f v)) = sizeof Regs16.t) as Hw
    by (intros l f v Hll; by rewrite length_with_field).
  rewrite !field_with_field_ne by (auto || done). by rewrite field_with_field.
Qed.

(** ** A kernel on a small PC *)

Module Witness.
Definition le (n : nat) (z : Z) : list byte := split false n z.

(** A small purgatory: text, the register variables, symbols and names. *)
Definition symbol (name value size shndx : Z) : list byte :=
  le 4 name ++ le 4 value ++ le 4 size ++ le 1 0x10 ++ le 1 0 ++ le 2 shndx.

Definition names : list byte :=
  [Byte.x00] ++ bs "entry16_regs" ++ [Byte.x00] ++ bs "entry32_regs" ++ [Byte.x00]
  ++ bs "entry16_debug_regs" ++ [Byte.x00] ++ bs "stack_end" ++ [Byte.x00].

Definition section_header (ty flags off size link info align ent : Z) : list byte :=
  le 4 0 ++ le 4 ty ++ le 4 flags ++ le 4 0 ++ le 4 off ++ le 4 size ++ le 4 link ++ le 4 info
  ++ le 4 align ++ le 4 ent.

Definition elf_header (shoff shnum : Z) : list byte :=
  [Byte.x7f; Byte.x45; Byte.x4c; Byte.x46; Byte.x01; Byte.x01; Byte.x01] ++ repeat Byte.x00 9
  ++ le 2 1 ++ le 2 3 ++ le 4 1 ++ le 4 0 ++ le 4 0 ++ le 4 shoff ++ le 4 0
  ++ le 2 52 ++ le 2 0 ++ le 2 0 ++ le 2 40 ++ le 2 shnum ++ le 2 0.

Definition purgatory : list byte :=
  elf_header 336 5 ++ repeat Byte.x90 16 ++ repeat Byte.x00 132
  ++ symbol 0 0 0 0 ++ symbol 1 0 48 2 ++ symbol 14 48 36 2 ++ symbol 27 84 48 2 ++ symbol 46 16 0 1
  ++ names
  ++ section_header 0 0 0 0 0 0 0 0 ++ section_header 1 6 52 16 0 0 16 0
  ++ section_header 1 3 68 132 0 0 4 0 ++ section_header 2 0 200 80 4 1 4 16
  ++ section_header 3 0 280 56 0 0 1 0.

Definition kernel : list byte :=
  foldl (λ l '(f, v), with_field l f v)
    (with_field (repeat Byte.x00 33280) Param.initrd_addr_max DEFAULT_INITRD_ADDR_MAX)
    [(Header.setup_sects, 4); (Header.boot_sector_magic, 0xAA55); (Header.header_magic, 0x53726448);
     (Header.protocol_version, 0x203); (Header.loadflags, 1)].

Definition ram (s e : Z) : memory_range := {| mr_start := s; mr_end := e; mr_type := RANGE_RAM |}.
Definition pc : layout :=
  {| memory_ranges := [ram 0x1000 0x9efff; {| mr_start := 0xa0000; mr_end := 0xfffff; mr_type := RANGE_RESERVED |}; ram 0x100000 0x7ffffff]; mem_min := 0; mem_max := ULONG_MAX |}.
Definition m0 : mem := {[ 1%positive := kernel ]}.
Definition at_kernel (off : Z) : ptr := {| p_blk := 1; p_off := off |}.

#[local] Abbreviation loaded :=
  (do_bzImage_load purgatory [] (Some (memory_ranges pc)) pc m0 empty_info kernel (at_kernel 0)
    (bs "ro" ++ [Byte.x00]) (Some (at_kernel 512, 5000)) false false).

Lemma loaded_ok : match loaded with Ret (r, _, _) => r | _ => 1 end = 0.
Proof. vm_compute. reflexivity. Qed.

Lemma do_bzImage_load_handover_witness :
  ∃ m' info' l real_mode setup_base,
    handover m' (segment info') kernel (at_kernel 0) (bs "ro" ++ [Byte.x00])
      (Some (at_kernel 512, 5000)) l real_mode setup_base.
Proof.
  pose proof loaded_ok as Hok. destruct loaded as [[[r m'] info'] | | | ] eqn:E; [ | discriminate Hok..].
  subst r. exists m', info'.
  destruct (do_bzImage_load_handover purgatory [] (Some (memory_ranges pc)) pc m0 empty_info kernel
    (at_kernel 0) (bs "ro" ++ [Byte.x00]) (Some (at_kernel 512, 5000)) m' info' E)
    as (l & rm & sb & _ & _ & Hh); [discriminate | by vm_compute | by vm_compute | ].
  by exists l, rm, sb.
Defined.

Definition zero_page : mem := {[ 1%positive := repeat Byte.x00 2560 ]}.
#[local] Abbreviation filled :=
  (setup_linux_system_parameters zero_page (at_kernel 0) (Some [ram 0 0x7ffffff])).

Lemma filled_ok : returns filled.
Proof. decided. Qed.

Lemma alt_mem_k_wraps_witness :
  ∃ m', get_field m' (at_kernel 0) Param.alt_mem_k = Ret 0xffffffff ∧
        get_field m' (at_kernel 0) Param.ext_mem_k = Ret 0xfc00.
Proof.
  pose proof filled_ok as Hok. destruct filled as [m' | | | ] eqn:E; [ | destruct Hok..].
  exists m'. apply (alt_mem_k_wraps zero_page (at_kernel 0) [ram 0 0x7ffffff] m' E);
    [done | | by vm_compute].
  apply List.Forall_cons; [by vm_compute | apply List.Forall_nil].
Defined.
End Witness.
