(* ===== verification/LoadersX86.v ===== *)
(** The other loaders of i386 under kexec-tools/kexec/arch/i386/: ELF executables
    (kexec-elf-x86.c), Beoboot images (kexec-beoboot-x86.c, include/boot/beoboot.h) and
    network boot images (kexec-nbi.c). *)

From Stdlib Require Import ZArith Lia String.
From stdpp Require Import base tactics list numbers gmap.
From coqutil Require Import Byte.
From S2P Require Import Prelude Words CMem CString Struct Segments Elf ElfBoot ElfExec ElfRel ElfRelSpec Kexec KexecX86 X86Linux.

#[local] Open Scope Z_scope.

(** ** ELF executables *)

(** [struct x86_linux_faked_param_header]: the zero page and a command line. *)
Module Faked.
Inductive t := command_line.

#[global] Instance struct : Struct t.
Proof.
  refine {| f_off := λ f, match f with command_line => 0x800 end;
            f_size := λ f, match f with command_line => 256%nat end; sizeof := 0x1000 |}; layout_laws.
Defined.
End Faked.

Section elf_x86.
Context `{Machine}.

(** The pointer of the copy of the file does not matter to the result. *)
Definition elf_x86_probe (buf : list byte) : outcome Z :=
  result ← build_elf_exec_info buf {| p_blk := 1; p_off := 0 |};
  match result with
  | None => Ret (-1)
  | Some ehdr =>
      if negb (e_machine ehdr =? EM_386) && negb (e_machine ehdr =? EM_486) then Ret (-1) else Ret 0
  end.

Inductive arg_style := ARG_STYLE_ELF | ARG_STYLE_LINUX | ARG_STYLE_NONE.

Definition OPT_ARGS_ELF := OPT_ARCH_MAX + 2.
Definition OPT_ARGS_LINUX := OPT_ARCH_MAX + 3.
Definition OPT_ARGS_NONE := OPT_ARCH_MAX + 4.

Record elf_x86_options := {
  ex_command_line : option (list byte); ex_ramdisk : option (list byte); ex_style : arg_style
}.

Definition set_style (s : arg_style) (o : elf_x86_options) : elf_x86_options :=
  {| ex_command_line := ex_command_line o; ex_ramdisk := ex_ramdisk o; ex_style := s |}.

(** One option; [None] is the result -1.  The test for i386 around --args-none has an
    underscore too many, so the program ends there. *)
Definition elf_x86_option (o : elf_x86_options) (opt : Z) (optarg : list byte)
    : outcome (option elf_x86_options) :=
  if opt =? OPT_APPEND then
    Ret (Some {| ex_command_line := Some optarg; ex_ramdisk := ex_ramdisk o; ex_style := ex_style o |})
  else if opt =? OPT_RAMDISK then
    Ret (Some {| ex_command_line := ex_command_line o; ex_ramdisk := Some optarg; ex_style := ex_style o |})
  else if opt =? OPT_ARGS_ELF then Ret (Some (set_style ARG_STYLE_ELF o))
  else if opt =? OPT_ARGS_LINUX then Ret (Some (set_style ARG_STYLE_LINUX o))
  else if opt =? OPT_ARGS_NONE then Die "--args-none only works on arch i386"
  else if opt =? 63 then Ret None
  else if opt <? OPT_ARCH_MAX then Ret (Some o)
  else Ret None.

Fixpoint elf_x86_fold (opts : list (Z * list byte)) (o : elf_x86_options)
    : outcome (option elf_x86_options) :=
  match opts with
  | [] => Ret (Some o)
  | (opt, optarg) :: opts =>
      r ← elf_x86_option o opt optarg;
      match r with Some o => elf_x86_fold opts o | None => Ret None end
  end.

(** The built-in purgatory, the version of kexec, what [malloc] finds in the memory it
    returns, the result of [get_memory_ranges] and the contents of files. *)
Context (purgatory version garbage : list byte) (ranges : option (list memory_range)).
Context (opts : list (Z * list byte)) (slurp_file : list byte → outcome (list byte)).

Definition xmalloc (n : Z) : list byte := resize (Z.to_nat n) Byte.x00 garbage.

(** The ELF boot notes and the registers that point to them. *)
Definition elf_arguments (lay : layout) (m : mem) (h : mem_ehdr) (segs : list kexec_segment)
    (command_line : list byte) (entry max_addr : Z) : outcome (mem * list kexec_segment) :=
  '(note_base, segs, m) ← elf_boot_notes lay m segs version command_line max_addr xmalloc;
  m ← elf_rel_set_symbol m h (bs "stack_arg32_1") (split host_be 4 note_base);
  m ← elf_rel_set_symbol m h (bs "stack_arg32_2") (split host_be 4 0);
  regs ← elf_rel_get_symbol m h (bs "entry32_regs") (sizeof Regs32.t);
  let regs := with_field regs Regs32.eip entry in
  esp ← elf_rel_get_addr m h (bs "stack_arg32_2");
  m ← elf_rel_set_symbol m h (bs "entry32_regs") (with_field regs Regs32.esp esp);
  mret (m, segs).

(** The zero page and the registers that point to it.  The file of the ramdisk is read
    into a variable that hides the one that is passed on. *)
Definition linux_arguments (lay : layout) (m : mem) (h : mem_ehdr) (segs : list kexec_segment)
    (command_line : list byte) (ramdisk : option (list byte)) (entry max_addr : Z)
    : outcome (mem * list kexec_segment) :=
  let size := sizeof Faked.t in
  let '(m, hdr) := alloc m (xmalloc size) in
  '(param_base, segs) ← add_buffer lay segs hdr size size 16 0 max_addr 1;
  m ← store m hdr (replicate (Z.to_nat size) Byte.x00);
  m ← init_linux_parameters m hdr;
  m ← match ramdisk with
      | Some name => data ← slurp_file name; mret (alloc m data).1
      | None => Ret m
      end;
  '(m, segs) ← setup_linux_bootloader_parameters lay m segs hdr param_base
                 (f_off Faked.command_line) command_line None;
  m ← setup_linux_system_parameters m hdr ranges;
  regs ← elf_rel_get_symbol m h (bs "entry32_regs") (sizeof Regs32.t);
  stack_end ← elf_rel_get_addr m h (bs "stack_end");
  m ← elf_rel_set_symbol m h (bs "entry32_regs")
        (foldl (λ l '(f, v), with_field l f v) regs
           [(Regs32.ebx, 0); (Regs32.esi, param_base); (Regs32.eip, entry); (Regs32.esp, stack_end)]);
  mret (m, segs).

Definition elf_x86_load (lay : layout) (argv : list (list byte)) (buf : list byte) (kbuf : ptr)
    (m : mem) (info : kexec_info) : outcome (Z * mem * kexec_info) :=
  o ← elf_x86_fold opts {| ex_command_line := None; ex_ramdisk := None; ex_style := ARG_STYLE_ELF |};
  match o with
  | None => Ret (-1, m, info)
  | Some o =>
      let command_line := match ex_command_line o with Some s => s ++ [Byte.x00] | None => [] end in
      '(ehdr, segs) ← elf_exec_build_load lay buf kbuf (segment info);
      let max_addr := elf_max_addr ehdr in
      match ex_style o with
      | ARG_STYLE_NONE => Ret (0, m, {| segment := segs; entry := e_entry ehdr; rhdr := rhdr info |})
      | style =>
          let '(m, pbuf) := alloc m purgatory in
          '(m, h, segs, e) ← elf_rel_build_load lay garbage m purgatory pbuf segs 0 ULONG_MAX 1;
          '(m, segs) ←
            match style with
            | ARG_STYLE_LINUX =>
                linux_arguments lay m h segs command_line (ex_ramdisk o) (e_entry ehdr) max_addr
            | _ =>
                r ← elf_arguments lay m h segs command_line (e_entry ehdr) max_addr;
                match ex_ramdisk o with
                | Some _ => Die "Ramdisks not supported with generic elf arguments"
                | None => Ret r
                end
            end;
          mret (0, m, set_rhdr segs e h)
      end
  end.

(** The entry of the table of loaders. *)
Definition elf_x86_type : file_type :=
  {| ft_name := bs "elf-x86"; ft_probe := elf_x86_probe; ft_load := elf_x86_load |}.
End elf_x86.

(** ** Beoboot images *)

Module Beoboot.
Inductive t := magic | arch | flags | cmdline_size | kernel_size | initrd_size.

#[global] Instance struct : Struct t.
Proof.
  refine {| f_off := λ f, match f with
              | magic => 0 | arch => 4 | flags => 5 | cmdline_size => 6 | kernel_size => 8
              | initrd_size => 12 end;
            f_size := λ f, match f with
              | arch | flags => 1%nat | cmdline_size => 2%nat | _ => 4%nat end;
            sizeof := 16 |}; layout_laws.
Defined.
End Beoboot.

Definition BEOBOOT_MAGIC : list byte := bs "BeoB".
Definition BEOBOOT_ARCH := 1.
Definition BEOBOOT_INITRD_PRESENT := 1.

Section beoboot.
Context `{Machine}.

(** The sizes in the header are not compared with the size of the file. *)
Definition beoboot_probe (buf : list byte) : outcome Z :=
  if Z.of_nat (length buf) <? sizeof Beoboot.t then Ret (-1)
  else
    bb_header ← read_at buf 0 (sizeof Beoboot.t);
    if negb (bool_decide (take 4 bb_header = BEOBOOT_MAGIC)) then Ret (-1)
    else if negb (sfield bb_header Beoboot.arch =? BEOBOOT_ARCH) then Ret (-1)
    else
      let kernel := sizeof Beoboot.t + sfield bb_header Beoboot.cmdline_size in
      if sfield bb_header Beoboot.kernel_size <? sizeof Header.t then Ret (-1)
      else header ← read_at buf kernel (sizeof Header.t); mret (bzImage_probe header).

Definition BEOBOOT_REAL_MODE := OPT_ARCH_MAX + 0.

(** The options: whether to use the real mode entry, and to debug. *)
Definition beoboot_option (o : bool * bool) (opt : Z) (optarg : list byte) : option (bool * bool) :=
  if opt =? OPT_DEBUG then Some (o.1, true)
  else if opt =? BEOBOOT_REAL_MODE then Some (true, o.2)
  else if opt =? 63 then None
  else if opt <? OPT_ARCH_MAX then Some o
  else None.

Context (purgatory garbage : list byte) (ranges : option (list memory_range)).
Context (opts : list (Z * list byte)).

Definition beoboot_load (lay : layout) (argv : list (list byte)) (buf : list byte) (kbuf : ptr)
    (m : mem) (info : kexec_info) : outcome (Z * mem * kexec_info) :=
  match fold_options beoboot_option opts (false, false) with
  | None => Ret (-1, m, info)
  | Some (real_mode_entry, debug) =>
      bb_header ← read_at buf 0 (sizeof Beoboot.t);
      let cmdline_size := sfield bb_header Beoboot.cmdline_size in
      let kernel_size := sfield bb_header Beoboot.kernel_size in
      let command_line := sizeof Beoboot.t in
      let kernel := command_line + cmdline_size in
      let initrd :=
        if Z.land (sfield bb_header Beoboot.flags) BEOBOOT_INITRD_PRESENT =? 0 then None
        else Some (ptr_add kbuf (kernel + kernel_size), sfield bb_header Beoboot.initrd_size) in
      line ← read_at buf command_line cmdline_size;
      image ← read_at buf kernel kernel_size;
      do_bzImage_load purgatory garbage ranges lay m info image (ptr_add kbuf kernel)
        line initrd real_mode_entry debug
  end.

Definition beoboot_type : file_type :=
  {| ft_name := bs "beoboot-x86"; ft_probe := beoboot_probe; ft_load := beoboot_load |}.
End beoboot.

(** ** Network boot images *)

Module Segheader.
Inductive t := length | vendortag | reserved | flags | loadaddr | imglength | memlength.

#[global] Instance struct : Struct t.
Proof.
  refine {| f_off := λ f, match f with
              | length => 0 | vendortag => 1 | reserved => 2 | flags => 3 | loadaddr => 4
              | imglength => 8 | memlength => 12 end;
            f_size := λ f, match f with
              | length | vendortag | reserved | flags => 1%nat | _ => 4%nat end;
            sizeof := 16 |}; layout_laws.
Defined.
End Segheader.

(** [execaddr] is the union: the address, or the offset and the segment. *)
Module Imgheader.
Inductive t := magic | length | bx | ds | execaddr.

#[global] Instance struct : Struct t.
Proof.
  refine {| f_off := λ f, match f with
              | magic => 0 | length => 4 | bx => 8 | ds => 10 | execaddr => 12 end;
            f_size := λ f, match f with bx | ds => 2%nat | _ => 4%nat end;
            sizeof := 16 |}; layout_laws.
Defined.
End Imgheader.

Module Segoff.
Inductive t := ip | cs.

#[global] Instance struct : Struct t.
Proof.
  refine {| f_off := λ f, match f with ip => 0 | cs => 2 end; f_size := λ f, 2%nat; sizeof := 4 |};
    layout_laws.
Defined.
End Segoff.

Section nbi.
Context `{Machine}.

Definition NBI_MAGIC : list byte := [Byte.x36; Byte.x13; Byte.x03; Byte.x1b].
Definition NBI_SEG := 3.
Definition NBI_SEG_ABSOLUTE := 0.
Definition NBI_SEG_APPEND := 1.
Definition NBI_SEG_NEGATIVE := 2.
Definition NBI_SEG_PREPEND := 3.
Definition NBI_LAST_SEG := 4.
Definition NBI_ENTRY32 := 2 ^ 31.

(** The place of the first segment header. *)
Definition first_seg (length : Z) : Z :=
  4 * (Z.shiftr (Z.land length 0xf0) 4 + Z.land length 0x0f).

(** The place after a segment header. *)
Definition next_seg (seg_off : Z) (seg : list byte) : Z :=
  let length := sfield seg Segheader.length in
  seg_off + 4 * (Z.land length 0xf + Z.land (Z.shiftr length 4) 0xf).

Definition last_seg (seg : list byte) : bool :=
  negb (Z.land (sfield seg Segheader.flags) NBI_LAST_SEG =? 0).

(** The loop over the segment headers, at most 33 of 16 bytes or more up to the
    offset 512. *)
Fixpoint probe_segments (fuel : nat) (buf : list byte) (seg_off : Z) : outcome Z :=
  match fuel with
  | O => Spin
  | S fuel =>
      seg ← read_at buf seg_off (sizeof Segheader.t);
      if negb (Z.land (sfield seg Segheader.length) 0xf =? 4) then Ret (-1)
      else
        let seg_off := next_seg seg_off seg in
        if negb (Z.land (sfield seg Segheader.flags) 0xf8 =? 0) then Ret (-1)
        else if Z.land (sfield seg Segheader.flags) NBI_SEG =? NBI_SEG_NEGATIVE then Ret (-1)
        else if 512 <? seg_off then Ret (-1)
        else if last_seg seg then Ret 0
        else probe_segments fuel buf seg_off
  end.

Definition nbi_fuel : nat := 34.

Definition nbi_probe (buf : list byte) : outcome Z :=
  let len := Z.of_nat (length buf) in
  if (len <? sizeof Imgheader.t) || (len <? 512) then Ret (-1)
  else
    hdr ← read_at buf 0 (sizeof Imgheader.t);
    let length := sfield hdr Imgheader.length in
    if negb (bool_decide (take 4 hdr = NBI_MAGIC)) then Ret (-1)
    else if negb (Z.land length 0xf * 4 =? sizeof Imgheader.t) then Ret (-1)
    else if 512 - sizeof Imgheader.t <? Z.shiftr (Z.land length 0xf0) 4 * 4 then Ret (-1)
    else if negb (Z.land length 0x7ffffe00 =? 0) then Ret (-1)
    else if negb (Z.land length (2 ^ 8) =? 0) then Ret (-1)
    else probe_segments nbi_fuel buf (first_seg length).

(** The loop that loads the segments: [last0] and [last1] are the bounds of the last
    one, [file_off] its end in the file.  A kind of segment that the probe refuses
    leaves the address unset. *)
Fixpoint load_nbi_segments (fuel : nat) (lay : layout) (buf : list byte) (kbuf : ptr)
    (seg_off file_off last0 last1 : Z) (segs : list kexec_segment) : outcome (list kexec_segment) :=
  match fuel with
  | O => Spin
  | S fuel =>
      seg ← read_at buf seg_off (sizeof Segheader.t);
      let seg_off := next_seg seg_off seg in
      let kind := Z.land (sfield seg Segheader.flags) NBI_SEG in
      let addr := sfield seg Segheader.loadaddr in
      loadaddr ← (if kind =? NBI_SEG_ABSOLUTE then Ret addr
                  else if kind =? NBI_SEG_APPEND then Ret (u32 (last1 + addr))
                  else if kind =? NBI_SEG_PREPEND then Ret (u32 (last0 - addr))
                  else UB "read of an uninitialised variable");
      let imglength := sfield seg Segheader.imglength in
      let memlength := sfield seg Segheader.memlength in
      segs ← add_segment lay segs (ptr_add kbuf file_off) imglength loadaddr memlength;
      if last_seg seg then Ret segs
      else load_nbi_segments fuel lay buf kbuf seg_off (file_off + imglength) loadaddr
             (u32 (loadaddr + memlength)) segs
  end.

(** The options: only those of the core are known. *)
Definition nbi_option (o : unit) (opt : Z) (optarg : list byte) : option unit :=
  if opt =? 63 then None else if opt <? OPT_ARCH_MAX then Some o else None.

(** The registers of the entry.  Purgatory, whose symbols they are, is not loaded by
    this loader. *)
Definition nbi_registers (m : mem) (h : mem_ehdr) (hdr : list byte) : outcome mem :=
  let execaddr := take 4 (drop 12 hdr) in
  if negb (Z.land (sfield hdr Imgheader.length) NBI_ENTRY32 =? 0) then
    regs32 ← elf_rel_get_symbol m h (bs "entry32_regs32") (sizeof Regs32.t);
    elf_rel_set_symbol m h (bs "entry32_regs32")
      (with_field regs32 Regs32.eip (sfield hdr Imgheader.execaddr))
  else
    regs16 ← elf_rel_get_symbol m h (bs "entry16_regs") (sizeof Regs16.t);
    let regs16 := with_field regs16 Regs16.cs (sfield execaddr Segoff.cs) in
    let regs16 := with_field regs16 Regs16.ip (sfield execaddr Segoff.ip) in
    m ← elf_rel_set_symbol m h (bs "entry16_regs") regs16;
    regs32 ← elf_rel_get_symbol m h (bs "entry32_regs") (sizeof Regs32.t);
    entry16 ← elf_rel_get_addr m h (bs "entry16");
    elf_rel_set_symbol m h (bs "entry32_regs") (with_field regs32 Regs32.eip entry16).

Definition nbi_load (opts : list (Z * list byte)) (lay : layout) (argv : list (list byte))
    (buf : list byte) (kbuf : ptr) (m : mem) (info : kexec_info) : outcome (Z * mem * kexec_info) :=
  match fold_options nbi_option opts tt with
  | None => Ret (-1, m, info)
  | Some _ =>
      hdr ← read_at buf 0 (sizeof Imgheader.t);
      let base := 16 * sfield hdr Imgheader.ds + sfield hdr Imgheader.bx in
      segs ← add_segment lay (segment info) kbuf 512 base 512;
      segs ← load_nbi_segments nbi_fuel lay buf kbuf (first_seg (sfield hdr Imgheader.length)) 512
               base (u32 (base + 512)) segs;
      m ← nbi_registers m (rhdr info) hdr;
      mret (0, m, set_segment segs info)
  end.

Definition nbi_type (opts : list (Z * list byte)) : file_type :=
  {| ft_name := bs "nbi-x86"; ft_probe := nbi_probe; ft_load := nbi_load opts |}.
End nbi.
