(* ===== verification/LoadersPpc.v ===== *)
(** The loaders of ppc under kexec-tools/kexec/arch/ppc/: the executables of the
    GameCube (kexec-dol-ppc.c), ELF executables (kexec-elf-ppc.c) and the table of
    memory (kexec-ppc.c).

    The code that runs before the kernel is assembly: it is an argument, a list of
    bytes and the place in it of the structure whose field spr8 holds the entry point. *)

From Stdlib Require Import ZArith Lia String.
From stdpp Require Import base tactics list numbers gmap.
From coqutil Require Import Byte.
From S2P Require Import Prelude Words CMem CString Struct Segments Elf ElfBoot IpChecksum ElfExec ElfRel Kexec KexecX86 X86Linux.

#[local] Open Scope Z_scope.
#[local] Existing Instance ppc.

(** ** The header of a DOL file *)

Definition DOL_HEADER_SIZE : Z := 0x100.
Definition DOL_SECT_MAX_TEXT : nat := 7.
Definition DOL_SECT_MAX_DATA : nat := 11.
Definition DOL_MAX_SECT : nat := DOL_SECT_MAX_TEXT + DOL_SECT_MAX_DATA.

Record dol_header := {
  offset_text : list Z; offset_data : list Z;
  address_text : list Z; address_data : list Z;
  size_text : list Z; size_data : list Z;
  address_bss : Z; size_bss : Z; entry_point : Z
}.

Definition sizeof_dol_header : Z := 228.

(** An array of 32-bit integers. *)
Fixpoint dol_words (n : nat) (l : list byte) : list Z :=
  match n with O => [] | S n => combine host_be (take 4 l) :: dol_words n (drop 4 l) end.

(** The header whose representation is [l]. *)
Definition dol_header_of (l : list byte) : dol_header :=
  let w := dol_words 57 l in
  let array (first n : nat) := take n (drop first w) in
  {| offset_text := array 0%nat DOL_SECT_MAX_TEXT; offset_data := array 7%nat DOL_SECT_MAX_DATA;
     address_text := array 18%nat DOL_SECT_MAX_TEXT; address_data := array 25%nat DOL_SECT_MAX_DATA;
     size_text := array 36%nat DOL_SECT_MAX_TEXT; size_data := array 43%nat DOL_SECT_MAX_DATA;
     address_bss := nth 54 w 0; size_bss := nth 55 w 0; entry_point := nth 56 w 0 |}.

Definition dol_sect_offset (h : dol_header) (index : nat) : Z :=
  if (DOL_SECT_MAX_TEXT <=? index)%nat then nth (index - DOL_SECT_MAX_TEXT) (offset_data h) 0
  else nth index (offset_text h) 0.
Definition dol_sect_address (h : dol_header) (index : nat) : Z :=
  if (DOL_SECT_MAX_TEXT <=? index)%nat then nth (index - DOL_SECT_MAX_TEXT) (address_data h) 0
  else nth index (address_text h) 0.
Definition dol_sect_size (h : dol_header) (index : nat) : Z :=
  if (DOL_SECT_MAX_TEXT <=? index)%nat then nth (index - DOL_SECT_MAX_TEXT) (size_data h) 0
  else nth index (size_text h) 0.

(** ** Segments *)

Record dol_segment := { sects_bitmap : Z; start : Z; size : Z }.

Definition no_segment : dol_segment := {| sects_bitmap := 0; start := 0; size := 0 |}.

Definition dol_seg_end (s : dol_segment) : Z := u32 (start s + size s).
Definition dol_seg_after_sect (s1 s2 : dol_segment) : bool := dol_seg_end s2 <=? start s1.
Definition dol_seg_overlaps (s1 s2 : dol_segment) : bool :=
  negb (dol_seg_after_sect s1 s2 || dol_seg_after_sect s2 s1).

Definition ppc_PAGE_SIZE : Z := 4096.
Definition PAGE_MASK : Z := notw 32 (ppc_PAGE_SIZE - 1).
Definition PAGE_ALIGN (addr : Z) : Z := Z.land (u32 (addr + (ppc_PAGE_SIZE - 1))) PAGE_MASK.

(** The segment of the section [i]. *)
Definition section_segment (h : dol_header) (i : nat) : dol_segment :=
  let addr := dol_sect_address h i in
  let sz := dol_sect_size h i in
  let seg_start := Z.land addr PAGE_MASK in
  let end1 := u32 (addr + sz) in
  let adj1 := u32 (addr - seg_start) in
  let adj2 := u32 (PAGE_ALIGN end1 - end1) in
  {| sects_bitmap := Z.shiftl 1 (Z.of_nat i); start := seg_start; size := u32 (adj1 + sz + adj2) |}.

(** The loop from the section [i] on, [n] more of them; the segments made. *)
Fixpoint load_loop (n i remaining : nat) (h : dol_header) : list dol_segment :=
  match n with
  | O => []
  | S n =>
      match remaining with
      | O => []
      | S rest =>
          if dol_sect_size h i =? 0 then load_loop n (S i) remaining h
          else section_segment h i :: load_loop n (S i) rest h
      end
  end.

Definition load_dol_segments (max_segs : nat) (h : dol_header) : list dol_segment :=
  load_loop DOL_MAX_SECT 0 max_segs h.

Definition seg_at (segs : list dol_segment) (i : nat) : dol_segment := nth i segs no_segment.

(** [s] with its end moved to that of [t], and with the sections of [t]. *)
Definition extend_segment (s t : dol_segment) : dol_segment :=
  let extra_length := u32 (dol_seg_end t - dol_seg_end s) in
  {| sects_bitmap := Z.lor (sects_bitmap s) (sects_bitmap t); start := start s;
     size := if (0 <? extra_length) && (extra_length <? 2 ^ 31) then u32 (size s + extra_length) else size s |}.

(** The loop over the segments before [i], from [j] on, [n] of them; whether segment [i]
    was deleted. *)
Fixpoint fix_inner (n j i : nat) (segs : list dol_segment) : bool * list dol_segment :=
  match n with
  | O => (false, segs)
  | S n =>
      let p := seg_at segs i in
      let pp := seg_at segs j in
      if (size pp =? 0) || negb (dol_seg_overlaps p pp) then fix_inner n (S j) i segs
      else if start pp <? start p then (true, <[i := no_segment]> (<[j := extend_segment pp p]> segs))
      else fix_inner n (S j) i (<[j := no_segment]> (<[i := extend_segment p pp]> segs))
  end.

(** The outer loop.  After a deletion it goes on with [i = 0], then incremented. *)
Fixpoint fix_outer (fuel max_segs i : nat) (segs : list dol_segment) : outcome (list dol_segment) :=
  if (i <? max_segs)%nat then
    match fuel with
    | O => Spin
    | S fuel =>
        if size (seg_at segs i) =? 0 then fix_outer fuel max_segs (S i) segs
        else
          let '(deleted, segs) := fix_inner i 0 i segs in
          fix_outer fuel max_segs (if deleted then 1 else S i) segs
    end
  else Ret segs.

Definition fix_dol_segments_overlaps (segs : list dol_segment) : outcome (list dol_segment) :=
  let n := length segs in
  fix_outer (n + n * n) n 0 segs.

(** The array of segments that is loaded. *)
Definition dol_segments (h : dol_header) : outcome (list dol_segment) :=
  let segs := load_dol_segments DOL_MAX_SECT h in
  fix_dol_segments_overlaps (segs ++ replicate (DOL_MAX_SECT - length segs) no_segment).

(** ** The probe *)

(** The loop over the sections from [i] on; [None] for the result -1. *)
Fixpoint probe_loop (n i : nat) (h : dol_header) (dol_length : Z) (valid : bool) : option bool :=
  match n with
  | O => Some valid
  | S n =>
      let off := dol_sect_offset h i in
      if negb (off =? 0) && (off <? DOL_HEADER_SIZE) then None
      else if dol_length <? u32 (off + dol_sect_size h i) then None
      else
        let addr := dol_sect_address h i in
        let inside := (addr <=? entry_point h) && (entry_point h <? u32 (addr + dol_sect_size h i)) in
        probe_loop n (S i) h dol_length (valid || ((i <? DOL_SECT_MAX_TEXT)%nat && inside))
  end.

Definition dol_ppc_probe (buf : list byte) : outcome Z :=
  let dol_length := Z.of_nat (length buf) in
  if dol_length <? DOL_HEADER_SIZE then Ret (-1)
  else
    header ← read_at buf 0 sizeof_dol_header;
    match probe_loop DOL_MAX_SECT 0 (dol_header_of header) dol_length false with
    | Some true => Ret 0
    | _ => Ret (-1)
    end.

(** ** The load *)

(** The loop that looks for the lowest section of [todo] that is not in [seen], from
    [k] on; a section at the last address is not found. *)
Fixpoint lowest_section (n k : nat) (h : dol_header) (seen todo lowest_start : Z) (j : option nat) : option nat :=
  match n with
  | O => j
  | S n =>
      let bit := Z.testbit in
      if bit seen (Z.of_nat k) || negb (bit todo (Z.of_nat k)) then lowest_section n (S k) h seen todo lowest_start j
      else if dol_sect_address h k <? lowest_start
           then lowest_section n (S k) h seen todo (dol_sect_address h k) (Some k)
           else lowest_section n (S k) h seen todo lowest_start j
  end.

(** The loop that copies the sections of [seg] from the file to the block [data]. *)
Fixpoint copy_sections (fuel : nat) (h : dol_header) (buf : list byte) (seg : dol_segment) (seen : Z)
    (data : list byte) : outcome (list byte) :=
  if seen =? sects_bitmap seg then Ret data
  else
    match fuel with
    | O => Spin
    | S fuel =>
        match lowest_section DOL_MAX_SECT 0 h seen (sects_bitmap seg) 0xffffffff None with
        | None => UB "shift by a negative number"
        | Some j =>
            sec ← read_at buf (dol_sect_offset h j) (dol_sect_size h j);
            data ← write_at data (u32 (dol_sect_address h j - start seg)) sec;
            copy_sections fuel h buf seg (Z.lor seen (Z.shiftl 1 (Z.of_nat j))) data
        end
    end.

(** The physical address of a segment. *)
Definition physical (a : Z) : Z :=
  if Z.land a 0xf0000000 =? 0 then a else Z.land a (notw 32 0xf0000000).

(** The template of the boot notes, whose text is that of kexec-elf-boot.c, here and in
    kexec-elf-ppc.c. *)
Definition dol_boot_notes : list byte → list byte := boot_notes.
Definition elf_ppc_boot_notes : list byte → list byte := boot_notes.

Section dol.
Context (garbage version : list byte) (opts : list (Z * list byte)).
Context (setup_dol : list byte) (setup_dol_regs : Z).
Context (setup_simple : list byte) (setup_simple_regs : Z).

Definition ppc_xmalloc (n : Z) : list byte := resize (Z.to_nat n) Byte.x00 garbage.

(** The loop over the segments. *)
Fixpoint load_segments (lay : layout) (h : dol_header) (buf : list byte) (dol_segs : list dol_segment)
    (m : mem) (segs : list kexec_segment) : outcome (mem * list kexec_segment) :=
  match dol_segs with
  | [] => Ret (m, segs)
  | s :: dol_segs =>
      if size s =? 0 then load_segments lay h buf dol_segs m segs
      else
        let raw := ppc_xmalloc (size s) in
        let '(m, p) := alloc m raw in
        segs ← add_segment lay segs p (size s) (physical (start s)) (size s);
        data ← copy_sections DOL_MAX_SECT h buf s 0 raw;
        m ← store m p data;
        load_segments lay h buf dol_segs m segs
  end.

Definition ppc_OPT_ARCH_MAX : Z := OPT_MAX + 0.
Definition ppc_OPT_APPEND : Z := ppc_OPT_ARCH_MAX + 0.
Definition ppc_OPT_GAMECUBE : Z := ppc_OPT_ARCH_MAX + 1.

Definition dol_option (o : option (list byte)) (opt : Z) (optarg : list byte) : option (option (list byte)) :=
  if opt =? OPT_DEBUG then Some o
  else if opt =? ppc_OPT_APPEND then Some (Some optarg)
  else if opt =? 63 then None
  else if opt <? ppc_OPT_ARCH_MAX then Some o
  else None.

Definition ppc_up4 (n : Z) : Z := Z.land (u32 (n + 3)) (notw 32 3).

(** The command line with its NUL. *)
Definition line_of (o : option (list byte)) : list byte :=
  match o with Some s => s ++ [Byte.x00] | None => [] end.

(** The argument block: the fields of the notes are set, and then the template is copied
    over them. *)
Definition dol_arguments (command_line raw : list byte) (entry note_bytes : Z) : outcome (list byte) :=
  let notes := ppc_up4 (Z.of_nat (length setup_dol)) in
  let command_line_len := Z.of_nat (length command_line) in
  let size := sizeof_boot_notes version in
  arg ← write_at raw (notes + 4) (split host_be 4 note_bytes);
  arg ← write_at arg (notes + size - 8) (split host_be 4 command_line_len);
  data ← read_at arg notes note_bytes;
  sum ← compute_ip_checksum false data;
  arg ← write_at arg (notes + 8) (split host_be 2 sum);
  setup ← write_at setup_dol setup_dol_regs (split host_be 4 entry);
  arg ← write_at arg 0 setup;
  arg ← write_at arg notes (dol_boot_notes version);
  write_at arg (notes + size) command_line.

Definition dol_ppc_load (lay : layout) (argv : list (list byte)) (buf : list byte) (kbuf : ptr)
    (m : mem) (info : kexec_info) : outcome (Z * mem * kexec_info) :=
  match fold_options dol_option opts None with
  | None => Ret (-1, m, info)
  | Some o =>
      let command_line := line_of o in
      header ← read_at buf 0 sizeof_dol_header;
      let h := dol_header_of header in
      dol_segs ← dol_segments h;
      '(m, segs) ← load_segments lay h buf dol_segs m (segment info);
      let note_bytes := u32 (sizeof_boot_notes version + ppc_up4 (Z.of_nat (length command_line))) in
      let arg_bytes := u32 (note_bytes + ppc_up4 (Z.of_nat (length setup_dol))) in
      let '(m, arg_buf) := alloc m (ppc_xmalloc arg_bytes) in
      '(arg_base, segs) ← add_buffer lay segs arg_buf arg_bytes arg_bytes 4 0 0xFFFFFFFF 1;
      arg ← dol_arguments command_line (ppc_xmalloc arg_bytes) (entry_point h) note_bytes;
      m ← store m arg_buf arg;
      mret (0, m, {| segment := segs; entry := arg_base; rhdr := rhdr info |})
  end.

(** ** ELF executables (kexec-elf-ppc.c) *)

Definition elf_ppc_probe (buf : list byte) : outcome Z :=
  result ← build_elf_exec_info buf {| p_blk := 1; p_off := 0 |};
  match result with
  | None => Ret (-1)
  | Some ehdr => if negb (e_machine ehdr =? EM_PPC) then Ret (-1) else Ret 0
  end.

Record elf_ppc_options := { ep_command_line : option (list byte); ep_gamecube : bool }.

Definition elf_ppc_option (o : elf_ppc_options) (opt : Z) (optarg : list byte) : option elf_ppc_options :=
  if opt =? ppc_OPT_APPEND then Some {| ep_command_line := Some optarg; ep_gamecube := ep_gamecube o |}
  else if opt =? ppc_OPT_GAMECUBE then
    Some {| ep_command_line := ep_command_line o; ep_gamecube := negb (atoi optarg =? 0) |}
  else if opt =? 63 then None
  else if opt <? ppc_OPT_ARCH_MAX then Some o
  else None.

Definition hack_phdr (phdr : mem_phdr) : mem_phdr :=
  {| p_paddr := Z.land (p_paddr phdr) (notw 32 0xf0000000); p_vaddr := p_vaddr phdr;
     p_filesz := p_filesz phdr; p_memsz := p_memsz phdr; p_offset := p_offset phdr;
     p_data := p_data phdr; p_type := p_type phdr; p_flags := p_flags phdr; p_align := p_align phdr |}.

Definition gamecube_hack_addresses (ehdr : mem_ehdr) : mem_ehdr :=
  set_phdr (option_map (map hack_phdr) (e_phdr ehdr)) ehdr.

(** The argument block. *)
Definition elf_ppc_arguments (setup command_line raw : list byte) (note_bytes : Z) : outcome (list byte) :=
  let notes := ppc_up4 (Z.of_nat (length setup)) in
  let size := sizeof_boot_notes version in
  arg ← write_at raw 0 setup;
  arg ← write_at arg notes (elf_ppc_boot_notes version);
  arg ← write_at arg (notes + size) command_line;
  arg ← write_at arg (notes + 4) (split host_be 4 note_bytes);
  arg ← write_at arg (notes + size - 8) (split host_be 4 (Z.of_nat (length command_line)));
  data ← read_at arg notes note_bytes;
  sum ← compute_ip_checksum false data;
  write_at arg (notes + 8) (split host_be 2 sum).

Definition elf_ppc_load (lay : layout) (argv : list (list byte)) (buf : list byte) (kbuf : ptr)
    (m : mem) (info : kexec_info) : outcome (Z * mem * kexec_info) :=
  match fold_options elf_ppc_option opts {| ep_command_line := None; ep_gamecube := true |} with
  | None => Ret (-1, m, info)
  | Some o =>
      let command_line := line_of (ep_command_line o) in
      result ← build_elf_exec_info buf kbuf;
      match result with
      | None => Ret (-1, m, info)
      | Some ehdr =>
          let ehdr := if ep_gamecube o then gamecube_hack_addresses ehdr else ehdr in
          result ← elf_exec_load lay ehdr (segment info);
          match result with
          | None => Ret (-1, m, info)
          | Some segs =>
              setup ← (if ep_gamecube o then write_at setup_dol setup_dol_regs (split host_be 4 (e_entry ehdr))
                       else write_at setup_simple setup_simple_regs (split host_be 4 (e_entry ehdr)));
              let note_bytes := u32 (sizeof_boot_notes version + ppc_up4 (Z.of_nat (length command_line))) in
              let arg_bytes := u32 (note_bytes + ppc_up4 (Z.of_nat (length setup))) in
              let '(m, arg_buf) := alloc m (ppc_xmalloc arg_bytes) in
              '(arg_base, segs) ← add_buffer lay segs arg_buf arg_bytes arg_bytes 4 0 (elf_max_addr ehdr) 1;
              arg ← elf_ppc_arguments setup command_line (ppc_xmalloc arg_bytes) note_bytes;
              m ← store m arg_buf arg;
              mret (0, m, {| segment := segs; entry := arg_base; rhdr := rhdr info |})
          end
      end
  end.

(** The table of the loaders (kexec-ppc.c). *)
Definition ppc_file_type : list file_type :=
  [{| ft_name := bs "elf-ppc"; ft_probe := elf_ppc_probe; ft_load := elf_ppc_load |};
   {| ft_name := bs "dol-ppc"; ft_probe := dol_ppc_probe; ft_load := dol_ppc_load |}].
End dol.

(** The memory of the GameCube, the only machine the file compiles for. *)
Definition ppc_memory_ranges : list memory_range :=
  [{| mr_start := 0x00003000; mr_end := 0x0174bfff; mr_type := RANGE_RAM |}].

(** The name of the machine that uname gives, and the flags; [None] for the result -1. *)
Definition ppc_compat_trampoline (machine : option (list byte)) (flags : Z) : option Z :=
  match machine with
  | Some name => if strcmp name (bs "ppc") =? 0 then Some (Z.lor flags KEXEC_ARCH_DEFAULT) else None
  | None => None
  end.

(** ppc as an architecture: purgatory, which no loader of ppc uses, needs no update. *)
Definition ppc_arch (types : list file_type) (machine : option (list byte)) : KexecArch := {|
  file_types := types;
  Kexec.arch_compat_trampoline := λ m info flags,
    Ret (option_map (λ flags, (m, info, flags)) (ppc_compat_trampoline machine flags));
  Kexec.arch_update_purgatory := λ m _, Ret m |}.
