(* ===== verification/Monoimage.v ===== *)
(** Monoimages: the format of kexec-tools/include/monoimage.h, as
    utils/makeimage.pl writes it, and the loader of kexec-tools/kexec/arch/i386/kexec-monoimage.c, which boots
    the kernel and the ramdisk of an image and tells linuxrc, on the kernel's
    command line, where to find the image again. *)

From Stdlib Require Import ZArith Lia String.
From stdpp Require Import base tactics list numbers gmap.
From coqutil Require Import Byte.
From S2P Require Import Prelude Words CMem CString Struct Uuid Segments Elf ElfRel ElfRelSpec Kexec KexecX86 X86Linux.

#[local] Open Scope Z_scope.
#[local] Existing Instance i386.
#[local] Existing Instance machine_i386.

(** ** The format *)

(** [struct monoimage_header] of kexec-tools/include/monoimage.h, which the include path of
    kexec-tools finds.  The loader is built for i386, where an [off_t] is a signed number of
    4 bytes: the Makefile does not ask for large files. *)
Module Header.
Inductive t := magic | version | runfrom | fstype | kernel_offset | ramdisk_offset | rootfs_offset.

#[global] Instance struct : Struct t.
Proof.
  refine {| f_off := λ f, match f with
              | magic => 0 | version => 4 | runfrom => 6 | fstype => 7 | kernel_offset => 8
              | ramdisk_offset => 12 | rootfs_offset => 16 end;
            f_size := λ f, match f with
              | magic | kernel_offset | ramdisk_offset | rootfs_offset => 4%nat
              | version => 2%nat | runfrom | fstype => 1%nat end;
            sizeof := 20 |}; layout_laws.
Defined.
End Header.

(** A member of the type [off_t]. *)
Definition offset (header : list byte) (f : Header.t) : Z := to_signed 32 (sfield header f).

Definition MI_MAGIC : list byte := bs "MIMG".

(** What makeimage.pl prints: [format] and [runfrom] are the numbers it chose, and
    [pack] writes the sizes of the files in 32 bits. *)
Definition BOOTIMAGE_HEADER_SIZE := 20.

Definition makeimage (format runfrom : Z) (kernel ramdisk rootfs : list byte) : list byte :=
  let kernel_size := Z.of_nat (length kernel) in
  let ramdisk_size := Z.of_nat (length ramdisk) in
  MI_MAGIC ++ split false 2 1 ++ split false 1 format ++ split false 1 runfrom
  ++ split false 4 BOOTIMAGE_HEADER_SIZE
  ++ split false 4 (BOOTIMAGE_HEADER_SIZE + kernel_size)
  ++ split false 4 (BOOTIMAGE_HEADER_SIZE + kernel_size + ramdisk_size)
  ++ kernel ++ ramdisk ++ rootfs.

(** The result 0 of a wrong version counts as a match in kexec.c. *)
Definition monoimage_probe (buf : list byte) : outcome Z :=
  if Z.of_nat (length buf) <? sizeof Header.t then Ret (-1)
  else
    header ← read_at buf 0 (sizeof Header.t);
    if negb (bool_decide (take 2 header = take 2 MI_MAGIC)) then Ret (-1)
    else if negb (sfield header Header.version =? 0x1) then Ret 0
    else Ret 1.

(** The ramdisk and the kernel that [monoimage_load] copies out of the image.  A length is
    an [off_t] too, and becomes a [size_t] for malloc and memcpy; its subtraction can only
    overflow where an offset is negative, and then the copy reads before the image. *)
Definition image_parts (buf : list byte) : outcome (list byte * list byte) :=
  mi_header ← read_at buf 0 (sizeof Header.t);
  let ramdisk_offset := offset mi_header Header.ramdisk_offset in
  let kernel_offset := offset mi_header Header.kernel_offset in
  ramdisk ← read_at buf ramdisk_offset (u32 (offset mi_header Header.rootfs_offset - ramdisk_offset));
  kernel ← read_at buf kernel_offset (u32 (ramdisk_offset - kernel_offset));
  mret (ramdisk, kernel).

(** ** The system that the loader looks at *)

Record stat := { st_dev : Z; st_rdev : Z; is_blk : bool }.
Inductive stat_result := Stat (s : stat) | NoStat (errno : Z).

Definition ENOENT := 2.

(** [stat], the names that [readdir] finds in /dev ([None] when it cannot be opened),
    the identifier of the ext2 file system on a device, and /proc/mounts. *)
Record system := {
  sys_stat : list byte → stat_result;
  sys_dev : option (list (list byte));
  sys_uuid : list byte → option (list byte);
  sys_mounts : option (list byte)
}.

(** ** kexec-monoimage.c *)

(** The loop over the arguments left; [st0] is the device number in [images_buf]
    before any [stat] succeeds.  [None] is the result -1. *)
Fixpoint find_image (sys : system) (st0 : Z) (args : list (list byte))
    : outcome (option (list byte * stat)) :=
  match args with
  | [] => UB "fopen of a null pointer"
  | arg :: args =>
      match sys_stat sys arg with
      | Stat s => Ret (Some (arg, s))
      | NoStat errno =>
          if negb (errno =? ENOENT) then Ret None
          else if st0 =? 0 then Ret None
          else find_image sys st0 args
      end
  end.

(** [strncpy (dst, "/dev/", 6); strncat (dst, name, strlen (name))] into 256 bytes. *)
Definition dev_path (name : list byte) : outcome (list byte) :=
  let path := bs "/dev/" ++ name in
  if 256 <=? Z.of_nat (length path) then UB "write outside an object" else Ret path.

(** Whether a device is the one that a file is on. *)
Definition holds (devbuf file : stat) : bool :=
  (st_rdev devbuf =? st_dev file) && is_blk devbuf.

(** The walk through /dev: [devbuf] keeps what the last successful [stat] wrote, also
    for the names after it that do not exist. *)
Fixpoint walk_dev (sys : system) (images config : stat) (names : list (list byte)) (devbuf : stat)
    (images_dev config_dev : option (list byte)) : outcome (option (option (list byte) * option (list byte))) :=
  match names with
  | [] => Ret (Some (images_dev, config_dev))
  | name :: names =>
      path ← dev_path name;
      match (match sys_stat sys path with
             | Stat s => Some s
             | NoStat errno => if errno =? ENOENT then Some devbuf else None
             end) with
      | None => Ret None
      | Some devbuf =>
          walk_dev sys images config names devbuf
            (if holds devbuf images then Some path else images_dev)
            (if holds devbuf config then Some path else config_dev)
      end
  end.

(** The string of a device that was found; otherwise the array is not initialised. *)
Definition found (dev : option (list byte)) : outcome (list byte) :=
  match dev with Some d => Ret d | None => UB "read of an uninitialised array" end.

(** The loop over the lines of /proc/mounts: the mount point in the first line that
    begins with the name of the device. *)
Fixpoint find_mount (fuel : nat) (images_dev mounts : list byte) : outcome (list byte) :=
  match fuel with
  | O => Spin
  | S fuel =>
      match fgets 256 mounts with
      | None => UB "read of an uninitialised array"
      | Some (line, mounts) =>
          let line := before_nul line in
          if strncmp line images_dev (length images_dev) =? 0 then
            if (length line <=? length images_dev)%nat then UB "read past a string"
            else
              let rest := drop (length images_dev + 1) line in
              match strchr rest Byte.x20 with
              | Some i => Ret (take i rest)
              | None => UB "read past a string"
              end
          else find_mount fuel images_dev mounts
      end
  end.

(** What is left of the path after the part it has in common with the mount point;
    the comparison does not stop at the end of two equal strings. *)
Fixpoint after_common (mpoint path : list byte) : outcome (list byte) :=
  match mpoint, path with
  | [], [] => UB "read past a string"
  | m :: mpoint, c :: path => if byte_eqb m c then after_common mpoint path else Ret (c :: path)
  | _, path => Ret path
  end.

Definition image_path (mpoint path : list byte) : outcome (list byte) :=
  path ← after_common mpoint path;
  mret (match path with Byte.x2f :: path => path | _ => path end).

(** The kernel's command line; the array has 256 bytes. *)
Definition command_line (append : option (list byte)) (path images_uuid config_uuid : list byte)
    : outcome (list byte) :=
  let line := bs "root=/dev/loop0 ro " ++ match append with Some a => a ++ bs " " | None => [] end
    ++ bs "F=" ++ path ++ bs " I=" ++ images_uuid ++ bs " C=" ++ config_uuid in
  if 256 <=? Z.of_nat (length line) then UB "write outside an object" else Ret line.

Definition OPT_CONFIG := OPT_ARCH_MAX + 1.

Record monoimage_options := {
  mo_append : option (list byte); mo_config : option (list byte); mo_real_mode : bool; mo_debug : bool
}.

Definition monoimage_option (o : monoimage_options) (opt : Z) (optarg : list byte)
    : option monoimage_options :=
  if opt =? OPT_DEBUG then
    Some {| mo_append := mo_append o; mo_config := mo_config o;
            mo_real_mode := mo_real_mode o; mo_debug := true |}
  else if opt =? OPT_REAL_MODE then
    Some {| mo_append := mo_append o; mo_config := mo_config o;
            mo_real_mode := true; mo_debug := mo_debug o |}
  else if opt =? OPT_APPEND then
    Some {| mo_append := Some optarg; mo_config := mo_config o;
            mo_real_mode := mo_real_mode o; mo_debug := mo_debug o |}
  else if opt =? OPT_CONFIG then
    Some {| mo_append := mo_append o; mo_config := Some optarg;
            mo_real_mode := mo_real_mode o; mo_debug := mo_debug o |}
  else if opt =? 63 then None
  else if opt <? OPT_ARCH_MAX then Some o
  else None.

(** What [images_buf.st_dev] and [devbuf] hold before they are written. *)
Record stack_garbage := { sg_images_dev : Z; sg_devbuf : stat }.

(** The command line for the image among [argv] and the file [configfile]; [None] is
    the result -1. *)
Definition boot_command_line (sys : system) (sg : stack_garbage) (append : option (list byte))
    (configfile : list byte) (argv : list (list byte)) : outcome (option (list byte)) :=
  image ← find_image sys (sg_images_dev sg) (drop 1 argv);
  match image with
  | None => Ret None
  | Some (image, images_buf) =>
      match sys_stat sys configfile, sys_dev sys with
      | Stat config_buf, Some names =>
          devs ← walk_dev sys images_buf config_buf names (sg_devbuf sg) None None;
          match devs with
          | None => Ret None
          | Some (images_dev, config_dev) =>
              images_dev ← found images_dev;
              config_dev ← found config_dev;
              images_uuid ← ext2_uuid (sys_uuid sys images_dev);
              config_uuid ← (if strcmp images_dev config_dev =? 0 then Ret images_uuid
                             else ext2_uuid (sys_uuid sys config_dev));
              mounts ← (match sys_mounts sys with
                        | Some mounts => Ret mounts
                        | None => UB "fgets from a null pointer"
                        end);
              mpoint ← find_mount (S (length mounts)) images_dev mounts;
              path ← image_path mpoint image;
              line ← command_line append path images_uuid config_uuid;
              mret (Some line)
          end
      | _, _ => Ret None
      end
  end.

Section load.
Context (purgatory garbage : list byte) (ranges : option (list memory_range)).
Context (sys : system) (sg : stack_garbage) (opts : list (Z * list byte)).

Definition monoimage_load (lay : layout) (argv : list (list byte)) (buf : list byte) (kbuf : ptr)
    (m : mem) (info : kexec_info) : outcome (Z * mem * kexec_info) :=
  match fold_options monoimage_option opts
          {| mo_append := None; mo_config := None; mo_real_mode := false; mo_debug := false |} with
  | None => Ret (-1, m, info)
  | Some o =>
      match mo_config o with
      | None => Ret (-1, m, info)
      | Some configfile =>
          line ← boot_command_line sys sg (mo_append o) configfile argv;
          match line with
          | None => Ret (-1, m, info)
          | Some line =>
              '(ramdisk, kernel) ← image_parts buf;
              let '(m, ramdisk_buf) := alloc m ramdisk in
              let '(m, kernel_buf) := alloc m kernel in
              do_bzImage_load purgatory garbage ranges lay m info kernel kernel_buf
                (line ++ [Byte.x00]) (Some (ramdisk_buf, Z.of_nat (length ramdisk)))
                (mo_real_mode o) (mo_debug o)
          end
      end
  end.

(** The entry of the table of loaders. *)
Definition monoimage_type : file_type := {|
  ft_name := bs "monoimage-x86";
  ft_probe := monoimage_probe;
  ft_load := monoimage_load
|}.
End load.
