(* ===== verification/Multiboot.v ===== *)
(** The loader of multiboot kernels, kexec-tools/kexec/arch/i386/kexec-multiboot-x86.c,
    with the structures of include/x86/mb_header.h and mb_info.h, and the table of the
    loaders of i386 in kexec-x86.c. *)

From Stdlib Require Import ZArith Lia String.
From stdpp Require Import base tactics list numbers gmap.
From coqutil Require Import Byte.
From S2P Require Import Prelude Words CMem CString Struct Segments Elf ElfBoot ElfExec ElfRel ElfRelSpec Kexec KexecX86 X86Linux LoadersX86 Monoimage.

#[local] Open Scope Z_scope.

(** ** Data *)

(** [struct multiboot_header], the part that is always valid. *)
Module Mbheader.
Inductive t := magic | flags | checksum.

#[global] Instance struct : Struct t.
Proof.
  refine {| f_off := λ f, match f with magic => 0 | flags => 4 | checksum => 8 end;
            f_size := λ f, 4%nat; sizeof := 48 |}; layout_laws.
Defined.
End Mbheader.

(** [struct multiboot_info]. *)
Module Mbinfo.
Inductive t :=
| flags | mem_lower | mem_upper | boot_device | cmdline | mods_count | mods_addr | syms
| mmap_length | mmap_addr | drives_length | drives_addr | config_table | boot_loader_name
| apm_table | vbe_control_info | vbe_mode_info | vbe_mode | vbe_interface_seg
| vbe_interface_off | vbe_interface_len.

#[global] Instance struct : Struct t.
Proof.
  refine {| f_off := λ f, match f with
              | flags => 0 | mem_lower => 4 | mem_upper => 8 | boot_device => 12 | cmdline => 16
              | mods_count => 20 | mods_addr => 24 | syms => 28 | mmap_length => 44
              | mmap_addr => 48 | drives_length => 52 | drives_addr => 56 | config_table => 60
              | boot_loader_name => 64 | apm_table => 68 | vbe_control_info => 72
              | vbe_mode_info => 76 | vbe_mode => 80 | vbe_interface_seg => 82
              | vbe_interface_off => 84 | vbe_interface_len => 86 end;
            f_size := λ f, match f with
              | syms => 16%nat
              | vbe_mode | vbe_interface_seg | vbe_interface_off | vbe_interface_len => 2%nat
              | _ => 4%nat end;
            sizeof := 88 |}; layout_laws.
Defined.

#[global] Instance eq_dec : EqDecision t.
Proof. solve_decision. Defined.
End Mbinfo.

(** [struct mod_list]. *)
Module Modlist.
Inductive t := mod_start | mod_end | cmdline | pad.

#[global] Instance struct : Struct t.
Proof.
  refine {| f_off := λ f, match f with mod_start => 0 | mod_end => 4 | cmdline => 8 | pad => 12 end;
            f_size := λ f, 4%nat; sizeof := 16 |}; layout_laws.
Defined.
End Modlist.

Definition MULTIBOOT_SEARCH := 8192.
Definition MULTIBOOT_MAGIC := 0x1BADB002.
Definition MULTIBOOT_UNSUPPORTED := 0x0000FFF8.
Definition MULTIBOOT_MEMORY_INFO := 0x00000002.
Definition MULTIBOOT_AOUT_KLUDGE := 0x00010000.
Definition MB_INFO_MEMORY := 0x00000001.
Definition MB_INFO_CMDLINE := 0x00000004.
Definition MB_INFO_MODS := 0x00000008.
Definition MB_INFO_MEM_MAP := 0x00000040.
Definition MB_INFO_BOOT_LOADER_NAME := 0x00000200.
Definition MULTIBOOT_VALID := 0x2BADB002.
Definition MB_ARD_MEMORY := 1.
Definition PAGE_SIZE := 4096.

Section multiboot.
Context `{Machine}.

(** ** The probe *)

(** The loop over the words of [headerbuf], of which [len] bytes are of the file: the
    result and [mbh], the bytes at the last place it looked at. *)
Fixpoint search (fuel : nat) (headerbuf : list byte) (len i : Z) (mbh : option (list byte))
    : outcome (Z * option (list byte)) :=
  match fuel with
  | O => Spin
  | S fuel =>
      if len - 12 <? i then Ret (-1, mbh)
      else
        let h := drop (Z.to_nat i) headerbuf in
        let magic := sfield h Mbheader.magic in
        let flags := sfield h Mbheader.flags in
        if negb (magic =? MULTIBOOT_MAGIC)
           || negb (u32 (magic + flags + sfield h Mbheader.checksum) =? 0)
        then search fuel headerbuf len (i + 4) (Some h)
        else if negb (Z.land flags MULTIBOOT_AOUT_KLUDGE =? 0) then Ret (-1, Some h)
        else if negb (Z.land flags MULTIBOOT_UNSUPPORTED =? 0) then Ret (-1, Some h)
        else Ret (0, Some h)
  end.

(** The result and the variable [mbh] after it, which begins as a null pointer. *)
Definition multiboot_x86_probe (buf : list byte) : outcome (Z * option (list byte)) :=
  i ← elf_x86_probe buf;
  if i <? 0 then Ret (i, None)
  else
    let headerbuf := take (Z.to_nat MULTIBOOT_SEARCH) buf in
    let len := Z.of_nat (length headerbuf) in
    if len <? 12 then Ret (-1, None) else search 2050 headerbuf len 0 None.

(** ** Loading *)

Definition OPT_CL := OPT_ARCH_MAX + 0.
Definition OPT_MOD := OPT_ARCH_MAX + 1.

(** The command line and the arguments of --module, in their order. *)
Record mb_options := { mb_command_line : list byte; mb_modules : list (list byte) }.

Definition mb_option (o : mb_options) (opt : Z) (optarg : list byte) : option mb_options :=
  if opt =? OPT_CL then Some {| mb_command_line := optarg; mb_modules := mb_modules o |}
  else if opt =? OPT_MOD then
    Some {| mb_command_line := mb_command_line o; mb_modules := mb_modules o ++ [optarg] |}
  else if opt =? 63 then None
  else if opt <? OPT_ARCH_MAX then Some o
  else None.

(** The entry of the memory map for a range: [struct AddrRangeDesc]. *)
Definition mmap_entry (r : memory_range) : list byte :=
  let length := u64 (mr_end r - mr_start r) in
  split false 4 (24 - 4) ++ split false 4 (mr_start r) ++ split false 4 (Z.shiftr (mr_start r) 32)
  ++ split false 4 length ++ split false 4 (Z.shiftr length 32)
  ++ split false 4 (if mr_type r =? RANGE_RAM then MB_ARD_MEMORY else 0xbad).

(** One step of the sizes of the lower and the upper memory. *)
Definition mem_sizes (acc : Z * Z) (r : memory_range) : Z * Z :=
  let '(mem_lower, mem_upper) := acc in
  if mr_type r =? RANGE_RAM then
    (if (mr_start r =? 0) && (mem_lower <? mr_end r) then mr_end r else mem_lower,
     if (mr_start r <=? 0x100000) && (u64 (mem_upper + 0x100000) <? mr_end r)
     then mr_end r - 0x100000 else mem_upper)
  else acc.

(** [MIN (x >> 10, 0xffffffff)] *)
Definition kib (x : Z) : Z := Z.min (Z.shiftr x 10) 0xffffffff.

(** The file of a module: its argument up to the first blank. *)
Definition mod_filename (optarg : list byte) : list byte :=
  match strchr optarg Byte.x20 with Some i => take i optarg | None => optarg end.

(** As in LoadersX86.v; [slurp_decompress_file] gives the contents of a file. *)
Context (purgatory version garbage : list byte) (ranges : option (list memory_range)).
Context (opts : list (Z * list byte)) (slurp_decompress_file : list byte → outcome (list byte)).

Definition bootloader : list byte := bs "kexec " ++ version.

(** The header, the command line and the name of the loader; the size of the block is
    a multiple of four. *)
Definition initial_mbi (imagename command_line : list byte) : outcome (list byte) :=
  let size := sizeof Mbinfo.t in
  let command_line_len := Z.of_nat (length command_line) + Z.of_nat (length imagename) + 2 in
  let mbi_bytes := Z.land (size + command_line_len + (Z.of_nat (length bootloader) + 1) + 3) (notw ulong_bits 3) in
  mbi ← write_at (xmalloc garbage mbi_bytes) 0 (replicate (Z.to_nat size) Byte.x00);
  mbi ← write_at mbi size (imagename ++ bs " " ++ command_line ++ [Byte.x00]);
  mbi ← write_at mbi (size + command_line_len) (bootloader ++ [Byte.x00]);
  let mbi := with_field mbi Mbinfo.flags (Z.lor MB_INFO_CMDLINE MB_INFO_BOOT_LOADER_NAME) in
  let mbi := with_field mbi Mbinfo.cmdline size in
  mret (with_field mbi Mbinfo.boot_loader_name (size + command_line_len)).

(** [mbi->flags |= bits] *)
Definition add_flags (mbi : list byte) (bits : Z) : list byte :=
  with_field mbi Mbinfo.flags (Z.lor (sfield mbi Mbinfo.flags) bits).

(** The memory map, when the kernel asks for it. *)
Definition memory_info (lay : layout) (m : mem) (segs : list kexec_segment) (ranges : list memory_range)
    (mbh mbi : list byte) : outcome (mem * list kexec_segment * list byte) :=
  let mmap := concat (map mmap_entry ranges) in
  let '(mem_lower, mem_upper) := foldl mem_sizes (0, 0) ranges in
  let '(m, p) := alloc m mmap in
  if Z.land (sfield mbh Mbheader.flags) MULTIBOOT_MEMORY_INFO =? 0 then Ret (m, segs, mbi)
  else
    let size := Z.of_nat (length mmap) in
    let mbi := add_flags mbi (Z.lor MB_INFO_MEMORY MB_INFO_MEM_MAP) in
    '(freespace, segs) ← add_buffer lay segs p size size 4 0 0xffffffff 1;
    let mbi := with_field mbi Mbinfo.mmap_addr freespace in
    let mbi := with_field mbi Mbinfo.mmap_length size in
    let mbi := with_field mbi Mbinfo.mem_lower (kib mem_lower) in
    mret (m, segs, with_field mbi Mbinfo.mem_upper (kib mem_upper)).

(** The loop over the modules: the descriptors are written from [modp] on and their
    command lines from [mod_clp] on. *)
Fixpoint load_modules (lay : layout) (m : mem) (segs : list kexec_segment) (modules : list (list byte))
    (mbi : list byte) (modp mod_clp : Z) : outcome (mem * list kexec_segment * list byte) :=
  match modules with
  | [] => Ret (m, segs, mbi)
  | optarg :: modules =>
      buf ← slurp_decompress_file (mod_filename optarg);
      let '(m, p) := alloc m buf in
      let mod_size := Z.of_nat (length buf) in
      '(freespace, segs) ← add_buffer lay segs p mod_size mod_size PAGE_SIZE 0 0xffffffff 1;
      mbi ← write_at mbi mod_clp (optarg ++ [Byte.x00]);
      mbi ← write_at mbi modp (split false 4 freespace ++ split false 4 (freespace + mod_size)
                               ++ split false 4 mod_clp ++ split false 4 0);
      let mbi := with_field mbi Mbinfo.mods_count (sfield mbi Mbinfo.mods_count + 1) in
      load_modules lay m segs modules mbi (modp + sizeof Modlist.t)
        (mod_clp + Z.of_nat (length optarg) + 1)
  end.

(** The modules, when there are any. *)
Definition add_modules (lay : layout) (m : mem) (segs : list kexec_segment) (modules : list (list byte))
    (mbi : list byte) : outcome (mem * list kexec_segment * list byte) :=
  match modules with
  | [] => Ret (m, segs, mbi)
  | _ =>
      let mbi_bytes := Z.of_nat (length mbi) in
      let mbi := with_field mbi Mbinfo.mods_addr mbi_bytes in
      let mbi := with_field mbi Mbinfo.mods_count 0 in
      let mbi := add_flags mbi MB_INFO_MODS in
      let descriptors := sizeof Modlist.t * Z.of_nat (length modules) in
      let space := list_sum (map (λ o, length o + 1)%nat modules) in
      let mbi := mbi ++ xmalloc garbage (descriptors + Z.of_nat space) in
      load_modules lay m segs modules mbi mbi_bytes (mbi_bytes + descriptors)
  end.

(** [p += offset] for the word at [off] of a block. *)
Definition add_at (offset : Z) (l : list byte) (off : Z) : outcome (list byte) :=
  w ← read_at l off 4; write_at l off (split false 4 (combine false w + offset)).

(** The loop that relocates the command lines of the modules. *)
Fixpoint relocate_modules (n : nat) (offset : Z) (mbi : list byte) (modp : Z) : outcome (list byte) :=
  match n with
  | O => Ret mbi
  | S n =>
      mbi ← add_at offset mbi (modp + f_off Modlist.cmdline);
      relocate_modules n offset mbi (modp + sizeof Modlist.t)
  end.

Definition relocate_mbi (offset : Z) (mbi : list byte) : outcome (list byte) :=
  mbi ← relocate_modules (Z.to_nat (sfield mbi Mbinfo.mods_count)) offset mbi (sfield mbi Mbinfo.mods_addr);
  mbi ← add_at offset mbi (f_off Mbinfo.mods_addr);
  mbi ← add_at offset mbi (f_off Mbinfo.cmdline);
  add_at offset mbi (f_off Mbinfo.boot_loader_name).

(** [mbh] is the variable after the probes, [imagename] the argument after the options.
    The block is a value of its own until it gets a place. *)
Definition multiboot_x86_load (mbh : option (list byte)) (imagename : list byte) (lay : layout)
    (argv : list (list byte)) (buf : list byte) (kbuf : ptr) (m : mem) (info : kexec_info)
    : outcome (Z * mem * kexec_info) :=
  found ← match mbh with
          | Some h => Ret (Some h)
          | None => '(r, h) ← multiboot_x86_probe buf; mret (if negb (r =? 1) then None else h)
          end;
  match found, fold_options mb_option opts {| mb_command_line := []; mb_modules := [] |} with
  | Some mbh, Some o =>
      '(ehdr, segs) ← elf_exec_build_load lay buf kbuf (segment info);
      let '(m, pbuf) := alloc m purgatory in
      '(m, h, segs, e) ← elf_rel_build_load lay garbage m purgatory pbuf segs 0 ULONG_MAX 1;
      mbi ← initial_mbi imagename (mb_command_line o);
      match ranges with
      | None | Some [] => Ret (-1, m, set_rhdr segs e h)
      | Some ranges =>
          '(m, segs, mbi) ← memory_info lay m segs ranges mbh mbi;
          '(m, segs, mbi) ← add_modules lay m segs (mb_modules o) mbi;
          let '(r, segs) := sort_segments segs in
          if r <? 0 then Ret (-1, m, set_rhdr segs e h)
          else
            let mbi_bytes := Z.of_nat (length mbi) in
            let '(m, p) := alloc m mbi in
            '(mbi_base, segs) ← add_buffer lay segs p mbi_bytes mbi_bytes 4 0 0xffffffff 1;
            mbi ← relocate_mbi mbi_base mbi;
            m ← store m p mbi;
            regs ← elf_rel_get_symbol m h (bs "entry32_regs") (sizeof Regs32.t);
            m ← elf_rel_set_symbol m h (bs "entry32_regs")
                  (foldl (λ l '(f, v), with_field l f v) regs
                     [(Regs32.eax, MULTIBOOT_VALID); (Regs32.ebx, mbi_base); (Regs32.eip, e_entry ehdr)]);
            mret (0, m, set_rhdr segs e h)
      end
  | _, _ => Ret (-1, m, info)
  end.

(** The entry of the table: [mbh] is what the probe of the same file left. *)
Definition multiboot_type (imagename : list byte) : file_type := {|
  ft_name := bs "multiboot-x86";
  ft_probe := λ buf, '(r, _) ← multiboot_x86_probe buf; mret r;
  ft_load := λ lay argv buf kbuf m info,
    '(_, mbh) ← multiboot_x86_probe buf;
    multiboot_x86_load mbh imagename lay argv buf kbuf m info
|}.
End multiboot.

(** ** The table of loaders (kexec-x86.c)

    Each loader reads the options with [getopt_long] for itself. *)

Record loader_options := {
  lo_multiboot : list (Z * list byte); lo_elf : list (Z * list byte); lo_bzImage : list (Z * list byte);
  lo_beoboot : list (Z * list byte); lo_nbi : list (Z * list byte); lo_monoimage : list (Z * list byte)
}.

Definition bzImage_type `{Machine} (purgatory garbage : list byte) (ranges : option (list memory_range))
    (slurp_file : list byte → outcome (list byte)) (opts : list (Z * list byte)) : file_type := {|
  ft_name := bs "bzImage";
  ft_probe := λ buf, Ret (bzImage_probe buf);
  ft_load := bzImage_load purgatory garbage ranges opts slurp_file
|}.

#[local] Existing Instance i386.
#[local] Existing Instance machine_i386.

Section table.
Context (purgatory version garbage : list byte) (ranges : option (list memory_range)).
Context (slurp_file slurp_decompress_file : list byte → outcome (list byte)).
Context (o : loader_options) (imagename : list byte) (sys : system) (sg : stack_garbage).

Definition x86_file_types : list file_type := [
  multiboot_type purgatory version garbage ranges (lo_multiboot o) slurp_decompress_file imagename;
  elf_x86_type purgatory version garbage ranges (lo_elf o) slurp_file;
  bzImage_type purgatory garbage ranges slurp_file (lo_bzImage o);
  beoboot_type purgatory garbage ranges (lo_beoboot o);
  nbi_type (lo_nbi o);
  monoimage_type purgatory garbage ranges sys sg (lo_monoimage o)
].
End table.
