(* ===== verification/Linuxrc.v ===== *)
(** linuxrc/linuxrc.c, the program of the ramdisk: it reads the kernel's command
    line, mounts the file system with the image and sets up a loop device on the
    root file system inside the image. *)

From Stdlib Require Import ZArith Lia String.
From stdpp Require Import base tactics list numbers.
From coqutil Require Import Byte.
From S2P Require Import Prelude Words CMem CString Struct Uuid ElfRel.

#[local] Open Scope Z_scope.
#[local] Existing Instance i386.

(** ** Data *)

(** [struct monoimage_header] of linuxrc/monoimage.h, which linuxrc.c includes. *)
Module Header.
Inductive t := magic | version | kernel_offset | ramdisk_offset | rootfs_offset.

#[global] Instance struct : Struct t.
Proof.
  refine {| f_off := λ f, match f with
              | magic => 0 | version => 2 | kernel_offset => 4 | ramdisk_offset => 8
              | rootfs_offset => 12 end;
            f_size := λ f, match f with magic | version => 2%nat | _ => 4%nat end;
            sizeof := 16 |}; layout_laws.
Defined.
End Header.

Definition FS_DEV : list byte := bs "/dev/hda1".
Definition FS_IMG : list byte := bs "failsafe.img".
Definition BUF_MAX := 256.
Definition LO_NAME_SIZE : nat := 64.

(** The machine: the answers of the system calls that do not depend on what the
    program did before, and the file systems.  [fs_files None] is the ramdisk,
    [fs_files (Some dev)] the file system on a device, by the path under /images. *)
Record machine := {
  mount_proc : bool;
  proc_cmdline : option (list byte);
  dev_names : option (list (list byte));
  dev_is_blk : list byte → bool;
  dev_uuid : list byte → option (list byte);
  fs_mountable : list byte → bool;
  fs_files : option (list byte) → list byte → option (list byte);
  can_read : list byte → bool;
  can_write : list byte → bool;
  loop_opens : bool;
  loop_set_fd : bool;
  loop_set_status : bool
}.

(** [struct loop_info64]: the members that are not zero. *)
Record loop_info := { lo_file_name : list byte; lo_offset : Z }.

(** What is mounted on /images, the last first, and the file and the parameters of
    the loop device when it is set up. *)
Record state := {
  mounted : list (list byte);
  loop0 : option (list byte * loop_info)
}.

Definition initial : state := {| mounted := []; loop0 := None |}.

(** ** The command line *)

(** The value is copied up to the first blank or, without one, the first newline
    after the start of the name; without either, the length of the copy is computed
    from a null pointer.  A blank before the value makes the length huge. *)
Definition get_cmdline_var (cmdline var : list byte) : outcome (option (list byte)) :=
  match strstr cmdline var with
  | None => Ret None
  | Some i =>
      let s := drop i cmdline in
      match (match strstr s (bs " ") with Some e => Some e | None => strstr s [Byte.x0a] end) with
      | None => UB "subtraction of a null pointer"
      | Some e =>
          let start := (length var + 1)%nat in
          Ret (Some (if (e <? start)%nat then drop start s else take (e - start) (drop start s)))
      end
  end.

(** ** Devices and files *)

Section linuxrc.
Context (mc : machine).

(** linuxrc's own [ext2_uuid]. *)
Definition ext2_uuid (dev : list byte) : list byte :=
  match dev_uuid mc dev with
  | None => bs "<none>"
  | Some uu => uuid2str uu
  end.

(** The contents of a file under /images. *)
Definition image_file (st : state) (path : list byte) : option (list byte) :=
  fs_files mc (head (mounted st)) path.

(** [mount (dev, "/images", "ext3", 0, NULL)]; [None] when it fails. *)
Definition mount (dev : list byte) (st : state) : option state :=
  if fs_mountable mc dev then Some {| mounted := dev :: mounted st; loop0 := loop0 st |} else None.

(** [umount2 ("/images", 0)], which fails when nothing is mounted. *)
Definition umount (st : state) : state := {| mounted := tail (mounted st); loop0 := loop0 st |}.

(** The walk through /dev for the device with the image. *)
Fixpoint mount_images (imageuuid : list byte) (names : list (list byte)) (st : state) : outcome state :=
  match names with
  | [] => Ret st
  | name :: names =>
      let devname := bs "/dev/" ++ name in
      if BUF_MAX <=? Z.of_nat (length devname) then UB "write outside an object"
      else if dev_is_blk mc devname && (strcmp imageuuid (ext2_uuid devname) =? 0) then
        match mount devname st with
        | Some st => Ret st
        | None => Die "mount /images: %s"
        end
      else mount_images imageuuid names st
  end.

(** Copy [value] after [prefix] into an array of [BUF_MAX] bytes. *)
Definition into_buf (prefix value : list byte) : outcome (list byte) :=
  if BUF_MAX <=? Z.of_nat (length (prefix ++ value)) then UB "write outside an object"
  else Ret (prefix ++ value).

(** The result and the state after; [offset] is an int. *)
Definition set_loop (file : list byte) (offset : Z) (st : state) : Z * state :=
  if negb (can_write mc file) then (1, st)
  else if negb (loop_opens mc) then (1, st)
  else
    let loopinfo64 := {| lo_file_name := take LO_NAME_SIZE file; lo_offset := u64 offset |} in
    if negb (loop_set_fd mc) then (1, st)
    else if negb (loop_set_status mc) then (1, {| mounted := mounted st; loop0 := None |})
    else (0, {| mounted := mounted st; loop0 := Some (file, loopinfo64) |}).

(** ** main *)

(** The three variables of the command line; [Die] where the system is halted or
    rebooted. *)
Definition read_cmdline : outcome (list byte * list byte * list byte) :=
  match proc_cmdline mc with
  | None => Die "/proc/cmdline: open: %s"
  | Some file =>
      match fgets (Z.to_nat BUF_MAX) file with
      | None => Die "read /proc/cmdline: %s"
      | Some (cmdline, _) =>
          f ← get_cmdline_var cmdline (bs "F");
          imagefile ← match f with
                      | Some value => into_buf (bs "/images/") value
                      | None => Die "no F in cmdline"
                      end;
          i ← get_cmdline_var cmdline (bs "I");
          imageuuid ← match i with
                      | Some value => into_buf [] value
                      | None => Die "no I in cmdline"
                      end;
          c ← get_cmdline_var cmdline (bs "C");
          configuuid ← match c with
                       | Some value => into_buf [] value
                       | None => Die "no C in cmdline"
                       end;
          mret (imagefile, imageuuid, configuuid)
      end
  end.

(** The image, or the failsafe image when it is not there. *)
Definition find_imagefile (imagefile : list byte) (st : state) : outcome (list byte * state) :=
  match image_file st imagefile with
  | Some _ => Ret (imagefile, st)
  | None =>
      imagefile ← into_buf (bs "/images/") FS_IMG;
      match mount FS_DEV (umount st) with
      | None => Die "mount failsafe /images: %s"
      | Some st =>
          match image_file st imagefile with
          | None => Die "stat failsafe image %s failed: %s"
          | Some _ => Ret (imagefile, st)
          end
      end
  end.

(** [offset], an off_t, from the header of the image. *)
Definition read_header (imagefile : list byte) (st : state) : outcome Z :=
  match image_file st imagefile with
  | None => Die "%s: open: %s"
  | Some contents =>
      if negb (can_read mc imagefile) then Die "%s: open: %s"
      else if Z.of_nat (length contents) <? sizeof Header.t then Die "read %s: %s"
      else
        bi_header ← read_at contents 0 (sizeof Header.t);
        mret (to_signed 32 (sfield bi_header Header.rootfs_offset))
  end.

(** The exit status and the state at the end. *)
Definition main : outcome (Z * state) :=
  if negb (mount_proc mc) then Die "mount /proc: %s"
  else
    '(imagefile, imageuuid, _) ← read_cmdline;
    match dev_names mc with
    | None => Die "opendir /dev: %s"
    | Some names =>
        st ← mount_images imageuuid names initial;
        '(imagefile, st) ← find_imagefile imagefile st;
        offset ← read_header imagefile st;
        let '(result, st) := set_loop imagefile offset st in
        if result <? 0 then Die "set_loop: %s" else Ret (0, st)
    end.
End linuxrc.
