(* ===== verification/BootSpec.v ===== *)
(** From makeimage.pl through kexec to linuxrc: what an image holds is read back, and
    the image that kexec was given is found again after the boot. *)

From Stdlib Require Import ZArith Lia String.
From stdpp Require Import base tactics list numbers gmap.
From coqutil Require Import Byte.
From S2P Require Import Prelude Words CMem CString Struct Uuid Segments Elf ElfRel ElfRelSpec Kexec KexecX86 X86Linux Monoimage Linuxrc.

#[local] Open Scope Z_scope.
#[local] Existing Instance i386.

(** ** The image *)

(** The header that makeimage.pl prints. *)
Definition image_header (format runfrom : Z) (kernel ramdisk : list byte) : list byte :=
  MI_MAGIC ++ split false 2 1 ++ split false 1 format ++ split false 1 runfrom
  ++ split false 4 20 ++ split false 4 (20 + Z.of_nat (length kernel))
  ++ split false 4 (20 + Z.of_nat (length kernel) + Z.of_nat (length ramdisk)).

Lemma makeimage_header format runfrom kernel ramdisk rootfs :
  makeimage format runfrom kernel ramdisk rootfs =
    image_header format runfrom kernel ramdisk ++ kernel ++ ramdisk ++ rootfs.
Proof. unfold makeimage, image_header. by rewrite <- !app_assoc. Qed.

(** As an off_t an offset below 2 GiB is itself. *)
Lemma to_signed_small x : 0 ≤ x < 2 ^ 31 → to_signed 32 (u32 x) = x.
Proof.
  intros Hx. rewrite u32_small by lia. unfold to_signed. rewrite Z.mod_small by lia.
  destruct (Z.ltb_spec x (2 ^ (32 - 1))); lia.
Qed.

Section image.
Context (format runfrom : Z) (kernel ramdisk rootfs : list byte).
Let header := image_header format runfrom kernel ramdisk.
Let image := makeimage format runfrom kernel ramdisk rootfs.
Let k := Z.of_nat (length kernel).
Let r := Z.of_nat (length ramdisk).

Lemma length_image_header : length header = 20%nat.
Proof. unfold header, image_header. rewrite !length_app, !length_split. done. Qed.

Lemma read_header_bytes n : 0 ≤ n ≤ 20 → read_at image 0 n = Ret (take (Z.to_nat n) header).
Proof.
  intros Hn. apply read_at_Ret. unfold image. rewrite makeimage_header. fold header.
  rewrite length_app, length_image_header. split; [lia | ]. split; [lia | ]. split; [lia | ].
  rewrite drop_0, take_app_le; [done | ]. rewrite length_image_header. lia.
Qed.

(** The members, where each of the two layouts has them. *)
Lemma header_fields :
  sfield header Monoimage.Header.version = 1 ∧
  sfield header Monoimage.Header.kernel_offset = 20 ∧
  sfield header Monoimage.Header.ramdisk_offset = u32 (20 + k) ∧
  sfield header Monoimage.Header.rootfs_offset = u32 (20 + k + r).
Proof.
  split_and!.
  - transitivity (combine false (split false 2 1)); reflexivity.
  - transitivity (combine false (split false 4 20)); reflexivity.
  - transitivity (combine false (split false 4 (20 + k))); [reflexivity | apply combine_split].
  - transitivity (combine false (split false 4 (20 + k + r))); [reflexivity | apply combine_split].
Qed.

Lemma header_offsets :
  20 + k + r < 2 ^ 31 →
  offset header Monoimage.Header.kernel_offset = 20 ∧
  offset header Monoimage.Header.ramdisk_offset = 20 + k ∧
  offset header Monoimage.Header.rootfs_offset = 20 + k + r.
Proof.
  intros Hsize. destruct header_fields as (_ & Hk & Hr & Hf). unfold offset. rewrite Hk, Hr, Hf.
  split_and!; [done | apply to_signed_small; lia..].
Qed.

Lemma linuxrc_field : sfield (take 16 header) Linuxrc.Header.rootfs_offset = u32 (20 + k).
Proof.
  transitivity (combine false (split false 4 (20 + k))); [reflexivity | apply combine_split].
Qed.

Lemma image_at off n part x y :
  image = x ++ part ++ y → off = Z.of_nat (length x) → n = Z.of_nat (length part) →
  read_at image off n = Ret part.
Proof. intros -> -> ->. by apply read_at_app. Qed.
End image.

Lemma makeimage_probe format runfrom kernel ramdisk rootfs :
  monoimage_probe (makeimage format runfrom kernel ramdisk rootfs) = Ret 1.
Proof.
  pose proof (header_fields format runfrom kernel ramdisk) as (Hv & _).
  pose proof (length_image_header format runfrom kernel ramdisk) as Hl.
  pose proof (read_header_bytes format runfrom kernel ramdisk rootfs 20 ltac:(lia)) as Hread.
  change (Z.to_nat 20) with 20%nat in Hread. rewrite take_ge in Hread by (rewrite Hl; lia).
  unfold monoimage_probe. change (sizeof Monoimage.Header.t) with 20.
  rewrite Hread, bind_Ret_l, Hv, makeimage_header, length_app, Hl.
  destruct (Z.ltb_spec (Z.of_nat (20 + length (kernel ++ ramdisk ++ rootfs))) 20); [lia | done].
Qed.

(** C39: an image whose header, kernel and ramdisk have less than 2 GiB together is accepted
    by the loader, which copies exactly the kernel and the ramdisk out of it, and the root
    file system is what follows the offset in its header.  linuxrc, with a header
    of another layout, finds the offset of the ramdisk in the place of that of the
    root file system. *)
Theorem makeimage_roundtrip format runfrom kernel ramdisk rootfs :
  20 + Z.of_nat (length kernel) + Z.of_nat (length ramdisk) < 2 ^ 31 →
  let image := makeimage format runfrom kernel ramdisk rootfs in
  monoimage_probe image = Ret 1 ∧
  image_parts image = Ret (ramdisk, kernel) ∧
  drop (Z.to_nat (offset image Monoimage.Header.rootfs_offset)) image = rootfs ∧
  drop (Z.to_nat (to_signed 32 (sfield image Linuxrc.Header.rootfs_offset))) image = ramdisk ++ rootfs.
Proof.
  intros Hsize. cbv zeta. pose proof (header_offsets format runfrom kernel ramdisk Hsize) as (Hk & Hr & Hfs).
  set (k := Z.of_nat (length kernel)) in *. set (r := Z.of_nat (length ramdisk)) in *.
  pose proof (length_image_header format runfrom kernel ramdisk) as Hl.
  pose proof (read_header_bytes format runfrom kernel ramdisk rootfs 20 ltac:(lia)) as Hread.
  change (Z.to_nat 20) with 20%nat in Hread.
  rewrite take_ge in Hread by (rewrite Hl; lia).
  set (h := image_header format runfrom kernel ramdisk) in *.
  assert (makeimage format runfrom kernel ramdisk rootfs = h ++ kernel ++ ramdisk ++ rootfs) as Him
    by apply makeimage_header.
  split_and!.
  - apply makeimage_probe.
  - unfold image_parts. change (sizeof Monoimage.Header.t) with 20. rewrite Hread, bind_Ret_l, Hk, Hr, Hfs.
    cbv zeta. replace (20 + k + r - (20 + k)) with r by ring. replace (20 + k - 20) with k by ring.
    rewrite !u32_small by lia.
    rewrite (image_at _ _ _ _ _ (20 + k) r ramdisk (h ++ kernel) rootfs), bind_Ret_l;
      [ | by rewrite Him, <- app_assoc | rewrite length_app; lia | done].
    by rewrite (image_at _ _ _ _ _ 20 k kernel h (ramdisk ++ rootfs)), bind_Ret_l;
      [ | | rewrite Hl | ].
  - rewrite Him. change (offset _ _) with (offset h Monoimage.Header.rootfs_offset). rewrite Hfs.
    rewrite !app_assoc, drop_app_length'; [done | ]. rewrite !length_app. lia.
  - rewrite Him. change (sfield _ _) with (sfield (take 16 h) Linuxrc.Header.rootfs_offset).
    unfold h. rewrite linuxrc_field. fold h k. rewrite to_signed_small by lia.
    rewrite app_assoc, drop_app_length'; [done | ]. rewrite !length_app. lia.
Qed.

(** ** The command line *)

(** None of the bytes [cs] is in [s]. *)
Definition without (cs s : list byte) : Prop := Forall (λ c, c ∉ s) cs.

#[export] Instance without_dec cs s : Decision (without cs s).
Proof. apply _. Defined.

Lemma without_app cs s t : without cs (s ++ t) ↔ without cs s ∧ without cs t.
Proof.
  unfold without. rewrite <- Forall_and. apply Forall_iff. intros c. by rewrite not_elem_of_app.
Qed.

Lemma without_in cs s c : without cs s → c ∈ cs → c ∉ s.
Proof. intros Hs Hc. unfold without in Hs. rewrite List.Forall_forall in Hs. by apply Hs, list_elem_of_In. Qed.

Definition blank : byte := Byte.x20.

(** The value of a variable whose letter does not occur before it; the byte after the
    letter, meant to be =, is not looked at. *)
Lemma get_var_at pre c x val sep rest :
  c ∉ pre → c ≠ blank → c ≠ newline → x ≠ blank → x ≠ newline → blank ∉ val →
  sep = blank ∨ sep = newline ∧ newline ∉ val ∧ blank ∉ rest →
  get_cmdline_var (pre ++ c :: x :: val ++ sep :: rest) [c] = Ret (Some val).
Proof.
  intros Hpre Hcb Hcn Hxb Hxn Hb Hsep. unfold get_cmdline_var. rewrite strstr_byte, strchr_first by done.
  rewrite drop_app_length. change (bs " ") with [blank]. change [Byte.x0a] with [newline].
  rewrite !strstr_byte. cbn [length].
  assert (∀ y, y ≠ c → y ≠ x → y ∉ val →
    strchr (c :: x :: val ++ y :: rest) y = Some (length val + 2)%nat) as Hfind.
  { intros y H1 H2 H3. change (c :: x :: val ++ y :: rest) with ((c :: x :: val) ++ y :: rest).
    rewrite strchr_first; [cbn [length]; f_equal; lia | ]. rewrite !not_elem_of_cons. done. }
  assert ((match strchr (c :: x :: val ++ sep :: rest) blank with
           | Some e => Some e | None => strchr (c :: x :: val ++ sep :: rest) newline end)
          = Some (length val + 2)%nat) as ->.
  { destruct Hsep as [-> | (-> & Hn & Hr)].
    - rewrite Hfind; (done || congruence).
    - rewrite strchr_absent; [rewrite Hfind; (done || congruence) | ].
      rewrite !not_elem_of_cons, not_elem_of_app, not_elem_of_cons. repeat split; (done || congruence). }
  cbn [drop Nat.add]. destruct (Nat.ltb_spec (length val + 2) 2) as [? | _]; [lia | ]. do 2 f_equal. replace (length val + 2 - 2)%nat with (length val) by lia.
  apply take_app_length.
Qed.

(** The letters that linuxrc looks for, and the separators. *)
Definition letters : list byte := bs "FIC".
Definition separators : list byte := [blank; newline].

(** What kexec puts before the variables. *)
Definition before_vars (append : option (list byte)) : list byte :=
  bs "root=/dev/loop0 ro " ++ match append with Some a => a ++ bs " " | None => [] end.

Lemma command_line_Ret append path iu cu line :
  command_line append path iu cu = Ret line →
  line = before_vars append ++ bs "F=" ++ path ++ bs " I=" ++ iu ++ bs " C=" ++ cu ∧
  Z.of_nat (length line) < 256.
Proof.
  unfold command_line, before_vars. cbv zeta. destruct (Z.leb_spec 256 (Z.of_nat (length (bs "root=/dev/loop0 ro "
    ++ match append with Some a => a ++ bs " " | None => [] end ++ bs "F=" ++ path ++ bs " I=" ++ iu ++ bs " C=" ++ cu))));
    [done | ]. intros [= <-]. rewrite <- app_assoc. done.
Qed.

(** The strings of which the variables can be read back. *)
Record readable_line (append : option (list byte)) (path iu cu : list byte) : Prop := {
  rl_append : ∀ a, append = Some a → without (newline :: letters) a;
  rl_path : without (separators ++ bs "IC") path;
  rl_iu : without (separators ++ bs "C") iu;
  rl_cu : without separators cu
}.

Lemma read_vars append path iu cu line :
  command_line append path iu cu = Ret line → readable_line append path iu cu →
  newline ∉ line ∧
  get_cmdline_var (line ++ [newline]) (bs "F") = Ret (Some path) ∧
  get_cmdline_var (line ++ [newline]) (bs "I") = Ret (Some iu) ∧
  get_cmdline_var (line ++ [newline]) (bs "C") = Ret (Some cu).
Proof.
  intros [-> _]%command_line_Ret [Ha Hp Hi Hc].
  assert (without (newline :: letters) (before_vars append)) as Hb.
  { unfold before_vars. apply without_app. split; [decided | ]. destruct append as [a|]; [ | decided].
    apply without_app. split; [by apply Ha | decided]. }
  assert (∀ c s, without (separators ++ c) s → blank ∉ s ∧ newline ∉ s) as Hsep.
  { intros c s Hs. split; apply (without_in _ _ _ Hs), elem_of_app; left; decided. }
  destruct (Hsep _ _ Hp) as [Hpb Hpn]. destruct (Hsep _ _ Hi) as [Hib Hin].
  rewrite <- (app_nil_r separators) in Hc. destruct (Hsep _ _ Hc) as [Hcb Hcn].
  pose proof (without_in _ _ newline Hb ltac:(decided)) as Hbn.
  pose proof (without_in _ _ Byte.x46 Hb ltac:(decided)) as HbF.
  pose proof (without_in _ _ Byte.x49 Hb ltac:(decided)) as HbI.
  pose proof (without_in _ _ Byte.x43 Hb ltac:(decided)) as HbC.
  pose proof (without_in _ _ Byte.x49 Hp ltac:(decided)) as HpI.
  pose proof (without_in _ _ Byte.x43 Hp ltac:(decided)) as HpC.
  pose proof (without_in _ _ Byte.x43 Hi ltac:(decided)) as HiC.
  assert (∀ c l, bool_decide (c ∉ l) = true → (c : byte) ∉ (l : list byte)) as Hd
    by (intros c l; apply bool_decide_eq_true_1).
  split_and!.
  - rewrite !not_elem_of_app. repeat split; try done; by apply Hd.
  - pose proof (get_var_at (before_vars append) Byte.x46 Byte.x3d path blank
      (bs "I=" ++ iu ++ bs " C=" ++ cu ++ [newline]) HbF ltac:(done) ltac:(done) ltac:(done) ltac:(done) Hpb ltac:(by left)) as Hv.
    rewrite <- Hv. f_equal. by rewrite <- !app_assoc.
  - pose proof (get_var_at (before_vars append ++ bs "F=" ++ path ++ bs " ") Byte.x49 Byte.x3d iu blank
      (bs "C=" ++ cu ++ [newline])) as Hv.
    rewrite <- Hv; [f_equal; by rewrite <- !app_assoc | | done | done | done | done | done | by left].
    rewrite !not_elem_of_app. repeat split; try done; by apply Hd.
  - pose proof (get_var_at (before_vars append ++ bs "F=" ++ path ++ bs " I=" ++ iu ++ bs " ") Byte.x43 Byte.x3d cu
      newline []) as Hv.
    rewrite <- Hv; [f_equal; by rewrite <- !app_assoc | | done | done | done | done | done | ].
    + rewrite !not_elem_of_app. repeat split; try done; by apply Hd.
    + right. split; [done | ]. split; [done | apply not_elem_of_nil].
Qed.

(** What linuxrc reads from the command line that kexec wrote. *)
Lemma read_cmdline_handoff mc append path iu cu line :
  command_line append path iu cu = Ret line → readable_line append path iu cu →
  Z.of_nat (length line) ≤ 254 → proc_cmdline mc = Some (line ++ [newline]) →
  read_cmdline mc = Ret (bs "/images/" ++ path, iu, cu).
Proof.
  intros Hcl Hrl Hlen Hpc. pose proof (read_vars _ _ _ _ _ Hcl Hrl) as (Hn & HF & HI & HC).
  apply command_line_Ret in Hcl as [Hline _].
  assert (fgets (Z.to_nat BUF_MAX) (line ++ [newline]) = Some (line ++ [newline], [])) as Hg.
  { unfold fgets. rewrite fgets_bytes_line; [by destruct line | done | ]. change (Z.to_nat BUF_MAX - 1)%nat with 255%nat. lia. }
  assert (Z.of_nat (length line) = Z.of_nat (length (before_vars append)) + 2 + Z.of_nat (length path) + 3
    + Z.of_nat (length iu) + 3 + Z.of_nat (length cu)) as Hl.
  { rewrite Hline, !length_app. cbn [length bs list_byte_of_string]. simpl. lia. }
  assert (19 ≤ Z.of_nat (length (before_vars append))) as Hb
    by (unfold before_vars; rewrite length_app; simpl; lia).
  assert (∀ pre s, Z.of_nat (length pre) ≤ 8 → Z.of_nat (length s) ≤ 230 → into_buf pre s = Ret (pre ++ s)) as Hbuf.
  { intros pre s H1 H2. unfold into_buf, BUF_MAX. rewrite length_app.
    destruct (Z.leb_spec 256 (Z.of_nat (length pre + length s))); [lia | done]. }
  unfold read_cmdline. rewrite Hpc, Hg, HF, bind_Ret_l, Hbuf, bind_Ret_l by (simpl; lia).
  rewrite HI, bind_Ret_l, Hbuf, bind_Ret_l by (simpl; lia).
  rewrite HC, bind_Ret_l, Hbuf by (simpl; lia). done.
Qed.

(** ** From the running system to the next one *)

Lemma uuid2str_plain uu : length uu = 16%nat → without (separators ++ bs "C") (uuid2str uu).
Proof.
  intros Hl. unfold uuid2str. destruct (is_null_uuid uu); [decided | ].
  rewrite uuid_to_str_canonical by done. pose proof (canonical_chars uu) as Hc.
  rewrite List.Forall_forall in Hc. unfold without.
  apply List.Forall_forall. intros c Hin Habs. apply list_elem_of_In, Hc in Habs.
  repeat (destruct Hin as [<- | Hin]; [discriminate Habs | ]). destruct Hin.
Qed.

Lemma after_common_incl mpoint : ∀ path q, after_common mpoint path = Ret q → q ⊆ path.
Proof.
  induction mpoint as [|m mpoint IH]; intros [|c path] q; simpl; try (by intros [= <-]).
  case_if; [ | by intros [= <-]]. intros Hq x Hx. apply elem_of_cons. right. by eapply IH.
Qed.

Lemma image_path_incl mpoint path q : image_path mpoint path = Ret q → q ⊆ path.
Proof.
  unfold image_path. intros (p & Hp%after_common_incl & Hq)%bind_Ret. apply Ret_inj in Hq. subst q.
  intros x Hx. apply Hp. destruct p as [|c p]; [done | ]. destruct c; try done. by apply elem_of_cons; right.
Qed.

Lemma without_incl cs s t : t ⊆ s → without cs s → without cs t.
Proof. intros Hts. unfold without. apply List.Forall_impl. intros c Hc Hin. by apply Hc, Hts. Qed.

(** *** What kexec looks for *)

(** The first argument that names a file; those before it do not exist. *)
Definition first_existing (sys : system) (args : list (list byte)) (image : list byte) (f : stat) : Prop :=
  ∃ pre post, args = pre ++ image :: post ∧ Forall (λ a, sys_stat sys a = NoStat ENOENT) pre ∧
    sys_stat sys image = Stat f.

(** A block device with the number of the file system that [file] is on. *)
Definition device_of (sys : system) (file : stat) (n : list byte) : Prop :=
  ∃ s, sys_stat sys (bs "/dev/" ++ n) = Stat s ∧ st_rdev s = st_dev file ∧ is_blk s = true.

(** The last such device among the names in /dev. *)
Definition last_device (sys : system) (file : stat) (names : list (list byte)) (dev : list byte) : Prop :=
  ∃ names1 n names2, names = names1 ++ n :: names2 ∧ dev = bs "/dev/" ++ n ∧ device_of sys file n ∧
    Forall (λ n', ¬ device_of sys file n') names2.

(** The mount point in the first line of the table that begins with the name of the device:
    what is after the name and one more byte, up to the next blank. *)
Inductive mount_point (dev : list byte) : list byte → list byte → Prop :=
| mount_here mounts line rest sep mpoint options :
    fgets 256 mounts = Some (line, rest) →
    before_nul line = dev ++ sep :: mpoint ++ blank :: options → blank ∉ mpoint →
    mount_point dev mounts mpoint
| mount_later mounts line rest mpoint :
    fgets 256 mounts = Some (line, rest) → ¬ dev `prefix_of` before_nul line →
    mount_point dev rest mpoint → mount_point dev mounts mpoint.

Definition slash : byte := Byte.x2f.

(** The path without its longest beginning in common with the mount point, and without a
    slash after that. *)
Definition path_from (mpoint image path : list byte) : Prop :=
  ∃ common m i, mpoint = common ++ m ∧ image = common ++ i ∧ head m ≠ head i ∧
    (i = slash :: path ∨ i = path ∧ head path ≠ Some slash).

Lemma find_image_Some sys st0 args a s :
  find_image sys st0 args = Ret (Some (a, s)) → first_existing sys args a s.
Proof.
  induction args as [|x args IH]; cbn [find_image]; [done | ].
  destruct (sys_stat sys x) as [s'|e] eqn:Es.
  - intros [= -> ->]. by exists [], args.
  - destruct (Z.eqb_spec e ENOENT) as [-> | ]; cbn [negb]; [ | done]. case_if; [done | ].
    intros (pre & post & -> & Hpre & Ha)%IH. exists (x :: pre), post. split_and!; [done | by constructor | done].
Qed.

Lemma first_existing_arg sys argv image f (P : list byte → Prop) :
  first_existing sys (drop 1 argv) image f → Forall P argv → P image.
Proof.
  intros (pre & post & E & _) Hall. rewrite List.Forall_forall in Hall. apply Hall, list_elem_of_In.
  rewrite <- (take_drop 1 argv), E. rewrite !elem_of_app, elem_of_cons. tauto.
Qed.

Lemma last_device_nonul sys file names dev :
  Forall nonul names → last_device sys file names dev → nonul dev.
Proof.
  intros Hn (n1 & n & n2 & -> & -> & _). apply Forall_app in Hn as [_ [Hn _]%Forall_cons_1].
  apply nonul_app. split; [decided | done].
Qed.

(** What a walk over [names] leaves in a variable that held [od]. *)
Definition walk_leaves (sys : system) (file : stat) (names : list (list byte)) (od od' : option (list byte)) :=
  od' = od ∧ Forall (λ n, ¬ device_of sys file n) names ∨ ∃ d, od' = Some d ∧ last_device sys file names d.

Lemma holds_device sys file n s :
  sys_stat sys (bs "/dev/" ++ n) = Stat s → holds s file = true ↔ device_of sys file n.
Proof.
  intros Hs. unfold holds, device_of. rewrite andb_true_iff, Z.eqb_eq. split; [by exists s | ].
  intros (s' & Hs' & H). rewrite Hs in Hs'. by injection Hs' as <-.
Qed.

Lemma walk_leaves_cons sys file n names s od od' :
  sys_stat sys (bs "/dev/" ++ n) = Stat s →
  walk_leaves sys file names (if holds s file then Some (bs "/dev/" ++ n) else od) od' →
  walk_leaves sys file (n :: names) od od'.
Proof.
  intros Hs [[-> Hnone] | (d & -> & n1 & m & n2 & -> & H)].
  - pose proof (holds_device sys file n s Hs) as Hh. destruct (holds s file).
    + right. eexists. split; [done | ]. exists [], n, names. split_and!; [done | done | by apply Hh | done].
    + left. split; [done | ]. constructor; [ | done]. intros Hd. by apply Hh in Hd.
  - right. exists d. split; [done | ]. by exists (n :: n1), m, n2.
Qed.

(** When [stat] succeeds on every name in /dev, the devices found are the last that fit. *)
Lemma walk_dev_found sys images config names : ∀ devbuf id cd id' cd',
  walk_dev sys images config names devbuf id cd = Ret (Some (id', cd')) →
  Forall (λ n, ∃ s, sys_stat sys (bs "/dev/" ++ n) = Stat s) names →
  walk_leaves sys images names id id' ∧ walk_leaves sys config names cd cd'.
Proof.
  induction names as [|n names IH]; intros devbuf id cd id' cd'; cbn [walk_dev].
  { intros [= <- <-] _. by split; left. }
  intros (path & Hp & Hw)%bind_Ret [[s Hs] Hall]%Forall_cons_1.
  unfold dev_path in Hp. case_if_in Hp; [done | ]. apply Ret_inj in Hp. subst path. rewrite Hs in Hw.
  destruct (IH _ _ _ _ _ Hw Hall) as [H1 H2]. split; by eapply walk_leaves_cons.
Qed.

Lemma found_last sys file names od' d :
  walk_leaves sys file names None od' → found od' = Ret d → last_device sys file names d.
Proof. intros [[-> _] | (d' & -> & Hd)]; [done | ]. by intros [= ->]. Qed.

Lemma before_nul_nonul s : nonul (before_nul s).
Proof.
  induction s as [|c s IH]; cbn [before_nul]; [apply not_elem_of_nil | ].
  destruct (byte_eqb c Byte.x00) eqn:E; [apply not_elem_of_nil | ]. apply nonul_cons. split; [ | done].
  intros ->. by rewrite byte_eqb_refl in E.
Qed.

(** [strncmp] with the length of a string tests for that string at the beginning. *)
Lemma strncmp_prefix s p : nonul s → nonul p → strncmp s p (length p) = 0 ↔ p `prefix_of` s.
Proof.
  intros Hs Hp. rewrite strncmp_0, (take_ge p) by done. split.
  - intros E. exists (drop (length p) s). by rewrite <- E at 1; rewrite take_drop.
  - intros [k ->]. apply take_app_length.
Qed.

Lemma find_mount_spec fuel dev : ∀ mounts mpoint, nonul dev →
  find_mount fuel dev mounts = Ret mpoint → mount_point dev mounts mpoint.
Proof.
  induction fuel as [|fuel IH]; intros mounts mpoint Hn; cbn [find_mount]; [done | ].
  destruct (fgets 256 mounts) as [[line rest]|] eqn:Eg; [ | done]. cbv zeta.
  pose proof (strncmp_prefix (before_nul line) dev (before_nul_nonul line) Hn) as Hpre.
  destruct (Z.eqb_spec (strncmp (before_nul line) dev (length dev)) 0) as [E | E].
  - apply Hpre in E as [after Hl]. rewrite Hl, length_app.
    destruct after as [|sep after];
      [rewrite (proj2 (Nat.leb_le _ _)) by (cbn [length]; lia); intros [=] | ].
    rewrite (proj2 (Nat.leb_gt _ _)) by (cbn [length]; lia). rewrite <- drop_drop, drop_app_length. cbn [drop]. rewrite drop_0.
    destruct (strchr after Byte.x20) as [i|] eqn:Ei; [ | done]. intros [= <-].
    apply strchr_Some in Ei as [Hi Hb]. apply (mount_here _ _ line rest sep _ (drop (S i) after)); [done | | done].
    by rewrite Hl, (take_drop_middle after i blank Hi).
  - intros Hm. eapply mount_later; [done | by intros ?%Hpre | by apply IH].
Qed.

Lemma image_path_from mpoint image path : image_path mpoint image = Ret path → path_from mpoint image path.
Proof.
  unfold image_path. intros (i & Hi & Hp)%bind_Ret. apply Ret_inj in Hp. subst path.
  assert (∃ common m, mpoint = common ++ m ∧ image = common ++ i ∧ head m ≠ head i) as (common & m & -> & -> & Hh).
  { revert image Hi. induction mpoint as [|x mpoint IH]; intros [|c image]; cbn [after_common]; try done.
    - intros [= <-]. by exists [], [].
    - intros [= <-]. by exists [], (x :: mpoint).
    - destruct (byte_eqb x c) eqn:E.
      + apply byte_eqb_eq in E as ->. intros (common & m & -> & -> & Hh)%IH. by exists (c :: common), m.
      + intros [= <-]. exists [], (x :: mpoint). split_and!; [done | done | ]. intros [= ->].
        by rewrite byte_eqb_refl in E. }
  exists common, m, i. split_and!; [done | done | done | ].
  destruct i as [|c i]; [by right | ]. destruct c; first [by left | by right].
Qed.

(** C6: the command line that kexec makes for an image names the file system of the first argument
    that exists, the image, by the identifier of the block device it is on, and the file
    system of the configuration by that of its own; linuxrc, started with that command line,
    reads the two identifiers, and under /images the path that the image has below the mount
    point of its device.  Blanks, newlines, [I] and [C] in an argument, and [F], [I] and
    [C] in the appended part, would be taken for a variable, and a name in /dev that does not
    exist for the device before it. *)
Theorem cmdline_handoff sys sg append cfg argv line mc :
  boot_command_line sys sg append cfg argv = Ret (Some line) →
  Z.of_nat (length line) ≤ 254 → proc_cmdline mc = Some (line ++ [newline]) →
  (∀ d u, sys_uuid sys d = Some u → length u = 16%nat) →
  (∀ a, append = Some a → without (newline :: letters) a) →
  Forall (without (separators ++ bs "IC")) argv →
  (∀ names, sys_dev sys = Some names →
     Forall (λ n, nonul n ∧ ∃ s, sys_stat sys (bs "/dev/" ++ n) = Stat s) names) →
  ∃ image f config names images_dev config_dev images_id config_id mounts mpoint path,
    first_existing sys (drop 1 argv) image f ∧ sys_stat sys cfg = Stat config ∧
    sys_dev sys = Some names ∧ last_device sys f names images_dev ∧ last_device sys config names config_dev ∧
    sys_uuid sys images_dev = Some images_id ∧ sys_uuid sys config_dev = Some config_id ∧
    sys_mounts sys = Some mounts ∧ mount_point images_dev mounts mpoint ∧ path_from mpoint image path ∧
    read_cmdline mc = Ret (bs "/images/" ++ path, uuid2str images_id, uuid2str config_id).
Proof.
  intros Hb Hlen Hpc Huu Happ Hargv Hdev. unfold boot_command_line in Hb.
  apply bind_Ret in Hb as ([[image f]|] & Hi & Hb); [ | done]. apply find_image_Some in Hi.
  destruct (sys_stat sys cfg) as [config | ] eqn:Ec; [ | done]. destruct (sys_dev sys) as [names|]; [ | done].
  specialize (Hdev names eq_refl). apply Forall_and in Hdev as [Hnul Hdev].
  apply bind_Ret in Hb as ([[id cd]|] & Hw & Hb); [ | done].
  apply walk_dev_found in Hw as [Hwi Hwc]; [ | done].
  apply bind_Ret in Hb as (idev & Hid & Hb). apply bind_Ret in Hb as (cdev & Hcd & Hb).
  eapply found_last in Hid, Hcd; [ | done..]. clear Hwi Hwc.
  pose proof (last_device_nonul _ _ _ _ Hnul Hid) as Hni. pose proof (last_device_nonul _ _ _ _ Hnul Hcd) as Hnc.
  apply bind_Ret in Hb as (iu & Hiu & Hb). apply bind_Ret in Hb as (cu & Hcu & Hb).
  unfold ext2_uuid in Hiu. destruct (sys_uuid sys idev) as [iid|] eqn:Eu; [ | done]. apply Ret_inj in Hiu. subst iu.
  assert (∃ cid, sys_uuid sys cdev = Some cid ∧ cu = uuid2str cid) as (cid & Ev & ->).
  { destruct (Z.eqb_spec (strcmp idev cdev) 0) as [E | _].
    - apply strcmp_0 in E; [ | done..]. subst cdev. exists iid. by apply Ret_inj in Hcu as <-.
    - unfold ext2_uuid in Hcu. destruct (sys_uuid sys cdev) as [cid|]; [ | done]. apply Ret_inj in Hcu as <-.
      by exists cid. }
  apply bind_Ret in Hb as (mounts & Hmo & Hb). apply bind_Ret in Hb as (mpoint & Hm & Hb).
  destruct (sys_mounts sys) as [mo|]; [ | done]. apply Ret_inj in Hmo. subst mo.
  apply bind_Ret in Hb as (path & Hp & Hb). apply bind_Ret in Hb as (l & Hl & Hb).
  apply Ret_inj in Hb. simplify_eq. apply find_mount_spec in Hm; [ | done].
  assert (readable_line append path (uuid2str iid) (uuid2str cid)) as Hrl.
  { pose proof (uuid2str_plain cid (Huu _ _ Ev)) as Hc. unfold without in Hc. apply Forall_app in Hc as [Hc _].
    constructor; [done | | by eapply uuid2str_plain, Huu | done].
    apply (without_incl _ image); [by eapply image_path_incl | ]. eapply first_existing_arg; done. }
  exists image, f, config, names, idev, cdev, iid, cid, mounts, mpoint, path.
  do 9 (split; [done | ]). split; [by apply image_path_from | by eapply read_cmdline_handoff].
Qed.

(** ** linuxrc *)

Lemma strcmp_eq a b : strcmp a b = 0 → nonul a → nonul b → a = b.
Proof.
  revert b. induction a as [|x a IH]; intros [|y b] Hs Ha Hb; cbn [strcmp] in Hs; [done | | | ].
  - apply nonul_cons in Hb as [Hy _]. pose proof (nonul_pos _ Hy). lia.
  - apply nonul_cons in Ha as [Hx _]. pose proof (nonul_pos _ Hx). lia.
  - apply nonul_cons in Ha as [_ Ha], Hb as [_ Hb]. destruct (byte_eqb x y) eqn:E.
    + apply byte_eqb_eq in E as ->. f_equal. by apply IH.
    + exfalso. unfold byte_eqb in E. apply Z.eqb_neq in E. lia.
Qed.

Lemma strcmp_refl a : strcmp a a = 0.
Proof. induction a as [|x a IH]; cbn [strcmp]; [done | ]. by rewrite byte_eqb_refl. Qed.

(** Every loop device call succeeds. *)
Definition loop_works (mc : machine) (file : list byte) : bool :=
  can_write mc file && loop_opens mc && loop_set_fd mc && loop_set_status mc.

Definition loop_at (file : list byte) (offset : Z) : list byte * loop_info :=
  (file, {| lo_file_name := take LO_NAME_SIZE file; lo_offset := u64 offset |}).

Lemma set_loop_spec mc file offset st :
  loop0 st = None →
  (set_loop mc file offset st).2 =
    {| mounted := mounted st; loop0 := if loop_works mc file then Some (loop_at file offset) else None |} ∧
  0 ≤ (set_loop mc file offset st).1.
Proof.
  intros Hl. destruct st as [mnt lp]. cbn [loop0] in Hl. subst lp. unfold set_loop, loop_works.
  by destruct (can_write mc file), (loop_opens mc), (loop_set_fd mc), (loop_set_status mc).
Qed.

(** A device that linuxrc passes by: no block device, or one with another identifier. *)
Definition passed_by (mc : machine) (uuid n : list byte) : Prop :=
  Z.of_nat (length n) ≤ 250 ∧
  (dev_is_blk mc (bs "/dev/" ++ n) = true → strcmp uuid (Linuxrc.ext2_uuid mc (bs "/dev/" ++ n)) ≠ 0).

Lemma dev_name_fits n : Z.of_nat (length n) ≤ 250 → (BUF_MAX <=? Z.of_nat (length (bs "/dev/" ++ n))) = false.
Proof. intros Hn. apply Z.leb_gt. rewrite length_app. unfold BUF_MAX. simpl. lia. Qed.

Lemma mount_images_finds mc uuid names1 name names2 st :
  Forall (passed_by mc uuid) names1 → Z.of_nat (length name) ≤ 250 →
  dev_is_blk mc (bs "/dev/" ++ name) = true →
  Linuxrc.ext2_uuid mc (bs "/dev/" ++ name) = uuid → fs_mountable mc (bs "/dev/" ++ name) = true →
  mount_images mc uuid (names1 ++ name :: names2) st =
    Ret {| mounted := (bs "/dev/" ++ name) :: mounted st; loop0 := loop0 st |}.
Proof.
  intros Hp Hn Hblk Hu Hm. induction names1 as [|n names1 IH]; cbn [mount_images app]; cbv zeta.
  - rewrite dev_name_fits, Hblk, Hu, strcmp_refl by done. cbn [andb]. unfold mount. by rewrite Hm.
  - apply Forall_cons_1 in Hp as [[Hl Hd] Hp]. rewrite dev_name_fits by done.
    destruct (dev_is_blk mc (bs "/dev/" ++ n)); cbn [andb]; [ | by apply IH].
    destruct (Z.eqb_spec (strcmp uuid (Linuxrc.ext2_uuid mc (bs "/dev/" ++ n))) 0) as [E | _].
    + by destruct (Hd eq_refl).
    + by apply IH.
Qed.

(** C22: from the command line that kexec wrote, linuxrc mounts the first block device
    with the identifier and finds the image there; but the loop device, when it can
    be set up, starts at the ramdisk of the image and not at the root file system,
    and when it cannot be set up linuxrc reports success as well.
    The line must be one of which the variables can be read back: no blank, newline, I or C in the path,
    no newline, F, I or C in what is appended ([readable_line]).  The lines that monoboot
    has kexec write hold CONFIG= and are misread ([MonobootSpec.monoboot_line_misread]). *)
Theorem linuxrc_boots mc append path uu cu line names1 name names2 format runfrom kernel ramdisk rootfs :
  let dev := bs "/dev/" ++ name in
  let imagefile := bs "/images/" ++ path in
  let image := makeimage format runfrom kernel ramdisk rootfs in
  command_line append path (uuid2str uu) cu = Ret line → readable_line append path (uuid2str uu) cu →
  Z.of_nat (length line) ≤ 254 → proc_cmdline mc = Some (line ++ [newline]) → mount_proc mc = true →
  dev_names mc = Some (names1 ++ name :: names2) → Forall (passed_by mc (uuid2str uu)) names1 →
  Z.of_nat (length name) ≤ 250 → dev_is_blk mc dev = true → dev_uuid mc dev = Some uu →
  fs_mountable mc dev = true → fs_files mc (Some dev) imagefile = Some image →
  can_read mc imagefile = true →
  20 + Z.of_nat (length kernel) + Z.of_nat (length ramdisk) < 2 ^ 31 →
  main mc = Ret (0, {| mounted := [dev];
    loop0 := if loop_works mc imagefile
             then Some (loop_at imagefile (20 + Z.of_nat (length kernel))) else None |}) ∧
  drop (Z.to_nat (20 + Z.of_nat (length kernel))) image = ramdisk ++ rootfs.
Proof.
  intros dev imagefile image Hcl Hrl Hlen Hpc Hproc Hnames Hpass Hname Hblk Huu Hm Hfile Hread Hsize.
  pose proof (linuxrc_field format runfrom kernel ramdisk) as Hfield.
  pose proof (read_header_bytes format runfrom kernel ramdisk rootfs 16 ltac:(lia)) as Hhead.
  rewrite u32_small in Hfield by lia. split.
  - unfold main. rewrite Hproc. cbn [negb].
    rewrite (read_cmdline_handoff mc _ _ _ _ _ Hcl Hrl Hlen Hpc), bind_Ret_l, Hnames.
    rewrite (mount_images_finds mc _ _ _ _ _ Hpass Hname Hblk), bind_Ret_l;
      [ | by unfold Linuxrc.ext2_uuid; fold dev; rewrite Huu | done].
    fold dev imagefile. set (st := {| mounted := _; loop0 := _ |}).
    assert (image_file mc st imagefile = Some image) as Him by done.
    unfold find_imagefile. rewrite Him, bind_Ret_l.
    unfold read_header. rewrite Him, Hread. cbn [negb]. change (sizeof Linuxrc.Header.t) with 16.
    assert ((Z.of_nat (length image) <? 16) = false) as ->.
    { apply Z.ltb_ge. unfold image. rewrite makeimage_header, length_app, length_image_header. lia. }
    unfold image. rewrite Hhead, bind_Ret_l. change (Z.to_nat 16) with 16%nat. rewrite Hfield.
    assert (to_signed 32 (20 + Z.of_nat (length kernel)) = 20 + Z.of_nat (length kernel)) as ->.
    { unfold to_signed. rewrite Z.mod_small by lia.
      destruct (Z.ltb_spec (20 + Z.of_nat (length kernel)) (2 ^ (32 - 1))); lia. }
    rewrite bind_mret. destruct (set_loop_spec mc imagefile (20 + Z.of_nat (length kernel)) st eq_refl) as [Hst Hr].
    destruct (set_loop mc imagefile _ st) as [r st']. cbn [fst snd] in *. subst st'.
    destruct (Z.ltb_spec r 0); [lia | done].
  - unfold image. rewrite makeimage_header, app_assoc, drop_app_length'; [done | ].
    rewrite length_app, length_image_header. lia.
Qed.

Lemma mount_images_loop mc uuid names : ∀ st st',
  mount_images mc uuid names st = Ret st' → loop0 st' = loop0 st.
Proof.
  induction names as [|n names IH]; intros st st'; cbn [mount_images]; [by intros [= <-] | ]. cbv zeta.
  case_if; [done | ]. destruct (dev_is_blk mc _ && _); [ | apply IH].
  unfold mount. case_if; [ | done]. by intros [= <-].
Qed.

(** whenever linuxrc ends without halting the machine, its exit status is 0 and an
    image is mounted, from whose bytes 12 to 15 the offset of the loop device comes;
    the loop device is set up exactly when its system calls succeed, and an offset
    of 2 GiB or more becomes an offset near 2^64. *)
Theorem linuxrc_outcome mc r st :
  main mc = Ret (r, st) →
  r = 0 ∧ ∃ path contents, image_file mc st path = Some contents ∧ 16 ≤ Z.of_nat (length contents) ∧
    loop0 st = if loop_works mc path
               then Some (loop_at path (to_signed 32 (sfield contents Linuxrc.Header.rootfs_offset)))
               else None.
Proof.
  unfold main. destruct (mount_proc mc); [ | done]. cbn [negb].
  intros ([[imagefile uuid] cu] & _ & Hm)%bind_Ret. destruct (dev_names mc) as [names|]; [ | done].
  apply bind_Ret in Hm as (st1 & Hmi & Hm). apply bind_Ret in Hm as ([path st2] & Hf & Hm).
  apply bind_Ret in Hm as (offset & Ho & Hm). apply mount_images_loop in Hmi.
  assert (loop0 st2 = None) as Hl2.
  { unfold find_imagefile in Hf. destruct (image_file mc st1 imagefile).
    - apply Ret_inj in Hf. simplify_eq. done.
    - apply bind_Ret in Hf as (p & _ & Hf). unfold mount in Hf. case_if_in Hf; [ | done].
      destruct (image_file mc _ p); [ | done]. apply Ret_inj in Hf. simplify_eq. done. }
  destruct (set_loop_spec mc path offset st2 Hl2) as [Hst Hr].
  destruct (set_loop mc path offset st2) as [res st3]. cbn [fst snd] in *. subst st3.
  destruct (Z.ltb_spec res 0); [lia | ]. apply Ret_inj in Hm. simplify_eq. split; [done | ].
  unfold read_header in Ho. destruct (image_file mc st2 path) as [contents|] eqn:Ei; [ | done].
  destruct (can_read mc path); [ | done]. cbn [negb] in Ho.
  change (sizeof Linuxrc.Header.t) with 16 in Ho.
  destruct (Z.ltb_spec (Z.of_nat (length contents)) 16); [done | ].
  apply bind_Ret in Ho as (h & Hh & Ho). apply read_at_Ret in Hh as (_ & _ & _ & ->).
  apply Ret_inj in Ho as <-. exists path, contents. split; [done | ]. split; [done | ].
  cbn [loop0]. unfold sfield. change (Z.to_nat 0) with 0%nat. change (Z.to_nat 16) with 16%nat.
  rewrite drop_0, skipn_firstn_comm, take_take. done.
Qed.

(** Failures of the rest: a command line of 255 bytes loses its newline in linuxrc, whose
    copy of the last variable then has no end. *)
Lemma long_line_undefined pre c val :
  c ∉ pre → c ≠ blank → c ≠ newline → blank ∉ val → newline ∉ val →
  get_cmdline_var (pre ++ c :: Byte.x3d :: val) [c] = UB "subtraction of a null pointer".
Proof.
  intros Hpre Hcb Hcn Hb Hn. unfold get_cmdline_var. rewrite strstr_byte, strchr_first by done.
  rewrite drop_app_length. change (bs " ") with [blank]. change [Byte.x0a] with [newline].
  rewrite !strstr_byte, !strchr_absent; [done | | ]; by rewrite !not_elem_of_cons.
Qed.

(** The image is taken to be the first argument that names a file: the value of
    --config given as an argument of its own comes before the image. *)
Lemma find_image_first sys st0 args a s rest :
  st0 ≠ 0 → Forall (λ x, sys_stat sys x = NoStat ENOENT) args → sys_stat sys a = Stat s →
  find_image sys st0 (args ++ a :: rest) = Ret (Some (a, s)).
Proof.
  intros H0 Hargs Ha. induction args as [|x args IH]; cbn [find_image app]; [by rewrite Ha | ].
  apply Forall_cons_1 in Hargs as [-> Hargs]. cbn. destruct (Z.eqb_spec st0 0); [done | by apply IH].
Qed.

(** A name in /dev that does not exist is taken for the device of the name before it. *)
Lemma dangling_device sys images config n n' s :
  sys_stat sys (bs "/dev/" ++ n) = Stat s → sys_stat sys (bs "/dev/" ++ n') = NoStat ENOENT →
  holds s images = true → Z.of_nat (length n) ≤ 250 → Z.of_nat (length n') ≤ 250 →
  walk_dev sys images config [n; n'] s None None =
    Ret (Some (Some (bs "/dev/" ++ n'), if holds s config then Some (bs "/dev/" ++ n') else None)).
Proof.
  intros Hn Hn' Hs Hl Hl'. cbn [walk_dev]. unfold dev_path.
  assert (∀ m, Z.of_nat (length m) ≤ 250 → (256 <=? Z.of_nat (length (bs "/dev/" ++ m))) = false) as Hfit
    by apply dev_name_fits.
  rewrite !Hfit, bind_Ret_l, Hn, bind_Ret_l, Hn', Z.eqb_refl, Hs by done.
  by destruct (holds s config).
Qed.

(** ** A boot *)

Module Witness.
Definition kernel : list byte := repeat Byte.x90 3000.
Definition ramdisk : list byte := repeat Byte.x1f 500.
Definition rootfs : list byte := repeat Byte.x68 400.
Definition image : list byte := makeimage 1 0 kernel ramdisk rootfs.

Lemma makeimage_roundtrip_witness :
  20 + Z.of_nat (length kernel) + Z.of_nat (length ramdisk) < 2 ^ 31 ∧
  monoimage_probe image = Ret 1 ∧ image_parts image = Ret (ramdisk, kernel).
Proof.
  split; [by vm_compute | ].
  destruct (makeimage_roundtrip 1 0 kernel ramdisk rootfs) as (Hp & Hi & _); [by vm_compute | done].
Defined.

Definition hda1_uuid : list byte := Uuid.Witness.some_uuid.

Definition file_on (dev : Z) : stat := {| st_dev := dev; st_rdev := 0; is_blk := false |}.
Definition device (rdev : Z) : stat := {| st_dev := 5; st_rdev := rdev; is_blk := true |}.

Definition sys : system := {|
  sys_stat := λ p,
    if bool_decide (p = bs "/images/mono.img") then Stat (file_on 0x301)
    else if bool_decide (p = bs "/config/config") then Stat (file_on 0x302)
    else if bool_decide (p = bs "/dev/hda1") then Stat (device 0x301)
    else if bool_decide (p = bs "/dev/hda2") then Stat (device 0x302)
    else if bool_decide (p = bs "/dev/.") then Stat (file_on 5)
    else NoStat ENOENT;
  sys_dev := Some [bs "."; bs "hda1"; bs "hda2"];
  sys_uuid := λ d, Some (if bool_decide (d = bs "/dev/hda1") then hda1_uuid else repeat Byte.x11 16);
  sys_mounts := Some (bs "proc /proc proc rw 0 0" ++ [newline] ++ bs "/dev/hda1 /images ext3 rw 0 0" ++ [newline])
|}.

Definition argv : list (list byte) := [bs "kexec"; bs "-l"; bs "--config=/config/config"; bs "/images/mono.img"].
Definition sg : stack_garbage := {| sg_images_dev := 7; sg_devbuf := device 0 |}.

Definition line : list byte :=
  bs "root=/dev/loop0 ro F=mono.img I=5a010203-0405-0607-0809-0a0b0c0d0eff C=11111111-1111-1111-1111-111111111111".

Definition next_boot : machine := {|
  mount_proc := true; proc_cmdline := Some (line ++ [newline]);
  dev_names := Some [bs "."; bs "hdc"; bs "hda1"];
  dev_is_blk := λ d, negb (bool_decide (d = bs "/dev/."));
  dev_uuid := λ d, if bool_decide (d = bs "/dev/hda1") then Some hda1_uuid else None;
  fs_mountable := λ _, true;
  fs_files := λ _ p, if bool_decide (p = bs "/images/mono.img") then Some image else None;
  can_read := λ _, true; can_write := λ _, true;
  loop_opens := true; loop_set_fd := true; loop_set_status := true
|}.

Lemma cmdline_handoff_witness :
  boot_command_line sys sg None (bs "/config/config") argv = Ret (Some line) ∧
  ∃ image f names images_dev images_id config_id mpoint path,
    first_existing sys (drop 1 argv) image f ∧ last_device sys f names images_dev ∧
    path_from mpoint image path ∧
    read_cmdline next_boot = Ret (bs "/images/" ++ path, uuid2str images_id, uuid2str config_id).
Proof.
  split; [by vm_compute | ].
  destruct (cmdline_handoff sys sg None (bs "/config/config") argv line next_boot)
    as (im & f & c & ns & d & cd & i & ci & mo & mp & path & H1 & _ & _ & H2 & _ & _ & _ & _ & _ & H3 & Hr).
  - by vm_compute.
  - by vm_compute.
  - done.
  - intros d u [= <-]. by destruct (bool_decide _).
  - done.
  - decided.
  - intros names [= <-]. repeat apply List.Forall_cons; try apply List.Forall_nil;
      (split; [decided | eexists; by vm_compute]).
  - exists im, f, ns, d, i, ci, mp, path. done.
Defined.

Lemma linuxrc_boots_witness :
  main next_boot = Ret (0, {| mounted := [bs "/dev/hda1"];
    loop0 := Some (loop_at (bs "/images/mono.img") 3020) |}).
Proof.
  destruct (linuxrc_boots next_boot None (bs "mono.img") hda1_uuid (bs "11111111-1111-1111-1111-111111111111")
    line [bs "."; bs "hdc"] (bs "hda1") [] 1 0 kernel ramdisk rootfs) as [Hm _];
    lazymatch goal with |- main _ = _ => exact Hm | _ => try reflexivity end.
  - constructor; [done | decided | decided | decided].
  - decided.
  - repeat apply List.Forall_cons; [ | | apply List.Forall_nil]; (split; [decided | ]).
    + intros Hb. discriminate Hb.
    + intros _. by vm_compute.
  - decided.
Defined.

Lemma linuxrc_outcome_witness :
  ∃ path contents, image_file next_boot {| mounted := [bs "/dev/hda1"];
    loop0 := Some (loop_at (bs "/images/mono.img") 3020) |} path = Some contents ∧ 16 ≤ Z.of_nat (length contents).
Proof.
  destruct (linuxrc_outcome next_boot 0 {| mounted := [bs "/dev/hda1"];
    loop0 := Some (loop_at (bs "/images/mono.img") 3020) |}) as (_ & p & c & Hi & Hl & _).
  - by vm_compute.
  - by exists p, c.
Defined.
End Witness.
