(* ===== verification/LoadersX86Spec.v ===== *)
(** What the other loaders of i386 do: network boot images are read to their end and
    never loaded, ELF executables start with their arguments, and a monoimage is known
    to its own loader only. *)

From Stdlib Require Import ZArith Lia String.
From stdpp Require Import base tactics list numbers gmap.
From coqutil Require Import Byte.
From S2P Require Import Prelude Words CMem CString Struct Uuid Segments SegmentsSpec Elf ElfSpec IpChecksum ElfBoot ElfExec ElfRel ElfRelSpec ElfRelLoad Kexec KexecX86 KexecX86Spec X86Linux X86LinuxSpec LoadersX86 Monoimage Multiboot BootSpec.

#[local] Open Scope Z_scope.
#[local] Existing Instance i386.
#[local] Existing Instance machine_i386.

(** ** Network boot images *)

Lemma land_low4 x : 0 ≤ Z.land x 0xf < 16.
Proof. change 0xf with (Z.ones 4). rewrite Z.land_ones by lia. apply Z.mod_pos_bound. lia. Qed.

Lemma next_seg_step seg_off seg :
  Z.land (sfield seg Segheader.length) 0xf = 4 → seg_off + 16 ≤ next_seg seg_off seg ≤ seg_off + 76.
Proof.
  intros Hl. unfold next_seg. rewrite Hl.
  pose proof (land_low4 (Z.shiftr (sfield seg Segheader.length) 4)). lia.
Qed.

(** The walk of the probe is over before its fuel. *)
Lemma probe_segments_ends buf : ∀ fuel seg_off,
  seg_off ≤ 512 < seg_off + 16 * Z.of_nat fuel → probe_segments fuel buf seg_off ≠ Spin.
Proof.
  induction fuel as [|fuel IH]; intros seg_off Hf; [lia | ]. cbn [probe_segments].
  apply bind_not_spin; [apply read_at_ends | ]. intros seg _. cbv zeta.
  case_if; [done | ]. case_if; [done | ]. case_if; [done | ]. case_if; [done | ]. case_if; [done | ].
  zbool. apply IH. pose proof (next_seg_step seg_off seg). lia.
Qed.

(** The result of an operation that may end the process but is defined. *)
Definition ret_or_die {A} (Q : A → Prop) (o : outcome A) : Prop :=
  match o with Ret a => Q a | Die _ => True | _ => False end.

Lemma ret_or_die_bind {A B} (R : A → Prop) (Q : B → Prop) (o : outcome A) (f : A → outcome B) :
  ret_or_die R o → (∀ a, R a → ret_or_die Q (f a)) → ret_or_die Q (o ≫= f).
Proof. destruct o; simpl; auto. Qed.

Lemma add_segment_ret_or_die lay segs buf bufsz base memsz :
  ret_or_die (λ _, True) (add_segment lay segs buf bufsz base memsz).
Proof. unfold add_segment. cbv zeta. by repeat case_if. Qed.

(** The loader finds its way through the segments that the probe accepted. *)
Lemma load_nbi_segments_probed lay buf kbuf : ∀ fuel seg_off file_off last0 last1 segs,
  probe_segments fuel buf seg_off = Ret 0 →
  ret_or_die (λ _, True) (load_nbi_segments fuel lay buf kbuf seg_off file_off last0 last1 segs).
Proof.
  induction fuel as [|fuel IH]; intros seg_off file_off last0 last1 segs; cbn [probe_segments load_nbi_segments];
    [done | ].
  destruct (read_at buf seg_off (sizeof Segheader.t)) as [seg | | | ]; try done. rewrite !bind_Ret_l. cbv zeta.
  case_if; [done | ]. case_if; [done | ]. destruct (Z.eqb_spec (Z.land (sfield seg Segheader.flags) NBI_SEG) NBI_SEG_NEGATIVE)
    as [ | Hneg]; [done | ]. case_if; [done | ]. intros Hp.
  set (kind := Z.land (sfield seg Segheader.flags) NBI_SEG) in *.
  assert (0 ≤ kind < 4) as Hk.
  { unfold kind, NBI_SEG. change 3 with (Z.ones 2). rewrite Z.land_ones by lia. apply Z.mod_pos_bound. lia. }
  apply (ret_or_die_bind (λ _, True)).
  { unfold NBI_SEG_ABSOLUTE, NBI_SEG_APPEND, NBI_SEG_PREPEND, NBI_SEG_NEGATIVE in *.
    case_if; [done | ]. case_if; [done | ]. case_if; [done | ]. zbool. lia. }
  intros loadaddr _. apply (ret_or_die_bind (λ _, True)); [apply add_segment_ret_or_die | ].
  intros segs' _. destruct (last_seg seg); [done | by apply IH].
Qed.

Lemma find_symbol_empty m name : elf_rel_find_symbol m empty_ehdr name = Ret None.
Proof. done. Qed.

(** the probe of network boot images ends on every file, and a file that it accepts
    is never loaded: kexec ends with a message, because this loader looks for the
    registers of purgatory without loading it; the only other result is -1 for an
    unknown option. *)
Theorem nbi_never_loads opts lay argv buf kbuf m :
  nbi_probe buf ≠ Spin ∧
  (nbi_probe buf = Ret 0 →
   ret_or_die (λ r, r = (-1, m, empty_info)) (nbi_load opts lay argv buf kbuf m empty_info)).
Proof.
  unfold nbi_probe. set (short := _ || _). destruct short eqn:Es; [by split | ]. subst short.
  assert (∀ hdr, first_seg (sfield hdr Imgheader.length) ≤ 120) as Hfirst.
  { intros hdr. unfold first_seg. pose proof (land_low4 (sfield hdr Imgheader.length)).
    change 0xf0 with (Z.shiftl 0xf 4). rewrite Z.shiftr_land, Z.shiftr_shiftl_l by lia.
    change (4 - 4) with 0. rewrite Z.shiftl_0_r.
    pose proof (land_low4 (Z.shiftr (sfield hdr Imgheader.length) 4)). lia. }
  assert (∀ hdr, Z.land (sfield hdr Imgheader.length) 0xf * 4 = 16 → 0 ≤ first_seg (sfield hdr Imgheader.length)) as Hpos.
  { intros hdr Hh. unfold first_seg. assert (0 ≤ Z.shiftr (Z.land (sfield hdr Imgheader.length) 0xf0) 4); [ | lia].
    apply Z.shiftr_nonneg, Z.land_nonneg. by right. }
  destruct (read_at buf 0 (sizeof Imgheader.t)) as [hdr | | | ] eqn:Eh.
  4: by destruct (read_at_ends buf 0 (sizeof Imgheader.t)).
  2-3: by split.
  rewrite bind_Ret_l. cbv zeta.
  case_if; [by split | ]. destruct (Z.eqb_spec (Z.land (sfield hdr Imgheader.length) 0xf * 4) (sizeof Imgheader.t)) as [Hs | ];
    cbn [negb]; [ | by split].
  case_if; [by split | ]. case_if; [by split | ]. case_if; [by split | ].
  pose proof (Hfirst hdr). change (sizeof Imgheader.t) with 16 in Hs. pose proof (Hpos hdr Hs). split.
  - apply probe_segments_ends. unfold nbi_fuel. lia.
  - intros Hp. unfold nbi_load. destruct (fold_options nbi_option opts tt); [ | done].
    rewrite Eh, bind_Ret_l. cbv zeta.
    apply (ret_or_die_bind (λ _, True)); [apply add_segment_ret_or_die | ]. intros segs _.
    apply (ret_or_die_bind (λ _, True)); [by apply load_nbi_segments_probed | ]. intros segs' _.
    unfold nbi_registers, elf_rel_get_symbol. cbn [rhdr empty_info]. rewrite find_symbol_empty.
    by case_if.
Qed.

(** ** Which loader takes an image *)

Section guess.
Context (purgatory version garbage : list byte) (ranges : option (list memory_range)).
Context (slurp_file slurp_decompress_file : list byte → outcome (list byte)).
Context (o : loader_options) (imagename : list byte) (sys : system) (sg : stack_garbage).
Context (ao : arch_options) (machine : option (list byte)).

Let table := x86_file_types purgatory version garbage ranges slurp_file slurp_decompress_file o imagename sys sg.
#[local] Instance arch : KexecArch := x86_arch table ao machine.
Let monoimage := monoimage_type purgatory garbage ranges sys sg (lo_monoimage o).

Lemma not_elf format runfrom kernel ramdisk rootfs :
  elf_x86_probe (makeimage format runfrom kernel ramdisk rootfs) = Ret (-1).
Proof.
  unfold elf_x86_probe, build_elf_exec_info, build_elf_info, build_mem_ehdr.
  rewrite (read_header_bytes _ _ _ _ rootfs 16) by lia.
  by destruct (Z.of_nat (length _) <? 16).
Qed.

Lemma not_other format runfrom kernel ramdisk rootfs :
  beoboot_probe (makeimage format runfrom kernel ramdisk rootfs) = Ret (-1) ∧
  nbi_probe (makeimage format runfrom kernel ramdisk rootfs) = Ret (-1).
Proof.
  split.
  - unfold beoboot_probe. change (sizeof Beoboot.t) with 16.
    rewrite (read_header_bytes _ _ _ _ rootfs 16) by lia. by destruct (Z.of_nat (length _) <? 16).
  - unfold nbi_probe. change (sizeof Imgheader.t) with 16.
    rewrite (read_header_bytes _ _ _ _ rootfs 16) by lia. by destruct (_ || _).
Qed.

(** an image written by makeimage.pl is taken by the loader of monoimages and by no
    other, with or without its name as --type, unless its kernel happens to have the
    marks of a boot sector where a bzImage has them; with the name of another loader
    nothing is loaded. *)
Theorem monoimage_chosen format runfrom kernel ramdisk rootfs :
  let image := makeimage format runfrom kernel ramdisk rootfs in
  bzImage_probe image < 0 →
  choose_type None image = Ret (Some monoimage) ∧
  choose_type (Some (bs "monoimage-x86")) image = Ret (Some monoimage) ∧
  ∀ name, nonul name → name ≠ bs "monoimage-x86" → choose_type (Some name) image = Ret None.
Proof.
  intros image Hbz. pose proof (not_elf format runfrom kernel ramdisk rootfs) as He.
  pose proof (not_other format runfrom kernel ramdisk rootfs) as [Hb Hn].
  pose proof (makeimage_probe format runfrom kernel ramdisk rootfs) as Hm. fold image in He, Hb, Hn, Hm.
  assert (multiboot_x86_probe image = Ret (-1, None)) as Hmb by (unfold multiboot_x86_probe; by rewrite He).
  assert (guess_type table image = Ret (Some monoimage)) as Hg.
  { unfold table, x86_file_types.
    assert (∀ tp types r, ft_probe tp image = Ret r → r < 0 → guess_type (tp :: types) image = guess_type types image) as Hskip.
    { intros tp types r Hp Hr. cbn [guess_type]. rewrite Hp, bind_Ret_l.
      destruct (Z.leb_spec 0 r); [lia | done]. }
    rewrite (Hskip _ _ (-1)); [ | cbn [ft_probe multiboot_type]; by rewrite Hmb | done].
    rewrite (Hskip _ _ (-1)), (Hskip _ _ (bzImage_probe image)), (Hskip _ _ (-1)), (Hskip _ _ (-1)) by done.
    cbn [guess_type ft_probe monoimage_type]. by rewrite Hm, bind_Ret_l. }
  assert (Forall (λ t, nonul (ft_name t) ∧
    (ft_name t ≠ bs "monoimage-x86" → ∃ r, ft_probe t image = Ret r ∧ r < 0)) table) as Hall.
  { unfold table, x86_file_types. repeat apply List.Forall_cons; try apply List.Forall_nil; (split; [decided | intros Hname]).
    - exists (-1). cbn [ft_probe multiboot_type]. by rewrite Hmb.
    - by exists (-1).
    - by exists (bzImage_probe image).
    - by exists (-1).
    - by exists (-1).
    - by destruct Hname. }
  split; [exact Hg | ]. split.
  - unfold choose_type. change (type_named (bs "monoimage-x86")) with (Some monoimage).
    cbn [ft_probe monoimage_type monoimage]. by rewrite Hm, bind_Ret_l.
  - intros name Hnul Hne. unfold choose_type. destruct (type_named name) as [t|] eqn:Et; [ | done].
    unfold type_named in Et. destruct (list_find _ _) as [[i t']|] eqn:Ef; [ | done].
    injection Et as ->. apply list_find_Some in Ef as (Hi & Hs & _).
    destruct (Forall_lookup_1 _ _ _ _ Hall Hi) as [Hnt Hrefuse].
    apply strcmp_0 in Hs; [ | done..]. destruct Hrefuse as (r & Hr & Hneg); [congruence | ].
    rewrite Hr, bind_Ret_l. assert ((r <? 0) = true) as -> by (by apply Z.ltb_lt).
    change file_types with table. by rewrite Hg, bind_Ret_l.
Qed.
End guess.

(** ** ELF executables *)

Section symbols.
Context `{Machine}.

(** A new object is none of those that hold the sections. *)
Lemma fresh_apart (m : mem) l shdrs :
  sections_in m shdrs → Forall (λ s, p_blk (sh_data s) ≠ p_blk (alloc m l).2) shdrs.
Proof.
  intros Hin. eapply List.Forall_impl; [ | exact Hin]. intros s [x Hx] Eb.
  rewrite Eb in Hx. cbn [alloc p_blk snd] in Hx. apply elem_of_dom_2 in Hx. by apply is_fresh in Hx.
Qed.

Lemma names_apart_blocks l b : Forall (λ s, p_blk (sh_data s) ≠ b) l → names_apart l b.
Proof.
  intros Hl s Hs _. rewrite List.Forall_forall in Hl. split; [by apply Hl, list_elem_of_In | ].
  intros t Ht. apply Hl, list_elem_of_In. by eapply list_elem_of_lookup_2.
Qed.

(** An object that holds no section has no part in the symbols. *)
Lemma symbol_at_other (m m' : mem) h shdrs name p n b :
  e_shdr h = Some shdrs → Forall (λ s, p_blk (sh_data s) ≠ b) shdrs → (∀ k, k ≠ b → m' !! k = m !! k) →
  symbol_at m' h name p n ↔ symbol_at m h name p n.
Proof.
  intros Hsh Hb Hm. unfold symbol_at, elf_rel_find_symbol. rewrite Hsh.
  rewrite (find_in_sections_same m m' h name shdrs b); [done | done | | done].
  by apply names_apart_blocks.
Qed.

Lemma symbol_at_alloc (m : mem) h l shdrs name p n :
  e_shdr h = Some shdrs → sections_in m shdrs →
  symbol_at (alloc m l).1 h name p n ↔ symbol_at m h name p n.
Proof.
  intros Hsh Hin. apply (symbol_at_other m _ h shdrs name p n (p_blk (alloc m l).2)); [done | by apply fresh_apart | ].
  intros k Hk. cbn [alloc fst snd p_blk] in *. by rewrite lookup_insert_ne by congruence.
Qed.

Lemma tables_apart_alloc (m : mem) h l shdrs names :
  e_shdr h = Some shdrs → sections_in m shdrs → tables_apart m h shdrs names →
  tables_apart (alloc m l).1 h shdrs names.
Proof. intros Hsh Hin Ht name p n Hn Hp. apply (Ht name p n Hn). by apply (symbol_at_alloc m h l shdrs). Qed.

(** Setting symbols writes to none but the objects of the sections. *)
Lemma set_symbols_blocks l : ∀ m h m' b,
  set_symbols m h l = Ret m' → Forall (λ s, p_blk (sh_data s) ≠ b) (default [] (e_shdr h)) → m' !! b = m !! b.
Proof.
  induction l as [|[name data] l IH]; intros m h m' b; cbn [set_symbols]; [by intros [= ->] | ].
  intros (m1 & H1 & Hs)%bind_Ret Hb. rewrite (IH _ _ _ _ Hs Hb). by eapply set_symbol_block.
Qed.

(** The symbols stay where they are. *)
Lemma set_symbols_find l : ∀ m h shdrs m',
  e_shdr h = Some shdrs → tables_apart m h shdrs (map fst l) → set_symbols m h l = Ret m' →
  ∀ other, elf_rel_find_symbol m' h other = elf_rel_find_symbol m h other.
Proof.
  induction l as [|[name data] l IH]; intros m h shdrs m' Hsh Ht Hs other; cbn [set_symbols] in Hs; [by inv_ret | ].
  apply bind_Ret in Hs as (m1 & H1 & Hs).
  destruct (elf_rel_set_symbol_effect m h shdrs name data m1 Hsh H1 (λ q n, Ht name q n (list_elem_of_here _ _)))
    as (_ & Hf & He).
  rewrite (IH m1 h shdrs m' Hsh); [apply Hf | | done].
  intros other' q k Hin Hq. apply (Ht other' q k); [by apply list_elem_of_further | by apply He].
Qed.

Lemma elf_rel_get_addr_find m m' h name :
  elf_rel_find_symbol m' h name = elf_rel_find_symbol m h name →
  elf_rel_get_addr m' h name = elf_rel_get_addr m h name.
Proof. intros E. unfold elf_rel_get_addr. by rewrite E. Qed.
End symbols.

(** The variables of purgatory that the ELF arguments set, and their sizes. *)
Definition argument_symbols : list (list byte * Z) :=
  [(bs "stack_arg32_1", 4); (bs "stack_arg32_2", 4); (bs "entry32_regs", 36)].

(** Purgatory, loaded in [m], has room for them. *)
Record purgatory_fits (m : mem) (h : mem_ehdr) (shdrs : list mem_shdr) (symbols : list (list byte * Z)) : Prop := {
  pf_shdr : e_shdr h = Some shdrs;
  pf_tables : tables_apart m h shdrs (map fst symbols);
  pf_disjoint : disjoint_symbols m h symbols
}.

(** What an ELF kernel finds: the first argument on its stack is the address of a
    segment with the sealed boot notes, the second is 0, and it starts at its entry point with
    the stack pointer at the second. *)
Record elf_handover (version cmd : list byte) (m : mem) (h : mem_ehdr)
    (segs : list kexec_segment) (entry : Z) (note_base : Z) : Prop := {
  eh_notes : ∃ p pad c,
    let notes := notes_block version cmd pad c in
    loaded_at segs p (Z.of_nat (length notes)) note_base ∧ load m p (Z.of_nat (length notes)) = Ret notes ∧
    compute_ip_checksum false notes = Ret 0;
  eh_arg1 : elf_rel_get_symbol m h (bs "stack_arg32_1") 4 = Ret (split host_be 4 note_base);
  eh_arg2 : elf_rel_get_symbol m h (bs "stack_arg32_2") 4 = Ret (split host_be 4 0);
  eh_regs : ∃ regs esp, elf_rel_get_symbol m h (bs "entry32_regs") 36 = Ret regs ∧
    elf_rel_get_addr m h (bs "stack_arg32_2") = Ret esp ∧
    sfield regs Regs32.eip = u32 entry ∧ sfield regs Regs32.esp = u32 esp
}.

Lemma elf_rel_get_symbol_length `{Arch} m h name n d :
  elf_rel_get_symbol m h name n = Ret d → Z.of_nat (length d) = n.
Proof.
  unfold elf_rel_get_symbol. intros ([sym|] & _ & Hr)%bind_Ret; [ | done]. case_if_in Hr; [done | ].
  apply bind_Ret in Hr as (s & _ & Hr). case_if_in Hr; [done | ]. by eapply load_length.
Qed.

(** The whole of a block. *)
Lemma load_whole (m : mem) p l : m !! p_blk p = Some l → p_off p = 0 → load m p (Z.of_nat (length l)) = Ret l.
Proof.
  intros Hl Hp. apply load_Ret. exists l. rewrite Hp, drop_0, Nat2Z.id, take_ge by lia. split_and!; (done || lia).
Qed.

(** The boot notes are in a new block, which is among the segments and sealed. *)
Lemma elf_boot_notes_placed `{Arch} lay m segs version cmd max_addr garbage note_base segs' m' :
  elf_boot_notes lay m segs version cmd max_addr (xmalloc garbage) = Ret (note_base, segs', m') →
  segs ⊆ segs' ∧ ∃ pad c, let notes := notes_block version cmd pad c in
    m' = (alloc m notes).1 ∧ loaded_at segs' (alloc m notes).2 (Z.of_nat (length notes)) note_base ∧
    compute_ip_checksum false notes = Ret 0.
Proof.
  unfold elf_boot_notes. cbv zeta. set (size := ul _).
  intros (notes & (Hl & pad & c & -> & Hs)%fill_boot_notes_sealed & Hn)%bind_Ret.
  set (notes := notes_block version cmd pad c) in *. rewrite (surjective_pairing (alloc m notes)) in Hn.
  apply bind_Ret in Hn as ([nb segs2] & [Hsub Hat]%add_buffer_in & Hn). apply Ret_inj in Hn. simplify_eq.
  split; [done | ]. exists pad, c. cbv zeta. fold notes. split; [done | ]. split; [ | done].
  assert (Z.of_nat (length notes) = size) as Hsize.
  { rewrite Hl. unfold xmalloc. rewrite length_resize. pose proof (ul_range (sizeof_boot_notes version + align (Z.of_nat (length cmd)) 4)).
    fold size in H0. lia. }
  rewrite Hsize. apply Hat. rewrite <- Hsize. unfold notes, notes_block. rewrite length_app, length_Bhdr. lia.
Qed.

Lemma elf_arguments_handover version garbage lay m h segs cmd entry max_addr m' segs' shdrs :
  elf_arguments version garbage lay m h segs cmd entry max_addr = Ret (m', segs') →
  sections_in m shdrs → purgatory_fits m h shdrs argument_symbols →
  segs ⊆ segs' ∧ ∃ note_base, elf_handover version cmd m' h segs' entry note_base.
Proof.
  unfold elf_arguments. intros ([[note_base segs1] m1] & Hn & Hr)%bind_Ret Hsec [Hsh Ht Hd].
  apply elf_boot_notes_placed in Hn as (Hsub & pad & c & -> & Hat & Hs). set (notes := notes_block version cmd pad c) in *.
  set (ma := (alloc m notes).1) in *. set (p := (alloc m notes).2) in *.
  apply bind_Ret in Hr as (m2 & H1 & Hr). apply bind_Ret in Hr as (m3 & H2 & Hr).
  apply bind_Ret in Hr as (regs & Hregs & Hr). cbv zeta in Hr.
  apply bind_Ret in Hr as (esp & Hesp & Hr). apply bind_Ret in Hr as (m4 & H4 & Hr). apply Ret_inj in Hr. simplify_eq.
  set (regs' := with_field _ Regs32.esp esp) in H4.
  pose proof (elf_rel_get_symbol_length _ _ _ _ _ Hregs) as Hlr. change (sizeof Regs32.t) with 36 in Hlr, Hregs.
  assert (Z.of_nat (length regs') = 36) as Hlr'.
  { unfold regs'. by rewrite length_with_field; rewrite length_with_field. }
  assert (Z.of_nat (length (with_field regs Regs32.eip entry)) = 36) as Hlr1 by (by rewrite length_with_field).
  set (l := [(bs "stack_arg32_1", split host_be 4 note_base); (bs "stack_arg32_2", split host_be 4 0);
             (bs "entry32_regs", regs')]).
  assert (set_symbols ma h l = Ret m') as Hset.
  { unfold l. cbn [set_symbols]. by rewrite H1, bind_Ret_l, H2, bind_Ret_l, H4, bind_Ret_l. }
  assert (sizes l = argument_symbols) as Hsz.
  { unfold l, sizes. cbn [map]. by rewrite !length_split, Hlr'. }
  assert (tables_apart ma h shdrs (map fst l)) as Hta by (by apply tables_apart_alloc).
  assert (disjoint_symbols ma h (sizes l)) as Hda.
  { rewrite Hsz. apply (disjoint_symbols_ext m); [ | done]. intros. by apply (symbol_at_alloc m h notes shdrs). }
  assert (∀ name data, (name, data) ∈ l → elf_rel_get_symbol m' h name (Z.of_nat (length data)) = Ret data) as Hget
    by (intros name data Hin; by eapply set_symbols_get).
  assert (m' !! p_blk p = Some notes) as Hp.
  { rewrite (set_symbols_blocks _ _ _ _ _ Hset) by (rewrite Hsh; by apply fresh_apart). apply alloc_lookup. }
  split; [done | ]. exists note_base. constructor.
  - exists p, pad, c. cbv zeta. split; [done | ]. split; [by apply load_whole | done].
  - pose proof (Hget (bs "stack_arg32_1") (split host_be 4 note_base) (list_elem_of_here _ _)) as Hg.
    by rewrite length_split in Hg.
  - pose proof (Hget (bs "stack_arg32_2") (split host_be 4 0)) as Hg. rewrite length_split in Hg.
    apply Hg, list_elem_of_further, list_elem_of_here.
  - exists regs', esp. split_and!.
    + rewrite <- Hlr'. apply Hget. apply list_elem_of_further, list_elem_of_further, list_elem_of_here.
    + rewrite <- Hesp. transitivity (elf_rel_get_addr ma h (bs "stack_arg32_2")); [ | symmetry];
        apply elf_rel_get_addr_find; [exact (set_symbols_find l ma h shdrs m' Hsh Hta Hset _) | ].
      eapply (set_symbols_find (take 2 l) ma h shdrs); [done | | ].
      * intros name q n Hin. apply Hta. revert Hin. unfold l. cbn [map take fst]. set_solver.
      * unfold l. cbn [take set_symbols]. by rewrite H1, bind_Ret_l, H2, bind_Ret_l.
    + unfold regs'. rewrite (field_with_field_ne _ Regs32.esp Regs32.eip) by done.
      by rewrite (field_with_field _ Regs32.eip).
    + unfold regs'. by rewrite (field_with_field _ Regs32.esp).
Qed.

Lemma elf_rel_build_load_sub `{Machine} lay garbage m file buf segs lo hi e m' h segs' entry :
  elf_rel_build_load lay garbage m file buf segs lo hi e = Ret (m', h, segs', entry) → segs ⊆ segs'.
Proof.
  unfold elf_rel_build_load. intros ([ehdr|] & _ & Hr)%bind_Ret; [ | done].
  apply bind_Ret in Hr as ([r|] & Hl & Hr); [ | done]. apply Ret_inj in Hr. subst r.
  unfold elf_rel_load in Hl. destruct (e_shdr ehdr) as [shdrs|]; [ | done].
  apply bind_Ret in Hl as ([[[m1 h1] segs1] en] & Hp & Hl). cbv zeta in Hl.
  apply bind_Ret in Hl as (m2 & _ & Hl). apply Ret_inj in Hl. simplify_eq.
  unfold place_object in Hp. destruct (foldl _ _ _) as [[[ba sa] bz] sz]. cbv zeta in Hp.
  set (r := resize _ _ _) in Hp. rewrite (surjective_pairing (alloc m r)) in Hp.
  apply bind_Ret in Hp as ([A segs2] & Hb & Hp). apply bind_Ret in Hp as ([m3 placed] & _ & Hp).
  apply add_buffer_sub in Hb. destruct (list_find _ _) as [[i s] | ]; apply Ret_inj in Hp; by simplify_eq.
Qed.

(** C12: when an ELF executable is loaded with ELF arguments, its segments and the sealed block
    of boot notes are among the segments, and provided that purgatory has room for the
    variables that the loader sets, the kernel's entry point, its stack pointer and
    the two words on its stack are what the boot protocol asks for.  A ramdisk is
    never loaded this way. *)
Theorem elf_x86_load_handover purgatory version garbage ranges opts slurp_file lay argv buf kbuf m info m' info' o cmd :
  elf_x86_fold opts {| ex_command_line := None; ex_ramdisk := None; ex_style := ARG_STYLE_ELF |} = Ret (Some o) →
  ex_style o = ARG_STYLE_ELF → ex_command_line o = Some cmd →
  elf_x86_load purgatory version garbage ranges opts slurp_file lay argv buf kbuf m info = Ret (0, m', info') →
  ex_ramdisk o = None ∧
  ∃ ehdr segs m1 segs1,
    elf_exec_build_load lay buf kbuf (segment info) = Ret (ehdr, segs) ∧
    elf_rel_build_load lay garbage (alloc m purgatory).1 purgatory (alloc m purgatory).2 segs 0 ULONG_MAX 1
      = Ret (m1, rhdr info', segs1, entry info') ∧
    ∀ shdrs, purgatory_fits m1 (rhdr info') shdrs argument_symbols →
      segs ⊆ segment info' ∧ ∃ note_base,
        elf_handover version (cmd ++ [Byte.x00]) m' (rhdr info') (segment info') (e_entry ehdr) note_base.
Proof.
  intros Ho Hs Hc. unfold elf_x86_load. rewrite Ho, bind_Ret_l, Hc, Hs. cbv zeta.
  intros ([ehdr segs] & Hexec & Hr)%bind_Ret. rewrite (surjective_pairing (alloc m purgatory)) in Hr.
  apply bind_Ret in Hr as ([[[m1 h] segs1] en] & Hrel & Hr).
  apply bind_Ret in Hr as ([m2 segs2] & Ha & Hr). apply Ret_inj in Hr. simplify_eq.
  apply bind_Ret in Ha as (r & Ha & Hd). destruct (ex_ramdisk o); [done | ]. apply Ret_inj in Hd. subst r.
  split; [done | ]. exists ehdr, segs, m1, segs1. split; [done | ]. split; [done | ].
  intros shdrs Hf. pose proof (elf_rel_build_load_sub _ _ _ _ _ _ _ _ _ _ _ _ _ Hrel) as Hsub.
  apply elf_rel_build_load_blocks in Hrel as [_ Hin]; [ | rewrite alloc_lookup; eauto].
  cbn [rhdr set_rhdr segment] in *. rewrite (pf_shdr _ _ _ _ Hf) in Hin.
  destruct (elf_arguments_handover _ _ _ _ _ _ _ _ _ _ _ _ Ha Hin Hf) as [Hs1 Hh].
  split; [by etrans | done].
Qed.

(** With Linux arguments the ramdisk is lost: its file is read and the zero page says that
    there is none. *)
Lemma linux_arguments_no_ramdisk garbage ranges slurp_file lay m h segs cmd ramdisk entry max_addr m' segs' :
  linux_arguments garbage ranges slurp_file lay m h segs cmd ramdisk entry max_addr = Ret (m', segs') →
  cmd ≠ [] → sections_in m (default [] (e_shdr h)) →
  ∃ hdr base, loaded_at segs' hdr (sizeof Faked.t) base ∧
    get_field m' hdr Param.initrd_start = Ret 0 ∧ get_field m' hdr Param.initrd_size = Ret 0.
Proof.
  unfold linux_arguments. cbv zeta. set (raw := xmalloc _ _). rewrite (surjective_pairing (alloc m raw)).
  intros ([base segs1] & Hb & Hr)%bind_Ret Hc Hsec. set (hdr := (alloc m raw).2) in *.
  apply add_buffer_in in Hb as [_ Hat].
  apply bind_Ret in Hr as (m1 & _ & Hr). apply bind_Ret in Hr as (m2 & _ & Hr).
  apply bind_Ret in Hr as (m3 & _ & Hr). apply bind_Ret in Hr as ([m4 segs4] & H4 & Hr).
  apply bind_Ret in Hr as (m5 & H5 & Hr). apply bind_Ret in Hr as (regs & _ & Hr).
  apply bind_Ret in Hr as (se & _ & Hr). apply bind_Ret in Hr as (m6 & H6 & Hr). apply Ret_inj in Hr. simplify_eq.
  assert (∃ v, get_field m3 hdr Param.protocol_version = Ret v) as [v Hv].
  { pose proof H4 as Hx. unfold setup_linux_bootloader_parameters in Hx.
    apply bind_Ret in Hx as (ma & Ha & Hx). apply bind_Ret in Hx as (v & Hv & _). exists v.
    by rewrite <- (set_fields_get_other _ _ _ Param.protocol_version _ Ha) by decided. }
  apply (bootloader_parameters_spec _ _ _ _ _ _ _ _ _ _ v) in H4 as (Hsub & _ & _ & [Hi1 Hi2]);
    [ | done | vm_compute; discriminate | done].
  apply system_parameters_spec in H5 as (_ & _ & Hf); [ | done].
  apply (set_symbol_block _ _ _ _ _ (p_blk hdr)) in H6; [ | by apply fresh_apart].
  exists hdr, base. split; [ | split].
  - apply (loaded_at_mono _ _ _ _ _ Hsub), Hat. done.
  - rewrite <- Hi1, <- Hf by decided. by apply get_field_same, load_same_block.
  - rewrite <- Hi2, <- Hf by decided. by apply get_field_same, load_same_block.
Qed.

(** --args-none ends the program on every architecture. *)
Lemma args_none_dies o : elf_x86_option o OPT_ARGS_NONE [] = Die "--args-none only works on arch i386".
Proof. done. Qed.

Module Witness.
Import X86LinuxSpec.Witness.

(** An image for the network: one segment of four bytes at 1 MiB, after the header. *)
Definition nbi : list byte :=
  NBI_MAGIC ++ le 4 4 ++ le 2 0 ++ le 2 0x1000 ++ le 4 0x100000
  ++ le 1 4 ++ le 1 0 ++ le 1 0 ++ le 1 4 ++ le 4 0x100000 ++ le 4 4 ++ le 4 4096
  ++ repeat Byte.x00 480 ++ bs "code".

Lemma nbi_never_loads_witness :
  nbi_probe nbi = Ret 0 ∧
  ret_or_die (λ r, r = (-1, m0, empty_info)) (nbi_load [] pc [] nbi (at_kernel 0) m0 empty_info).
Proof.
  split; [by vm_compute | ].
  apply (nbi_never_loads [] pc [] nbi (at_kernel 0) m0). by vm_compute.
Defined.

Definition no_options : loader_options := {|
  lo_multiboot := []; lo_elf := []; lo_bzImage := []; lo_beoboot := []; lo_nbi := []; lo_monoimage := [] |}.

Lemma monoimage_chosen_witness :
  let image := BootSpec.Witness.image in
  bzImage_probe image < 0 ∧
  ∃ t, choose_type (H0 := x86_arch (x86_file_types [] [] [] None (λ _, Ret []) (λ _, Ret []) no_options []
                                      BootSpec.Witness.sys BootSpec.Witness.sg) default_arch_options None)
         None image = Ret (Some t) ∧ ft_name t = bs "monoimage-x86".
Proof.
  split; [by vm_compute | ]. eexists. split; [ | shelve].
  apply (monoimage_chosen [] [] [] None (λ _, Ret []) (λ _, Ret []) no_options [] BootSpec.Witness.sys
    BootSpec.Witness.sg default_arch_options None 1 0 BootSpec.Witness.kernel BootSpec.Witness.ramdisk
    BootSpec.Witness.rootfs). by vm_compute.
  Unshelve. done.
Defined.

(** A static executable with one segment at 1 MiB, and a purgatory with the variables
    of the ELF arguments. *)
Definition program : list byte :=
  [Byte.x7f; Byte.x45; Byte.x4c; Byte.x46; Byte.x01; Byte.x01; Byte.x01] ++ repeat Byte.x00 9
  ++ le 2 2 ++ le 2 3 ++ le 4 1 ++ le 4 0x100004 ++ le 4 52 ++ le 4 0 ++ le 4 0
  ++ le 2 52 ++ le 2 32 ++ le 2 1 ++ le 2 0 ++ le 2 0 ++ le 2 0
  ++ le 4 1 ++ le 4 84 ++ le 4 0x100000 ++ le 4 0x100000 ++ le 4 16 ++ le 4 4096 ++ le 4 5 ++ le 4 4
  ++ repeat Byte.x90 16.

Definition argument_names : list byte :=
  [Byte.x00] ++ bs "stack_arg32_1" ++ [Byte.x00] ++ bs "stack_arg32_2" ++ [Byte.x00]
  ++ bs "entry32_regs" ++ [Byte.x00].

Definition elf_purgatory : list byte :=
  elf_header 220 5 ++ repeat Byte.x90 12 ++ repeat Byte.x00 48
  ++ symbol 0 0 0 0 ++ symbol 1 0 4 2 ++ symbol 15 4 4 2 ++ symbol 29 8 36 2
  ++ argument_names ++ repeat Byte.x00 2
  ++ section_header 0 0 0 0 0 0 0 0 ++ section_header 1 6 52 12 0 0 4 0
  ++ section_header 1 3 64 48 0 0 4 0 ++ section_header 2 0 112 64 4 1 4 16
  ++ section_header 3 0 176 42 0 0 1 0.

Definition m1 : mem := {[ 1%positive := program ]}.
Definition args : list (Z * list byte) := [(OPT_APPEND, bs "ro"); (OPT_ARGS_ELF, [])].

#[local] Abbreviation loaded :=
  (elf_x86_load elf_purgatory (bs "1.101") [] None args (λ _, Ret []) pc [] program (at_kernel 0) m1 empty_info).

Lemma elf_loaded_ok : match loaded with Ret (r, _, _) => r | _ => 1 end = 0.
Proof. vm_compute. reflexivity. Qed.

(** Purgatory, as it is loaded, fits. *)
Definition fits_check : bool :=
  match elf_exec_build_load pc program (at_kernel 0) [] with
  | Ret (_, segs) =>
      match elf_rel_build_load pc [] (alloc m1 elf_purgatory).1 elf_purgatory (alloc m1 elf_purgatory).2 segs
              0 ULONG_MAX 1 with
      | Ret (m, h, _, _) =>
          match e_shdr h with
          | Some shdrs =>
              tables_apartb m h shdrs (map fst argument_symbols) && disjointb (places m h argument_symbols)
          | None => false
          end
      | _ => false
      end
  | _ => false
  end.

Lemma fits_checked : fits_check = true.
Proof. vm_compute. reflexivity. Qed.

Lemma elf_x86_load_handover_witness :
  ∃ m' info' entry note_base,
    elf_handover (bs "1.101") (bs "ro" ++ [Byte.x00]) m' (rhdr info') (segment info') entry note_base.
Proof.
  pose proof elf_loaded_ok as Hok. destruct loaded as [[[r m'] info'] | | | ] eqn:E; [ | discriminate Hok..].
  subst r. exists m', info'.
  destruct (elf_x86_load_handover elf_purgatory (bs "1.101") [] None args (λ _, Ret []) pc [] program
    (at_kernel 0) m1 empty_info m' info'
    {| ex_command_line := Some (bs "ro"); ex_ramdisk := None; ex_style := ARG_STYLE_ELF |} (bs "ro"))
    as (_ & ehdr & segs & m & segs1 & Hexec & Hrel & Hfit); [done.. | exact E | ].
  pose proof fits_checked as Hf. unfold fits_check in Hf. change (segment empty_info) with (@nil kexec_segment) in Hexec.
  rewrite Hexec, Hrel in Hf. destruct (e_shdr (rhdr info')) as [shdrs | ] eqn:Es; [ | discriminate Hf].
  apply andb_prop in Hf as [Ht Hd]. destruct (Hfit shdrs) as [_ [nb Hh]]; [ | by exists (e_entry ehdr), nb].
  constructor; [done | by apply tables_apartb_spec | by apply disjointb_spec].
Defined.
End Witness.
