(* ===== verification/MultibootSpec.v ===== *)
(** What a multiboot kernel finds: the block of information at the address in its
    register, with its command line, the modules and the memory map. *)

From Stdlib Require Import ZArith Lia String.
From stdpp Require Import base tactics list numbers gmap relations.
From coqutil Require Import Byte.
From S2P Require Import Prelude Words CMem CString Struct Segments SegmentsSpec Elf ElfSpec ElfBoot ElfExec ElfRel ElfRelSpec ElfRelLoad Kexec KexecX86 KexecX86Spec X86Linux X86LinuxSpec LoadersX86 LoadersX86Spec Monoimage Multiboot.

#[local] Open Scope Z_scope.
#[local] Existing Instance i386.
#[local] Existing Instance machine_i386.

(** Integers that agree on the width have the same bytes. *)
Lemma split_mod be n x y :
  x `mod` 2 ^ (Z.of_nat n * 8) = y `mod` 2 ^ (Z.of_nat n * 8) → split be n x = split be n y.
Proof.
  intros E. rewrite <- (split_combine be (split be n x)), <- (split_combine be (split be n y)).
  by rewrite !length_split, !combine_split, E.
Qed.

(** ** The structure at the front of a block *)

Section front.
Context `{Struct F}.

Lemma sfield_front (hdr rest : list byte) (f : F) :
  Z.of_nat (length hdr) = sizeof F → sfield (hdr ++ rest) f = sfield hdr f.
Proof.
  intros Hl. unfold sfield. pose proof (f_inside f). f_equal.
  rewrite skipn_app. rewrite take_app_le; [done | ]. rewrite length_drop. lia.
Qed.

Lemma with_field_front (hdr rest : list byte) (f : F) v :
  Z.of_nat (length hdr) = sizeof F → with_field (hdr ++ rest) f v = with_field hdr f v ++ rest.
Proof.
  intros Hl. unfold with_field, overwrite. pose proof (f_inside f). rewrite length_split.
  rewrite take_app_le by lia. rewrite skipn_app.
  replace (Z.to_nat (f_off f) + f_size f - length hdr)%nat with 0%nat by lia.
  by rewrite drop_0, <- !app_assoc.
Qed.

(** [p->f += offset] in the front of a block. *)
Lemma add_at_front offset (hdr rest : list byte) (f : F) :
  Z.of_nat (length hdr) = sizeof F → f_size f = 4%nat →
  add_at offset (hdr ++ rest) (f_off f) = Ret (with_field hdr f (sfield hdr f + offset) ++ rest).
Proof.
  intros Hl Hs. pose proof (f_inside f) as Hi. unfold add_at.
  assert (read_at (hdr ++ rest) (f_off f) 4 = Ret (take 4 (drop (Z.to_nat (f_off f)) (hdr ++ rest)))) as ->.
  { apply read_at_Ret. rewrite length_app. split_and!; [lia.. | done]. }
  rewrite bind_Ret_l. rewrite <- with_field_front by done. apply write_at_Ret.
  rewrite length_split, length_app. split_and!; [lia.. | ].
  unfold with_field. rewrite Hs. f_equal. rewrite <- (sfield_front hdr rest) by done. unfold sfield. by rewrite Hs.
Qed.

Lemma with_fields_front fs rest : ∀ hdr,
  Z.of_nat (length hdr) = sizeof F → with_fields (hdr ++ rest) fs = with_fields hdr fs ++ rest.
Proof.
  induction fs as [|[f v] fs IH]; intros hdr Hl; [done | ]. unfold with_fields in *. cbn [foldl].
  rewrite with_field_front by done. apply IH. by rewrite length_with_field.
Qed.

Lemma fields_other fs : ∀ l g,
  Z.of_nat (length l) = sizeof F → g ∉ map fst fs → sfield (with_fields l fs) g = sfield l g.
Proof.
  induction fs as [|[f v] fs IH]; intros l g Hl Hg; [done | ]. unfold with_fields in *. cbn [foldl].
  cbn [map fst] in Hg. rewrite not_elem_of_cons in Hg. destruct Hg as [Hne Hg].
  rewrite IH; [by apply field_with_field_ne | by rewrite length_with_field | done].
Qed.

Lemma fields_set fs : ∀ l g v,
  Z.of_nat (length l) = sizeof F → NoDup (map fst fs) → (g, v) ∈ fs →
  sfield (with_fields l fs) g = v `mod` 2 ^ (Z.of_nat (f_size g) * 8).
Proof.
  induction fs as [|[f v'] fs IH]; intros l g v Hl; [by intros _ ?%not_elem_of_nil | ].
  cbn [map fst]. intros [Hf Hnd]%NoDup_cons [[= <- <-] | Hin]%elem_of_cons.
  - change (with_fields l ((g, v) :: fs)) with (with_fields (with_field l g v) fs).
    rewrite fields_other by (rewrite ?length_with_field; done). by apply field_with_field.
  - change (with_fields l ((f, v') :: fs)) with (with_fields (with_field l f v') fs).
    apply IH; [by rewrite length_with_field | done | done].
Qed.
End front.

(** ** Growing memory *)

(** [m'] is [m] with more objects. *)
Definition allocated : relation mem := rtc (λ m m', ∃ l, m' = (alloc m l).1).

Lemma allocated_alloc m m' l : allocated m m' → allocated m (alloc m' l).1.
Proof. intros Hm. eapply rtc_r; [exact Hm | by exists l]. Qed.

Lemma allocated_lookup m m' b l : allocated m m' → m !! b = Some l → m' !! b = Some l.
Proof.
  intros Hm. induction Hm as [ | m m1 m' [d ->] _ IH]; [done | ]. intros Hb. by apply IH, alloc_fresh.
Qed.

Lemma allocated_sections m m' shdrs : allocated m m' → sections_in m shdrs → sections_in m' shdrs.
Proof.
  intros Hm Hin. apply (sections_in_grows m); [done | ]. intros b [l Hl]. exists l. by apply (allocated_lookup m).
Qed.

Lemma symbol_at_allocated m m' h shdrs name p n :
  allocated m m' → e_shdr h = Some shdrs → sections_in m shdrs →
  symbol_at m' h name p n ↔ symbol_at m h name p n.
Proof.
  intros Hm Hsh. induction Hm as [ | m m1 m' [d ->] _ IH]; [done | ]. intros Hin.
  rewrite IH by (apply (allocated_sections m); [by apply rtc_once; exists d | done]).
  by apply (symbol_at_alloc m h d shdrs).
Qed.

(** ** The modules *)

Section multiboot.
Context (purgatory version garbage : list byte) (ranges : option (list memory_range)).
Context (opts : list (Z * list byte)) (slurp_decompress_file : list byte → outcome (list byte)).

(** A module: its argument, and where its contents will be. *)
Record placed := { pm_arg : list byte; pm_start : Z; pm_contents : list byte }.

Definition pm_end (x : placed) : Z := pm_start x + Z.of_nat (length (pm_contents x)).

(** A string with its end. *)
Definition cstr (s : list byte) : list byte := s ++ [Byte.x00].

Definition descriptor (clp : Z) (x : placed) : list byte :=
  split false 4 (pm_start x) ++ split false 4 (pm_end x) ++ split false 4 clp ++ split false 4 0.

Fixpoint descriptors (clp : Z) (l : list placed) : list byte :=
  match l with
  | [] => []
  | x :: l => descriptor clp x ++ descriptors (clp + Z.of_nat (length (cstr (pm_arg x)))) l
  end.

Definition cmdlines (l : list placed) : list byte := concat (map (λ x, cstr (pm_arg x)) l).

Lemma length_descriptor clp x : length (descriptor clp x) = 16%nat.
Proof. unfold descriptor. by rewrite !length_app, !length_split. Qed.

Lemma length_descriptors l : ∀ clp, length (descriptors clp l) = (16 * length l)%nat.
Proof.
  induction l as [|x l IH]; intros clp; [done | ]. cbn [descriptors length]. rewrite length_app, length_descriptor, IH. lia.
Qed.

Lemma length_cstr s : length (cstr s) = (length s + 1)%nat.
Proof. unfold cstr. by rewrite length_app. Qed.

(** The contents of a module are in a segment, out of the way of purgatory. *)
Definition module_loaded (shdrs : list mem_shdr) (m : mem) (segs : list kexec_segment) (x : placed) : Prop :=
  slurp_decompress_file (mod_filename (pm_arg x)) = Ret (pm_contents x) ∧
  ∃ p, m !! p_blk p = Some (pm_contents x) ∧ p_off p = 0 ∧ Forall (λ s, p_blk (sh_data s) ≠ p_blk p) shdrs ∧
    (pm_contents x ≠ [] → loaded_at segs p (Z.of_nat (length (pm_contents x))) (pm_start x)).

Lemma module_loaded_mono shdrs m m' segs segs' x :
  (∀ b l, m !! b = Some l → Forall (λ s, p_blk (sh_data s) ≠ b) shdrs → m' !! b = Some l) → segs ⊆ segs' →
  module_loaded shdrs m segs x → module_loaded shdrs m' segs' x.
Proof.
  intros Hm Hs (Hc & p & Hb & Hp & Hf & Hl). split; [done | ]. exists p. split; [by apply Hm | ].
  split; [done | ]. split; [done | ]. intros Hne. by eapply loaded_at_mono; [exact Hs | apply Hl].
Qed.

Lemma cut_front {A} (l : list A) n : (n ≤ length l)%nat → ∃ a b, l = a ++ b ∧ length a = n.
Proof. intros Hn. exists (take n l), (drop n l). split; [by rewrite take_drop | rewrite length_take; lia]. Qed.

(** What the loop over the modules writes: [D] and [lines] are the descriptors and
    the command lines so far, [ds] and [ls] the room for the others. *)
Lemma load_modules_spec lay shdrs : ∀ modules m segs hdr pre D ds lines ls modp mod_clp m' segs' mbi',
  load_modules slurp_decompress_file lay m segs modules (hdr ++ pre ++ D ++ ds ++ lines ++ ls) modp mod_clp
    = Ret (m', segs', mbi') →
  length hdr = 88%nat → length ds = (16 * length modules)%nat →
  length ls = list_sum (map (λ o, length o + 1)%nat modules) →
  modp = Z.of_nat (length (hdr ++ pre ++ D)) →
  mod_clp = Z.of_nat (length (hdr ++ pre ++ D ++ ds ++ lines)) →
  sections_in m shdrs →
  ∃ hdr' l, mbi' = hdr' ++ pre ++ (D ++ descriptors mod_clp l) ++ lines ++ cmdlines l ∧
    length hdr' = 88%nat ∧ map pm_arg l = modules ∧
    sfield hdr' Mbinfo.mods_count = u32 (sfield hdr Mbinfo.mods_count + Z.of_nat (length modules)) ∧
    (∀ f, f ≠ Mbinfo.mods_count → sfield hdr' f = sfield hdr f) ∧
    allocated m m' ∧ segs ⊆ segs' ∧ Forall (module_loaded shdrs m' segs') l.
Proof.
  induction modules as [|optarg modules IH];
    intros m segs hdr pre D ds lines ls modp mod_clp m' segs' mbi'; cbn [load_modules].
  { intros Hr Hh Hd Hl _ _ _. apply Ret_inj in Hr.
    injection Hr as <- <- <-. exists hdr, [].
    destruct ds, ls; [ | done..]. cbn [descriptors cmdlines map concat app]. rewrite !app_nil_r.
    split; [done | ]. split; [done | ]. split; [done | ]. split; [ | split; [done | split; [apply rtc_refl | done]]].
    rewrite Z.add_0_r. unfold u32. symmetry. apply Z.mod_small. exact (sfield_range hdr Mbinfo.mods_count). }
  intros (buf & Hbuf & Hr)%bind_Ret. cbv zeta. intros Hh Hd Hl Hmodp Hclp Hsec. cbn [map list_sum length] in Hd, Hl.
  rewrite (surjective_pairing (alloc m buf)) in Hr. set (ma := (alloc m buf).1) in *. set (p := (alloc m buf).2) in *.
  apply bind_Ret in Hr as ([start segs1] & Hb & Hr). apply add_buffer_in in Hb as [Hsub Hat].
  destruct (cut_front ls (length (optarg ++ [Byte.x00]))) as (l1 & ls2 & -> & Hl1).
  { rewrite length_app. simpl. simpl in Hl. lia. }
  destruct (cut_front ds 16) as (d1 & ds2 & -> & Hd1); [lia | ].
  rewrite length_app in Hd, Hl. pose proof (length_cstr optarg) as Hcs. unfold cstr in Hcs.
  replace (hdr ++ pre ++ D ++ (d1 ++ ds2) ++ lines ++ l1 ++ ls2)
    with ((hdr ++ pre ++ D ++ (d1 ++ ds2) ++ lines) ++ l1 ++ ls2) in Hr by (by rewrite <- !app_assoc).
  rewrite write_at_app in Hr; [ | exact Hclp | by rewrite Hl1]. rewrite bind_Ret_l in Hr.
  set (x := {| pm_arg := optarg; pm_start := start; pm_contents := buf |}).
  change (split false 4 start ++ _) with (descriptor mod_clp x) in Hr.
  replace ((hdr ++ pre ++ D ++ (d1 ++ ds2) ++ lines) ++ (optarg ++ [Byte.x00]) ++ ls2)
    with ((hdr ++ pre ++ D) ++ d1 ++ (ds2 ++ lines ++ (optarg ++ [Byte.x00]) ++ ls2)) in Hr
    by (by rewrite <- !app_assoc).
  rewrite write_at_app in Hr; [ | exact Hmodp | by rewrite length_descriptor]. rewrite bind_Ret_l in Hr.
  rewrite <- (app_assoc hdr) in Hr. rewrite (sfield_front hdr), (with_field_front hdr) in Hr by (by rewrite Hh).
  set (hdr1 := with_field hdr Mbinfo.mods_count _) in Hr.
  assert (Z.of_nat (length hdr) = sizeof Mbinfo.t) as Hh' by (by rewrite Hh).
  assert (length hdr1 = 88%nat) as Hh1 by (unfold hdr1; by rewrite length_with_field).
  replace (hdr1 ++ (pre ++ D) ++ descriptor mod_clp x ++ ds2 ++ lines ++ (optarg ++ [Byte.x00]) ++ ls2)
    with (hdr1 ++ pre ++ (D ++ descriptor mod_clp x) ++ ds2 ++ (lines ++ cstr optarg) ++ ls2) in Hr
    by (unfold cstr; by rewrite <- !app_assoc).
  apply IH in Hr as (hdr' & l & -> & Hh2 & Ha & Hc & Hf & Hm & Hs & Hall);
    [ | done | lia | simpl in Hl; lia | | | by apply (allocated_sections m); [apply allocated_alloc, rtc_refl | ] ].
  2: { rewrite !length_app, length_descriptor. rewrite !length_app in Hmodp. change (sizeof Modlist.t) with 16. lia. }
  2: { rewrite !length_app, length_descriptor, length_cstr. rewrite !length_app in Hclp. lia. }
  exists hdr', (x :: l). split_and!; [ | done | | | | | | ].
  - cbn [descriptors cmdlines map concat pm_arg x]. 
    rewrite length_cstr, Nat2Z.inj_add, Z.add_assoc. by rewrite <- !app_assoc.
  - by rewrite <- Ha.
  - rewrite Hc. unfold hdr1. rewrite (field_with_field hdr) by done. cbn [length]. unfold u32. change (Z.of_nat (f_size Mbinfo.mods_count) * 8) with 32.
    rewrite Zplus_mod_idemp_l. f_equal. lia.
  - intros f Hne. rewrite Hf by done. by apply field_with_field_ne.
  - eapply rtc_l; [by exists buf | done].
  - by etrans.
  - constructor; [ | done]. split; [done | ]. exists p. cbn [pm_contents pm_start x]. split_and!.
    + apply (allocated_lookup ma); [done | apply alloc_lookup].
    + done.
    + by apply fresh_apart.
    + intros Hne. eapply loaded_at_mono; [exact Hs | ]. apply Hat. destruct buf; [done | simpl; lia].
Qed.

(** ** The relocation *)

Lemma relocate_modules_spec offset l : ∀ A B clp modp,
  modp = Z.of_nat (length A) →
  relocate_modules (length l) offset (A ++ descriptors clp l ++ B) modp
    = Ret (A ++ descriptors (clp + offset) l ++ B).
Proof.
  induction l as [|x l IH]; intros A B clp modp ->; [done | ]. cbn [length relocate_modules descriptors].
  set (n := Z.of_nat (length (cstr (pm_arg x)))). unfold descriptor at 1. unfold add_at.
  set (front := A ++ split false 4 (pm_start x) ++ split false 4 (pm_end x)).
  set (back := split false 4 0 ++ descriptors (clp + n) l ++ B).
  replace (A ++ ((split false 4 (pm_start x) ++ split false 4 (pm_end x) ++ split false 4 clp ++ split false 4 0)
      ++ descriptors (clp + n) l) ++ B) with (front ++ split false 4 clp ++ back)
    by (unfold front, back; by rewrite <- !app_assoc).
  assert (Z.of_nat (length A) + f_off Modlist.cmdline = Z.of_nat (length front)) as ->.
  { unfold front. rewrite !length_app, !length_split. simpl. lia. }
  rewrite read_at_app, bind_Ret_l by (by rewrite ?length_split).
  rewrite write_at_app, bind_Ret_l by (by rewrite ?length_split).
  assert (split false 4 (combine false (split false 4 clp) + offset) = split false 4 (clp + offset)) as ->.
  { rewrite combine_split. apply split_mod. change (Z.of_nat 4 * 8) with 32. by rewrite Zplus_mod_idemp_l. }
  replace (front ++ split false 4 (clp + offset) ++ back)
    with ((A ++ descriptor (clp + offset) x) ++ descriptors (clp + n) l ++ B)
    by (unfold front, back, descriptor; by rewrite <- !app_assoc).
  rewrite IH by (rewrite length_app, length_descriptor; change (sizeof Modlist.t) with 16; lia).
  rewrite <- !app_assoc. do 3 f_equal. f_equal. f_equal. lia.
Qed.

(** The fields that the relocation changes, and by what. *)
Lemma relocate_mbi_spec base hdr pre l clp rest mbi' :
  length hdr = 88%nat → sfield hdr Mbinfo.mods_count = Z.of_nat (length l) →
  (l ≠ [] → sfield hdr Mbinfo.mods_addr = Z.of_nat (length (hdr ++ pre))) →
  relocate_mbi base (hdr ++ pre ++ descriptors clp l ++ rest) = Ret mbi' →
  ∃ hdr', mbi' = hdr' ++ pre ++ descriptors (clp + base) l ++ rest ∧ length hdr' = 88%nat ∧
    (∀ f, f ∈ [Mbinfo.mods_addr; Mbinfo.cmdline; Mbinfo.boot_loader_name] →
      sfield hdr' f = u32 (sfield hdr f + base)) ∧
    (∀ f, f ∉ [Mbinfo.mods_addr; Mbinfo.cmdline; Mbinfo.boot_loader_name] → sfield hdr' f = sfield hdr f).
Proof.
  intros Hh Hc Ha. assert (Z.of_nat (length hdr) = sizeof Mbinfo.t) as Hl by (by rewrite Hh).
  unfold relocate_mbi. rewrite !(sfield_front hdr), Hc, Nat2Z.id by done.
  assert (relocate_modules (length l) base (hdr ++ pre ++ descriptors clp l ++ rest) (sfield hdr Mbinfo.mods_addr)
    = Ret (hdr ++ pre ++ descriptors (clp + base) l ++ rest)) as ->.
  { destruct (decide (l = [])) as [-> | Hne]; [done | ]. rewrite Ha by done.
    rewrite (app_assoc hdr pre), relocate_modules_spec by done. by rewrite <- app_assoc. }
  rewrite bind_Ret_l, (add_at_front base hdr), bind_Ret_l by done.
  set (h1 := with_field hdr Mbinfo.mods_addr _).
  assert (length h1 = 88%nat) as Hh1 by (unfold h1; by rewrite length_with_field).
  rewrite (add_at_front base h1), bind_Ret_l by (by rewrite ?Hh1).
  set (h2 := with_field h1 Mbinfo.cmdline _).
  assert (length h2 = 88%nat) as Hh2 by (unfold h2; rewrite length_with_field; [done | by rewrite Hh1]).
  rewrite (add_at_front base h2) by (by rewrite ?Hh2). intros Hr. apply Ret_inj in Hr as <-.
  set (h3 := with_field h2 Mbinfo.boot_loader_name _).
  assert (length h3 = 88%nat) as Hh3 by (unfold h3; rewrite length_with_field; [done | by rewrite Hh2]).
  assert (Z.of_nat (length h1) = sizeof Mbinfo.t) as Hl1 by (by rewrite Hh1).
  assert (Z.of_nat (length h2) = sizeof Mbinfo.t) as Hl2 by (by rewrite Hh2).
  assert (∀ g, g ≠ Mbinfo.mods_addr → sfield h1 g = sfield hdr g) as Hn1
    by (intros g Hg; by apply field_with_field_ne).
  assert (∀ g, g ≠ Mbinfo.cmdline → sfield h2 g = sfield h1 g) as Hn2 by (intros g Hg; by apply field_with_field_ne).
  assert (∀ g, g ≠ Mbinfo.boot_loader_name → sfield h3 g = sfield h2 g) as Hn3
    by (intros g Hg; by apply field_with_field_ne).
  assert (sfield h1 Mbinfo.mods_addr = u32 (sfield hdr Mbinfo.mods_addr + base)) as He1
    by (by exact (field_with_field hdr _ _ ltac:(done))).
  assert (sfield h2 Mbinfo.cmdline = u32 (sfield h1 Mbinfo.cmdline + base)) as He2 by (by exact (field_with_field h1 _ _ ltac:(done))).
  assert (sfield h3 Mbinfo.boot_loader_name = u32 (sfield h2 Mbinfo.boot_loader_name + base)) as He3
    by (by exact (field_with_field h2 _ _ ltac:(done))).
  assert (∀ f, sfield h3 f = if bool_decide (f ∈ [Mbinfo.mods_addr; Mbinfo.cmdline; Mbinfo.boot_loader_name])
                             then u32 (sfield hdr f + base) else sfield hdr f) as Hf.
  { intros f. case_bool_decide as Hin; rewrite !elem_of_cons, elem_of_nil in Hin.
    - destruct Hin as [-> | [-> | [-> | []]]].
      + by rewrite Hn3, Hn2.
      + by rewrite Hn3, He2, Hn1.
      + by rewrite He3, Hn2, Hn1.
    - rewrite Hn3, Hn2, Hn1 by (intros ->; tauto). done. }
  exists h3. split; [done | ]. split; [done | ].
  split; intros f Hin; rewrite Hf; case_bool_decide; done.
Qed.

(** ** The beginning of the block *)

(** The header that begins the block. *)
Definition first_header (command_line_len : Z) : list byte :=
  foldl (λ l '(f, v), with_field l f v) (replicate 88 Byte.x00)
    [(Mbinfo.flags, Z.lor MB_INFO_CMDLINE MB_INFO_BOOT_LOADER_NAME); (Mbinfo.cmdline, 88);
     (Mbinfo.boot_loader_name, 88 + command_line_len)].

Lemma first_header_fields n f : length (first_header n) = 88%nat ∧
  sfield (first_header n) f =
    match f with
    | Mbinfo.flags => 0x204 | Mbinfo.cmdline => 88 | Mbinfo.boot_loader_name => u32 (88 + n)
    | _ => 0
    end.
Proof.
  unfold first_header. cbn [foldl]. set (h := with_field _ Mbinfo.cmdline _).
  assert (length h = 88%nat) as Hh by (by vm_compute). split; [rewrite length_with_field; by rewrite ?Hh | ].
  destruct (decide (f = Mbinfo.boot_loader_name)) as [-> | Hne].
  - by rewrite (field_with_field h) by (by rewrite Hh).
  - rewrite (field_with_field_ne h) by (by rewrite ?Hh). clear Hh. destruct f; lazymatch goal with |- _ = u32 _ => by destruct Hne | |- _ => vm_compute; reflexivity end.
Qed.

Lemma land_notw_small x y : 0 ≤ Z.land x (notw 32 y) < 2 ^ 32.
Proof.
  unfold notw. rewrite !Z.land_assoc, Z.land_ones by lia. apply Z.mod_pos_bound. lia.
Qed.

Lemma initial_mbi_spec imagename command_line mbi :
  initial_mbi version garbage imagename command_line = Ret mbi →
  ∃ pad, mbi = first_header (Z.of_nat (length (cstr (imagename ++ bs " " ++ command_line))))
               ++ cstr (imagename ++ bs " " ++ command_line) ++ cstr (bootloader version) ++ pad ∧
    Z.of_nat (length mbi) < 2 ^ 32.
Proof.
  unfold initial_mbi. cbv zeta. set (bytes := Z.land _ _). set (raw := xmalloc garbage bytes).
  set (line := cstr (imagename ++ bs " " ++ command_line)). set (n := Z.of_nat (length command_line) + _ + 2).
  assert (n = Z.of_nat (length line)) as En.
  { unfold line, n. rewrite length_cstr, !length_app. simpl. lia. }
  change (bootloader version ++ [Byte.x00]) with (cstr (bootloader version)).
  assert (Z.of_nat (length raw) < 2 ^ 32) as Hraw.
  { unfold raw, xmalloc. rewrite length_resize. assert (0 ≤ bytes < 2 ^ 32) by apply land_notw_small. lia. }
  clearbody raw. clear bytes. change (sizeof Mbinfo.t) with 88.
  change (imagename ++ bs " " ++ command_line ++ [Byte.x00]) with (imagename ++ bs " " ++ cstr command_line).
  replace (imagename ++ bs " " ++ cstr command_line) with line by (unfold line, cstr; by rewrite <- !app_assoc).
  rewrite En. intros (b1 & H1 & Hr)%bind_Ret.
  apply bind_Ret in Hr as (b2 & H2 & Hr). apply bind_Ret in Hr as (b3 & H3 & Hr). apply Ret_inj in Hr.
  pose proof (proj1 (write_at_Ret _ _ _ _) H1) as (_ & L1 & E1). rewrite length_replicate in L1.
  assert (length b1 = length raw) as Eb1 by (rewrite E1; apply length_overwrite; rewrite length_replicate; lia).
  pose proof (proj1 (write_at_Ret _ _ _ _) H2) as (G2 & L2 & E2).
  assert (length b2 = length b1) as Eb2 by (rewrite E2; apply length_overwrite; lia).
  pose proof (proj1 (write_at_Ret _ _ _ _) H3) as (G3 & L3 & E3). clear E1 E2 E3.
  destruct (cut_front raw 88) as (r0 & r1 & -> & Hr0); [lia | ]. rewrite length_app in *.
  destruct (cut_front r1 (length line)) as (r2 & r3 & -> & Hr2); [lia | ]. rewrite length_app in *.
  destruct (cut_front r3 (length (cstr (bootloader version)))) as (r4 & pad & -> & Hr4); [lia | ].
  change (Z.to_nat 88) with 88%nat in H1. rewrite write_at_front in H1 by (by rewrite length_replicate).
  apply Ret_inj in H1 as <-. rewrite write_at_app in H2; [ | by rewrite length_replicate | done].
  apply Ret_inj in H2 as <-. rewrite app_assoc, write_at_app in H3;
    [ | rewrite length_app, length_replicate; lia | done].
  apply Ret_inj in H3 as <-. rewrite <- app_assoc in Hr.
  rewrite (with_field_front (replicate 88 Byte.x00)) in Hr by done.
  rewrite (with_field_front (with_field _ _ _)) in Hr by done.
  rewrite (with_field_front (with_field _ _ _)) in Hr by done.
  exists pad. split; [by rewrite <- Hr | ].
  rewrite <- Hr. change (with_field _ _ _) with (first_header (Z.of_nat (length line))).
  destruct (first_header_fields (Z.of_nat (length line)) Mbinfo.flags) as [Hf _].
  rewrite !length_app in *. lia.
Qed.

(** ** The memory map *)

(** The end of the memory at 0 and the memory from 1 MiB on, as the ranges have them. *)
Definition lower_memory (rs : list memory_range) : Z :=
  foldr Z.max 0 (map mr_end (filter (λ r, mr_type r = RANGE_RAM ∧ mr_start r = 0) rs)).

Definition upper_memory (rs : list memory_range) : Z :=
  foldr Z.max 0 (map (λ r, mr_end r - 0x100000)
                   (filter (λ r, mr_type r = RANGE_RAM ∧ mr_start r ≤ 0x100000) rs)).

Lemma mem_sizes_spec rs : ∀ a b,
  Forall (λ r, 0 ≤ mr_end r < 2 ^ 64) rs → 0 ≤ a → 0 ≤ b < 2 ^ 64 - 0x100000 →
  foldl mem_sizes (a, b) rs = (Z.max a (lower_memory rs), Z.max b (upper_memory rs)).
Proof.
  unfold lower_memory, upper_memory.
  induction rs as [|r rs IH]; intros a b Hr Ha Hb; [cbn; f_equal; lia | ].
  apply Forall_cons_1 in Hr as [Hr Hrs]. cbn [foldl]. unfold mem_sizes at 2.
  destruct (Z.eqb_spec (mr_type r) RANGE_RAM) as [Hty | Hty].
  2: { rewrite IH, !filter_cons_False by (done || tauto). done. }
  assert (u64 (b + 0x100000) = b + 0x100000) as -> by (unfold u64; apply Z.mod_small; lia).
  set (a' := if (_ && (a <? _)) then _ else _). set (b' := if (_ : bool) then _ else b).
  rewrite IH by (done || unfold a', b'; repeat case_if; zbool; lia). f_equal.
  - destruct (decide (mr_start r = 0)) as [Hs | Hs].
    + rewrite filter_cons_True by done. cbn [map foldr]. unfold a'. rewrite Hs. cbn [Z.eqb andb].
      case_if; zbool; lia.
    + rewrite filter_cons_False by tauto. unfold a'. case_if; zbool; lia.
  - destruct (decide (mr_start r ≤ 0x100000)) as [Hs | Hs].
    + rewrite filter_cons_True by done. cbn [map foldr]. unfold b'. case_if; zbool; lia.
    + rewrite filter_cons_False by tauto. unfold b'. case_if; zbool; lia.
Qed.

(** The map is in a segment, and the header gives it and the sizes in KiB. *)
Definition map_given (shdrs : list mem_shdr) (m : mem) (segs : list kexec_segment)
    (mbi : list byte) (rs : list memory_range) : Prop :=
  let mmap := concat (map mmap_entry rs) in
  let size := Z.of_nat (length mmap) in
  sfield mbi Mbinfo.mem_lower = kib (lower_memory rs) ∧ sfield mbi Mbinfo.mem_upper = kib (upper_memory rs) ∧
  sfield mbi Mbinfo.mmap_length = u32 size ∧
  ∃ q addr, sfield mbi Mbinfo.mmap_addr = u32 addr ∧ loaded_at segs q size addr ∧
    m !! p_blk q = Some mmap ∧ p_off q = 0 ∧ Forall (λ s, p_blk (sh_data s) ≠ p_blk q) shdrs.

Lemma length_mmap rs : length (concat (map mmap_entry rs)) = (24 * length rs)%nat.
Proof.
  induction rs as [|r rs IH]; [done | ]. cbn [map concat length]. rewrite length_app, IH.
  unfold mmap_entry. cbv zeta. rewrite !length_app, !length_split. lia.
Qed.

Lemma kib_small x : 0 ≤ x → u32 (kib x) = kib x.
Proof. intros. unfold u32, kib. apply Z.mod_small. pose proof (Z.shiftr_nonneg x 10). lia. Qed.

Lemma max_nonneg l : 0 ≤ foldr Z.max 0 l.
Proof. induction l; simpl; lia. Qed.

(** The flags and the pointers into the block. *)
Definition pointers : list Mbinfo.t :=
  [Mbinfo.mods_count; Mbinfo.mods_addr; Mbinfo.cmdline; Mbinfo.boot_loader_name].

Lemma memory_info_spec lay m segs rs mbh hdr rest m' segs' mbi' shdrs :
  memory_info lay m segs rs mbh (hdr ++ rest) = Ret (m', segs', mbi') →
  length hdr = 88%nat → sections_in m shdrs → rs ≠ [] → Forall (λ r, 0 ≤ mr_end r < 2 ^ 64) rs →
  let asked := negb (Z.land (sfield mbh Mbheader.flags) MULTIBOOT_MEMORY_INFO =? 0) in
  ∃ hdr', mbi' = hdr' ++ rest ∧ length hdr' = 88%nat ∧ allocated m m' ∧ segs ⊆ segs' ∧
    (∀ f, f ∈ pointers → sfield hdr' f = sfield hdr f) ∧
    sfield hdr' Mbinfo.flags = (if asked then u32 (Z.lor (sfield hdr Mbinfo.flags) 0x41) else sfield hdr Mbinfo.flags) ∧
    (asked = true → map_given shdrs m' segs' hdr' rs).
Proof.
  unfold memory_info. cbv zeta. set (mmap := concat _). intros Hr Hh Hsec Hne Hrs.
  assert (Z.of_nat (length hdr) = sizeof Mbinfo.t) as Hl by (by rewrite Hh).
  rewrite mem_sizes_spec in Hr by done.
  rewrite (Z.max_r 0 (lower_memory rs)), (Z.max_r 0 (upper_memory rs)) in Hr by apply max_nonneg.
  rewrite (surjective_pairing (alloc m mmap)) in Hr.
  set (ma := (alloc m mmap).1) in *. set (q := (alloc m mmap).2) in *.
  assert (allocated m ma) as Hma by (apply allocated_alloc, rtc_refl).
  destruct (Z.land _ _ =? 0); cbn [negb] in *.
  { apply Ret_inj in Hr. injection Hr as <- <- <-. exists hdr. done. }
  apply bind_Ret in Hr as ([addr segs1] & Hb & Hr). apply Ret_inj in Hr. injection Hr as <- <- <-.
  apply add_buffer_in in Hb as [Hsub Hat].
  set (size := Z.of_nat (length mmap)) in *. set (lower := lower_memory rs) in *. set (upper := upper_memory rs) in *.
  set (fs := [(Mbinfo.flags, Z.lor (sfield hdr Mbinfo.flags) 0x41); (Mbinfo.mmap_addr, addr);
     (Mbinfo.mmap_length, size); (Mbinfo.mem_lower, kib lower); (Mbinfo.mem_upper, kib upper)]).
  assert (with_field (with_field (with_field (with_field (add_flags (hdr ++ rest) (Z.lor MB_INFO_MEMORY MB_INFO_MEM_MAP))
    Mbinfo.mmap_addr addr) Mbinfo.mmap_length size) Mbinfo.mem_lower (kib lower)) Mbinfo.mem_upper (kib upper)
    = with_fields hdr fs ++ rest) as ->.
  { rewrite <- with_fields_front by done. unfold add_flags. by rewrite (sfield_front hdr) by done. }
  assert (NoDup (map fst fs)) as Hnd by (apply (bool_decide_eq_true_1 _); by vm_compute).
  exists (with_fields hdr fs). split; [done | ]. split; [by rewrite length_with_fields | ].
  split; [done | ]. split; [done | ].
  assert (∀ g v, (g, v) ∈ fs → sfield (with_fields hdr fs) g = v `mod` 2 ^ (Z.of_nat (f_size g) * 8)) as Hset
    by (intros; by apply fields_set).
  split; [ | split; [by apply (Hset Mbinfo.flags), list_elem_of_here | intros _]].
  - intros f Hf. apply fields_other; [done | ]. revert f Hf. apply Forall_forall.
    apply (bool_decide_eq_true_1 (Forall (λ f, f ∉ map fst fs) pointers)). by vm_compute.
  - unfold map_given. cbv zeta. fold mmap. fold size. split_and!.
    + rewrite (Hset Mbinfo.mem_lower (kib lower)) by (unfold fs; set_solver). apply kib_small, max_nonneg.
    + rewrite (Hset Mbinfo.mem_upper (kib upper)) by (unfold fs; set_solver). apply kib_small, max_nonneg.
    + apply (Hset Mbinfo.mmap_length size). unfold fs. set_solver.
    + exists q, addr. split; [apply (Hset Mbinfo.mmap_addr addr); unfold fs; set_solver | ].
      split; [ | split; [apply alloc_lookup | split; [done | by apply fresh_apart]]].
      apply Hat. unfold size, mmap. rewrite length_mmap. destruct rs; [done | simpl; lia].
Qed.

(** ** The modules in the block *)

Lemma add_modules_spec lay m segs modules hdr pre m' segs' mbi' shdrs :
  add_modules garbage slurp_decompress_file lay m segs modules (hdr ++ pre) = Ret (m', segs', mbi') →
  length hdr = 88%nat → Z.of_nat (length (hdr ++ pre)) < 2 ^ 32 → Z.of_nat (length modules) < 2 ^ 32 →
  sfield hdr Mbinfo.mods_count = 0 → sections_in m shdrs →
  ∃ hdr' l, mbi' = hdr' ++ pre ++ descriptors (Z.of_nat (length (hdr ++ pre) + 16 * length l)) l ++ cmdlines l ∧
    length hdr' = 88%nat ∧ map pm_arg l = modules ∧
    sfield hdr' Mbinfo.mods_count = Z.of_nat (length l) ∧
    (l ≠ [] → sfield hdr' Mbinfo.mods_addr = Z.of_nat (length (hdr ++ pre))) ∧
    sfield hdr' Mbinfo.flags = (if bool_decide (modules = []) then sfield hdr Mbinfo.flags
                                else u32 (Z.lor (sfield hdr Mbinfo.flags) MB_INFO_MODS)) ∧
    (∀ f, f ∉ [Mbinfo.mods_count; Mbinfo.mods_addr; Mbinfo.flags] → sfield hdr' f = sfield hdr f) ∧
    allocated m m' ∧ segs ⊆ segs' ∧ Forall (module_loaded shdrs m' segs') l.
Proof.
  intros Hr Hh Hlen Hn Hc Hsec. assert (Z.of_nat (length hdr) = sizeof Mbinfo.t) as Hl by (by rewrite Hh).
  destruct modules as [|optarg modules].
  { apply Ret_inj in Hr. injection Hr as <- <- <-. exists hdr, []. cbn [descriptors cmdlines map concat].
    rewrite !app_nil_r. split_and!; done. }
  cbn [add_modules] in Hr. cbv zeta in Hr. set (mods := optarg :: modules) in *.
  set (at_mods := Z.of_nat (length (hdr ++ pre))) in *.
  set (fs := [(Mbinfo.mods_addr, at_mods); (Mbinfo.mods_count, 0);
              (Mbinfo.flags, Z.lor (sfield hdr Mbinfo.flags) MB_INFO_MODS)]).
  assert (add_flags (with_field (with_field (hdr ++ pre) Mbinfo.mods_addr at_mods) Mbinfo.mods_count 0) MB_INFO_MODS
    = with_fields hdr fs ++ pre) as E.
  { set (fs2 := [(Mbinfo.mods_addr, at_mods); (Mbinfo.mods_count, 0)]).
    change (with_field (with_field (hdr ++ pre) Mbinfo.mods_addr at_mods) Mbinfo.mods_count 0)
      with (with_fields (hdr ++ pre) fs2).
    assert (Z.of_nat (length (with_fields hdr fs2)) = sizeof Mbinfo.t) as Hl2 by (by rewrite length_with_fields).
    unfold add_flags. rewrite with_fields_front, (sfield_front (with_fields _ _)), with_field_front by done.
    by rewrite fields_other by (done || (unfold fs2; set_solver)). }
  rewrite E in Hr. clear E. set (h1 := with_fields hdr fs) in *.
  assert (length h1 = 88%nat) as Hh1 by (unfold h1; by rewrite length_with_fields).
  set (room := xmalloc _ _) in Hr. set (n := length mods) in *.
  assert (length room = 16 * n + list_sum (map (λ o, length o + 1) mods))%nat as Hroom.
  { unfold room, xmalloc. rewrite length_resize. change (sizeof Modlist.t) with 16. lia. }
  destruct (cut_front room (16 * n)) as (ds & ls & Er & Hds); [lia | ]. rewrite Er in *. clear Er room.
  rewrite length_app, Hds in Hroom.
  replace ((h1 ++ pre) ++ ds ++ ls) with (h1 ++ pre ++ [] ++ ds ++ [] ++ ls) in Hr by (by rewrite <- app_assoc).
  apply (load_modules_spec lay shdrs) in Hr
    as (hdr' & l & -> & Hh2 & Ha & Hcount & Hf & Hm & Hs & Hall); [ | done | done | lia | | | done].
  2: { unfold at_mods. rewrite !length_app, Hh, Hh1. simpl. lia. }
  2: { unfold at_mods. rewrite !length_app, Hh, Hh1, Hds. change (sizeof Modlist.t) with 16. cbn [length]. lia. }
  assert (length l = n) as Hln by (unfold n; by rewrite <- Ha, length_map).
  assert (NoDup (map fst fs)) as Hnd by (apply (bool_decide_eq_true_1 _); by vm_compute).
  assert (∀ g v, (g, v) ∈ fs → sfield h1 g = v `mod` 2 ^ (Z.of_nat (f_size g) * 8)) as Hset
    by (intros; by apply fields_set).
  exists hdr', l. split_and!; [ | done | done | | | | | done | done | done].
  - rewrite Hln. cbn [app]. do 3 f_equal. f_equal. unfold at_mods. change (sizeof Modlist.t) with 16. lia.
  - rewrite Hcount, (Hset Mbinfo.mods_count 0), Hln by (unfold fs; set_solver).
    unfold u32. apply Z.mod_small. unfold n. lia.
  - intros _. rewrite Hf, (Hset Mbinfo.mods_addr at_mods) by (done || (unfold fs; set_solver)).
    apply Z.mod_small. change (Z.of_nat (f_size Mbinfo.mods_addr) * 8) with 32. unfold at_mods in *. lia.
  - rewrite Hf by done. apply (Hset Mbinfo.flags). unfold fs. set_solver.
  - intros f Hin. rewrite !not_elem_of_cons in Hin. rewrite Hf by tauto. apply fields_other; [done | ].
    unfold fs. cbn [map fst]. rewrite !not_elem_of_cons. split_and!; tauto.
Qed.

(** The descriptor of a module and its command line, in their places. *)
Lemma descriptors_at l1 x l2 : ∀ clp,
  descriptors clp (l1 ++ x :: l2) =
  descriptors clp l1 ++ descriptor (clp + Z.of_nat (length (cmdlines l1))) x
  ++ descriptors (clp + Z.of_nat (length (cmdlines l1)) + Z.of_nat (length (cstr (pm_arg x)))) l2.
Proof.
  induction l1 as [|y l1 IH]; intros clp; cbn [app descriptors].
  - unfold cmdlines. cbn [map concat length]. by rewrite Z.add_0_r.
  - rewrite IH, <- app_assoc. unfold cmdlines. cbn [map concat]. rewrite !length_app.
    rewrite Nat2Z.inj_add, !Z.add_assoc. done.
Qed.

Lemma cmdlines_at l1 x l2 : cmdlines (l1 ++ x :: l2) = cmdlines l1 ++ cstr (pm_arg x) ++ cmdlines l2.
Proof. unfold cmdlines. by rewrite map_app, concat_app. Qed.

Lemma descriptor_fields clp x :
  sfield (descriptor clp x) Modlist.mod_start = u32 (pm_start x) ∧
  sfield (descriptor clp x) Modlist.mod_end = u32 (pm_end x) ∧
  sfield (descriptor clp x) Modlist.cmdline = u32 clp.
Proof.
  unfold descriptor. split_and!.
  - etrans; [by apply (sfield_app [] (split false 4 (pm_start x))) | apply combine_split].
  - rewrite (sfield_app (split false 4 (pm_start x)) (split false 4 (pm_end x))) by done. apply combine_split.
  - rewrite (app_assoc (split false 4 (pm_start x))).
    rewrite (sfield_app _ (split false 4 clp)) by (by rewrite ?length_app, ?length_split). apply combine_split.
Qed.

(** ** The hand-over *)

(** The word [a] of the block is the address of a copy of [s] in it. *)
Definition string_at (mbi : list byte) (base a : Z) (s : list byte) : Prop :=
  ∃ off, a = u32 (off + base) ∧ read_at mbi off (Z.of_nat (length (cstr s))) = Ret (cstr s).

(** The descriptor of the module with the argument [arg]. *)
Definition module_at (m : mem) (segs : list kexec_segment) (mbi : list byte) (base off : Z) (arg : list byte) : Prop :=
  ∃ d start contents q, read_at mbi off (sizeof Modlist.t) = Ret d ∧
    slurp_decompress_file (mod_filename arg) = Ret contents ∧
    sfield d Modlist.mod_start = u32 start ∧
    sfield d Modlist.mod_end = u32 (start + Z.of_nat (length contents)) ∧
    string_at mbi base (sfield d Modlist.cmdline) arg ∧
    (contents ≠ [] → loaded_at segs q (Z.of_nat (length contents)) start) ∧
    m !! p_blk q = Some contents ∧ p_off q = 0.

(** The flags of the block. *)
Definition mb_flags (asked : bool) (modules : list (list byte)) : Z :=
  Z.lor (Z.lor (Z.lor MB_INFO_CMDLINE MB_INFO_BOOT_LOADER_NAME)
               (if asked then Z.lor MB_INFO_MEMORY MB_INFO_MEM_MAP else 0))
        (if bool_decide (modules = []) then 0 else MB_INFO_MODS).

(** The registers of the kernel's entry. *)
Definition handed_regs (m : mem) (h : mem_ehdr) (base entry : Z) : Prop :=
  ∃ regs, elf_rel_get_symbol m h (bs "entry32_regs") 36 = Ret regs ∧
    sfield regs Regs32.eax = MULTIBOOT_VALID ∧ sfield regs Regs32.ebx = u32 base ∧
    sfield regs Regs32.eip = u32 entry.

(** What the boot protocol asks for: [mbi] is the block of information. *)
Record mb_handover (m : mem) (h : mem_ehdr) (shdrs : list mem_shdr) (segs : list kexec_segment)
    (imagename command_line : list byte) (modules : list (list byte)) (asked : bool)
    (rs : list memory_range) (entry base : Z) (mbi : list byte) : Prop := {
  mh_block : ∃ p, loaded_at segs p (Z.of_nat (length mbi)) base ∧ m !! p_blk p = Some mbi ∧ p_off p = 0;
  mh_flags : sfield mbi Mbinfo.flags = mb_flags asked modules;
  mh_cmdline : string_at mbi base (sfield mbi Mbinfo.cmdline) (imagename ++ bs " " ++ command_line);
  mh_loader : string_at mbi base (sfield mbi Mbinfo.boot_loader_name) (bootloader version);
  mh_map : asked = true → map_given shdrs m segs mbi rs;
  mh_modules : modules ≠ [] →
    sfield mbi Mbinfo.mods_count = Z.of_nat (length modules) ∧
    ∃ off, sfield mbi Mbinfo.mods_addr = u32 (off + base) ∧
      ∀ i arg, modules !! i = Some arg → module_at m segs mbi base (off + 16 * Z.of_nat i) arg;
  mh_regs : handed_regs m h base entry
}.

(** The block after the relocation. *)
Lemma modules_in_block m segs shdrs hdr pre l base :
  length hdr = 88%nat → Forall (module_loaded shdrs m segs) l →
  let at_mods := Z.of_nat (length (hdr ++ pre)) in
  let clp := Z.of_nat (length (hdr ++ pre) + 16 * length l) in
  ∀ i arg, map pm_arg l !! i = Some arg →
    module_at m segs (hdr ++ pre ++ descriptors (clp + base) l ++ cmdlines l) base (at_mods + 16 * Z.of_nat i) arg.
Proof.
  intros Hh Hall at_mods clp i arg Hi. apply list_lookup_fmap_Some in Hi as (x & Hx & Hi). subst arg.
  destruct (Forall_lookup_1 _ _ _ _ Hall Hi) as (Hc & q & Hq & Ho & _ & Hl).
  apply list_elem_of_split_length in Hi as (l1 & l2 & -> & Hi).
  set (c := clp + Z.of_nat (length (cmdlines l1))).
  set (d := descriptor (c + base) x).
  assert (length d = 16%nat) as Hd by apply length_descriptor.
  destruct (descriptor_fields (c + base) x) as (F1 & F2 & F3).
  exists d, (pm_start x), (pm_contents x), q. split_and!; [ | done | done | done | | done | done | done].
  - rewrite descriptors_at.
    replace (clp + base + Z.of_nat (length (cmdlines l1))) with (c + base) by (unfold c; lia). fold d.
    rewrite <- (app_assoc (descriptors _ l1)), <- (app_assoc d), !app_assoc.
    rewrite <- (app_assoc _ d), <- (app_assoc _ (d ++ _)), <- (app_assoc d).
    apply read_at_app; [ | by rewrite Hd]. rewrite !length_app, length_descriptors. unfold at_mods. rewrite length_app. lia.
  - fold d in F3. rewrite F3. exists c. split; [done | ].
    rewrite cmdlines_at, !app_assoc. rewrite <- (app_assoc _ (cstr _)). apply read_at_app; [ | done].
    rewrite !length_app, length_descriptors. unfold c, clp. rewrite !length_app. lia.
Qed.

Lemma map_given_mono shdrs m m' segs segs' mbi mbi' rs :
  (∀ b l, m !! b = Some l → Forall (λ s, p_blk (sh_data s) ≠ b) shdrs → m' !! b = Some l) → segs ⊆ segs' →
  (∀ f, f ∈ [Mbinfo.mem_lower; Mbinfo.mem_upper; Mbinfo.mmap_length; Mbinfo.mmap_addr] → sfield mbi' f = sfield mbi f) →
  map_given shdrs m segs mbi rs → map_given shdrs m' segs' mbi' rs.
Proof.
  intros Hm Hs Hf (H1 & H2 & H3 & q & addr & H4 & Hl & Hq & Ho & Ha). unfold map_given. cbv zeta.
  rewrite !Hf by set_solver. split_and!; [done.. | ]. exists q, addr.
  split; [done | ]. split; [by eapply loaded_at_mono | ]. split; [by apply Hm | done].
Qed.

(** The block, from its beginning to its place. *)
Lemma block_handover lay imagename command_line modules rs mbh m segs shdrs mbi m2 segs2 mbi2 m3 segs3 mbi3
    segs4 base segs5 mbi4 m5 :
  initial_mbi version garbage imagename command_line = Ret mbi →
  memory_info lay m segs rs mbh mbi = Ret (m2, segs2, mbi2) →
  add_modules garbage slurp_decompress_file lay m2 segs2 modules mbi2 = Ret (m3, segs3, mbi3) →
  sort_segments segs3 = (0, segs4) →
  add_buffer lay segs4 (alloc m3 mbi3).2 (Z.of_nat (length mbi3)) (Z.of_nat (length mbi3)) 4 0 0xffffffff 1
    = Ret (base, segs5) →
  relocate_mbi base mbi3 = Ret mbi4 →
  store (alloc m3 mbi3).1 (alloc m3 mbi3).2 mbi4 = Ret m5 →
  sections_in m shdrs → rs ≠ [] → Forall (λ r, 0 ≤ mr_end r < 2 ^ 64) rs →
  Z.of_nat (length modules) < 2 ^ 32 →
  let asked := negb (Z.land (sfield mbh Mbheader.flags) MULTIBOOT_MEMORY_INFO =? 0) in
  allocated m m3 ∧ segs ⊆ segs5 ∧ ∀ m6 h entry, (∀ b, Forall (λ s, p_blk (sh_data s) ≠ b) shdrs → m6 !! b = m5 !! b) →
    handed_regs m6 h base entry →
    mb_handover m6 h shdrs segs5 imagename command_line modules asked rs entry base mbi4.
Proof.
  intros Hi Hmi Ham Hso Hab Hre Hst Hsec Hne Hrs Hn asked.
  apply initial_mbi_spec in Hi as (pad & -> & Hlen). set (line := imagename ++ bs " " ++ command_line) in *.
  set (h0 := first_header _) in *. set (pre := cstr line ++ cstr (bootloader version) ++ pad) in *.
  destruct (first_header_fields (Z.of_nat (length (cstr line))) Mbinfo.flags) as [Hh0 _]. fold h0 in Hh0.
  pose proof (λ f, proj2 (first_header_fields (Z.of_nat (length (cstr line))) f)) as Hf0. fold h0 in Hf0.
  apply (memory_info_spec lay m segs rs mbh h0 pre m2 segs2 mbi2 shdrs) in Hmi
    as (h1 & -> & Hh1 & Hm2 & Hs2 & Hp1 & Hfl1 & Hmap); [ | done..]. fold asked in Hfl1, Hmap.
  assert (length (h1 ++ pre) = length (h0 ++ pre)) as El by (by rewrite !length_app, Hh0, Hh1).
  apply (add_modules_spec lay m2 segs2 modules h1 pre m3 segs3 mbi3 shdrs) in Ham
    as (h2 & l & -> & Hh2 & Ha & Hc2 & Hma2 & Hfl2 & Hf2 & Hm3 & Hs3 & Hall);
    [ | done | by rewrite El | done | by rewrite Hp1, Hf0 by (unfold pointers; set_solver) | by apply (allocated_sections m) ].
  set (clp := Z.of_nat (length (h1 ++ pre) + 16 * length l)) in *.
  apply relocate_mbi_spec in Hre as (h3 & -> & Hh3 & Hrel & Hoth); [ | done | done | ].
  2: { intros Hl. rewrite Hma2 by done. by rewrite !length_app, Hh1, Hh2. }
  set (rest := descriptors (clp + base) l ++ cmdlines l) in *.
  assert (segs3 ⊆ segs5) as Hs5.
  { unfold sort_segments in Hso. destruct (sort_loop segs3) as [Hp _]. cbv zeta in Hso.
    injection Hso as _ <-. apply add_buffer_in in Hab as [Hs5 _]. intros x Hx. apply Hs5. by rewrite Hp. }
  split; [by etrans | ]. split; [by etrans; [ | etrans] | ]. intros m6 h entry Hm6 Hregs.
  set (block := h2 ++ pre ++ descriptors clp l ++ cmdlines l) in *.
  assert (length (h3 ++ pre ++ rest) = length block) as Hlb.
  { unfold block, rest. rewrite !length_app, !length_descriptors. lia. }
  set (p := (alloc m3 block).2) in *.
  assert (m5 = <[p_blk p := h3 ++ pre ++ rest]> (alloc m3 block).1) as E5.
  { apply store_Ret in Hst as (b & Hb & _ & _ & ->). pose proof (alloc_lookup m3 block) as Hal. fold p in Hal. rewrite Hal in Hb. injection Hb as <-.
    by rewrite overwrite_full. }
  assert (Forall (λ s, p_blk (sh_data s) ≠ p_blk p) shdrs) as Hp.
  { apply fresh_apart. apply (allocated_sections m); [by etrans | done]. }
  assert (∀ b d, m3 !! b = Some d → Forall (λ s, p_blk (sh_data s) ≠ b) shdrs → m6 !! b = Some d) as Hkeep.
  { intros b d Hb Hbs. rewrite Hm6, E5 by done. rewrite lookup_insert_ne; [by apply alloc_fresh | ].
    intros <-. apply elem_of_dom_2 in Hb. by apply is_fresh in Hb. }
  assert (Z.of_nat (length h3) = sizeof Mbinfo.t) as Hl3 by (by rewrite Hh3).
  assert (∀ f, f ∈ [Mbinfo.mods_addr; Mbinfo.cmdline; Mbinfo.boot_loader_name] →
    sfield (h3 ++ pre ++ rest) f = u32 (sfield h2 f + base)) as Hset by (intros; rewrite (sfield_front h3); auto).
  assert (∀ f, f ∉ [Mbinfo.mods_addr; Mbinfo.cmdline; Mbinfo.boot_loader_name] →
    sfield (h3 ++ pre ++ rest) f = sfield h2 f) as Hsame by (intros; rewrite (sfield_front h3); auto).
  constructor.
  - exists p. rewrite Hm6, E5, lookup_insert_eq by done. split; [ | done]. rewrite Hlb.
    apply add_buffer_in in Hab as [_ Hat]. apply Hat. unfold block. rewrite length_app. lia.
  - rewrite Hsame by set_solver. rewrite Hfl2, Hfl1, Hf0. unfold mb_flags. case_bool_decide; by destruct asked.
  - rewrite Hset, Hf2, Hp1, Hf0 by (unfold pointers; set_solver). exists 88. split; [done | ].
    unfold pre. rewrite <- !app_assoc. apply read_at_app; [by rewrite Hh3 | done].
  - rewrite Hset, Hf2, Hp1, Hf0 by (unfold pointers; set_solver).
    exists (88 + Z.of_nat (length (cstr line))). split; [by unfold u32; rewrite Zplus_mod_idemp_l | ].
    unfold pre. rewrite <- !app_assoc, (app_assoc h3). apply read_at_app; [ | done]. rewrite length_app. lia.
  - intros Has. apply (map_given_mono shdrs m2 m6 segs2 segs5 h1); [ | by etrans | | by apply Hmap].
    + intros b d Hb. apply Hkeep. by apply (allocated_lookup m2).
    + intros f Hf. rewrite Hsame, Hf2; [done | set_solver | set_solver].
  - intros Hnil. rewrite Hsame, Hc2 by set_solver. rewrite <- Ha, length_map. split; [done | ].
    exists (Z.of_nat (length (h3 ++ pre))). rewrite Hset by set_solver.
    assert (length (h3 ++ pre) = length (h1 ++ pre)) as E3 by (rewrite !length_app; lia).
    split; [rewrite Hma2, E3; [done | by intros ->; apply Hnil] | ]. unfold rest, clp. rewrite <- E3.
    apply (modules_in_block m6 segs5 shdrs); [done | ].
    eapply List.Forall_impl; [ | exact Hall]. intros x. by apply module_loaded_mono.
  - done.
Qed.

(** The variable of purgatory that the loader sets. *)
Definition multiboot_symbols : list (list byte * Z) := [(bs "entry32_regs", 36)].

(** C8: a file that the probe accepts and that is loaded is handed over as the multiboot
    protocol asks: a block of information is in a segment, its address is in ebx and
    the magic value in eax; its command line, the name of the loader and each module's
    descriptor have their absolute addresses after the relocation; the modules are in
    segments of their own with their descriptors in the order of the options; a kernel
    that asks for it gets the memory map and the sizes of the lower and upper memory. *)
Theorem multiboot_load_handover imagename lay argv buf kbuf m info m' info' mbh o rs :
  multiboot_x86_probe buf = Ret (0, Some mbh) →
  fold_options mb_option opts {| mb_command_line := []; mb_modules := [] |} = Some o →
  ranges = Some rs → Forall (λ r, 0 ≤ mr_end r < 2 ^ 64) rs → Z.of_nat (length (mb_modules o)) < 2 ^ 32 →
  ft_load (multiboot_type purgatory version garbage ranges opts slurp_decompress_file imagename)
    lay argv buf kbuf m info = Ret (0, m', info') →
  ∃ ehdr segs m1 segs1,
    elf_exec_build_load lay buf kbuf (segment info) = Ret (ehdr, segs) ∧
    elf_rel_build_load lay garbage (alloc m purgatory).1 purgatory (alloc m purgatory).2 segs 0 ULONG_MAX 1
      = Ret (m1, rhdr info', segs1, entry info') ∧
    ∀ shdrs, purgatory_fits m1 (rhdr info') shdrs multiboot_symbols →
      segs ⊆ segment info' ∧ ∃ base mbi,
        mb_handover m' (rhdr info') shdrs (segment info') imagename (mb_command_line o) (mb_modules o)
          (negb (Z.land (sfield mbh Mbheader.flags) MULTIBOOT_MEMORY_INFO =? 0)) rs (e_entry ehdr) base mbi.
Proof.
  intros Hprobe Ho Hr Hrs Hn. cbn [ft_load multiboot_type]. rewrite Hprobe, bind_Ret_l.
  unfold multiboot_x86_load. rewrite bind_Ret_l, Ho, Hr.
  intros ([ehdr segs] & Hexec & Hl)%bind_Ret. rewrite (surjective_pairing (alloc m purgatory)) in Hl.
  apply bind_Ret in Hl as ([[[m1 h] segs1] en] & Hrel & Hl). apply bind_Ret in Hl as (mbi & Hi & Hl).
  destruct rs as [|r rs']; [done | ]. set (rs := r :: rs') in *.
  apply bind_Ret in Hl as ([[m2 segs2] mbi2] & Hmi & Hl). apply bind_Ret in Hl as ([[m3 segs3] mbi3] & Ham & Hl).
  destruct (sort_segments segs3) as [res segs4] eqn:Hso. case_if_in Hl; [done | ].
  assert (res = 0) as ->.
  { unfold sort_segments in Hso. cbv zeta in Hso. injection Hso as Hso _. zbool. revert Hso. case_if; lia. }
  rewrite (surjective_pairing (alloc m3 mbi3)) in Hl. apply bind_Ret in Hl as ([base segs5] & Hab & Hl).
  apply bind_Ret in Hl as (mbi4 & Hre & Hl). apply bind_Ret in Hl as (m5 & Hst & Hl).
  apply bind_Ret in Hl as (regs & Hg & Hl). apply bind_Ret in Hl as (m6 & Hset & Hl).
  apply Ret_inj in Hl. injection Hl as <- <-. cbn [rhdr segment entry set_rhdr].
  exists ehdr, segs, m1, segs1. split; [done | ]. split; [done | ]. intros shdrs [Hsh Ht _].
  pose proof (elf_rel_build_load_sub _ _ _ _ _ _ _ _ _ _ _ _ _ Hrel) as Hsub.
  apply elf_rel_build_load_blocks in Hrel as [_ Hin]; [ | rewrite alloc_lookup; eauto]. rewrite Hsh in Hin.
  cbn [default] in Hin.
  destruct (block_handover _ _ _ _ rs _ _ _ shdrs _ _ _ _ _ _ _ _ _ _ _ _ Hi Hmi Ham Hso Hab Hre Hst Hin
    ltac:(done) Hrs Hn) as (Hm3 & Hsubs & Hgive).
  split; [by etrans | ]. exists base, mbi4. apply Hgive.
  - intros b Hb. eapply set_symbol_block; [exact Hset | by rewrite Hsh].
  - set (regs' := foldl _ _ _) in Hset.
    pose proof (elf_rel_get_symbol_length _ _ _ _ _ Hg) as Hlr. change (sizeof Regs32.t) with 36 in *.
    set (fs := [(Regs32.eax, MULTIBOOT_VALID); (Regs32.ebx, base); (Regs32.eip, e_entry ehdr)]) in *.
    assert (Z.of_nat (length regs') = 36) as Hlr' by (change regs' with (with_fields regs fs); by rewrite length_with_fields).
    assert (∀ name q n, symbol_at m5 h name q n ↔ symbol_at m1 h name q n) as Hsym.
    { intros name q n.
      etrans; [apply (symbol_at_other (alloc m3 mbi3).1 m5 h shdrs _ _ _ (p_blk (alloc m3 mbi3).2)) | ].
      - done.
      - apply fresh_apart. by apply (allocated_sections m1).
      - intros k Hk. apply store_Ret in Hst as (d & _ & _ & _ & ->). by apply lookup_insert_ne.
      - apply (symbol_at_allocated m1 _ h shdrs); [by apply allocated_alloc | done | done]. }
    assert (∀ g v, (g, v) ∈ fs → sfield regs' g = v `mod` 2 ^ (Z.of_nat (f_size g) * 8)) as Hf.
    { intros g v Hgv. apply fields_set; [done | | done]. apply (bool_decide_eq_true_1 _). by vm_compute. }
    exists regs'. split_and!.
    + rewrite <- Hlr'. apply (set_symbols_get [(bs "entry32_regs", regs')] m5 h shdrs); [done | | | | by apply list_elem_of_here].
      * intros name q n Hin' Hq%Hsym. by apply (Ht name q n).
      * cbn [set_symbols]. by rewrite Hset, bind_Ret_l.
      * split; [ | done]. by intros ? ? ? ? ?%not_elem_of_nil.
    + exact (Hf Regs32.eax MULTIBOOT_VALID ltac:(unfold fs; set_solver)).
    + exact (Hf Regs32.ebx base ltac:(unfold fs; set_solver)).
    + exact (Hf Regs32.eip (e_entry ehdr) ltac:(unfold fs; set_solver)).
Qed.
End multiboot.

Module Witness.
Import X86LinuxSpec.Witness LoadersX86Spec.Witness.

(** The program of LoadersX86Spec.v with a multiboot header that asks for the memory map. *)
Definition mb_header : list byte :=
  le 4 MULTIBOOT_MAGIC ++ le 4 MULTIBOOT_MEMORY_INFO ++ le 4 (- (MULTIBOOT_MAGIC + MULTIBOOT_MEMORY_INFO)).

Definition mb_program : list byte := take 84 LoadersX86Spec.Witness.program ++ mb_header ++ repeat Byte.x90 36.

Definition mb_m : mem := {[ 1%positive := mb_program ]}.
Definition mb_args : list (Z * list byte) := [(OPT_CL, bs "ro"); (OPT_MOD, bs "initrd root"); (OPT_MOD, bs "sym")].
Definition mb_file (name : list byte) : outcome (list byte) :=
  Ret (if bool_decide (name = bs "initrd") then bs "disk" else bs "table").

#[local] Abbreviation mb_loaded :=
  (ft_load (multiboot_type elf_purgatory (bs "1.101") [] (Some (memory_ranges pc)) mb_args mb_file (bs "kernel"))
    pc [] mb_program (at_kernel 0) mb_m empty_info).

Lemma mb_loaded_ok : match mb_loaded with Ret (r, _, _) => r | _ => 1 end = 0.
Proof. vm_compute. reflexivity. Qed.

Definition mb_fits : bool :=
  match elf_exec_build_load pc mb_program (at_kernel 0) [] with
  | Ret (_, segs) =>
      match elf_rel_build_load pc [] (alloc mb_m elf_purgatory).1 elf_purgatory (alloc mb_m elf_purgatory).2 segs
              0 ULONG_MAX 1 with
      | Ret (m, h, _, _) =>
          match e_shdr h with
          | Some shdrs =>
              tables_apartb m h shdrs (map fst multiboot_symbols) && disjointb (places m h multiboot_symbols)
          | None => false
          end
      | _ => false
      end
  | _ => false
  end.

Lemma mb_fits_true : mb_fits = true.
Proof. vm_compute. reflexivity. Qed.

Lemma multiboot_load_handover_witness :
  ∃ m' info' shdrs entry base mbi,
    mb_handover (bs "1.101") mb_file m' (rhdr info') shdrs (segment info') (bs "kernel") (bs "ro")
      [bs "initrd root"; bs "sym"] true (memory_ranges pc) entry base mbi.
Proof.
  pose proof mb_loaded_ok as Hok. destruct mb_loaded as [[[r m'] info'] | | | ] eqn:E; [ | discriminate Hok..].
  subst r. exists m', info'.
  destruct (multiboot_load_handover elf_purgatory (bs "1.101") [] (Some (memory_ranges pc)) mb_args mb_file
    (bs "kernel") pc [] mb_program (at_kernel 0) mb_m empty_info m' info'
    (drop 84 mb_program)
    {| mb_command_line := bs "ro"; mb_modules := [bs "initrd root"; bs "sym"] |} (memory_ranges pc))
    as (ehdr & segs & m & segs1 & Hexec & Hrel & Hfit); [by vm_compute | done | done | | done | exact E | ].
  { decided. }
  pose proof mb_fits_true as Hf. unfold mb_fits in Hf. change (segment empty_info) with (@nil kexec_segment) in Hexec.
  rewrite Hexec, Hrel in Hf. destruct (e_shdr (rhdr info')) as [shdrs | ] eqn:Es; [ | discriminate Hf].
  apply andb_prop in Hf as [Ht Hd]. destruct (Hfit shdrs) as [_ (base & mbi & Hh)].
  - constructor; [done | by apply tables_apartb_spec | by apply disjointb_spec].
  - exists shdrs, (e_entry ehdr), base, mbi. exact Hh.
Defined.
End Witness.
