(* ===== verification/LoadersPpcSpec.v ===== *)
(** The loaders of ppc (LoadersPpc.v).  The segments of a DOL file are disjoint, hold every
    section, and have at an address the byte of the last section that covers it;
    the block of arguments that an ELF executable gets is sealed, that of a DOL file is not. *)

From Stdlib Require Import ZArith Lia String.
From stdpp Require Import base tactics list numbers gmap sets sorting.
From coqutil Require Import Byte.
From S2P Require Import Prelude Words CMem CString Struct Segments Elf ElfBoot IpChecksum ElfExec ElfRel Kexec KexecX86 X86Linux SegmentsSpec LoadersPpc.

#[local] Open Scope Z_scope.
#[local] Existing Instance ppc.

(** ** Segments *)

(** A segment above 2 GiB, of whole pages, that does not reach the last page. *)
Record wf_seg (s : dol_segment) : Prop := {
  ws_start : 2 ^ 31 ≤ start s; ws_size : 0 < size s; ws_end : start s + size s ≤ 2 ^ 32 - ppc_PAGE_SIZE;
  ws_page : (ppc_PAGE_SIZE | start s); ws_pages : (ppc_PAGE_SIZE | size s)
}.

Definition disjoint_segs (s t : dol_segment) : Prop := start s + size s ≤ start t ∨ start t + size t ≤ start s.

Definition slot_ok (s : dol_segment) : Prop := s = no_segment ∨ wf_seg s.

Lemma wf_end s : wf_seg s → dol_seg_end s = start s + size s.
Proof. intros [? ? ? _ _]. unfold dol_seg_end, ppc_PAGE_SIZE in *. apply u32_small. lia. Qed.

Lemma overlaps_spec s t : wf_seg s → wf_seg t → dol_seg_overlaps s t = false ↔ disjoint_segs s t.
Proof.
  intros Hs Ht. unfold dol_seg_overlaps, dol_seg_after_sect, disjoint_segs. rewrite !wf_end by done.
  rewrite negb_false_iff, orb_true_iff, !Z.leb_le. lia.
Qed.

(** What [extend_segment] makes of two segments that overlap, the first of which begins first. *)
Lemma extend_spec s t :
  wf_seg s → wf_seg t → ¬ disjoint_segs s t → start s ≤ start t →
  wf_seg (extend_segment s t) ∧ start (extend_segment s t) = start s ∧
  start s + size (extend_segment s t) = Z.max (start s + size s) (start t + size t) ∧
  sects_bitmap (extend_segment s t) = Z.lor (sects_bitmap s) (sects_bitmap t).
Proof.
  intros Hs Ht Ho Hle. pose proof (wf_end s Hs) as Es. pose proof (wf_end t Ht) as Et.
  destruct Hs as [Hs1 Hs2 Hs3 Hs4 Hs5], Ht as [Ht1 Ht2 Ht3 Ht4 Ht5]. unfold disjoint_segs, ppc_PAGE_SIZE in *.
  assert (start s + size (extend_segment s t) = Z.max (start s + size s) (start t + size t)) as Em.
  { unfold extend_segment. rewrite Es, Et. cbn [size].
    destruct (Z.le_gt_cases (start t + size t) (start s + size s)) as [Hge | Hlt].
    - assert (u32 (start t + size t - (start s + size s)) = 0 ∨ 2 ^ 31 ≤ u32 (start t + size t - (start s + size s))) as Hx.
      { destruct (decide (start t + size t = start s + size s)) as [E | Hne].
        - left. rewrite E, Z.sub_diag. done.
        - right. unfold u32. rewrite <- (Z_mod_plus_full _ 1). rewrite Z.mod_small; lia. }
      rewrite Z.max_l by lia. f_equal.
      destruct Hx as [-> | Hx]; [done | ]. rewrite (proj2 (Z.ltb_ge _ (2 ^ 31))) by done. by rewrite andb_false_r.
    - rewrite u32_small by lia.
      rewrite (proj2 (Z.ltb_lt 0 _)), (proj2 (Z.ltb_lt _ (2 ^ 31))) by lia. cbn [andb].
      rewrite u32_small by lia. lia. }
  split_and!; [ | done | done | done]. split; unfold ppc_PAGE_SIZE; change (start (extend_segment s t)) with (start s); try (done || lia).
  replace (size (extend_segment s t)) with (Z.max (start s + size s) (start t + size t) - start s) by lia.
  apply Z.divide_sub_r; [ | done]. destruct (Z.max_spec (start s + size s) (start t + size t)) as [[_ ->] | [_ ->]];
    by apply Z.divide_add_r.
Qed.

(** ** The array of segments *)

Lemma seg_at_insert i j x l :
  seg_at (<[j := x]> l) i = if decide (i = j ∧ (j < length l)%nat) then x else seg_at l i.
Proof.
  unfold seg_at. rewrite !nth_lookup. case_decide as Hd.
  - destruct Hd as [-> Hl]. by rewrite list_lookup_insert_eq.
  - destruct (decide (i = j)) as [-> | Hne]; [ | by rewrite list_lookup_insert_ne].
    rewrite list_insert_ge by (apply not_lt; tauto). done.
Qed.

Definition live (s : dol_segment) : Prop := size s ≠ 0.

Definition live_count (l : list dol_segment) : nat := length (List.filter (λ s, negb (size s =? 0)) l).

Lemma live_count_insert l : ∀ i x, (i < length l)%nat →
  (live_count (<[i := x]> l) + (if (size (seg_at l i) =? 0)%Z then 0 else 1)
    = live_count l + (if (size x =? 0)%Z then 0 else 1))%nat.
Proof.
  unfold live_count, seg_at. induction l as [|s l IH]; intros i x Hi; [simpl in Hi; lia | ].
  destruct i as [|i]; cbn [insert list_insert List.filter nth].
  - destruct (size s =? 0), (size x =? 0); cbn [negb length]; lia.
  - simpl in Hi. specialize (IH i x ltac:(lia)). destruct (size s =? 0); cbn [negb length]; [exact IH | rewrite !Nat.add_succ_l; f_equal; exact IH].
Qed.

Lemma live_count_le l : (live_count l ≤ length l)%nat.
Proof. unfold live_count. induction l as [|s l IH]; [done | ]. simpl. destruct (size s =? 0); simpl; lia. Qed.

Lemma slot_live s : slot_ok s → live s → wf_seg s.
Proof. intros [-> | Hs] Hl; [by destruct Hl | done]. Qed.

Lemma wf_live s : wf_seg s → live s.
Proof. intros [_ ? _ _ _]. unfold live. lia. Qed.

(** Segment [a] goes into segment [b]. *)
Definition merge (a b : nat) (segs : list dol_segment) : list dol_segment :=
  <[a := no_segment]> (<[b := extend_segment (seg_at segs b) (seg_at segs a)]> segs).

Lemma merge_at a b segs i : (a < length segs)%nat → (b < length segs)%nat →
  seg_at (merge a b segs) i
  = if decide (i = a) then no_segment
    else if decide (i = b) then extend_segment (seg_at segs b) (seg_at segs a) else seg_at segs i.
Proof.
  intros Ha Hb. unfold merge. rewrite !seg_at_insert, length_insert.
  repeat case_decide; naive_solver.
Qed.

Lemma length_merge a b segs : length (merge a b segs) = length segs.
Proof. unfold merge. by rewrite !length_insert. Qed.

(** The section [k] lies in the segment [s]. *)
Definition section_in (h : dol_header) (s : dol_segment) (k : nat) : Prop :=
  dol_sect_size h k ≠ 0 ∧ start s ≤ dol_sect_address h k ∧
  dol_sect_address h k + dol_sect_size h k ≤ start s + size s.

Record holds_sections (h : dol_header) (segs : list dol_segment) : Prop := {
  h_slots : ∀ i, slot_ok (seg_at segs i);
  h_bits : ∀ i z, 0 ≤ z → Z.testbit (sects_bitmap (seg_at segs i)) z = true →
    z < Z.of_nat DOL_MAX_SECT ∧ section_in h (seg_at segs i) (Z.to_nat z);
  h_all : ∀ k, (k < DOL_MAX_SECT)%nat → dol_sect_size h k ≠ 0 →
    ∃ i, (i < length segs)%nat ∧ Z.testbit (sects_bitmap (seg_at segs i)) (Z.of_nat k) = true
}.

(** Two segments that [fix_inner] merges. *)
Record merged (a b : nat) (segs : list dol_segment) : Prop := {
  m_ne : a ≠ b; m_a : (a < length segs)%nat; m_b : (b < length segs)%nat;
  m_live_a : live (seg_at segs a); m_live_b : live (seg_at segs b);
  m_meet : ¬ disjoint_segs (seg_at segs b) (seg_at segs a);
  m_order : start (seg_at segs b) ≤ start (seg_at segs a)
}.

Section invariant.
Context (h : dol_header).
Implicit Types segs : list dol_segment.

Lemma merged_extend a b segs : holds_sections h segs → merged a b segs →
  let x := extend_segment (seg_at segs b) (seg_at segs a) in
  wf_seg x ∧ start x = start (seg_at segs b) ∧
  start (seg_at segs b) + size x
    = Z.max (start (seg_at segs b) + size (seg_at segs b)) (start (seg_at segs a) + size (seg_at segs a)) ∧
  sects_bitmap x = Z.lor (sects_bitmap (seg_at segs b)) (sects_bitmap (seg_at segs a)).
Proof.
  intros Hh [Hne Ha Hb Hla Hlb Hm Ho]. apply extend_spec; try done; by apply slot_live; [apply Hh | ].
Qed.

Lemma holds_merge a b segs : holds_sections h segs → merged a b segs → holds_sections h (merge a b segs).
Proof.
  intros Hh Hm. destruct (merged_extend a b segs Hh Hm) as (Hwf & Hst & Hend & Hbits).
  pose proof Hm as [Hne Ha Hb Hla Hlb _ Ho]. split.
  - intros i. rewrite merge_at by done. repeat case_decide; [by left | by right | apply Hh].
  - intros i z Hz. rewrite merge_at by done. repeat case_decide; [by rewrite Z.testbit_0_l | | by apply Hh].
    rewrite Hbits, Z.lor_spec, orb_true_iff. unfold section_in. rewrite Hst, Hend.
    intros [Hx | Hx]; apply Hh in Hx as (Hlt & Hu & Hlo & Hhi); try done; (split; [done | split_and!; [done | lia | lia]]).
  - intros k Hk Hu. destruct (h_all _ _ Hh k Hk Hu) as (i & Hi & Hbit). rewrite length_merge.
    destruct (decide (i = a ∨ i = b)) as [Hab | Hab].
    + exists b. split; [done | ]. rewrite merge_at, decide_False, decide_True by done.
      rewrite Hbits, Z.lor_spec. destruct Hab as [-> | ->]; rewrite Hbit; [apply orb_true_r | done].
    + exists i. split; [done | ]. rewrite merge_at, !decide_False by tauto. done.
Qed.

Lemma live_count_merge a b segs : holds_sections h segs → merged a b segs → S (live_count (merge a b segs)) = live_count segs.
Proof.
  intros Hh Hm. destruct (merged_extend a b segs Hh Hm) as (Hwf & _).
  destruct Hm as [Hne Ha Hb Hla Hlb _ _]. unfold merge.
  pose proof (live_count_insert segs b (extend_segment (seg_at segs b) (seg_at segs a)) Hb) as H1.
  pose proof (live_count_insert (<[b := extend_segment (seg_at segs b) (seg_at segs a)]> segs) a no_segment) as H2.
  rewrite length_insert, seg_at_insert, decide_False in H2 by tauto. specialize (H2 Ha).
  unfold live in *. apply wf_live in Hwf. unfold live in Hwf. apply Z.eqb_neq in Hla, Hlb, Hwf. rewrite Hla in H2. rewrite Hlb, Hwf in H1.
  change (size no_segment =? 0)%Z with true in H2. cbv iota in H1, H2. lia.
Qed.

(** The live segments before [n] are pairwise disjoint. *)
Definition segments_apart (n : nat) segs : Prop :=
  ∀ i j, (i < n)%nat → (j < n)%nat → i ≠ j → live (seg_at segs i) → live (seg_at segs j) →
  disjoint_segs (seg_at segs i) (seg_at segs j).

Lemma disjoint_sym s t : disjoint_segs s t → disjoint_segs t s.
Proof. unfold disjoint_segs. tauto. Qed.

(** What is disjoint from both is disjoint from the merged segment. *)
Lemma disjoint_merged a b segs t : holds_sections h segs → merged a b segs → wf_seg t →
  disjoint_segs (seg_at segs b) t → disjoint_segs (seg_at segs a) t →
  disjoint_segs (extend_segment (seg_at segs b) (seg_at segs a)) t.
Proof.
  intros Hh Hm Ht Hb Ha. destruct (merged_extend a b segs Hh Hm) as (_ & Hst & Hend & _).
  destruct Hm as [_ _ _ _ _ Hmeet Ho]. destruct Ht as [_ ? _ _ _]. unfold disjoint_segs in *. rewrite Hst, Hend. lia.
Qed.

Lemma not_live_0 s : (size s =? 0) = true → ¬ live s.
Proof. intros E%Z.eqb_eq Hl. by apply Hl. Qed.

Lemma fix_inner_spec : ∀ n j i segs,
  (n + j = i)%nat → (i < length segs)%nat → holds_sections h segs → live (seg_at segs i) → segments_apart i segs →
  (∀ j', (j' < j)%nat → live (seg_at segs j') → disjoint_segs (seg_at segs i) (seg_at segs j')) →
  let '(deleted, segs') := fix_inner n j i segs in
  holds_sections h segs' ∧ length segs' = length segs ∧
  if deleted then (live_count segs' < live_count segs)%nat
  else segments_apart (S i) segs' ∧ (live_count segs' ≤ live_count segs)%nat.
Proof.
  induction n as [|n IH]; intros j i segs Hn Hi Hh Hl Hap Hj; cbn [fix_inner].
  { split; [done | ]. split; [done | ]. split; [ | done]. assert (j = i) as -> by lia.
    intros x y Hx Hy Hne Hlx Hly. destruct (decide (x = i)) as [-> | ], (decide (y = i)) as [-> | ]; [done | | | ].
    - apply Hj; [lia | done].
    - apply disjoint_sym, Hj; [lia | done].
    - apply Hap; (done || lia). }
  destruct (size (seg_at segs j) =? 0) eqn:Ej; cbn [orb].
  { apply IH; try done; [lia | ]. intros j' Hj' Hlj. destruct (decide (j' = j)) as [-> | ]; [by apply not_live_0 in Ej | apply Hj; [lia | done]]. }
  apply Z.eqb_neq in Ej. pose proof (slot_live _ (h_slots _ _ Hh i) Hl) as Hwi. pose proof (slot_live _ (h_slots _ _ Hh j) Ej) as Hwj.
  destruct (dol_seg_overlaps (seg_at segs i) (seg_at segs j)) eqn:Eo; cbn [negb].
  2: { apply overlaps_spec in Eo; [ | done..]. apply IH; try done; [lia | ].
       intros j' Hj' Hlj. destruct (decide (j' = j)) as [-> | ]; [done | apply Hj; [lia | done]]. }
  assert (¬ disjoint_segs (seg_at segs i) (seg_at segs j)) as Hmeet by (rewrite <- overlaps_spec, Eo by done; done).
  destruct (Z.ltb_spec (start (seg_at segs j)) (start (seg_at segs i))) as [Hlt | Hge].
  - assert (merged i j segs) as Hm by (split; (done || lia || (intros Hd; by apply Hmeet, disjoint_sym))).
    fold (merge i j segs). split; [by apply holds_merge | ]. split; [by apply length_merge | ].
    pose proof (live_count_merge i j segs Hh Hm). lia.
  - assert (merged j i segs) as Hm by (split; (done || lia)).
    fold (merge j i segs). pose proof (live_count_merge j i segs Hh Hm) as Hcount.
    pose proof (merged_extend j i segs Hh Hm) as (Hwx & _).
    assert (∀ x, seg_at (merge j i segs) x = if decide (x = j) then no_segment else
      if decide (x = i) then extend_segment (seg_at segs i) (seg_at segs j) else seg_at segs x) as Hat by (intros x; apply merge_at; lia).
    specialize (IH (S j) i (merge j i segs)). rewrite length_merge in IH.
    destruct (fix_inner n (S j) i (merge j i segs)) as [deleted segs'].
    destruct IH as (Hh' & Hlen & Hrest); [lia | done | by apply holds_merge | | | | ].
    + rewrite Hat, decide_False, decide_True by lia. by apply wf_live.
    + intros x y Hx Hy Hne. rewrite !Hat. repeat case_decide; try lia; (intros Hlx Hly; try by destruct Hlx); try by destruct Hly.
      apply Hap; done.
    + intros j' Hj'. rewrite !Hat. rewrite (decide_False (P := i = j)), (decide_True (P := i = i)) by lia.
      repeat case_decide; try lia; [by intros Hx; destruct Hx | ]. intros Hlj.
      apply disjoint_merged; [done | done | by apply slot_live; [apply Hh | ] | apply Hj; [lia | done] | ].
      apply Hap; (done || lia).
    + split; [done | ]. split; [done | ]. destruct deleted; [lia | ]. split; [apply Hrest | lia].
Qed.
End invariant.

Section all.
Context (h : dol_header).

Lemma fix_outer_spec : ∀ fuel i segs,
  let n := length segs in
  (i ≤ n)%nat → holds_sections h segs → segments_apart i segs → (n - i + live_count segs * n ≤ fuel)%nat →
  ∃ segs', fix_outer fuel n i segs = Ret segs' ∧ length segs' = n ∧ holds_sections h segs' ∧ segments_apart n segs'.
Proof.
  induction fuel as [|fuel IH]; intros i segs n Hi Hh Hap Hf; cbn [fix_outer];
    (destruct (Nat.ltb_spec i n) as [Hlt | Hge]; [ | assert (i = n) as -> by lia; by exists segs]); [lia | ].
  destruct (size (seg_at segs i) =? 0) eqn:E.
  - apply IH; [lia | done | | lia]. intros x y Hx Hy Hne Hlx Hly.
    destruct (decide (x = i)) as [-> | ]; [by apply not_live_0 in E | ].
    destruct (decide (y = i)) as [-> | ]; [by apply not_live_0 in E | ]. apply Hap; (done || lia).
  - apply Z.eqb_neq in E. pose proof (fix_inner_spec h i 0 i segs) as Hs.
    destruct (fix_inner i 0 i segs) as [deleted segs1].
    destruct Hs as (Hh1 & Hl1 & Hrest); [lia | done | done | done | done | intros j' Hj'; lia | ].
    fold n in Hl1. specialize (IH (if deleted then 1%nat else S i) segs1). cbv zeta in IH. rewrite Hl1 in IH.
    destruct deleted; apply IH; try done; try lia; try nia.
    + intros x y Hx Hy Hne. lia.
    + apply Hrest.
Qed.

(** A section that is in use lies above 2 GiB and ends before the last page. *)
Definition good_section (k : nat) : Prop :=
  dol_sect_size h k ≠ 0 →
  2 ^ 31 ≤ dol_sect_address h k ∧ 0 < dol_sect_size h k ∧
  dol_sect_address h k + dol_sect_size h k ≤ 2 ^ 32 - ppc_PAGE_SIZE.

Definition good_header : Prop := ∀ k, (k < DOL_MAX_SECT)%nat → good_section k.

Lemma pow2_page : pow2 ppc_PAGE_SIZE.
Proof. by exists 12. Qed.

Lemma section_segment_spec k : good_section k → dol_sect_size h k ≠ 0 →
  wf_seg (section_segment h k) ∧ section_in h (section_segment h k) k.
Proof.
  intros Hg Hu. destruct (Hg Hu) as (Ha & Hs & He). unfold ppc_PAGE_SIZE in *.
  set (a := dol_sect_address h k) in *. set (sz := dol_sect_size h k) in *.
  assert (Z.land a PAGE_MASK = round_down a ppc_PAGE_SIZE) as Est
    by (apply land_notw_pow2; [done | exact pow2_page | lia]).
  assert (PAGE_ALIGN (a + sz) = round_up (a + sz) ppc_PAGE_SIZE) as Eal.
  { unfold PAGE_ALIGN, ppc_PAGE_SIZE. rewrite u32_small by lia. unfold round_up.
    replace (a + sz + 4096 - 1) with (a + sz + (4096 - 1)) by lia.
    apply (land_notw_pow2 32 _ 4096); [done | exact pow2_page | lia]. }
  pose proof (round_down_spec a ppc_PAGE_SIZE ltac:(done)) as Hd. pose proof (round_up_spec (a + sz) ppc_PAGE_SIZE ltac:(done)) as Hup.
  pose proof (round_up_least (a + sz) ppc_PAGE_SIZE (2 ^ 32 - ppc_PAGE_SIZE) ltac:(done) ltac:(by exists (2 ^ 20 - 1)) He) as Hmax.
  pose proof (round_down_greatest a ppc_PAGE_SIZE (2 ^ 31) ltac:(done) ltac:(by exists (2 ^ 19)) Ha) as Hmin.
  assert (size (section_segment h k) = round_up (a + sz) ppc_PAGE_SIZE - round_down a ppc_PAGE_SIZE) as Esz.
  { unfold section_segment. cbn [size]. fold a sz. rewrite Est. rewrite (u32_small (a + sz)) by lia. rewrite Eal.
    unfold ppc_PAGE_SIZE in *. rewrite (u32_small (a - _)), (u32_small (round_up _ _ - _)) by lia. rewrite u32_small; lia. }
  assert (start (section_segment h k) = round_down a ppc_PAGE_SIZE) as Est' by exact Est.
  unfold ppc_PAGE_SIZE in *. split.
  - split; rewrite ?Esz, ?Est'; unfold ppc_PAGE_SIZE; try lia; [apply round_down_divide | ].
    apply Z.divide_sub_r; [apply round_up_divide | apply round_down_divide].
  - unfold section_in. fold a sz. rewrite Esz, Est'. split_and!; [done | lia | lia].
Qed.

Lemma load_loop_spec : ∀ n i remaining, (n ≤ remaining)%nat →
  load_loop n i remaining h = map (section_segment h) (List.filter (λ k, negb (dol_sect_size h k =? 0)) (seq i n)).
Proof.
  induction n as [|n IH]; intros i remaining Hr; [done | ]. destruct remaining as [|rest]; [lia | ].
  cbn [load_loop seq List.filter]. destruct (dol_sect_size h i =? 0); cbn [negb map]; rewrite IH; (done || lia).
Qed.

Lemma bit_of_section k z : 0 ≤ z → Z.testbit (sects_bitmap (section_segment h k)) z = true ↔ z = Z.of_nat k.
Proof.
  intros Hz. cbn [sects_bitmap section_segment]. rewrite Z.shiftl_spec by done. split.
  - intros Hb. destruct (Z.lt_ge_cases z (Z.of_nat k)) as [Hlt | Hge]; [rewrite Z.testbit_neg_r in Hb by lia; done | ].
    destruct (decide (z = Z.of_nat k)) as [ | Hne]; [done | ].
    rewrite (Z.bits_above_log2 1) in Hb; [done | lia | change (Z.log2 1) with 0; lia].
  - intros ->. by rewrite Z.sub_diag.
Qed.

Lemma first_segments_hold : good_header →
  let segs := load_dol_segments DOL_MAX_SECT h in
  let all := segs ++ replicate (DOL_MAX_SECT - length segs) no_segment in
  length all = DOL_MAX_SECT ∧ holds_sections h all.
Proof.
  intros Hg segs all.
  assert (segs = map (section_segment h) (List.filter (λ k, negb (dol_sect_size h k =? 0)) (seq 0 DOL_MAX_SECT))) as Es
    by (apply load_loop_spec; lia).
  assert (∀ i, seg_at all i = no_segment ∨ ∃ k, (k < DOL_MAX_SECT)%nat ∧ dol_sect_size h k ≠ 0 ∧ seg_at all i = section_segment h k) as Hat.
  { intros i. unfold seg_at, all. destruct (Nat.lt_ge_cases i (length segs)) as [Hi | Hi].
    - right. rewrite app_nth1 by done. pose proof (nth_In segs no_segment Hi) as Hin. rewrite Es in Hin at 2.
      apply in_map_iff in Hin as (k & Ek & Hk). apply filter_In in Hk as [Hk Hu]. apply in_seq in Hk.
      apply negb_true_iff, Z.eqb_neq in Hu. exists k. split; [lia | ]. by split.
    - left. rewrite app_nth2 by done. rewrite nth_lookup.
      destruct (replicate _ no_segment !! _) as [x|] eqn:E; [by apply lookup_replicate in E as [-> _] | done]. }
  assert (length segs ≤ DOL_MAX_SECT)%nat as Hl.
  { rewrite Es, length_map. etrans; [apply filter_length_le | ]. by rewrite length_seq. }
  split.
  { unfold all. rewrite length_app, length_replicate. lia. }
  split.
  - intros i. destruct (Hat i) as [-> | (k & Hk & Hu & ->)]; [by left | right; by apply section_segment_spec, Hu; apply Hg].
  - intros i z Hz. destruct (Hat i) as [-> | (k & Hk & Hu & ->)]; [by rewrite Z.testbit_0_l | ].
    intros Hb. apply bit_of_section in Hb as ->; [ | done]. split; [lia | ]. rewrite Nat2Z.id.
    by apply section_segment_spec; [apply Hg | ].
  - intros k Hk Hu. assert (In (section_segment h k) segs) as Hin.
    { rewrite Es. apply in_map, filter_In. split; [apply in_seq; lia | ]. by apply negb_true_iff, Z.eqb_neq. }
    destruct (In_nth segs _ no_segment Hin) as (i & Hi & Ei). exists i. split.
    + unfold all. rewrite length_app. lia.
    + unfold seg_at, all. rewrite app_nth1, Ei by done. by apply bit_of_section; [lia | ].
Qed.

Lemma dol_segments_spec : good_header →
  ∃ segs, dol_segments h = Ret segs ∧ length segs = DOL_MAX_SECT ∧ holds_sections h segs ∧ segments_apart DOL_MAX_SECT segs.
Proof.
  intros Hg. destruct (first_segments_hold Hg) as [Hl Hh]. unfold dol_segments, fix_dol_segments_overlaps.
  set (all := load_dol_segments DOL_MAX_SECT h ++ _) in *. cbv zeta.
  destruct (fix_outer_spec (length all + length all * length all) 0 all) as (segs & Hrun & Hl' & Hh' & Hap);
    [lia | done | intros i j Hi; lia | | ].
  - pose proof (live_count_le all). nia.
  - rewrite Hl in *. by exists segs.
Qed.
End all.

(** ** The copy of the sections *)

Section copy.
Context (h : dol_header) (buf : list byte).

(** The order of the copies: by address, then by number. *)
Definition copied_before (j k : nat) : Prop :=
  dol_sect_address h j < dol_sect_address h k ∨ dol_sect_address h j = dol_sect_address h k ∧ (j < k)%nat.

(** A section still to be copied. *)
Definition candidate (seen todo : Z) (k : nat) : Prop :=
  Z.testbit todo (Z.of_nat k) = true ∧ Z.testbit seen (Z.of_nat k) = false.

Lemma lowest_section_spec seen todo : ∀ n k lowest_start j,
  (n + k = DOL_MAX_SECT)%nat → (∀ c, candidate seen todo c → dol_sect_address h c < 0xffffffff) →
  match j with
  | None => lowest_start = 0xffffffff ∧ ∀ c, (c < k)%nat → ¬ candidate seen todo c
  | Some j => lowest_start = dol_sect_address h j ∧ (j < k)%nat ∧ candidate seen todo j ∧
              ∀ c, (c < k)%nat → candidate seen todo c → c ≠ j → copied_before j c
  end →
  match lowest_section n k h seen todo lowest_start j with
  | None => ∀ c, (c < DOL_MAX_SECT)%nat → ¬ candidate seen todo c
  | Some j => (j < DOL_MAX_SECT)%nat ∧ candidate seen todo j ∧
              ∀ c, (c < DOL_MAX_SECT)%nat → candidate seen todo c → c ≠ j → copied_before j c
  end.
Proof.
  induction n as [|n IH]; intros k lowest_start j Hn Hmax Hj; cbn [lowest_section].
  { assert (k = DOL_MAX_SECT) as -> by lia. destruct j; [ | apply Hj]. by destruct Hj as (_ & ? & ? & ?). }
  destruct (Z.testbit seen (Z.of_nat k) || negb (Z.testbit todo (Z.of_nat k))) eqn:E.
  - assert (¬ candidate seen todo k) as Hnot.
    { intros [H1 H2]. by rewrite H1, H2 in E. }
    apply IH; [lia | done | ]. destruct j as [j|].
    + destruct Hj as (-> & Hjk & Hc & Hmin). split; [done | ]. split; [lia | ]. split; [done | ].
      intros c Hc' Hcand Hne. apply Hmin; try done. destruct (decide (c = k)) as [-> | ]; [done | lia].
    + destruct Hj as (-> & Hnone). split; [done | ]. intros c Hc. destruct (decide (c = k)) as [-> | ]; [done | apply Hnone; lia].
  - apply orb_false_iff in E as [E1 E2%negb_false_iff]. assert (candidate seen todo k) as Hk by done.
    destruct (Z.ltb_spec (dol_sect_address h k) lowest_start) as [Hlt | Hge]; (apply IH; [lia | done | ]).
    + split; [done | ]. split; [lia | ]. split; [done | ]. intros c Hc Hcand Hne. destruct j as [j|].
      * destruct Hj as (-> & Hjk & _ & Hmin). destruct (decide (c = j)) as [-> | Hcj]; [by left | ].
        destruct (Hmin c ltac:(lia) Hcand Hcj); left; lia.
      * destruct Hj as [_ Hnone]. by destruct (Hnone c ltac:(lia)).
    + destruct j as [j|].
      * destruct Hj as (-> & Hjk & Hc & Hmin). split; [done | ]. split; [lia | ]. split; [done | ].
        intros c Hc' Hcand Hne. destruct (decide (c = k)) as [-> | ]; [unfold copied_before; lia | apply Hmin; (done || lia)].
      * destruct Hj as (-> & _). specialize (Hmax k Hk). lia.
Qed.

(** The copy of the section [j] to the block of the segment that begins at [base]. *)
Definition paste (base : Z) (data : list byte) (j : nat) : list byte :=
  overwrite data (Z.to_nat (dol_sect_address h j - base))
    (take (Z.to_nat (dol_sect_size h j)) (drop (Z.to_nat (dol_sect_offset h j)) buf)).

(** The sections that are in use lie in the file. *)
Definition in_file : Prop := ∀ k, (k < DOL_MAX_SECT)%nat → dol_sect_size h k ≠ 0 →
  0 ≤ dol_sect_offset h k ∧ dol_sect_offset h k + dol_sect_size h k ≤ Z.of_nat (length buf).

Definition bits (todo : Z) (k : nat) : Prop := Z.testbit todo (Z.of_nat k) = true.

Lemma length_paste base s data j : in_file → wf_seg s → base = start s →
  section_in h s j → (j < DOL_MAX_SECT)%nat → 0 < dol_sect_size h j → Z.of_nat (length data) = size s →
  length (paste base data j) = length data.
Proof.
  intros Hf Hw -> (Hu & Hlo & Hhi) Hj Hpos Hl. destruct (Hf j Hj Hu) as [Ho He].
  unfold paste. apply length_overwrite. rewrite length_take, length_drop. lia.
Qed.

(** One copy: neither the read nor the write goes out of bounds. *)
Lemma copy_one s data j : in_file → wf_seg s → section_in h s j → (j < DOL_MAX_SECT)%nat → 0 < dol_sect_size h j →
  Z.of_nat (length data) = size s →
  read_at buf (dol_sect_offset h j) (dol_sect_size h j)
    = Ret (take (Z.to_nat (dol_sect_size h j)) (drop (Z.to_nat (dol_sect_offset h j)) buf)) ∧
  write_at data (u32 (dol_sect_address h j - start s))
    (take (Z.to_nat (dol_sect_size h j)) (drop (Z.to_nat (dol_sect_offset h j)) buf)) = Ret (paste (start s) data j).
Proof.
  intros Hf [Hw1 Hw2 Hw3 _ _] (Hu & Hlo & Hhi) Hj Hpos Hdata. destruct (Hf j Hj Hu) as [Ho He].
  unfold ppc_PAGE_SIZE in *. split; [apply read_at_Ret; split_and!; (done || lia) | ].
  rewrite u32_small by lia. apply write_at_Ret. rewrite length_take, length_drop. split_and!; (done || lia).
Qed.

(** [seen] has the sections of [ds], all of them among those of [todo]. *)
Definition seen_are (todo seen : Z) (ds : list nat) : Prop :=
  (∀ z, 0 ≤ z → Z.testbit seen z = true ↔ Z.to_nat z ∈ ds) ∧ ∀ k, k ∈ ds → bits todo k.

Lemma seen_all todo seen ds : seen_are todo seen ds → (∀ k, bits todo k → k ∈ ds) → seen = todo.
Proof.
  intros [Hseen Hds] Hall. apply Z.bits_inj'. intros z Hz. apply eq_true_iff_eq. rewrite Hseen by done. split.
  - intros Hb%Hds. unfold bits in Hb. by rewrite Z2Nat.id in Hb.
  - intros Hb. apply Hall. unfold bits. by rewrite Z2Nat.id.
Qed.

Lemma seen_not todo seen ds k : seen_are todo seen ds → Z.testbit seen (Z.of_nat k) = false ↔ k ∉ ds.
Proof.
  intros [Hseen _]. rewrite <- not_true_iff_false, Hseen, Nat2Z.id by lia. done.
Qed.

Lemma seen_add todo seen ds j : seen_are todo seen ds → bits todo j →
  seen_are todo (Z.lor seen (Z.shiftl 1 (Z.of_nat j))) (ds ++ [j]).
Proof.
  intros [Hseen Hds] Hj. split.
  - intros z Hz. rewrite Z.lor_spec, orb_true_iff, Hseen, elem_of_app, list_elem_of_singleton by done.
    change (Z.shiftl 1 (Z.of_nat j)) with (sects_bitmap (section_segment h j)). rewrite bit_of_section by done.
    split; (intros [? | ?]; [by left | right; lia]).
  - intros k [Hk | ->%list_elem_of_singleton]%elem_of_app; [by apply Hds | done].
Qed.

(** Without fuel all sections have been seen. *)
Lemma seen_full todo seen ds : seen_are todo seen ds → (∀ k, bits todo k → (k < DOL_MAX_SECT)%nat) →
  NoDup ds → length ds = DOL_MAX_SECT → seen = todo.
Proof.
  intros Hs Hlt Hnd Hlen. apply (seen_all _ _ ds Hs). intros k Hk.
  destruct (decide (k ∈ ds)) as [ | Hnot]; [done | exfalso].
  assert (length (k :: ds) ≤ length (seq 0 DOL_MAX_SECT))%nat as Hle.
  { apply NoDup_incl_length; [by apply NoDup_ListNoDup, NoDup_cons | ].
    intros x [<- | Hx]; apply in_seq; [specialize (Hlt k Hk); lia | ].
    apply list_elem_of_In, Hs, Hlt in Hx. lia. }
  rewrite length_seq in Hle. simpl in Hle. lia.
Qed.

Section segment.
Context (s : dol_segment) (Hf : in_file) (Hw : wf_seg s).
Context (Hbits : ∀ k, bits (sects_bitmap s) k → (k < DOL_MAX_SECT)%nat ∧ section_in h s k ∧ 0 < dol_sect_size h k).

(** The section that is copied next. *)
Lemma next_section seen ds : seen_are (sects_bitmap s) seen ds → seen ≠ sects_bitmap s →
  ∃ j, lowest_section DOL_MAX_SECT 0 h seen (sects_bitmap s) 0xffffffff None = Some j ∧
    bits (sects_bitmap s) j ∧ j ∉ ds ∧ ∀ c, bits (sects_bitmap s) c → c ∉ ds → c ≠ j → copied_before j c.
Proof.
  intros Hs Hne.
  assert (∀ c, candidate seen (sects_bitmap s) c ↔ bits (sects_bitmap s) c ∧ c ∉ ds) as Hcand
    by (intros c; unfold candidate; by rewrite (seen_not _ _ _ _ Hs)).
  pose proof (lowest_section_spec seen (sects_bitmap s) DOL_MAX_SECT 0 0xffffffff None) as Hlow.
  assert (∀ c, candidate seen (sects_bitmap s) c → dol_sect_address h c < 0xffffffff) as Hmax.
  { intros c [Hc _]%Hcand. destruct (Hbits c Hc) as (_ & (_ & _ & He) & Hp). destruct Hw. unfold ppc_PAGE_SIZE in *. lia. }
  destruct (lowest_section DOL_MAX_SECT 0 h seen (sects_bitmap s) 0xffffffff None) as [j|].
  - destruct Hlow as (_ & [Hj Hjd]%Hcand & Hmin); [done | done | split; [done | intros c Hc; lia] | ].
    exists j. split_and!; [done | done | done | ]. intros c Hc Hcd Hcj. destruct (Hbits c Hc) as [Hlt _].
    apply Hmin; [done | by apply Hcand | done].
  - exfalso. apply Hne, (seen_all _ _ ds Hs). intros k Hk. destruct (decide (k ∈ ds)) as [ | Hnot]; [done | exfalso].
    destruct (Hbits k Hk) as [Hlt _]. refine (Hlow _ _ _ k Hlt _); [done | done | split; [done | intros c Hc; lia] | by apply Hcand].
Qed.

Lemma copy_sections_spec : ∀ fuel ds seen data,
  (length ds + fuel = DOL_MAX_SECT)%nat → NoDup ds → seen_are (sects_bitmap s) seen ds →
  Z.of_nat (length data) = size s →
  ∃ rest, copy_sections fuel h buf s seen data = Ret (foldl (paste (start s)) data rest) ∧
    StronglySorted copied_before rest ∧ (∀ k, k ∈ ds ++ rest ↔ bits (sects_bitmap s) k) ∧ (∀ k, k ∈ rest → k ∉ ds).
Proof.
  induction fuel as [|fuel IH]; intros ds seen data Hlen Hnd Hs Hdata; cbn [copy_sections].
  all: destruct (Z.eqb_spec seen (sects_bitmap s)) as [Es | Hne].
  1,3: exists []; split_and!; [done | constructor | | by intros k Hk%elem_of_nil];
    intros k; rewrite app_nil_r; split; [by apply Hs | ]; intros Hk; rewrite <- (Nat2Z.id k); apply Hs; [lia | ]; by rewrite Es.
  { destruct Hne. apply (seen_full _ _ ds Hs); [intros k Hk; by apply Hbits | done | lia]. }
  destruct (next_section seen ds Hs Hne) as (j & -> & Hj & Hjd & Hmin).
  destruct (Hbits j Hj) as (Hlt & Hin & Hsz). destruct (copy_one s data j) as [-> Hcopy]; [done.. | ].
  rewrite bind_Ret_l, Hcopy, bind_Ret_l.
  destruct (IH (ds ++ [j]) (Z.lor seen (Z.shiftl 1 (Z.of_nat j))) (paste (start s) data j)) as (rest & Hrun & Hsort & Hall & Hnew).
  - rewrite length_app. simpl. lia.
  - apply NoDup_app. split; [done | ]. split; [ | apply NoDup_singleton]. by intros x Hx ->%list_elem_of_singleton.
  - by apply seen_add.
  - by rewrite (length_paste _ s).
  - exists (j :: rest). split; [exact Hrun | ]. split; [ | split].
    + constructor; [done | ]. apply Forall_forall. intros c Hc. pose proof (Hnew c Hc) as Hcd.
      rewrite elem_of_app, list_elem_of_singleton in Hcd. apply Hmin; [ | tauto | tauto].
      apply Hall, elem_of_app. by right.
    + intros k. rewrite <- Hall, <- app_assoc. done.
    + intros k [-> | Hk]%elem_of_cons; [done | ]. intros Hx. apply (Hnew k Hk), elem_of_app. by left.
Qed.
End segment.
End copy.

(** ** What a segment holds *)

Section content.
Context (h : dol_header) (buf : list byte).

Definition covers (k : nat) (a : Z) : Prop :=
  dol_sect_size h k ≠ 0 ∧ dol_sect_address h k ≤ a < dol_sect_address h k + dol_sect_size h k.

(** The section that has the byte at the address [a]: the last, in the order of the copies,
    of those that cover it. *)
Definition owner (k : nat) (a : Z) : Prop :=
  (k < DOL_MAX_SECT)%nat ∧ covers k a ∧
  ∀ j, (j < DOL_MAX_SECT)%nat → covers j a → j ≠ k → copied_before h j k.

(** The byte that the section [k] has at [a]. *)
Definition file_byte (k : nat) (a : Z) : option byte :=
  buf !! Z.to_nat (dol_sect_offset h k + (a - dol_sect_address h k)).

(** A section that can be copied to a block of [size] bytes for the addresses from [base] on. *)
Definition section_fits (base size : Z) (j : nat) : Prop :=
  (j < DOL_MAX_SECT)%nat ∧ 0 < dol_sect_size h j ∧ base ≤ dol_sect_address h j ∧
  dol_sect_address h j + dol_sect_size h j ≤ base + size.

Lemma length_section j : in_file h buf → (j < DOL_MAX_SECT)%nat → 0 < dol_sect_size h j →
  length (take (Z.to_nat (dol_sect_size h j)) (drop (Z.to_nat (dol_sect_offset h j)) buf)) = Z.to_nat (dol_sect_size h j).
Proof. intros Hf Hj Hp. destruct (Hf j Hj) as [? ?]; [lia | ]. rewrite length_take, length_drop. lia. Qed.

Lemma paste_lookup base size data j a : in_file h buf → section_fits base size j → Z.of_nat (length data) = size →
  base ≤ a < base + size →
  Z.of_nat (length (paste h buf base data j)) = size ∧
  (covers j a → paste h buf base data j !! Z.to_nat (a - base) = file_byte j a) ∧
  (¬ covers j a → paste h buf base data j !! Z.to_nat (a - base) = data !! Z.to_nat (a - base)).
Proof.
  intros Hf (Hj & Hp & Hlo & Hhi) Hl Ha. pose proof (length_section j Hf Hj Hp) as Hs.
  destruct (Hf j Hj ltac:(lia)) as [Ho He]. unfold paste, overwrite. rewrite Hs. split; [ | split].
  - rewrite !length_app, Hs, length_take, length_drop. lia.
  - intros (_ & Hc1 & Hc2). rewrite lookup_app_r by (rewrite length_take; lia).
    rewrite length_take, Nat.min_l by lia. rewrite lookup_app_l by (rewrite Hs; lia).
    rewrite lookup_take_lt by lia. rewrite lookup_drop. unfold file_byte. f_equal. lia.
  - intros Hc. assert (a < dol_sect_address h j ∨ dol_sect_address h j + dol_sect_size h j ≤ a) as [Hc' | Hc'].
    { unfold covers in Hc. lia. }
    + rewrite lookup_app_l by (rewrite length_take; lia). by rewrite lookup_take_lt by lia.
    + rewrite app_assoc, lookup_app_r by (rewrite length_app, Hs, length_take; lia).
      rewrite length_app, Hs, length_take, lookup_drop, Nat.min_l by lia. f_equal. lia.
Qed.

Lemma before_asym j k : copied_before h j k → ¬ copied_before h k j.
Proof. unfold copied_before. lia. Qed.

Lemma pastes_lookup base size k a : in_file h buf → base ≤ a < base + size → owner k a →
  ∀ rest data, Z.of_nat (length data) = size → StronglySorted (copied_before h) rest → Forall (section_fits base size) rest →
  (k ∈ rest ∨ data !! Z.to_nat (a - base) = file_byte k a ∧ Forall (λ j, ¬ covers j a) rest) →
  foldl (paste h buf base) data rest !! Z.to_nat (a - base) = file_byte k a.
Proof.
  intros Hf Ha (Hk & Hck & Hown). induction rest as [|j rest IH]; intros data Hl Hs Hfit Hor; cbn [foldl].
  { destruct Hor as [Hx%elem_of_nil | [Hx _]]; done. }
  inversion_clear Hs. inversion_clear Hfit. destruct (paste_lookup base size data j a) as (Hlp & Hin & Hout); [done.. | ].
  apply IH; [done.. | ]. destruct Hor as [[-> | Hx]%elem_of_cons | [Hx Hn]].
  - right. split; [by apply Hin | ]. rewrite !Forall_forall in *. intros c Hc Hcov.
    assert (copied_before h j c) as Hjc by auto. assert (section_fits base size c) as (Hclt & _) by auto.
    destruct (decide (c = j)) as [-> | Hne]; [by apply (before_asym j j) | ].
    by apply (before_asym j c), Hown.
  - by left.
  - right. inversion_clear Hn. split; [ | done]. by rewrite Hout.
Qed.

Lemma length_copy fuel : ∀ s seen data d,
  copy_sections fuel h buf s seen data = Ret d → length d = length data.
Proof.
  induction fuel as [|fuel IH]; intros s seen data d; cbn [copy_sections]; (destruct (_ =? _); [by intros [= ->] | ]); [done | ].
  destruct (lowest_section _ _ _ _ _ _ _); [ | done]. intros (sec & _ & Hr)%bind_Ret.
  apply bind_Ret in Hr as (x & (H1 & H2 & ->)%write_at_Ret & Hr). apply IH in Hr. rewrite Hr. apply length_overwrite. lia.
Qed.

(** The block of a segment has at every address the byte of the section that owns it. *)
Lemma segment_content s segs i raw d k a :
  in_file h buf → good_header h → holds_sections h segs → seg_at segs i = s → live s →
  Z.of_nat (length raw) = size s → copy_sections DOL_MAX_SECT h buf s 0 raw = Ret d →
  owner k a → Z.testbit (sects_bitmap s) (Z.of_nat k) = true →
  start s ≤ a < start s + size s ∧ d !! Z.to_nat (a - start s) = file_byte k a.
Proof.
  intros Hf Hg Hh <- Hlive Hl Hr Hown Hbit. pose proof (slot_live _ (h_slots _ _ Hh i) Hlive) as Hw.
  set (s := seg_at segs i) in *. pose proof (h_bits _ _ Hh i) as Hbits. fold s in Hbits.
  assert (∀ c, bits (sects_bitmap s) c → section_fits (start s) (size s) c) as Hfit.
  { intros c Hc. destruct (Hbits (Z.of_nat c) ltac:(lia) Hc) as [Hlt (Hu & Hlo & Hhi)]. rewrite Nat2Z.id in *.
    destruct (Hg c ltac:(lia) Hu) as (_ & Hp & _). split; [lia | done]. }
  assert (start s ≤ a < start s + size s) as Ha.
  { destruct (Hfit k Hbit) as (_ & _ & ? & ?). destruct Hown as (_ & (_ & ?) & _). lia. }
  split; [done | ].
  destruct (copy_sections_spec h buf s Hf Hw) with (fuel := DOL_MAX_SECT) (ds := @nil nat) (seen := 0) (data := raw)
    as (rest & Hrun & Hsort & Hall & _).
  - intros c Hc. destruct (Hbits (Z.of_nat c) ltac:(lia) Hc) as [_ Hin]. rewrite Nat2Z.id in Hin. destruct (Hfit c Hc). tauto.
  - done.
  - constructor.
  - split; [intros z Hz; rewrite Z.testbit_0_l; split; [done | by intros ?%elem_of_nil] | by intros c ?%elem_of_nil].
  - done.
  - rewrite Hrun in Hr. apply Ret_inj in Hr. subst d. cbn [app] in Hall.
    eapply (pastes_lookup _ (size s)); [done | lia | done | done | done | | left; by apply Hall].
    apply Forall_forall. intros c Hc. by apply Hfit, Hall.
Qed.
End content.

(** ** The load *)

Section loaded.
Context (garbage : list byte) (lay : layout) (h : dol_header) (buf : list byte).
Implicit Types m : mem.

(** The blocks of the memory stay. *)
Definition blocks_kept m m' : Prop := ∀ b l, m !! b = Some l → m' !! b = Some l.

(** The segment [s] of the file is loaded: a block of its size has its sections. *)
Definition seg_loaded (m' : mem) (segs : list kexec_segment) (s : dol_segment) : Prop :=
  ∃ p d, loaded_at segs p (size s) (physical (start s)) ∧ p_off p = 0 ∧ m' !! p_blk p = Some d ∧
    copy_sections DOL_MAX_SECT h buf s 0 (ppc_xmalloc garbage (size s)) = Ret d.

Lemma seg_loaded_mono m m' segs segs' s :
  blocks_kept m m' → segs ⊆ segs' → seg_loaded m segs s → seg_loaded m' segs' s.
Proof.
  intros Hm Hs (p & d & Hl & Hp & Hb & Hc). exists p, d. split; [by eapply loaded_at_mono | ]. auto.
Qed.

Lemma alloc_kept m l : blocks_kept m (alloc m l).1.
Proof. intros b l' Hb. by apply alloc_fresh. Qed.

(** A store to a new block. *)
Lemma store_new_kept m raw d m' : store (alloc m raw).1 (alloc m raw).2 d = Ret m' → blocks_kept m m'.
Proof.
  intros (l & _ & _ & _ & ->)%store_Ret b l' Hb. rewrite lookup_insert_ne; [by apply alloc_fresh | ].
  intros <-. apply (is_fresh (dom m)). by apply elem_of_dom_2 in Hb.
Qed.

Lemma store_new m raw d m' : length d = length raw →
  store (alloc m raw).1 (alloc m raw).2 d = Ret m' →
  blocks_kept m m' ∧ m' !! p_blk (alloc m raw).2 = Some d.
Proof.
  intros Hd Hst. split; [by eapply store_new_kept | ]. apply store_Ret in Hst as (l & Hl & _ & _ & ->).
  rewrite alloc_lookup in Hl. simplify_eq.
  change (Z.to_nat (p_off (alloc m l).2)) with 0%nat. by rewrite overwrite_full, lookup_insert_eq.
Qed.

Lemma load_segments_spec : ∀ dol_segs m segs m' segs',
  load_segments garbage lay h buf dol_segs m segs = Ret (m', segs') →
  blocks_kept m m' ∧ segs ⊆ segs' ∧ Forall (λ s, live s → seg_loaded m' segs' s) dol_segs.
Proof.
  induction dol_segs as [|s l IH]; intros m segs m' segs'; cbn [load_segments].
  { intros [= <- <-]. split; [by intros ? | ]. split; [done | constructor]. }
  destruct (Z.eqb_spec (size s) 0) as [E | E].
  { intros (Hk & Hs & Hall)%IH. split; [done | ]. split; [done | ]. constructor; [ | done]. intros Hl. by destruct Hl. }
  set (raw := ppc_xmalloc garbage (size s)). rewrite (surjective_pairing (alloc m raw)).
  intros (segs1 & Ha & Hr)%bind_Ret. apply bind_Ret in Hr as (d & Hc & Hr). apply bind_Ret in Hr as (m1 & Hm & Hr).
  pose proof (length_copy _ _ _ _ _ _ _ Hc) as Hd. apply store_new in Hm as [Hk1 Hb]; [ | done].
  apply add_segment_in in Ha as [Hs1 Hl]. apply IH in Hr as (Hk & Hs & Hall).
  split; [by intros b x Hx; apply Hk, Hk1 | ]. split; [by etrans | ]. constructor; [ | done].
  intros _. apply (seg_loaded_mono m1 m' segs1 segs'); [done.. | ]. exists (alloc m raw).2, d. auto.
Qed.
End loaded.

(** ** The argument block *)

Lemma write_at_right (a b d : list byte) off :
  0 ≤ off → write_at (a ++ b) (Z.of_nat (length a) + off) d = (b' ← write_at b off d; mret (a ++ b')).
Proof.
  intros Ho. unfold write_at. rewrite length_app, (proj2 (Z.leb_le 0 _)), (proj2 (Z.leb_le 0 off)) by lia. cbn [andb].
  destruct (Z.leb_spec (off + Z.of_nat (length d)) (Z.of_nat (length b))).
  - rewrite (proj2 (Z.leb_le _ _)) by lia. rewrite bind_Ret_l. cbn. f_equal. unfold overwrite.
    rewrite Z2Nat.inj_add, Nat2Z.id by lia. rewrite take_app_add, <- app_assoc. f_equal. f_equal.
    rewrite <- Nat.add_assoc. by rewrite drop_app_add.
  - by rewrite (proj2 (Z.leb_gt _ _)) by lia.
Qed.

Lemma write_at_length l off d l' : write_at l off d = Ret l' → length l' = length l.
Proof. intros (? & ? & ->)%write_at_Ret. apply length_overwrite. lia. Qed.

Lemma write_at_left (a b d : list byte) : (length d ≤ length a)%nat →
  write_at (a ++ b) 0 d = Ret (overwrite a 0 d ++ b).
Proof.
  intros Hd. apply write_at_Ret. rewrite length_app. split; [lia | ]. split; [lia | ].
  unfold overwrite. rewrite !take_0, drop_app_le by (simpl; lia). cbn [app]. by rewrite <- app_assoc.
Qed.

Lemma up4_spec n : 0 ≤ n < 2 ^ 32 - 3 → ppc_up4 n = round_up n 4 ∧ n ≤ ppc_up4 n ≤ n + 3.
Proof.
  intros Hn. assert (ppc_up4 n = round_up n 4) as E.
  { unfold ppc_up4. rewrite u32_small by lia. unfold round_up. replace (n + 4 - 1) with (n + 3) by lia.
    apply (land_notw_pow2 32 _ 4); [done | by exists 2 | lia]. }
  split; [done | ]. rewrite E. pose proof (round_up_spec n 4 ltac:(done)). lia.
Qed.

Section arguments.
Context (version setup cmd : list byte).

(** The block that an ELF executable gets is the setup code, padded to four bytes, and
    the boot notes as [elf_boot_notes] would fill them. *)
Lemma elf_ppc_arguments_fill a b :
  Z.of_nat (length a) = ppc_up4 (Z.of_nat (length setup)) → (length setup ≤ length a)%nat →
  elf_ppc_arguments version setup cmd (a ++ b) (Z.of_nat (length b))
  = (notes ← fill_boot_notes version cmd b; mret (overwrite a 0 setup ++ notes)).
Proof.
  intros Ha Hs. unfold elf_ppc_arguments, elf_ppc_boot_notes, fill_boot_notes. cbv zeta. rewrite <- Ha.
  rewrite write_at_left by done. rewrite bind_Ret_l.
  assert (length (overwrite a 0 setup) = length a) as Hl by (apply length_overwrite; lia).
  set (x := overwrite a 0 setup) in *. rewrite <- Hl.
  assert (0 ≤ sizeof_boot_notes version - 8) as Hsz by (unfold sizeof_boot_notes; lia).
  rewrite <- (Z.add_0_r (Z.of_nat (length x))) at 1. rewrite write_at_right by lia.
  destruct (write_at b 0 _) as [b1 | | | ] eqn:E1; [ | done..]. rewrite !bind_Ret_l.
  rewrite write_at_right by lia. destruct (write_at b1 _ cmd) as [b2 | | | ] eqn:E2; [ | done..]. rewrite !bind_Ret_l.
  rewrite write_at_right by lia. destruct (write_at b2 4 _) as [b3 | | | ] eqn:E3; [ | done..]. rewrite !bind_Ret_l.
  rewrite <- Z.add_sub_assoc, write_at_right by lia.
  destruct (write_at b3 _ _) as [b4 | | | ] eqn:E4; [ | done..]. rewrite !bind_Ret_l.
  assert (length b4 = length b) as Hb.
  { apply write_at_length in E1, E2, E3, E4. congruence. }
  assert (read_at (x ++ b4) (Z.of_nat (length x)) (Z.of_nat (length b)) = Ret b4) as ->.
  { apply read_at_Ret. rewrite length_app, !Nat2Z.id, drop_app_length, take_ge by lia. split_and!; [lia.. | done]. }
  rewrite bind_Ret_l. destruct (compute_ip_checksum false b4); [ | done..]. rewrite !bind_Ret_l.
  rewrite write_at_right by lia. done.
Qed.

Lemma elf_ppc_arguments_sealed raw note_bytes arg :
  let notes := ppc_up4 (Z.of_nat (length setup)) in
  Z.of_nat (length setup) < 2 ^ 32 - 3 → 0 ≤ note_bytes → Z.of_nat (length raw) = notes + note_bytes →
  elf_ppc_arguments version setup cmd raw note_bytes = Ret arg →
  ∃ gap pad c, let block := notes_block version cmd pad c in
    arg = setup ++ gap ++ block ∧ Z.of_nat (length (setup ++ gap)) = notes ∧
    Z.of_nat (length block) = note_bytes ∧ compute_ip_checksum false block = Ret 0.
Proof.
  intros notes Hs Hn Hl Hr. destruct (up4_spec (Z.of_nat (length setup))) as [_ Hup]; [lia | ]. fold notes in Hup.
  set (a := take (Z.to_nat notes) raw). set (b := drop (Z.to_nat notes) raw).
  assert (Z.of_nat (length a) = notes) as Ha by (unfold a; rewrite length_take; lia).
  assert (Z.of_nat (length b) = note_bytes) as Hb by (unfold b; rewrite length_drop; lia).
  rewrite <- (take_drop (Z.to_nat notes) raw) in Hr. fold a b in Hr. rewrite <- Hb, elf_ppc_arguments_fill in Hr by (done || lia).
  apply bind_Ret in Hr as (block & Hf & Hr). apply Ret_inj in Hr. subst arg.
  apply fill_boot_notes_sealed in Hf as (Hlen & pad & c & -> & Hsum).
  exists (drop (length setup) a), pad, c. cbv zeta. unfold overwrite. rewrite take_0. cbn [app]. rewrite <- app_assoc.
  split; [done | ]. split; [rewrite length_app, length_drop; lia | ]. split; [by rewrite Hlen | done].
Qed.

(** The notes that the loader of DOL files hands over are the template: the size and
    the checksum that it has computed, and the length of the command line, are lost. *)
Lemma dol_arguments_template setup_dol regs raw entry note_bytes arg :
  let notes := ppc_up4 (Z.of_nat (length setup_dol)) in
  0 ≤ notes → dol_arguments version setup_dol regs cmd raw entry note_bytes = Ret arg →
  read_at arg notes (sizeof_boot_notes version + Z.of_nat (length cmd)) = Ret (boot_notes version ++ cmd).
Proof.
  intros notes Hn. unfold dol_arguments, dol_boot_notes. cbv zeta. fold notes.
  intros (x1 & _ & Hr)%bind_Ret. do 6 apply bind_Ret in Hr as (? & _ & Hr).
  apply bind_Ret in Hr as (y & (_ & Hy & ->)%write_at_Ret & (_ & Hz & ->)%write_at_Ret).
  assert (Z.of_nat (length (boot_notes version)) = sizeof_boot_notes version) as Hb
    by (unfold boot_notes; rewrite length_app, Nat2Z.inj_add, length_records, length_Bhdr; lia).
  rewrite length_overwrite in Hz by lia. rewrite <- Hb in *.
  apply read_at_Ret. rewrite length_overwrite by (rewrite length_overwrite; lia). rewrite length_overwrite by lia.
  split_and!; [lia | lia | lia | ].
  replace (Z.to_nat (Z.of_nat (length (boot_notes version)) + Z.of_nat (length cmd))) with (length (boot_notes version) + length cmd)%nat by lia.
  rewrite Z2Nat.inj_add, !Nat2Z.id by lia. symmetry.
  rewrite <- (take_drop (Z.to_nat notes + length (boot_notes version) + length cmd)%nat (overwrite (overwrite _ _ _) _ _)).
  rewrite take_overwrite by (rewrite length_overwrite; lia). rewrite take_overwrite by lia.
  rewrite <- !app_assoc, drop_app_length' by (rewrite length_take; lia).
  rewrite app_assoc. rewrite take_app_length' by (rewrite length_app; lia). done.
Qed.
End arguments.

(** ** The probe *)

Section probe.
Context (h : dol_header) (dol_length : Z).

Definition sect_ok (k : nat) : Prop :=
  (dol_sect_offset h k = 0 ∨ DOL_HEADER_SIZE ≤ dol_sect_offset h k) ∧
  u32 (dol_sect_offset h k + dol_sect_size h k) ≤ dol_length.

Definition entry_inside (k : nat) : Prop :=
  (k < DOL_SECT_MAX_TEXT)%nat ∧
  dol_sect_address h k ≤ entry_point h < u32 (dol_sect_address h k + dol_sect_size h k).

Lemma probe_loop_spec : ∀ n i valid,
  match probe_loop n i h dol_length valid with
  | Some v => (∀ k, (i ≤ k < i + n)%nat → sect_ok k) ∧
              (v = true ↔ valid = true ∨ ∃ k, (i ≤ k < i + n)%nat ∧ entry_inside k)
  | None => ∃ k, (i ≤ k < i + n)%nat ∧ ¬ sect_ok k
  end.
Proof.
  induction n as [|n IH]; intros i valid; cbn [probe_loop].
  { split; [intros k Hk; lia | ]. split; [by left | ]. intros [? | (k & Hk & _)]; [done | lia]. }
  destruct (negb (dol_sect_offset h i =? 0) && (dol_sect_offset h i <? DOL_HEADER_SIZE)) eqn:E1.
  { exists i. split; [lia | ]. intros [Ho _]. zbool. lia. }
  destruct (Z.ltb_spec dol_length (u32 (dol_sect_offset h i + dol_sect_size h i))) as [Hlt | Hge].
  { exists i. split; [lia | ]. intros [_ Ho]. lia. }
  assert (sect_ok i) as Hi.
  { split; [ | done]. apply andb_false_iff in E1 as [E1%negb_false_iff%Z.eqb_eq | E1%Z.ltb_ge]; [by left | by right]. }
  match goal with |- context [probe_loop n (S i) h dol_length ?v] => specialize (IH (S i) v);
    destruct (probe_loop n (S i) h dol_length v) as [w|] end.
  - destruct IH as [Hok Hv]. split.
    { intros k Hk. destruct (decide (k = i)) as [-> | ]; [done | apply Hok; lia]. }
    rewrite Hv, orb_true_iff, !andb_true_iff, Nat.ltb_lt, Z.leb_le, Z.ltb_lt. unfold entry_inside. split.
    + intros [[? | ?] | (k & Hk & Hin)]; [by left | right; exists i; split; [lia | tauto] | right; exists k; split; [lia | done]].
    + intros [? | (k & Hk & Hin)]; [by do 2 left | ]. destruct (decide (k = i)) as [-> | ]; [left; right; tauto | ].
      right. exists k. split; [lia | done].
  - destruct IH as (k & Hk & Hno). exists k. split; [lia | done].
Qed.
End probe.

(** The header of a file. *)
Definition header_of (buf : list byte) : dol_header := dol_header_of (take (Z.to_nat sizeof_dol_header) buf).

Lemma read_header buf : DOL_HEADER_SIZE ≤ Z.of_nat (length buf) →
  read_at buf 0 sizeof_dol_header = Ret (take (Z.to_nat sizeof_dol_header) buf).
Proof.
  intros Hl. apply read_at_Ret. rewrite drop_0. unfold DOL_HEADER_SIZE, sizeof_dol_header in *. split_and!; [lia.. | done].
Qed.

(** The probe accepts a file of at least 256 bytes whose sections begin at 0 or after
    the header and end, modulo 2^32, in the file, and whose entry point is in one of
    the seven text sections; it rejects all others and never fails. *)
Theorem dol_ppc_probe_accepts buf :
  let h := header_of buf in let n := Z.of_nat (length buf) in
  (dol_ppc_probe buf = Ret 0 ↔
   DOL_HEADER_SIZE ≤ n ∧ (∀ k, (k < DOL_MAX_SECT)%nat → sect_ok h n k) ∧ ∃ k, entry_inside h k) ∧
  (dol_ppc_probe buf = Ret 0 ∨ dol_ppc_probe buf = Ret (-1)).
Proof.
  intros h n. unfold dol_ppc_probe. fold n.
  destruct (Z.ltb_spec n DOL_HEADER_SIZE) as [Hlt | Hge]; [split; [split; [done | intros [? _]; lia] | by right] | ].
  rewrite read_header, bind_Ret_l by done. fold h.
  pose proof (probe_loop_spec h n DOL_MAX_SECT 0 false) as Hp. fold (header_of buf). fold h.
  destruct (probe_loop DOL_MAX_SECT 0 h n false) as [[]|].
  - destruct Hp as [Hok Hv]. split; [ | by left]. split; [ | done]. intros _. split; [done | ]. split; [intros k Hk; apply Hok; lia | ].
    destruct (proj1 Hv eq_refl) as [? | (k & _ & ?)]; [done | by exists k].
  - destruct Hp as [Hok Hv]. split; [ | by right]. split; [done | ]. intros (_ & _ & k & Hk).
    assert (false = true); [ | done]. apply Hv. right. exists k. split; [ | done]. destruct Hk. unfold DOL_SECT_MAX_TEXT, DOL_MAX_SECT in *. simpl. lia.
  - destruct Hp as (k & Hk & Hno). split; [ | by right]. split; [done | ]. intros (_ & Hok & _). destruct Hno. apply Hok. lia.
Qed.

(** C11: For sections above 2 GiB the merging of segments, which starts over when it deletes
    one, ends: what it leaves are segments of whole pages, no two of them overlapping, and
    every section that is in use lies in one of them. *)
Theorem dol_segments_apart h :
  good_header h →
  ∃ segs, dol_segments h = Ret segs ∧ length segs = DOL_MAX_SECT ∧ holds_sections h segs ∧ segments_apart DOL_MAX_SECT segs.
Proof. apply dol_segments_spec. Qed.

(** ** The loaders *)

Section loaders.
Context (garbage version : list byte) (opts : list (Z * list byte)).
Context (setup_dol : list byte) (setup_dol_regs : Z) (setup_simple : list byte) (setup_simple_regs : Z).

(** C9: Loading a DOL file whose sections lie above 2 GiB and in the file, every byte of
    every section is in the block of a segment, at its physical address, unless a
    section that begins later covers it, whose byte is there. *)
Theorem dol_ppc_load_places lay argv buf kbuf m info m' info' :
  let h := header_of buf in
  good_header h → in_file h buf →
  dol_ppc_load garbage version opts setup_dol setup_dol_regs lay argv buf kbuf m info = Ret (0, m', info') →
  segment info ⊆ segment info' ∧
  ∀ k a, owner h k a → ∃ s d base,
    s ∈ segment info' ∧ seg_mem s = physical base ∧ base ≤ a < base + seg_bufsz s ∧
    p_off (seg_buf s) = 0 ∧ m' !! p_blk (seg_buf s) = Some d ∧ d !! Z.to_nat (a - base) = file_byte h buf k a.
Proof.
  intros h Hg Hf. unfold dol_ppc_load. destruct (fold_options _ _ _) as [o|]; [ | done].
  intros (hd & (_ & _ & Hhd & ->)%read_at_Ret & Hr)%bind_Ret. rewrite drop_0 in Hr. fold (header_of buf) in Hr. fold h in Hr.
  destruct (dol_segments_spec h Hg) as (segs & Hsegs & Hlen & Hh & _). rewrite Hsegs, bind_Ret_l in Hr.
  apply bind_Ret in Hr as ([m1 segs1] & (Hk1 & Hs1 & Hall)%load_segments_spec & Hr). cbv zeta in Hr.
  match type of Hr with context [alloc m1 ?r] => set (raw := r) in *; rewrite (surjective_pairing (alloc m1 raw)) in Hr end.
  apply bind_Ret in Hr as ([base segs2] & Hs2%add_buffer_sub & Hr). apply bind_Ret in Hr as (arg & _ & Hr).
  apply bind_Ret in Hr as (m2 & Hk2%store_new_kept & Hr). apply Ret_inj in Hr. simplify_eq. cbn [segment].
  split; [by etrans | ]. intros k a Hown. pose proof Hown as (Hk & (Hu & _) & _).
  destruct (h_all _ _ Hh k Hk Hu) as (i & Hi & Hbit).
  assert (live (seg_at segs i)) as Hlive.
  { destruct (h_slots _ _ Hh i) as [E | Hw]; [ | by apply wf_live]. rewrite E, Z.testbit_0_l in Hbit. done. }
  rewrite Forall_forall in Hall. destruct (Hall (seg_at segs i)) as (p & d & (s & Hs & Hb & Hsz & Hmem) & Hp & Hd & Hc); [ | done | ].
  { unfold seg_at. by apply list_elem_of_In, nth_In. }
  destruct (segment_content h buf (seg_at segs i) segs i (ppc_xmalloc garbage (size (seg_at segs i))) d k a) as [Ha Hl]; try done.
  { unfold ppc_xmalloc. rewrite length_resize. pose proof (ws_size _ (slot_live _ (h_slots _ _ Hh i) Hlive)). lia. }
  exists s, d, (start (seg_at segs i)). rewrite Hsz, Hb. split; [by apply Hs2 | ]. split; [done | ]. split; [done | ].
  split; [done | ]. split; [by apply Hk2 | done].
Qed.

(** The sizes of the block of arguments do not overflow. *)
Definition small_arguments (setup cmd : list byte) : Prop :=
  sizeof_boot_notes version + Z.of_nat (length cmd) + Z.of_nat (length setup) < 2 ^ 32 - 16.

Lemma elf_ppc_arguments_length setup cmd raw n arg :
  elf_ppc_arguments version setup cmd raw n = Ret arg → length arg = length raw.
Proof.
  unfold elf_ppc_arguments. cbv zeta. intros (x1 & E1%write_at_length & Hr)%bind_Ret.
  apply bind_Ret in Hr as (x2 & E2%write_at_length & Hr). apply bind_Ret in Hr as (x3 & E3%write_at_length & Hr).
  apply bind_Ret in Hr as (x4 & E4%write_at_length & Hr). apply bind_Ret in Hr as (x5 & E5%write_at_length & Hr).
  apply bind_Ret in Hr as (? & _ & Hr). apply bind_Ret in Hr as (? & _ & Hr%write_at_length). congruence.
Qed.

(** C10: Loading an ELF executable, its segments, at physical addresses for the GameCube, are
    among the segments, and the entry point is a block that has the setup code,
    which jumps to the kernel's entry, and after it the sealed boot notes with the command line. *)
Theorem elf_ppc_load_handover lay argv buf kbuf m info m' info' o :
  fold_options elf_ppc_option opts {| ep_command_line := None; ep_gamecube := true |} = Some o →
  let cmd := line_of (ep_command_line o) in
  let template := if ep_gamecube o then setup_dol else setup_simple in
  let regs := if ep_gamecube o then setup_dol_regs else setup_simple_regs in
  small_arguments template cmd →
  elf_ppc_load garbage version opts setup_dol setup_dol_regs setup_simple setup_simple_regs lay argv buf kbuf m info
    = Ret (0, m', info') →
  ∃ ehdr0, build_elf_exec_info buf kbuf = Ret (Some ehdr0) ∧
  let ehdr := if ep_gamecube o then gamecube_hack_addresses ehdr0 else ehdr0 in
  ∃ segs, elf_exec_load lay ehdr (segment info) = Ret (Some segs) ∧ segs ⊆ segment info' ∧
  ∃ p setup gap pad c, let arg := setup ++ gap ++ notes_block version cmd pad c in
    loaded_at (segment info') p (Z.of_nat (length arg)) (entry info') ∧ p_off p = 0 ∧
    m' !! p_blk p = Some arg ∧ Z.of_nat (length (setup ++ gap)) = ppc_up4 (Z.of_nat (length template)) ∧
    write_at template regs (split host_be 4 (e_entry ehdr)) = Ret setup ∧
    compute_ip_checksum false (notes_block version cmd pad c) = Ret 0.
Proof.
  intros Ho cmd template regs Hsmall. unfold elf_ppc_load. rewrite Ho. fold cmd.
  intros ([ehdr0|] & Hb & Hr)%bind_Ret; [ | done]. exists ehdr0. split; [done | ].
  set (ehdr := if ep_gamecube o then _ else ehdr0) in *. cbv zeta in *.
  apply bind_Ret in Hr as ([segs|] & Hl & Hr); [ | done]. exists segs. split; [done | ].
  apply bind_Ret in Hr as (setup & Hset & Hr).
  assert (write_at template regs (split host_be 4 (e_entry ehdr)) = Ret setup) as Hset'
    by (unfold template, regs; by destruct (ep_gamecube o)).
  pose proof (write_at_length _ _ _ _ Hset') as Hsl. unfold small_arguments in Hsmall. rewrite <- Hsl in Hsmall |- *.
  assert (48 ≤ sizeof_boot_notes version) as Hmin by (unfold sizeof_boot_notes; lia).
  destruct (up4_spec (Z.of_nat (length setup))) as [_ Hu1]; [lia | ].
  destruct (up4_spec (Z.of_nat (length cmd))) as [_ Hu2]; [lia | ].
  rewrite (u32_small (sizeof_boot_notes version + _)) in Hr by lia. set (note_bytes := sizeof_boot_notes version + _) in Hr.
  rewrite u32_small in Hr by lia. set (raw := ppc_xmalloc garbage _) in Hr.
  assert (Z.of_nat (length raw) = ppc_up4 (Z.of_nat (length setup)) + note_bytes) as Hraw
    by (unfold raw, ppc_xmalloc; rewrite length_resize; lia).
  rewrite (surjective_pairing (alloc m raw)) in Hr.
  apply bind_Ret in Hr as ([base segs2] & [Hs2 Hat]%add_buffer_in & Hr). apply bind_Ret in Hr as (arg & Harg & Hr).
  apply bind_Ret in Hr as (m2 & Hst & Hr). apply Ret_inj in Hr. simplify_eq. cbn [segment entry].
  pose proof (elf_ppc_arguments_length _ _ _ _ _ Harg) as Hal.
  apply store_new in Hst as [_ Hblk]; [ | done]. split; [done | ].
  apply elf_ppc_arguments_sealed in Harg as (gap & pad & c & -> & Hgap & Hlen & Hsum); [ | lia.. ].
  exists (alloc m raw).2, setup, gap, pad, c. split; [ | done].
  rewrite Hal, Hraw, Z.add_comm. apply Hat. lia.
Qed.
End loaders.

Module Witness.

Definition be (n : nat) (z : Z) : list byte := split true n z.
Definition words4 (l : list Z) : list byte := concat (map (be 4) l).

(** A text section of 20 bytes at [a], and a data section of 8 bytes that covers its
    last four. *)
Definition dol_at (a : Z) : list byte :=
  words4 ([256] ++ repeat 0 6 ++ [276] ++ repeat 0 10) ++ words4 ([a] ++ repeat 0 6 ++ [a + 16] ++ repeat 0 10)
  ++ words4 ([20] ++ repeat 0 6 ++ [8] ++ repeat 0 10) ++ words4 [0; 0; a] ++ repeat Byte.x00 28
  ++ bs "the text, twenty byte" ++ bs "itsdata".

Definition dol : list byte := dol_at 0x80003000.

Definition m0 : mem := {[ 1%positive := dol ]}.
Definition at_file : ptr := {| p_blk := 1; p_off := 0 |}.
Definition gamecube : layout := {| memory_ranges := ppc_memory_ranges; mem_min := 0; mem_max := ULONG_MAX |}.
Definition setup_code : list byte := repeat Byte.x60 9.

#[local] Abbreviation dol_loaded :=
  (dol_ppc_load [] (bs "1.101") [(ppc_OPT_APPEND, bs "ro")] setup_code 4 gamecube [] dol at_file m0 empty_info).

Lemma dol_loaded_ok : match dol_loaded with Ret (r, _, _) => r | _ => 1 end = 0.
Proof. vm_compute. reflexivity. Qed.

(** The table of memory is one range of RAM: where the first segment does not begin with
    it, the search for a place for the arguments writes past its array. *)
Lemma gamecube_overflow :
  let dol := dol_at 0x80004000 in
  dol_ppc_probe dol = Ret 0 ∧
  dol_ppc_load [] (bs "1.101") [] setup_code 4 gamecube [] dol at_file {[ 1%positive := dol ]} empty_info
  = UB "locate_hole writes past the end of mem_range".
Proof. split; vm_compute; reflexivity. Qed.

Definition sections_ok (h : dol_header) (buf : list byte) (k : nat) : bool :=
  let a := dol_sect_address h k in let n := dol_sect_size h k in let o := dol_sect_offset h k in
  (n =? 0) || (2 ^ 31 <=? a) && (0 <? n) && (a + n <=? 2 ^ 32 - ppc_PAGE_SIZE)
              && (0 <=? o) && (o + n <=? Z.of_nat (length buf)).

Lemma sections_ok_spec h buf : forallb (sections_ok h buf) (seq 0 DOL_MAX_SECT) = true → good_header h ∧ in_file h buf.
Proof.
  intros Hall. rewrite forallb_forall in Hall.
  assert (∀ k, (k < DOL_MAX_SECT)%nat → sections_ok h buf k = true) as Hk by (intros k Hk; apply Hall, in_seq; lia).
  unfold sections_ok in Hk. split; intros k Hlt; [intros Hu | intros Hu]; specialize (Hk k Hlt);
    rewrite (proj2 (Z.eqb_neq _ _)) in Hk by done; cbn [orb] in Hk; rewrite !andb_true_iff, !Z.leb_le, Z.ltb_lt in Hk; tauto.
Qed.

Lemma dol_good : good_header (header_of dol) ∧ in_file (header_of dol) dol.
Proof. apply sections_ok_spec. vm_compute. reflexivity. Qed.

Definition coversb (h : dol_header) (k : nat) (a : Z) : bool :=
  let b := dol_sect_address h k in let n := dol_sect_size h k in negb (n =? 0) && (b <=? a) && (a <? b + n).
Definition beforeb (h : dol_header) (j k : nat) : bool :=
  let b := dol_sect_address h j in let c := dol_sect_address h k in (b <? c) || (b =? c) && (j <? k)%nat.
Definition ownerb (h : dol_header) (k : nat) (a : Z) : bool :=
  (k <? DOL_MAX_SECT)%nat && coversb h k a &&
  forallb (λ j, negb (coversb h j a) || (j =? k)%nat || beforeb h j k) (seq 0 DOL_MAX_SECT).

Lemma coversb_spec h k a : coversb h k a = true ↔ covers h k a.
Proof. unfold coversb, covers. rewrite !andb_true_iff, negb_true_iff, Z.eqb_neq, Z.leb_le, Z.ltb_lt. tauto. Qed.

Lemma ownerb_spec h k a : ownerb h k a = true → owner h k a.
Proof.
  unfold ownerb. rewrite !andb_true_iff, Nat.ltb_lt, coversb_spec, forallb_forall. intros [[Hk Hc] Hall].
  split; [done | ]. split; [done | ]. intros j Hj Hcj Hne. specialize (Hall j). rewrite in_seq in Hall.
  apply coversb_spec in Hcj. rewrite Hcj in Hall. cbn [negb orb] in Hall. rewrite orb_true_iff in Hall.
  destruct Hall as [E%Nat.eqb_eq | Hb]; [lia | done | ]. unfold beforeb in Hb. unfold copied_before.
  rewrite orb_true_iff, andb_true_iff, Z.ltb_lt, Z.eqb_eq, Nat.ltb_lt in Hb. tauto.
Qed.

(** The byte at 0x80003010 is the first of the data section. *)
Lemma dol_ppc_load_places_witness :
  ∃ m' info' s d base, dol_loaded = Ret (0, m', info') ∧
    s ∈ segment info' ∧ m' !! p_blk (seg_buf s) = Some d ∧ d !! Z.to_nat (0x80003010 - base) = Some Byte.x65.
Proof.
  pose proof dol_loaded_ok as Hok. destruct dol_loaded as [[[r m'] info'] | | | ] eqn:E; [ | discriminate Hok..].
  subst r. exists m', info'. destruct dol_good as [Hg Hf].
  destruct (dol_ppc_load_places [] (bs "1.101") [(ppc_OPT_APPEND, bs "ro")] setup_code 4 gamecube [] dol at_file m0
    empty_info m' info' Hg Hf E) as [_ Hall].
  destruct (Hall 7%nat 0x80003010) as (s & d & base & Hs & _ & _ & _ & Hd & Hb); [apply ownerb_spec; vm_compute; reflexivity | ].
  exists s, d, base. split; [done | ]. split; [done | ]. split; [done | ]. rewrite Hb. vm_compute. reflexivity.
Defined.

Lemma dol_segments_apart_witness :
  ∃ segs, dol_segments (header_of dol) = Ret segs ∧ holds_sections (header_of dol) segs.
Proof.
  destruct (dol_segments_apart (header_of dol) (proj1 dol_good)) as (segs & Hs & _ & Hh & _). exists segs. split; [exact Hs | exact Hh].
Defined.

(** A static executable of ppc with one segment at 0x80003000. *)
Definition program : list byte :=
  [Byte.x7f; Byte.x45; Byte.x4c; Byte.x46; Byte.x01; Byte.x02; Byte.x01] ++ repeat Byte.x00 9
  ++ be 2 2 ++ be 2 20 ++ be 4 1 ++ be 4 0x80003004 ++ be 4 52 ++ be 4 0 ++ be 4 0
  ++ be 2 52 ++ be 2 32 ++ be 2 1 ++ be 2 0 ++ be 2 0 ++ be 2 0
  ++ be 4 1 ++ be 4 84 ++ be 4 0x80003000 ++ be 4 0x80003000 ++ be 4 16 ++ be 4 4096 ++ be 4 5 ++ be 4 4
  ++ repeat Byte.x60 16.

Definition m1 : mem := {[ 1%positive := program ]}.

#[local] Abbreviation elf_loaded :=
  (elf_ppc_load [] (bs "1.101") [(ppc_OPT_APPEND, bs "ro")] setup_code 4 [] 0 gamecube [] program at_file m1 empty_info).

Lemma ppc_elf_loaded_ok : match elf_loaded with Ret (r, _, _) => r | _ => 1 end = 0.
Proof. vm_compute. reflexivity. Qed.

Lemma elf_ppc_load_handover_witness :
  ∃ m' info' p setup gap pad c, let arg := setup ++ gap ++ notes_block (bs "1.101") (bs "ro" ++ [Byte.x00]) pad c in
    elf_loaded = Ret (0, m', info') ∧ loaded_at (segment info') p (Z.of_nat (length arg)) (entry info') ∧
    m' !! p_blk p = Some arg.
Proof.
  pose proof ppc_elf_loaded_ok as Hok. destruct elf_loaded as [[[r m'] info'] | | | ] eqn:E; [ | discriminate Hok..].
  subst r. exists m', info'.
  destruct (elf_ppc_load_handover [] (bs "1.101") [(ppc_OPT_APPEND, bs "ro")] setup_code 4 [] 0 gamecube [] program
    at_file m1 empty_info m' info' {| ep_command_line := Some (bs "ro"); ep_gamecube := true |})
    as (ehdr & _ & segs & _ & _ & p & setup & gap & pad & c & Hl & _ & Hb & _); [done | vm_compute; reflexivity | exact E | ].
  exists p, setup, gap, pad, c. split; [reflexivity | ]. split; [exact Hl | exact Hb].
Defined.
End Witness.
