(* ===== verification/KexecX86_64.v ===== *)
(** kexec on x86_64 under kexec-tools/kexec/arch/x86_64/: the loader of ELF executables
    (kexec-elf-x86_64.c) and the architecture (kexec-x86_64.c), whose functions are those of
    i386 but for the table of loaders and the trampoline.  The other loaders are those
    of i386, compiled for x86_64. *)

From Stdlib Require Import ZArith Lia String.
From stdpp Require Import base tactics list numbers gmap pretty.
From coqutil Require Import Byte.
From S2P Require Import Prelude Words CMem CString Struct Segments Elf ElfBoot ElfExec ElfRel ElfRelSpec Kexec KexecX86 X86Linux LoadersX86 Multiboot.

#[local] Open Scope Z_scope.
#[local] Existing Instance x86_64.
#[local] Existing Instance machine_x86_64.

(** ** Data *)

(** [struct entry64_regs] *)
Module Regs64.
Inductive t :=
| rax | rbx | rcx | rdx | rsi | rdi | rsp | rbp | r8 | r9 | r10 | r11 | r12 | r13 | r14 | r15 | rip.

#[global] Instance struct : Struct t.
Proof.
  refine {| f_off := λ f, match f with
              | rax => 0 | rbx => 8 | rcx => 16 | rdx => 24 | rsi => 32 | rdi => 40 | rsp => 48
              | rbp => 56 | r8 => 64 | r9 => 72 | r10 => 80 | r11 => 88 | r12 => 96 | r13 => 104
              | r14 => 112 | r15 => 120 | rip => 128 end;
            f_size := λ _, 8%nat; sizeof := 136 |}; layout_laws.
Defined.

#[global] Instance eq_dec : EqDecision t.
Proof. solve_decision. Defined.
End Regs64.

(** ** The names of relocations (kexec-elf-rel-x86_64.c) *)

Definition reloc_names : list string := [
  "R_X86_64_NONE"; "R_X86_64_64"; "R_X86_64_PC32"; "R_X86_64_GOT32"; "R_X86_64_PLT32"; "R_X86_64_COPY";
  "R_X86_64_GLOB_DAT"; "R_X86_64_JUMP_SLOT"; "R_X86_64_RELATIVE"; "R_X86_64_GOTPCREL"; "R_X86_64_32";
  "R_X86_64_32S"; "R_X86_64_16"; "R_X86_64_PC16"; "R_X86_64_8"; "R_X86_64_PC8"; "R_X86_64_DTPMOD64";
  "R_X86_64_DTPOFF64"; "R_X86_64_TPOFF64"; "R_X86_64_TLSGD"; "R_X86_64_TLSLD"; "R_X86_64_DTPOFF32";
  "R_X86_64_GOTTPOFF"; "R_X86_64_TPOFF32"]%string.

(** The bound is the size of the function, 1 in GNU C, divided by that of a pointer. *)
Definition reloc_name (r_type : Z) : list byte :=
  if r_type <? 1 / 8 then bs (nth (Z.to_nat r_type) reloc_names EmptyString)
  else bs "R_X86_64_" ++ bs (pretty r_type).

(** ** The loader of ELF executables *)

Definition elf_x86_64_probe (buf : list byte) : outcome Z :=
  result ← build_elf_exec_info buf {| p_blk := 1; p_off := 0 |};
  match result with
  | None => Ret (-1)
  | Some ehdr => if negb (e_machine ehdr =? EM_X86_64) then Ret (-1) else Ret 0
  end.

(** One option; [None] is the result -1.  The test for x86_64 around --args-none has an
    underscore too many here as well. *)
Definition elf_x86_64_option (o : elf_x86_options) (opt : Z) (optarg : list byte)
    : outcome (option elf_x86_options) :=
  if opt =? OPT_APPEND then
    Ret (Some {| ex_command_line := Some optarg; ex_ramdisk := ex_ramdisk o; ex_style := ex_style o |})
  else if opt =? OPT_RAMDISK then
    Ret (Some {| ex_command_line := ex_command_line o; ex_ramdisk := Some optarg; ex_style := ex_style o |})
  else if opt =? OPT_ARGS_ELF then Ret (Some (set_style ARG_STYLE_ELF o))
  else if opt =? OPT_ARGS_LINUX then Ret (Some (set_style ARG_STYLE_LINUX o))
  else if opt =? OPT_ARGS_NONE then Die "--args-none only works on arch x86_64"
  else if opt =? 63 then Ret None
  else if opt <? OPT_ARCH_MAX then Ret (Some o)
  else Ret None.

Fixpoint elf_x86_64_fold (opts : list (Z * list byte)) (o : elf_x86_options)
    : outcome (option elf_x86_options) :=
  match opts with
  | [] => Ret (Some o)
  | (opt, optarg) :: opts =>
      r ← elf_x86_64_option o opt optarg;
      match r with Some o => elf_x86_64_fold opts o | None => Ret None end
  end.

Section elf_x86_64.

(** As in LoadersX86.v. *)
Context (purgatory version garbage : list byte) (ranges : option (list memory_range)).
Context (opts : list (Z * list byte)) (slurp_file : list byte → outcome (list byte)).

Definition set_regs64 (m : mem) (h : mem_ehdr) (l : list (Regs64.t * Z)) : outcome mem :=
  regs ← elf_rel_get_symbol m h (bs "entry64_regs") (sizeof Regs64.t);
  stack_end ← elf_rel_get_addr m h (bs "stack_end");
  elf_rel_set_symbol m h (bs "entry64_regs")
    (with_fields regs (l ++ [(Regs64.rsp, stack_end)])).

(** The ELF boot notes, the first argument. *)
Definition elf64_arguments (lay : layout) (m : mem) (h : mem_ehdr) (segs : list kexec_segment)
    (command_line : list byte) (entry max_addr : Z) : outcome (mem * list kexec_segment) :=
  '(note_base, segs, m) ← elf_boot_notes lay m segs version command_line max_addr (xmalloc garbage);
  m ← set_regs64 m h [(Regs64.rdi, note_base); (Regs64.rip, entry)];
  mret (m, segs).

(** The zero page.  The file of the ramdisk is read into a variable that hides the one
    that is passed on. *)
Definition linux64_arguments (lay : layout) (m : mem) (h : mem_ehdr) (segs : list kexec_segment)
    (command_line : list byte) (ramdisk : option (list byte)) (entry max_addr : Z)
    : outcome (mem * list kexec_segment) :=
  let size := sizeof Faked.t in
  let '(m, hdr) := alloc m (xmalloc garbage size) in
  '(param_base, segs) ← add_buffer lay segs hdr size size 16 0 max_addr 1;
  m ← store m hdr (replicate (Z.to_nat size) Byte.x00);
  m ← init_linux_parameters m hdr;
  m ← match ramdisk with
      | Some name => data ← slurp_file name; mret (alloc m data).1
      | None => Ret m
      end;
  '(m, segs) ← setup_linux_bootloader_parameters lay m segs hdr param_base
                 (f_off Faked.command_line) command_line None;
  m ← setup_linux_system_parameters m hdr ranges;
  m ← set_regs64 m h [(Regs64.rbx, 0); (Regs64.rsi, param_base); (Regs64.rip, entry)];
  mret (m, segs).

Definition elf_x86_64_load (lay : layout) (argv : list (list byte)) (buf : list byte) (kbuf : ptr)
    (m : mem) (info : kexec_info) : outcome (Z * mem * kexec_info) :=
  o ← elf_x86_64_fold opts {| ex_command_line := None; ex_ramdisk := None; ex_style := ARG_STYLE_ELF |};
  match o with
  | None => Ret (-1, m, info)
  | Some o =>
      let command_line := match ex_command_line o with Some s => s ++ [Byte.x00] | None => [] end in
      '(ehdr, segs) ← elf_exec_build_load lay buf kbuf (segment info);
      let max_addr := elf_max_addr ehdr in
      match ex_style o with
      | ARG_STYLE_NONE => Ret (0, m, {| segment := segs; entry := e_entry ehdr; rhdr := rhdr info |})
      | style =>
          let '(m, pbuf) := alloc m purgatory in
          '(m, h, segs, e) ← elf_rel_build_load lay garbage m purgatory pbuf segs 0 ULONG_MAX 1;
          '(m, segs) ←
            match style with
            | ARG_STYLE_LINUX =>
                linux64_arguments lay m h segs command_line (ex_ramdisk o) (e_entry ehdr) max_addr
            | _ =>
                r ← elf64_arguments lay m h segs command_line (e_entry ehdr) max_addr;
                match ex_ramdisk o with
                | Some _ => Die "Ramdisks not supported with generic elf arguments"
                | None => Ret r
                end
            end;
          mret (0, m, set_rhdr segs e h)
      end
  end.

(** The entry of the table of loaders. *)
Definition elf_x86_64_type : file_type :=
  {| ft_name := bs "elf-x86_64"; ft_probe := elf_x86_64_probe; ft_load := elf_x86_64_load |}.
End elf_x86_64.

(** ** The architecture (kexec-x86_64.c) *)

(** The functions whose text is that of kexec-x86.c. *)
Definition x86_64_get_memory_ranges : option (list byte) → outcome (option (list memory_range)) :=
  get_memory_ranges.
Definition x86_64_process_options : list (Z * list byte) → arch_options → outcome (Z * arch_options) :=
  arch_process_options.
Definition x86_64_update_purgatory : arch_options → mem → kexec_info → outcome mem :=
  arch_update_purgatory.

(** The options that each loader reads for itself with [getopt_long]. *)
Record x86_64_loader_options := {
  l6_multiboot : list (Z * list byte); l6_elf : list (Z * list byte); l6_elf64 : list (Z * list byte);
  l6_bzImage : list (Z * list byte); l6_beoboot : list (Z * list byte); l6_nbi : list (Z * list byte)
}.

(** The table: there is no monoimage loader. *)
Definition x86_64_file_types (purgatory version garbage : list byte) (ranges : option (list memory_range))
    (slurp_file slurp_decompress_file : list byte → outcome (list byte))
    (o : x86_64_loader_options) (imagename : list byte) : list file_type := [
  elf_x86_64_type purgatory version garbage ranges (l6_elf64 o) slurp_file;
  multiboot_type purgatory version garbage ranges (l6_multiboot o) slurp_decompress_file imagename;
  elf_x86_type purgatory version garbage ranges (l6_elf o) slurp_file;
  bzImage_type purgatory garbage ranges slurp_file (l6_bzImage o);
  beoboot_type purgatory garbage ranges (l6_beoboot o);
  nbi_type (l6_nbi o)
].

Definition x86_64_compat_trampoline (machine : option (list byte)) (m : mem) (info : kexec_info)
    (flags : Z) : outcome (option (mem * kexec_info * Z)) :=
  match machine with
  | None => Ret None
  | Some machine =>
      if strcmp machine (bs "x86_64") =? 0 then Ret (Some (m, info, Z.lor flags KEXEC_ARCH_DEFAULT))
      else Ret None
  end.

Definition x86_64_arch (types : list file_type) (o : arch_options) (machine : option (list byte)) : KexecArch := {|
  file_types := types;
  Kexec.arch_compat_trampoline := x86_64_compat_trampoline machine;
  Kexec.arch_update_purgatory := x86_64_update_purgatory o |}.
