(* ===== verification/KexecX86_64Spec.v ===== *)
(** What an ELF executable finds when it is loaded with ELF arguments on x86_64
    (KexecX86_64.v). *)

From Stdlib Require Import ZArith Lia String.
From stdpp Require Import base tactics list numbers gmap pretty.
From coqutil Require Import Byte.
From S2P Require Import Prelude Words CMem CString Struct Segments SegmentsSpec Elf IpChecksum ElfBoot ElfExec ElfRel ElfRelSpec ElfRelLoad Kexec KexecX86 KexecX86Spec X86Linux X86LinuxSpec LoadersX86 LoadersX86Spec Multiboot KexecX86_64.

#[local] Open Scope Z_scope.
#[local] Existing Instance x86_64.
#[local] Existing Instance machine_x86_64.

(** The variable of purgatory that holds the registers. *)
Definition regs64_symbol : list (list byte * Z) := [(bs "entry64_regs", 136)].

(** Purgatory, loaded in [m], has it, and no table of symbols lies in it. *)
Record purgatory64_fits (m : mem) (h : mem_ehdr) (shdrs : list mem_shdr) : Prop := {
  p6_shdr : e_shdr h = Some shdrs;
  p6_tables : tables_apart m h shdrs (map fst regs64_symbol);
  p6_disjoint : disjoint_symbols m h regs64_symbol
}.

Lemma set_regs64_blocks m h l m' b :
  set_regs64 m h l = Ret m' → Forall (λ s, p_blk (sh_data s) ≠ b) (default [] (e_shdr h)) → m' !! b = m !! b.
Proof.
  unfold set_regs64. intros (regs & _ & Hr)%bind_Ret Hb. apply bind_Ret in Hr as (sp & _ & Hr). by eapply set_symbol_block.
Qed.

(** The registers that purgatory will load: those that the loader set, the stack pointer
    and, in the others, what purgatory's file has. *)
Lemma set_regs64_spec m h shdrs l m' :
  set_regs64 m h l = Ret m' → purgatory64_fits m h shdrs →
  ∃ old sp, elf_rel_get_addr m' h (bs "stack_end") = Ret sp ∧ Z.of_nat (length old) = 136 ∧
    elf_rel_get_symbol m' h (bs "entry64_regs") 136
      = Ret (with_fields old (l ++ [(Regs64.rsp, sp)])).
Proof.
  unfold set_regs64. intros (old & Hold & Hr)%bind_Ret [Hsh Ht Hd]. apply bind_Ret in Hr as (sp & Hsp & Hset).
  pose proof (elf_rel_get_symbol_length _ _ _ _ _ Hold) as Hlen. change (sizeof Regs64.t) with 136 in Hlen.
  exists old, sp. set (new := with_fields old _) in *.
  assert (Z.of_nat (length new) = 136) as Hnew.
  { unfold new. by rewrite length_with_fields. }
  set (k := [(bs "entry64_regs", new)]).
  assert (set_symbols m h k = Ret m') as Hk by (unfold k; cbn [set_symbols]; by rewrite Hset, bind_Ret_l).
  assert (sizes k = regs64_symbol) as Hsz by (unfold k, sizes; cbn [map]; by rewrite Hnew).
  split_and!; [ | done | ].
  - rewrite <- Hsp. apply elf_rel_get_addr_find. by apply (set_symbols_find k m h shdrs).
  - rewrite <- Hnew. apply (set_symbols_get k m h shdrs m'); [done | done | done | by rewrite Hsz | apply list_elem_of_here].
Qed.

(** What an ELF kernel finds on x86_64: its first argument is the address of a segment with
    the sealed boot notes, and it starts at its entry point with purgatory's stack. *)
Record elf64_handover (version cmd : list byte) (m : mem) (h : mem_ehdr)
    (segs : list kexec_segment) (entry note_base : Z) : Prop := {
  e6_notes : ∃ p pad c,
    let notes := notes_block version cmd pad c in
    loaded_at segs p (Z.of_nat (length notes)) note_base ∧ load m p (Z.of_nat (length notes)) = Ret notes ∧
    compute_ip_checksum false notes = Ret 0;
  e6_regs : ∃ regs sp, elf_rel_get_symbol m h (bs "entry64_regs") 136 = Ret regs ∧
    elf_rel_get_addr m h (bs "stack_end") = Ret sp ∧
    sfield regs Regs64.rdi = u64 note_base ∧ sfield regs Regs64.rip = u64 entry ∧ sfield regs Regs64.rsp = u64 sp
}.

Lemma fits64_alloc m l h shdrs : sections_in m shdrs → purgatory64_fits m h shdrs → purgatory64_fits (alloc m l).1 h shdrs.
Proof.
  intros Hsec [Hsh Ht Hd]. split; [done | by apply tables_apart_alloc | ].
  apply (disjoint_symbols_ext m); [ | done]. intros. by apply (symbol_at_alloc m h l shdrs).
Qed.

Lemma elf64_arguments_handover version garbage lay m h segs cmd entry max_addr m' segs' shdrs :
  elf64_arguments version garbage lay m h segs cmd entry max_addr = Ret (m', segs') →
  sections_in m shdrs → purgatory64_fits m h shdrs →
  segs ⊆ segs' ∧ ∃ note_base, elf64_handover version cmd m' h segs' entry note_base.
Proof.
  unfold elf64_arguments. intros ([[note_base segs1] m1] & Hn & Hr)%bind_Ret Hsec Hf.
  apply elf_boot_notes_placed in Hn as (Hsub & pad & c & -> & Hat & Hs). set (notes := notes_block version cmd pad c) in *.
  set (ma := (alloc m notes).1) in *. set (p := (alloc m notes).2) in *.
  apply bind_Ret in Hr as (m2 & Hset & Hr). apply Ret_inj in Hr. simplify_eq.
  assert (m' !! p_blk p = Some notes) as Hp.
  { rewrite (set_regs64_blocks _ _ _ _ (p_blk p) Hset); [apply alloc_lookup | ].
    rewrite (p6_shdr _ _ _ Hf). by apply fresh_apart. }
  apply (set_regs64_spec _ _ shdrs) in Hset as (old & sp & Hsp & Hl & Hregs); [ | by apply fits64_alloc].
  split; [done | ]. exists note_base. constructor.
  - exists p, pad, c. cbv zeta. split; [done | ]. split; [by apply load_whole | done].
  - eexists _, sp. split; [exact Hregs | ]. split; [done | ].
    assert (∀ l, Z.of_nat (length l) = 136 → ∀ f v, Z.of_nat (length (with_field l f v)) = 136) as Hw
      by (intros l Hll f v; by rewrite length_with_field).
    unfold with_fields. cbn [app foldl]. split_and!.
    + rewrite (field_with_field_ne _ Regs64.rsp Regs64.rdi), (field_with_field_ne _ Regs64.rip Regs64.rdi) by (done || auto).
      by rewrite (field_with_field _ Regs64.rdi).
    + rewrite (field_with_field_ne _ Regs64.rsp Regs64.rip) by (done || auto). by rewrite (field_with_field _ Regs64.rip) by auto.
    + by rewrite (field_with_field _ Regs64.rsp) by auto.
Qed.

(** When an ELF executable is loaded with ELF arguments on x86_64, its segments are among
    the segments, and provided that purgatory has room for the registers, the kernel starts at
    its entry point on purgatory's stack, and its first argument is the address of the sealed boot
    notes with the command line.  A ramdisk is never loaded this way. *)
Theorem elf_x86_64_load_handover purgatory version garbage ranges opts slurp_file lay argv buf kbuf m info m' info' o :
  elf_x86_64_fold opts {| ex_command_line := None; ex_ramdisk := None; ex_style := ARG_STYLE_ELF |} = Ret (Some o) →
  ex_style o = ARG_STYLE_ELF →
  elf_x86_64_load purgatory version garbage ranges opts slurp_file lay argv buf kbuf m info = Ret (0, m', info') →
  let cmd := match ex_command_line o with Some s => s ++ [Byte.x00] | None => [] end in
  ex_ramdisk o = None ∧
  ∃ ehdr segs m1 segs1,
    elf_exec_build_load lay buf kbuf (segment info) = Ret (ehdr, segs) ∧
    elf_rel_build_load lay garbage (alloc m purgatory).1 purgatory (alloc m purgatory).2 segs 0 ULONG_MAX 1
      = Ret (m1, rhdr info', segs1, entry info') ∧
    ∀ shdrs, purgatory64_fits m1 (rhdr info') shdrs →
      segs ⊆ segment info' ∧ ∃ note_base,
        elf64_handover version cmd m' (rhdr info') (segment info') (e_entry ehdr) note_base.
Proof.
  intros Ho Hs. unfold elf_x86_64_load. rewrite Ho, bind_Ret_l, Hs. cbv zeta.
  intros ([ehdr segs] & Hexec & Hr)%bind_Ret. rewrite (surjective_pairing (alloc m purgatory)) in Hr.
  apply bind_Ret in Hr as ([[[m1 h] segs1] en] & Hrel & Hr).
  apply bind_Ret in Hr as ([m2 segs2] & Ha & Hr). apply Ret_inj in Hr. simplify_eq.
  apply bind_Ret in Ha as (r & Ha & Hd). destruct (ex_ramdisk o); [done | ]. apply Ret_inj in Hd. subst r.
  split; [done | ]. exists ehdr, segs, m1, segs1. split; [exact Hexec | ]. split; [exact Hrel | ].
  intros shdrs Hf. pose proof (elf_rel_build_load_sub _ _ _ _ _ _ _ _ _ _ _ _ _ Hrel) as Hsub.
  apply elf_rel_build_load_blocks in Hrel as [_ Hin]; [ | rewrite alloc_lookup; eauto].
  cbn [rhdr set_rhdr segment] in *. rewrite (p6_shdr _ _ _ Hf) in Hin.
  destruct (elf64_arguments_handover _ _ _ _ _ _ _ _ _ _ _ _ Ha Hin Hf) as [Hs1 Hh].
  split; [by etrans | done].
Qed.

(** The messages never have the name of a relocation. *)
Lemma reloc_name_unnamed r_type : 0 ≤ r_type → reloc_name r_type = bs "R_X86_64_" ++ bs (pretty r_type).
Proof. intros Hr. unfold reloc_name. change (1 / 8) with 0. by rewrite (proj2 (Z.ltb_ge r_type 0)). Qed.

(** --args-none ends the program here too. *)
Lemma args_none_dies64 o : elf_x86_64_option o OPT_ARGS_NONE [] = Die "--args-none only works on arch x86_64".
Proof. done. Qed.

Module Witness.
Import X86LinuxSpec.Witness.

(** A static executable of x86_64 with one segment at 1 MiB. *)
Definition program : list byte :=
  [Byte.x7f; Byte.x45; Byte.x4c; Byte.x46; Byte.x02; Byte.x01; Byte.x01] ++ repeat Byte.x00 9
  ++ le 2 2 ++ le 2 62 ++ le 4 1 ++ le 8 0x100004 ++ le 8 64 ++ le 8 0 ++ le 4 0
  ++ le 2 64 ++ le 2 56 ++ le 2 1 ++ le 2 0 ++ le 2 0 ++ le 2 0
  ++ le 4 1 ++ le 4 5 ++ le 8 120 ++ le 8 0x100000 ++ le 8 0x100000 ++ le 8 16 ++ le 8 4096 ++ le 8 4
  ++ repeat Byte.x90 16.

(** A purgatory with the registers and a stack. *)
Definition symbol64 (name value size shndx : Z) : list byte :=
  le 4 name ++ le 1 0x10 ++ le 1 0 ++ le 2 shndx ++ le 8 value ++ le 8 size.

Definition section_header64 (ty flags off size link info align ent : Z) : list byte :=
  le 4 0 ++ le 4 ty ++ le 8 flags ++ le 8 0 ++ le 8 off ++ le 8 size ++ le 4 link ++ le 4 info
  ++ le 8 align ++ le 8 ent.

Definition names64 : list byte :=
  [Byte.x00] ++ bs "entry64_regs" ++ [Byte.x00] ++ bs "stack_end" ++ [Byte.x00].

Definition purgatory64 : list byte :=
  [Byte.x7f; Byte.x45; Byte.x4c; Byte.x46; Byte.x02; Byte.x01; Byte.x01] ++ repeat Byte.x00 9
  ++ le 2 1 ++ le 2 62 ++ le 4 1 ++ le 8 0 ++ le 8 0 ++ le 8 320 ++ le 4 0
  ++ le 2 64 ++ le 2 0 ++ le 2 0 ++ le 2 64 ++ le 2 5 ++ le 2 0
  ++ repeat Byte.x90 16 ++ repeat Byte.x00 144
  ++ symbol64 0 0 0 0 ++ symbol64 1 0 136 2 ++ symbol64 14 136 8 2
  ++ names64
  ++ section_header64 0 0 0 0 0 0 0 0 ++ section_header64 1 6 64 16 0 0 16 0
  ++ section_header64 1 3 80 144 0 0 8 0 ++ section_header64 2 0 224 72 4 1 8 24
  ++ section_header64 3 0 296 24 0 0 1 0.

Definition m1 : mem := {[ 1%positive := program ]}.
Definition args : list (Z * list byte) := [(OPT_APPEND, bs "ro"); (OPT_ARGS_ELF, [])].

#[local] Abbreviation loaded :=
  (elf_x86_64_load purgatory64 (bs "1.101") [] None args (λ _, Ret []) pc [] program (at_kernel 0) m1 empty_info).

Lemma elf64_loaded_ok : match loaded with Ret (r, _, _) => r | _ => 1 end = 0.
Proof. vm_compute. reflexivity. Qed.

(** Purgatory, as it is loaded, fits. *)
Definition fits64_check : bool :=
  match elf_exec_build_load pc program (at_kernel 0) [] with
  | Ret (_, segs) =>
      match elf_rel_build_load pc [] (alloc m1 purgatory64).1 purgatory64 (alloc m1 purgatory64).2 segs 0 ULONG_MAX 1 with
      | Ret (m, h, _, _) =>
          match e_shdr h with
          | Some shdrs => tables_apartb m h shdrs (map fst regs64_symbol) && disjointb (places m h regs64_symbol)
          | None => false
          end
      | _ => false
      end
  | _ => false
  end.

Lemma fits64_checked : fits64_check = true.
Proof. vm_compute. reflexivity. Qed.

Lemma elf_x86_64_load_handover_witness :
  ∃ m' info' entry note_base,
    elf64_handover (bs "1.101") (bs "ro" ++ [Byte.x00]) m' (rhdr info') (segment info') entry note_base.
Proof.
  pose proof elf64_loaded_ok as Hok. destruct loaded as [[[r m'] info'] | | | ] eqn:E; [ | discriminate Hok..].
  subst r. exists m', info'.
  destruct (elf_x86_64_load_handover purgatory64 (bs "1.101") [] None args (λ _, Ret []) pc [] program
    (at_kernel 0) m1 empty_info m' info'
    {| ex_command_line := Some (bs "ro"); ex_ramdisk := None; ex_style := ARG_STYLE_ELF |})
    as (_ & ehdr & segs & m & segs1 & Hexec & Hrel & Hfit); [reflexivity | reflexivity | exact E | ].
  pose proof fits64_checked as Hf. unfold fits64_check in Hf. change (segment empty_info) with (@nil kexec_segment) in Hexec.
  rewrite Hexec, Hrel in Hf. destruct (e_shdr (rhdr info')) as [shdrs | ] eqn:Es; [ | discriminate Hf].
  apply andb_prop in Hf as [Ht Hd]. destruct (Hfit shdrs) as [_ [nb Hh]]; [ | exists (e_entry ehdr), nb; exact Hh].
  constructor; [exact Es | by apply tables_apartb_spec | by apply disjointb_spec].
Defined.
End Witness.
