(* ===== verification/Cli.v ===== *)
(** libcli, part one (src/libcli/libcli.c, libcli.h): the data of a command line
    session, the setters, the users, the history, printing through the output
    filters, and the filters themselves.

    A C string is the list of its bytes.  The list of commands, their children,
    the users and the filters are singly linked lists in the code and lists
    here.  A function pointer that libcli only stores and calls is a [positive]
    that names the function; what the functions of the program around libcli do
    is in [Program] (CliCommands.v).  [d_out] is the trace of the bytes sent to
    the client, in order; the code has no such field. *)

From Stdlib Require Import ZArith Lia String.
From stdpp Require Import base tactics list numbers pretty.
From coqutil Require Import Byte.
From S2P Require Import Prelude Words CMem CString.

#[local] Open Scope Z_scope.

(** ** Constants *)

Definition CLI_OK : Z := 0.
Definition CLI_ERROR : Z := -1.
Definition CLI_QUIT : Z := -2.
Definition MAX_HISTORY : nat := 256.
Definition PRIVILEGE_UNPRIVILEGED : Z := 0.
Definition PRIVILEGE_PRIVILEGED : Z := 15.
Definition MODE_ANY : Z := -1.
Definition MODE_EXEC : Z := 0.
Definition MODE_CONFIG : Z := 1.

(** ** Data *)

Inductive cli_states :=
| STATE_LOGIN
| STATE_PASSWORD
| STATE_NORMAL
| STATE_ENABLE_PASSWORD
| STATE_ENABLE.

#[export] Instance cli_states_eq_dec : EqDecision cli_states.
Proof. solve_decision. Defined.

Record unp := mk_unp { username : list byte; password : list byte }.

(** The functions a command's [callback] can point to: those of libcli and those
    of the program. *)
Inductive callback :=
| cb_enable | cb_disable | cb_help | cb_history | cb_quit | cb_exit
| cb_configure_terminal
| cb_program (f : positive).

Inductive cli_command := mk_command {
  c_command : list byte;
  c_callback : option callback;
  c_unique_len : nat;
  c_help : option (list byte);
  c_privilege : Z;
  c_mode : Z;
  c_children : list cli_command
}.

(** Induction on a command and the commands below it. *)
Lemma command_tree_ind (P : cli_command → Prop) :
  (∀ name cb u help priv mode children, Forall P children →
     P (mk_command name cb u help priv mode children)) →
  ∀ c, P c.
Proof.
  intros Hstep. fix rec 1. intros [name cb u help priv mode children]. apply Hstep.
  induction children as [|c cs IH]; constructor; [apply rec | exact IH].
Qed.

(** A filter of the output: its function and its data.  The flag [MATCH_REGEX]
    of a match filter, which tells the arm of the union [match], is the
    constructor here; a compiled regular expression is its pattern and the flags
    [REG_EXTENDED] and [REG_ICASE]. *)
Inductive match_union :=
| match_string (s : list byte)
| match_re (pattern : list byte) (extended icase : bool).

Inductive cli_filter :=
| match_filter (invert : bool) (m : match_union)
| range_filter (matched : bool) (from : list byte) (to : option (list byte))
| count_filter (count : Z).

(** An entry of [history]: NULL, a line, or a pointer to a line that was
    freed. *)
Inductive slot := Null | Line (s : list byte) | Freed.

(** What the session sends: bytes written to the client, or a line given to
    [print_callback]. *)
Inductive output :=
| Sent (s : list byte)
| Printed (f : positive) (s : list byte).

Record cli_def := mk_cli {
  d_commands : list cli_command;
  d_auth_callback : option positive;
  d_regular_callback : option positive;
  d_enable_callback : option positive;
  d_banner : option (list byte);
  d_users : list unp;
  d_enable_password : option (list byte);
  d_history : list slot;
  d_showprompt : bool;
  d_promptchar : option (list byte);
  d_hostname : option (list byte);
  d_modestring : option (list byte);
  d_newline : option (list byte);
  d_privilege : Z;
  d_mode : Z;
  d_state : cli_states;
  d_filters : list cli_filter;
  d_print_callback : option positive;
  d_client : bool;
  d_out : list output
}.

Definition set_commands (v : list cli_command) (cli : cli_def) : cli_def :=
  let 'mk_cli _ au rg en bn us ep hi sp pc hn ms nl pr mo st fi pb cl ou := cli in
  mk_cli v au rg en bn us ep hi sp pc hn ms nl pr mo st fi pb cl ou.
Definition set_auth_callback (v : option positive) (cli : cli_def) : cli_def :=
  let 'mk_cli cm _ rg en bn us ep hi sp pc hn ms nl pr mo st fi pb cl ou := cli in
  mk_cli cm v rg en bn us ep hi sp pc hn ms nl pr mo st fi pb cl ou.
Definition set_regular_callback (v : option positive) (cli : cli_def) : cli_def :=
  let 'mk_cli cm au _ en bn us ep hi sp pc hn ms nl pr mo st fi pb cl ou := cli in
  mk_cli cm au v en bn us ep hi sp pc hn ms nl pr mo st fi pb cl ou.
Definition set_enable_callback (v : option positive) (cli : cli_def) : cli_def :=
  let 'mk_cli cm au rg _ bn us ep hi sp pc hn ms nl pr mo st fi pb cl ou := cli in
  mk_cli cm au rg v bn us ep hi sp pc hn ms nl pr mo st fi pb cl ou.
Definition set_banner (v : option (list byte)) (cli : cli_def) : cli_def :=
  let 'mk_cli cm au rg en _ us ep hi sp pc hn ms nl pr mo st fi pb cl ou := cli in
  mk_cli cm au rg en v us ep hi sp pc hn ms nl pr mo st fi pb cl ou.
Definition set_users (v : list unp) (cli : cli_def) : cli_def :=
  let 'mk_cli cm au rg en bn _ ep hi sp pc hn ms nl pr mo st fi pb cl ou := cli in
  mk_cli cm au rg en bn v ep hi sp pc hn ms nl pr mo st fi pb cl ou.
Definition set_enable_password (v : option (list byte)) (cli : cli_def) : cli_def :=
  let 'mk_cli cm au rg en bn us _ hi sp pc hn ms nl pr mo st fi pb cl ou := cli in
  mk_cli cm au rg en bn us v hi sp pc hn ms nl pr mo st fi pb cl ou.
Definition set_history (v : list slot) (cli : cli_def) : cli_def :=
  let 'mk_cli cm au rg en bn us ep _ sp pc hn ms nl pr mo st fi pb cl ou := cli in
  mk_cli cm au rg en bn us ep v sp pc hn ms nl pr mo st fi pb cl ou.
Definition set_showprompt (v : bool) (cli : cli_def) : cli_def :=
  let 'mk_cli cm au rg en bn us ep hi _ pc hn ms nl pr mo st fi pb cl ou := cli in
  mk_cli cm au rg en bn us ep hi v pc hn ms nl pr mo st fi pb cl ou.
Definition set_promptchar (v : option (list byte)) (cli : cli_def) : cli_def :=
  let 'mk_cli cm au rg en bn us ep hi sp _ hn ms nl pr mo st fi pb cl ou := cli in
  mk_cli cm au rg en bn us ep hi sp v hn ms nl pr mo st fi pb cl ou.
Definition set_hostname (v : option (list byte)) (cli : cli_def) : cli_def :=
  let 'mk_cli cm au rg en bn us ep hi sp pc _ ms nl pr mo st fi pb cl ou := cli in
  mk_cli cm au rg en bn us ep hi sp pc v ms nl pr mo st fi pb cl ou.
Definition set_modestring (v : option (list byte)) (cli : cli_def) : cli_def :=
  let 'mk_cli cm au rg en bn us ep hi sp pc hn _ nl pr mo st fi pb cl ou := cli in
  mk_cli cm au rg en bn us ep hi sp pc hn v nl pr mo st fi pb cl ou.
Definition set_newline (v : option (list byte)) (cli : cli_def) : cli_def :=
  let 'mk_cli cm au rg en bn us ep hi sp pc hn ms _ pr mo st fi pb cl ou := cli in
  mk_cli cm au rg en bn us ep hi sp pc hn ms v pr mo st fi pb cl ou.
Definition set_privilege (v : Z) (cli : cli_def) : cli_def :=
  let 'mk_cli cm au rg en bn us ep hi sp pc hn ms nl _ mo st fi pb cl ou := cli in
  mk_cli cm au rg en bn us ep hi sp pc hn ms nl v mo st fi pb cl ou.
Definition set_mode (v : Z) (cli : cli_def) : cli_def :=
  let 'mk_cli cm au rg en bn us ep hi sp pc hn ms nl pr _ st fi pb cl ou := cli in
  mk_cli cm au rg en bn us ep hi sp pc hn ms nl pr v st fi pb cl ou.
Definition set_state (v : cli_states) (cli : cli_def) : cli_def :=
  let 'mk_cli cm au rg en bn us ep hi sp pc hn ms nl pr mo _ fi pb cl ou := cli in
  mk_cli cm au rg en bn us ep hi sp pc hn ms nl pr mo v fi pb cl ou.
Definition set_filters (v : list cli_filter) (cli : cli_def) : cli_def :=
  let 'mk_cli cm au rg en bn us ep hi sp pc hn ms nl pr mo st _ pb cl ou := cli in
  mk_cli cm au rg en bn us ep hi sp pc hn ms nl pr mo st v pb cl ou.
Definition set_print_callback (v : option positive) (cli : cli_def) : cli_def :=
  let 'mk_cli cm au rg en bn us ep hi sp pc hn ms nl pr mo st fi _ cl ou := cli in
  mk_cli cm au rg en bn us ep hi sp pc hn ms nl pr mo st fi v cl ou.
Definition set_client (v : bool) (cli : cli_def) : cli_def :=
  let 'mk_cli cm au rg en bn us ep hi sp pc hn ms nl pr mo st fi pb _ ou := cli in
  mk_cli cm au rg en bn us ep hi sp pc hn ms nl pr mo st fi pb v ou.
Definition set_out (v : list output) (cli : cli_def) : cli_def :=
  let 'mk_cli cm au rg en bn us ep hi sp pc hn ms nl pr mo st fi pb cl _ := cli in
  mk_cli cm au rg en bn us ep hi sp pc hn ms nl pr mo st fi pb cl v.

(** The regular expressions of the C library: whether a pattern compiles, and
    whether it matches a string. *)
Class Regex := {
  regcomp : list byte → bool → bool → bool;
  regexec : list byte → bool → bool → list byte → bool
}.

(** ** Setters of the interface *)

Definition cli_set_auth_callback (cli : cli_def) (f : option positive) : cli_def :=
  set_auth_callback f cli.

Definition cli_set_enable_callback (cli : cli_def) (f : option positive) : cli_def :=
  set_enable_callback f cli.

Definition cli_allow_user (cli : cli_def) (u p : list byte) : cli_def :=
  set_users (d_users cli ++ [mk_unp u p]) cli.

Definition cli_allow_enable (cli : cli_def) (p : list byte) : cli_def :=
  set_enable_password (Some p) cli.

(** The first user of that name is unlinked. *)
Fixpoint deny (us : list unp) (name : list byte) : list unp :=
  match us with
  | [] => []
  | u :: us => if strcmp name (username u) =? 0 then us else u :: deny us name
  end.

Definition cli_deny_user (cli : cli_def) (name : list byte) : cli_def :=
  set_users (deny (d_users cli) name) cli.

Definition nonempty (s : option (list byte)) : option (list byte) :=
  match s with Some (_ :: _) => s | _ => None end.

Definition cli_set_banner (cli : cli_def) (s : option (list byte)) : cli_def :=
  set_banner (nonempty s) cli.

Definition cli_set_hostname (cli : cli_def) (s : option (list byte)) : cli_def :=
  set_hostname (nonempty s) cli.

Definition cli_set_promptchar (cli : cli_def) (s : list byte) : cli_def :=
  set_promptchar (Some s) cli.

Definition cli_set_privilege (cli : cli_def) (p : Z) : Z * cli_def :=
  let old := d_privilege cli in
  let cli := set_privilege p cli in
  (old, if p =? old then cli
        else cli_set_promptchar cli
               (bs (if p =? PRIVILEGE_PRIVILEGED then "# " else "> "))).

Definition cli_set_modestring (cli : cli_def) (s : option (list byte)) : cli_def :=
  set_modestring s cli.

(** [snprintf(string, 64, "(config-%s)", config_desc)] keeps 63 bytes. *)
Definition cli_set_configmode (cli : cli_def) (m : Z) (desc : option (list byte)) : Z * cli_def :=
  let old := d_mode cli in
  let cli := set_mode m cli in
  (old, if m =? old then cli
        else if m =? 0 then cli_set_modestring cli None
        else match desc with
             | Some ((_ :: _) as d) =>
                 cli_set_modestring cli (Some (take 63 (bs "(config-" ++ d ++ bs ")")))
             | _ => cli_set_modestring cli (Some (bs "(config)"))
             end).

Definition cli_set_newline (cli : cli_def) (s : list byte) : cli_def :=
  set_newline (Some s) cli.

Definition cli_reprompt (cli : cli_def) : cli_def := set_showprompt true cli.

Definition cli_regular (cli : cli_def) (f : option positive) : cli_def :=
  set_regular_callback f cli.

Definition cli_print_callback (cli : cli_def) (f : option positive) : cli_def :=
  set_print_callback f cli.

(** ** History *)

(** The first free entry of [history], with [s] put in it. *)
Fixpoint fill_null (h : list slot) (s : list byte) : option (list slot) :=
  match h with
  | [] => None
  | Null :: h => Some (Line s :: h)
  | x :: h => cons x <$> fill_null h s
  end.

(** When the array is full its entries move down by one.  The last iteration of
    that loop reads [history[MAX_HISTORY]], past the array, into the last entry,
    which is overwritten just after: the value does not matter, and the model
    drops the read.  Freeing a freed entry is undefined. *)
Definition cli_add_history (cli : cli_def) (cmd : list byte) : outcome cli_def :=
  match fill_null (d_history cli) cmd with
  | Some h => Ret (set_history h cli)
  | None =>
      match d_history cli with
      | Freed :: _ => UB "free of a freed line of history"
      | h => Ret (set_history (drop 1 h ++ [Line cmd]) cli)
      end
  end.

(** ** Printing *)

(** Bytes to the client. *)
Definition send (s : list byte) (cli : cli_def) : cli_def :=
  set_out (d_out cli ++ [Sent s]) cli.

(** [fprintf(cli->client, "...%s", ..., cli->newline)]. *)
Definition fprint_client (cli : cli_def) (s : list byte) : outcome cli_def :=
  if d_client cli then
    match d_newline cli with
    | Some nl => Ret (send (s ++ nl) cli)
    | None => UB "printf of a NULL newline"
    end
  else Ret cli.

(** A string in double quotes. *)
Definition quoted (s : list byte) : list byte := [Byte.x22] ++ s ++ [Byte.x22].

Definition ch (s : list byte) (i : nat) : byte := nth i s Byte.x00.

Fixpoint skip_space (s : list byte) : list byte :=
  match s with c :: s' => if isspace c then skip_space s' else s | [] => [] end.

Definition cli_count_filter (count : Z) (s : list byte) : Z * cli_filter :=
  (CLI_ERROR, count_filter (match skip_space s with [] => count | _ => count + 1 end)).

Section with_regex.
Context `{Regex}.

Definition cli_match_filter (invert : bool) (m : match_union) (s : list byte) : Z * cli_filter :=
  let r := match m with
    | match_re p ext icase => if regexec p ext icase s then CLI_OK else CLI_ERROR
    | match_string t => match strstr s t with Some _ => CLI_OK | None => CLI_ERROR end
    end in
  (if invert then if r =? CLI_OK then CLI_ERROR else CLI_OK else r, match_filter invert m).

Definition found (s t : list byte) : bool :=
  match strstr s t with Some _ => true | None => false end.

Definition cli_range_filter (matched : bool) (from : list byte) (to : option (list byte))
    (s : list byte) : Z * cli_filter :=
  let matched := if matched then true else found s from in
  if matched then
    (CLI_OK, range_filter (negb (match to with Some t => found s t | None => false end)) from to)
  else (CLI_ERROR, range_filter false from to).

(** [f->filter(cli, string, f->data)] with a line. *)
Definition filter_line (f : cli_filter) (s : list byte) : Z * cli_filter :=
  match f with
  | match_filter inv m => cli_match_filter inv m s
  | range_filter b from to => cli_range_filter b from to s
  | count_filter n => cli_count_filter n s
  end.

(** [f->filter(cli, NULL, f->data)]: the data is freed; the count is printed. *)
Definition filter_end (f : cli_filter) (cli : cli_def) : outcome cli_def :=
  match f with
  | count_filter n => fprint_client cli (bs (pretty n))
  | _ => Ret cli
  end.

(** A line through the chain of filters: whether it is printed.  The filters
    after one that holds it back do not see it. *)
Fixpoint run_filters (fs : list cli_filter) (s : list byte) : bool * list cli_filter :=
  match fs with
  | [] => (true, [])
  | f :: fs =>
      let '(r, f) := filter_line f s in
      if r =? CLI_OK then let '(p, fs) := run_filters fs s in (p, f :: fs)
      else (false, f :: fs)
  end.

Definition print_line (filter : bool) (cli : cli_def) (s : list byte) : outcome cli_def :=
  let '(print, fs) := if filter then run_filters (d_filters cli) s else (true, d_filters cli) in
  let cli := set_filters fs cli in
  if print then
    match d_print_callback cli with
    | Some f => Ret (set_out (d_out cli ++ [Printed f s]) cli)
    | None => fprint_client cli s
    end
  else Ret cli.

(** The text cut at its newlines. *)
Fixpoint lines (s : list byte) : list (list byte) :=
  match s with
  | [] => [[]]
  | c :: s =>
      if byte_eqb c Byte.x0a then [] :: lines s
      else match lines s with l :: ls => (c :: l) :: ls | [] => [[c]] end
  end.

Fixpoint print_lines (filter : bool) (cli : cli_def) (ls : list (list byte)) : outcome cli_def :=
  match ls with
  | [] => Ret cli
  | s :: ls => cli ← print_line filter cli s; print_lines filter cli ls
  end.

(** [_print] on the formatted text. *)
Definition _print (cli : cli_def) (filter : bool) (text : list byte) : outcome cli_def :=
  print_lines filter cli (lines text).

Definition cli_print (cli : cli_def) (text : list byte) : outcome cli_def := _print cli true text.

Definition cli_error (cli : cli_def) (text : list byte) : outcome cli_def := _print cli false text.

(** ** Making filters from the words of a command line *)

Fixpoint join_words (argv : list (list byte)) : list byte :=
  match argv with
  | [] => []
  | [w] => w
  | w :: ws => w ++ bs " " ++ join_words ws
  end.

(** The options of [grep] and [egrep]: whether -v and -i were given and the
    words left.  The last word is never an option. *)
Fixpoint grep_options (args : list (list byte)) (invert icase : bool)
    : bool * bool * list (list byte) :=
  match args with
  | a :: ((_ :: _) as rest) =>
      let p := drop 1 a in
      if byte_eqb (ch a 0) Byte.x2d && negb (byte_eqb (ch a 1) Byte.x00)
         && forallb (λ c, byte_eqb c Byte.x76 || byte_eqb c Byte.x69 || byte_eqb c Byte.x65) p
      then
        let invert := invert || existsb (byte_eqb Byte.x76) p in
        let icase := icase || existsb (byte_eqb Byte.x69) p in
        if existsb (byte_eqb Byte.x65) p then (invert, icase, rest)
        else grep_options rest invert icase
      else (invert, icase, args)
  | _ => (invert, icase, args)
  end.

(** The result of the functions that make a filter: [rc], and the filter when
    [rc] is [CLI_OK]. *)
Definition cli_match_filter_init (cli : cli_def) (argv : list (list byte))
    : outcome (option cli_filter * cli_def) :=
  if (length argv <? 2)%nat then
    cli ← fprint_client cli (bs "Match filter requires an argument"); Ret (None, cli)
  else
    let a := nth 0 argv [] in
    if byte_eqb (ch a 0) Byte.x69 || (byte_eqb (ch a 0) Byte.x65 && byte_eqb (ch a 1) Byte.x78)
    then Ret (Some (match_filter (byte_eqb (ch a 0) Byte.x65)
                      (match_string (join_words (drop 1 argv)))), cli)
    else
      let extended := byte_eqb (ch a 0) Byte.x65 in
      let '(invert, icase, rest) := grep_options (drop 1 argv) false false in
      let p := join_words rest in
      if regcomp p extended icase then Ret (Some (match_filter invert (match_re p extended icase)), cli)
      else cli ← fprint_client cli (bs "Invalid pattern " ++ quoted p); Ret (None, cli).

Definition cli_range_filter_init (cli : cli_def) (argv : list (list byte))
    : outcome (option cli_filter * cli_def) :=
  if strncmp (nth 0 argv []) (bs "bet") 3 =? 0 then
    if (length argv <? 3)%nat then
      cli ← fprint_client cli (bs "Between filter requires 2 arguments"); Ret (None, cli)
    else Ret (Some (range_filter false (nth 1 argv []) (Some (join_words (drop 2 argv)))), cli)
  else
    if (length argv <? 2)%nat then
      cli ← fprint_client cli (bs "Begin filter requires an argument"); Ret (None, cli)
    else Ret (Some (range_filter false (join_words (drop 1 argv)) None), cli).

Definition cli_count_filter_init (cli : cli_def) (argv : list (list byte))
    : outcome (option cli_filter * cli_def) :=
  if (1 <? length argv)%nat then
    cli ← fprint_client cli (bs "Count filter does not take arguments"); Ret (None, cli)
  else Ret (Some (count_filter 0), cli).
End with_regex.
