(* ===== verification/CliCommands.v ===== *)
(** libcli, part two (src/libcli/libcli.c): the tree of commands, the words of a
    line, the choice of a command, its filters and its callback, completion, and
    a session read from a file.

    A pointer to a command that stays in the tree is its path of indexes from
    the list of top-level commands; [[]] is the NULL parent.  [up] is the chain
    of [parent] pointers of a list of commands, nearest first. *)

From Stdlib Require Import ZArith Lia String.
From stdpp Require Import base tactics list numbers pretty.
From coqutil Require Import Byte.
From S2P Require Import Prelude Words CMem CString Cli.

#[local] Open Scope Z_scope.

(** What the program around libcli supplies: its command callbacks, the
    callbacks of authentication and of the timer, and [crypt]. *)
Class Program := {
  call_command : positive → cli_def → list byte → list (list byte) → outcome (Z * cli_def);
  call_auth : positive → list byte → list byte → bool;
  call_enable : positive → list byte → bool;
  call_regular : positive → cli_def → outcome (Z * cli_def);
  crypt : list byte → list byte → list byte
}.

(** ** Registration *)

(** The loop over [unique_len]: from [n], at most [k] more steps, until no other
    command of the list shares the first [n] bytes. *)
Fixpoint shortest (others : list (list byte)) (name : list byte) (k n : nat) : nat :=
  match k with
  | O => n
  | S k => if existsb (λ p, strncmp p name n =? 0) others then shortest others name k (S n) else n
  end.

Fixpoint build_command (others : list (list byte)) (c : cli_command) : cli_command :=
  let 'mk_command name cb _ help priv mode children := c in
  mk_command name cb (shortest others name (length name) 1) help priv mode
    ((fix build (before : list (list byte)) (cs : list cli_command) :=
       match cs with
       | [] => []
       | c :: cs =>
           build_command (before ++ map c_command cs) c :: build (before ++ [c_command c]) cs
       end) [] children).

(** [before] are the names of the commands of the list already passed. *)
Fixpoint build_shortest (before : list (list byte)) (cs : list cli_command) : list cli_command :=
  match cs with
  | [] => []
  | c :: cs =>
      build_command (before ++ map c_command cs) c :: build_shortest (before ++ [c_command c]) cs
  end.

Definition cli_build_shortest (commands : list cli_command) : list cli_command :=
  build_shortest [] commands.

Definition with_children (f : list cli_command → list cli_command) (c : cli_command) : cli_command :=
  let 'mk_command name cb u help priv mode children := c in
  mk_command name cb u help priv mode (f children).

(** Append [c] to the children of the command at [path], then
    [cli_build_shortest(cli, parent)]: on the list that starts at the parent
    itself. *)
Fixpoint register_under (path : list nat) (c : cli_command) (cs : list cli_command)
    : list cli_command :=
  match path with
  | [] => cs
  | [i] =>
      let cs := alter (with_children (λ l, l ++ [c])) i cs in
      take i cs ++ cli_build_shortest (drop i cs)
  | i :: path => alter (with_children (register_under path c)) i cs
  end.

(** The list of children at a path. *)
Fixpoint children_at (path : list nat) (cs : list cli_command) : list cli_command :=
  match path with
  | [] => cs
  | i :: path => match cs !! i with Some c => children_at path (c_children c) | None => [] end
  end.

(** Returns the place of the new command. *)
Definition cli_register_command (cli : cli_def) (parent : list nat) (command : list byte)
    (cb : option callback) (privilege mode : Z) (help : option (list byte))
    : list nat * cli_def :=
  let c := mk_command command cb 0 help privilege mode [] in
  let place := parent ++ [length (children_at parent (d_commands cli))] in
  (place,
   set_commands
     match parent with
     | [] => cli_build_shortest (d_commands cli ++ [c])
     | _ => register_under parent c (d_commands cli)
     end cli).

Fixpoint unregister (cs : list cli_command) (name : list byte) : list cli_command :=
  match cs with
  | [] => []
  | c :: cs => if strcmp (c_command c) name =? 0 then cs else c :: unregister cs name
  end.

Definition cli_unregister_command (cli : cli_def) (name : list byte) : Z * cli_def :=
  (CLI_OK, set_commands (unregister (d_commands cli) name) cli).

(** ** Names and help *)

(** The loop up the parents, with [name] so far; then the last space is cut. *)
Fixpoint name_loop (chain : list cli_command) (name : list byte) : list byte :=
  match chain with
  | [] => name
  | c :: chain => name_loop chain (c_command c ++ bs " " ++ name)
  end.

Definition cli_command_name (chain : list cli_command) : list byte :=
  let name := name_loop chain [] in take (length name - 1) name.

(** [%-20s]. *)
Definition pad20 (s : list byte) : list byte := s ++ repeat Byte.x20 (20 - length s).

Definition help_line (name : list byte) (help : option (list byte)) : list byte :=
  bs "  " ++ pad20 name ++ bs " " ++ default [] help.

(** The test of [privilege] and [mode] that every look at a command makes. *)
Definition visible (cli : cli_def) (c : cli_command) : bool :=
  (c_privilege c <=? d_privilege cli) && ((c_mode c =? d_mode cli) || (c_mode c =? MODE_ANY)).

Definition is_Some_b {A} (o : option A) : bool := match o with Some _ => true | None => false end.

Section with_regex.
Context `{Regex}.

Fixpoint show_help_command (up : list cli_command) (c : cli_command) (cli : cli_def)
    : outcome cli_def :=
  cli ← (if is_Some_b (c_callback c) && visible cli c
         then cli_error cli (help_line (cli_command_name (c :: up)) (c_help c))
         else Ret cli);
  (fix show (cs : list cli_command) (cli : cli_def) : outcome cli_def :=
     match cs with
     | [] => Ret cli
     | c' :: cs => cli ← show_help_command (c :: up) c' cli; show cs cli
     end) (let 'mk_command _ _ _ _ _ _ children := c in children) cli.

Fixpoint cli_show_help (up : list cli_command) (cs : list cli_command) (cli : cli_def)
    : outcome cli_def :=
  match cs with
  | [] => Ret cli
  | c :: cs => cli ← show_help_command up c cli; cli_show_help up cs cli
  end.

(** ** The commands of libcli itself *)

Definition cli_int_enable (cli : cli_def) : Z * cli_def :=
  if d_privilege cli =? PRIVILEGE_PRIVILEGED then (CLI_OK, cli)
  else match d_enable_password cli, d_enable_callback cli with
       | None, None =>
           let cli := (cli_set_privilege cli PRIVILEGE_PRIVILEGED).2 in
           (CLI_OK, (cli_set_configmode cli MODE_EXEC None).2)
       | _, _ => (CLI_OK, set_state STATE_ENABLE_PASSWORD cli)
       end.

Definition cli_int_disable (cli : cli_def) : Z * cli_def :=
  let cli := (cli_set_privilege cli PRIVILEGE_UNPRIVILEGED).2 in
  (CLI_OK, (cli_set_configmode cli MODE_EXEC None).2).

Definition cli_int_help (cli : cli_def) : outcome (Z * cli_def) :=
  cli ← cli_error cli (Byte.x0a :: bs "Commands available:");
  cli ← cli_show_help [] (d_commands cli) cli;
  Ret (CLI_OK, cli).

(** [%3d]. *)
Definition pad3 (n : nat) : list byte :=
  let s := bs (pretty n) in repeat Byte.x20 (3 - length s) ++ s.

Fixpoint show_history (i : nat) (h : list slot) (cli : cli_def) : outcome cli_def :=
  match h with
  | [] => Ret cli
  | Null :: h => show_history (S i) h cli
  | Line s :: h => cli ← cli_error cli (pad3 i ++ bs ". " ++ s); show_history (S i) h cli
  | Freed :: _ => UB "read of a freed line of history"
  end.

Definition cli_int_history (cli : cli_def) : outcome (Z * cli_def) :=
  cli ← cli_error cli (Byte.x0a :: bs "Command history:");
  cli ← show_history 0 (d_history cli) cli;
  Ret (CLI_OK, cli).

Definition cli_int_quit (cli : cli_def) : Z * cli_def :=
  let cli := (cli_set_privilege cli PRIVILEGE_UNPRIVILEGED).2 in
  (CLI_QUIT, (cli_set_configmode cli MODE_EXEC None).2).

Definition cli_int_exit (cli : cli_def) : Z * cli_def :=
  if d_mode cli =? MODE_EXEC then cli_int_quit cli
  else if MODE_CONFIG <? d_mode cli then (CLI_OK, (cli_set_configmode cli MODE_CONFIG None).2)
  else (CLI_OK, (cli_set_configmode cli MODE_EXEC None).2).

Definition cli_int_configure_terminal (cli : cli_def) : Z * cli_def :=
  (CLI_OK, (cli_set_configmode cli MODE_CONFIG None).2).

Definition calloc_cli : cli_def :=
  mk_cli [] None None None None [] None (repeat Null MAX_HISTORY) false None None None None
    0 0 STATE_LOGIN [] None false [].

Definition cli_init : cli_def :=
  let reg cli name cb priv mode help :=
    (cli_register_command cli [] (bs name) (Some cb) priv mode (Some (bs help))).2 in
  let cli := calloc_cli in
  let cli := reg cli "help" cb_help PRIVILEGE_UNPRIVILEGED MODE_ANY "Show available commands" in
  let cli := reg cli "quit" cb_quit PRIVILEGE_UNPRIVILEGED MODE_ANY "Disconnect" in
  let cli := reg cli "logout" cb_quit PRIVILEGE_UNPRIVILEGED MODE_ANY "Disconnect" in
  let cli := reg cli "exit" cb_exit PRIVILEGE_UNPRIVILEGED MODE_ANY "Exit from current mode" in
  let cli := reg cli "history" cb_history PRIVILEGE_UNPRIVILEGED MODE_ANY
               "Show a list of previously run commands" in
  let cli := reg cli "enable" cb_enable PRIVILEGE_UNPRIVILEGED MODE_EXEC
               "Turn on privileged commands" in
  let cli := reg cli "disable" cb_disable PRIVILEGE_PRIVILEGED MODE_EXEC
               "Turn off privileged commands" in
  let '(c, cli) := cli_register_command cli [] (bs "configure") None PRIVILEGE_PRIVILEGED
                     MODE_EXEC (Some (bs "Enter configuration mode")) in
  let '(_, cli) := cli_register_command cli c (bs "terminal") (Some cb_configure_terminal)
                     PRIVILEGE_PRIVILEGED MODE_EXEC
                     (Some (bs "Configure from the terminal")) in
  let cli := set_privilege (-1) (set_mode (-1) cli) in
  let cli := (cli_set_privilege cli PRIVILEGE_UNPRIVILEGED).2 in
  (cli_set_configmode cli MODE_EXEC None).2.
End with_regex.

(** ** The words of a line *)

(** The loop of [cli_parse_line].  A pointer into the line is the rest of the
    line from it on; the word from [word_start] to [p] is what the first has more
    than the second.  A pass either advances [p] or forgets [word_start]. *)
Fixpoint parse_loop (fuel : nat) (max_words : nat) (words : list (list byte))
    (p : list byte) (word_start : option (list byte)) (inquote : option byte)
    : outcome (list (list byte)) :=
  match fuel with
  | O => Spin
  | S fuel =>
    if (length words <? max_words - 1)%nat then
      let word (start : list byte) : list byte := take (length start - length p) start in
      let closed : list (list byte) :=
        match word_start with Some start => words ++ [word start] | None => words end in
      match p with
      | [] => Ret closed
      | c :: p' =>
          let at_quote := match inquote with Some q => byte_eqb c q | None => false end in
          let ends := is_Some_b word_start && negb (is_Some_b inquote)
                      && (isspace c || byte_eqb c Byte.x7c) in
          if at_quote || ends then
            parse_loop fuel max_words closed (if is_Some_b inquote then p' else p) None None
          else if byte_eqb c Byte.x22 || byte_eqb c Byte.x27 then
            parse_loop fuel max_words words p' (Some p') (Some c)
          else
            match word_start with
            | Some _ => parse_loop fuel max_words words p' word_start inquote
            | None =>
                if byte_eqb c Byte.x7c then
                  parse_loop fuel max_words (words ++ [bs "|"]) p' None inquote
                else if isspace c then parse_loop fuel max_words words p' None inquote
                else parse_loop fuel max_words words p' (Some p) inquote
            end
      end
    else Ret words
  end.

Definition cli_parse_line (line : list byte) (max_words : nat) : outcome (list (list byte)) :=
  parse_loop (2 * length line + 2) max_words [] line (Some line) None.

(** ** Choosing and running a command *)

(** The length of the array of words, and of the array of filters. *)
Definition max_words : nat := 128.

Definition last_byte (w : list byte) : option byte := w !! (length w - 1)%nat.

(** The tests of the loop of [cli_find_command] on the command [c] and the word
    [w]; [inl]: the loop goes on to the next command; [inr]: [c] is the command.
    On the way the session can drop out of a submode of the configuration. *)
Definition try_command (cli : cli_def) (c : cli_command) (w : list byte) : cli_def + cli_def :=
  if d_privilege cli <? c_privilege c then inl cli
  else if negb (strncasecmp (c_command c) w (c_unique_len c) =? 0) then inl cli
  else if negb (strncasecmp (c_command c) w (length w) =? 0) then inl cli
  else
    let cli := if (MODE_CONFIG <? d_mode cli) && (c_mode c =? MODE_CONFIG)
               then (cli_set_configmode cli MODE_CONFIG None).2 else cli in
    if (c_mode c =? d_mode cli) || (c_mode c =? MODE_ANY) then inr cli else inl cli.

Section with_program.
Context `{Regex, Program}.

(** A word that ends in a question mark: the commands it could mean. *)
Fixpoint help_matches (cli : cli_def) (cs : list cli_command) (w : list byte) : outcome cli_def :=
  match cs with
  | [] => Ret cli
  | c :: cs =>
      cli ← (if (strncasecmp (c_command c) w (length w - 1) =? 0)
                && (is_Some_b (c_callback c) || negb (bool_decide (c_children c = [])))
                && visible cli c
             then cli_error cli (help_line (c_command c) (c_help c))
             else Ret cli);
      help_matches cli cs w
  end.

Fixpoint errors (cli : cli_def) (ls : list (list byte)) : outcome cli_def :=
  match ls with [] => Ret cli | l :: ls => cli ← cli_error cli l; errors cli ls end.

Definition filter_help (cli : cli_def) (argv : list (list byte)) : outcome cli_def :=
  let a := nth 0 argv [] in
  if (length argv =? 1)%nat then
    errors cli (map (λ '(n, h), help_line (bs n) (Some (bs h)))
      [("begin", "Begin with lines that match"); ("between", "Between lines that match");
       ("count", "Count of lines"); ("exclude", "Exclude lines that match");
       ("include", "Include lines that match");
       ("grep", "Include lines that match regex (options: -v, -i, -e)");
       ("egrep", "Include lines that match extended regex")]%string)
  else
    errors cli ((if byte_eqb (ch a 0) Byte.x63 then [] else [bs "  WORD"]) ++
                (if (2 <? length argv)%nat || byte_eqb (ch a 0) Byte.x63 then [bs "  <cr>"] else [])).

(** The filter that the words [argv] name: [None] when it is refused. *)
Definition make_filter (cli : cli_def) (argv : list (list byte))
    : outcome (option cli_filter * cli_def) :=
  let a := nth 0 argv [] in
  let named name := strncmp (bs name) a (length a) =? 0 in
  if named "include"%string || named "exclude"%string || named "grep"%string || named "egrep"%string
  then cli_match_filter_init cli argv
  else if named "begin"%string || named "between"%string then cli_range_filter_init cli argv
  else if named "count"%string then cli_count_filter_init cli argv
  else cli ← cli_error cli (bs "Invalid filter " ++ quoted a); Ret (None, cli).

(** The loop over [filters]: [inl]: [cli_find_command] returns at once; [inr]:
    the loop is over, with [rc].  [filters] are the indexes of the words that
    start a filter, [made] the filters made so far. *)
Fixpoint make_filters (cli : cli_def) (words : list (list byte)) (filters : list nat)
    (made : list cli_filter) : outcome (Z * cli_def + Z * cli_def) :=
  match filters with
  | [] => Ret (inr (CLI_OK, cli))
  | f :: rest =>
      let n := match rest with g :: _ => g | [] => length words end in
      if (f =? n - 1)%nat then
        cli ← cli_error cli (bs "Missing filter"); Ret (inl (CLI_ERROR, cli))
      else
        let argv := take (n - (f + 1)) (drop (f + 1) words) in
        let a := nth 0 argv [] in
        match last_byte (List.last argv []) with
        | None => UB "read before the first byte of an empty word"
        | Some c =>
            if byte_eqb c Byte.x3f then
              cli ← filter_help cli argv; Ret (inl (CLI_OK, cli))
            else if byte_eqb (ch a 0) Byte.x62 && (length a <? 3)%nat then
              cli ← cli_error cli (bs "Ambiguous filter " ++ quoted a ++ bs " (begin, between)");
              Ret (inl (CLI_ERROR, cli))
            else if byte_eqb (ch a 0) Byte.x65 && (length a <? 2)%nat then
              cli ← cli_error cli (bs "Ambiguous filter " ++ quoted a ++ bs " (egrep, exclude)");
              Ret (inl (CLI_ERROR, cli))
            else
              '(filt, cli) ← make_filter cli argv;
              match filt with
              | Some filt =>
                  let made := made ++ [filt] in
                  make_filters (set_filters made cli) words rest made
              | None => Ret (inr (CLI_ERROR, set_filters made cli))
              end
        end
  end.

(** The call of a callback. *)
Definition run_callback (cb : callback) (cli : cli_def) (name : list byte) (argv : list (list byte))
    : outcome (Z * cli_def) :=
  match cb with
  | cb_enable => Ret (cli_int_enable cli)
  | cb_disable => Ret (cli_int_disable cli)
  | cb_help => cli_int_help cli
  | cb_history => cli_int_history cli
  | cb_quit => Ret (cli_int_quit cli)
  | cb_exit => Ret (cli_int_exit cli)
  | cb_configure_terminal => Ret (cli_int_configure_terminal cli)
  | cb_program f => call_command f cli name argv
  end.

(** The last call of every filter, which also unlinks it. *)
Fixpoint end_filters (fs : list cli_filter) (cli : cli_def) : outcome cli_def :=
  match fs with
  | [] => Ret cli
  | f :: fs => cli ← filter_end f cli; end_filters fs (set_filters fs cli)
  end.

(** The filters, the callback, and the end of the filters. *)
Definition run_found (cli : cli_def) (words : list (list byte)) (filters : list nat)
    (cb : callback) (name : list byte) (argv : list (list byte)) : outcome (Z * cli_def) :=
  r ← make_filters cli words filters [];
  match r with
  | inl r => Ret r
  | inr (rc, cli) =>
      '(rc, cli) ← (if rc =? CLI_OK then run_callback cb cli name argv else Ret (rc, cli));
      cli ← end_filters (d_filters cli) cli;
      Ret (rc, cli)
  end.

(** [ws] are the words from [start_word] on; a [start_word] past the last word is
    a NULL pointer. *)
Fixpoint cli_find_command (words : list (list byte)) (filters : list nat)
    (ws : list (list byte)) (up commands : list cli_command) (cli : cli_def)
    : outcome (Z * cli_def) :=
  let c_words := match filters with f :: _ => f | [] => length words end in
  match ws with
  | [] => Ret (CLI_ERROR, cli)
  | w :: ws =>
      let start_word := (length words - S (length ws))%nat in
      match last_byte w with
      | None => UB "read before the first byte of an empty word"
      | Some l =>
        if byte_eqb l Byte.x3f then
          cli ← help_matches cli commands w; Ret (CLI_OK, cli)
        else
          (fix loop (cs : list cli_command) (cli : cli_def) : outcome (Z * cli_def) :=
             match cs with
             | [] =>
                 match commands with
                 | [] => UB "commands->parent of an empty list of commands"
                 | _ =>
                     cli ← cli_error cli
                       (bs "Invalid " ++ (match up with [] => bs "command" | _ => bs "argument" end)
                        ++ bs " " ++ quoted w);
                     Ret (CLI_ERROR, cli)
                 end
             | c :: cs =>
                 match try_command cli c w with
                 | inl cli => loop cs cli
                 | inr cli =>
                     match c_children c, c_callback c with
                     | [], None =>
                         cli ← cli_error cli (bs "No callback for " ++
                                                quoted (cli_command_name (c :: up)));
                         Ret (CLI_ERROR, cli)
                     | [], Some cb =>
                         run_found cli words filters cb (cli_command_name (c :: up))
                           (take (c_words - start_word - 1) ws)
                     | children, _ =>
                         if (start_word =? c_words - 1)%nat then
                           cli ← cli_error cli (bs "Incomplete command"); Ret (CLI_ERROR, cli)
                         else cli_find_command words filters ws (c :: up) children cli
                     end
                 end
             end) commands cli
      end
  end.

(** The indexes of the words that start with a bar, as [cli_run_command] stores
    them: at most [max_words - 1], and the reader stops at the first that is 0. *)
Definition filter_indexes (words : list (list byte)) : list nat :=
  let all := filter (λ i, ch (nth i words []) 0 = Byte.x7c) (seq 0 (length words)) in
  match take (max_words - 1) all with
  | O :: _ => []
  | l => l
  end.

Definition cli_run_command (cli : cli_def) (command : list byte) : outcome (Z * cli_def) :=
  let command := skip_space command in
  match command with
  | [] => Ret (CLI_OK, cli)
  | _ =>
      words ← cli_parse_line command max_words;
      '(r, cli) ← (match words with
                   | [] => Ret (CLI_ERROR, cli)
                   | _ => cli_find_command words (filter_indexes words) words [] (d_commands cli) cli
                   end);
      Ret (if r =? CLI_QUIT then r else CLI_OK, cli)
  end.

(** ** Completion *)

(** A completion that does not fit in the array of 128 is written past it. *)
Definition add_completion (completions : list (list byte)) (name : list byte)
    : outcome (list (list byte)) :=
  if (length completions <? 128)%nat then Ret (completions ++ [name])
  else UB "write past the array of completions".

Fixpoint cli_find_completions (cli : cli_def) (ws : list (list byte)) (commands : list cli_command)
    (completions : list (list byte)) : outcome (list (list byte)) :=
  match ws with
  | [] => UB "strlen of a NULL word"
  | w :: ws =>
      (fix loop (cs : list cli_command) (completions : list (list byte)) :=
         match cs with
         | [] => Ret completions
         | c :: cs =>
             completions ←
               (if visible cli c && (strncasecmp (c_command c) w (length w) =? 0) then
                  match ws, c_children c with
                  | [], _ => add_completion completions (c_command c)
                  | _, [] => Ret completions
                  | _, children => cli_find_completions cli ws children completions
                  end
                else Ret completions);
             loop cs completions
         end) commands completions
  end.

Definition cli_get_completions (cli : cli_def) (command : list byte) : outcome (list (list byte)) :=
  match skip_space command with
  | [] => Ret []
  | command =>
      words ← cli_parse_line command max_words;
      match words with
      | [] => Ret []
      | _ => cli_find_completions cli words (d_commands cli) []
      end
  end.

(** ** A session from a file *)

(** [strpbrk(buf, "#!\r\n")] and the cut at it. *)
Fixpoint cut_comment (s : list byte) : list byte :=
  match s with
  | [] => []
  | c :: s =>
      if byte_eqb c Byte.x23 || byte_eqb c Byte.x21 || byte_eqb c Byte.x0d || byte_eqb c Byte.x0a
      then [] else c :: cut_comment s
  end.

(** The loop that looks for the last byte that is not a space: the string up to
    and with it. *)
Fixpoint trim_end (s : list byte) : list byte :=
  match s with
  | [] => []
  | c :: s => match trim_end s with
              | [] => if isspace c then [] else [c]
              | t => c :: t
              end
  end.

(** The command in a line of the file. *)
Definition file_command (line : list byte) : list byte :=
  trim_end (skip_space (cut_comment (before_nul line))).

Fixpoint file_loop (fuel : nat) (cli : cli_def) (fh : list byte) : outcome cli_def :=
  match fuel with
  | O => Spin
  | S fuel =>
      match fgets 4096 fh with
      | None => Ret cli
      | Some (line, fh) =>
          match file_command line with
          | [] => file_loop fuel cli fh
          | cmd =>
              if strcasecmp cmd (bs "quit") =? 0 then Ret cli
              else
                '(rc, cli) ← cli_run_command cli cmd;
                if rc =? CLI_QUIT then Ret cli else file_loop fuel cli fh
          end
      end
  end.

Definition cli_file (cli : cli_def) (fh : list byte) (privilege mode : Z) : outcome (Z * cli_def) :=
  let '(oldpriv, cli) := cli_set_privilege cli privilege in
  let '(oldmode, cli) := cli_set_configmode cli mode None in
  cli ← file_loop (S (length fh)) cli fh;
  let cli := (cli_set_privilege cli oldpriv).2 in
  Ret (CLI_OK, (cli_set_configmode cli oldmode None).2).
End with_program.
