(* ===== verification/CliSpec.v ===== *)
(** The correctness of libcli's commands (Cli.v, CliCommands.v): the words of a
    line, the shortest unique prefixes, the right to run a command, the output
    filters, a session read from a file. *)

From Stdlib Require Import ZArith Lia String.
From stdpp Require Import base tactics list numbers pretty.
From coqutil Require Import Byte.
From S2P Require Import Prelude Words CMem CString Cli CliCommands.

#[local] Open Scope Z_scope.

(** ** The words of a line *)

(** What the loop still has to do: two passes for a byte, one more for a word
    that is open. *)
Definition passes (p : list byte) (word_start : option (list byte)) : nat :=
  2 * length p + (if word_start then 2 else 1).

Lemma parse_loop_ends fuel n words p ws q :
  (passes p ws ≤ fuel)%nat → (q ≠ None → ws ≠ None) → parse_loop fuel n words p ws q ≠ Spin.
Proof.
  revert words p ws q. induction fuel as [|fuel IH]; intros words p ws q Hf Hq; unfold passes in *.
  { destruct ws; lia. }
  simpl. case_if; [ | done]. destruct p as [|c p]; [done | ]. simpl in Hf.
  destruct q as [q|]; cbn [is_Some_b negb andb].
  - rewrite andb_false_r. rewrite orb_false_r. case_if; [apply IH; simpl; lia || done | ].
    destruct ws as [w|]; [ | by destruct Hq]. case_if; apply IH; simpl; lia || done.
  - destruct ws as [w|]; cbn [is_Some_b negb andb orb].
    + repeat case_if; apply IH; simpl; lia || done.
    + repeat case_if; apply IH; simpl; lia || done.
Qed.

Lemma parse_loop_more f f' n words p ws q :
  parse_loop f n words p ws q ≠ Spin → (f ≤ f')%nat →
  parse_loop f' n words p ws q = parse_loop f n words p ws q.
Proof.
  revert f' words p ws q. induction f as [|f IH]; intros f' words p ws q Hr Hle; [done | ].
  destruct f' as [|f']; [lia | ]. simpl in *. case_if; [ | done].
  destruct p as [|c p]; [done | ].
  repeat match goal with
    | |- context [if ?b then _ else _] => destruct b
    | |- context [match ws with _ => _ end] => destruct ws
    end; apply IH; done || lia.
Qed.

Lemma parse_line_Ret f line n r :
  parse_loop f n [] line (Some line) None = Ret r → cli_parse_line line n = Ret r.
Proof.
  intros Hr. unfold cli_parse_line.
  assert (parse_loop (2 * length line + 2) n [] line (Some line) None ≠ Spin) as Hs.
  { apply parse_loop_ends; [unfold passes; lia | done]. }
  rewrite <- (parse_loop_more _ (f + (2 * length line + 2)) _ _ _ _ _ Hs) by lia.
  rewrite <- Hr. apply parse_loop_more; [by rewrite Hr | lia].
Qed.

(** A byte that ends a word, or begins a quote. *)
Definition is_quote (c : byte) : bool := byte_eqb c Byte.x22 || byte_eqb c Byte.x27.
Definition special (c : byte) : bool := isspace c || byte_eqb c Byte.x7c || is_quote c.

(** The way to write a list of words on a line: a word that could be read in
    another way is put in double quotes. *)
Definition plain (w : list byte) : bool :=
  negb (bool_decide (w = [])) && forallb (λ c, negb (special c)) w.
Definition write_word (w : list byte) : list byte := if plain w then w else quoted w.
Definition write_line (ws : list (list byte)) : list byte := join_words (map write_word ws).

Lemma parse_bare n words w p start f :
  (length words < n - 1)%nat → forallb (λ c, negb (special c)) w = true →
  parse_loop (length w + f) n words (w ++ p) (Some start) None
  = parse_loop f n words p (Some start) None.
Proof.
  intros Hn. induction w as [|c w IH]; [done | ]. cbn [forallb]. intros [Hc Hw]%andb_true_iff.
  unfold special, is_quote in Hc. apply negb_true_iff in Hc.
  apply orb_false_iff in Hc as [Hc Hq]. apply orb_false_iff in Hc as [Hs Hb].
  cbn [length app Nat.add parse_loop is_Some_b negb andb orb].
  rewrite (proj2 (Nat.ltb_lt _ _) Hn), Hs, Hb, Hq. by apply IH.
Qed.

Lemma parse_in_quotes n words w p start f :
  (length words < n - 1)%nat → forallb (λ c, negb (is_quote c)) w = true →
  parse_loop (length w + f) n words (w ++ p) (Some start) (Some Byte.x22)
  = parse_loop f n words p (Some start) (Some Byte.x22).
Proof.
  intros Hn. induction w as [|c w IH]; [done | ]. cbn [forallb]. intros [Hc Hw]%andb_true_iff.
  apply negb_true_iff in Hc. pose proof Hc as Hc'. unfold is_quote in Hc'.
  apply orb_false_iff in Hc' as [H22 H27].
  cbn [length app Nat.add parse_loop is_Some_b negb andb orb].
  rewrite (proj2 (Nat.ltb_lt _ _) Hn), H22, H27. by apply IH.
Qed.

(** A word at the start of the line, or after a blank. *)
Definition fresh (p : list byte) (ws : option (list byte)) : Prop := ws = None ∨ ws = Some p.

Lemma parse_quoted n words w p ws f :
  (length words < n - 1)%nat → forallb (λ c, negb (is_quote c)) w = true →
  parse_loop (S (length w + S f)) n words (quoted w ++ p) ws None
  = parse_loop f n (words ++ [w]) p None None.
Proof.
  intros Hn Hw. unfold quoted. cbn [app parse_loop].
  rewrite (proj2 (Nat.ltb_lt _ _) Hn).
  change (isspace Byte.x22 || byte_eqb Byte.x22 Byte.x7c) with false.
  rewrite andb_false_r. cbn [orb].
  change (byte_eqb Byte.x22 Byte.x22 || _) with true. cbn match.
  rewrite <- app_assoc. rewrite parse_in_quotes by done.
  cbn [parse_loop app]. rewrite (proj2 (Nat.ltb_lt _ _) Hn).
  change (byte_eqb Byte.x22 Byte.x22) with true. cbn [orb is_Some_b].
  do 3 f_equal. rewrite length_app. simpl length.
  replace (length w + S (length p) - S (length p))%nat with (length w) by lia.
  apply take_app_length.
Qed.

Lemma parse_plain n words w p ws f :
  (length words < n - 1)%nat → plain w = true → fresh (w ++ p) ws →
  p = [] ∨ (∃ p', p = Byte.x20 :: p') →
  parse_loop (length w + S (S f)) n words (w ++ p) ws None
  = parse_loop (S f) n (words ++ [w]) p None None.
Proof.
  intros Hn Hp Hws Hend. unfold plain in Hp. apply andb_true_iff in Hp as [Hne Hw].
  assert (parse_loop (length w + S (S f)) n words (w ++ p) ws None
          = parse_loop (length w + S (S f)) n words (w ++ p) (Some (w ++ p)) None) as ->.
  { destruct Hws as [-> | ->]; [ | done].
    destruct w as [|c w]; [done | ]. cbn [forallb] in Hw. apply andb_true_iff in Hw as [Hc _].
    unfold special, is_quote in Hc. apply negb_true_iff in Hc.
    apply orb_false_iff in Hc as [Hc Hq]. apply orb_false_iff in Hc as [Hs Hb].
    cbn [length app Nat.add parse_loop is_Some_b negb andb orb].
    by rewrite (proj2 (Nat.ltb_lt _ _) Hn), Hs, Hb, Hq. }
  rewrite parse_bare by done. clear Hws.
  assert (take (length (w ++ p) - length p) (w ++ p) = w) as Hword.
  { rewrite length_app. replace (length w + length p - length p)%nat with (length w) by lia.
    apply take_app_length. }
  destruct Hend as [-> | (p' & ->)].
  - cbn [parse_loop]. rewrite (proj2 (Nat.ltb_lt _ _) Hn).
    simpl length in Hword |- *. rewrite Hword. by case_if.
  - cbn [parse_loop]. rewrite (proj2 (Nat.ltb_lt _ _) Hn).
    change (isspace Byte.x20 || byte_eqb Byte.x20 Byte.x7c) with true.
    cbn [is_Some_b negb andb orb]. by rewrite Hword.
Qed.

Lemma parse_written_word n words w p ws :
  (length words < n - 1)%nat → forallb (λ c, negb (is_quote c)) w = true →
  fresh (write_word w ++ p) ws → p = [] ∨ (∃ p', p = Byte.x20 :: p') →
  ∃ k, ∀ f, parse_loop (k + S f) n words (write_word w ++ p) ws None
            = parse_loop (S f) n (words ++ [w]) p None None.
Proof.
  intros Hn Hw Hws Hend. unfold write_word in *. destruct (plain w) eqn:E.
  - exists (S (length w)). intros f. rewrite Nat.add_succ_comm. by apply parse_plain.
  - exists (S (length w + 1)). intros f.
    replace (S (length w + 1) + S f)%nat with (S (length w + S (S f))) by lia.
    by apply parse_quoted.
Qed.

Lemma parse_written n words ws start :
  (length words + length ws ≤ n - 1)%nat →
  Forall (λ w, forallb (λ c, negb (is_quote c)) w = true) ws →
  fresh (write_line ws) start → ws ≠ [] →
  ∃ k, parse_loop k n words (write_line ws) start None = Ret (words ++ ws).
Proof.
  revert words start. induction ws as [|w ws IH]; intros words start Hlen Hq Hs Hne; [done | ].
  apply Forall_cons_1 in Hq as [Hw Hq]. simpl in Hlen. clear Hne.
  destruct ws as [|w' ws].
  - unfold write_line in *. simpl in *.
    destruct (parse_written_word n words w [] start) as (k & Hk); rewrite ?app_nil_r; auto; [lia | ].
    exists (k + 1)%nat. specialize (Hk 0%nat). rewrite app_nil_r in Hk. rewrite Hk. simpl. by case_if.
  - change (write_line (w :: w' :: ws)) with (write_word w ++ Byte.x20 :: write_line (w' :: ws)) in *.
    destruct (parse_written_word n words w (Byte.x20 :: write_line (w' :: ws)) start)
      as (k & Hk); eauto; [lia | ].
    destruct (IH (words ++ [w]) None) as (k' & Hk'); auto.
    { rewrite length_app. simpl in *. lia. }
    { by left. }
    exists (k + S k')%nat. rewrite Hk. rewrite <- app_assoc in Hk'. simpl in Hk'. rewrite <- Hk'.
    cbn [parse_loop].
    assert ((length (words ++ [w]) <? n - 1)%nat = true) as ->.
    { apply Nat.ltb_lt. rewrite length_app. simpl in *. lia. }
    by change (isspace Byte.x20) with true.
Qed.

(** C35. What is written with [write_line] is read back: a line of at most 127
    words, each free of quotes, parses to these words. *)
Theorem parse_line_roundtrip ws :
  Forall (λ w, forallb (λ c, negb (is_quote c)) w = true) ws → ws ≠ [] →
  (length ws ≤ max_words - 1)%nat → cli_parse_line (write_line ws) max_words = Ret ws.
Proof.
  intros Hq Hne Hlen. destruct (parse_written max_words [] ws (Some (write_line ws))) as (k & Hk);
    [exact Hlen | done | by right | done | ].
  by apply parse_line_Ret with (f := k).
Qed.

(** ** Bounds on the words *)

Lemma parse_loop_quiet fuel n words p ws q w :
  parse_loop fuel n words p ws q ≠ Die w ∧ parse_loop fuel n words p ws q ≠ UB w.
Proof.
  revert words p ws q. induction fuel as [|fuel IH]; intros words p ws q; [done | ].
  simpl. case_if; [ | done]. destruct p as [|c p]; [done | ].
  repeat match goal with
    | |- context [if ?b then _ else _] => destruct b
    | |- context [match ws with _ => _ end] => destruct ws
    end; apply IH.
Qed.

(** The words of any line: at most [n - 1], and the parser ends. *)
Lemma parse_loop_bound fuel n words p ws q r :
  parse_loop fuel n words p ws q = Ret r → (length words ≤ n - 1)%nat → (length r ≤ n - 1)%nat.
Proof.
  revert words p ws q. induction fuel as [|fuel IH]; intros words p ws q Hr Hle; [done | ].
  simpl in Hr. case_if_in Hr; [ | by apply Ret_inj in Hr as <-].
  apply Nat.ltb_lt in E.
  assert (∀ w, (length (words ++ [w]) ≤ n - 1)%nat) as Hs by (intros; rewrite length_app; simpl; lia).
  destruct p as [|c p]; [destruct ws; apply Ret_inj in Hr as <-; auto | ].
  repeat match type of Hr with
    | context [if ?b then _ else _] => destruct b
    | context [match ws with _ => _ end] => destruct ws
    end; eauto.
Qed.

(** ** Comparing without case *)

Definition lower (s : list byte) : list byte := map tolower s.

Lemma nonul_lower s : nonul s → nonul (lower s).
Proof.
  unfold nonul, lower. intros Hs Hin. apply Hs.
  apply list_elem_of_fmap in Hin as (c & Hc & Hin). unfold tolower in Hc.
  case_if_in Hc; [ | by rewrite Hc].
  zbool. exfalso. assert (byte.unsigned (byte.of_Z (byte.unsigned c + 32)) = 0) as Hz by (by rewrite <- Hc).
  rewrite byte.unsigned_of_Z in Hz. unfold byte.wrap in Hz.
  rewrite Z.mod_small in Hz; lia.
Qed.

Lemma strncasecmp_0 a b n :
  nonul a → nonul b → strncasecmp a b n = 0 ↔ take n (lower a) = take n (lower b).
Proof.
  intros Ha Hb. unfold strncasecmp, strcasecmp. rewrite <- !firstn_map.
  apply strcmp_0; by apply nonul_take, nonul_lower.
Qed.

(** ** Shortest unique prefixes *)

Definition shares (n : nat) (name other : list byte) : Prop := take n other = take n name.

Lemma shares_less n m name other : (m ≤ n)%nat → shares n name other → shares m name other.
Proof.
  unfold shares. intros Hle Hs. apply (f_equal (take m)) in Hs.
  by rewrite !take_take, !Nat.min_l in Hs by lia.
Qed.

(** [shortest] finds the least length from [n] that no other name shares, or the
    length past the name. *)
Lemma shortest_spec others name k n :
  nonul name → Forall nonul others →
  let u := shortest others name k n in
  (n ≤ u ≤ n + k)%nat ∧
  (∀ m, (n ≤ m < u)%nat → ∃ o, o ∈ others ∧ shares m name o) ∧
  ((u < n + k)%nat → ∀ o, o ∈ others → ¬ shares u name o).
Proof.
  intros Hn Ho. revert n. induction k as [|k IH]; intros n; simpl.
  { split_and!; [lia | lia | intros m; lia | lia]. }
  assert (∀ o, o ∈ others → (strncmp o name n =? 0) = true ↔ shares n name o) as Hsh.
  { intros o Hin. rewrite Z.eqb_eq. apply strncmp_0; [ | done].
    by apply (proj1 (List.Forall_forall _ _) Ho), list_elem_of_In. }
  case_if.
  - apply existsb_exists in E as (o & Hin & Hs). apply list_elem_of_In in Hin.
    apply Hsh in Hs; [ | done].
    destruct (IH (S n)) as (Hr & Hlt & Hge). split_and!; [lia | lia | | intros; apply Hge; lia || done].
    intros m Hm. destruct (decide (m = n)) as [-> | ]; [by exists o | apply Hlt; lia].
  - split_and!; [lia | lia | intros m; lia | ]. intros _ o Hin Hs.
    apply Hsh in Hs; [ | done]. apply not_true_iff_false in E. apply E.
    apply existsb_exists. exists o. by rewrite <- list_elem_of_In.
Qed.

(** What a word [w], without regard to case, means among the commands [cs]: the
    whole name, or a prefix of that name and of no other. *)
Definition means (cs : list cli_command) (i : nat) (w : list byte) : Prop :=
  ∃ c, cs !! i = Some c ∧ lower w `prefix_of` c_command c ∧
    (lower w = c_command c ∨
     ∀ j c', cs !! j = Some c' → j ≠ i → ¬ lower w `prefix_of` c_command c').

(** Names a program registers: in lower case. *)
Definition named (c : cli_command) : Prop :=
  nonul (c_command c) ∧ lower (c_command c) = c_command c.

Lemma build_shortest_lookup before cs i c :
  build_shortest before cs !! i = Some c →
  ∃ c0, cs !! i = Some c0 ∧
    c = build_command (before ++ map c_command (take i cs) ++ map c_command (drop (S i) cs)) c0.
Proof.
  revert before cs. induction i as [|i IH]; intros before [|x cs] Hc; simpl in *; try done.
  - injection Hc as <-. exists x. by rewrite drop_0.
  - apply IH in Hc as (c0 & Hc0 & ->). exists c0. split; [done | ]. by rewrite <- app_assoc.
Qed.

Lemma build_command_fields others c :
  let c' := build_command others c in
  c_command c' = c_command c ∧ c_callback c' = c_callback c ∧ c_help c' = c_help c ∧
  c_privilege c' = c_privilege c ∧ c_mode c' = c_mode c ∧
  c_unique_len c' = shortest others (c_command c) (length (c_command c)) 1.
Proof. by destruct c. Qed.

Lemma prefix_take (w s : list byte) : w `prefix_of` s → take (length w) s = w.
Proof. intros [k ->]. apply take_app_length. Qed.

(** The names of the other commands of a list. *)
Definition other_names (cs : list cli_command) (i : nat) : list (list byte) :=
  map c_command (take i cs) ++ map c_command (drop (S i) cs).

Lemma elem_of_other_names cs i o :
  o ∈ other_names cs i ↔ ∃ j x, cs !! j = Some x ∧ j ≠ i ∧ o = c_command x.
Proof.
  unfold other_names. rewrite elem_of_app, !list_elem_of_fmap. split.
  - intros [(x & -> & Hx) | (x & -> & Hx)]; apply list_elem_of_lookup in Hx as (j & Hj).
    + apply lookup_take_Some in Hj as [Hj ?]. exists j, x. split_and!; [done | lia | done].
    + rewrite lookup_drop in Hj. exists (S i + j)%nat, x. split_and!; [done | lia | done].
  - intros (j & x & Hj & Hji & ->). destruct (decide (j < i)%nat).
    + left. exists x. split; [done | ]. apply list_elem_of_lookup. exists j.
      by rewrite lookup_take_lt by lia.
    + right. exists x. split; [done | ]. apply list_elem_of_lookup. exists (j - S i)%nat.
      rewrite lookup_drop. by replace (S i + (j - S i))%nat with j by lia.
Qed.

Lemma take_prefix (w s : list byte) : take (length w) s = w → w `prefix_of` s.
Proof. intros E. exists (drop (length w) s). by rewrite <- E at 1; rewrite take_drop. Qed.

(** A prefix is as long as [shortest] asks, or is the whole name, exactly when no
    other name has it. *)
Lemma shortest_unique others name w u :
  nonul name → Forall nonul others → w ≠ [] → w `prefix_of` name →
  u = shortest others name (length name) 1 →
  (take u name = take u w) ↔ (w = name ∨ ∀ o, o ∈ others → ¬ w `prefix_of` o).
Proof.
  intros Hn Ho Hne Hp ->.
  destruct (shortest_spec others name (length name) 1 Hn Ho) as (Hr & Hlt & Hge).
  set (u := shortest others name (length name) 1) in *.
  pose proof (prefix_length _ _ Hp) as Hle. pose proof (prefix_take _ _ Hp) as Htl.
  destruct (decide (u ≤ length w)%nat) as [Hul | Hul].
  - split; [intros _ | by destruct Hp as [k ->]; intros _; rewrite take_app_le].
    destruct (decide (w = name)) as [ | Hx]; [by left | right]. intros o Hin Hpo.
    apply (Hge) with (o := o); [ | done | ].
    { assert (length w ≠ length name); [ | lia]. intros El. apply Hx.
      rewrite <- Htl, El. by apply take_ge. }
    apply shares_less with (n := length w); [done | ]. unfold shares. by rewrite Htl, prefix_take.
  - split.
    + intros Htu. left. rewrite (take_ge w) in Htu by lia. rewrite <- Htu. apply take_ge.
      apply (f_equal length) in Htu. rewrite length_take in Htu. lia.
    + intros [-> | Huniq]; [done | ]. exfalso.
      destruct (Hlt (length w)) as (o & Ho' & Hs); [destruct w; [done | simpl in *; lia] | ].
      apply (Huniq o Ho'), take_prefix. unfold shares in Hs. by rewrite Htl in Hs.
Qed.

(** The two comparisons of [try_command] on a command that [cli_build_shortest]
    numbered tell what the word means. *)
Lemma unique_len_means cs i c w :
  Forall named cs → nonul w → w ≠ [] → cli_build_shortest cs !! i = Some c →
  (strncasecmp (c_command c) w (c_unique_len c) = 0 ∧ strncasecmp (c_command c) w (length w) = 0)
  ↔ means cs i w.
Proof.
  intros Hnamed Hw Hne Hc. apply build_shortest_lookup in Hc as (c0 & Hc0 & ->). cbn [app].
  fold (other_names cs i).
  destruct (build_command_fields (other_names cs i) c0) as (Hname & _ & _ & _ & _ & Hu).
  rewrite Hname, Hu.
  assert (∀ j x, cs !! j = Some x → named x) as Hall by (intros; by eapply Forall_lookup_1).
  destruct (Hall _ _ Hc0) as [Hn0 Hl0].
  assert (Forall nonul (other_names cs i)) as Hno.
  { apply List.Forall_forall. intros o (j & x & Hj & _ & ->)%list_elem_of_In%elem_of_other_names.
    by apply (Hall _ _ Hj). }
  rewrite !strncasecmp_0 by done. rewrite Hl0.
  assert (length (lower w) = length w) as Hlen by apply length_map.
  rewrite <- Hlen, (take_ge (lower w) (length (lower w))) by done.
  assert (lower w ≠ []) as Hne' by (by destruct w).
  split.
  - intros [Htu Htl%take_prefix]. exists c0. split_and!; [done | done | ].
    eapply shortest_unique in Htu; [ | done..]. destruct Htu as [ | Hu']; [by left | right].
    intros j x Hj Hji. apply Hu', elem_of_other_names. by exists j, x.
  - intros (x & Hx & Hp & Hor). assert (x = c0) as -> by congruence.
    split; [ | by apply prefix_take]. eapply shortest_unique; [done.. | ].
    destruct Hor as [ | Huniq]; [by left | right].
    intros o (j & y & Hj & Hji & ->)%elem_of_other_names. by apply (Huniq j).
Qed.

Lemma means_unique cs i j w :
  NoDup (map c_command cs) → means cs i w → means cs j w → i = j.
Proof.
  intros Hnd (c & Hc & Hp & Hor) (d & Hd & Hq & Hor'). destruct (decide (i = j)) as [ | Hij]; [done | ].
  destruct Hor as [He | Hu]; [ | by destruct (Hu j d)].
  destruct Hor' as [He' | Hu']; [ | by destruct (Hu' i c)].
  apply (NoDup_lookup _ i j (c_command c) Hnd); rewrite list_lookup_fmap; [by rewrite Hc | ].
  rewrite Hd. simpl. by rewrite <- He, <- He'.
Qed.

(** The modes in which a session can name a command: its own mode, or a submode
    of the configuration for a command of [MODE_CONFIG], which leaves it. *)
Definition mode_ok (m : Z) (c : cli_command) : Prop :=
  c_mode c = m ∨ c_mode c = MODE_ANY ∨ (MODE_CONFIG < m ∧ c_mode c = MODE_CONFIG).

(** The session after the choice of [c]. *)
Definition entered (cli : cli_def) (c : cli_command) : cli_def :=
  if (MODE_CONFIG <? d_mode cli) && (c_mode c =? MODE_CONFIG)
  then (cli_set_configmode cli MODE_CONFIG None).2 else cli.

(** What does not change when the privilege or the mode is set. *)
Definition same_rest (cli cli' : cli_def) : Prop :=
  d_commands cli' = d_commands cli ∧ d_history cli' = d_history cli ∧ d_out cli' = d_out cli ∧
  d_state cli' = d_state cli ∧ d_users cli' = d_users cli ∧
  d_auth_callback cli' = d_auth_callback cli ∧ d_enable_password cli' = d_enable_password cli ∧
  d_enable_callback cli' = d_enable_callback cli.

Lemma set_configmode_fields cli m d :
  let cli' := (cli_set_configmode cli m d).2 in
  d_mode cli' = m ∧ d_privilege cli' = d_privilege cli ∧ same_rest cli cli'.
Proof.
  destruct cli. unfold cli_set_configmode, cli_set_modestring, same_rest. simpl.
  do 2 (case_if; [split_and!; done | ]). destruct d as [[]|]; split_and!; done.
Qed.

Lemma set_privilege_fields cli p :
  let cli' := (cli_set_privilege cli p).2 in
  d_privilege cli' = p ∧ d_mode cli' = d_mode cli ∧ same_rest cli cli'.
Proof.
  destruct cli. unfold cli_set_privilege, cli_set_promptchar, same_rest. simpl.
  case_if; split_and!; done.
Qed.

Lemma entered_mode cli c :
  d_mode (entered cli c) = if (MODE_CONFIG <? d_mode cli) && (c_mode c =? MODE_CONFIG)
                           then MODE_CONFIG else d_mode cli.
Proof. unfold entered. case_if; [apply set_configmode_fields | done]. Qed.

Lemma entered_privilege cli c : d_privilege (entered cli c) = d_privilege cli.
Proof. unfold entered. case_if; [apply set_configmode_fields | done]. Qed.

Lemma mode_ok_entered cli c :
  (c_mode c =? d_mode (entered cli c)) || (c_mode c =? MODE_ANY) = true ↔ mode_ok (d_mode cli) c.
Proof.
  rewrite entered_mode, orb_true_iff, !Z.eqb_eq. unfold mode_ok, MODE_CONFIG, MODE_ANY.
  destruct (Z.ltb_spec 1 (d_mode cli)), (Z.eqb_spec (c_mode c) 1); cbn [andb]; lia.
Qed.

Lemma try_command_inr cli c w cli' :
  try_command cli c w = inr cli' ↔
  c_privilege c ≤ d_privilege cli ∧ mode_ok (d_mode cli) c ∧ cli' = entered cli c ∧
  strncasecmp (c_command c) w (c_unique_len c) = 0 ∧ strncasecmp (c_command c) w (length w) = 0.
Proof.
  rewrite <- mode_ok_entered. unfold try_command. fold (entered cli c).
  case_if; zbool; [split; [done | lia] | ].
  destruct (Z.eqb_spec (strncasecmp (c_command c) w (c_unique_len c)) 0); simpl; [ | naive_solver].
  destruct (Z.eqb_spec (strncasecmp (c_command c) w (length w)) 0); simpl; [ | naive_solver].
  match goal with |- context [if ?b || ?d then _ else _] => destruct (b || d) eqn:E' end; naive_solver.
Qed.

Lemma try_command_inl cli c w cli' : try_command cli c w = inl cli' → cli' = cli.
Proof.
  intros Ht. destruct (try_command cli c w) as [x | x] eqn:E; [ | done]. injection Ht as ->.
  unfold try_command in E. repeat (case_if_in E; [congruence | ]).
  fold (entered cli c) in E.
  destruct ((c_mode c =? d_mode (entered cli c)) || (c_mode c =? MODE_ANY)) eqn:E'; [done | ].
  injection E as <-. unfold entered in *. case_if; [ | done].
  destruct (set_configmode_fields cli MODE_CONFIG None) as [Hm _]. rewrite Hm in E'. by zbool.
Qed.

(** C29. After [cli_build_shortest] on sibling commands whose names are distinct and in lower
    case, a word that is not empty selects a command exactly when the session may see it and the word is
    its name, or a prefix of its name and of no sibling's, in any case; it is one command
    at most.  For names with capitals that is false ([Witness.capitals_ambiguous]): their
    shortest prefixes are computed with regard to case, and words compared without. *)
Theorem shortest_prefix_selects cli cs i c w :
  Forall named cs → NoDup (map c_command cs) → nonul w → w ≠ [] →
  cli_build_shortest cs !! i = Some c →
  ((∃ cli', try_command cli c w = inr cli') ↔
   c_privilege c ≤ d_privilege cli ∧ mode_ok (d_mode cli) c ∧ means cs i w) ∧
  (∀ j, means cs i w → means cs j w → i = j).
Proof.
  intros Hn Hd Hw Hne Hc. split; [ | intros j; by apply means_unique].
  rewrite <- (unique_len_means cs i c w) by done. setoid_rewrite try_command_inr. naive_solver.
Qed.

(** ** The right to run a command *)

(** The commands that a session of privilege [p] and mode [m] can name: they and
    the commands above them are open to it. *)
Inductive allowed (p m : Z) (cs : list cli_command) : cli_command → Prop :=
| allowed_here c : c ∈ cs → c_privilege c ≤ p → mode_ok m c → allowed p m cs c
| allowed_below c c' :
    c ∈ cs → c_privilege c ≤ p → mode_ok m c → allowed p m (c_children c) c' → allowed p m cs c'.

Lemma allowed_drop p m cs c : MODE_CONFIG < m → allowed p MODE_CONFIG cs c → allowed p m cs c.
Proof.
  intros Hm. assert (∀ x, mode_ok MODE_CONFIG x → mode_ok m x) as Hx.
  { unfold mode_ok. intros x. lia. }
  induction 1; [apply allowed_here | eapply allowed_below]; eauto.
Qed.

Lemma allowed_entered cli p cs c x :
  allowed p (d_mode (entered cli c)) cs x → allowed p (d_mode cli) cs x.
Proof.
  rewrite entered_mode. case_if; [ | done]. apply andb_true_iff in E as [E _].
  apply allowed_drop. by apply Z.ltb_lt.
Qed.

Section two_programs.
Context `{Regex} (P P' : Program).

(** The two programs agree on the callbacks of the commands the session can
    name. *)
Definition agree (cli : cli_def) (cs : list cli_command) : Prop :=
  ∀ c f, allowed (d_privilege cli) (d_mode cli) cs c → c_callback c = Some (cb_program f) →
  ∀ cli name argv, @call_command P f cli name argv = @call_command P' f cli name argv.

Lemma run_found_agree cli cli' words filters c cb name argv cs :
  agree cli cs → allowed (d_privilege cli) (d_mode cli) cs c → c_callback c = Some cb →
  @run_found _ P cli' words filters cb name argv = @run_found _ P' cli' words filters cb name argv.
Proof.
  intros Ha Hc Hcb. unfold run_found. destruct (make_filters _ _ _ _) as [[r|[rc x]] | | |]; try done.
  cbn [mbind outcome_bind]. case_if; [ | done]. destruct cb as [ | | | | | | | f]; try done.
  cbn [run_callback]. by rewrite (Ha c f Hc Hcb).
Qed.

Lemma find_command_agree words filters ws up commands cli :
  agree cli commands →
  @cli_find_command _ P words filters ws up commands cli
  = @cli_find_command _ P' words filters ws up commands cli.
Proof.
  revert up commands cli. induction ws as [|w ws IH]; intros up commands cli Ha; [done | ].
  simpl. destruct (last_byte w) as [l | ]; [ | done]. case_if; [done | ]. clear E.
  assert (∀ c, c ∈ commands → c ∈ commands) as Hsub by done. revert Hsub.
  generalize commands at 1 4 6. intros cs Hsub.
  induction cs as [|c cs IHcs]; [done | ].
  assert (c ∈ commands) as Hin by (apply Hsub; constructor).
  destruct (try_command cli c w) as [cli' | cli'] eqn:Et.
  - apply try_command_inl in Et as ->. apply IHcs. intros x Hx. apply Hsub. by constructor.
  - apply try_command_inr in Et as (Hp & Hm & -> & _).
    destruct (c_children c) as [|d ds] eqn:Ech.
    + destruct (c_callback c) as [cb|] eqn:Ecb; [ | done].
      by apply run_found_agree with (cli := cli) (c := c) (cs := commands), Ecb;
        [ | apply allowed_here].
    + case_if; [done | ]. apply IH. intros x f Hx. apply (Ha x f).
      rewrite entered_privilege in Hx. apply allowed_entered in Hx.
      eapply allowed_below; [done.. | ]. by rewrite Ech.
Qed.
End two_programs.

(** C15. A line never runs a command the session has no right to: two programs
    whose callbacks agree on the commands that are, with all commands above them,
    within the privilege and the mode of the session, do the same on every line. *)
Theorem run_command_allowed `{Regex} (P P' : Program) cli line :
  agree P P' cli (d_commands cli) →
  @cli_run_command _ P cli line = @cli_run_command _ P' cli line.
Proof.
  intros Ha. unfold cli_run_command. destruct (skip_space line) as [|c s]; [done | ].
  destruct (cli_parse_line (c :: s) max_words) as [words | | |]; try done.
  cbn [mbind outcome_bind]. destruct words as [|w ws]; [done | ].
  by rewrite (find_command_agree P P') by done.
Qed.

(** ** The output filters *)

Section filters.
Context `{Regex}.

Definition matches (m : match_union) (s : list byte) : bool :=
  match m with match_re p ext icase => regexec p ext icase s | match_string t => found s t end.

Definition blank (s : list byte) : bool := bool_decide (skip_space s = []).

Definition has (t : option (list byte)) (s : list byte) : bool :=
  match t with Some t => found s t | None => false end.

Definition none_of (to : option (list byte)) (ls : list (list byte)) : bool :=
  forallb (λ l, negb (has to l)) ls.

(** A range is open after the lines [ls]: one of them has [from], and neither it
    nor one after it has [to]; or it was open before them and none has [to]. *)
Definition open_after (open : bool) (from : list byte) (to : option (list byte))
    (ls : list (list byte)) : bool :=
  (open && none_of to ls) ||
  existsb (λ j, found (nth j ls []) from && none_of to (drop j ls)) (seq 0 (length ls)).

(** Line [i] of [ls] is in a range. *)
Definition in_range (open : bool) (from : list byte) (to : option (list byte))
    (ls : list (list byte)) (i : nat) : bool :=
  open_after open from to (take i ls) || found (nth i ls []) from.

(** The lines among [ls] at the indexes with [p]. *)
Fixpoint pick (p : nat → bool) (ls : list (list byte)) : list (list byte) :=
  match ls with
  | [] => []
  | l :: ls => (if p O then [l] else []) ++ pick (λ i, p (S i)) ls
  end.

(** What a filter makes of a list of lines: those it lets through, and what it
    is afterwards. *)
Definition filter_output (f : cli_filter) (ls : list (list byte)) : list (list byte) :=
  match f with
  | match_filter inv m => List.filter (λ s, xorb inv (matches m s)) ls
  | range_filter open from to => pick (in_range open from to ls) ls
  | count_filter _ => []
  end.

Definition filter_after (f : cli_filter) (ls : list (list byte)) : cli_filter :=
  match f with
  | match_filter inv m => match_filter inv m
  | range_filter open from to => range_filter (open_after open from to ls) from to
  | count_filter n => count_filter (n + Z.of_nat (length (List.filter (λ l, negb (blank l)) ls)))
  end.

(** A chain of filters is their composition. *)
Fixpoint pipe (fs : list cli_filter) (ls : list (list byte)) : list (list byte) :=
  match fs with [] => ls | f :: fs => pipe fs (filter_output f ls) end.

Fixpoint pipe_after (fs : list cli_filter) (ls : list (list byte)) : list cli_filter :=
  match fs with [] => [] | f :: fs => filter_after f ls :: pipe_after fs (filter_output f ls) end.

Lemma pick_ext p q ls : (∀ i, p i = q i) → pick p ls = pick q ls.
Proof.
  revert p q. induction ls as [|l ls IH]; intros p q E; simpl; [done | ].
  rewrite E. f_equal. by apply IH.
Qed.

Lemma existsb_seq_S (p : nat → bool) n :
  existsb p (seq 0 (S n)) = p O || existsb (λ j, p (S j)) (seq 0 n).
Proof.
  simpl. f_equal. rewrite <- seq_shift. generalize (seq 0 n).
  induction l as [|j l IH]; simpl; [done | ]. by rewrite IH.
Qed.

Lemma open_after_cons open from to l ls :
  open_after open from to (l :: ls)
  = open_after ((open || found l from) && negb (has to l)) from to ls.
Proof.
  unfold open_after. change (length (l :: ls)) with (S (length ls)). rewrite existsb_seq_S.
  cbn [nth drop]. change (none_of to (l :: ls)) with (negb (has to l) && none_of to ls).
  match goal with |- context [existsb ?p (seq 0 ?n)] => set (e := existsb p (seq 0 n)) end.
  by destruct open, (found l from), (has to l), (none_of to ls).
Qed.

Lemma in_range_cons open from to l ls i :
  in_range open from to (l :: ls) (S i)
  = in_range ((open || found l from) && negb (has to l)) from to ls i.
Proof. unfold in_range. cbn [take nth]. by rewrite open_after_cons. Qed.

Lemma filter_line_spec f f' r l ls :
  filter_line f l = (r, f') →
  filter_output f (l :: ls) = (if r =? CLI_OK then [l] else []) ++ filter_output f' ls ∧
  filter_after f (l :: ls) = filter_after f' ls.
Proof.
  destruct f as [inv m | open from to | n]; cbn [filter_line]; intros E.
  - unfold cli_match_filter in E. injection E as <- <-. split; [ | done].
    assert ((match m with
             | match_re p ext icase => if regexec p ext icase l then CLI_OK else CLI_ERROR
             | match_string t => match strstr l t with Some _ => CLI_OK | None => CLI_ERROR end
             end) = if matches m l then CLI_OK else CLI_ERROR) as ->.
    { destruct m; simpl; [ | done]. unfold found. by destruct (strstr l s). }
    simpl. by destruct inv, (matches m l).
  - unfold cli_range_filter in E. fold (has to l) in E. cbn [filter_output filter_after].
    rewrite open_after_cons. cbn [pick].
    assert (in_range open from to (l :: ls) 0 = open || found l from) as ->.
    { unfold in_range, open_after. simpl. by rewrite andb_true_r, orb_false_r. }
    rewrite (pick_ext _ _ ls (in_range_cons open from to l ls)).
    destruct open, (found l from); cbn in E |- *; by injection E as <- <-.
  - injection E as <- <-. split; [done | ]. cbn [filter_after]. f_equal. simpl. unfold blank.
    destruct (skip_space l); simpl; lia.
Qed.

Lemma run_filters_spec fs fs' p l ls :
  run_filters fs l = (p, fs') →
  pipe fs (l :: ls) = (if p then [l] else []) ++ pipe fs' ls ∧
  pipe_after fs (l :: ls) = pipe_after fs' ls.
Proof.
  revert fs' p ls. induction fs as [|f fs IH]; intros fs' p ls E; simpl in E.
  { by injection E as <- <-. }
  destruct (filter_line f l) as [r f'] eqn:Ef.
  destruct (filter_line_spec f f' r l ls Ef) as [Ho Ha]. cbn [pipe pipe_after]. rewrite Ho, Ha.
  destruct (r =? CLI_OK); cbn [app].
  - destruct (run_filters fs l) as [p' fs''] eqn:Er. injection E as <- <-.
    destruct (IH fs'' p' (filter_output f' ls) eq_refl) as [-> ->]. done.
  - by injection E as <- <-.
Qed.

Lemma pipe_nil fs : pipe fs [] = [] ∧ pipe_after fs [] = fs.
Proof.
  induction fs as [|f fs [IH1 IH2]]; [done | ]. cbn [pipe pipe_after].
  assert (filter_output f [] = []) as -> by (by destruct f).
  rewrite IH1, IH2. split; [done | ]. f_equal. destruct f; simpl; f_equal; [ | lia].
  unfold open_after. simpl. by rewrite andb_true_r, orb_false_r.
Qed.

(** What a printed line sends, and what the end of a filter sends. *)
Definition shown (cli : cli_def) (l : list byte) : list output :=
  match d_print_callback cli with
  | Some f => [Printed f l]
  | None => if d_client cli then [Sent (l ++ default [] (d_newline cli))] else []
  end.

Definition counted (cli : cli_def) (f : cli_filter) : list output :=
  match f with
  | count_filter n =>
      if d_client cli then [Sent (bs (pretty n) ++ default [] (d_newline cli))] else []
  | _ => []
  end.

Lemma print_lines_spec cli ls :
  d_newline cli ≠ None →
  print_lines true cli ls
  = Ret (set_filters (pipe_after (d_filters cli) ls)
          (set_out (d_out cli ++ concat (map (shown cli) (pipe (d_filters cli) ls))) cli)).
Proof.
  revert cli. induction ls as [|l ls IH]; intros cli Hnl.
  { destruct (pipe_nil (d_filters cli)) as [-> ->]. simpl. rewrite app_nil_r. by destruct cli. }
  cbn [print_lines]. unfold print_line.
  destruct (run_filters (d_filters cli) l) as [p fs] eqn:Er.
  destruct (run_filters_spec _ _ _ _ ls Er) as [-> ->].
  destruct cli as [? ? ? ? ? ? ? ? ? ? ? ? nl ? ? ? fi pc cl ou]. simpl in *.
  destruct nl as [nl|]; [ | done]. unfold fprint_client.
  destruct p; [destruct pc; [ | destruct cl] | ]; simpl; rewrite IH by done; simpl;
    unfold shown; simpl; by rewrite <- ?app_assoc.
Qed.

Lemma end_filters_spec fs cli :
  d_newline cli ≠ None → d_filters cli = fs →
  end_filters fs cli
  = Ret (set_filters [] (set_out (d_out cli ++ concat (map (counted cli) fs)) cli)).
Proof.
  revert cli. induction fs as [|f fs IH]; intros cli Hnl Hfs.
  { simpl. rewrite app_nil_r. destruct cli; simpl in *. by subst. }
  cbn [end_filters]. destruct cli as [? ? ? ? ? ? ? ? ? ? ? ? nl ? ? ? fi pc cl ou]. simpl in *.
  destruct nl as [nl|]; [ | done]. destruct f; simpl; [rewrite IH; done.. | ].
  unfold fprint_client, counted. simpl. destruct cl; simpl; rewrite IH by done; simpl; [ | done].
  by rewrite <- app_assoc.
Qed.

(** C16. A text printed through a chain of filters, up to the end of the filters,
    sends the lines that the filters one after the other let through: the lines
    that match, the lines in a range, none for a count; then each count, of the
    lines that reach it and are not blank. *)
Theorem filters_refine cli text :
  d_newline cli ≠ None →
  (cli ← cli_print cli text; end_filters (d_filters cli) cli)
  = Ret (set_filters []
      (set_out (d_out cli ++ concat (map (shown cli) (pipe (d_filters cli) (lines text))) ++
                concat (map (counted cli) (pipe_after (d_filters cli) (lines text)))) cli)).
Proof.
  intros Hnl. unfold cli_print, _print. rewrite print_lines_spec by done. cbn [mbind outcome_bind].
  rewrite end_filters_spec; [ | by destruct cli | done].
  destruct cli. simpl. by rewrite <- app_assoc.
Qed.
End filters.

(** ** A session from a file *)

Section file.
Context `{Regex, Program}.

(** The commands of a file run one after the other, up to a quit. *)
Fixpoint run_script (cli : cli_def) (commands : list (list byte)) : outcome cli_def :=
  match commands with
  | [] => Ret cli
  | [] :: commands => run_script cli commands
  | c :: commands =>
      if strcasecmp c (bs "quit") =? 0 then Ret cli
      else
        '(rc, cli) ← cli_run_command cli c;
        if rc =? CLI_QUIT then Ret cli else run_script cli commands
  end.

Lemma lines_not_nil s : lines s ≠ [].
Proof. destruct s as [|c s]; simpl; [done | ]. case_if; [done | ]. by destruct (lines s). Qed.

(** The first line of a file. *)
Lemma lines_fgets n s :
  (length (hd [] (lines s)) < n)%nat →
  match lines s with
  | [] => False
  | [l] => l = s ∧ fgets_bytes n s = (l, [])
  | l :: ls => ∃ rest, fgets_bytes n s = (l ++ [Byte.x0a], rest) ∧ lines rest = ls ∧
                       (length rest < length s)%nat
  end.
Proof.
  revert n. induction s as [|c s IH]; intros n Hn; [by destruct n | ]. simpl in Hn |- *.
  destruct n as [|n]; [lia | ]. simpl. destruct (byte_eqb c Byte.x0a) eqn:E.
  - apply byte_eqb_eq in E as ->. destruct (lines s) as [|l ls] eqn:El; [by apply lines_not_nil in El | ].
    exists s. split_and!; [done | done | lia].
  - specialize (IH n). destruct (lines s) as [|l ls] eqn:El; [by apply lines_not_nil in El | ].
    simpl in Hn, IH. specialize (IH ltac:(lia)). destruct ls as [|l' ls].
    + destruct IH as [-> ->]. done.
    + destruct IH as (rest & -> & Hr & Hlt). exists rest. split_and!; [done | done | simpl; lia].
Qed.

Lemma file_command_newline l : file_command (l ++ [Byte.x0a]) = file_command l.
Proof.
  unfold file_command. do 2 f_equal. induction l as [|c l IH]; [done | ]. simpl.
  destruct (byte_eqb c Byte.x00); [done | ]. simpl. case_if; [done | ]. by rewrite IH.
Qed.

Lemma file_loop_script fuel cli fh :
  (length fh < fuel)%nat → Forall (λ l, (length l < 4095)%nat) (lines fh) →
  file_loop fuel cli fh = run_script cli (map file_command (lines fh)).
Proof.
  revert cli fh. induction fuel as [|fuel IH]; intros cli fh Hf Hl; [lia | ].
  cbn [file_loop]. destruct fh as [|c fh]; [done | ]. cbn [fgets].
  change (4096 - 1)%nat with 4095%nat.
  pose proof (lines_fgets 4095 (c :: fh)) as Hg.
  destruct (lines (c :: fh)) as [|l ls] eqn:El; [by apply lines_not_nil in El | ].
  apply Forall_cons_1 in Hl as [Hl Hls]. specialize (Hg Hl). cbn [map run_script].
  destruct ls as [|l' ls].
  - destruct Hg as [-> ->]. cbn [map run_script]. destruct (file_command (c :: fh)) as [|x t].
    + destruct fuel as [|fuel]; [simpl in Hf; lia | done].
    + case_if; [done | ]. destruct (cli_run_command cli (x :: t)) as [[rc cli'] | | |]; try done.
      cbn [mbind outcome_bind]. case_if; [done | ].
      destruct fuel as [|fuel]; [simpl in Hf; lia | done].
  - destruct Hg as (rest & -> & Hr & Hlt). rewrite file_command_newline.
    assert (length rest < fuel)%nat by (simpl in *; lia). rewrite <- Hr in Hls |- *.
    destruct (file_command l) as [|x t]; [by apply IH | ].
    case_if; [done | ]. destruct (cli_run_command cli (x :: t)) as [[rc cli'] | | |]; try done.
    cbn [mbind outcome_bind]. case_if; [done | ]. by apply IH.
Qed.

(** [cli_file] runs the commands of the file, each line without comment and
    blanks, in order up to a quit, under the privilege and the mode it is given,
    and puts the session's own privilege and mode back, whatever the commands
    did to them. *)
Theorem cli_file_script cli fh p m :
  Forall (λ l, (length l < 4095)%nat) (lines fh) →
  let start := (cli_set_configmode (cli_set_privilege cli p).2 m None).2 in
  d_privilege start = p ∧ d_mode start = m ∧
  match run_script start (map file_command (lines fh)) with
  | Ret final => ∃ cli', cli_file cli fh p m = Ret (CLI_OK, cli') ∧
      d_privilege cli' = d_privilege cli ∧ d_mode cli' = d_mode cli ∧
      d_commands cli' = d_commands final ∧ d_history cli' = d_history final ∧
      d_out cli' = d_out final
  | Die w => cli_file cli fh p m = Die w
  | UB w => cli_file cli fh p m = UB w
  | Spin => cli_file cli fh p m = Spin
  end.
Proof.
  intros Hl start. unfold cli_file.
  destruct (set_privilege_fields cli p) as (Hp1 & Hm1 & _).
  destruct (set_configmode_fields (cli_set_privilege cli p).2 m None) as (Hm2 & Hp2 & _).
  assert (cli_set_privilege cli p = (d_privilege cli, (cli_set_privilege cli p).2)) as E1 by done.
  rewrite E1. clear E1.
  assert (cli_set_configmode (cli_set_privilege cli p).2 m None
          = (d_mode (cli_set_privilege cli p).2, start)) as E2 by done.
  rewrite E2, Hm1. clear E2. cbn [snd]. fold start in Hm2, Hp2.
  split; [congruence | ]. split; [done | ].
  rewrite file_loop_script by (lia || done).
  destruct (run_script start (map file_command (lines fh))) as [final | | |]; [ | done..].
  cbn [mbind outcome_bind]. eexists. split; [done | ].
  destruct (set_privilege_fields final (d_privilege cli)) as (Hp3 & _ & Hs3).
  destruct (set_configmode_fields (cli_set_privilege final (d_privilege cli)).2 (d_mode cli) None)
    as (Hm4 & Hp4 & Hs4).
  unfold same_rest in *. intuition congruence.
Qed.
End file.

(** ** History *)

(** The history holds the lines [ls], the oldest first, and NULL after them. *)
Definition holds_lines (h : list slot) (ls : list (list byte)) : Prop :=
  (length ls ≤ MAX_HISTORY)%nat ∧ h = map Line ls ++ repeat Null (MAX_HISTORY - length ls).

Lemma fill_null_spec ls s k :
  fill_null (map Line ls ++ repeat Null (S k)) s = Some (map Line (ls ++ [s]) ++ repeat Null k) ∧
  fill_null (map Line ls) s = None.
Proof. induction ls as [|l ls [IH1 IH2]]; simpl in *; [done | ]. by rewrite IH1, IH2. Qed.

Lemma set_history_get h cli : d_history (set_history h cli) = h.
Proof. by destruct cli. Qed.

(** The history keeps the last 256 lines, the oldest first: a line that is
    added comes after them, and the oldest goes when there are 257. *)
Theorem add_history_last cli ls s :
  holds_lines (d_history cli) ls →
  ∃ cli', cli_add_history cli s = Ret cli' ∧
    holds_lines (d_history cli') (drop (length ls + 1 - MAX_HISTORY) (ls ++ [s])).
Proof.
  intros [Hlen Hh]. unfold cli_add_history. rewrite Hh.
  destruct (decide (length ls = MAX_HISTORY)) as [Hfull | Hroom].
  - rewrite Hfull. replace (MAX_HISTORY + 1 - MAX_HISTORY)%nat with 1%nat by lia.
    rewrite Nat.sub_diag. simpl repeat. rewrite app_nil_r.
    rewrite (proj2 (fill_null_spec ls s 0)).
    destruct ls as [|l ls]; [done | ]. cbn [map app drop].
    eexists. split; [done | ]. rewrite set_history_get. unfold holds_lines.
    rewrite !drop_0. assert (length (ls ++ [s]) = MAX_HISTORY) as -> by (rewrite length_app; simpl in *; lia).
    split; [lia | ]. rewrite Nat.sub_diag. simpl repeat. rewrite app_nil_r.
    by rewrite map_app.
  - replace (length ls + 1 - MAX_HISTORY)%nat with 0%nat by lia. rewrite drop_0.
    replace (MAX_HISTORY - length ls)%nat with (S (MAX_HISTORY - length (ls ++ [s])))
      by (rewrite length_app; simpl; lia).
    rewrite (proj1 (fill_null_spec ls s _)). eexists. split; [done | ].
    rewrite set_history_get. unfold holds_lines. split; [ | done].
    rewrite length_app. simpl. lia.
Qed.

(** ** What goes wrong *)

(** The parser returns words, with those it has first. *)
Lemma parse_line_total line n : ∃ ws, cli_parse_line line n = Ret ws ∧ (length ws ≤ n - 1)%nat.
Proof.
  unfold cli_parse_line.
  pose proof (parse_loop_ends (2 * length line + 2) n [] line (Some line) None) as Hs.
  destruct (parse_loop _ _ _ _ _ _) as [ws | w | w | ] eqn:E; try (by eapply parse_loop_quiet in E).
  - exists ws. split; [done | ]. by apply parse_loop_bound in E; [ | simpl; lia].
  - exfalso. apply Hs; [unfold passes; lia | done | done].
Qed.

Lemma parse_loop_extends fuel n words p ws q r :
  parse_loop fuel n words p ws q = Ret r → words `prefix_of` r.
Proof.
  revert words p ws q. induction fuel as [|fuel IH]; intros words p ws q Hr; [done | ].
  simpl in Hr. case_if_in Hr; [ | by apply Ret_inj in Hr as <-].
  assert (∀ w, words `prefix_of` words ++ [w]) as Hs by (intros w; by exists [w]).
  destruct p as [|c p]; [destruct ws; apply Ret_inj in Hr as <-; done | ].
  repeat match type of Hr with
    | context [if ?b then _ else _] => destruct b
    | context [match ws with _ => _ end] => destruct ws
    end; apply IH in Hr; first [done | by etrans; [apply Hs | ]].
Qed.

Section wrong.
Context `{Regex, Program}.

(** A line that starts with a bar makes the parser find an empty word first, and
    [cli_find_command] reads the byte before that word. *)
Lemma leading_bar_undefined cli line :
  cli_run_command cli (Byte.x7c :: line) = UB "read before the first byte of an empty word".
Proof.
  unfold cli_run_command. cbn [skip_space]. change (isspace Byte.x7c) with false. cbn match.
  destruct (parse_line_total (Byte.x7c :: line) max_words) as (ws & Hws & _). rewrite Hws.
  assert ([[]] `prefix_of` ws) as [k ->]; [ | done]. revert Hws. unfold cli_parse_line.
  replace (2 * length (Byte.x7c :: line) + 2)%nat with (S (2 * length (Byte.x7c :: line) + 1)) by lia.
  cbn [parse_loop]. rewrite Nat.sub_diag. cbn [take].
  change (isspace Byte.x7c || byte_eqb Byte.x7c Byte.x7c) with true.
  cbn [is_Some_b negb andb orb]. intros Hws. by apply parse_loop_extends in Hws.
Qed.

(** A filter that was made before one is refused as missing stays: it filters the
    output of the next command. *)
Lemma stale_filter_kept :
  ∃ cli, cli_run_command (cli_set_newline cli_init (bs "!")) (bs "help | include x |")
         = Ret (CLI_OK, cli) ∧ d_filters cli = [match_filter false (match_string (bs "x"))].
Proof. eexists. split; vm_compute; reflexivity. Qed.

(** After the registration of a command under [show] its shortest length counts
    the commands after it only: [s] is taken for [show] although [shell] begins
    with it too. *)
Lemma register_under_parent_wrong :
  let reg cli name parent := cli_register_command cli parent (bs name) (Some cb_help) 0 MODE_ANY None in
  let cli := (reg calloc_cli "shell"%string []).2 in
  let '(show, cli) := reg cli "show"%string [] in
  map c_unique_len (d_commands cli) = [3; 3]%nat ∧
  map c_unique_len (d_commands (reg cli "version"%string show).2) = [3; 1]%nat.
Proof. vm_compute. split; reflexivity. Qed.

(** What stands before a quote in a word is lost. *)
Lemma quote_in_word_lost :
  cli_parse_line (bs "set name=" ++ quoted (bs "a b")) max_words = Ret [bs "set"; bs "a b"].
Proof. vm_compute. reflexivity. Qed.
End wrong.

(** ** The theorems at concrete inputs *)

Module Witness.

#[local] Instance regex : Regex := {|
  regcomp _ _ _ := true;
  regexec p _ _ s := found s p
|}.

(** A program whose commands change the privilege to [n]. *)
Definition program (n : Z) : Program := {|
  call_command _ cli _ _ := Ret (CLI_OK, (cli_set_privilege cli n).2);
  call_auth _ _ _ := false;
  call_enable _ _ := false;
  call_regular _ cli := Ret (CLI_OK, cli);
  crypt try _ := try
|}.

Definition words : list (list byte) := [bs "show"; bs "a b"; bs "|"; []].

Lemma parse_line_roundtrip_witness :
  Forall (λ w, forallb (λ c, negb (is_quote c)) w = true) words ∧
  cli_parse_line (write_line words) max_words = Ret words.
Proof.
  assert (Forall (λ w, forallb (λ c, negb (is_quote c)) w = true) words) as Hq.
  { repeat constructor. }
  split; [exact Hq | ]. apply (parse_line_roundtrip words); [exact Hq | done | ].
  apply Nat.leb_le. reflexivity.
Defined.

Definition cmd (name : string) (priv mode : Z) (children : list cli_command) : cli_command :=
  mk_command (bs name) (Some (cb_program 1)) 0 None priv mode children.

Definition siblings : list cli_command :=
  [cmd "show" 0 MODE_EXEC []; cmd "shell" 0 MODE_EXEC []; cmd "boot" 15 MODE_EXEC []].

Definition show_built : cli_command := nth 0 (cli_build_shortest siblings) (cmd "" 0 0 []).

(** "SHO" is enough for "show". *)
Lemma means_show : means siblings 0 (bs "SHO").
Proof.
  exists (cmd "show" 0 MODE_EXEC []). split; [done | ]. split; [by exists (bs "w") | ]. right.
  intros [|[|[|j]]] c' Hc' Hj; try done; simpl in Hc'; simplify_eq/=; by intros [k Hk].
Qed.

Lemma shortest_prefix_selects_witness :
  (∃ cli', try_command cli_init show_built (bs "SHO") = inr cli') ↔
   c_privilege show_built ≤ d_privilege cli_init ∧ mode_ok (d_mode cli_init) show_built ∧
   means siblings 0 (bs "SHO").
Proof.
  assert (Forall named siblings) as Hn.
  { unfold siblings. repeat (apply List.Forall_cons; [split; [decided | reflexivity] | ]).
    apply List.Forall_nil. }
  assert (NoDup (map c_command siblings)) as Hd by decided.
  pose proof (shortest_prefix_selects cli_init siblings 0 show_built (bs "SHO") Hn Hd
    ltac:(decided) ltac:(done) eq_refl) as H.
  apply H.
Defined.

(** "Show" and "shell" have prefixes of one letter that tell them apart, and "s" selects
    both. *)
Lemma capitals_ambiguous :
  Forall (λ c, c_unique_len c = 1%nat ∧ try_command cli_init c (bs "s") = inr cli_init)
    (cli_build_shortest [cmd "Show" 0 MODE_EXEC []; cmd "shell" 0 MODE_EXEC []]).
Proof. repeat apply List.Forall_cons; try apply List.Forall_nil; (split; vm_compute; reflexivity). Qed.

(** [boot] needs privilege 15: an unprivileged session does not run it. *)
Definition session0 : cli_def := set_commands (cli_build_shortest siblings) cli_init.

Definition session_boot : cli_def :=
  set_commands [cmd "boot" 15 MODE_EXEC []; mk_command (bs "help") (Some cb_help) 1 None 0 MODE_ANY []]
    (cli_set_newline cli_init (bs "!")).

Lemma session_boot_agrees : agree (program 0) (program 15) session_boot (d_commands session_boot).
Proof.
  assert (∀ c, allowed (d_privilege session_boot) (d_mode session_boot) (d_commands session_boot) c →
               c_callback c = Some cb_help) as Ha.
  { intros c Hc. change (d_privilege session_boot) with 0 in Hc.
    change (d_commands session_boot) with
      [cmd "boot" 15 MODE_EXEC []; mk_command (bs "help") (Some cb_help) 1 None 0 MODE_ANY []] in Hc.
    destruct Hc as [c Hin Hp _ | c c' Hin Hp _ Hb].
    - apply elem_of_cons in Hin as [-> | Hin]; [by simpl in Hp | ].
      by apply list_elem_of_singleton in Hin as ->.
    - assert (c_children c = []) as E.
      { apply elem_of_cons in Hin as [-> | ->%list_elem_of_singleton]; done. }
      rewrite E in Hb. by inversion Hb as [? Hx | ? ? Hx]; apply elem_of_nil in Hx. }
  intros c f Hc Hf. apply Ha in Hc. congruence.
Qed.

Lemma run_command_allowed_witness :
  agree (program 0) (program 15) session_boot (d_commands session_boot) ∧
  @cli_run_command _ (program 0) session_boot (bs "boot now")
  = @cli_run_command _ (program 15) session_boot (bs "boot now").
Proof.
  split; [exact session_boot_agrees | ].
  exact (run_command_allowed (program 0) (program 15) session_boot (bs "boot now") session_boot_agrees).
Defined.

(** Three lines through [between b c] and [count]. *)
Definition filtered : cli_def :=
  set_filters [range_filter false (bs "b") (Some (bs "c")); count_filter 0]
    (set_client true (cli_set_newline cli_init (bs "!"))).

Definition text : list byte := bs "a" ++ [Byte.x0a] ++ bs "b" ++ [Byte.x0a] ++ bs "c" ++ [Byte.x0a] ++ bs "d".

Lemma filters_refine_witness :
  d_newline filtered ≠ None ∧
  pipe_after (d_filters filtered) (lines text)
  = [range_filter false (bs "b") (Some (bs "c")); count_filter 2] ∧
  (cli ← cli_print filtered text; end_filters (d_filters cli) cli)
  = Ret (set_filters []
      (set_out (d_out filtered ++
                concat (map (shown filtered) (pipe (d_filters filtered) (lines text))) ++
                concat (map (counted filtered) (pipe_after (d_filters filtered) (lines text)))) filtered)).
Proof.
  split; [done | ]. split; [vm_compute; reflexivity | ].
  apply (filters_refine filtered text). done.
Defined.

#[local] Instance program_0 : Program := program 3.

Definition script : list byte := bs "show # all" ++ [Byte.x0a] ++ bs " quit " ++ [Byte.x0a] ++ bs "boot".

Lemma script_lines : Forall (λ l, (length l < 4095)%nat) (lines script).
Proof. repeat constructor; apply Nat.ltb_lt; reflexivity. Qed.

Lemma cli_file_script_witness :
  ∃ final cli', run_script (cli_set_configmode (cli_set_privilege session0 15).2 1 None).2
                  (map file_command (lines script)) = Ret final ∧
    cli_file session0 script 15 1 = Ret (CLI_OK, cli') ∧
    d_privilege cli' = d_privilege session0 ∧ d_mode cli' = d_mode session0.
Proof.
  pose proof (cli_file_script session0 script 15 1 script_lines) as H. cbn zeta in H.
  destruct H as (_ & _ & H).
  destruct (run_script _ _) as [final | w | w | ] eqn:E; [ | by vm_compute in E..].
  destruct H as (cli' & Hf & Hp & Hm & _). exists final, cli'. split; [done | ].
  split; [exact Hf | ]. split; [exact Hp | exact Hm].
Defined.

Lemma add_history_last_witness :
  ∃ cli', cli_add_history cli_init (bs "show") = Ret cli' ∧
    holds_lines (d_history cli') (drop (length ([] : list (list byte)) + 1 - MAX_HISTORY) ([] ++ [bs "show"])).
Proof.
  apply (add_history_last cli_init [] (bs "show")). split; [simpl; unfold MAX_HISTORY; lia | reflexivity].
Defined.
End Witness.
