(* ===== verification/CliLoop.v ===== *)
(** libcli, part three (src/libcli/libcli.c, [cli_loop]): the line editor and the
    session that logs a user in and runs the lines.

    The session reads a list of events: what [select] and [read] report, one by
    one.  The end of the list is the end of the input.  [cmd] is the buffer of
    4096 bytes the code allocates; a read or write outside it is undefined.  The
    writes to the client are in the trace [d_out]; where the code writes one byte
    after the other in a loop the trace has them in one piece. *)

From Stdlib Require Import ZArith Lia String.
From stdpp Require Import base tactics list numbers.
From coqutil Require Import Byte.
From S2P Require Import Prelude Words CMem CString Cli CliCommands.

#[local] Open Scope Z_scope.

Inductive event :=
| Read (c : byte)   (* a byte *)
| Interrupted       (* select or read fail with EINTR *)
| Failed            (* select or read fail *)
| Timeout           (* a second without input *)
| Eof.              (* read returns 0 *)

(** The local variables of [cli_loop].  [e_oldcmd] tells whether [oldcmd] is set;
    it only ever points to [cmd].  [skip] and [insertmode] never change from 0 and
    1. *)
Record session := mk_session {
  e_cli : cli_def;
  e_cmd : list byte;
  e_l : Z;
  e_cursor : Z;
  e_oldcmd : bool;
  e_oldl : Z;
  e_is_telnet_option : Z;
  e_esc : Z;
  e_in_history : Z;
  e_lastchar : Z;
  e_user : option (list byte);
  e_pass : option (list byte)
}.

Definition put_cli (v : cli_def) (s : session) : session :=
  let 'mk_session _ cm l cu oc ol te es ih lc us pw := s in mk_session v cm l cu oc ol te es ih lc us pw.
Definition put_cmd (v : list byte) (s : session) : session :=
  let 'mk_session cl _ l cu oc ol te es ih lc us pw := s in mk_session cl v l cu oc ol te es ih lc us pw.
Definition put_l (v : Z) (s : session) : session :=
  let 'mk_session cl cm _ cu oc ol te es ih lc us pw := s in mk_session cl cm v cu oc ol te es ih lc us pw.
Definition put_cursor (v : Z) (s : session) : session :=
  let 'mk_session cl cm l _ oc ol te es ih lc us pw := s in mk_session cl cm l v oc ol te es ih lc us pw.
Definition put_oldcmd (v : bool) (s : session) : session :=
  let 'mk_session cl cm l cu _ ol te es ih lc us pw := s in mk_session cl cm l cu v ol te es ih lc us pw.
Definition put_oldl (v : Z) (s : session) : session :=
  let 'mk_session cl cm l cu oc _ te es ih lc us pw := s in mk_session cl cm l cu oc v te es ih lc us pw.
Definition put_is_telnet_option (v : Z) (s : session) : session :=
  let 'mk_session cl cm l cu oc ol _ es ih lc us pw := s in mk_session cl cm l cu oc ol v es ih lc us pw.
Definition put_esc (v : Z) (s : session) : session :=
  let 'mk_session cl cm l cu oc ol te _ ih lc us pw := s in mk_session cl cm l cu oc ol te v ih lc us pw.
Definition put_in_history (v : Z) (s : session) : session :=
  let 'mk_session cl cm l cu oc ol te es _ lc us pw := s in mk_session cl cm l cu oc ol te es v lc us pw.
Definition put_lastchar (v : Z) (s : session) : session :=
  let 'mk_session cl cm l cu oc ol te es ih _ us pw := s in mk_session cl cm l cu oc ol te es ih v us pw.
Definition put_user (v : option (list byte)) (s : session) : session :=
  let 'mk_session cl cm l cu oc ol te es ih lc _ pw := s in mk_session cl cm l cu oc ol te es ih lc v pw.
Definition put_pass (v : option (list byte)) (s : session) : session :=
  let 'mk_session cl cm l cu oc ol te es ih lc us _ := s in mk_session cl cm l cu oc ol te es ih lc us v.

Definition line_size : Z := 4096.

Definition CTRL (c : Z) : Z := c - 64.

(** What becomes of the inner loop after an event. *)
Inductive flow := Continue | Break.

Definition emit (bytes : list byte) (s : session) : session := put_cli (send bytes (e_cli s)) s.

Definition bell : list byte := [Byte.x07].
Definition backspaces (n : Z) : list byte := repeat Byte.x08 (Z.to_nat n).
Definition spaces (n : Z) : list byte := repeat Byte.x20 (Z.to_nat n).

Definition cli_write_newline (s : session) : outcome session :=
  match d_newline (e_cli s) with
  | Some nl => Ret (emit nl s)
  | None => UB "strlen of a NULL newline"
  end.

Definition show_prompt (s : session) : outcome session :=
  let s := match d_hostname (e_cli s) with Some h => emit h s | None => s end in
  let s := match d_modestring (e_cli s) with Some m => emit m s | None => s end in
  match d_promptchar (e_cli s) with
  | Some p => Ret (emit p s)
  | None => UB "strlen of a NULL promptchar"
  end.

(** A password is being typed. *)
Definition hidden (s : session) : bool :=
  match d_state (e_cli s) with STATE_PASSWORD | STATE_ENABLE_PASSWORD => true | _ => false end.

(** The bytes of [cmd] from [i], [n] of them; a byte of it; its string at [i]. *)
Definition peek (s : session) (i n : Z) : outcome (list byte) := read_at (e_cmd s) i n.

Definition poke (i : Z) (data : list byte) (s : session) : outcome session :=
  cmd ← write_at (e_cmd s) i data; Ret (put_cmd cmd s).

Definition cmd_string (s : session) (i : Z) : outcome (list byte) :=
  match cstr (drop (Z.to_nat i) (e_cmd s)) with
  | Some t => Ret t
  | None => UB "read past the end of cmd"
  end.

(** The prompt, when one is due. *)
Definition prompt (s : session) : outcome session :=
  if d_showprompt (e_cli s) then
    s ← (match d_state (e_cli s) with
         | STATE_LOGIN => Ret (emit (bs "Username: ") s)
         | STATE_PASSWORD => Ret (emit (bs "Password: ") s)
         | STATE_NORMAL | STATE_ENABLE =>
             s ← show_prompt s;
             text ← peek s 0 (e_l s);
             Ret (emit (text ++ backspaces (e_l s - e_cursor s)) s)
         | STATE_ENABLE_PASSWORD => Ret (emit (bs "Password: ") s)
         end);
    Ret (put_cli (set_showprompt false (e_cli s)) s)
  else Ret s.

(** ** Keys *)

(** [cli_clear_line]: it uses [cmd] itself for the [3 * l] bytes it sends. *)
Definition cli_clear_line (s : session) : outcome session :=
  let l := e_l s in
  let s := emit (spaces (l - e_cursor s)) s in
  let wipe := backspaces l ++ spaces l ++ backspaces l in
  s ← poke 0 wipe s;
  let s := emit wipe s in
  poke 0 (repeat Byte.x00 (length wipe)) s.

Definition cli_write_space (cursor : Z) (s : session) : outcome session :=
  poke cursor [Byte.x20; Byte.x00] (emit (bs " ") s).

(** The number of leading bytes with [p]. *)
Fixpoint count_while (p : byte → bool) (s : list byte) : nat :=
  match s with c :: s => if p c then S (count_while p s) else O | [] => O end.

(** [back] for a word: the blanks before the cursor, then the bytes before
    them. *)
Definition word_back (before : list byte) : nat :=
  let r := rev before in
  let blanks := count_while (byte_eqb Byte.x20) r in
  (blanks + count_while (λ c, negb (byte_eqb Byte.x20 c)) (drop blanks r))%nat.

(** The body of [while (back--)].  In the middle of the line the bytes after the
    cursor move down by one, with the one past the line. *)
Definition erase (s : session) : outcome session :=
  let cursor := e_cursor s - 1 in
  if e_l s =? e_cursor s then
    s ← poke cursor [Byte.x00] (put_cursor cursor s);
    let s := if hidden s then s else emit [Byte.x08; Byte.x20; Byte.x08] s in
    Ret (put_l (e_l s - 1) s)
  else
    let s := put_cursor cursor s in
    s ← (if hidden s then Ret s
         else
           tail ← peek s (cursor + 1) (e_l s - cursor + 1);
           s ← poke cursor tail s;
           text ← cmd_string s cursor;
           Ret (emit ([Byte.x08] ++ text ++ bs " " ++ backspaces (Z.of_nat (length text) + 1)) s));
    Ret (put_l (e_l s - 1) s).

Fixpoint erase_many (back : nat) (s : session) : outcome session :=
  match back with O => Ret s | S back => s ← erase s; erase_many back s end.

Definition key_erase (word : bool) (s : session) : outcome session :=
  if (e_l s =? 0) || (e_cursor s =? 0) then Ret (if word then s else emit bell s)
  else if word then
    before ← peek s 0 (e_cursor s); erase_many (word_back before) s
  else erase_many 1 s.

Definition key_redraw (s : session) : outcome session :=
  if hidden s then Ret s
  else
    s ← cli_write_newline s;
    s ← show_prompt s;
    text ← peek s 0 (e_l s);
    Ret (emit (text ++ backspaces (e_l s - e_cursor s)) s).

Definition key_clear (s : session) : outcome session :=
  s ← (if hidden s then poke 0 (repeat Byte.x00 (Z.to_nat (e_l s))) s else cli_clear_line s);
  Ret (put_cursor 0 (put_l 0 s)).

Definition key_kill (s : session) : outcome session :=
  let n := e_l s - e_cursor s in
  if n =? 0 then Ret s
  else
    let s := if hidden s then s else emit (spaces n ++ backspaces n) s in
    s ← poke (e_cursor s) (repeat Byte.x00 (Z.to_nat n)) s;
    Ret (put_l (e_cursor s) s).

Definition key_eot (s : session) : outcome (flow * session) :=
  if hidden s then Ret (Break, s)
  else if negb (e_l s =? 0) then Ret (Continue, s)
  else
    s ← poke 0 (bs "quit" ++ [Byte.x00]) s;
    s ← cli_write_newline (emit (bs "quit") (put_cursor 4 (put_l 4 s)));
    Ret (Break, s).

Definition key_disable (s : session) : outcome session :=
  if d_mode (e_cli s) =? MODE_EXEC then Ret s
  else
    s ← cli_clear_line s;
    Ret (put_cli (set_showprompt true (cli_set_configmode (e_cli s) MODE_EXEC None).2) s).

(** The loop [for (i = l; i > 0; i--, cursor--)]: the last [i]. *)
Fixpoint word_start (cmd : list byte) (i : nat) : nat :=
  match i with
  | O => O
  | S i' => if byte_eqb (nth i cmd Byte.x00) Byte.x20 then i else word_start cmd i'
  end.

(** The one completion takes the place of the last word. *)
Definition complete (name : list byte) (s : session) : outcome session :=
  let i := Z.of_nat (word_start (e_cmd s) (Z.to_nat (e_l s))) in
  let s := emit (backspaces (e_l s - i)) s in
  let cursor := e_cursor s - (e_l s - i) in
  s ← (if i =? 0 then Ret (put_cursor cursor s)
       else s ← cli_write_space cursor s; Ret (put_cursor (cursor + 1) s));
  s ← poke (e_cursor s) (name ++ [Byte.x00]) s;
  let cursor := e_cursor s + Z.of_nat (length name) in
  s ← cli_write_space cursor (emit name s);
  Ret (put_cursor (cursor + 1) (put_l (cursor + 1) s)).

(** The completions in rows of four. *)
Fixpoint rows (nl : list byte) (i : nat) (names : list (list byte)) : list byte :=
  match names with
  | [] => if (i mod 4 =? 3)%nat then [] else nl
  | n :: names => n ++ (if (i mod 4 =? 3)%nat then nl else [Byte.x09]) ++ rows nl (S i) names
  end.

Definition key_tab `{Regex, Program} (s : session) : outcome session :=
  if hidden s then Ret s
  else if negb (e_cursor s =? e_l s) then Ret s
  else
    b ← peek s (e_cursor s - 1) 1;
    if byte_eqb (ch b 0) Byte.x20 then Ret s
    else
      completions ← (if 0 <? e_l s
                     then text ← cmd_string s 0; cli_get_completions (e_cli s) text
                     else Ret []);
      match completions with
      | [] => Ret (emit bell s)
      | [name] => complete name s
      | _ =>
          if e_lastchar s =? CTRL 73 then
            s ← cli_write_newline s;
            let nl := default [] (d_newline (e_cli s)) in
            let s := emit (rows nl 0 completions) s in
            Ret (put_cli (set_showprompt true (e_cli s)) s)
          else Ret (emit bell (put_lastchar (CTRL 73) s))
      end.

(** The last and the first entry of the history that is not NULL. *)
Definition used (x : slot) : bool := match x with Null => false | _ => true end.

Fixpoint last_used (h : list slot) (n : nat) : Z :=
  match n with
  | O => -1
  | S n => if used (nth n h Null) then Z.of_nat n else last_used h n
  end.

Fixpoint first_used (h : list slot) (i : nat) : option Z :=
  match h with
  | [] => None
  | x :: h => if used x then Some (Z.of_nat i) else first_used h (S i)
  end.

(** [cli->history[i]]: the array has as many entries as [h], and an index outside of
    it is not checked. *)
Definition entry (h : list slot) (i : Z) : outcome slot :=
  if i <? 0 then UB "read outside the history"
  else match h !! Z.to_nat i with Some x => Ret x | None => UB "read outside the history" end.

(** Up and down in the history: the new [in_history] and [history_found].  Going down
    adds one to [in_history] also where it is past the history and nothing is found. *)
Definition history_up (h : list slot) (i : Z) : outcome (Z * bool) :=
  let i := i - 1 in
  if i <? 0 then let i := last_used h MAX_HISTORY in Ret (i, 0 <=? i)
  else x ← entry h i; Ret (i, used x).

Definition history_down (h : list slot) (i : Z) : outcome (Z * bool) :=
  if i =? 2 ^ 31 - 1 then UB "overflow of an int"
  else
    let i := i + 1 in
    free ← (if Z.of_nat MAX_HISTORY <=? i then Ret true else x ← entry h i; Ret (negb (used x)));
    Ret (if (free : bool) then
           match first_used h 0 with Some j => (j, true) | None => (i, false) end
         else (i, true)).

Definition key_history (up : bool) (s : session) : outcome session :=
  if hidden s then Ret s
  else
    let h := d_history (e_cli s) in
    '(i, found) ← (if up then history_up else history_down) h (e_in_history s);
    let s := put_in_history i s in
    if found : bool then
      x ← entry h i;
      match x with
      | Null => Ret s
      | Freed => UB "read of a freed line of history"
      | Line t =>
          s ← cli_clear_line s;
          let t := take 4095 t in
          let s := put_cmd (t ++ repeat Byte.x00 (Z.to_nat line_size - length t)) s in
          let n := Z.of_nat (length t) in
          Ret (emit t (put_cursor n (put_l n s)))
      end
    else Ret s.

Definition key_left (s : session) : outcome session :=
  if e_cursor s =? 0 then Ret s
  else
    let s := if hidden s then s else emit [Byte.x08] s in
    Ret (put_cursor (e_cursor s - 1) s).

Definition key_right (s : session) : outcome session :=
  if e_cursor s <? e_l s then
    b ← peek s (e_cursor s) 1;
    let s := if hidden s then s else emit b s in
    Ret (put_cursor (e_cursor s + 1) s)
  else Ret s.

Definition key_home (s : session) : outcome session :=
  if e_cursor s =? 0 then Ret s
  else
    s ← (if hidden s then Ret s else show_prompt (emit [Byte.x0d] s));
    Ret (put_cursor 0 s).

Definition key_end (s : session) : outcome session :=
  if e_cursor s <? e_l s then
    b ← peek s (e_cursor s) (e_l s - e_cursor s);
    let s := if hidden s then s else emit b s in
    Ret (put_cursor (e_l s) s)
  else Ret s.

(** The byte goes into the line: [Some] state, or [None] with a bell when a full
    line is added to. *)
Definition insert_char (c : byte) (s : session) : outcome (bool * session) :=
  if e_cursor s =? e_l s then
    s ← poke (e_cursor s) [c] s;
    if e_l s <? 4095 then Ret (true, put_cursor (e_cursor s + 1) (put_l (e_l s + 1) s))
    else Ret (false, emit bell s)
  else
    let s := if 4094 <=? e_l s then put_l (e_l s - 1) s else s in
    let n := e_l s - e_cursor s + 1 in
    tail ← peek s (e_cursor s) n;
    s ← poke (e_cursor s + 1) tail s;
    s ← poke (e_cursor s) [c] s;
    text ← peek s (e_cursor s) n;
    let s := emit (text ++ backspaces n) s in
    Ret (true, put_cursor (e_cursor s + 1) (put_l (e_l s + 1) s)).

Definition key_char (c : byte) (s : session) : outcome (flow * session) :=
  '(typed, s) ← insert_char c s;
  if negb typed then Ret (Continue, s)
  else
    let next s := Ret (Continue, put_lastchar (byte.unsigned c) (put_oldl 0 (put_oldcmd false s))) in
    if hidden s then next s
    else if byte_eqb c Byte.x3f && (e_cursor s =? e_l s) then
      s ← cli_write_newline s;
      Ret (Break, put_cursor (e_l s - 1) (put_oldl (e_l s - 1) (put_oldcmd true s)))
    else next (emit [c] s).

Definition continue (m : outcome session) : outcome (flow * session) :=
  s ← m; Ret (Continue, s).

(** The handlers in the order of their tests. *)
Definition handle_key `{Regex, Program} (c : byte) (s : session) : outcome (flow * session) :=
  let k := byte.unsigned c in
  if k =? 0 then Ret (Continue, s)
  else if k =? 10 then
    s ← (if hidden s then Ret s else cli_write_newline s); Ret (Break, s)
  else if k =? 27 then Ret (Continue, put_esc 1 s)
  else if k =? CTRL 67 then Ret (Continue, emit bell s)
  else if k =? CTRL 87 then continue (key_erase true s)
  else if (k =? CTRL 72) || (k =? 127) then continue (key_erase false s)
  else if k =? CTRL 76 then continue (key_redraw s)
  else if k =? CTRL 85 then continue (key_clear s)
  else if k =? CTRL 75 then continue (key_kill s)
  else if k =? CTRL 68 then key_eot s
  else if k =? CTRL 90 then continue (key_disable s)
  else if k =? CTRL 73 then continue (key_tab s)
  else if k =? CTRL 80 then continue (key_history true s)
  else if k =? CTRL 78 then continue (key_history false s)
  else if k =? CTRL 66 then continue (key_left s)
  else if k =? CTRL 70 then continue (key_right s)
  else if k =? CTRL 65 then continue (key_home s)
  else if k =? CTRL 69 then continue (key_end s)
  else key_char c s.

(** The second and third byte of an arrow key, as a control character. *)
Definition arrow (c : byte) : byte :=
  match c with
  | Byte.x41 => Byte.x10 | Byte.x42 => Byte.x0e | Byte.x43 => Byte.x06 | Byte.x44 => Byte.x02
  | _ => Byte.x00
  end.

Definition ansi `{Regex, Program} (c : byte) (s : session) : outcome (flow * session) :=
  if e_esc s =? 0 then handle_key c s
  else if e_esc s =? 91 then handle_key (arrow c) (put_esc 0 s)
  else Ret (Continue, put_esc (if byte.unsigned c =? 91 then 91 else 0) s).

(** The telnet commands are taken out of the input; a doubled 255 stands for
    itself. *)
Definition handle_byte `{Regex, Program} (c : byte) (s : session) : outcome (flow * session) :=
  let k := byte.unsigned c in
  let t := e_is_telnet_option s in
  if (k =? 255) && (t =? 0) then Ret (Continue, put_is_telnet_option (t + 1) s)
  else if negb (t =? 0) then
    if (251 <=? k) && (k <=? 254) then Ret (Continue, put_is_telnet_option k s)
    else if negb (k =? 255) then Ret (Continue, put_is_telnet_option 0 s)
    else ansi c (put_is_telnet_option 0 s)
  else ansi c s.

(** A pass of the inner loop. *)
Definition inner_step `{Regex, Program} (e : event) (s : session) : outcome (flow * session) :=
  s ← prompt s;
  match e with
  | Interrupted => Ret (Continue, s)
  | Failed | Eof => Ret (Break, put_l (-1) s)
  | Timeout =>
      match d_regular_callback (e_cli s) with
      | Some f =>
          '(rc, cli) ← call_regular f (e_cli s);
          Ret (if rc =? CLI_OK then Continue else Break, put_cli cli s)
      | None => Ret (Continue, s)
      end
  | Read c => handle_byte c s
  end.

(** ** Lines *)

Definition DES_PREFIX : list byte := bs "{crypt}".
Definition MD5_PREFIX : list byte := bs "$1$".

Definition pass_matches `{Program} (pass try : list byte) : bool :=
  let des := strncasecmp pass DES_PREFIX 7 =? 0 in
  let pass := if des then drop 7 pass else pass in
  let try := if des || (strncmp pass MD5_PREFIX 3 =? 0) then crypt try pass else try in
  strcmp pass try =? 0.

Definition check_user `{Program} (cli : cli_def) (u p : list byte) : bool :=
  (match d_auth_callback cli with Some f => call_auth f u p | None => false end)
  || existsb (λ x, (strcmp (username x) u =? 0) && pass_matches (password x) p) (d_users cli).

Definition check_enable `{Program} (cli : cli_def) (p : list byte) : bool :=
  (match d_enable_password cli with Some e => pass_matches e p | None => false end)
  || (match d_enable_callback cli with Some f => call_enable f p | None => false end).

Definition denied `{Regex} (s : session) : outcome session :=
  cli ← cli_error (e_cli s) ([Byte.x0a; Byte.x0a] ++ bs "Access denied"); Ret (put_cli cli s).

Definition line_login (s : session) : outcome session :=
  if e_l s =? 0 then Ret s
  else
    u ← cmd_string s 0;
    Ret (put_user (Some u) (put_cli (set_showprompt true (set_state STATE_PASSWORD (e_cli s))) s)).

Definition line_password `{Regex, Program} (s : session) : outcome session :=
  p ← cmd_string s 0;
  match e_user s with
  | None => UB "strcmp with a NULL username"
  | Some u =>
      let s := put_pass (Some p) s in
      s ← (if check_user (e_cli s) u p then
             cli ← cli_error (e_cli s) []; Ret (put_cli (set_state STATE_NORMAL cli) s)
           else
             s ← denied s;
             Ret (put_cli (set_state STATE_LOGIN (e_cli s)) (put_pass None (put_user None s))));
      Ret (put_cli (set_showprompt true (e_cli s)) s)
  end.

Definition line_enable_password `{Regex, Program} (s : session) : outcome session :=
  p ← cmd_string s 0;
  if check_enable (e_cli s) p then
    Ret (put_cli (cli_set_privilege (set_state STATE_ENABLE (e_cli s)) PRIVILEGE_PRIVILEGED).2 s)
  else s ← denied s; Ret (put_cli (set_state STATE_NORMAL (e_cli s)) s).

Definition line_command `{Regex, Program} (s : session) : outcome (flow * session) :=
  if e_l s =? 0 then Ret (Continue, s)
  else
    b ← peek s (e_l s - 1) 1;
    t ← cmd_string s 0;
    cli ← (if byte_eqb (ch b 0) Byte.x3f || (strcasecmp t (bs "history") =? 0)
           then Ret (e_cli s) else cli_add_history (e_cli s) t);
    '(rc, cli) ← cli_run_command cli t;
    Ret (if rc =? CLI_QUIT then Break else Continue, put_cli cli s).

Definition is_quit (s : session) : bool :=
  match cstr (e_cmd s) with Some t => strcasecmp t (bs "quit") =? 0 | None => false end.

(** The outer loop after the inner one broke. *)
Definition handle_line `{Regex, Program} (s : session) : outcome (flow * session) :=
  if e_l s <? 0 then Ret (Break, s)
  else if is_quit s then Ret (Break, s)
  else match d_state (e_cli s) with
       | STATE_LOGIN => continue (line_login s)
       | STATE_PASSWORD => continue (line_password s)
       | STATE_ENABLE_PASSWORD => continue (line_enable_password s)
       | STATE_NORMAL | STATE_ENABLE => line_command s
       end.

(** The start of a pass of the outer loop. *)
Definition start_line (s : session) : outcome session :=
  let s := put_in_history 0 (put_lastchar 0 s) in
  let s := put_cli (set_showprompt true (e_cli s)) s in
  if e_oldcmd s then
    s ← poke (e_oldl s) [Byte.x00] (put_cursor (e_oldl s) (put_l (e_oldl s) s));
    Ret (put_oldl 0 (put_oldcmd false s))
  else
    s ← poke 0 (repeat Byte.x00 (Z.to_nat line_size)) s;
    Ret (put_cursor 0 (put_l 0 s)).

(** What is sent or freed at the end. *)
Definition cleanup (s : session) : cli_def :=
  let free x := match x with Line _ => Freed | _ => x end in
  set_client false (set_history (map free (d_history (e_cli s))) (e_cli s)).

(** Both loops, over the events. *)
Fixpoint session_loop `{Regex, Program} (s : session) (events : list event) : outcome cli_def :=
  match events with
  | [] => s ← prompt s; Ret (cleanup s)
  | e :: events =>
      '(f, s) ← inner_step e s;
      match f with
      | Continue => session_loop s events
      | Break =>
          '(f, s) ← handle_line s;
          match f with
          | Break => Ret (cleanup s)
          | Continue => s ← start_line s; session_loop s events
          end
      end
  end.

(** [memset(cli->history, 0, MAX_HISTORY)] clears 256 bytes, the first pointers of
    the array only. *)
Definition clear_history `{Arch} (h : list slot) : list slot :=
  let n := Nat.min (length h) (Z.to_nat (8 * Z.of_nat MAX_HISTORY / ulong_bits)) in
  repeat Null n ++ drop n h.

Definition session_start `{Arch, Regex} (cli : cli_def) (cmd : list byte) : outcome session :=
  let cli := set_state STATE_LOGIN cli in
  let cli := set_history (clear_history (d_history cli)) cli in
  let cli := set_client true cli in
  cli ← (match d_banner cli with Some b => cli_error cli b | None => Ret cli end);
  let cli := (cli_set_privilege cli PRIVILEGE_UNPRIVILEGED).2 in
  let cli := (cli_set_configmode cli MODE_EXEC None).2 in
  let cli := match d_users cli, d_auth_callback cli with
             | [], None => set_state STATE_NORMAL cli
             | _, _ => cli
             end in
  start_line (mk_session cli cmd 0 0 false 0 0 0 0 0 None None).

(** [cmd] is the memory [malloc] returns, with any content. *)
Definition cli_loop `{Arch, Regex, Program} (cli : cli_def) (cmd : list byte) (input : list event)
    : outcome cli_def :=
  s ← session_start cli cmd;
  session_loop s input.
