(* ===== verification/CliLoopSpec.v ===== *)
(** The correctness of libcli's session (CliLoop.v): the line editor refines a
    line with a cursor in it, a telnet command leaves no trace, a session is
    entered and made privileged with the right password only, and always with
    it. *)

From Stdlib Require Import ZArith Lia String.
From stdpp Require Import base tactics list numbers.
From coqutil Require Import Byte.
From S2P Require Import Prelude Words CMem CString Cli CliCommands CliSpec CliLoop.

#[local] Open Scope Z_scope.

(** Name the variables of a session, and compute its fields. *)
Ltac open_session s :=
  destruct s as [cli cmd l cur oc ol te esc ih lc nm pwd];
  cbn [e_cli e_cmd e_l e_cursor e_oldcmd e_oldl e_is_telnet_option e_esc e_in_history e_lastchar
       e_user e_pass] in *.
Ltac fields :=
  cbn [e_cli e_cmd e_l e_cursor e_oldcmd e_oldl e_is_telnet_option e_esc e_in_history e_lastchar
       e_user e_pass put_cli put_cmd put_l put_cursor put_oldcmd put_oldl put_is_telnet_option
       put_esc put_in_history put_lastchar put_user put_pass emit mbind outcome_bind negb] in *.

(** Equality of lists up to the way they are put together. *)
Ltac lists := rewrite <- ?app_assoc; cbn [app]; rewrite <- ?app_assoc; reflexivity.

(** ** The line *)

Definition zeros (n : nat) : list byte := repeat Byte.x00 n.

(** The line of a session is [before ++ after], with the cursor between the two,
    and NUL after it; no telnet command or escape sequence is open. *)
Record shows (s : session) (before after : list byte) : Prop := {
  shows_cmd : ∃ k, e_cmd s = before ++ after ++ zeros (S k) ∧
                   (length before + length after + S k = 4096)%nat;
  shows_l : e_l s = Z.of_nat (length before + length after);
  shows_cursor : e_cursor s = Z.of_nat (length before);
  shows_before : nonul before;
  shows_after : nonul after;
  shows_telnet : e_is_telnet_option s = 0;
  shows_esc : e_esc s = 0;
  shows_oldcmd : e_oldcmd s = false
}.

(** The session up to its line and what it has sent. *)
Definition view (cli : cli_def) : cli_def := set_showprompt false (set_out [] cli).

Definition frame (s s' : session) : Prop :=
  view (e_cli s') = view (e_cli s) ∧ e_user s' = e_user s ∧ e_pass s' = e_pass s.

Lemma view_send b cli : view (send b cli) = view cli.
Proof. by destruct cli. Qed.

Lemma view_showprompt b cli : view (set_showprompt b cli) = view cli.
Proof. by destruct cli. Qed.

Lemma frame_refl s : frame s s.
Proof. done. Qed.

Lemma frame_trans s1 s2 s3 : frame s1 s2 → frame s2 s3 → frame s1 s3.
Proof. unfold frame. intuition congruence. Qed.

(** Fields that do not change with the view. *)
Lemma view_fields cli cli' :
  view cli' = view cli →
  d_state cli' = d_state cli ∧ d_newline cli' = d_newline cli ∧
  d_promptchar cli' = d_promptchar cli ∧ d_users cli' = d_users cli ∧
  d_auth_callback cli' = d_auth_callback cli ∧ d_privilege cli' = d_privilege cli.
Proof. destruct cli, cli'. unfold view. simpl. intros [=]. by subst. Qed.

Lemma hidden_frame s s' : frame s s' → hidden s' = hidden s.
Proof. intros (Hv & _). apply view_fields in Hv as (Hs & _). unfold hidden. by rewrite Hs. Qed.

(** What an editing key does to the line. *)
Fixpoint drop_while (p : byte → bool) (s : list byte) : list byte :=
  match s with c :: s' => if p c then drop_while p s' else s | [] => [] end.

Definition is_blank (c : byte) : bool := byte_eqb Byte.x20 c.

Definition without_word (s : list byte) : list byte :=
  rev (drop_while (λ c, negb (is_blank c)) (drop_while is_blank (rev s))).

Definition edit (c : byte) (line : list byte * list byte) : list byte * list byte :=
  let '(b, a) := line in
  let k := byte.unsigned c in
  if k =? CTRL 87 then (without_word b, a)
  else if (k =? CTRL 72) || (k =? 127) then (removelast b, a)
  else if k =? CTRL 76 then (b, a)
  else if k =? CTRL 85 then ([], [])
  else if k =? CTRL 75 then (b, [])
  else if k =? CTRL 66 then
    match rev b with x :: r => (rev r, x :: a) | [] => (b, a) end
  else if k =? CTRL 70 then
    match a with x :: a => (b ++ [x], a) | [] => (b, a) end
  else if k =? CTRL 65 then ([], b ++ a)
  else if k =? CTRL 69 then (b ++ a, [])
  else (b ++ [c], a).

(** The keys that edit: not the keys that end the line, complete it, call the
    history, or begin a sequence.  There is room for one more byte, and to clear
    the line three times its length. *)
Definition edits (c : byte) (line : list byte * list byte) : Prop :=
  byte.unsigned c ∉ [0; 10; 27; CTRL 67; CTRL 68; CTRL 90; CTRL 73; CTRL 80; CTRL 78; 255] ∧
  (length line.1 + length line.2 < 4094)%nat ∧
  (c = Byte.x3f → line.2 ≠ []) ∧
  (byte.unsigned c = CTRL 85 → (3 * (length line.1 + length line.2) ≤ 4096)%nat).

(** *** The handlers *)

Lemma zeros_app n m : zeros n ++ zeros m = zeros (n + m).
Proof. symmetry. apply repeat_app. Qed.

Lemma zeros_S n : zeros (S n) = [Byte.x00] ++ zeros n.
Proof. done. Qed.

Lemma length_zeros n : length (zeros n) = n.
Proof. apply repeat_length. Qed.

Lemma length_spaces n : 0 ≤ n → Z.of_nat (length (spaces n)) = n.
Proof. intros. unfold spaces. rewrite repeat_length. lia. Qed.

Lemma length_backspaces n : 0 ≤ n → Z.of_nat (length (backspaces n)) = n.
Proof. intros. unfold backspaces. rewrite repeat_length. lia. Qed.

(** A byte typed at the end of the line; also a password is typed so. *)
Lemma insert_end c s b :
  shows s b [] → c ≠ Byte.x00 → (length b < 4094)%nat →
  ∃ s', insert_char c s = Ret (true, s') ∧ shows s' (b ++ [c]) [] ∧ frame s s'.
Proof.
  intros [(k & Hcmd & Hk) Hl Hcur Hb Ha Ht He Ho] Hc Hlen. open_session s. subst.
  unfold insert_char, poke. fields. simpl length in *. rewrite Nat.add_0_r in *.
  rewrite Z.eqb_refl. cbn [app]. rewrite zeros_S.
  rewrite (write_at_app b [Byte.x00] (zeros k)) by done. fields.
  assert ((Z.of_nat (length b) <? 4095) = true) as -> by (apply Z.ltb_lt; lia).
  eexists. split; [done | ]. split; [ | done]. fields. destruct k as [|k]; [lia | ].
  split; fields; try done; rewrite ?length_app; simpl; try lia.
  - exists k. rewrite <- app_assoc. split; [done | lia].
  - apply nonul_app. split; [done | ]. apply nonul_cons. split; [done | ]. apply not_elem_of_nil.
Qed.

Lemma insert_middle c s b x a :
  shows s b (x :: a) → c ≠ Byte.x00 → (length b + length (x :: a) < 4094)%nat →
  ∃ s', insert_char c s = Ret (true, s') ∧ shows s' (b ++ [c]) (x :: a) ∧ frame s s'.
Proof.
  intros [(k & Hcmd & Hk) Hl Hcur Hb Ha Ht He Ho] Hc Hlen. open_session s. subst.
  unfold insert_char, peek, poke. fields.
  assert ((Z.of_nat (length b) =? Z.of_nat (length b + length (x :: a))) = false) as ->.
  { apply Z.eqb_neq. simpl. lia. }
  assert ((4094 <=? Z.of_nat (length b + length (x :: a))) = false) as -> by (apply Z.leb_gt; lia).
  fields. set (n := Z.of_nat (length b + length (x :: a)) - Z.of_nat (length b) + 1).
  assert (n = Z.of_nat (length ((x :: a) ++ [Byte.x00]))) as Hn.
  { unfold n. rewrite length_app. simpl. lia. }
  destruct k as [|[|k]]; [lia | lia | ].
  set (z := zeros (S k)). change (zeros (S (S (S k)))) with ([Byte.x00; Byte.x00] ++ z).
  replace (b ++ (x :: a) ++ [Byte.x00; Byte.x00] ++ z)
    with (b ++ ((x :: a) ++ [Byte.x00]) ++ Byte.x00 :: z) by lists.
  rewrite (read_at_app b ((x :: a) ++ [Byte.x00])) by done. fields.
  replace (b ++ ((x :: a) ++ [Byte.x00]) ++ Byte.x00 :: z)
    with ((b ++ [x]) ++ (a ++ [Byte.x00; Byte.x00]) ++ z) by lists.
  rewrite (write_at_app (b ++ [x]) (a ++ [Byte.x00; Byte.x00])) by (rewrite ?length_app; simpl; lia).
  fields.
  replace ((b ++ [x]) ++ ((x :: a) ++ [Byte.x00]) ++ z)
    with (b ++ [x] ++ ((x :: a) ++ [Byte.x00]) ++ z) by lists.
  rewrite (write_at_app b [x]) by done. fields.
  replace (b ++ [c] ++ ((x :: a) ++ [Byte.x00]) ++ z)
    with (b ++ ([c] ++ (x :: a)) ++ [Byte.x00] ++ z) by lists.
  rewrite (read_at_app b ([c] ++ (x :: a))) by (rewrite ?length_app in *; simpl in *; lia). fields.
  eexists. split; [done | ]. split; [ | ].
  - split; fields; try done; rewrite ?length_app; simpl in *; try lia.
    + exists (S k). split; [unfold z; lists | lia].
    + apply nonul_app. split; [done | ]. apply nonul_cons. split; [done | ]. apply not_elem_of_nil.
  - split; [ | done]. apply view_send.
Qed.

(** The end of the line is taken off, or the byte before the cursor. *)
Lemma erase_one s b x a :
  shows s (b ++ [x]) a → hidden s = false → (length (b ++ [x]) + length a < 4094)%nat →
  ∃ s', erase s = Ret s' ∧ shows s' b a ∧ frame s s'.
Proof.
  intros [(k & Hcmd & Hk) Hl Hcur Hb Ha Ht He Ho] Hh Hlen.
  apply nonul_app in Hb as [Hb Hx].
  open_session s. subst. unfold erase, poke, peek, cmd_string, hidden in *. fields. rewrite length_app in *.
  simpl length in *. replace (Z.of_nat (length b + 1) - 1) with (Z.of_nat (length b)) by lia.
  destruct a as [|y a].
  - simpl length in *. rewrite Nat.add_0_r, Z.eqb_refl. cbn [app].
    replace ((b ++ [x]) ++ zeros (S k)) with (b ++ [x] ++ zeros (S k)) by lists.
    rewrite (write_at_app b [x]) by done. fields. rewrite Hh.
    eexists. split; [done | ]. split.
    + split; fields; try done; simpl; try lia. exists (S k). split; [done | lia].
    + split; [ | done]. by apply view_send.
  - assert ((Z.of_nat (length b + 1 + length (y :: a)) =? Z.of_nat (length b + 1)) = false) as ->.
    { apply Z.eqb_neq. simpl. lia. }
    rewrite Hh. fields. destruct k as [|[|k]]; [simpl in *; lia.. | ].
    set (z := zeros (S k)). change (zeros (S (S (S k)))) with ([Byte.x00; Byte.x00] ++ z).
    replace ((b ++ [x]) ++ (y :: a) ++ [Byte.x00; Byte.x00] ++ z)
      with ((b ++ [x]) ++ ((y :: a) ++ [Byte.x00; Byte.x00]) ++ z) by lists.
    rewrite (read_at_app (b ++ [x]) ((y :: a) ++ [Byte.x00; Byte.x00]))
      by (rewrite ?length_app; simpl; lia).
    fields.
    replace ((b ++ [x]) ++ ((y :: a) ++ [Byte.x00; Byte.x00]) ++ z)
      with (b ++ ([x] ++ (y :: a) ++ [Byte.x00]) ++ Byte.x00 :: z) by lists.
    rewrite (write_at_app b ([x] ++ (y :: a) ++ [Byte.x00])) by (rewrite ?length_app; simpl; lia).
    fields. rewrite Nat2Z.id, drop_app_length.
    assert (cstr (((y :: a) ++ [Byte.x00; Byte.x00]) ++ Byte.x00 :: z) = Some (y :: a)) as ->.
    { apply cstr_Some. split; [done | ]. exists ([Byte.x00; Byte.x00] ++ z). lists. }
    fields. eexists. split; [done | ]. split.
    + split; fields; try done; simpl in *; try lia.
      exists (S (S (S k))). split; [unfold z; lists | lia].
    + split; [ | done]. apply view_send.
Qed.

Lemma erase_many_spec n s b a :
  shows s b a → hidden s = false → (length b + length a < 4094)%nat → (n ≤ length b)%nat →
  ∃ s', erase_many n s = Ret s' ∧ shows s' (take (length b - n) b) a ∧ frame s s'.
Proof.
  revert s b. induction n as [|n IH]; intros s b Hs Hh Hlen Hn.
  { exists s. rewrite Nat.sub_0_r, take_ge by lia. done. }
  destruct b as [|x b _] using rev_ind; [simpl in Hn; lia | ]. rewrite length_app in *.
  simpl length in *. cbn [erase_many].
  destruct (erase_one s b x a) as (s1 & -> & Hs1 & Hf1); [done.. | rewrite length_app; simpl; lia | ].
  fields. destruct (IH s1 b) as (s2 & -> & Hs2 & Hf2); [done | | lia | lia | ].
  { by rewrite (hidden_frame s s1). }
  exists s2. split; [done | ]. replace (length b + 1 - S n)%nat with (length b - n)%nat by lia.
  rewrite take_app_le by lia. split; [done | ]. by eapply frame_trans.
Qed.

Lemma count_while_drop p s :
  drop (count_while p s) s = drop_while p s ∧ (count_while p s ≤ length s)%nat.
Proof. induction s as [|c s [IH1 IH2]]; simpl; [done | ]. destruct (p c); simpl; split; done || lia. Qed.

Lemma word_back_spec b :
  take (length b - word_back b) b = without_word b ∧ (word_back b ≤ length b)%nat.
Proof.
  rewrite <- (rev_involutive b). generalize (rev b). clear b. intros r.
  unfold word_back, without_word. rewrite rev_involutive, length_rev.
  change (λ c : byte, negb (byte_eqb Byte.x20 c)) with (λ c, negb (is_blank c)).
  change (byte_eqb Byte.x20) with is_blank. set (p := λ c, negb (is_blank c)).
  destruct (count_while_drop is_blank r) as [E1 L1].
  destruct (count_while_drop p (drop (count_while is_blank r) r)) as [E2 L2].
  rewrite <- E1, <- E2, drop_drop. rewrite length_drop in L2.
  set (n := (count_while is_blank r + count_while p _)%nat) in *.
  assert (n ≤ length r)%nat by (unfold n; lia). split; [ | done].
  rewrite <- (take_drop n r) at 2. rewrite rev_app_distr.
  rewrite take_app_le by (rewrite length_rev, length_drop; lia).
  apply take_ge. rewrite length_rev, length_drop. lia.
Qed.

(** A state that differs in the sent bytes and the cursor only. *)
Lemma shows_move s s' b a b' a' :
  shows s b a → b ++ a = b' ++ a' → e_cmd s' = e_cmd s → e_l s' = e_l s →
  e_cursor s' = Z.of_nat (length b') → e_is_telnet_option s' = e_is_telnet_option s →
  e_esc s' = e_esc s → e_oldcmd s' = e_oldcmd s → shows s' b' a'.
Proof.
  intros [(k & Hcmd & Hk) Hl Hcur Hb Ha Ht He Ho] E Hcmd' Hl' Hcur' Ht' He' Ho'.
  assert (nonul (b' ++ a')) as Hn by (rewrite <- E; by apply nonul_app).
  apply nonul_app in Hn as [? ?]. apply (f_equal length) in E as El. rewrite !length_app in El.
  split; try congruence; try done.
  exists k. rewrite Hcmd', Hcmd, (app_assoc b), (app_assoc b'), E. split; [done | lia].
Qed.

Lemma frame_emit x s : frame s (emit x s).
Proof. open_session s. split; [apply view_send | done]. Qed.

Lemma shows_emit x s b a : shows s b a → shows (emit x s) b a.
Proof.
  intros Hs. pose proof (shows_cursor _ _ _ Hs). apply (shows_move s _ b a); try done; by open_session s.
Qed.

Lemma key_erase_spec word s b a :
  shows s b a → hidden s = false → (length b + length a < 4094)%nat →
  ∃ s', key_erase word s = Ret s' ∧
    shows s' (if word then without_word b else removelast b) a ∧ frame s s'.
Proof.
  intros Hs Hh Hlen. unfold key_erase. pose proof Hs as [_ Hl Hcur _ _ _ _ _].
  rewrite Hl, Hcur. destruct (decide (b = [])) as [-> | Hne].
  { simpl length. cbn [Nat.add]. rewrite Z.eqb_refl, orb_true_r.
    exists (if word then s else emit bell s). split; [done | ].
    destruct word; [done | ]. split; [by apply shows_emit | apply frame_emit]. }
  assert (0 < length b)%nat by (destruct b; [done | simpl; lia]).
  assert ((Z.of_nat (length b + length a) =? 0) || (Z.of_nat (length b) =? 0) = false) as ->.
  { apply orb_false_iff. split; apply Z.eqb_neq; lia. }
  destruct word.
  - unfold peek. destruct (shows_cmd _ _ _ Hs) as (k & -> & _).
    rewrite read_at_front by done. fields.
    destruct (word_back_spec b) as [<- ?]. by apply erase_many_spec.
  - destruct (erase_many_spec 1 s b a) as (s' & ? & Hs' & ?); [done.. | lia | ].
    exists s'. split; [done | ]. split; [ | done]. rewrite removelast_firstn_len.
    by replace (Nat.pred (length b)) with (length b - 1)%nat by lia.
Qed.


Lemma clear_line_spec s b a :
  shows s b a → (3 * (length b + length a) ≤ 4096)%nat →
  ∃ s', cli_clear_line s = Ret s' ∧ e_cmd s' = zeros 4096 ∧ frame s s' ∧
    e_is_telnet_option s' = 0 ∧ e_esc s' = 0 ∧ e_oldcmd s' = false.
Proof.
  intros [(k & Hcmd & Hk) Hl Hcur Hb Ha Ht He Ho] Hlen. open_session s. subst.
  unfold cli_clear_line, poke. fields. set (n := (length b + length a)%nat) in *.
  set (wipe := backspaces (Z.of_nat n) ++ spaces (Z.of_nat n) ++ backspaces (Z.of_nat n)).
  assert (length wipe = (3 * n)%nat) as Hw.
  { unfold wipe, backspaces, spaces. rewrite !length_app, !repeat_length. lia. }
  assert (b ++ a ++ zeros (S k) = (b ++ a ++ zeros (2 * n)) ++ zeros (4096 - 3 * n)) as ->.
  { rewrite <- !app_assoc, zeros_app. do 3 f_equal. lia. }
  rewrite write_at_front
    by (rewrite ?length_app, ?length_zeros; simpl; lia).
  fields.
  rewrite write_at_front by (rewrite ?repeat_length; done). fields.
  eexists. split; [done | ]. fields. split_and!; try done.
  - fold (zeros (length wipe)). rewrite zeros_app, Hw. f_equal. lia.
  - split; [ | done]. fields. by rewrite !view_send.
Qed.

Lemma shows_empty s : e_cmd s = zeros 4096 → e_l s = 0 → e_cursor s = 0 →
  e_is_telnet_option s = 0 → e_esc s = 0 → e_oldcmd s = false → shows s [] [].
Proof.
  intros. split; try done; [ | apply not_elem_of_nil..]. exists 4095%nat. split; [done | simpl; lia].
Qed.

Lemma key_kill_spec s b a :
  shows s b a → ∃ s', key_kill s = Ret s' ∧ shows s' b [] ∧ frame s s'.
Proof.
  intros Hs. pose proof Hs as [(k & Hcmd & Hk) Hl Hcur Hb Ha Ht He Ho]. unfold key_kill.
  rewrite Hl, Hcur. replace (Z.of_nat (length b + length a) - Z.of_nat (length b))
    with (Z.of_nat (length a)) by lia.
  destruct (Z.eqb_spec (Z.of_nat (length a)) 0) as [E | E].
  { assert (a = []) as -> by (destruct a; [done | simpl in E; lia]). by exists s. }
  assert (∃ s1, (if hidden s then s else emit (spaces (Z.of_nat (length a)) ++
                   backspaces (Z.of_nat (length a))) s) = s1 ∧ shows s1 b a ∧ frame s s1)
    as (s1 & -> & Hs1 & Hf1).
  { eexists. split; [done | ]. destruct (hidden s); [done | ].
    split; [by apply shows_emit | apply frame_emit]. }
  clear k Hcmd Hk. destruct Hs1 as [(k & Hcmd & Hk) Hl1 Hcur1 _ _ Ht1 He1 Ho1].
  unfold poke. rewrite Hcmd, Hcur1, Nat2Z.id. fold (zeros (length a)).
  rewrite (write_at_app b a) by (rewrite ?length_zeros; done). fields.
  open_session s1. fields. eexists. split; [done | ]. split; [ | by destruct Hf1].
  split; fields; cbn [length]; rewrite ?Nat.add_0_r; try done; [ | apply not_elem_of_nil].
  exists (length a + k)%nat. cbn [app]. rewrite zeros_app. split; [do 2 f_equal; lia | lia].
Qed.

(** The prompt and the newline are set, as [cli_init] and its caller do. *)
Definition terminal (cli : cli_def) : Prop := d_newline cli ≠ None ∧ d_promptchar cli ≠ None.

(** [s'] is [s] with more sent. *)
Definition more_sent (s s' : session) : Prop := ∃ x, s' = put_cli (set_out x (e_cli s)) s.

Lemma more_sent_emit x s : more_sent s (emit x s).
Proof. exists (d_out (e_cli s) ++ [Sent x]). by open_session s. Qed.

Lemma more_sent_trans s1 s2 s3 : more_sent s1 s2 → more_sent s2 s3 → more_sent s1 s3.
Proof. intros [x ->] [y ->]. exists y. open_session s1. fields. by destruct cli. Qed.

Lemma more_sent_shows s s' b a : more_sent s s' → shows s b a → shows s' b a.
Proof.
  intros [x ->] Hs. pose proof (shows_cursor _ _ _ Hs).
  apply (shows_move s _ b a); try done; by open_session s.
Qed.

Lemma more_sent_frame s s' : more_sent s s' → frame s s'.
Proof. intros [x ->]. open_session s. split; [ | done]. fields. by destruct cli. Qed.

Lemma show_prompt_sent s :
  d_promptchar (e_cli s) ≠ None → ∃ s', show_prompt s = Ret s' ∧ more_sent s s'.
Proof.
  intros Hp. unfold show_prompt. open_session s.
  destruct cli as [? ? ? ? ? ? ? ? ? pc hn ms ? ? ? ? ? ? ? ou]. cbn [d_promptchar] in Hp.
  destruct pc as [pc|]; [ | done].
  destruct hn, ms; cbn; (eexists; split; [done | ]; eexists; reflexivity).
Qed.

Lemma write_newline_sent s :
  d_newline (e_cli s) ≠ None → ∃ s', cli_write_newline s = Ret s' ∧ more_sent s s'.
Proof.
  intros Hn. unfold cli_write_newline. destruct (d_newline (e_cli s)) as [nl|]; [ | done].
  eexists. split; [done | ]. apply more_sent_emit.
Qed.

Lemma terminal_frame s s' : frame s s' → terminal (e_cli s) → terminal (e_cli s').
Proof. intros (Hv & _) [? ?]. apply view_fields in Hv. unfold terminal. intuition congruence. Qed.

(** The whole line is read. *)
Lemma peek_line s b a : shows s b a → peek s 0 (e_l s) = Ret (b ++ a).
Proof.
  intros [(k & Hcmd & Hk) Hl _ _ _ _ _ _]. unfold peek. rewrite Hcmd, Hl, app_assoc.
  apply read_at_front. by rewrite length_app.
Qed.

Lemma key_redraw_spec s b a :
  shows s b a → hidden s = false → terminal (e_cli s) →
  ∃ s', key_redraw s = Ret s' ∧ shows s' b a ∧ frame s s'.
Proof.
  intros Hs Hh Ht. unfold key_redraw. rewrite Hh.
  destruct (write_newline_sent s) as (s1 & -> & M1); [apply Ht | ]. fields.
  destruct (show_prompt_sent s1) as (s2 & -> & M2).
  { apply (terminal_frame s s1); [by apply more_sent_frame | done]. }
  fields. assert (more_sent s s2) as M by (by eapply more_sent_trans).
  rewrite (peek_line s2 b a) by (by eapply more_sent_shows). fields.
  eexists. split; [done | ].
  assert (more_sent s (emit ((b ++ a) ++ backspaces (e_l s2 - e_cursor s2)) s2)) as M3.
  { eapply more_sent_trans; [done | apply more_sent_emit]. }
  split; [by eapply more_sent_shows | by apply more_sent_frame].
Qed.

(** A key that moves the cursor and sends. *)
Lemma moved s s1 b a b' a' :
  shows s b a → more_sent s s1 → b ++ a = b' ++ a' →
  shows (put_cursor (Z.of_nat (length b')) s1) b' a' ∧ frame s (put_cursor (Z.of_nat (length b')) s1).
Proof.
  intros Hs M E. assert (shows s1 b a) as Hs1 by (by eapply more_sent_shows).
  apply more_sent_frame in M. split.
  - apply (shows_move s1 _ b a); try done; by open_session s1.
  - open_session s1. done.
Qed.

Lemma emit_unless_sent s x : more_sent s (if hidden s then s else emit x s).
Proof.
  destruct (hidden s); [ | apply more_sent_emit].
  exists (d_out (e_cli s)). open_session s. by destruct cli.
Qed.

Lemma key_left_spec s b x a :
  shows s (b ++ [x]) a → ∃ s', key_left s = Ret s' ∧ shows s' b (x :: a) ∧ frame s s'.
Proof.
  intros Hs. unfold key_left. rewrite (shows_cursor _ _ _ Hs), length_app. simpl length.
  destruct (Z.eqb_spec (Z.of_nat (length b + 1)) 0) as [E | _]; [lia | ].
  eexists. split; [done | ].
  pose proof (emit_unless_sent s [Byte.x08]) as M.
  assert (e_cursor (if hidden s then s else emit [Byte.x08] s) - 1 = Z.of_nat (length b)) as ->.
  { assert (e_cursor (if hidden s then s else emit [Byte.x08] s) = e_cursor s) as ->.
    { destruct (hidden s); [done | ]. by open_session s. }
    rewrite (shows_cursor _ _ _ Hs), length_app. simpl. lia. }
  eapply moved; [done | done | lists].
Qed.

Lemma key_right_spec s b x a :
  shows s b (x :: a) → ∃ s', key_right s = Ret s' ∧ shows s' (b ++ [x]) a ∧ frame s s'.
Proof.
  intros Hs. pose proof Hs as [(k & Hcmd & Hk) Hl Hcur _ _ _ _ _]. unfold key_right, peek.
  rewrite Hl, Hcur. simpl length.
  assert ((Z.of_nat (length b) <? Z.of_nat (length b + S (length a))) = true) as ->.
  { apply Z.ltb_lt. lia. }
  rewrite Hcmd. change (b ++ (x :: a) ++ zeros (S k)) with (b ++ [x] ++ a ++ zeros (S k)).
  rewrite (read_at_app b [x]) by done. fields. eexists. split; [done | ].
  pose proof (emit_unless_sent s [x]) as M.
  assert (e_cursor (if hidden s then s else emit [x] s) + 1 = Z.of_nat (length (b ++ [x]))) as ->.
  { assert (e_cursor (if hidden s then s else emit [x] s) = e_cursor s) as ->.
    { destruct (hidden s); [done | ]. by open_session s. }
    rewrite Hcur, length_app. simpl. lia. }
  eapply moved; [done | done | lists].
Qed.

Lemma key_home_spec s b a :
  shows s b a → terminal (e_cli s) →
  ∃ s', key_home s = Ret s' ∧ shows s' [] (b ++ a) ∧ frame s s'.
Proof.
  intros Hs Ht. unfold key_home. rewrite (shows_cursor _ _ _ Hs).
  destruct (Z.eqb_spec (Z.of_nat (length b)) 0) as [E | E].
  { destruct b; [ | simpl in E; lia]. by exists s. }
  destruct (hidden s).
  - eexists. split; [done | ]. apply (moved s s b a [] (b ++ a)); [done | | done].
    exists (d_out (e_cli s)). open_session s. by destruct cli.
  - destruct (show_prompt_sent (emit [Byte.x0d] s)) as (s1 & -> & M).
    { apply (terminal_frame s); [apply frame_emit | done]. }
    fields. eexists. split; [done | ]. apply (moved s s1 b a [] (b ++ a)); [done | | done].
    eapply more_sent_trans; [apply more_sent_emit | done].
Qed.

Lemma key_end_spec s b a :
  shows s b a → ∃ s', key_end s = Ret s' ∧ shows s' (b ++ a) [] ∧ frame s s'.
Proof.
  intros Hs. pose proof Hs as [(k & Hcmd & Hk) Hl Hcur _ _ _ _ _]. unfold key_end, peek.
  rewrite Hl, Hcur. destruct (Z.ltb_spec (Z.of_nat (length b)) (Z.of_nat (length b + length a))).
  - rewrite Hcmd, (read_at_app b a) by lia. fields. eexists. split; [done | ].
    pose proof (emit_unless_sent s a) as M.
    assert (e_l (if hidden s then s else emit a s) = Z.of_nat (length (b ++ a))) as ->.
    { rewrite length_app, <- Hl. destruct (hidden s); [done | ]. by open_session s. }
    eapply moved; [done | done | by rewrite app_nil_r].
  - destruct a as [|x a]; [ | simpl in *; lia]. exists s. by rewrite app_nil_r.
Qed.

(** A byte that is typed, in a line that is shown or at the end of a password. *)
Lemma key_char_spec c s b a :
  shows s b a → c ≠ Byte.x00 → (length b + length a < 4094)%nat →
  (hidden s = true → a = []) → (hidden s = false → c = Byte.x3f → a ≠ []) →
  ∃ s', key_char c s = Ret (Continue, s') ∧ shows s' (b ++ [c]) a ∧ frame s s'.
Proof.
  intros Hs Hc Hlen Hhid Hq. unfold key_char.
  assert (∃ s1, insert_char c s = Ret (true, s1) ∧ shows s1 (b ++ [c]) a ∧ frame s s1)
    as (s1 & -> & Hs1 & Hf1).
  { destruct a as [|x a]; [apply insert_end | apply insert_middle]; simpl in *; try lia; done. }
  fields. assert (∀ s2, more_sent s1 s2 →
    ∃ s', Ret (Continue, put_lastchar (byte.unsigned c) (put_oldl 0 (put_oldcmd false s2)))
          = Ret (Continue, s') ∧ shows s' (b ++ [c]) a ∧ frame s s') as Hnext.
  { intros s2 M. eexists. split; [done | ].
    assert (frame s s2) as Hf2 by (eapply frame_trans; [done | by apply more_sent_frame]).
    apply (more_sent_shows _ _ _ _ M) in Hs1. clear M Hf1. open_session s2. fields.
    split; [by destruct Hs1; split | done]. }
  rewrite (hidden_frame s s1) by done. destruct (hidden s) eqn:Eh.
  - apply Hnext. exists (d_out (e_cli s1)). open_session s1. by destruct cli.
  - destruct (byte_eqb c Byte.x3f && (e_cursor s1 =? e_l s1)) eqn:E; [ | apply Hnext, more_sent_emit].
    exfalso. apply andb_true_iff in E as [Ec El]. apply byte_eqb_eq in Ec.
    specialize (Hq eq_refl Ec). apply Z.eqb_eq in El.
    rewrite (shows_cursor _ _ _ Hs1), (shows_l _ _ _ Hs1) in El. destruct a; [done | simpl in El; lia].
Qed.

(** *** The editor refines the line with a cursor *)

Lemma unsigned_0 c : byte.unsigned c ≠ 0 → c ≠ Byte.x00.
Proof. by intros Hc ->. Qed.

Lemma removelast_snoc (b : list byte) x : removelast (b ++ [x]) = b.
Proof. rewrite removelast_app by done. simpl. apply app_nil_r. Qed.

Section editor.
Context `{Regex, Program}.

Lemma handle_key_edits c s b a :
  shows s b a → hidden s = false → terminal (e_cli s) → edits c (b, a) →
  ∃ s', handle_key c s = Ret (Continue, s') ∧
    shows s' (edit c (b, a)).1 (edit c (b, a)).2 ∧ frame s s'.
Proof.
  intros Hs Hh Ht (Hk & Hlen & Hq & Hclear). cbn [fst snd] in *.
  rewrite !not_elem_of_cons in Hk. unfold handle_key, edit. set (k := byte.unsigned c) in *.
  destruct Hk as (K0 & K10 & K27 & K3 & K4 & K26 & K9 & K16 & K14 & K255 & _).
  apply unsigned_0 in K0 as Kc.
  rewrite (proj2 (Z.eqb_neq _ _) K0), (proj2 (Z.eqb_neq _ _) K10), (proj2 (Z.eqb_neq _ _) K27),
    (proj2 (Z.eqb_neq _ _) K3), (proj2 (Z.eqb_neq _ _) K4), (proj2 (Z.eqb_neq _ _) K26),
    (proj2 (Z.eqb_neq _ _) K9), (proj2 (Z.eqb_neq _ _) K16), (proj2 (Z.eqb_neq _ _) K14).
  unfold continue.
  case_if; [destruct (key_erase_spec true s b a) as (s' & -> & ?); [done.. | by exists s'] | ].
  case_if; [destruct (key_erase_spec false s b a) as (s' & -> & ?); [done.. | by exists s'] | ].
  case_if; [destruct (key_redraw_spec s b a) as (s' & -> & ?); [done.. | by exists s'] | ].
  destruct (Z.eqb_spec k (CTRL 85)) as [Eu | _].
  { unfold key_clear. rewrite Hh.
    destruct (clear_line_spec s b a) as (s' & -> & Hcmd & Hf & Ht' & He & Ho); [done | by apply Hclear | ].
    fields. eexists. split; [done | ]. open_session s'.
    split; [by apply shows_empty | done]. }
  case_if; [destruct (key_kill_spec s b a) as (s' & -> & ?); [done.. | by exists s'] | ].
  case_if.
  { destruct b as [|x b _] using rev_ind.
    - exists s. split; [ | by simpl]. unfold key_left. by rewrite (shows_cursor _ _ _ Hs).
    - rewrite rev_app_distr. cbn [rev app]. rewrite rev_involutive.
      destruct (key_left_spec s b x a) as (s' & -> & ?); [done | by exists s']. }
  case_if.
  { destruct a as [|x a].
    - exists s. split; [ | done]. unfold key_right.
      rewrite (shows_cursor _ _ _ Hs), (shows_l _ _ _ Hs), Nat.add_0_r. by rewrite Z.ltb_irrefl.
    - destruct (key_right_spec s b x a) as (s' & -> & ?); [done | by exists s']. }
  case_if; [destruct (key_home_spec s b a) as (s' & -> & ?); [done.. | by exists s'] | ].
  case_if; [destruct (key_end_spec s b a) as (s' & -> & ?); [done.. | by exists s'] | ].
  apply key_char_spec; [done.. | congruence | done].
Qed.

Lemma frame_showprompt v s : frame s (put_cli (set_showprompt v (e_cli s)) s).
Proof. open_session s. split; [apply view_showprompt | done]. Qed.

(** Before an event the prompt is shown when it is due. *)
Lemma prompt_spec s b a :
  shows s b a → terminal (e_cli s) → ∃ s', prompt s = Ret s' ∧ shows s' b a ∧ frame s s'.
Proof.
  intros Hs Ht. unfold prompt. destruct (d_showprompt (e_cli s)); [ | by exists s].
  assert (∀ s1, more_sent s s1 → shows (put_cli (set_showprompt false (e_cli s1)) s1) b a ∧
            frame s (put_cli (set_showprompt false (e_cli s1)) s1)) as Hdone.
  { intros s1 M. pose proof (more_sent_shows _ _ _ _ M Hs) as Hs1. apply more_sent_frame in M.
    split; [ | by eapply frame_trans, frame_showprompt].
    pose proof (shows_cursor _ _ _ Hs1). apply (shows_move s1 _ b a); try done; by open_session s1. }
  destruct (d_state (e_cli s)); fields;
    try (eexists; split; [done | apply Hdone, more_sent_emit]).
  all: destruct (show_prompt_sent s) as (s1 & -> & M); [apply Ht | ]; fields;
    rewrite (peek_line s1 b a) by (by eapply more_sent_shows); fields;
    eexists; (split; [done | apply Hdone]); (eapply more_sent_trans; [done | apply more_sent_emit]).
Qed.

(** Outside telnet commands and escape sequences a byte is a key. *)
Lemma handle_byte_key c s b a :
  shows s b a → byte.unsigned c ≠ 255 → handle_byte c s = handle_key c s.
Proof.
  intros Hs Hc. unfold handle_byte, ansi. rewrite (shows_telnet _ _ _ Hs), (shows_esc _ _ _ Hs).
  by rewrite (proj2 (Z.eqb_neq _ _) Hc).
Qed.

Lemma inner_step_edits c s b a :
  shows s b a → hidden s = false → terminal (e_cli s) → edits c (b, a) →
  ∃ s', inner_step (Read c) s = Ret (Continue, s') ∧
    shows s' (edit c (b, a)).1 (edit c (b, a)).2 ∧ frame s s'.
Proof.
  intros Hs Hh Ht Hed. unfold inner_step.
  destruct (prompt_spec s b a) as (s1 & -> & Hs1 & Hf1); [done.. | ]. fields.
  rewrite (handle_byte_key c s1 b a); [ | done | ].
  2: { destruct Hed as (Hk & _). rewrite !not_elem_of_cons in Hk. tauto. }
  destruct (handle_key_edits c s1 b a) as (s' & -> & Hs' & Hf'); [done | | | done | ].
  - by rewrite (hidden_frame s s1).
  - by apply (terminal_frame s).
  - exists s'. split; [done | ]. split; [done | ]. by eapply frame_trans.
Qed.

(** Keys that edit, one after the other. *)
Fixpoint all_edit (keys : list byte) (line : list byte * list byte) : Prop :=
  match keys with [] => True | c :: keys => edits c line ∧ all_edit keys (edit c line) end.

Fixpoint edit_all (keys : list byte) (line : list byte * list byte) : list byte * list byte :=
  match keys with [] => line | c :: keys => edit_all keys (edit c line) end.

(** C13. While the line is echoed, that is while no password is typed, the line editor of
    [cli_loop], on its buffer of 4096 bytes with a length
    and a cursor, implements a line cut in two at the cursor: whatever editing
    keys are pressed (bytes, erase, word, left, right, start, end, kill, clear,
    redraw), with room in the buffer, it runs into no error, its buffer holds
    the edited line and NUL after it, and the rest of the session is as before.  In a
    password a byte erased in the middle stays in the buffer ([Witness.password_erase]). *)
Theorem editor_refines keys s b a :
  shows s b a → hidden s = false → terminal (e_cli s) → all_edit keys (b, a) →
  ∃ s', (∀ rest, session_loop s (map Read keys ++ rest) = session_loop s' rest) ∧
    shows s' (edit_all keys (b, a)).1 (edit_all keys (b, a)).2 ∧ frame s s'.
Proof.
  revert s b a. induction keys as [|c keys IH]; intros s b a Hs Hh Ht Hed; [by exists s | ].
  destruct Hed as [Hc Hed].
  destruct (inner_step_edits c s b a) as (s1 & Hst & Hs1 & Hf1); [done.. | ].
  cbn [edit_all] in *. destruct (edit c (b, a)) as [b1 a1].
  destruct (IH s1 b1 a1) as (s2 & Hrun & Hs2 & Hf2); [done | | | done | ].
  - by rewrite (hidden_frame s s1).
  - by apply (terminal_frame s).
  - exists s2. split; [ | split; [done | by eapply frame_trans]].
    intros rest. cbn [map app session_loop]. rewrite Hst. apply Hrun.
Qed.
End editor.

(** ** Lines *)

(** A byte that is a character of the line. *)
Definition printable (c : byte) : Prop :=
  32 ≤ byte.unsigned c ∧ byte.unsigned c ≠ 127 ∧ byte.unsigned c ≠ 255.

Lemma cmd_string_line s b a :
  shows s b a → cstr (e_cmd s) = Some (b ++ a) ∧ cmd_string s 0 = Ret (b ++ a).
Proof.
  intros [(k & Hcmd & _) _ _ Hb Ha _ _ _].
  assert (cstr (e_cmd s) = Some (b ++ a)) as E.
  { apply cstr_Some. split; [by apply nonul_app | ]. exists (zeros k). by rewrite Hcmd, <- app_assoc. }
  split; [done | ]. unfold cmd_string. simpl. by rewrite drop_0, E.
Qed.

Lemma start_line_spec s :
  length (e_cmd s) = 4096%nat → e_oldcmd s = false → e_is_telnet_option s = 0 → e_esc s = 0 →
  ∃ s', start_line s = Ret s' ∧ shows s' [] [] ∧ frame s s'.
Proof.
  intros Hlen Ho Ht He. unfold start_line, poke. open_session s. fields. subst.
  rewrite <- (app_nil_r cmd). rewrite write_at_front by (rewrite repeat_length, Hlen; done).
  fields. eexists. split; [done | ]. fields. split.
  - apply shows_empty; done.
  - split; [apply view_showprompt | done].
Qed.

Lemma shows_length s b a : shows s b a → length (e_cmd s) = 4096%nat.
Proof. intros [(k & -> & Hk) _ _ _ _ _ _ _]. rewrite !length_app, length_zeros. lia. Qed.

Section lines.
Context `{Regex, Program}.

Lemma cli_error_sent cli t : d_newline cli ≠ None → ∃ x, cli_error cli t = Ret (set_out x cli).
Proof.
  intros Hn. unfold cli_error, _print. revert cli Hn. induction (lines t) as [|l ls IH]; intros cli Hn.
  { exists (d_out cli). by destruct cli. }
  cbn [print_lines]. assert (∃ x, print_line false cli l = Ret (set_out x cli)) as (x & ->).
  { unfold print_line, fprint_client.
    destruct cli as [? ? ? ? ? ? ? ? ? ? ? ? nl ? ? ? fi pc cl ou]. simpl in *.
    destruct pc; [by eexists | ]. destruct cl; [ | by exists ou]. destruct nl; [by eexists | done]. }
  cbn [mbind outcome_bind]. destruct (IH (set_out x cli)) as (y & ->); [by destruct cli | ].
  exists y. by destruct cli.
Qed.

Lemma type_text s b text rest :
  shows s b [] → terminal (e_cli s) → Forall printable text →
  (hidden s = false → Byte.x3f ∉ text) → (length b + length text ≤ 4094)%nat →
  ∃ s', session_loop s (map Read text ++ rest) = session_loop s' rest ∧
    shows s' (b ++ text) [] ∧ frame s s'.
Proof.
  intros Hs Ht Hp Hq Hlen. revert s b Hs Ht Hq Hlen.
  induction Hp as [|c text Hc Hp IH]; intros s b Hs Ht Hq Hlen.
  { exists s. by rewrite app_nil_r. }
  simpl in Hlen. cbn [map app session_loop]. unfold inner_step.
  destruct (prompt_spec s b []) as (s1 & -> & Hs1 & Hf1); [done.. | ]. fields.
  destruct Hc as (H32 & H127 & H255). rewrite (handle_byte_key c s1 b []) by done.
  assert (handle_key c s1 = key_char c s1) as ->.
  { unfold handle_key, CTRL. repeat match goal with
      | |- context [byte.unsigned c =? ?k] => rewrite (proj2 (Z.eqb_neq (byte.unsigned c) k)) by lia
      end. done. }
  destruct (key_char_spec c s1 b []) as (s2 & -> & Hs2 & Hf2); [done | | simpl; lia | done | | ].
  { intros ->. by apply H32. }
  { intros Hh ->. exfalso. apply Hq; [by rewrite <- (hidden_frame s s1) | constructor]. }
  fields. destruct (IH s2 (b ++ [c])) as (s3 & Hrun & Hs3 & Hf3).
  - done.
  - apply (terminal_frame s); [by eapply frame_trans | done].
  - rewrite (hidden_frame s1 s2), (hidden_frame s s1) by done. intros Hh Hin.
    apply (Hq Hh). by constructor.
  - rewrite length_app. simpl. lia.
  - exists s3. split; [done | ]. rewrite <- app_assoc in Hs3. split; [done | ].
    eapply frame_trans; [ | done]. by eapply frame_trans.
Qed.

(** The end of a line. *)
Lemma enter s b a :
  shows s b a → terminal (e_cli s) →
  ∃ s1, inner_step (Read Byte.x0a) s = Ret (Break, s1) ∧ shows s1 b a ∧ frame s s1.
Proof.
  intros Hs Ht. unfold inner_step.
  destruct (prompt_spec s b a) as (s1 & -> & Hs1 & Hf1); [done.. | ]. fields.
  rewrite (handle_byte_key _ s1 b a) by done. unfold handle_key. cbn.
  destruct (hidden s1); fields; [by exists s1 | ].
  destruct (write_newline_sent s1) as (s2 & -> & M).
  { by apply (terminal_frame s s1). }
  fields. exists s2. split; [done | ]. split; [by eapply more_sent_shows | ].
  eapply frame_trans; [done | by apply more_sent_frame].
Qed.
End lines.

(** ** Logging in *)

Section login.
Context `{Regex, Program}.

(** A text that can be typed as a line: not empty, printable, not [quit]. *)
Definition typed_line (t : list byte) : Prop :=
  Forall printable t ∧ (length t ≤ 4094)%nat ∧ strcasecmp t (bs "quit") ≠ 0.

(** What is typed to log in. *)
Definition keys_login (up : list byte * list byte) : list event :=
  map Read (up.1 ++ [Byte.x0a] ++ up.2 ++ [Byte.x0a]).

Definition credentials (up : list byte * list byte) : Prop :=
  typed_line up.1 ∧ typed_line up.2 ∧ up.1 ≠ [] ∧ Byte.x3f ∉ up.1.

(** A session that waits for a name or a password, with nothing typed yet. *)
Definition awaits (st : cli_states) (s : session) : Prop :=
  d_state (e_cli s) = st ∧ shows s [] [] ∧ terminal (e_cli s).

Definition checks (cli : cli_def) (up : list byte * list byte) : bool := check_user cli up.1 up.2.

(** What does not change when a user logs in, or fails to. *)
Definition base (cli : cli_def) : cli_def := set_state STATE_LOGIN (view cli).

Lemma base_check cli cli' up : base cli' = base cli → checks cli' up = checks cli up.
Proof.
  intros E. assert (d_users cli' = d_users cli ∧ d_auth_callback cli' = d_auth_callback cli) as [E1 E2].
  { destruct cli, cli'. unfold base, view in E. simpl in *. by injection E. }
  unfold checks, check_user. by rewrite E1, E2.
Qed.

Lemma base_frame s s' : frame s s' → base (e_cli s') = base (e_cli s).
Proof. intros (Hv & _). unfold base. by rewrite Hv. Qed.

Lemma base_terminal cli cli' : base cli' = base cli → terminal cli → terminal cli'.
Proof. destruct cli, cli'. unfold base, view, terminal. simpl. intros [=]. by subst. Qed.

Lemma base_state st cli : base (set_state st cli) = base cli.
Proof. by destruct cli. Qed.

Lemma base_out x cli : base (set_out x cli) = base cli.
Proof. by destruct cli. Qed.

Lemma base_showprompt x cli : base (set_showprompt x cli) = base cli.
Proof. by destruct cli. Qed.

Lemma get_state st cli : d_state (set_state st cli) = st.
Proof. by destruct cli. Qed.

(** From the start of a line to its end. *)
Lemma whole_line st s t rest :
  awaits st s → typed_line t → (st = STATE_LOGIN → Byte.x3f ∉ t) →
  (st = STATE_LOGIN ∨ st = STATE_PASSWORD) →
  ∃ s1, shows s1 t [] ∧ frame s s1 ∧
    session_loop s (map Read (t ++ [Byte.x0a]) ++ rest)
    = ('(f, s) ← handle_line s1;
       match f with
       | Break => Ret (cleanup s)
       | Continue => s ← start_line s; session_loop s rest
       end).
Proof.
  intros (Hst & Hs & Ht) (Hp & Hlen & _) Hq Hor. rewrite map_app, <- app_assoc.
  destruct (type_text s [] t (map Read [Byte.x0a] ++ rest)) as (s1 & -> & Hs1 & Hf1); try done.
  { intros Hh. apply Hq. destruct Hor as [ | ->]; [done | ]. unfold hidden in Hh. by rewrite Hst in Hh. }
  destruct (enter s1 t []) as (s2 & He & Hs2 & Hf2); [done | by apply (terminal_frame s) | ].
  exists s2. split; [done | ]. split; [by eapply frame_trans | ].
  cbn [map app session_loop]. by rewrite He.
Qed.

Lemma not_quit s t : shows s t [] → typed_line t → is_quit s = false.
Proof.
  intros Hs (_ & _ & Hq). unfold is_quit. destruct (cmd_string_line s t []) as [-> _]; [done | ].
  rewrite app_nil_r. by apply Z.eqb_neq.
Qed.

Lemma name_line s u rest :
  awaits STATE_LOGIN s → typed_line u → u ≠ [] → Byte.x3f ∉ u →
  ∃ s', session_loop s (map Read (u ++ [Byte.x0a]) ++ rest) = session_loop s' rest ∧
    awaits STATE_PASSWORD s' ∧ e_user s' = Some u ∧ base (e_cli s') = base (e_cli s).
Proof.
  intros Ha Hu Hne Hq. pose proof Ha as (Hst & _ & Ht).
  destruct (whole_line STATE_LOGIN s u rest) as (s1 & Hs1 & Hf1 & ->); auto.
  unfold handle_line. rewrite (not_quit s1 u), (shows_l _ _ _ Hs1), Nat.add_0_r by done.
  rewrite (proj2 (Z.ltb_ge _ 0)) by lia.
  destruct (view_fields (e_cli s) (e_cli s1)) as (Hst1 & _); [apply Hf1 | ].
  rewrite Hst1, Hst. unfold line_login. rewrite (shows_l _ _ _ Hs1), Nat.add_0_r.
  rewrite (proj2 (Z.eqb_neq _ 0)) by (destruct u; [done | simpl; lia]).
  destruct (cmd_string_line s1 u []) as [_ ->]; [done | ]. rewrite app_nil_r.
  unfold continue. cbn [mbind outcome_bind].
  set (s2 := put_user _ _).
  destruct (start_line_spec s2) as (s3 & -> & Hs3 & Hf3).
  { apply shows_length in Hs1. unfold s2. by open_session s1. }
  { apply shows_oldcmd in Hs1. unfold s2. by open_session s1. }
  { apply shows_telnet in Hs1. unfold s2. by open_session s1. }
  { apply shows_esc in Hs1. unfold s2. by open_session s1. }
  assert (base (e_cli s2) = base (e_cli s1)) as Hb2.
  { unfold s2. open_session s1. fields. by rewrite base_showprompt, base_state. }
  assert (base (e_cli s3) = base (e_cli s)) as Hb.
  { rewrite (base_frame _ _ Hf3), Hb2. by apply base_frame. }
  cbn [mbind outcome_bind]. exists s3. split; [done | ]. split; [ | split; [ | done]].
  - split; [ | split; [done | by apply (base_terminal (e_cli s))]].
    destruct (view_fields (e_cli s2) (e_cli s3)) as (-> & _); [apply Hf3 | ].
    unfold s2. open_session s1. fields. by destruct cli.
  - destruct Hf3 as (_ & -> & _). unfold s2. by open_session s1.
Qed.
(** The result of a password. *)
Definition login_verdict (cli : cli_def) (up : list byte * list byte) : cli_states :=
  if checks cli up then STATE_NORMAL else STATE_LOGIN.

Lemma line_password_spec s u p :
  shows s p [] → e_user s = Some u → terminal (e_cli s) →
  ∃ s', line_password s = Ret s' ∧ base (e_cli s') = base (e_cli s) ∧
    d_state (e_cli s') = login_verdict (e_cli s) (u, p) ∧ e_cmd s' = e_cmd s ∧
    e_oldcmd s' = false ∧ e_is_telnet_option s' = 0 ∧ e_esc s' = 0.
Proof.
  intros Hs Hu [Hnl _]. unfold line_password. destruct (cmd_string_line s p []) as [_ ->]; [done | ].
  rewrite app_nil_r, Hu. cbn [mbind outcome_bind].
  assert (e_cli (put_pass (Some p) s) = e_cli s) as -> by (by open_session s).
  unfold login_verdict. change (check_user (e_cli s) u p) with (checks (e_cli s) (u, p)).
  destruct Hs as [_ _ _ _ _ Ht He Ho]. destruct (checks (e_cli s) (u, p)).
  - destruct (cli_error_sent (e_cli s) []) as (x & ->); [done | ]. cbn [mbind outcome_bind].
    eexists. split; [done | ]. open_session s. fields.
    rewrite base_showprompt, base_state, base_out. split_and!; try done. by destruct cli.
  - unfold denied.
    assert (e_cli (put_pass (Some p) s) = e_cli s) as -> by (by open_session s).
    destruct (cli_error_sent (e_cli s) ([Byte.x0a; Byte.x0a] ++ bs "Access denied")) as (x & ->);
      [done | ].
    cbn [mbind outcome_bind]. eexists. split; [done | ]. open_session s. fields.
    rewrite base_showprompt, base_state, base_out. split_and!; try done. by destruct cli.
Qed.

Lemma password_line s u p rest :
  awaits STATE_PASSWORD s → e_user s = Some u → typed_line p →
  ∃ s', session_loop s (map Read (p ++ [Byte.x0a]) ++ rest) = session_loop s' rest ∧
    awaits (login_verdict (e_cli s) (u, p)) s' ∧ base (e_cli s') = base (e_cli s).
Proof.
  intros Ha Hu Hp. pose proof Ha as (Hst & _ & Ht).
  destruct (whole_line STATE_PASSWORD s p rest) as (s1 & Hs1 & Hf1 & ->); [done | done | done | by right | ].
  unfold handle_line. rewrite (not_quit s1 p), (shows_l _ _ _ Hs1), Nat.add_0_r by done.
  rewrite (proj2 (Z.ltb_ge _ 0)) by lia.
  destruct (view_fields (e_cli s) (e_cli s1)) as (Hst1 & _); [apply Hf1 | ].
  rewrite Hst1, Hst. unfold continue.
  destruct (line_password_spec s1 u p) as (s2 & -> & Hb2 & Hst2 & Hcmd & Ho & Hte & He);
    [done | | by apply (terminal_frame s) | ].
  { destruct Hf1 as (_ & -> & _). done. }
  cbn [mbind outcome_bind]. pose proof (base_frame _ _ Hf1) as Hb1.
  destruct (start_line_spec s2) as (s3 & -> & Hs3 & Hf3); [ | done.. | ].
  { rewrite Hcmd. by eapply shows_length. }
  cbn [mbind outcome_bind]. exists s3.
  assert (base (e_cli s3) = base (e_cli s)) as Hb by (rewrite (base_frame _ _ Hf3); congruence).
  split; [done | ]. split; [ | done]. split; [ | split; [done | by apply (base_terminal (e_cli s))]].
  destruct (view_fields (e_cli s2) (e_cli s3)) as (-> & _); [apply Hf3 | ].
  rewrite Hst2. unfold login_verdict. by rewrite (base_check (e_cli s)).
Qed.

Lemma attempt s up rest :
  awaits STATE_LOGIN s → credentials up →
  ∃ s', session_loop s (keys_login up ++ rest) = session_loop s' rest ∧
    awaits (login_verdict (e_cli s) up) s' ∧ base (e_cli s') = base (e_cli s).
Proof.
  intros Ha (Hu & Hp & Hne & Hq). destruct up as [u p]. cbn [fst snd] in *. unfold keys_login.
  cbn [fst snd]. rewrite (app_assoc u), map_app, <- app_assoc.
  destruct (name_line s u (map Read (p ++ [Byte.x0a]) ++ rest)) as (s1 & -> & Ha1 & Hu1 & Hb1);
    [done.. | ].
  destruct (password_line s1 u p rest) as (s2 & -> & Ha2 & Hb2); [done.. | ].
  exists s2. split; [done | ]. rewrite Hb2, Hb1. split; [ | done].
  unfold login_verdict in *. by rewrite (base_check (e_cli s)) in Ha2.
Qed.

(** C36. Whoever knows a name and its password gets in, when they can be typed: both of
    printable bytes, at most 4094 of them, and not the word quit in any case, the name not empty and
    without a question mark.  After any number of such
    attempts that are refused, the right pair, typed key by key, takes the
    session to its command prompt, with the rest of it as it was. *)
Theorem login_succeeds s attempts up rest :
  awaits STATE_LOGIN s → Forall (λ x, credentials x ∧ checks (e_cli s) x = false) attempts →
  credentials up → checks (e_cli s) up = true →
  ∃ s', session_loop s (concat (map keys_login attempts) ++ keys_login up ++ rest)
        = session_loop s' rest ∧
    awaits STATE_NORMAL s' ∧ base (e_cli s') = base (e_cli s).
Proof.
  intros Ha Hatt Hup Hok. remember (base (e_cli s)) as b eqn:Hb. symmetry in Hb.
  assert (∀ x, checks (e_cli s) x = checks b x) as Hc.
  { intros x. apply base_check. rewrite <- Hb. by destruct (e_cli s). }
  rewrite Hc in Hok. assert (Forall (λ x, credentials x ∧ checks b x = false) attempts) as Hatt'.
  { revert Hatt. apply List.Forall_impl. intros x. by rewrite Hc. }
  clear Hatt Hc. revert s Ha Hb. induction Hatt' as [|x att [Hx Hno] _ IH]; intros s Ha Hb.
  - destruct (attempt s up rest) as (s1 & Hrun & Ha1 & Hb1); [done.. | ].
    exists s1. split; [done | ]. split; [ | congruence].
    unfold login_verdict in Ha1. rewrite (base_check b), Hok in Ha1; [done | ].
    rewrite Hb, <- Hb. by destruct (e_cli s).
  - cbn [map concat]. rewrite <- app_assoc.
    destruct (attempt s x (concat (map keys_login att) ++ keys_login up ++ rest))
      as (s1 & -> & Ha1 & Hb1); [done.. | ].
    unfold login_verdict in Ha1. rewrite (base_check b), Hno in Ha1.
    + apply IH; [done | congruence].
    + rewrite Hb, <- Hb. by destruct (e_cli s).
Qed.
End login.

(** ** Telnet *)

Section telnet.
Context `{Regex, Program}.

Lemma prompt_idle s : d_showprompt (e_cli s) = false → prompt s = Ret s.
Proof. intros E. unfold prompt. by rewrite E. Qed.

Lemma prompt_done s s1 :
  prompt s = Ret s1 →
  d_showprompt (e_cli s1) = false ∧ e_is_telnet_option s1 = e_is_telnet_option s.
Proof.
  unfold prompt. destruct (d_showprompt (e_cli s)) eqn:E; [ | intros E1%Ret_inj; by subst].
  intros Hp. apply bind_Ret in Hp as (s2 & Hs2 & E1%Ret_inj). subst s1.
  assert (e_is_telnet_option s2 = e_is_telnet_option s) as <-.
  { assert (∀ x y, e_is_telnet_option (emit x y) = e_is_telnet_option y) as Hem by (by intros x []).
    destruct (d_state (e_cli s)); cbn [mbind outcome_bind] in Hs2;
      try (apply Ret_inj in Hs2 as <-; apply Hem).
    all: apply bind_Ret in Hs2 as (s3 & Hs3 & Hs2); apply bind_Ret in Hs2 as (t & _ & Hs2);
      apply Ret_inj in Hs2 as <-; rewrite Hem; unfold show_prompt in Hs3;
      destruct (d_promptchar _); [ | done]; apply Ret_inj in Hs3 as <-; rewrite Hem;
      destruct (d_hostname (e_cli s)), (d_modestring _); by rewrite ?Hem. }
  open_session s2. split; [ | done]. fields. by destruct cli.
Qed.

(** The prompt that is due is shown before the next event, whatever it is. *)
Lemma session_loop_prompt s events :
  session_loop s events = (s ← prompt s; session_loop s events).
Proof.
  destruct (prompt s) as [s1 | w | w | ] eqn:E.
  - destruct (prompt_done s s1 E) as [Hd _]. cbn [mbind outcome_bind].
    destruct events as [|e events]; cbn [session_loop]; unfold inner_step;
      by rewrite E, (prompt_idle s1 Hd).
  - by destruct events as [|e events]; cbn [session_loop]; unfold inner_step; rewrite E.
  - by destruct events as [|e events]; cbn [session_loop]; unfold inner_step; rewrite E.
  - by destruct events as [|e events]; cbn [session_loop]; unfold inner_step; rewrite E.
Qed.

Lemma read_continue s c s' rest :
  d_showprompt (e_cli s) = false → handle_byte c s = Ret (Continue, s') →
  session_loop s (Read c :: rest) = session_loop s' rest.
Proof.
  intros Hd Hb. cbn [session_loop]. unfold inner_step. rewrite prompt_idle by done.
  cbn [mbind outcome_bind]. by rewrite Hb.
Qed.

Definition IAC : byte := Byte.xff.

(** An option command of the telnet protocol (IAC, one of WILL, WONT, DO and
    DONT, the option) leaves no trace: the session goes on as if the three bytes
    had not come, in the middle of a line and of an escape sequence too. *)
Theorem telnet_transparent s c o rest :
  e_is_telnet_option s = 0 → 251 ≤ byte.unsigned c ≤ 254 → byte.unsigned o ≤ 250 →
  session_loop s (Read IAC :: Read c :: Read o :: rest) = session_loop s rest.
Proof.
  intros Ht Hc Ho. rewrite (session_loop_prompt s (_ :: _)), (session_loop_prompt s rest).
  destruct (prompt s) as [s1 | | |] eqn:E; try done. cbn [mbind outcome_bind].
  destruct (prompt_done s s1 E) as [Hd Ht1]. rewrite Ht in Ht1. clear E Ht.
  assert (∀ t, d_showprompt (e_cli (put_is_telnet_option t s1)) = false) as Hd'.
  { intros t. by open_session s1. }
  assert (∀ t, e_is_telnet_option (put_is_telnet_option t s1) = t) as Hget by (intros t; by open_session s1).
  assert (∀ t t', put_is_telnet_option t (put_is_telnet_option t' s1) = put_is_telnet_option t s1)
    as Hput by (intros t t'; by open_session s1).
  assert (put_is_telnet_option 0 s1 = s1) as Hsame by (open_session s1; by subst).
  rewrite (read_continue s1 IAC (put_is_telnet_option 1 s1)); [ | done | ].
  2: { unfold handle_byte. by rewrite Ht1. }
  rewrite (read_continue _ c (put_is_telnet_option (byte.unsigned c) s1)); [ | done | ].
  2: { unfold handle_byte. rewrite Hget, !Hput. change (1 =? 0) with false. rewrite andb_false_r.
       cbn [negb]. rewrite (proj2 (Z.leb_le 251 _)), (proj2 (Z.leb_le _ 254)) by lia. done. }
  rewrite (read_continue _ o s1); [done | done | ].
  unfold handle_byte. rewrite Hget, !Hput, Hsame.
  rewrite (proj2 (Z.eqb_neq (byte.unsigned c) 0)), andb_false_r by lia. cbn [negb].
  rewrite (proj2 (Z.leb_gt 251 _)) by lia. cbn [andb].
  by rewrite (proj2 (Z.eqb_neq (byte.unsigned o) 255)) by lia.
Qed.
End telnet.

(** ** What a key leaves alone *)

(** The part of the session that grants rights. *)
Definition guarded (cli : cli_def) :=
  (d_state cli, d_users cli, d_auth_callback cli, d_privilege cli, d_enable_password cli,
   d_enable_callback cli).

Definition kept (s s' : session) : Prop :=
  guarded (e_cli s') = guarded (e_cli s) ∧ e_user s' = e_user s.

Lemma kept_refl s : kept s s.
Proof. done. Qed.

Lemma kept_cli s s1 cli' :
  kept s s1 → guarded cli' = guarded (e_cli s1) → kept s (put_cli cli' s1).
Proof. intros [H1 H2] E. open_session s1. split; fields; congruence. Qed.

Lemma kept_cmd s s1 v : kept s s1 → kept s (put_cmd v s1).
Proof. by destruct s1. Qed.

Lemma kept_l s s1 v : kept s s1 → kept s (put_l v s1).
Proof. by destruct s1. Qed.

Lemma kept_cursor s s1 v : kept s s1 → kept s (put_cursor v s1).
Proof. by destruct s1. Qed.

Lemma kept_oldcmd s s1 v : kept s s1 → kept s (put_oldcmd v s1).
Proof. by destruct s1. Qed.

Lemma kept_oldl s s1 v : kept s s1 → kept s (put_oldl v s1).
Proof. by destruct s1. Qed.

Lemma kept_is_telnet_option s s1 v : kept s s1 → kept s (put_is_telnet_option v s1).
Proof. by destruct s1. Qed.

Lemma kept_esc s s1 v : kept s s1 → kept s (put_esc v s1).
Proof. by destruct s1. Qed.

Lemma kept_in_history s s1 v : kept s s1 → kept s (put_in_history v s1).
Proof. by destruct s1. Qed.

Lemma kept_lastchar s s1 v : kept s s1 → kept s (put_lastchar v s1).
Proof. by destruct s1. Qed.

Lemma guarded_send x cli : guarded (send x cli) = guarded cli.
Proof. by destruct cli. Qed.

Lemma guarded_showprompt x cli : guarded (set_showprompt x cli) = guarded cli.
Proof. by destruct cli. Qed.

Lemma guarded_showprompt_eq x cli cli' :
  guarded cli = guarded cli' → guarded (set_showprompt x cli) = guarded cli'.
Proof. intros <-. apply guarded_showprompt. Qed.

Lemma guarded_out x cli : guarded (set_out x cli) = guarded cli.
Proof. by destruct cli. Qed.

Lemma guarded_filters x cli : guarded (set_filters x cli) = guarded cli.
Proof. by destruct cli. Qed.

Lemma guarded_history x cli : guarded (set_history x cli) = guarded cli.
Proof. by destruct cli. Qed.

Lemma guarded_configmode cli m d : guarded (cli_set_configmode cli m d).2 = guarded cli.
Proof.
  destruct (set_configmode_fields cli m d) as (_ & Hp & Hs). unfold same_rest in Hs.
  unfold guarded. intuition congruence.
Qed.

Lemma kept_emit s s1 x : kept s s1 → kept s (emit x s1).
Proof. intros Hk. apply kept_cli; [done | apply guarded_send]. Qed.

Create HintDb kept discriminated.
#[export] Hint Resolve kept_refl kept_emit kept_cli : kept.
#[export] Hint Resolve kept_cmd kept_l kept_cursor kept_oldcmd kept_oldl : kept.
#[export] Hint Resolve kept_is_telnet_option kept_esc kept_in_history kept_lastchar : kept.
#[export] Hint Resolve guarded_send guarded_showprompt_eq guarded_out guarded_configmode : kept.

(** [m] returns a session that keeps the rights of [s]. *)
Definition keeps (s : session) (m : outcome session) : Prop := post (kept s) m.
Definition keeps_flow (s : session) (m : outcome (flow * session)) : Prop :=
  post (λ r, kept s r.2) m.

Lemma keeps_bind s m f : keeps s m → (∀ s1, kept s s1 → keeps s (f s1)) → keeps s (m ≫= f).
Proof. apply post_bind. Qed.

Lemma keeps_bind_data {A} s (m : outcome A) f : (∀ a, keeps s (f a)) → keeps s (m ≫= f).
Proof. intros Hf. eapply post_bind; [apply post_any | ]. intros a _. apply Hf. Qed.

Lemma keeps_flow_bind s m f :
  keeps s m → (∀ s1, kept s s1 → keeps_flow s (f s1)) → keeps_flow s (m ≫= f).
Proof. apply post_bind. Qed.

Lemma keeps_flow_bind2 s (m : outcome (bool * session)) f :
  post (λ r, kept s r.2) m → (∀ b s1, kept s s1 → keeps_flow s (f (b, s1))) → keeps_flow s (m ≫= f).
Proof. intros Hm Hf. eapply post_bind; [done | ]. intros [b s1]. apply Hf. Qed.

Lemma keeps_continue s m : keeps s m → keeps_flow s (continue m).
Proof. intros Hm. eapply keeps_flow_bind; [done | ]. intros s1 Hk. by apply post_ret. Qed.

(** Follow a handler. *)
Ltac keeps_step :=
  match goal with
  | |- keeps _ (Ret _) => apply post_ret
  | |- keeps_flow _ (Ret _) => apply post_ret; cbn [snd]
  | |- keeps _ (UB _) => apply post_UB
  | |- keeps_flow _ (UB _) => apply post_UB
  | |- keeps_flow _ (continue _) => apply keeps_continue
  | |- keeps _ (if ?b then _ else _) => destruct b
  | |- keeps_flow _ (if ?b then _ else _) => destruct b
  | |- keeps _ (match ?x with _ => _ end) => destruct x
  | |- keeps_flow _ (match ?x with _ => _ end) => destruct x
  | |- keeps _ (@mbind outcome _ session _ _ _) => apply keeps_bind; [ | intros ? ?]
  | |- keeps_flow _ (@mbind outcome _ session _ _ _) => apply keeps_flow_bind; [ | intros ? ?]
  | |- keeps _ (mbind _ _) => apply keeps_bind_data; intros ?
  | |- keeps _ (let _ := _ in _) => cbv zeta
  | |- keeps_flow _ (let _ := _ in _) => cbv zeta
  | |- kept _ (emit _ _) => apply kept_emit
  | |- kept _ (put_cmd _ _) => apply kept_cmd
  | |- kept _ (put_l _ _) => apply kept_l
  | |- kept _ (put_cursor _ _) => apply kept_cursor
  | |- kept _ (put_oldcmd _ _) => apply kept_oldcmd
  | |- kept _ (put_oldl _ _) => apply kept_oldl
  | |- kept _ (put_is_telnet_option _ _) => apply kept_is_telnet_option
  | |- kept _ (put_esc _ _) => apply kept_esc
  | |- kept _ (put_in_history _ _) => apply kept_in_history
  | |- kept _ (put_lastchar _ _) => apply kept_lastchar
  | |- kept _ (if ?b then _ else _) => destruct b
  | |- kept _ (match ?x with _ => _ end) => destruct x
  end.
Ltac keeps := intros; repeat keeps_step; auto with kept.

Section keeps.
Context `{Regex, Program}.

Lemma keeps_poke s s1 i d : kept s s1 → keeps s (poke i d s1).
Proof. unfold poke. keeps. Qed.

Lemma keeps_newline s s1 : kept s s1 → keeps s (cli_write_newline s1).
Proof. unfold cli_write_newline. keeps. Qed.

Lemma keeps_show_prompt s s1 : kept s s1 → keeps s (show_prompt s1).
Proof. unfold show_prompt. keeps. Qed.

Lemma keeps_string_bind s s1 i f : (∀ t, keeps s (f t)) → keeps s (cmd_string s1 i ≫= f).
Proof. apply keeps_bind_data. Qed.

Hint Resolve keeps_poke keeps_newline keeps_show_prompt : kept.

Lemma keeps_prompt s s1 : kept s s1 → keeps s (prompt s1).
Proof. unfold prompt. keeps. Qed.

Lemma keeps_clear_line s s1 : kept s s1 → keeps s (cli_clear_line s1).
Proof. unfold cli_clear_line. keeps. Qed.

Lemma keeps_write_space s s1 c : kept s s1 → keeps s (cli_write_space c s1).
Proof. unfold cli_write_space. keeps. Qed.

Hint Resolve keeps_clear_line keeps_write_space : kept.

Lemma keeps_erase s s1 : kept s s1 → keeps s (erase s1).
Proof. unfold erase. keeps. Qed.

Lemma keeps_erase_many n s s1 : kept s s1 → keeps s (erase_many n s1).
Proof.
  revert s1. induction n as [|n IH]; intros s1 Hk; cbn [erase_many]; [by apply post_ret | ].
  apply keeps_bind; [by apply keeps_erase | apply IH].
Qed.

Hint Resolve keeps_erase_many : kept.

Lemma keeps_key_erase w s : keeps s (key_erase w s).
Proof. unfold key_erase. keeps. Qed.

Lemma keeps_complete n s : keeps s (complete n s).
Proof. unfold complete. keeps. Qed.

Hint Resolve keeps_complete : kept.

Lemma keeps_key_tab s : keeps s (key_tab s).
Proof. unfold key_tab. keeps. Qed.

Lemma keeps_key_history u s : keeps s (key_history u s).
Proof. unfold key_history. keeps. Qed.

Lemma keeps_insert c s : post (λ r, kept s r.2) (insert_char c s).
Proof.
  unfold insert_char. destruct (e_cursor s =? e_l s).
  - eapply post_bind; [by apply keeps_poke | ]. intros s1 Hk.
    destruct (e_l s1 <? 4095); apply post_ret; cbn [snd]; keeps.
  - cbv zeta. set (s0 := if 4094 <=? e_l s then _ else _). assert (kept s s0) by (unfold s0; keeps).
    eapply post_bind; [apply post_any | ]. intros t _.
    eapply post_bind; [by apply keeps_poke | ]. intros s1 Hk.
    eapply post_bind; [by apply keeps_poke | ]. intros s2 Hk2.
    eapply post_bind; [apply post_any | ]. intros t' _. apply post_ret. cbn [snd]. keeps.
Qed.

Lemma keeps_key_char c s : keeps_flow s (key_char c s).
Proof.
  unfold key_char. apply keeps_flow_bind2; [apply keeps_insert | ]. intros b s1 Hk.
  destruct b; cbn [negb]; keeps.
Qed.

Hint Resolve keeps_key_erase keeps_key_tab keeps_key_history keeps_key_char : kept.

Lemma keeps_handle_key c s : keeps_flow s (handle_key c s).
Proof.
  unfold handle_key.
  repeat match goal with
    | |- keeps_flow _ (if ?b then _ else _) => destruct b
    | |- keeps_flow _ (continue _) => apply keeps_continue
    end; auto with kept;
    unfold key_redraw, key_clear, key_kill, key_eot, key_disable, key_left, key_right, key_home, key_end;
    keeps; apply keeps_poke; keeps.
Qed.

Lemma kept_trans s1 s2 s3 : kept s1 s2 → kept s2 s3 → kept s1 s3.
Proof. unfold kept. intuition congruence. Qed.

Lemma keeps_after s s1 m : kept s s1 → keeps_flow s1 m → keeps_flow s m.
Proof. intros Hk Hm. eapply post_weaken; [done | ]. intros [f s2] H2. by eapply kept_trans. Qed.

Lemma keeps_handle_byte c s : keeps_flow s (handle_byte c s).
Proof.
  assert (∀ s1, kept s s1 → keeps_flow s (ansi c s1)) as Hansi.
  { intros s1 Hk. unfold ansi. destruct (e_esc s1 =? 0), (e_esc s1 =? 91).
    1, 2: by eapply keeps_after, keeps_handle_key.
    - eapply keeps_after, keeps_handle_key. keeps.
    - keeps. }
  unfold handle_byte. cbv zeta. repeat case_if; try apply Hansi; keeps.
Qed.

(** The timer's callback is trusted with the session's rights. *)
Definition regular_trusted : Prop :=
  ∀ f cli rc cli', call_regular f cli = Ret (rc, cli') → guarded cli' = guarded cli.

Lemma keeps_inner_step e s : regular_trusted → keeps_flow s (inner_step e s).
Proof.
  intros Hreg. unfold inner_step. apply keeps_flow_bind; [by apply keeps_prompt | ].
  intros s1 Hk. destruct e.
  - eapply keeps_after, keeps_handle_byte. done.
  - keeps.
  - keeps.
  - destruct (d_regular_callback (e_cli s1)) as [f|]; [ | keeps].
    intros [fl s2] Hr. apply bind_Ret in Hr as ([rc cli'] & Hc & Hr). apply Hreg in Hc.
    apply Ret_inj in Hr. injection Hr as <- <-. cbn [snd]. auto with kept.
  - keeps.
Qed.

Lemma keeps_start_line s : keeps s (start_line s).
Proof.
  unfold start_line. set (s1 := put_cli _ _).
  assert (kept s s1) by (unfold s1; apply kept_cli; [keeps | auto with kept]).
  clearbody s1. destruct (e_oldcmd s1); keeps; apply keeps_poke; keeps.
Qed.

(** ** Rights *)

(** The states a session goes through, event by event. *)
Inductive run (s0 : session) : list event → session → Prop :=
| run_start : run s0 [] s0
| run_key es e s s' :
    run s0 es s → inner_step e s = Ret (Continue, s') → run s0 (es ++ [e]) s'
| run_line es e s s1 s2 s' :
    run s0 es s → inner_step e s = Ret (Break, s1) → handle_line s1 = Ret (Continue, s2) →
    start_line s2 = Ret s' → run s0 (es ++ [e]) s'.

(** They are those of the loop. *)
Lemma run_session_loop s0 es s rest :
  run s0 es s → session_loop s0 (es ++ rest) = session_loop s rest.
Proof.
  intros Hr. revert rest. induction Hr as [ | es e s s' Hr IH Hst | es e s s1 s2 s' Hr IH Hst Hl Hs];
    intros rest; [done | | ]; rewrite <- app_assoc, IH; cbn [app session_loop]; rewrite Hst; [done | ].
  cbn [mbind outcome_bind]. rewrite Hl. cbn [mbind outcome_bind]. by rewrite Hs.
Qed.

(** In the run a line is entered in state [st], as the string [p], in the session
    [s]. *)
Definition entered_line (s0 : session) (es : list event) (st : cli_states) (s : session)
    (p : list byte) : Prop :=
  ∃ es1 e es2 s1, es = es1 ++ e :: es2 ∧ run s0 es1 s1 ∧ inner_step e s1 = Ret (Break, s) ∧
    d_state (e_cli s) = st ∧ cmd_string s 0 = Ret p.

Lemma entered_line_more s0 es es' st s p :
  entered_line s0 es st s p → entered_line s0 (es ++ es') st s p.
Proof.
  intros (es1 & e & es2 & s1 & -> & ?). exists es1, e, (es2 ++ es'), s1. by rewrite <- app_assoc.
Qed.

Definition logged_out (cli : cli_def) : Prop :=
  d_state cli = STATE_LOGIN ∨ d_state cli = STATE_PASSWORD.

(** Someone logged in during the run: a name was entered, and then a password
    that goes with it. *)
Definition logged_in (s0 : session) (es : list event) : Prop :=
  ∃ sn sp u p, entered_line s0 es STATE_LOGIN sn u ∧ entered_line s0 es STATE_PASSWORD sp p ∧
    e_user sp = Some u ∧ checks (e_cli s0) (u, p) = true.

(** Nobody has: the state asks for a name or a password, a name that is kept was
    entered, and the session has its first users, privilege and passwords. *)
Definition waiting (s0 : session) (es : list event) (s : session) : Prop :=
  logged_out (e_cli s) ∧
  guarded (set_state STATE_LOGIN (e_cli s)) = guarded (set_state STATE_LOGIN (e_cli s0)) ∧
  ∀ u, e_user s = Some u → ∃ sn, entered_line s0 es STATE_LOGIN sn u.

Lemma guarded_eq cli cli' :
  guarded cli' = guarded cli →
  d_state cli' = d_state cli ∧
  guarded (set_state STATE_LOGIN cli') = guarded (set_state STATE_LOGIN cli).
Proof. destruct cli, cli'. unfold guarded. simpl. intros [=]. by subst. Qed.

Lemma guarded_set_state st cli :
  guarded (set_state STATE_LOGIN (set_state st cli)) = guarded (set_state STATE_LOGIN cli).
Proof. by destruct cli. Qed.

Lemma guarded_checks cli cli' up :
  guarded (set_state STATE_LOGIN cli') = guarded (set_state STATE_LOGIN cli) →
  checks cli' up = checks cli up.
Proof.
  destruct cli, cli'. unfold guarded, checks, check_user. simpl. intros [=]. by subst.
Qed.

Lemma print_line_guarded b cli l : post (λ cli', guarded cli' = guarded cli) (print_line b cli l).
Proof.
  unfold print_line, fprint_client. destruct (if b then _ else _) as [p fs].
  destruct p; [ | apply post_ret, guarded_filters].
  destruct (d_print_callback _);
    [apply post_ret; by rewrite guarded_out, guarded_filters | ].
  destruct (d_client _); [ | apply post_ret, guarded_filters].
  destruct (d_newline _); [ | done]. apply post_ret. by rewrite guarded_send, guarded_filters.
Qed.

Lemma cli_error_guarded cli t : post (λ cli', guarded cli' = guarded cli) (cli_error cli t).
Proof.
  unfold cli_error, _print. revert cli. induction (lines t) as [|l ls IH]; intros cli.
  { by apply post_ret. }
  cbn [print_lines]. eapply post_bind; [apply print_line_guarded | ]. intros c <-. apply IH.
Qed.

Lemma waiting_kept s0 es es' s s' :
  waiting s0 es s → kept s s' → waiting s0 (es ++ es') s'.
Proof.
  intros (Hl & Hg & Hu) [Hk Hku]. apply guarded_eq in Hk as [Hst Hk].
  split; [unfold logged_out in *; by rewrite Hst | ]. split; [congruence | ].
  intros u E. rewrite Hku in E. destruct (Hu u E) as (sn & Hn). exists sn. by apply entered_line_more.
Qed.

(** What a line does while nobody is logged in. *)
Lemma waiting_line s0 evs s s' :
  waiting s0 evs s → handle_line s = Ret (Continue, s') →
  (∀ st p, d_state (e_cli s) = st → cmd_string s 0 = Ret p → entered_line s0 evs st s p) →
  waiting s0 evs s' ∨ logged_in s0 evs.
Proof.
  intros Hw Hh Hent. pose proof Hw as (Hl & Hg & Hu). unfold handle_line in Hh.
  do 2 (case_if_in Hh; [done | ]). destruct Hl as [Hst | Hst]; rewrite Hst in Hh; unfold continue in Hh.
  - apply bind_Ret in Hh as (s2 & Hh & [= ->]%Ret_inj). unfold line_login in Hh.
    case_if_in Hh; [apply Ret_inj in Hh as <-; by left | ].
    apply bind_Ret in Hh as (u & Hcmd & <-%Ret_inj). left. pose proof (Hent _ _ Hst Hcmd) as Hin.
    open_session s. fields. split; [right; by destruct cli | ].
    split; [ | intros u' [= <-]; by eexists].
    rewrite <- Hg. by destruct cli.
  - apply bind_Ret in Hh as (s2 & Hh & [= ->]%Ret_inj). unfold line_password in Hh.
    apply bind_Ret in Hh as (p & Hcmd & Hh). destruct (e_user s) as [u|] eqn:Eu; [ | done].
    apply bind_Ret in Hh as (s3 & Hh & <-%Ret_inj).
    assert (e_cli (put_pass (Some p) s) = e_cli s) as Ec by (by open_session s). rewrite Ec in Hh.
    destruct (check_user (e_cli s) u p) eqn:Eok.
    + right. destruct (Hu u eq_refl) as (sn & Hn). exists sn, s, u, p.
      split_and!; [done | by apply Hent | done | ]. by rewrite <- (guarded_checks _ _ (u, p) Hg).
    + left. apply bind_Ret in Hh as (s4 & Hd & <-%Ret_inj). unfold denied in Hd. rewrite Ec in Hd.
      apply bind_Ret in Hd as (c & Hc & <-%Ret_inj). apply cli_error_guarded, guarded_eq in Hc as [_ Hc].
      clear Ec. open_session s. fields. split; [left; by destruct c | ]. split; [ | done].
      rewrite <- Hg, <- Hc. by destruct c.
Qed.

(** C14. Nobody gets past the login without a password: when a run of a session
    that asks for one reaches a state other than the two of the login, a name
    was entered in the run and then a password that the list of users or the
    authentication callback accepts for it. *)
Theorem login_required s0 es s :
  regular_trusted → logged_out (e_cli s0) → e_user s0 = None → run s0 es s →
  ¬ logged_out (e_cli s) → logged_in s0 es.
Proof.
  intros Hreg Hout Hnone Hrun. cut (waiting s0 es s ∨ logged_in s0 es).
  { intros [(Hl & _) | Hin]; [by intros [] | done]. }
  assert (∀ l e, logged_in s0 l → logged_in s0 (l ++ [e])) as Hmore.
  { intros l e (sn & sp & u & p & Hn & Hp & ?). exists sn, sp, u, p.
    split; [by apply entered_line_more | ]. split; [by apply entered_line_more | done]. }
  induction Hrun as [ | es e s s' Hr IH Hst | es e s s1 s2 s' Hr IH Hst Hl Hs].
  - left. split; [done | ]. split; [done | ]. intros u. by rewrite Hnone.
  - destruct IH as [Hw | Hin]; [left | right; by apply Hmore].
    eapply waiting_kept; [done | ]. by apply (keeps_inner_step e s Hreg) in Hst.
  - destruct IH as [Hw | Hin]; [ | right; by apply Hmore].
    pose proof (keeps_inner_step e s Hreg _ Hst) as Hk. cbn [snd] in Hk.
    destruct (waiting_line s0 (es ++ [e]) s1 s2) as [Hw2 | Hin]; [ | done | | | by right].
    + eapply waiting_kept; done.
    + intros st p Hst1 Hcmd. exists es, e, [], s. split_and!; done.
    + left. apply keeps_start_line in Hs. rewrite <- (app_nil_r (es ++ [e])).
      by eapply waiting_kept.
Qed.

(** *** Privilege *)

Definition same_rights (cli cli' : cli_def) : Prop := guarded cli' = guarded cli.

Lemma fprint_rights cli t : post (same_rights cli) (fprint_client cli t).
Proof.
  unfold fprint_client. destruct (d_client cli); [ | by apply post_ret].
  destruct (d_newline cli); [ | done]. apply post_ret, guarded_send.
Qed.

Lemma errors_rights ls cli : post (same_rights cli) (errors cli ls).
Proof.
  revert cli. induction ls as [|l ls IH]; intros cli; [by apply post_ret | ]. cbn [errors].
  eapply post_bind; [apply cli_error_guarded | ]. intros c Hc.
  eapply post_weaken; [apply IH | ]. unfold same_rights. congruence.
Qed.

Lemma filter_help_rights cli argv : post (same_rights cli) (filter_help cli argv).
Proof. unfold filter_help. destruct (length argv =? 1)%nat; apply errors_rights. Qed.

Lemma make_filter_rights cli argv : post (λ r, same_rights cli r.2) (make_filter cli argv).
Proof.
  assert (∀ (r : option cli_filter), post (λ r, same_rights cli r.2) (Ret (r, cli))) as Hret.
  { intros r. by apply post_ret. }
  assert (∀ t, post (λ r : option cli_filter * cli_def, same_rights cli r.2)
            (c ← fprint_client cli t; Ret (None, c))) as Hfp.
  { intros t. eapply post_bind; [apply fprint_rights | ]. intros c Hc. by apply post_ret. }
  unfold make_filter, cli_match_filter_init, cli_range_filter_init, cli_count_filter_init.
  repeat first [apply Hret | apply Hfp | case_if | destruct (grep_options _ _ _) as [[inv ic] rest]].
  eapply post_bind; [apply cli_error_guarded | ]. intros c Hc. by apply post_ret.
Qed.

(** The session in the result of the loop over the filters. *)
Definition result_cli (r : Z * cli_def + Z * cli_def) : cli_def :=
  match r with inl (_, c) | inr (_, c) => c end.

Lemma make_filters_rights words filters made cli :
  post (λ r, same_rights cli (result_cli r)) (make_filters cli words filters made).
Proof.
  revert made cli. induction filters as [|f rest IH]; intros made cli; [by apply post_ret | ].
  cbn [make_filters].
  assert (∀ t rc, post (λ r, same_rights cli (result_cli r))
            (c ← cli_error cli t; Ret (inl (rc, c)))) as Herr.
  { intros t rc. eapply post_bind; [apply cli_error_guarded | ]. intros c Hc. by apply post_ret. }
  case_if; [apply Herr | ]. destruct (last_byte _) as [l|]; [ | done].
  case_if.
  { eapply post_bind; [apply filter_help_rights | ]. intros c Hc. by apply post_ret. }
  case_if; [apply Herr | ]. case_if; [apply Herr | ].
  eapply post_bind; [apply make_filter_rights | ]. intros [filt c] Hc. cbn [snd] in Hc.
  unfold same_rights in *. destruct filt as [filt|].
  - eapply post_weaken; [apply IH | ]. intros r ->. by rewrite guarded_filters.
  - apply post_ret. cbn. by rewrite guarded_filters.
Qed.

Lemma end_filters_rights fs cli : post (same_rights cli) (end_filters fs cli).
Proof.
  revert cli. induction fs as [|f fs IH]; intros cli; [by apply post_ret | ]. cbn [end_filters].
  eapply post_bind with (R := same_rights cli).
  { destruct f; cbn [filter_end]; [by apply post_ret.. | apply fprint_rights]. }
  intros c Hc. eapply post_weaken; [apply IH | ]. unfold same_rights in *. intros c' ->.
  by rewrite guarded_filters.
Qed.

Lemma help_matches_rights cs w cli : post (same_rights cli) (help_matches cli cs w).
Proof.
  revert cli. induction cs as [|c cs IH]; intros cli; [by apply post_ret | ]. cbn [help_matches].
  eapply post_bind with (R := same_rights cli).
  { case_if; [apply cli_error_guarded | by apply post_ret]. }
  intros c' Hc. eapply post_weaken; [apply IH | ]. unfold same_rights in *. congruence.
Qed.

Lemma entered_rights cli c : same_rights cli (entered cli c).
Proof. unfold same_rights, entered. case_if; [apply guarded_configmode | done]. Qed.

(** A session without the privilege, whose [enable] asks for a password. *)
Definition unprivileged (pw : option (list byte)) (cb : option positive) (cli : cli_def) : Prop :=
  d_enable_password cli = pw ∧ d_enable_callback cli = cb ∧
  d_privilege cli ≠ PRIVILEGE_PRIVILEGED.

Lemma unprivileged_rights pw cb cli cli' :
  same_rights cli cli' → unprivileged pw cb cli → unprivileged pw cb cli'.
Proof.
  unfold same_rights, guarded, unprivileged. intros [=]. by intuition congruence.
Qed.

(** The program's commands leave the rights alone. *)
Definition commands_trusted : Prop :=
  ∀ f cli name argv rc cli', call_command f cli name argv = Ret (rc, cli') → guarded cli' = guarded cli.

Lemma rights_trans c1 c2 c3 : same_rights c1 c2 → same_rights c2 c3 → same_rights c1 c3.
Proof. unfold same_rights. congruence. Qed.

Lemma show_help_rights c : ∀ up cli, post (same_rights cli) (show_help_command up c cli).
Proof.
  induction c as [name cb u help priv mode children IH] using command_tree_ind.
  intros up cli. cbn [show_help_command]. eapply post_bind with (R := same_rights cli).
  { case_if; [apply cli_error_guarded | by apply post_ret]. }
  intros c1 Hc1. set (p := mk_command name cb u help priv mode children). clearbody p.
  revert c1 Hc1. induction IH as [|c cs Hc _ IHcs]; intros c1 Hc1; [by apply post_ret | ].
  eapply post_bind; [apply Hc | ]. intros c2 Hc2. apply IHcs. by eapply rights_trans.
Qed.

Lemma cli_show_help_rights up cs cli : post (same_rights cli) (cli_show_help up cs cli).
Proof.
  revert cli. induction cs as [|c cs IH]; intros cli; [by apply post_ret | ]. cbn [cli_show_help].
  eapply post_bind; [apply show_help_rights | ]. intros c1 Hc1.
  eapply post_weaken; [apply IH | ]. intros c2. by apply rights_trans.
Qed.

Lemma show_history_rights h i cli : post (same_rights cli) (show_history i h cli).
Proof.
  revert i cli. induction h as [|x h IH]; intros i cli; [by apply post_ret | ].
  cbn [show_history]. destruct x; [apply IH | | done].
  eapply post_bind; [apply cli_error_guarded | ]. intros c1 Hc1.
  eapply post_weaken; [apply IH | ]. intros c2. by apply rights_trans.
Qed.

Section unprivileged.
Context (pw : option (list byte)) (cb : option positive) (Hpw : pw ≠ None ∨ cb ≠ None).
Context (Htrust : commands_trusted).

Lemma lowered cli : unprivileged pw cb cli →
  unprivileged pw cb (cli_set_configmode (cli_set_privilege cli PRIVILEGE_UNPRIVILEGED).2
                        MODE_EXEC None).2.
Proof.
  intros (Hp & Hc & _). destruct (set_privilege_fields cli PRIVILEGE_UNPRIVILEGED) as (H1 & _ & Hs1).
  destruct (set_configmode_fields (cli_set_privilege cli PRIVILEGE_UNPRIVILEGED).2 MODE_EXEC None)
    as (_ & H2 & Hs2).
  unfold same_rest in *. unfold unprivileged. rewrite H2, H1.
  split_and!; [intuition congruence.. | done].
Qed.

Lemma configmode_unprivileged cli m : unprivileged pw cb cli →
  unprivileged pw cb (cli_set_configmode cli m None).2.
Proof. apply unprivileged_rights, guarded_configmode. Qed.

(** [enable] only asks for the password. *)
Lemma int_enable_unprivileged cli :
  unprivileged pw cb cli → unprivileged pw cb (cli_int_enable cli).2.
Proof.
  intros Hu. pose proof Hu as (Hp & Hc & Hne). unfold cli_int_enable. rewrite Hp, Hc.
  rewrite (proj2 (Z.eqb_neq _ _) Hne).
  assert (unprivileged pw cb (set_state STATE_ENABLE_PASSWORD cli)) by (by destruct cli).
  destruct pw, cb; [done.. | ]. by destruct Hpw.
Qed.

Lemma run_callback_unprivileged c cli name argv :
  unprivileged pw cb cli → post (λ r, unprivileged pw cb r.2) (run_callback c cli name argv).
Proof.
  intros Hu. destruct c; cbn [run_callback]; try apply post_ret; cbn [snd].
  - by apply int_enable_unprivileged.
  - by apply lowered.
  - unfold cli_int_help. eapply post_bind; [apply cli_error_guarded | ]. intros c1 Hc1.
    eapply post_bind; [apply cli_show_help_rights | ]. intros c2 Hc2. apply post_ret.
    apply (unprivileged_rights pw cb cli); [by eapply rights_trans | done].
  - unfold cli_int_history. eapply post_bind; [apply cli_error_guarded | ]. intros c1 Hc1.
    eapply post_bind; [apply show_history_rights | ]. intros c2 Hc2. apply post_ret.
    apply (unprivileged_rights pw cb cli); [by eapply rights_trans | done].
  - by apply lowered.
  - unfold cli_int_exit. repeat case_if; [by apply lowered | by apply configmode_unprivileged..].
  - by apply configmode_unprivileged.
  - intros [rc c1] Hc. apply Htrust in Hc. by eapply unprivileged_rights.
Qed.

Lemma run_found_unprivileged cli words filters c name argv :
  unprivileged pw cb cli →
  post (λ r, unprivileged pw cb r.2) (run_found cli words filters c name argv).
Proof.
  intros Hu. unfold run_found. eapply post_bind; [apply make_filters_rights | ].
  intros [[rc c1] | [rc c1]] Hc1; cbn [result_cli] in Hc1.
  { apply post_ret. by eapply unprivileged_rights. }
  assert (unprivileged pw cb c1) as Hu1 by (by eapply unprivileged_rights).
  eapply post_bind with (R := λ r, unprivileged pw cb r.2).
  { case_if; [by apply run_callback_unprivileged | by apply post_ret]. }
  intros [rc2 c2] Hu2. eapply post_bind; [apply end_filters_rights | ]. intros c3 Hc3.
  apply post_ret. by eapply unprivileged_rights.
Qed.

Lemma error_unprivileged cli t rc :
  unprivileged pw cb cli →
  post (λ r, unprivileged pw cb r.2) (cli ← cli_error cli t; Ret (rc : Z, cli)).
Proof.
  intros Hu. eapply post_bind; [apply cli_error_guarded | ]. intros c1 Hc1. apply post_ret.
  by eapply unprivileged_rights.
Qed.

Lemma find_command_unprivileged words filters ws up commands cli :
  unprivileged pw cb cli →
  post (λ r, unprivileged pw cb r.2) (cli_find_command words filters ws up commands cli).
Proof.
  revert up commands cli. induction ws as [|w ws IH]; intros up commands cli Hu; [by apply post_ret | ].
  cbn [cli_find_command]. destruct (last_byte w) as [l|]; [ | done]. case_if.
  { eapply post_bind; [apply help_matches_rights | ]. intros c1 Hc1. apply post_ret.
    by eapply unprivileged_rights. }
  clear E. generalize commands at 2. intros cs.
  revert cli Hu. induction cs as [|c cs IHcs]; intros cli Hu.
  { destruct commands; [done | by apply error_unprivileged]. }
  destruct (try_command cli c w) as [c1 | c1] eqn:Et.
  - apply try_command_inl in Et as ->. by apply IHcs.
  - apply try_command_inr in Et as (_ & _ & -> & _).
    assert (unprivileged pw cb (entered cli c)).
    { eapply unprivileged_rights; [apply entered_rights | done]. }
    destruct (c_children c).
    + destruct (c_callback c); [by apply run_found_unprivileged | by apply error_unprivileged].
    + case_if; [by apply error_unprivileged | by apply IH].
Qed.

Lemma run_command_unprivileged cli line :
  unprivileged pw cb cli → post (λ r, unprivileged pw cb r.2) (cli_run_command cli line).
Proof.
  intros Hu. unfold cli_run_command. destruct (skip_space line) as [|x t]; [by apply post_ret | ].
  eapply post_bind; [apply post_any | ]. intros words _.
  eapply post_bind with (R := λ r, unprivileged pw cb r.2).
  { destruct words; [by apply post_ret | by apply find_command_unprivileged]. }
  intros [r c1] Hc1. by apply post_ret.
Qed.

(** A password for [enable] was entered that is the one of the session, or that
    its callback accepts. *)
Definition enabled_in (s0 : session) (es : list event) : Prop :=
  ∃ sp p, entered_line s0 es STATE_ENABLE_PASSWORD sp p ∧
    check_enable (e_cli sp) p = true ∧ d_enable_password (e_cli sp) = pw ∧
    d_enable_callback (e_cli sp) = cb.

Lemma unprivileged_state st cli : unprivileged pw cb cli → unprivileged pw cb (set_state st cli).
Proof. by destruct cli. Qed.

Lemma unprivileged_showprompt v cli :
  unprivileged pw cb cli → unprivileged pw cb (set_showprompt v cli).
Proof. by destruct cli. Qed.

Lemma put_cli_get cli s : e_cli (put_cli cli s) = cli.
Proof. by destruct s. Qed.

Lemma denied_unprivileged s :
  unprivileged pw cb (e_cli s) → post (λ s', unprivileged pw cb (e_cli s')) (denied s).
Proof.
  intros Hu. unfold denied. eapply post_bind; [apply cli_error_guarded | ]. intros c Hc.
  apply post_ret. rewrite put_cli_get. by eapply unprivileged_rights.
Qed.

Lemma line_login_unprivileged s :
  unprivileged pw cb (e_cli s) → post (λ s', unprivileged pw cb (e_cli s')) (line_login s).
Proof.
  intros Hu. unfold line_login. case_if; [by apply post_ret | ].
  eapply post_bind; [apply post_any | ]. intros u _. apply post_ret. open_session s.
  by apply unprivileged_showprompt, unprivileged_state.
Qed.

Lemma line_password_unprivileged s :
  unprivileged pw cb (e_cli s) → post (λ s', unprivileged pw cb (e_cli s')) (line_password s).
Proof.
  intros Hu. unfold line_password. eapply post_bind; [apply post_any | ]. intros p _.
  destruct (e_user s) as [u|]; [ | done].
  assert (unprivileged pw cb (e_cli (put_pass (Some p) s))) as Hu' by (by open_session s).
  generalize dependent (put_pass (Some p) s). intros s1 Hu1.
  eapply post_bind with (R := λ s', unprivileged pw cb (e_cli s')).
  - case_if.
    + eapply post_bind; [apply cli_error_guarded | ]. intros c Hc. apply post_ret.
      rewrite put_cli_get. apply unprivileged_state. by eapply unprivileged_rights.
    + eapply post_bind; [by apply denied_unprivileged | ]. intros s2 Hu2. apply post_ret.
      rewrite put_cli_get. by apply unprivileged_state.
  - intros s2 Hu2. apply post_ret. rewrite put_cli_get. by apply unprivileged_showprompt.
Qed.

Lemma line_command_unprivileged s :
  unprivileged pw cb (e_cli s) → post (λ r, unprivileged pw cb (e_cli r.2)) (line_command s).
Proof.
  intros Hu. unfold line_command. case_if; [by apply post_ret | ].
  eapply post_bind; [apply post_any | ]. intros b _.
  eapply post_bind; [apply post_any | ]. intros t _.
  eapply post_bind with (R := λ c, unprivileged pw cb c).
  { case_if; [by apply post_ret | ]. unfold cli_add_history.
    destruct (fill_null _ _).
    - apply post_ret. by eapply unprivileged_rights; [apply guarded_history | ].
    - destruct (d_history (e_cli s)) as [|[]]; try done;
        (apply post_ret; by eapply unprivileged_rights; [apply guarded_history | ]). }
  intros c1 Hc1. eapply post_bind; [by apply run_command_unprivileged | ]. intros [rc c2] Hc2.
  apply post_ret. cbn [snd]. by rewrite put_cli_get.
Qed.

Lemma handle_line_unprivileged s0 es s f s' :
  unprivileged pw cb (e_cli s) → handle_line s = Ret (f, s') →
  (∀ st p, d_state (e_cli s) = st → cmd_string s 0 = Ret p → entered_line s0 es st s p) →
  unprivileged pw cb (e_cli s') ∨ enabled_in s0 es.
Proof.
  intros Hu Hh Hent. unfold handle_line in Hh.
  do 2 (case_if_in Hh; [apply Ret_inj in Hh as [= <- <-]; by left | ]).
  destruct (d_state (e_cli s)) eqn:Hst; unfold continue in Hh.
  - apply bind_Ret in Hh as (s1 & Hh & [= <- <-]%Ret_inj). left. by apply line_login_unprivileged in Hh.
  - apply bind_Ret in Hh as (s1 & Hh & [= <- <-]%Ret_inj). left. by apply line_password_unprivileged in Hh.
  - left. by apply (line_command_unprivileged s Hu) in Hh.
  - apply bind_Ret in Hh as (s1 & Hh & [= <- <-]%Ret_inj). unfold line_enable_password in Hh.
    apply bind_Ret in Hh as (p & Hp & Hh). destruct (check_enable (e_cli s) p) eqn:Eok.
    + right. exists s, p. destruct Hu as (H1 & H2 & _). by eauto.
    + left. apply bind_Ret in Hh as (s2 & Hd & <-%Ret_inj). rewrite put_cli_get.
      apply unprivileged_state. by apply (denied_unprivileged s) in Hd.
  - left. by apply (line_command_unprivileged s Hu) in Hh.
Qed.

Lemma kept_unprivileged s s' :
  kept s s' → unprivileged pw cb (e_cli s) → unprivileged pw cb (e_cli s').
Proof. intros [Hk _]. by apply unprivileged_rights. Qed.
End unprivileged.

(** C27. The privilege is not given without the password of [enable]: when that
    password or its callback is set and a run of a session without the privilege
    reaches the privilege, the session asked for the password in the run and one
    was entered that is right. *)
Theorem enable_required s0 es s :
  regular_trusted → commands_trusted →
  d_enable_password (e_cli s0) ≠ None ∨ d_enable_callback (e_cli s0) ≠ None →
  d_privilege (e_cli s0) ≠ PRIVILEGE_PRIVILEGED → run s0 es s →
  d_privilege (e_cli s) = PRIVILEGE_PRIVILEGED →
  enabled_in (d_enable_password (e_cli s0)) (d_enable_callback (e_cli s0)) s0 es.
Proof.
  set (pw := d_enable_password (e_cli s0)). set (cb := d_enable_callback (e_cli s0)).
  intros Hreg Hcom Hpw Hp0 Hrun Hp.
  cut (unprivileged pw cb (e_cli s) ∨ enabled_in pw cb s0 es).
  { intros [(_ & _ & Hn) | Hin]; [by destruct Hn | done]. }
  clear Hp. induction Hrun as [ | es e s s' Hr IH Hst | es e s s1 s2 s' Hr IH Hst Hl Hs].
  - by left.
  - destruct IH as [Hu | (sp & p & Hin & ?)].
    + left. apply (keeps_inner_step e s Hreg) in Hst. by eapply kept_unprivileged.
    + right. exists sp, p. split; [by apply entered_line_more | done].
  - destruct IH as [Hu | (sp & p & Hin & ?)].
    2: { right. exists sp, p. split; [by apply entered_line_more | done]. }
    pose proof (keeps_inner_step e s Hreg _ Hst) as Hk. cbn [snd] in Hk.
    destruct (handle_line_unprivileged pw cb Hpw Hcom s0 (es ++ [e]) s1 Continue s2)
      as [Hu2 | Hin]; [by eapply kept_unprivileged | done | | | by right].
    + intros st p Hst1 Hcmd. exists es, e, [], s. split_and!; done.
    + left. apply keeps_start_line in Hs. by eapply kept_unprivileged.
Qed.
End keeps.

(** ** The start of a session *)

Lemma session_start_spec `{Arch, Regex, Program} cli cmd :
  length cmd = 4096%nat → terminal cli → d_users cli ≠ [] →
  ∃ s, session_start cli cmd = Ret s ∧ awaits STATE_LOGIN s ∧ e_user s = None ∧
    d_privilege (e_cli s) = PRIVILEGE_UNPRIVILEGED ∧
    d_enable_password (e_cli s) = d_enable_password cli ∧
    (∀ up, checks (e_cli s) up = checks cli up).
Proof.
  intros Hlen [Hnl Hpc] Hus. unfold session_start.
  set (c1 := set_client true _).
  assert (d_newline c1 ≠ None) as Hnl1 by (unfold c1; by destruct cli).
  assert (∃ x, match d_banner c1 with Some b => cli_error c1 b | None => Ret c1 end
               = Ret (set_out x c1)) as (x & ->).
  { destruct (d_banner c1); [by apply cli_error_sent | ]. exists (d_out c1). by destruct c1. }
  cbn [mbind outcome_bind]. set (c2 := (cli_set_configmode _ _ _).2).
  assert (base c2 = base c2 ∧ terminal c2 ∧ d_state c2 = STATE_LOGIN ∧ d_users c2 = d_users cli ∧
    d_auth_callback c2 = d_auth_callback cli ∧ d_privilege c2 = PRIVILEGE_UNPRIVILEGED ∧
    d_enable_password c2 = d_enable_password cli) as (_ & Ht & Hst & Hu & Ha & Hp & He).
  { unfold c2, c1, cli_set_configmode, cli_set_privilege, cli_set_promptchar, cli_set_modestring, terminal.
    destruct cli as [? ? ? ? ? ? ? ? ? pc ? ? nl pr mo]. cbn in *.
    destruct pr; cbn; destruct mo; cbn; by split_and!. }
  destruct (d_users c2) as [|u us] eqn:E; [congruence | ]. rewrite <- E in Hu. clearbody c2. clear E.
  destruct (start_line_spec (mk_session c2 cmd 0 0 false 0 0 0 0 0 None None))
    as (s & -> & Hs & Hf); [done.. | ].
  exists s. split; [done | ]. destruct Hf as (Hv & Hn & _). cbn [e_cli e_user] in Hv, Hn.
  pose proof (view_fields _ _ Hv) as (Hs1 & Hs2 & Hs3 & Hs4 & Hs5 & Hs6).
  split; [split; [congruence | split; [done | ]] | split_and!; [done | congruence | | ]].
  - unfold terminal in *. by rewrite Hs2, Hs3.
  - rewrite <- He. destruct (e_cli s), c2. unfold view in Hv. simpl in *. by injection Hv.
  - intros up. unfold checks, check_user. rewrite Hs4, Hs5. by rewrite Hu, Ha.
Qed.

(** ** What goes wrong *)

Section wrong.
Context `{Regex, Program}.

(** [cli_clear_line] writes three times the length of the line into the buffer,
    whatever the buffer's size. *)
Lemma clear_line_overflows s b a :
  shows s b a → (4096 < 3 * (length b + length a))%nat →
  cli_clear_line s = UB "write outside an object".
Proof.
  intros [(k & Hcmd & Hk) Hl Hcur Hb Ha Ht He Ho] Hlen. open_session s. subst.
  unfold cli_clear_line, poke. fields. unfold write_at.
  assert (∀ x : list byte, (0 + Z.of_nat (length x) <=? Z.of_nat (length (b ++ a ++ zeros (S k)))) = false →
          (0 <=? 0) && (0 + Z.of_nat (length x) <=? Z.of_nat (length (b ++ a ++ zeros (S k)))) = false)
    as Hand by (by intros x ->).
  rewrite Hand; [done | ]. apply Z.leb_gt. unfold backspaces, spaces.
  rewrite !length_app, !repeat_length, length_zeros. lia.
Qed.

(** C37. Before any login a line of 1366 bytes or more, cleared with control-U, is
    a write of up to 12 kB past the allocated buffer. *)
Theorem clear_before_login_overflows s t rest :
  awaits STATE_LOGIN s → Forall printable t → Byte.x3f ∉ t → (1366 ≤ length t ≤ 4094)%nat →
  session_loop s (map Read (t ++ [Byte.x15]) ++ rest) = UB "write outside an object".
Proof.
  intros (Hst & Hs & Ht) Hp Hq Hlen. rewrite map_app, <- app_assoc.
  destruct (type_text s [] t (map Read [Byte.x15] ++ rest)) as (s1 & -> & Hs1 & Hf1); try done; [simpl; lia | ].
  cbn [map app session_loop]. unfold inner_step.
  destruct (prompt_spec s1 t []) as (s2 & -> & Hs2 & Hf2); [done | by apply (terminal_frame s) | ].
  cbn [mbind outcome_bind]. rewrite (handle_byte_key _ s2 t []) by done.
  unfold handle_key, continue, key_clear. cbn.
  assert (hidden s2 = false) as ->.
  { rewrite (hidden_frame s1 s2), (hidden_frame s s1) by done. unfold hidden. by rewrite Hst. }
  rewrite (clear_line_overflows s2 t []); [done | done | simpl; lia].
Qed.

(** *** The history *)

Definition no_history (cli : cli_def) : Prop := d_history cli = repeat Null MAX_HISTORY.

Lemma no_history_frame s s' : frame s s' → no_history (e_cli s) → no_history (e_cli s').
Proof.
  intros (Hv & _) Hn. unfold no_history in *. rewrite <- Hn.
  destruct (e_cli s), (e_cli s'). unfold view in Hv. simpl in *. by injection Hv.
Qed.

Lemma no_history_entry cli i :
  no_history cli → entry (d_history cli) i =
    if (0 <=? i) && (i <? Z.of_nat MAX_HISTORY) then Ret Null else UB "read outside the history".
Proof.
  intros Hn. unfold entry. rewrite Hn. destruct (Z.ltb_spec i 0), (Z.leb_spec 0 i); try lia; [done | ].
  cbn [andb]. destruct (Z.ltb_spec i (Z.of_nat MAX_HISTORY)).
  - assert (Z.to_nat i < MAX_HISTORY)%nat as Hlt by lia. revert Hlt. generalize (Z.to_nat i), MAX_HISTORY.
    intros j n. revert j. induction n as [|n IH]; intros [|j] Hj; simpl; try lia; [done | ].
    specialize (IH j ltac:(lia)). simpl in IH. exact IH.
  - rewrite lookup_ge_None_2; [done | ]. rewrite repeat_length. lia.
Qed.

Lemma no_history_first n i : first_used (repeat Null n) i = None.
Proof. revert i. induction n as [|n IH]; intros i; [done | apply IH]. Qed.

(** Control-N with an empty history adds one to the index, however large it is. *)
Lemma down_past s :
  hidden s = false → no_history (e_cli s) → -1 ≤ e_in_history s < 2 ^ 31 - 1 →
  key_history false s = Ret (put_in_history (e_in_history s + 1) s).
Proof.
  intros Hh Hn Hi. unfold key_history. rewrite Hh. unfold history_down.
  rewrite (proj2 (Z.eqb_neq _ _)) by lia. rewrite !no_history_entry by done.
  set (i := e_in_history s + 1). unfold no_history in Hn.
  assert ((if Z.of_nat MAX_HISTORY <=? i then Ret true
           else x ← (if (0 <=? i) && (i <? Z.of_nat MAX_HISTORY) then Ret Null
                     else UB "read outside the history"); Ret (negb (used x))) = Ret true) as ->.
  { destruct (Z.leb_spec (Z.of_nat MAX_HISTORY) i); [done | ].
    by rewrite (proj2 (Z.leb_le _ _)), (proj2 (Z.ltb_lt _ _)) by lia. }
  rewrite bind_Ret_l, Hn, no_history_first. done.
Qed.

Lemma prompt_in_history s : post (λ s', e_in_history s' = e_in_history s) (prompt s).
Proof.
  assert (∀ b s1, e_in_history (emit b s1) = e_in_history s1) as Hem by (intros b s1; by open_session s1).
  unfold prompt. destruct (d_showprompt (e_cli s)); [ | by apply post_ret].
  apply post_bind with (R := λ s', e_in_history s' = e_in_history s).
  - destruct (d_state (e_cli s)); try (apply post_ret, Hem).
    all: apply post_bind with (R := λ s', e_in_history s' = e_in_history s);
      [ | intros s1 H1; eapply post_bind; [apply post_any | intros t _; apply post_ret; by rewrite Hem]].
    all: unfold show_prompt; destruct (d_hostname _), (d_modestring _); destruct (d_promptchar _);
      (done || apply post_ret; by rewrite !Hem).
  - intros s1 H1. apply post_ret. by open_session s1.
Qed.

(** Any number of control-N at an empty line. *)
Lemma downs m s rest :
  shows s [] [] → hidden s = false → terminal (e_cli s) → no_history (e_cli s) →
  -1 ≤ e_in_history s → e_in_history s + Z.of_nat m < 2 ^ 31 →
  ∃ s', session_loop s (repeat (Read Byte.x0e) m ++ rest) = session_loop s' rest ∧
    shows s' [] [] ∧ frame s s' ∧ e_in_history s' = e_in_history s + Z.of_nat m.
Proof.
  revert s. induction m as [|m IH]; intros s Hs Hh Ht Hn Hi Hm.
  { exists s. split_and!; try done. lia. }
  cbn [repeat app session_loop]. unfold inner_step. pose proof (prompt_in_history s) as Hp.
  destruct (prompt_spec s [] []) as (s1 & E & Hs1 & Hf1); [done.. | ]. rewrite E in Hp |- *.
  specialize (Hp s1 eq_refl). cbn beta in Hp. rewrite bind_Ret_l. cbn beta iota.
  assert (hidden s1 = false) as Hh1 by (by rewrite (hidden_frame s s1)).
  pose proof (no_history_frame _ _ Hf1 Hn) as Hn1. rewrite (handle_byte_key _ s1 [] []) by done.
  unfold handle_key, continue. cbn. rewrite down_past; [ | done | done | lia]. cbn.
  set (s2 := put_in_history (e_in_history s1 + 1) s1).
  assert (e_in_history s2 = e_in_history s + 1) as Hi2 by (unfold s2; rewrite <- Hp; by open_session s1).
  assert (frame s s2) as Hf2 by (eapply frame_trans; [done | ]; by open_session s1).
  destruct (IH s2) as (s3 & E3 & Hs3 & Hf3 & Hi3).
  - destruct Hs1. split; by open_session s1.
  - by rewrite (hidden_frame s s2).
  - by apply (terminal_frame s).
  - by apply (no_history_frame s).
  - lia.
  - lia.
  - exists s3. split; [done | ]. split; [done | ]. split; [by eapply frame_trans | lia].
Qed.

(** Before any login, with nothing in the history yet, 257 control-N or more and a
    control-P read an entry past the end of [history]. *)
Theorem history_before_login_overread s m rest :
  awaits STATE_LOGIN s → no_history (e_cli s) → e_in_history s = 0 →
  Z.of_nat MAX_HISTORY < Z.of_nat m < 2 ^ 31 →
  session_loop s (repeat (Read Byte.x0e) m ++ Read Byte.x10 :: rest) = UB "read outside the history".
Proof.
  intros (Hst & Hs & Ht) Hn Hi Hm. assert (hidden s = false) as Hh by (unfold hidden; by rewrite Hst).
  destruct (downs m s (Read Byte.x10 :: rest)) as (s1 & -> & Hs1 & Hf1 & Hi1); try done; [lia.. | ].
  cbn [session_loop]. unfold inner_step. pose proof (prompt_in_history s1) as Hp.
  destruct (prompt_spec s1 [] []) as (s2 & E & Hs2 & Hf2); [done | by apply (terminal_frame s) | ].
  rewrite E in Hp |- *. specialize (Hp s2 eq_refl). cbn beta in Hp. rewrite bind_Ret_l. cbn beta iota.
  assert (frame s s2) as Hf by (by eapply frame_trans).
  rewrite (handle_byte_key _ s2 [] []) by done. unfold handle_key, continue. cbn.
  unfold key_history. rewrite (hidden_frame s s2), Hh by done. unfold history_up.
  rewrite (proj2 (Z.ltb_ge (e_in_history s2 - 1) 0)) by lia.
  rewrite no_history_entry by (by apply (no_history_frame s)).
  rewrite (proj2 (Z.ltb_ge (e_in_history s2 - 1) (Z.of_nat MAX_HISTORY))), andb_false_r by lia. done.
Qed.

(** The tabulator on an empty line reads the byte before the buffer. *)
Lemma tab_on_empty_line_undefined s :
  shows s [] [] → hidden s = false → key_tab s = UB "read outside an object".
Proof.
  intros Hs Hh. unfold key_tab. rewrite Hh, (shows_cursor _ _ _ Hs), (shows_l _ _ _ Hs). done.
Qed.

(** Of a history of freed lines that a session leaves, the next one forgets only
    the first 256 bytes of pointers. *)
Lemma freed_history_kept `{Arch} h i :
  length h = MAX_HISTORY → 8 * Z.of_nat MAX_HISTORY / ulong_bits ≤ Z.of_nat i →
  clear_history h !! i = h !! i.
Proof.
  intros Hh Hi. unfold clear_history. rewrite Hh.
  set (n := Z.to_nat (8 * Z.of_nat MAX_HISTORY / ulong_bits)) in *.
  assert (n ≤ i)%nat by lia.
  rewrite lookup_app_r; rewrite repeat_length; [ | lia]. rewrite lookup_drop.
  destruct (decide (i < MAX_HISTORY)%nat).
  - f_equal. lia.
  - rewrite !lookup_ge_None_2; [done | lia | lia].
Qed.
End wrong.

(** ** The theorems at concrete inputs *)

Module Witness.

#[local] Existing Instance x86_64.

#[local] Instance regex : Regex := {|
  regcomp _ _ _ := true;
  regexec p _ _ s := found s p
|}.

#[local] Instance program : Program := {|
  call_command _ cli _ _ := Ret (CLI_OK, cli);
  call_auth _ _ _ := false;
  call_enable _ _ := false;
  call_regular _ cli := Ret (CLI_OK, cli);
  crypt try _ := try
|}.

Lemma program_regular : regular_trusted.
Proof. intros f cli rc cli' [= _ ->]%Ret_inj. done. Qed.

Lemma program_commands : commands_trusted.
Proof. intros f cli name argv rc cli' [= _ ->]%Ret_inj. done. Qed.

#[local] Instance printable_dec c : Decision (printable c).
Proof. unfold printable. apply _. Defined.

#[local] Instance typed_line_dec t : Decision (typed_line t).
Proof. unfold typed_line. apply _. Defined.

#[local] Instance edits_dec c line : Decision (edits c line).
Proof. unfold edits. apply _. Defined.

#[local] Instance all_edit_dec keys line : Decision (all_edit keys line).
Proof. revert line. induction keys as [|c keys IH]; intros line; simpl; apply _. Defined.

(** A session with the user joe, whose password is pw; [enable] asks for root. *)
Definition cli0 : cli_def :=
  cli_allow_enable (cli_allow_user (cli_set_newline cli_init (bs "!")) (bs "joe") (bs "pw")) (bs "root").

Definition memory : list byte := repeat Byte.x55 4096.

Definition start : session :=
  match session_start cli0 memory with
  | Ret s => s
  | _ => mk_session cli0 [] 0 0 false 0 0 0 0 0 None None
  end.

Lemma start_spec :
  awaits STATE_LOGIN start ∧ e_user start = None ∧ d_privilege (e_cli start) = 0 ∧
  d_enable_password (e_cli start) = Some (bs "root") ∧
  ∀ up, checks (e_cli start) up = checks cli0 up.
Proof.
  destruct (session_start_spec cli0 memory) as (s & Hs & Ha & Hn & Hp & He & Hc).
  { apply repeat_length. }
  { by vm_compute. }
  { by vm_compute. }
  unfold start. rewrite Hs. split; [exact Ha | ]. split; [exact Hn | ]. split; [exact Hp | ].
  split; [by rewrite He | exact Hc].
Qed.

Lemma start_terminal : terminal (e_cli start).
Proof. apply start_spec. Qed.

Lemma start_shows : shows start [] [].
Proof. apply start_spec. Qed.

Lemma start_visible : hidden start = false.
Proof. unfold hidden. by rewrite (proj1 (proj1 start_spec)). Qed.

(** a, c, left, b, end, erase, and a word of its own. *)
Definition keys : list byte :=
  bs "ac" ++ [Byte.x02] ++ bs "b" ++ [Byte.x05; Byte.x08] ++ bs " word" ++ [Byte.x17].

Lemma keys_edit : all_edit keys ([], []).
Proof. decided. Qed.

Lemma editor_refines_witness :
  edit_all keys ([], []) = (bs "ab ", []) ∧
  ∃ s', (∀ rest, session_loop start (map Read keys ++ rest) = session_loop s' rest) ∧
    shows s' (edit_all keys ([], [])).1 (edit_all keys ([], [])).2 ∧ frame start s'.
Proof.
  split; [vm_compute; reflexivity | ].
  exact (editor_refines keys start [] [] start_shows start_visible start_terminal keys_edit).
Defined.

Definition joe : list byte * list byte := (bs "joe", bs "pw").
Definition mistyped : list byte * list byte := (bs "joe", bs "wp").

Lemma joe_credentials : credentials joe.
Proof. split; [decided | ]. split; [decided | ]. split; [done | decided]. Qed.

Lemma mistyped_credentials : credentials mistyped.
Proof. split; [decided | ]. split; [decided | ]. split; [done | decided]. Qed.

Lemma start_checks : checks (e_cli start) joe = true ∧ checks (e_cli start) mistyped = false.
Proof.
  destruct start_spec as (_ & _ & _ & _ & Hc). rewrite !Hc. split; vm_compute; reflexivity.
Qed.

Lemma login_succeeds_witness :
  ∃ s', session_loop start (concat (map keys_login [mistyped]) ++ keys_login joe ++ [Timeout])
        = session_loop s' [Timeout] ∧
    awaits STATE_NORMAL s' ∧ base (e_cli s') = base (e_cli start).
Proof.
  apply (login_succeeds start [mistyped] joe [Timeout] (proj1 start_spec)).
  - constructor; [ | constructor]. exact (conj mistyped_credentials (proj2 start_checks)).
  - exact joe_credentials.
  - exact (proj1 start_checks).
Defined.

Lemma telnet_transparent_witness :
  session_loop start [Read IAC; Read Byte.xfb; Read Byte.x03; Read Byte.x61]
  = session_loop start [Read Byte.x61].
Proof.
  apply (telnet_transparent start Byte.xfb Byte.x03 [Read Byte.x61]).
  - exact (shows_telnet _ _ _ start_shows).
  - split; apply Z.leb_le; reflexivity.
  - apply Z.leb_le; reflexivity.
Defined.

(** The session after some events, in the middle of the input. *)
Fixpoint steps (s : session) (es : list event) : outcome session :=
  match es with
  | [] => Ret s
  | e :: es =>
      '(f, s) ← inner_step e s;
      match f with
      | Continue => steps s es
      | Break => '(f, s) ← handle_line s;
                 match f with
                 | Continue => s ← start_line s; steps s es
                 | Break => Die "the session is over"
                 end
      end
  end.

Lemma steps_run s0 es s es' s' : run s0 es s → steps s es' = Ret s' → run s0 (es ++ es') s'.
Proof.
  revert es s. induction es' as [|e es' IH]; intros es s Hr Hs.
  { apply Ret_inj in Hs as <-. by rewrite app_nil_r. }
  change (e :: es') with ([e] ++ es'). rewrite app_assoc. cbn [steps] in Hs.
  apply bind_Ret in Hs as ([f s1] & Hst & Hs). destruct f.
  - eapply IH; [ | done]. by eapply run_key.
  - apply bind_Ret in Hs as ([f s2] & Hl & Hs). destruct f; [ | done].
    apply bind_Ret in Hs as (s3 & Hs3 & Hs). eapply IH; [ | done]. by eapply run_line.
Qed.

Definition login_events : list event := keys_login joe.
Definition enable_events : list event :=
  login_events ++ map Read (bs "enable" ++ [Byte.x0a] ++ bs "root" ++ [Byte.x0a]).

Lemma login_run : ∃ s, run start login_events s ∧ d_state (e_cli s) = STATE_NORMAL.
Proof.
  destruct (steps start login_events) as [s | w | w | ] eqn:E; [ | by vm_compute in E..].
  exists s. split; [by apply (steps_run start [] start); [constructor | ] | ].
  assert ((match steps start login_events with Ret s => d_state (e_cli s) | _ => STATE_LOGIN end)
          = STATE_NORMAL) as Hn by (vm_compute; reflexivity).
  by rewrite E in Hn.
Qed.

Lemma enable_run : ∃ s, run start enable_events s ∧ d_privilege (e_cli s) = PRIVILEGE_PRIVILEGED.
Proof.
  destruct (steps start enable_events) as [s | w | w | ] eqn:E; [ | by vm_compute in E..].
  exists s. split; [by apply (steps_run start [] start); [constructor | ] | ].
  assert ((match steps start enable_events with Ret s => d_privilege (e_cli s) | _ => 0 end)
          = PRIVILEGE_PRIVILEGED) as Hn by (vm_compute; reflexivity).
  by rewrite E in Hn.
Qed.

Lemma login_required_witness : logged_in start login_events.
Proof.
  destruct login_run as (s & Hr & Hs).
  apply (login_required start login_events s program_regular); [ | | exact Hr | ].
  - left. exact (proj1 (proj1 start_spec)).
  - exact (proj1 (proj2 start_spec)).
  - unfold logged_out. rewrite Hs. by intros [].
Defined.

Lemma enable_required_witness :
  enabled_in (d_enable_password (e_cli start)) (d_enable_callback (e_cli start)) start enable_events.
Proof.
  destruct enable_run as (s & Hr & Hs). destruct start_spec as (_ & _ & Hp & He & _).
  apply (enable_required start enable_events s program_regular program_commands);
    [ | | exact Hr | exact Hs].
  - left. rewrite He. discriminate.
  - rewrite Hp. discriminate.
Defined.

Definition long_line : list byte := repeat Byte.x61 1366.

Lemma clear_before_login_overflows_witness :
  session_loop start (map Read (long_line ++ [Byte.x15]) ++ []) = UB "write outside an object".
Proof.
  apply (clear_before_login_overflows start long_line []).
  - exact (proj1 start_spec).
  - decided.
  - decided.
  - unfold long_line. rewrite repeat_length. lia.
Defined.

Lemma history_before_login_overread_witness :
  session_loop start (repeat (Read Byte.x0e) 257 ++ Read Byte.x10 :: []) = UB "read outside the history".
Proof.
  apply (history_before_login_overread start 257 []).
  - exact (proj1 start_spec).
  - vm_compute. reflexivity.
  - vm_compute. reflexivity.
  - unfold MAX_HISTORY. lia.
Defined.

(** Left and erase in the middle of a password: the byte before the cursor stays. *)
Lemma password_erase :
  match steps start (map Read (bs "joe" ++ [Byte.x0a] ++ bs "abc" ++ [Byte.x02; Byte.x08])) with
  | Ret s => take 4 (e_cmd s) = bs "abc" ++ [Byte.x00] ∧ e_l s = 2 ∧ e_cursor s = 1
  | _ => False
  end.
Proof. vm_compute. done. Qed.

(** What is typed in the middle of a password is shown, with the rest of it. *)
Definition shown_after (es : list event) : list output :=
  match steps start es with Ret s => drop (length (d_out (e_cli s)) - 1) (d_out (e_cli s)) | _ => [] end.

Lemma password_echoed :
  shown_after (map Read (bs "joe" ++ [Byte.x0a] ++ bs "secret" ++ [Byte.x02; Byte.x02; Byte.x02; Byte.x78]))
  = [Sent (bs "xret" ++ backspaces 4)].
Proof. vm_compute. reflexivity. Qed.
End Witness.
