(* ===== verification/CliLoopInv.v ===== *)
(** The variables of libcli's line editor stay in their ranges, whatever is
    typed (CliLoop.v). *)

From Stdlib Require Import ZArith Lia String.
From stdpp Require Import base tactics list numbers.
From coqutil Require Import Byte.
From S2P Require Import Prelude Words CMem CString Cli CliCommands CliLoop CliLoopSpec.

#[local] Open Scope Z_scope.

(** The buffer has its size, the cursor lies in the line, and the line in the
    buffer; so does the line that is kept when a question mark asks for help. *)
Record wf (s : session) : Prop := {
  wf_cmd : length (e_cmd s) = 4096%nat;
  wf_cursor : 0 ≤ e_cursor s ≤ e_l s;
  wf_l : e_l s ≤ 4095;
  wf_oldl : 0 ≤ e_oldl s ≤ 4095
}.

(** [s'] differs from [s] in what is not the line: what was sent, the state of
    the session, the escape sequences. *)
Definition same_line (s s' : session) : Prop :=
  length (e_cmd s') = length (e_cmd s) ∧ e_cursor s' = e_cursor s ∧ e_l s' = e_l s ∧
  e_oldl s' = e_oldl s.

Lemma same_line_refl s : same_line s s.
Proof. done. Qed.

Lemma same_line_trans s1 s2 s3 : same_line s1 s2 → same_line s2 s3 → same_line s1 s3.
Proof. unfold same_line. intuition congruence. Qed.

Lemma same_line_wf s s' : same_line s s' → wf s → wf s'.
Proof. intros (H1 & H2 & H3 & H4) [? ? ? ?]. split; rewrite ?H1, ?H2, ?H3, ?H4; done. Qed.

Lemma same_line_emit x s : same_line s (emit x s).
Proof. by destruct s. Qed.

Lemma same_line_cli c s : same_line s (put_cli c s).
Proof. by destruct s. Qed.

Lemma peek_bounds s i n : post (λ d, 0 ≤ i ∧ 0 ≤ n ∧ i + n ≤ Z.of_nat (length (e_cmd s)) ∧
                                    Z.of_nat (length d) = n) (peek s i n).
Proof.
  intros d Hd. unfold peek in Hd. apply read_at_length in Hd as Hlen.
  apply read_at_Ret in Hd as (? & ? & ? & _). done.
Qed.

Lemma poke_bounds s i d : post (λ s', same_line s s' ∧ 0 ≤ i ∧
  i + Z.of_nat (length d) ≤ Z.of_nat (length (e_cmd s))) (poke i d s).
Proof.
  intros s' Hs. unfold poke in Hs. apply bind_Ret in Hs as (cmd & Hc & <-%Ret_inj).
  apply write_at_Ret in Hc as (? & ? & ->). split; [ | done].
  open_session s. split; [ | done]. fields. apply length_overwrite. lia.
Qed.

Lemma newline_same s : post (same_line s) (cli_write_newline s).
Proof.
  unfold cli_write_newline. destruct (d_newline (e_cli s)); [ | done].
  apply post_ret, same_line_emit.
Qed.

Lemma show_prompt_same s : post (same_line s) (show_prompt s).
Proof.
  unfold show_prompt. cbv zeta.
  set (s1 := match d_hostname _ with Some h => emit h s | None => s end).
  assert (same_line s s1) as H1 by (unfold s1; destruct (d_hostname _); [apply same_line_emit | done]).
  set (s2 := match d_modestring _ with Some h => emit h s1 | None => s1 end).
  assert (same_line s s2) as H2.
  { eapply same_line_trans; [done | ]. unfold s2. destruct (d_modestring _); [apply same_line_emit | done]. }
  destruct (d_promptchar _); [ | done]. apply post_ret.
  eapply same_line_trans; [done | apply same_line_emit].
Qed.

Lemma cmd_string_len s i : post (λ t, True) (cmd_string s i).
Proof. apply post_any. Qed.

(** Walk through a handler, collecting what is known of each session. *)
Ltac wf_step :=
  match goal with
  | |- post _ (Ret _) => apply post_ret
  | |- post _ (UB _) => apply post_UB
  | |- post _ (if ?b then _ else _) => let E := fresh "E" in destruct b eqn:E
  | |- post _ (poke _ _ _ ≫= _) => eapply post_bind; [apply poke_bounds | intros ? (? & ? & ?)]
  | |- post _ (peek _ _ _ ≫= _) => eapply post_bind; [apply peek_bounds | intros ? (? & ? & ? & ?)]
  | |- post _ (cli_write_newline _ ≫= _) => eapply post_bind; [apply newline_same | intros ? ?]
  | |- post _ (show_prompt _ ≫= _) => eapply post_bind; [apply show_prompt_same | intros ? ?]
  | |- post _ (cmd_string _ _ ≫= _) => eapply post_bind; [apply post_any | intros ? _]
  | |- post _ (match ?x with _ => _ end) => let E := fresh "E" in destruct x eqn:E
  | |- post _ (let _ := _ in _) => cbv zeta
  end.

(** What is left is arithmetic on the fields. *)
Ltac wf_leaf :=
  cbn [snd fst] in *; unfold same_line in *;
  repeat match goal with H : wf _ |- _ => destruct H end;
  repeat match goal with s : session |- _ => destruct s end;
  repeat (case_if || case_match);
  unfold backspaces, spaces in *;
  fields; zbool; rewrite ?length_app, ?repeat_length in *; cbn [length] in *;
  try split; fields; rewrite ?length_app, ?repeat_length; lia.
Ltac wf_key := intros; repeat wf_step; wf_leaf.

Lemma clear_line_wf s : wf s → post (λ s', same_line s s') (cli_clear_line s).
Proof.
  intros Hs. unfold cli_clear_line. cbv zeta. repeat wf_step.
  eapply post_weaken; [apply poke_bounds | ]. intros s2 (? & ? & ?).
  wf_leaf.
Qed.

Lemma key_kill_wf s : wf s → post wf (key_kill s).
Proof. unfold key_kill. wf_key. Qed.

Lemma key_left_wf s : wf s → post wf (key_left s).
Proof. unfold key_left. wf_key. Qed.

Lemma key_right_wf s : wf s → post wf (key_right s).
Proof. unfold key_right. wf_key. Qed.

Lemma key_end_wf s : wf s → post wf (key_end s).
Proof. unfold key_end. wf_key. Qed.

Lemma key_redraw_wf s : wf s → post wf (key_redraw s).
Proof. unfold key_redraw. wf_key. Qed.

Lemma key_home_wf s : wf s → post wf (key_home s).
Proof.
  intros Hs. unfold key_home. wf_step; [by apply post_ret | ].
  apply post_bind with (R := same_line s).
  - destruct (hidden s); [by apply post_ret | ].
    eapply post_weaken; [apply show_prompt_same | ]. intros s1 H1.
    eapply same_line_trans; [apply same_line_emit | done].
  - intros s1 H1. apply post_ret. wf_leaf.
Qed.

Lemma key_clear_wf s : wf s → post wf (key_clear s).
Proof.
  intros Hs. unfold key_clear. apply post_bind with (R := same_line s).
  - destruct (hidden s); [ | by apply clear_line_wf].
    eapply post_weaken; [apply poke_bounds | ]. by intros ? [? _].
  - intros s1 H1. apply post_ret. wf_leaf.
Qed.

(** An erased byte takes one from the length and the cursor. *)
Lemma erase_wf s : wf s → 0 < e_cursor s →
  post (λ s', wf s' ∧ e_cursor s' = e_cursor s - 1) (erase s).
Proof.
  intros Hs Hc. unfold erase. cbv zeta. destruct (e_l s =? e_cursor s) eqn:E.
  - repeat wf_step. split; wf_leaf.
  - apply post_bind with (R := λ s1, length (e_cmd s1) = length (e_cmd s) ∧ e_l s1 = e_l s ∧
      e_cursor s1 = e_cursor s - 1 ∧ e_oldl s1 = e_oldl s).
    + destruct (hidden _); [apply post_ret; split_and!; by destruct s | ].
      repeat wf_step. unfold same_line in *.
      repeat match goal with s : session |- _ => destruct s end. fields. lia.
    + intros s1 (H1 & H2 & H3 & H4). apply post_ret.
      apply Z.eqb_neq in E. destruct Hs.
      split; [split | ]; destruct s1; fields; lia.
Qed.

Lemma erase_many_wf n s : wf s → Z.of_nat n ≤ e_cursor s → post wf (erase_many n s).
Proof.
  revert s. induction n as [|n IH]; intros s Hs Hn; [by apply post_ret | ]. cbn [erase_many].
  eapply post_bind; [apply erase_wf; [done | lia] | ]. intros s1 (H1 & H2). apply IH; [done | lia].
Qed.

Lemma word_back_le t : (word_back t ≤ length t)%nat.
Proof. apply word_back_spec. Qed.

Lemma key_erase_wf w s : wf s → post wf (key_erase w s).
Proof.
  intros Hs. unfold key_erase. wf_step.
  { apply post_ret. destruct w; [done | ]. eapply same_line_wf; [apply same_line_emit | done]. }
  apply orb_false_iff in E as [_ E]. apply Z.eqb_neq in E. pose proof (wf_cursor _ Hs).
  destruct w; [ | apply erase_many_wf; [done | lia]].
  eapply post_bind; [apply peek_bounds | ]. intros t (_ & _ & _ & Ht).
  apply erase_many_wf; [done | ]. pose proof (word_back_le t). lia.
Qed.

Lemma key_disable_wf s : wf s → post wf (key_disable s).
Proof.
  intros Hs. unfold key_disable. wf_step; [by apply post_ret | ].
  eapply post_bind; [by apply clear_line_wf | ]. intros s1 H1. apply post_ret.
  eapply same_line_wf; [ | done]. eapply same_line_trans; [done | apply same_line_cli].
Qed.

Lemma key_history_wf u s : wf s → post wf (key_history u s).
Proof.
  intros Hs. unfold key_history. wf_step; [by apply post_ret | ]. cbv zeta.
  eapply post_bind; [apply post_any | ]. intros [i found] _. set (s0 := put_in_history i s).
  assert (wf s0) as Hs0 by (eapply same_line_wf; [ | done]; by destruct s).
  destruct found; [ | by apply post_ret]. eapply post_bind; [apply post_any | ].
  intros [ | t | ] _; [by apply post_ret | | done].
  eapply post_bind; [by apply clear_line_wf | ]. intros s1 H1. apply post_ret.
  assert (length (take 4095 t) ≤ 4095)%nat by (rewrite length_take; lia).
  unfold line_size. change (Z.to_nat 4096) with 4096%nat. clearbody s0. wf_leaf.
Qed.

Lemma write_space_bounds c s :
  post (λ s', same_line s s' ∧ 0 ≤ c ∧ c + 2 ≤ Z.of_nat (length (e_cmd s))) (cli_write_space c s).
Proof.
  unfold cli_write_space. eapply post_weaken; [apply poke_bounds | ]. intros s1 (H1 & H2 & H3).
  split; [eapply same_line_trans; [apply same_line_emit | done] | ].
  destruct s. fields. cbn [length] in H3. lia.
Qed.

Lemma complete_wf n s : wf s → post wf (complete n s).
Proof.
  intros Hs. unfold complete. cbv zeta. set (i := Z.of_nat (word_start _ _)). set (s0 := emit _ s).
  assert (same_line s s0) as H0 by apply same_line_emit. clearbody s0.
  set (c := e_cursor s0 - (e_l s0 - i)). clearbody c i.
  apply post_bind with (R := λ s1, length (e_cmd s1) = 4096%nat ∧ e_oldl s1 = e_oldl s).
  { destruct (i =? 0).
    - apply post_ret. destruct Hs. unfold same_line in *. destruct s0. fields. intuition congruence.
    - eapply post_bind; [apply write_space_bounds | ]. intros s1 (H1 & _). apply post_ret.
      destruct Hs. unfold same_line in *. destruct s1. fields. intuition congruence. }
  intros s1 (H1 & H2). eapply post_bind; [apply poke_bounds | ]. intros s2 (H3 & H4 & H5).
  eapply post_bind; [apply write_space_bounds | ]. intros s3 (H6 & H7 & H8). apply post_ret.
  destruct Hs. unfold same_line in *. destruct s1, s2, s3. fields. rewrite length_app in H5.
  cbn [length] in H5. split; fields; lia.
Qed.

Section handlers.
Context `{Regex, Program}.

Lemma key_tab_wf s : wf s → post wf (key_tab s).
Proof.
  intros Hs. unfold key_tab. do 2 (wf_step; [by apply post_ret | ]).
  eapply post_bind; [apply post_any | ]. intros b _. wf_step; [by apply post_ret | ].
  eapply post_bind; [apply post_any | ]. intros [|n [|n' ns]] _.
  - apply post_ret. eapply same_line_wf; [apply same_line_emit | done].
  - by apply complete_wf.
  - destruct (e_lastchar s =? CTRL 73).
    + eapply post_bind; [apply newline_same | ]. intros s1 H1. apply post_ret.
      eapply same_line_wf; [ | done]. eapply same_line_trans; [done | ].
      eapply same_line_trans; [apply same_line_emit | apply same_line_cli].
    + apply post_ret. eapply same_line_wf; [apply same_line_emit | ]. destruct Hs. split; by destruct s.
Qed.

(** After a byte the line is in range, and where it asks for help the question
    mark is in the line. *)
Lemma insert_char_wf c s : wf s →
  post (λ r, wf r.2 ∧ (r.1 = true → 0 < e_cursor r.2)) (insert_char c s).
Proof.
  intros Hs. unfold insert_char. destruct (e_cursor s =? e_l s) eqn:E.
  - eapply post_bind; [apply poke_bounds | ]. intros s1 (H1 & _).
    destruct (e_l s1 <? 4095) eqn:El; apply post_ret; cbn [fst snd].
    + split; [wf_leaf | intros _]. destruct Hs. unfold same_line in *. destruct s1. fields. lia.
    + split; [ | done]. eapply same_line_wf; [ | done]. eapply same_line_trans; [done | apply same_line_emit].
  - cbv zeta. set (s0 := if 4094 <=? e_l s then _ else _).
    assert (length (e_cmd s0) = 4096%nat ∧ e_oldl s0 = e_oldl s ∧ e_cursor s0 = e_cursor s ∧
            e_cursor s ≤ e_l s0 ≤ 4094 ∧ 0 ≤ e_cursor s) as Hb0.
    { apply Z.eqb_neq in E. destruct Hs. unfold s0. case_if; zbool; destruct s; fields; lia. }
    clearbody s0. eapply post_bind; [apply post_any | ]. intros t _.
    eapply post_bind; [apply poke_bounds | ]. intros s1 (H1 & _).
    eapply post_bind; [apply poke_bounds | ]. intros s2 (H2 & _).
    eapply post_bind; [apply post_any | ]. intros t' _. apply post_ret. cbn [fst snd].
    destruct Hs. unfold same_line in *. destruct s2. fields. split; [split | ]; fields; lia.
Qed.

Lemma key_char_wf c s : wf s → post (λ r, wf r.2) (key_char c s).
Proof.
  intros Hs. unfold key_char. eapply post_bind; [by apply insert_char_wf | ].
  intros [b s1] (H1 & H2). cbn [fst snd] in *. destruct b; cbn [negb]; [ | by apply post_ret].
  specialize (H2 eq_refl). cbv zeta. destruct (hidden s1); [apply post_ret; cbn [snd]; wf_leaf | ].
  destruct (byte_eqb c Byte.x3f && (e_cursor s1 =? e_l s1)) eqn:E.
  - apply andb_true_iff in E as [_ E]. repeat wf_step. wf_leaf.
  - apply post_ret. cbn [snd]. destruct H1. split; destruct s1; fields; lia || done.
Qed.

Lemma continue_wf m : post wf m → post (λ r, wf r.2) (continue m).
Proof. intros Hm. unfold continue. eapply post_bind; [done | ]. intros s Hs. by apply post_ret. Qed.

Lemma handle_key_wf c s : wf s → post (λ r, wf r.2) (handle_key c s).
Proof.
  intros Hs. unfold handle_key.
  repeat match goal with
    | |- post _ (if ?b then continue _ else _) => destruct b; [apply continue_wf | ]
    | |- post _ (if ?b then _ else _) => destruct b
    end;
    first [ by apply key_erase_wf | by apply key_redraw_wf | by apply key_clear_wf
          | by apply key_kill_wf | by apply key_disable_wf | by apply key_tab_wf
          | by apply key_history_wf | by apply key_left_wf | by apply key_right_wf
          | by apply key_home_wf | by apply key_end_wf | by apply key_char_wf | idtac ].
  - by apply post_ret.
  - apply post_bind with (R := wf); [ | intros s1 H1; by apply post_ret].
    destruct (hidden s); [by apply post_ret | ].
    eapply post_weaken; [apply newline_same | ]. intros s1 H1. by eapply same_line_wf.
  - apply post_ret. cbn [snd]. wf_leaf.
  - apply post_ret. eapply same_line_wf; [apply same_line_emit | done].
  - unfold key_eot. wf_step; [by apply post_ret | ]. wf_step; [by apply post_ret | ].
    repeat wf_step. wf_leaf.
Qed.

Lemma handle_byte_wf c s : wf s → post (λ r, wf r.2) (handle_byte c s).
Proof.
  intros Hs.
  assert (∀ s1, wf s1 → post (λ r, wf r.2) (ansi c s1)) as Hansi.
  { intros s1 H1. unfold ansi. destruct (e_esc s1 =? 0); [by apply handle_key_wf | ].
    destruct (e_esc s1 =? 91); [apply handle_key_wf; wf_leaf | apply post_ret; cbn [snd]; wf_leaf]. }
  assert (∀ t, wf (put_is_telnet_option t s)) as Ht by (intros; wf_leaf).
  unfold handle_byte. cbv zeta.
  repeat match goal with
    | |- post _ (if ?b then _ else _) => destruct b
    end; first [apply Hansi; done | apply post_ret; apply Ht | by apply Hansi].
Qed.

Lemma prompt_same s : post (same_line s) (prompt s).
Proof.
  unfold prompt. wf_step; [ | by apply post_ret].
  apply post_bind with (R := same_line s).
  - destruct (d_state (e_cli s)); try (apply post_ret, same_line_emit).
    all: eapply post_bind; [apply show_prompt_same | ]; intros s1 H1;
      eapply post_bind; [apply post_any | ]; intros t _; apply post_ret;
      eapply same_line_trans; [done | apply same_line_emit].
  - intros s1 H1. apply post_ret. eapply same_line_trans; [done | apply same_line_cli].
Qed.

Lemma inner_step_wf e s : wf s → post (λ r, wf r.2 ∨ r.1 = Break ∧ e_l r.2 < 0) (inner_step e s).
Proof.
  intros Hs. unfold inner_step. eapply post_bind; [apply prompt_same | ].
  intros s1 H1. assert (wf s1) as Hs1 by (by eapply same_line_wf). destruct e.
  - eapply post_weaken; [by apply handle_byte_wf | by left].
  - apply post_ret. by left.
  - apply post_ret. right. split; [done | ]. by destruct s1.
  - destruct (d_regular_callback (e_cli s1)); [ | apply post_ret; by left].
    eapply post_bind; [apply post_any | ]. intros [rc c] _. apply post_ret. left.
    eapply same_line_wf; [apply same_line_cli | done].
  - apply post_ret. right. split; [done | ]. by destruct s1.
Qed.

Lemma start_line_wf s :
  length (e_cmd s) = 4096%nat → 0 ≤ e_oldl s ≤ 4095 → post wf (start_line s).
Proof.
  intros Hc Ho. unfold start_line. cbv zeta. set (s0 := put_cli _ _).
  assert (length (e_cmd s0) = 4096%nat ∧ 0 ≤ e_oldl s0 ≤ 4095) as [Hc0 Ho0].
  { unfold s0. by destruct s. }
  clearbody s0. destruct (e_oldcmd s0); repeat wf_step.
  - unfold same_line in *. destruct s0, a. fields. split; fields; lia.
  - unfold same_line in *. destruct s0, a. fields. split; fields; lia.
Qed.

(** The end of a line changes the session, not the buffer. *)
Lemma handle_line_same f s s' : handle_line s = Ret (f, s') → same_line s s'.
Proof.
  assert (∀ m, post (same_line s) m → post (λ r, same_line s r.2) (continue m)) as Hcont.
  { intros m Hm. eapply post_bind; [done | ]. intros s1 H1. by apply post_ret. }
  assert (∀ s1, same_line s s1 → post (same_line s) (denied s1)) as Hden.
  { intros s1 H1. unfold denied. eapply post_bind; [apply post_any | ]. intros c _. apply post_ret.
    eapply same_line_trans; [done | apply same_line_cli]. }
  assert (∀ s1 c, same_line s s1 → same_line s (put_cli c s1)) as Hcli.
  { intros s1 c H1. eapply same_line_trans; [done | apply same_line_cli]. }
  assert (post (λ r, same_line s r.2) (line_command s)) as Hcmd.
  { unfold line_command. wf_step; [by apply post_ret | ].
    do 4 (eapply post_bind; [apply post_any | intros ? _]). destruct a2 as [rc c].
    apply post_ret. by apply Hcli. }
  cut (post (λ r, same_line s r.2) (handle_line s)).
  { intros Hp Hr. by apply (Hp (f, s')). }
  clear f s'.
  unfold handle_line. do 2 (wf_step; [by apply post_ret | ]).
  destruct (d_state (e_cli s)); [apply Hcont | apply Hcont | done | apply Hcont | done].
  - unfold line_login. wf_step; [by apply post_ret | ].
    eapply post_bind; [apply post_any | ]. intros u _. apply post_ret. by destruct s.
  - unfold line_password. eapply post_bind; [apply post_any | ]. intros p _.
    destruct (e_user s); [ | done]. cbv zeta.
    assert (same_line s (put_pass (Some p) s)) as Hp by (by destruct s).
    apply post_bind with (R := same_line s).
    + wf_step.
      * eapply post_bind; [apply post_any | ]. intros c _. apply post_ret. by apply Hcli.
      * eapply post_bind; [by apply Hden | ]. intros s1 H1. apply post_ret. apply Hcli.
        eapply same_line_trans; [done | ]. by destruct s1.
    + intros s1 H1. apply post_ret. by apply Hcli.
  - unfold line_enable_password. eapply post_bind; [apply post_any | ]. intros p _.
    wf_step; [apply post_ret; by apply Hcli | ].
    eapply post_bind; [by apply Hden | ]. intros s1 H1. apply post_ret. by apply Hcli.
Qed.

(** C38. In every run that is defined, whatever a client types, and whatever the program's callbacks do to the
    session, the line editor's variables keep their types: the buffer its 4096
    bytes, the cursor its place in the line, the line its place in the buffer.  A run that writes outside the
    buffer, which a long line that is cleared does, or that reads outside the history ends
    there and has no state. *)
Theorem session_well_formed s0 es s : wf s0 → run s0 es s → wf s.
Proof.
  intros Hs0 Hr. induction Hr as [ | es e s s' Hr IH Hst | es e s s1 s2 s' Hr IH Hst Hl Hs]; [done | | ].
  - by apply (inner_step_wf e s IH) in Hst as [ | [? _]].
  - assert (length (e_cmd s1) = 4096%nat ∧ 0 ≤ e_oldl s1 ≤ 4095) as [Hc Ho].
    { apply (inner_step_wf e s IH) in Hst as [[] | [_ Hneg]]; [done | ].
      exfalso. unfold handle_line in Hl. cbn [snd] in Hneg.
      by rewrite (proj2 (Z.ltb_lt _ _) Hneg) in Hl. }
    apply handle_line_same in Hl as (H1 & H2 & H3 & H4).
    apply (start_line_wf s2) in Hs; [done | congruence | by rewrite H4].
Qed.
End handlers.

(** ** The theorem at a concrete input *)

Module Witness.
Import CliLoopSpec.Witness.
#[local] Existing Instances CliLoopSpec.Witness.regex CliLoopSpec.Witness.program.

Lemma start_wf : wf start.
Proof.
  pose proof start_shows as Hs. split.
  - exact (shows_length _ _ _ Hs).
  - rewrite (shows_cursor _ _ _ Hs), (shows_l _ _ _ Hs). simpl. lia.
  - rewrite (shows_l _ _ _ Hs). simpl. lia.
  - assert (e_oldl start = 0) as ->; [vm_compute; reflexivity | lia].
Qed.

Lemma session_well_formed_witness : wf start ∧ ∃ s, run start login_events s ∧ wf s.
Proof.
  split; [exact start_wf | ]. destruct login_run as (s & Hr & _). exists s.
  split; [exact Hr | exact (session_well_formed start login_events s start_wf Hr)].
Defined.
End Witness.
