(* ===== verification/Monoboot.v ===== *)
(** monoboot, the boot manager: its configuration and what it remembers of the last
    boot (monoboot.c), its commands (monoboot_cmds.c), the programs it runs
    (monoboot_exec.c), the kernel's command line and the mount table
    (monoboot_util.c), and monoinit (monoinit.c), which runs after the boot. *)

From Stdlib Require Import ZArith Lia String.
From stdpp Require Import base tactics list numbers.
From coqutil Require Import Byte.
From S2P Require Import Prelude Words CMem CString Linuxrc.

#[local] Open Scope Z_scope.

(** ** libconfuse

    The configuration file is read and kept by libconfuse; these are the functions
    that monoboot calls, for the options of mbconf.h, and what their documentation
    says of them.  Names are compared without regard to case. *)

Definition comment_line (l : list byte) : Prop :=
  match l with [] => True | c :: _ => c = Byte.x23 end.

Definition str_options : list (list byte) :=
  map bs ["bootonce"; "tryonce"; "default"; "fallback"; "lasttry"; "lastboot"; "password"]%string.

Class Confuse := {
  cfg_t : Type;
  sec_t : Type;
  cfg_init : cfg_t;
  cfg_parse : list byte → option cfg_t;
  cfg_getint : cfg_t → list byte → Z;
  cfg_getstr : cfg_t → list byte → list byte;
  cfg_setstr : cfg_t → list byte → list byte → cfg_t;
  cfg_sections : cfg_t → list byte → list sec_t;
  cfg_strings : cfg_t → list byte → list (list byte);
  cfg_title : sec_t → list byte;
  sec_getstr : sec_t → list byte → option (list byte);
  getstr_setstr c n v : cfg_getstr (cfg_setstr c n v) n = v;
  getstr_setstr_ne c n n' v :
    strcasecmp n n' ≠ 0 → cfg_getstr (cfg_setstr c n v) n' = cfg_getstr c n';
  sections_setstr c n v k : cfg_sections (cfg_setstr c n v) k = cfg_sections c k;
  init_strings : Forall (λ n, cfg_getstr cfg_init n = bs "none") str_options;
  init_sections k : cfg_sections cfg_init k = [];
  init_delay : cfg_getint cfg_init (bs "delay") = 0;
  parse_comments ls :
    Forall (λ l, comment_line l ∧ newline ∉ l) ls →
    cfg_parse (concat (map (λ l, l ++ [newline]) ls)) = Some cfg_init
}.

(** ** Constants (monoboot.h, monoboot_exec.c) *)

Definition MB_IMAGE_MAX := 32.
Definition MB_CONFIG_MAX := 8000.
Definition MB_TIMESTR_MAX := 200.
Definition MB_PATH_MAX := 200.
Definition MB_CMDLINE_MAX := 255.
Definition MB_CM_MAX : nat := 32.
Definition MB_CM_YES := 0.
Definition MB_CM_NO := 1.
Definition MB_CM_FAIL := 2.
Definition MB_PATH_CONFIG : list byte := bs "monoboot".
Definition MB_PATH_IMAGES : list byte := bs "/images".
Definition KEXEC_BINARY : list byte := bs "/usr/sbin/kexec".
Definition TFTP_BINARY : list byte := bs "/usr/bin/tftp".
Definition IP_BINARY : list byte := bs "/bin/ip".
Definition MOUNT_BINARY : list byte := bs "/bin/mount".
Definition RSYNC_BINARY : list byte := bs "/usr/bin/rsync".
Definition MAXARGS : nat := 31.
Definition MB_CMDLINE_NOPROC := -1.
Definition MB_CMDLINE_PARSE := -2.

(** ** The state

    What the program does to the world outside, in order: the configuration it
    saves, the programs it runs, the process image it replaces itself with. *)

Inductive action :=
| Save (config : list byte)
| Exec (binary : list byte) (args : list (list byte))
| Replace (binary : list byte) (args : list (list byte))
| System (command : list byte)
| Mount (dev dir : list byte).

(** The files mb.conf, mb.conf.new and mb.conf.old in the configuration directory. *)
Record disk := { conf : option (list byte); conf_new : option (list byte); conf_old : option (list byte) }.

(** The answers of the system; what depends on the programs run is a function of the
    actions so far, the last one at the end. *)
Record env := {
  exits_zero : list action → bool;
  proc_mounts : list action → option (list byte);
  read_cmdline : option (list byte);
  cmdline_garbage : list byte;
  stat_ok : list byte → bool;
  can_open_new : bool;
  can_rename : bool;
  timestr : list byte;
  mount_ok : bool
}.

Section monoboot.
Context `{Confuse} (e : env).

Record state := { cfg : cfg_t; files : disk; trace : list action }.

Definition set_cfg (c : cfg_t) (st : state) : state :=
  {| cfg := c; files := files st; trace := trace st |}.
Definition set_files (d : disk) (st : state) : state :=
  {| cfg := cfg st; files := d; trace := trace st |}.
Definition act (a : action) (st : state) : state :=
  {| cfg := cfg st; files := files st; trace := trace st ++ [a] |}.

(** ** monoboot_exec.c *)

(** The arguments up to the null pointer. *)
Fixpoint given_args (args : list (option (list byte))) : list (list byte) :=
  match args with Some a :: args => a :: given_args args | _ => [] end.

(** The result is 0 when the child exits with 0, and 1 otherwise. *)
Definition do_exec (binary : list byte) (args : list (option (list byte))) (st : state) : Z * state :=
  let st := act (Exec binary (take MAXARGS (given_args args))) st in
  (if exits_zero e (trace st) then 0 else 1, st).

Definition exec (binary : list byte) (args : list (list byte)) (st : state) : Z * state :=
  do_exec binary (map Some args) st.

(** [while ( *p != '/') p++], [while ( *p == '/') p++] *)
Definition to_slash (p : list byte) : outcome (list byte) :=
  match strchr p Byte.x2f with Some i => Ret (drop i p) | None => UB "read past a string" end.

Fixpoint past_slashes (p : list byte) : list byte :=
  match p with
  | c :: q => if byte_eqb c Byte.x2f then past_slashes q else p
  | [] => []
  end.

(** The part of a string before a slash that becomes its end. *)
Definition before_slash (p : list byte) : outcome (list byte * list byte) :=
  match strchr p Byte.x2f with
  | Some i => Ret (take i p, drop (S i) p)
  | None => UB "read past a string"
  end.

Definition do_tftp (src dst : list byte) (st : state) : outcome (Z * state) :=
  if (strncmp src (bs "tftp:/") 6 =? 0) && (strncmp dst (bs "disk:/") 6 =? 0) then
    p ← to_slash src;
    '(host, p) ← before_slash (past_slashes p);
    mret (exec TFTP_BINARY [bs "tftp"; host; bs "-v"; bs "-c"; bs "get"; past_slashes p] st)
  else if (strncmp dst (bs "tftp:/") 6 =? 0) && (strncmp src (bs "disk:/") 6 =? 0) then
    p ← to_slash dst;
    '(host, _) ← before_slash (past_slashes p);
    '(_, p) ← before_slash src;
    mret (exec TFTP_BINARY [bs "tftp"; host; bs "-v"; bs "-c"; bs "put"; past_slashes p] st)
  else Ret (1, st).

(** [ret] is not initialised: its first value is [ret0]. *)
Fixpoint netconf_loop (networks : list sec_t) (ret : Z) (st : state) : Z * state :=
  match networks with
  | [] => (ret, st)
  | network :: networks =>
      let iface := cfg_title network in
      let addr := sec_getstr network (bs "address") in
      let gw := sec_getstr network (bs "gateway") in
      let w s := Some (bs s) in
      let '(r1, st) := do_exec IP_BINARY [w "ip"; w "address"; w "flush"; w "dev"; Some iface]%string st in
      let '(r2, st) := do_exec IP_BINARY [w "ip"; w "address"; w "add"; addr; w "dev"; Some iface]%string st in
      let '(r3, st) := do_exec IP_BINARY [w "ip"; w "link"; w "set"; w "eth0"; w "up"]%string st in
      let '(r4, st) := do_exec IP_BINARY [w "ip"; w "route"; w "del"; w "default"]%string st in
      let '(r5, st) := do_exec IP_BINARY [w "ip"; w "route"; w "add"; w "default"; w "via"; gw]%string st in
      netconf_loop networks (ret + r1 + r2 + r3 + r4 + r5) st
  end.

Definition do_netconf (ret0 : Z) (st : state) : Z * state :=
  netconf_loop (cfg_sections (cfg st) (bs "network")) ret0 st.

(** ** monoboot_util.c *)

(** The walk to console=, [k] bytes from the start of the string of [len] bytes: the
    position where it stops.  The string ends in the buffer. *)
Fixpoint find_console (fuel : nat) (cmdline : list byte) (k : nat) : outcome nat :=
  match fuel with
  | O => UB "read past a buffer"
  | S fuel =>
      let p := drop k cmdline in
      if strncmp (bs "console=") p 8 =? 0 then Ret k
      else if Z.of_nat k =? Z.of_nat (length cmdline) - 8 then Ret k
      else if (length cmdline <=? k)%nat then UB "read past a string"
      else find_console fuel cmdline (S k)
  end.

(** Up to the first blank, newline or the end. *)
Fixpoint to_blank (p : list byte) : list byte :=
  match p with
  | c :: p => if byte_eqb c Byte.x20 || byte_eqb c newline then [] else c :: to_blank p
  | [] => []
  end.

(** The bytes read are followed in the array by what was there before. *)
Definition get_kernel_console : outcome (list byte) :=
  match read_cmdline e with
  | None => UB "null pointer"
  | Some bytes =>
      let read := take (Z.to_nat MB_CMDLINE_MAX) bytes in
      match cstr (take (Z.to_nat MB_CMDLINE_MAX) (read ++ cmdline_garbage e)) with
      | None => UB "read past a buffer"
      | Some cmdline =>
          k ← find_console (S (S (length cmdline))) cmdline 0;
          mret (to_blank (drop k cmdline))
      end
  end.

(** The loop over the pieces that [fgets] reads. *)
Fixpoint mounted_loop (fuel : nat) (mountpoint file : list byte) : outcome Z :=
  match fuel with
  | O => Spin
  | S fuel =>
      match fgets MB_CM_MAX file with
      | None => Ret MB_CM_NO
      | Some (readbuf, file) =>
          if strstr (before_nul readbuf) mountpoint then Ret MB_CM_YES else mounted_loop fuel mountpoint file
      end
  end.

Definition check_mounted (mountpoint : list byte) (st : state) : outcome Z :=
  match proc_mounts e (trace st) with
  | None => Ret MB_CM_FAIL
  | Some file => mounted_loop (S (length file)) mountpoint file
  end.

(** Mount something unless it is mounted. *)
Definition mount_unless (mountpoint : list byte) (args : list (list byte)) (st : state) : outcome state :=
  r ← check_mounted mountpoint st;
  if r =? MB_CM_YES then Ret st else mret (exec MOUNT_BINARY args st).2.

(** ** monoboot_cmds.c *)

Definition is_prefix (title tag : list byte) : bool := strncmp title tag (length title) =? 0.

Definition check_image_tag (tag : list byte) (st : state) : bool :=
  existsb (λ image, is_prefix (cfg_title image) tag) (cfg_sections (cfg st) (bs "image")).

(** [sprintf] and [strcpy] into an array of [size] bytes. *)
Definition fits_in_array (size : Z) (s : list byte) : outcome (list byte) :=
  if size <=? Z.of_nat (length s) then UB "write outside an object" else Ret s.

(** What cmd_write leaves in mb.conf. *)
Definition saved_config : list byte :=
  bs "# config saved by monoboot at " ++ timestr e ++ [newline; newline].

Definition cmd_write (st : state) : Z * state :=
  if negb (can_open_new e) then (-1, st)
  else
    let st := act (Save saved_config) st in
    let d := files st in
    let d := {| conf := conf d; conf_new := Some saved_config; conf_old := conf_old d |} in
    let d := match conf d with
             | Some c => if can_rename e
                         then {| conf := None; conf_new := conf_new d; conf_old := Some c |} else d
             | None => d
             end in
    let d := if can_rename e
             then {| conf := conf_new d; conf_new := None; conf_old := conf_old d |} else d in
    (0, set_files d st).

Definition save_config (st : state) : state := (cmd_write st).2.

(** The file of the last image whose title begins the tag; the array keeps what it
    had when there is none. *)
Fixpoint image_filename (images : list sec_t) (tag : list byte) (file : option (list byte))
    : outcome (option (list byte)) :=
  match images with
  | [] => Ret file
  | image :: images =>
      if is_prefix (cfg_title image) tag then
        match sec_getstr image (bs "filename") with
        | None => UB "null pointer"
        | Some f => f ← fits_in_array MB_PATH_MAX f; image_filename images tag (Some f)
        end
      else image_filename images tag file
  end.

(** The tag to boot, [None] when there is no image of the tag asked for. *)
Definition boot_tag (arg : option (list byte)) (st : state) : option (list byte) :=
  match (match arg with
         | Some tag => if check_image_tag tag st then Some tag else None
         | None => Some (cfg_getstr (cfg st) (bs "default"))
         end) with
  | None => None
  | Some tag =>
      Some (if strncmp (cfg_getstr (cfg st) (bs "tryonce")) (bs "yes") 3 =? 0
            then cfg_getstr (cfg st) (bs "bootonce") else tag)
  end.

(** Note the attempt in the configuration and write it. *)
Definition note_attempt (tag : list byte) (st : state) : state :=
  let c := cfg_setstr (cfg st) (bs "lasttry") tag in
  save_config (set_cfg (cfg_setstr c (bs "lastboot") (bs "nil")) st).

(** The argument for kexec. *)
Definition kexec_cmdline (console config_path : list byte) : list byte :=
  bs "--command-line=" ++ console ++ bs " ide=nodma CONFIG=" ++ config_path.

(** [arg] is [cmdline[1]].  [execlp] does not return when it succeeds. *)
Definition cmd_boot (arg : option (list byte)) (st : state) : outcome (Z * state) :=
  match boot_tag arg st with
  | None => Ret (-1, st)
  | Some tag =>
      let st := note_attempt tag st in
      file ← image_filename (cfg_sections (cfg st) (bs "image")) tag None;
      match file with
      | None => UB "read of an uninitialised array"
      | Some image_file =>
          image_path ← fits_in_array MB_PATH_MAX (MB_PATH_IMAGES ++ bs "/" ++ image_file);
          if negb (stat_ok e image_path) then Ret (-1, st)
          else
            config_path ← fits_in_array MB_PATH_MAX (MB_PATH_CONFIG ++ bs "/tag/" ++ tag);
            if negb (stat_ok e config_path) then Ret (-1, st)
            else
              st ← mount_unless (bs "/proc") (map bs ["mount"; "-t"; "proc"; "proc"; "/proc"]%string) st;
              console ← get_kernel_console;
              line ← fits_in_array MB_CMDLINE_MAX (kexec_cmdline console config_path);
              let '(r, st) := exec KEXEC_BINARY [bs "kexec"; line; bs "-l"; image_path] st in
              if negb (r =? 0) then Ret (-1, st)
              else Ret (-1, act (Replace KEXEC_BINARY [bs "kexec"; bs "-e"]) st)
      end
  end.

Definition cmd_copy (arg1 arg2 : option (list byte)) (st : state) : outcome (Z * state) :=
  match arg1, arg2 with
  | Some a, Some b =>
      if (strncmp a (bs "tftp") 4 =? 0) || (strncmp b (bs "tftp") 4 =? 0) then
        '(_, st) ← do_tftp a b st;
        mret (0, st)
      else Ret (0, st)
  | _, _ => Ret (0, st)
  end.

Definition cmd_shell (st : state) : Z * state :=
  let '(_, st) := exec (bs "/bin/ash") [bs "ash"] st in (0, st).

Definition cmd_conf (st : state) : Z * state := (0, st).

(** ** monoboot.c *)

Definition load_config (file : option (list byte)) : outcome cfg_t :=
  match file with
  | None => Die "mb.conf"
  | Some text => match cfg_parse text with
                 | Some c => Ret c
                 | None => Die "parse error on mb.conf"
                 end
  end.

(** The result, the image to boot and the configuration after. *)
Definition check_last (c : cfg_t) : outcome (Z * list byte * cfg_t) :=
  let c := cfg_setstr c (bs "tryonce") (bs "no") in
  if negb (strcmp (cfg_getstr c (bs "lasttry")) (cfg_getstr c (bs "lastboot")) =? 0) then
    image ← fits_in_array MB_IMAGE_MAX (cfg_getstr c (bs "fallback"));
    mret (0, image, c)
  else
    image ← fits_in_array MB_IMAGE_MAX (cfg_getstr c (bs "default"));
    mret (1, image, c).

(** The loop of [get_keypress]: what [getchar] reads in each second, 0 when the alarm
    comes first.  The result is 0 for a key and 1 when the time is over. *)
Fixpoint keypress_loop (keys : list Z) (delay : Z) : Z :=
  if delay =? 0 then 1
  else match keys with
       | [] => 1
       | c :: keys => if c =? 0 then keypress_loop keys (delay - 1) else 0
       end.

Definition get_keypress (keys : list Z) (delay : Z) : Z := keypress_loop keys delay.

(** How [main] goes on after the configuration is loaded. *)
Inductive ending :=
| Network (result : Z)
| Interact
| Booted (result : Z).

Definition mount_partition (dir : list byte) (st : state) : outcome state :=
  mount_unless dir [bs "mount"; dir] st.

(** [name] is [basename (argv[0])]; [keys] what is typed and [ret0] the first value of
    do_netconf's variable. *)
Definition main (name : list byte) (keys : list Z) (ret0 : Z) (d : disk) : outcome (ending * state) :=
  let st := {| cfg := cfg_init; files := d; trace := [] |} in
  st ← mount_partition MB_PATH_CONFIG st;
  st ← mount_partition MB_PATH_IMAGES st;
  c ← load_config (conf d);
  let st := set_cfg c st in
  if strncmp name (bs "mbnet") 5 =? 0 then
    let '(r, st) := do_netconf ret0 st in Ret (Network r, st)
  else
    let interact :=
      if strncmp name (bs "mbsh") 4 =? 0 then true
      else if strncmp name (bs "monoboot") 8 =? 0 then
        get_keypress keys (cfg_getint c (bs "delay")) =? 0
      else true in
    '(_, bootimage, c) ← check_last c;
    let st := set_cfg c st in
    if interact then Ret (Interact, st)
    else
      '(r, st) ← cmd_boot (Some bootimage) st;
      mret (Booted r, st).

(** ** monoinit.c *)

(** The image file, the configuration path and the configuration device on the
    command line, or the error. *)
Definition parse_cmdline (file : option (list byte)) : outcome (list byte * list byte * list byte + Z) :=
  match file with
  | None => Ret (inr MB_CMDLINE_NOPROC)
  | Some file =>
      match fgets (Z.to_nat MB_CMDLINE_MAX) file with
      | None => Ret (inr MB_CMDLINE_NOPROC)
      | Some (cmdline, _) =>
          i ← get_cmdline_var cmdline (bs "IMAGE");
          match i with
          | None => Ret (inr MB_CMDLINE_PARSE)
          | Some imagefile =>
              imagefile ← fits_in_array MB_PATH_MAX imagefile;
              p ← get_cmdline_var cmdline (bs "CONFIG");
              match p with
              | None => Ret (inr MB_CMDLINE_PARSE)
              | Some configpath =>
                  configpath ← fits_in_array MB_PATH_MAX configpath;
                  d ← get_cmdline_var cmdline (bs "CDEV");
                  match d with
                  | None => Ret (inr MB_CMDLINE_PARSE)
                  | Some value =>
                      configdev ← fits_in_array MB_PATH_MAX (bs "/dev/" ++ value);
                      Ret (if bool_decide (imagefile = []) then inr MB_CMDLINE_PARSE
                           else inl (imagefile, configpath, configdev))
                  end
              end
          end
      end
  end.

(** The loop that finds the image that was booted and notes it. *)
Fixpoint note_boot (images : list sec_t) (image : list byte) (c : cfg_t) : outcome cfg_t :=
  match images with
  | [] => Ret c
  | s :: images =>
      match sec_getstr s (bs "filename") with
      | None => UB "null pointer"
      | Some filename =>
          if strncmp filename image (length image) =? 0
          then Ret (cfg_setstr c (bs "lastboot") (cfg_title s))
          else note_boot images image c
      end
  end.

(** The exit status and the state at the end. *)
Definition monoinit (cmdline : option (list byte)) (d : disk) : outcome (Z * state) :=
  r ← parse_cmdline cmdline;
  match r with
  | inr _ => Ret (1, {| cfg := cfg_init; files := d; trace := [] |})
  | inl (image, cpath, cdev) =>
      c ← load_config (conf d);
      let st := {| cfg := c; files := d; trace := [Mount cdev (bs "/config")] |} in
      c ← note_boot (cfg_sections c (bs "image")) image c;
      let st := save_config (set_cfg c st) in
      let '(_, st) := exec MOUNT_BINARY (map bs ["mount"; "-t"; "tmpfs"; "tmpfs"; "/etc"]%string) st in
      command ← fits_in_array MB_CMDLINE_MAX (RSYNC_BINARY ++ bs " -rt " ++ cpath ++ bs "/etc/ /etc/");
      mret (0, act (System command) st)
  end.
End monoboot.
