(* ===== verification/MonobootSpec.v ===== *)
(** monoboot: what a boot does and in which order, which image the program chooses,
    what saving the configuration leaves of it, and what linuxrc makes of the command
    line that monoboot wrote. *)

From Stdlib Require Import ZArith Lia String.
From stdpp Require Import base tactics list numbers gmap.
From coqutil Require Import Byte.
From S2P Require Import Prelude Words CMem CString Struct Uuid Segments Elf ElfRel Kexec KexecX86 X86Linux Monoimage Linuxrc BootSpec Monoboot.

#[local] Open Scope Z_scope.

(** ** The mount table *)

Lemma fgets_bytes_split : ∀ s n, (fgets_bytes n s).1 ++ (fgets_bytes n s).2 = s.
Proof.
  induction s as [|c s IH]; intros [|n]; simpl; try done.
  case_if; [done | ]. specialize (IH n). destruct (fgets_bytes n s) as [l rest]; simpl in *. by rewrite IH.
Qed.

(** A piece that is read is not empty. *)
Lemma fgets_shorter n s l rest : (1 < n)%nat → fgets n s = Some (l, rest) → (length rest < length s)%nat.
Proof.
  intros Hn. destruct s as [|c s]; [done | ]. unfold fgets. intros [= Hg].
  pose proof (fgets_bytes_split (c :: s) (n - 1)) as Hs. rewrite Hg in Hs. cbn [fst snd] in Hs.
  assert (l ≠ []) as Hl.
  { destruct (n - 1)%nat as [|k] eqn:E; [lia | ]. simpl in Hg. case_if_in Hg; [by injection Hg as <- | ].
    destruct (fgets_bytes k s). by injection Hg as <-. }
  apply (f_equal length) in Hs. rewrite length_app in Hs. destruct l; [done | simpl in *; lia].
Qed.

(** The pieces that the loop of [check_mounted] looks at. *)
Inductive piece : list byte → list byte → Prop :=
| piece_here file l rest : fgets MB_CM_MAX file = Some (l, rest) → piece file l
| piece_later file l rest p : fgets MB_CM_MAX file = Some (l, rest) → piece rest p → piece file p.

(** The table is searched to the end: the answer is yes exactly when the name occurs
    in one of its pieces. *)
Lemma mounted_loop_spec mountpoint : ∀ fuel file, (length file < fuel)%nat →
  ∃ r, mounted_loop fuel mountpoint file = Ret r ∧ r ≠ MB_CM_FAIL ∧
    (r = MB_CM_YES ↔ ∃ p i, piece file p ∧ strstr (before_nul p) mountpoint = Some i).
Proof.
  induction fuel as [|fuel IH]; intros file Hf; [lia | ]. cbn [mounted_loop].
  destruct (fgets MB_CM_MAX file) as [[l rest]|] eqn:E.
  - destruct (strstr (before_nul l) mountpoint) as [i|] eqn:Es.
    + exists MB_CM_YES. split; [done | ]. split; [done | ]. split; [ | done].
      intros _. exists l, i. split; [by eapply piece_here | done].
    + destruct (IH rest) as (r & Hr & Hne & Hiff).
      { pose proof (fgets_shorter MB_CM_MAX _ _ _ ltac:(unfold MB_CM_MAX; lia) E). lia. }
      exists r. split; [done | ]. split; [done | ]. rewrite Hiff. split.
      * intros (p & i & Hp & Hi). exists p, i. split; [by eapply piece_later | done].
      * intros (p & i & Hp & Hi). inversion Hp as [f l' rest' E' | f l' rest' p' E' Hp']; subst.
        -- congruence.
        -- replace rest' with rest in Hp' by congruence. by exists p, i.
  - exists MB_CM_NO. split; [done | ]. split; [done | ]. split; [done | ].
    intros (p & i & Hp & _). inversion Hp; congruence.
Qed.

Section monoboot.
Context `{Confuse} (e : env).

Lemma check_mounted_returns mountpoint st : ∃ r, check_mounted e mountpoint st = Ret r.
Proof.
  unfold check_mounted. destruct (proc_mounts e (trace st)) as [file|]; [ | by eexists].
  destruct (mounted_loop_spec mountpoint (S (length file)) file) as (r & Hr & _); [lia | by exists r].
Qed.

(** Nothing but the mount, if anything, is done. *)
Lemma mount_unless_spec mountpoint args st :
  ∃ mounts, mount_unless e mountpoint args st = Ret {| cfg := cfg st; files := files st; trace := trace st ++ mounts |} ∧
    (mounts = [] ∨ mounts = [Exec MOUNT_BINARY (take MAXARGS args)]).
Proof.
  destruct (check_mounted_returns mountpoint st) as [r Hr]. unfold mount_unless. rewrite Hr, bind_Ret_l.
  case_if.
  - exists []. rewrite app_nil_r. split; [by destruct st | by left].
  - exists [Exec MOUNT_BINARY (take MAXARGS args)]. split; [ | by right].
    unfold exec, do_exec. assert (∀ l, given_args (map Some l) = l) as ->
      by (induction l; simpl; congruence). done.
Qed.

(** ** Booting an image *)

(** The image that is booted: the last one whose title begins the tag. *)
Definition chosen_image (tag : list byte) (images : list sec_t) : option sec_t :=
  last (filter (λ s, is_prefix (cfg_title s) tag = true) images).

Lemma fits_in_array_Ret size s r : fits_in_array size s = Ret r → r = s ∧ Z.of_nat (length s) < size.
Proof. unfold fits_in_array. destruct (Z.leb_spec size (Z.of_nat (length s))); [done | ]. by intros [= <-]. Qed.

Lemma image_filename_chosen tag : ∀ images file r, image_filename images tag file = Ret r →
  r = match chosen_image tag images with Some s => sec_getstr s (bs "filename") | None => file end.
Proof.
  unfold chosen_image. induction images as [|s images IH]; intros file r; cbn [image_filename filter].
  - by intros [= <-].
  - rewrite filter_cons. destruct (is_prefix (cfg_title s) tag) eqn:E.
    + rewrite decide_True by done. destruct (sec_getstr s (bs "filename")) as [f|] eqn:Ef; [ | done].
      intros (f' & [-> _]%fits_in_array_Ret & Hr)%bind_Ret. apply IH in Hr. rewrite Hr.
      destruct (filter _ images) as [|s' l]; [done | ]. change (last (s :: s' :: l)) with (last (s' :: l)).
      destruct (last (s' :: l)) eqn:El; [done | by apply last_None in El].
    + rewrite decide_False by done. apply IH.
Qed.

Lemma check_image_tag_chosen tag st :
  check_image_tag tag st = true ↔ is_Some (chosen_image tag (cfg_sections (cfg st) (bs "image"))).
Proof.
  unfold check_image_tag, chosen_image. rewrite existsb_exists, last_is_Some. split.
  - intros (s & Hs & Ht) Hnil. apply list_elem_of_In in Hs.
    by apply (filter_nil_not_elem_of _ _ _ Hnil) in Ht.
  - intros Hne. destruct (filter _ _) as [|s l] eqn:E; [done | ].
    assert (s ∈ s :: l) as Hs by left. rewrite <- E in Hs. apply list_elem_of_filter in Hs as [? ?].
    exists s. by rewrite <- list_elem_of_In.
Qed.

Lemma cfg_note_attempt tag st :
  cfg (note_attempt e tag st) = cfg_setstr (cfg_setstr (cfg st) (bs "lasttry") tag) (bs "lastboot") (bs "nil").
Proof. unfold note_attempt, save_config, cmd_write. by destruct (can_open_new e). Qed.

Lemma images_note_attempt tag st k : cfg_sections (cfg (note_attempt e tag st)) k = cfg_sections (cfg st) k.
Proof. by rewrite cfg_note_attempt, !sections_setstr. Qed.

(** The arguments that [cmd_boot] gives to kexec. *)
Definition kexec_load (line image_path : list byte) : action :=
  Exec KEXEC_BINARY [bs "kexec"; line; bs "-l"; image_path].
Definition kexec_exec : action := Replace KEXEC_BINARY [bs "kexec"; bs "-e"].

(** An image of a tag: one whose title begins the tag. *)
Definition has_image (tag : list byte) (c : cfg_t) : Prop :=
  ∃ s, s ∈ cfg_sections c (bs "image") ∧ is_prefix (cfg_title s) tag = true.

(** The tag that is booted: the one asked for, when it has an image, or the default; with
    tryonce yes, the one of bootonce instead of either. *)
Definition tag_booted (arg : option (list byte)) (c : cfg_t) (tag : list byte) : Prop :=
  (∀ t, arg = Some t → has_image t c) ∧
  tag = if strncmp (cfg_getstr c (bs "tryonce")) (bs "yes") 3 =? 0 then cfg_getstr c (bs "bootonce")
        else default (cfg_getstr c (bs "default")) arg.

(** The attempt in the configuration: lasttry and lastboot are set, and nothing else is. *)
Definition attempt_noted (tag : list byte) (c c' : cfg_t) : Prop :=
  cfg_getstr c' (bs "lasttry") = tag ∧ cfg_getstr c' (bs "lastboot") = bs "nil" ∧
  (∀ n, strcasecmp (bs "lasttry") n ≠ 0 → strcasecmp (bs "lastboot") n ≠ 0 → cfg_getstr c' n = cfg_getstr c n) ∧
  ∀ k, cfg_sections c' k = cfg_sections c k.

(** All that is written of the configuration. *)
Definition comment : list byte := bs "# config saved by monoboot at " ++ timestr e ++ [newline; newline].

(** The files after the configuration is saved: mb.conf has the comment and mb.conf.old what
    mb.conf had. *)
Definition comment_saved (d d' : disk) : Prop :=
  if negb (can_open_new e) then d' = d
  else if can_rename e then conf d' = Some comment ∧ conf_new d' = None ∧
    conf_old d' = match conf d with Some c => Some c | None => conf_old d end
  else conf d' = conf d ∧ conf_new d' = Some comment ∧ conf_old d' = conf_old d.

Definition save_action : list action := if can_open_new e then [Save comment] else [].

Lemma note_attempt_spec tag st :
  attempt_noted tag (cfg st) (cfg (note_attempt e tag st)) ∧
  comment_saved (files st) (files (note_attempt e tag st)) ∧
  trace (note_attempt e tag st) = trace st ++ save_action.
Proof.
  split; [ | split].
  - rewrite cfg_note_attempt. repeat split.
    + by rewrite getstr_setstr_ne, getstr_setstr by (vm_compute; discriminate).
    + apply getstr_setstr.
    + intros n H1 H2. by rewrite !getstr_setstr_ne.
    + intros k. by rewrite !sections_setstr.
  - unfold note_attempt, save_config, cmd_write, comment_saved. destruct (can_open_new e); [ | done].
    cbn [negb snd set_files act files set_cfg conf]. by destruct (can_rename e), (conf (files st)).
  - unfold note_attempt, save_config, cmd_write, save_action.
    destruct (can_open_new e); cbn [negb snd set_files act trace set_cfg]; [done | by rewrite app_nil_r].
Qed.

Lemma boot_tag_spec arg st :
  match boot_tag arg st with
  | None => ∃ t, arg = Some t ∧ ¬ has_image t (cfg st)
  | Some tag => tag_booted arg (cfg st) tag
  end.
Proof.
  assert (∀ t, check_image_tag t st = true ↔ has_image t (cfg st)) as Hc.
  { intros t. unfold check_image_tag, has_image. rewrite existsb_exists.
    split; intros (s & Hs & Ht); exists s; [by rewrite list_elem_of_In | by rewrite <- list_elem_of_In]. }
  unfold boot_tag, tag_booted. destruct arg as [t|]; [ | by split].
  destruct (check_image_tag t st) eqn:E.
  - split; [intros ? [= <-]; by apply Hc | done].
  - exists t. split; [done | ]. intros Ht. apply Hc in Ht. congruence.
Qed.

(** A tag that is booted: its attempt is noted, its files are looked for, and only a
    kernel that was loaded is started. *)
Definition boots (tag : list byte) (st st' : state) : Prop :=
  attempt_noted tag (cfg st) (cfg st') ∧ comment_saved (files st) (files st') ∧
  ∃ s file, chosen_image tag (cfg_sections (cfg st) (bs "image")) = Some s ∧
    sec_getstr s (bs "filename") = Some file ∧
    let image_path := MB_PATH_IMAGES ++ bs "/" ++ file in
    let config_path := MB_PATH_CONFIG ++ bs "/tag/" ++ tag in
    if negb (stat_ok e image_path && stat_ok e config_path) then trace st' = trace st ++ save_action
    else ∃ mounts console,
      (mounts = [] ∨ mounts = [Exec MOUNT_BINARY (map bs ["mount"; "-t"; "proc"; "proc"; "/proc"]%string)]) ∧
      get_kernel_console e = Ret console ∧
      let before := trace st ++ save_action ++ mounts
        ++ [kexec_load (bs "--command-line=" ++ console ++ bs " ide=nodma CONFIG=" ++ config_path) image_path] in
      trace st' = before ++ if exits_zero e before then [kexec_exec] else [].

(** C20: whatever cmd_boot is asked for, its result is -1.  A tag without an image changes
    nothing.  Otherwise lasttry is set to the tag and lastboot to nil in the configuration in
    memory, and mb.conf is written before anything else is done; all that is written is a comment,
    so that the attempt is not kept over the boot.  Then, when the file of the last image
    whose title begins the tag and the tag's configuration exist, /proc is mounted if
    need be, kexec loads exactly that file, and kexec -e follows exactly when that
    succeeded. *)
Theorem cmd_boot_correct arg st r st' :
  cmd_boot e arg st = Ret (r, st') →
  r = -1 ∧ ((∃ t, arg = Some t ∧ ¬ has_image t (cfg st)) ∧ st' = st ∨
            ∃ tag, tag_booted arg (cfg st) tag ∧ boots tag st st').
Proof.
  unfold cmd_boot. pose proof (boot_tag_spec arg st) as Htag.
  destruct (boot_tag arg st) as [tag|]; [ | intros [= <- <-]; split; [done | by left]].
  intros (file & Hfile & Hb)%bind_Ret. apply image_filename_chosen in Hfile. rewrite images_note_attempt in Hfile.
  destruct (note_attempt_spec tag st) as (Hc & Hd & Ht). set (noted := note_attempt e tag st) in *.
  cut (r = -1 ∧ boots tag st st'); [intros [-> Hbo]; split; [done | right; by exists tag] | ]. clear Htag. unfold boots.
  destruct (chosen_image tag _) as [s|]; [ | by subst file].
  destruct file as [file|]; [ | done]. symmetry in Hfile.
  apply bind_Ret in Hb as (ip & [-> _]%fits_in_array_Ret & Hb). destruct (stat_ok e (MB_PATH_IMAGES ++ _)) eqn:Ei.
  2: { injection Hb as <- <-. split; [done | ]. do 2 (split; [done | ]). exists s, file. by rewrite Ei. }
  apply bind_Ret in Hb as (cp & [-> _]%fits_in_array_Ret & Hb). destruct (stat_ok e (MB_PATH_CONFIG ++ _)) eqn:Ec.
  2: { injection Hb as <- <-. split; [done | ]. do 2 (split; [done | ]). exists s, file. cbv zeta. by rewrite Ei. }
  cbn [negb] in Hb.
  destruct (mount_unless_spec (bs "/proc") (map bs ["mount"; "-t"; "proc"; "proc"; "/proc"]%string) noted)
    as (mounts & Hm & Hms).
  rewrite Hm, bind_Ret_l in Hb. apply bind_Ret in Hb as (console & Hco & Hb).
  apply bind_Ret in Hb as (line & [-> _]%fits_in_array_Ret & Hb).
  assert (r = -1 ∧ cfg st' = cfg noted ∧ files st' = files noted ∧
    let before := trace noted ++ mounts ++ [kexec_load (kexec_cmdline console (MB_PATH_CONFIG ++ bs "/tag/" ++ tag))
      (MB_PATH_IMAGES ++ bs "/" ++ file)] in
    trace st' = before ++ if exits_zero e before then [kexec_exec] else []) as (Hr & -> & -> & H3).
  { unfold exec, do_exec in Hb. cbn [given_args map] in Hb. rewrite take_ge in Hb by (unfold MAXARGS; simpl; lia).
    unfold act in Hb. cbn [trace cfg files] in Hb. rewrite <- app_assoc in Hb. unfold kexec_load. cbv zeta.
    destruct (exits_zero e _); injection Hb as <- <-; cbn [trace cfg files]; by rewrite ?app_nil_r. }
  rewrite Ht, <- app_assoc in H3.
  split; [done | ]. do 2 (split; [done | ]). exists s, file. split; [done | ]. split; [done | ]. cbv zeta. rewrite Ei.
  by exists mounts, console.
Qed.

(** ** Choosing the image *)

(** The image to boot after the last attempt. *)
Definition next_image (c : cfg_t) : list byte :=
  if strcmp (cfg_getstr c (bs "lasttry")) (cfg_getstr c (bs "lastboot")) =? 0
  then cfg_getstr c (bs "default") else cfg_getstr c (bs "fallback").

(** What is done before the configuration is read. *)
Definition mounting (a : action) : Prop := ∃ args, a = Exec MOUNT_BINARY args.

Lemma getstr_tryonce c n : strcasecmp (bs "tryonce") n ≠ 0 →
  cfg_getstr (cfg_setstr c (bs "tryonce") (bs "no")) n = cfg_getstr c n.
Proof. apply getstr_setstr_ne. Qed.

Lemma check_last_spec c r image c' : check_last c = Ret (r, image, c') →
  image = next_image c ∧ c' = cfg_setstr c (bs "tryonce") (bs "no").
Proof.
  unfold check_last, next_image. cbv zeta. rewrite !getstr_tryonce by (vm_compute; discriminate).
  destruct (strcmp _ _ =? 0); cbn [negb]; intros (i & [-> _]%fits_in_array_Ret & [= <- <- <-])%bind_Ret; done.
Qed.

(** The start of [main] always comes to the configuration. *)
Lemma main_mounts d : ∃ mounts, Forall mounting mounts ∧
  (st ← mount_partition e MB_PATH_CONFIG {| cfg := cfg_init; files := d; trace := [] |};
   mount_partition e MB_PATH_IMAGES st) = Ret {| cfg := cfg_init; files := d; trace := mounts |}.
Proof.
  unfold mount_partition.
  destruct (mount_unless_spec MB_PATH_CONFIG [bs "mount"; MB_PATH_CONFIG] {| cfg := cfg_init; files := d; trace := [] |})
    as (m1 & -> & H1). rewrite bind_Ret_l. cbn [cfg files trace app].
  destruct (mount_unless_spec MB_PATH_IMAGES [bs "mount"; MB_PATH_IMAGES] {| cfg := cfg_init; files := d; trace := m1 |})
    as (m2 & -> & H2). exists (m1 ++ m2). split; [ | done].
  apply Forall_app; split; [destruct H1 as [-> | ->] | destruct H2 as [-> | ->]];
    repeat first [apply List.Forall_nil | apply List.Forall_cons]; by eexists.
Qed.

(** C40: when monoboot boots by itself, the image is the default one if the image that
    was tried last is the one that booted last, and the fallback otherwise.  The
    one-time choice of bootonce is never used: the program clears tryonce before it
    looks at it. *)
Theorem main_boots name keys ret0 d r st' :
  main e name keys ret0 d = Ret (Booted r, st') →
  ∃ text c mounts, conf d = Some text ∧ cfg_parse text = Some c ∧ Forall mounting mounts ∧
    let image := next_image c in
    let st := {| cfg := cfg_setstr c (bs "tryonce") (bs "no"); files := d; trace := mounts |} in
    boot_tag (Some image) st = (if check_image_tag image st then Some image else None) ∧
    cmd_boot e (Some image) st = Ret (r, st').
Proof.
  destruct (main_mounts d) as (mounts & Hms & Hm). unfold main. intros (st1 & H1 & Hb)%bind_Ret.
  rewrite H1, bind_Ret_l in Hm. rewrite Hm, bind_Ret_l in Hb. cbv zeta in Hb.
  unfold load_config in Hb. destruct (conf d) as [text|]; [ | done].
  destruct (cfg_parse text) as [c|] eqn:Ec; [ | done]. rewrite bind_Ret_l in Hb.
  destruct (strncmp name (bs "mbnet") 5 =? 0).
  { destruct (do_netconf _ _ _); discriminate Hb. }
  apply bind_Ret in Hb as ([[? image] c'] & [-> ->]%check_last_spec & Hb).
  destruct (if strncmp name (bs "mbsh") 4 =? 0 then true else _); [discriminate Hb | ].
  apply bind_Ret in Hb as ([r' st2] & Hb & [= -> ->]). unfold set_cfg in Hb. cbn [cfg files trace] in Hb.
  exists text, c, mounts. do 3 (split; [done | ]). cbv zeta. split; [ | done].
  unfold boot_tag. case_if; [ | done]. cbn [cfg]. by rewrite getstr_setstr.
Qed.

(** ** Saving the configuration *)

Lemma saved_config_comments : newline ∉ timestr e → cfg_parse (saved_config e) = Some cfg_init.
Proof.
  intros Hn. pose proof (parse_comments [bs "# config saved by monoboot at " ++ timestr e; []]) as Hp.
  rewrite <- Hp.
  - f_equal. unfold saved_config. simpl. by rewrite <- !app_assoc.
  - repeat apply List.Forall_cons; [ | | apply List.Forall_nil]; (split; [done | ]).
    + rewrite not_elem_of_app. split; [decided | done].
    + apply not_elem_of_nil.
Qed.

Lemma init_getstr n : n ∈ str_options → cfg_getstr cfg_init n = bs "none".
Proof. pose proof init_strings as Hi. rewrite List.Forall_forall in Hi. intros Hn. by apply Hi, list_elem_of_In. Qed.
End monoboot.

(** C21: a configuration that is saved is lost: mb.conf holds a comment only, the images,
    the networks and the choice of the image are those of an empty configuration, and
    the next run of monoboot, under any answers of the system, boots nothing. *)
Theorem config_lost `{Confuse} (e e' : env) (st : state) keys ret0 :
  can_open_new e = true → can_rename e = true → newline ∉ timestr e →
  let saved := files (save_config e st) in
  (∀ old, conf (files st) = Some old → conf_old saved = Some old) ∧
  load_config (conf saved) = Ret cfg_init ∧
  ∃ st', main e' (bs "monoboot") keys ret0 saved = Ret (Booted (-1), st') ∧
    files st' = saved ∧ Forall mounting (trace st').
Proof.
  intros Ho Hr Hn. cbv zeta.
  assert (files (save_config e st) = {| conf := Some (saved_config e); conf_new := None;
    conf_old := match conf (files st) with Some c => Some c | None => conf_old (files st) end |}) as Hf.
  { unfold save_config, cmd_write. rewrite Ho, Hr. unfold act. cbn [negb files cfg trace conf snd].
    by destruct (conf (files st)). }
  rewrite Hf. cbn [conf conf_old]. split; [by intros old -> | ].
  assert (load_config (Some (saved_config e)) = Ret cfg_init) as Hl
    by (unfold load_config; by rewrite saved_config_comments).
  split; [exact Hl | ]. set (d := {| conf := _; conf_new := _; conf_old := _ |}).
  destruct (main_mounts e' d) as (mounts & Hms & Hm).
  exists {| cfg := cfg_setstr cfg_init (bs "tryonce") (bs "no"); files := d; trace := mounts |}.
  split; [ | done]. unfold main.
  destruct (mount_partition e' MB_PATH_CONFIG _) as [st1| | | ]; try discriminate Hm.
  rewrite bind_Ret_l in Hm. rewrite bind_Ret_l, Hm, bind_Ret_l. change (conf d) with (Some (saved_config e)).
  rewrite Hl, bind_Ret_l. change (strncmp (bs "monoboot") (bs "mbnet") 5 =? 0) with false.
  change (strncmp (bs "monoboot") (bs "mbsh") 4 =? 0) with false.
  change (strncmp (bs "monoboot") (bs "monoboot") 8 =? 0) with true. cbn [andb].
  rewrite init_delay. assert (get_keypress keys 0 = 1) as -> by (by destruct keys).
  change (1 =? 0) with false.
  unfold check_last. cbv zeta. rewrite !getstr_tryonce by (vm_compute; discriminate).
  rewrite !init_getstr by decided. change (strcmp (bs "none") (bs "none") =? 0) with true. cbn [negb].
  change (fits_in_array MB_IMAGE_MAX (bs "none")) with (Ret (bs "none")). rewrite !bind_Ret_l.
  unfold cmd_boot, boot_tag, check_image_tag. cbn [cfg set_cfg].
  by rewrite sections_setstr, init_sections.
Qed.

(** ** The command line after the boot *)

(** The options that cmd_boot gives have no --config, and without it the loader of
    images refuses. *)
Lemma fold_options_config opts : ∀ o o',
  fold_options monoimage_option opts o = Some o' → Forall (λ opt, opt.1 ≠ OPT_CONFIG) opts →
  mo_config o' = mo_config o.
Proof.
  induction opts as [|[opt arg] opts IH]; intros o o'; cbn [fold_options]; [by intros [= <-] | ].
  destruct (monoimage_option o opt arg) as [o1|] eqn:E; [ | done]. intros Hf [Hne Hall]%Forall_cons_1.
  rewrite (IH _ _ Hf Hall). revert E. unfold monoimage_option. simpl in Hne.
  repeat case_if; try done; try (by intros [= <-]). zbool. done.
Qed.

Lemma monoimage_needs_config purgatory garbage ranges sys sg opts lay argv buf kbuf m info :
  Forall (λ opt, opt.1 ≠ OPT_CONFIG) opts →
  monoimage_load purgatory garbage ranges sys sg opts lay argv buf kbuf m info = Ret (-1, m, info).
Proof.
  intros Hall. unfold monoimage_load. destruct (fold_options _ _ _) as [o|] eqn:E; [ | done].
  by rewrite (fold_options_config _ _ _ E Hall).
Qed.

(** What cmd_boot has kexec append to the command line. *)
Definition appended (console config_path : list byte) : list byte :=
  console ++ bs " ide=nodma CONFIG=" ++ config_path.

Lemma kexec_cmdline_appended console config_path :
  kexec_cmdline console config_path = bs "--command-line=" ++ appended console config_path.
Proof. done. Qed.

(** monoboot's CONFIG= does not work with linuxrc.  kexec puts what monoboot
    appends before its own variables, and linuxrc, which looks for the letters F, I
    and C anywhere in the line, takes all three from the word CONFIG: it looks for an
    image named G= and the path of the configuration. *)
Theorem monoboot_line_misread mc console tag path iu cu line :
  let config_path := MB_PATH_CONFIG ++ bs "/tag/" ++ tag in
  without letters console → blank ∉ tag →
  command_line (Some (appended console config_path)) path iu cu = Ret line →
  newline ∉ line → Z.of_nat (length line) ≤ 230 →
  proc_cmdline mc = Some (line ++ [newline]) →
  Linuxrc.read_cmdline mc =
    Ret (bs "/images/G=" ++ config_path, bs "=" ++ config_path, bs "NFIG=" ++ config_path).
Proof.
  intros config_path Hc Ht [Hline _]%command_line_Ret Hn Hlen Hpc.
  set (rest := bs "F=" ++ path ++ bs " I=" ++ iu ++ bs " C=" ++ cu ++ [newline]).
  set (pre := bs "root=/dev/loop0 ro " ++ console ++ bs " ide=nodma ").
  assert (line ++ [newline] = pre ++ bs "CONFIG=" ++ config_path ++ blank :: rest) as Hl.
  { rewrite Hline. unfold before_vars, appended, pre, rest. by rewrite <- !app_assoc. }
  assert (∀ c, c ∈ letters → c ∉ bs "root=/dev/loop0 ro " → c ∉ bs " ide=nodma " → c ∉ pre) as Hpre.
  { intros c Hin H1 H2. unfold pre. rewrite !not_elem_of_app. split; [done | ]. split; [ | done].
    by apply (without_in letters). }
  assert (blank ∉ config_path) as Hbc.
  { unfold config_path. rewrite !not_elem_of_app. split; [decided | ]. split; [decided | done]. }
  assert (Z.of_nat (length config_path) ≤ 200) as Hlc.
  { apply (f_equal length) in Hl. rewrite !length_app in Hl. cbn [length] in Hl.
    unfold pre in Hl. rewrite !length_app in Hl.
    change (length (bs "root=/dev/loop0 ro ")) with 19%nat in Hl.
    change (length (bs " ide=nodma ")) with 11%nat in Hl.
    change (length (bs "CONFIG=")) with 7%nat in Hl. lia. }
  assert (fgets (Z.to_nat BUF_MAX) (line ++ [newline]) = Some (line ++ [newline], [])) as Hg.
  { unfold fgets. rewrite fgets_bytes_line; [by destruct line | done | ]. change (Z.to_nat BUF_MAX - 1)%nat with 255%nat. lia. }
  assert (get_cmdline_var (line ++ [newline]) (bs "F") = Ret (Some (bs "G=" ++ config_path))) as HF.
  { rewrite Hl. pose proof (get_var_at (pre ++ bs "CON") Byte.x46 Byte.x49 (bs "G=" ++ config_path) blank rest) as Hv.
    rewrite <- Hv; [f_equal; by rewrite <- !app_assoc | | done | done | done | done | | by left].
    - rewrite not_elem_of_app. split; [apply Hpre; decided | decided].
    - rewrite not_elem_of_app. split; [decided | done]. }
  assert (get_cmdline_var (line ++ [newline]) (bs "I") = Ret (Some (bs "=" ++ config_path))) as HI.
  { rewrite Hl. pose proof (get_var_at (pre ++ bs "CONF") Byte.x49 Byte.x47 (bs "=" ++ config_path) blank rest) as Hv.
    rewrite <- Hv; [f_equal; by rewrite <- !app_assoc | | done | done | done | done | | by left].
    - rewrite not_elem_of_app. split; [apply Hpre; decided | decided].
    - rewrite not_elem_of_app. split; [decided | done]. }
  assert (get_cmdline_var (line ++ [newline]) (bs "C") = Ret (Some (bs "NFIG=" ++ config_path))) as HC.
  { rewrite Hl. pose proof (get_var_at pre Byte.x43 Byte.x4f (bs "NFIG=" ++ config_path) blank rest) as Hv.
    rewrite <- Hv; [f_equal; by rewrite <- !app_assoc | | done | done | done | done | | by left].
    - apply Hpre; decided.
    - rewrite not_elem_of_app. split; [decided | done]. }
  assert (∀ p s, Z.of_nat (length p) ≤ 10 → into_buf p (s ++ config_path) = Ret (p ++ s ++ config_path) ∨ 40 < Z.of_nat (length s)) as Hbuf.
  { intros p s Hp. unfold into_buf, BUF_MAX. rewrite !length_app.
    destruct (Z.leb_spec 256 (Z.of_nat (length p + (length s + length config_path)))); [right; lia | by left]. }
  unfold Linuxrc.read_cmdline. rewrite Hpc, Hg, HF, bind_Ret_l.
  destruct (Hbuf (bs "/images/") (bs "G=")) as [-> | Hbad]; [done | | by simpl in Hbad]. rewrite bind_Ret_l, HI, bind_Ret_l.
  destruct (Hbuf [] (bs "=")) as [-> | Hbad]; [done | | by simpl in Hbad]. rewrite bind_Ret_l, HC, bind_Ret_l.
  destruct (Hbuf [] (bs "NFIG=")) as [-> | Hbad]; [done | | by simpl in Hbad]. by rewrite bind_Ret_l.
Qed.

Module Witness.

(** A configuration library: the options that were set, the last first, and the
    images with their files. *)
Record config := { strings : list (list byte * list byte); images : list (list byte * list byte) }.

Definition getstr (c : config) (n : list byte) : list byte :=
  match find (λ s, strcasecmp s.1 n =? 0) (strings c) with Some s => s.2 | None => bs "none" end.

Definition sample : config := {|
  strings := [(bs "lasttry", bs "v1"); (bs "lastboot", bs "v1"); (bs "default", bs "v2");
              (bs "fallback", bs "v1"); (bs "tryonce", bs "yes"); (bs "bootonce", bs "v1")];
  images := [(bs "v1", bs "one.img"); (bs "v2", bs "two.img")]
|}.
Definition sample_text : list byte := bs "the sample".
Definition empty_config : config := {| strings := []; images := [] |}.

#[global] Instance confuse : Confuse.
Proof.
  refine {| cfg_t := config; sec_t := list byte * list byte; cfg_init := empty_config;
    cfg_parse := λ t, Some (if bool_decide (t = sample_text) then sample else empty_config);
    cfg_getint := λ _ _, 0; cfg_getstr := getstr;
    cfg_setstr := λ c n v, {| strings := (n, v) :: strings c; images := images c |};
    cfg_sections := λ c k, if bool_decide (k = bs "image") then images c else [];
    cfg_strings := λ _ _, []; cfg_title := fst;
    sec_getstr := λ s n, if bool_decide (n = bs "filename") then Some s.2 else None |}.
  - intros c n v. unfold getstr. cbn [strings find fst]. unfold strcasecmp. by rewrite strcmp_refl.
  - intros c n n' v Hne. unfold getstr. cbn [strings find fst]. by apply Z.eqb_neq in Hne as ->.
  - done.
  - decided.
  - intros k. by case_bool_decide.
  - done.
  - intros ls Hls. rewrite bool_decide_eq_false_2; [done | ].
    destruct Hls as [ | l ls [Hc _] _]; [done | ]. destruct l as [|c l]; [done | ].
    simpl in Hc. by subst c.
Defined.

Definition e : env := {|
  exits_zero := λ _, true;
  proc_mounts := λ _, Some (bs "/dev/hda2 /monoboot ext3 rw 0 0" ++ [newline] ++ bs "/dev/hda1 /images ext3 rw 0 0" ++ [newline]);
  read_cmdline := Some (bs "root=/dev/hda3 console=ttyS0,9600 ro" ++ [newline]);
  cmdline_garbage := repeat Byte.x00 255;
  stat_ok := λ _, true; can_open_new := true; can_rename := true;
  timestr := bs "Mon, 01 Jan 2007 00:00:00 +0000"; mount_ok := true
|}.
Definition st : state := {| cfg := sample; files := {| conf := Some sample_text; conf_new := None; conf_old := None |}; trace := [] |}.

Lemma cmd_boot_correct_witness :
  ∃ r st', cmd_boot e (Some (bs "v2")) st = Ret (r, st') ∧ r = -1 ∧ last (trace st') = Some kexec_exec.
Proof.
  assert (match cmd_boot e (Some (bs "v2")) st with Ret (_, st') => last (trace st') | _ => None end = Some kexec_exec)
    as Hl by (vm_compute; reflexivity).
  pose proof (cmd_boot_correct e (Some (bs "v2")) st) as Hc.
  destruct (cmd_boot e (Some (bs "v2")) st) as [[r st']| | | ]; try discriminate Hl.
  exists r, st'. split; [done | ]. split; [apply (Hc r st' eq_refl) | exact Hl].
Defined.

Lemma main_boots_witness :
  ∃ r st', main e (bs "monoboot") [] 0 (files st) = Ret (Booted r, st') ∧
    last (trace st') = Some kexec_exec ∧ next_image sample = bs "v2".
Proof.
  assert (match main e (bs "monoboot") [] 0 (files st) with Ret (Booted _, st') => last (trace st') | _ => None end
    = Some kexec_exec) as Hl by (vm_compute; reflexivity).
  pose proof (main_boots e (bs "monoboot") [] 0 (files st)) as Hc.
  destruct (main e (bs "monoboot") [] 0 (files st)) as [[[ | | r] st']| | | ]; try discriminate Hl.
  exists r, st'. split; [done | ]. split; [exact Hl | ].
  destruct (Hc r st' eq_refl) as (text & c & mounts & [= <-] & [= <-] & _). by vm_compute.
Defined.

Lemma config_lost_witness :
  ∃ st', main e (bs "monoboot") [] 0 (files (save_config e st)) = Ret (Booted (-1), st').
Proof.
  destruct (config_lost e e st [] 0) as (_ & _ & st' & Hm & _); [done | done | decided | by exists st'].
Defined.

Definition line : list byte :=
  bs "root=/dev/loop0 ro console=ttyS0,9600 ide=nodma CONFIG=monoboot/tag/v2 F=two.img I=11 C=22".

Lemma monoboot_line_misread_witness : ∃ mc,
  Linuxrc.read_cmdline mc =
    Ret (bs "/images/G=monoboot/tag/v2", bs "=monoboot/tag/v2", bs "NFIG=monoboot/tag/v2").
Proof.
  exists {| mount_proc := true; proc_cmdline := Some (line ++ [newline]); dev_names := None;
    dev_is_blk := λ _, false; dev_uuid := λ _, None; fs_mountable := λ _, true; fs_files := λ _ _, None;
    can_read := λ _, true; can_write := λ _, true; loop_opens := true; loop_set_fd := true; loop_set_status := true |}.
  apply (monoboot_line_misread _ (bs "console=ttyS0,9600") (bs "v2") (bs "two.img") (bs "11") (bs "22") line).
  - decided.
  - decided.
  - by vm_compute.
  - decided.
  - by vm_compute.
  - done.
Defined.
End Witness.
