(* ===== verification/MonobootCli.v ===== *)
(** The shell of monoboot (src/monoboot/monoboot_cli.c) and the commands that print
    (monoboot_cmds.c): the tree of commands that mb_interact gives to libcli, and what
    their callbacks do.

    A callback gets the words after the name of its command, as many as [argc] says.
    What the callbacks find in the array past them, a bar when the line has a filter, is
    not modelled: there [argv] ends with a null pointer.  [startup] is the file mb.conf
    in the working directory, [images] what is in /images, and [space] what statvfs says:
    the blocks available and all blocks. *)

From Stdlib Require Import ZArith Lia String.
From stdpp Require Import base tactics list numbers pretty.
From coqutil Require Import Byte.
From S2P Require Import Prelude Words CMem CString Cli CliCommands CliLoop Linuxrc Monoboot.

#[local] Open Scope Z_scope.

(** ** The terminal *)

Definition ICANON : Z := 2.
Definition ECHO : Z := 8.

(** The local flags that are written: [read] those that tcgetattr gives, and [garbage]
    what is in the structure when it fails. *)
Definition set_canonical (flag : Z) (read : option Z) (garbage : Z) : Z :=
  let c_lflag := match read with Some v => v | None => garbage end in
  if negb (flag =? 0) then Z.lor (Z.lor c_lflag ICANON) ECHO
  else Z.land (Z.land c_lflag (notw 32 ICANON)) (notw 32 ECHO).

(** ** Modes (monoboot.h) *)

Definition MODE_CONFIG_IMAGE : Z := 1.
Definition MODE_CONFIG_NET : Z := 2.

(** ** Commands that print (monoboot_cmds.c) *)

(** [fprintf(cli->client, ...)]. *)
Definition to_client (text : list byte) (cli : cli_def) : outcome cli_def :=
  if d_client cli then Ret (send text cli) else UB "fprintf to a NULL stream".

(** [%10d]. *)
Definition pad10 (n : Z) : list byte :=
  let s := bs (pretty n) in repeat Byte.x20 (10 - length s) ++ s.

(** A string as a format without arguments. *)
Fixpoint as_format (s : list byte) : outcome (list byte) :=
  match s with
  | [] => Ret []
  | Byte.x25 :: Byte.x25 :: s => t ← as_format s; Ret (Byte.x25 :: t)
  | Byte.x25 :: _ => UB "conversion without an argument"
  | c :: s => t ← as_format s; Ret (c :: t)
  end.

(** A directory entry: its name, and its size unless stat fails. *)
Record dirent := { d_name : list byte; st_size : option Z }.

Section monoboot.
Context `{Confuse, Regex} (e : env).
Context (startup : option (list byte)) (images : option (list dirent)) (space : option (Z * Z)).

Definition listed (f : dirent) : bool :=
  negb (strncmp (bs ".") (d_name f) 1 =? 0) && negb (strncmp (bs "..") (d_name f) 2 =? 0)
  && negb (strncmp (bs "lost+found") (d_name f) 10 =? 0).

(** The loop over the directory; the [int] is the sum of the sizes, [None] when stat
    fails. *)
Fixpoint show_entries (fs : list dirent) (used : Z) (cli : cli_def) : outcome (option Z * cli_def) :=
  match fs with
  | [] => Ret (Some used, cli)
  | f :: fs =>
      if listed f then
        match st_size f with
        | None => Ret (None, cli)
        | Some size =>
            cli ← to_client (pad10 size ++ bs " " ++ d_name f ++ [newline]) cli;
            if INT_MAX <? used + size then UB "signed overflow" else show_entries fs (used + size) cli
        end
      else show_entries fs used cli
  end.

Definition cmd_show_disk (cli : cli_def) : outcome (Z * cli_def) :=
  match images with
  | None => Ret (-1, cli)
  | Some fs =>
      '(used, cli) ← show_entries fs 0 cli;
      match used, space with
      | Some used, Some (bavail, blocks) =>
          cli ← to_client (bs "[" ++ bs (pretty used) ++ bs " bytes used, " ++ bs (pretty bavail)
                           ++ bs " available, " ++ bs (pretty blocks) ++ bs " total]" ++ [newline; newline]) cli;
          Ret (0, cli)
      | _, _ => Ret (-1, cli)
      end
  end.

(** The loop over the file: the line is the format. *)
Fixpoint show_lines (fuel : nat) (fp : list byte) (cli : cli_def) : outcome cli_def :=
  match fuel with
  | O => Spin
  | S fuel =>
      match fgets (Z.to_nat MB_CONFIG_MAX) fp with
      | None => Ret cli
      | Some (buf, fp) => t ← as_format (before_nul buf); cli ← to_client t cli; show_lines fuel fp cli
      end
  end.

Definition cmd_show_start (cli : cli_def) : outcome (Z * cli_def) :=
  match startup with
  | None => UB "fgets from a NULL stream"
  | Some fp => cli ← show_lines (S (length fp)) fp cli; Ret (0, cli)
  end.

Definition sec_string (s : sec_t) (name : list byte) : outcome (list byte) :=
  match sec_getstr s name with Some v => Ret v | None => UB "null pointer" end.

Fixpoint show_images (secs : list sec_t) (cli : cli_def) : outcome cli_def :=
  match secs with
  | [] => Ret cli
  | s :: secs =>
      filename ← sec_string s (bs "filename");
      cli ← to_client (newline :: bs "image " ++ cfg_title s ++ bs " {" ++ newline :: bs "  filename = " ++ filename
                       ++ newline :: bs "}" ++ [newline]) cli;
      show_images secs cli
  end.

Fixpoint show_networks (secs : list sec_t) (cli : cli_def) : outcome cli_def :=
  match secs with
  | [] => Ret cli
  | s :: secs =>
      address ← sec_string s (bs "address");
      gateway ← sec_string s (bs "gateway");
      cli ← to_client (newline :: bs "network " ++ cfg_title s ++ bs " {" ++ newline :: bs "  address = " ++ address
                       ++ newline :: bs "  gateway = " ++ gateway ++ newline :: bs "}" ++ [newline; newline]) cli;
      show_networks secs cli
  end.

(** The values of "line", with a comma after each but the last. *)
Fixpoint show_values (vs : list (list byte)) (cli : cli_def) : outcome cli_def :=
  match vs with
  | [] => Ret cli
  | [v] => to_client v cli
  | v :: vs => cli ← to_client (v ++ bs ", ") cli; show_values vs cli
  end.

Definition cmd_show_run (c : cfg_t) (cli : cli_def) : outcome (Z * cli_def) :=
  let int name := bs name ++ bs " = " ++ bs (pretty (cfg_getint c (bs name))) ++ [newline] in
  let str name := bs name ++ bs " = " ++ cfg_getstr c (bs name) ++ [newline] in
  cli ← to_client (int "version"%string ++ int "delay"%string ++ newline :: str "bootonce"%string
                   ++ str "tryonce"%string ++ newline :: str "fallback"%string ++ str "default"%string
                   ++ newline :: str "lasttry"%string ++ str "lastboot"%string) cli;
  cli ← show_images (cfg_sections c (bs "image")) cli;
  cli ← show_networks (cfg_sections c (bs "network")) cli;
  cli ← show_values (cfg_strings c (bs "line")) cli;
  cli ← to_client (str "password"%string ++ [newline]) cli;
  Ret (0, cli).

Definition cmd_show_ver (cli : cli_def) : outcome (Z * cli_def) :=
  cli ← to_client (bs "monoboot v0" ++ [newline]) cli; Ret (0, cli).

(** ** The callbacks (monoboot_cli.c) *)

Definition f_boot : positive := 1.
Definition f_show_run : positive := 2.
Definition f_show_start : positive := 3.
Definition f_show_version : positive := 4.
Definition f_show_disk : positive := 5.
Definition f_write : positive := 6.
Definition f_shell : positive := 7.
Definition f_config_image : positive := 8.
Definition f_config_net : positive := 9.
Definition f_config_mode_exit : positive := 10.

(** [argv[i]]. *)
Definition arg (argv : list (list byte)) (i : nat) : option (list byte) := argv !! i.

Definition cli_cmd_boot (argv : list (list byte)) (st : state) : outcome (Z * state) :=
  cmd_boot e (arg argv 1) st.

Definition cli_cmd_config_image (cli : cli_def) (argv : list (list byte)) : outcome (Z * cli_def) :=
  if (length argv <? 1)%nat then
    cli ← cli_print cli (bs "Specify an image to configure"); Ret (CLI_OK, cli)
  else Ret (CLI_OK, (cli_set_configmode cli MODE_CONFIG_IMAGE (arg argv 1)).2).

Definition cli_cmd_config_net (cli : cli_def) : Z * cli_def :=
  (CLI_OK, (cli_set_configmode cli MODE_CONFIG_NET None).2).

Definition cli_cmd_config_mode_exit (cli : cli_def) : Z * cli_def :=
  (CLI_OK, (cli_set_configmode cli MODE_CONFIG None).2).

(** One callback: the session and the state of the boot manager, before and after. *)
Definition run_handler (f : positive) (argv : list (list byte)) (cli : cli_def) (st : state)
    : outcome (Z * cli_def * state) :=
  let on_state (m : outcome (Z * state)) := '(r, st) ← m; Ret (r, cli, st) in
  let on_cli (m : outcome (Z * cli_def)) := '(r, cli) ← m; Ret (r, cli, st) in
  if decide (f = f_boot) then on_state (cli_cmd_boot argv st)
  else if decide (f = f_show_run) then on_cli (cmd_show_run (cfg st) cli)
  else if decide (f = f_show_start) then on_cli (cmd_show_start cli)
  else if decide (f = f_show_version) then on_cli (cmd_show_ver cli)
  else if decide (f = f_show_disk) then on_cli (cmd_show_disk cli)
  else if decide (f = f_write) then on_state (Ret (cmd_write e st))
  else if decide (f = f_shell) then on_state (Ret (cmd_shell e st))
  else if decide (f = f_config_image) then on_cli (cli_cmd_config_image cli argv)
  else if decide (f = f_config_net) then on_cli (Ret (cli_cmd_config_net cli))
  else if decide (f = f_config_mode_exit) then on_cli (Ret (cli_cmd_config_mode_exit cli))
  else UB "call of a callback that is not registered".

(** The callbacks in the state [st], as libcli calls them. *)
Definition shell_program (st : state) : Program := {|
  call_command := λ f cli _ argv, '(r, cli, _) ← run_handler f argv cli st; Ret (r, cli);
  call_auth := λ _ _ _, false; call_enable := λ _ _, false; call_regular := λ _ cli, Ret (0, cli);
  crypt := λ _ _, []
|}.
End monoboot.

(** ** The shell *)

(** The session with the commands that [mb_interact] registers. *)
Definition mb_cli : cli_def :=
  let reg (cli : cli_def) (parent : list nat) (name : string) (cb : option callback) (privilege mode : Z)
          (help : option string) :=
    cli_register_command cli parent (bs name) cb privilege mode (option_map bs help) in
  let cli := cli_set_banner cli_init (Some (bs "monoboot shell")) in
  let cli := cli_set_hostname cli (Some (bs "mb")) in
  let cli := cli_set_newline cli [newline] in
  let cli := (reg cli [] "boot" (Some (cb_program f_boot)) PRIVILEGE_UNPRIVILEGED MODE_EXEC None).2 in
  let '(c, cli) := reg cli [] "show" None PRIVILEGE_UNPRIVILEGED MODE_EXEC None in
  let cli := (reg cli c "running-config" (Some (cb_program f_show_run)) PRIVILEGE_UNPRIVILEGED MODE_EXEC None).2 in
  let cli := (reg cli c "startup-config" (Some (cb_program f_show_start)) PRIVILEGE_UNPRIVILEGED MODE_EXEC None).2 in
  let cli := (reg cli c "version" (Some (cb_program f_show_version)) PRIVILEGE_UNPRIVILEGED MODE_EXEC None).2 in
  let cli := (reg cli c "disk" (Some (cb_program f_show_disk)) PRIVILEGE_UNPRIVILEGED MODE_EXEC None).2 in
  let cli := (reg cli [] "write" (Some (cb_program f_write)) PRIVILEGE_UNPRIVILEGED MODE_EXEC None).2 in
  let cli := (reg cli [] "shell" (Some (cb_program f_shell)) PRIVILEGE_UNPRIVILEGED MODE_EXEC None).2 in
  let cli := (reg cli [] "copy" None PRIVILEGE_UNPRIVILEGED MODE_EXEC None).2 in
  let cli := (reg cli [] "image" (Some (cb_program f_config_image)) PRIVILEGE_PRIVILEGED MODE_CONFIG
                (Some "Create an image tag")).2 in
  let cli := (reg cli [] "exit" (Some (cb_program f_config_mode_exit)) PRIVILEGE_PRIVILEGED MODE_CONFIG_IMAGE
                (Some "Exit from image configuration")).2 in
  let cli := (reg cli [] "network" (Some (cb_program f_config_net)) PRIVILEGE_PRIVILEGED MODE_CONFIG
                (Some "Configure the network")).2 in
  (reg cli [] "exit" (Some (cb_program f_config_mode_exit)) PRIVILEGE_PRIVILEGED MODE_CONFIG_NET
     (Some "Exit from network configuration")).2%string.

(** The session, and the flags of the terminal at its end; it is freed then. *)
Definition mb_interact `{Arch, Regex, Program} (cmd : list byte) (input : list event) (tc : Z * Z) (garbage : Z)
    : outcome (Z * Z * cli_def) :=
  let before := set_canonical 0 (Some tc.1) garbage in
  cli ← cli_loop mb_cli cmd input;
  Ret (before, set_canonical 1 (Some tc.2) garbage, cli).
