(* ===== verification/MonobootCliSpec.v ===== *)
(** What the shell of monoboot does with the words typed: libcli gives a callback the
    words after the name of the command, and the callbacks read them from the second on. *)

From Stdlib Require Import ZArith Lia String.
From stdpp Require Import base tactics list numbers pretty.
From coqutil Require Import Byte.
From S2P Require Import Prelude Words CMem CString Cli CliCommands CliSpec CliLoop Linuxrc Monoboot MonobootCli MonobootSpec.

#[local] Open Scope Z_scope.

(** ** The choice of a command *)

(** The first command of the list that the word chooses, and the session then. *)
Fixpoint selected (cli : cli_def) (cs : list cli_command) (w : list byte) : option (cli_command * cli_def) :=
  match cs with
  | [] => None
  | c :: cs => match try_command cli c w with inr cli' => Some (c, cli') | inl _ => selected cli cs w end
  end.

Section commands.
Context `{Regex}.

Lemma find_command_selected {P : Program} words filters w ws up commands cli c cb cli' :
  (∃ l, last_byte w = Some l ∧ l ≠ Byte.x3f) → selected cli commands w = Some (c, cli') →
  c_children c = [] → c_callback c = Some cb →
  cli_find_command words filters (w :: ws) up commands cli
  = run_found cli' words filters cb (cli_command_name (c :: up))
      (take (match filters with f :: _ => f | [] => length words end - (length words - S (length ws)) - 1) ws).
Proof.
  intros (l & Hl & Hq) Hsel Hch Hcb. cbn [cli_find_command]. rewrite Hl.
  assert (byte_eqb l Byte.x3f = false) as ->.
  { unfold byte_eqb. apply Z.eqb_neq. intros E. apply Hq. by apply byte.unsigned_inj. }
  generalize commands at 1 as commands0. intros commands0. revert Hsel.
  induction commands as [|d cs IH]; intros Hsel; [done | ]. cbn [selected] in Hsel.
  destruct (try_command cli d w) as [x | x] eqn:Et.
  - apply try_command_inl in Et as ->. by apply IH.
  - injection Hsel as -> ->. rewrite Hch, Hcb. done.
Qed.

Lemma plain_first w : plain w = true → ∃ b s, w = b :: s ∧ special b = false.
Proof.
  intros [Hne Hw]%andb_true_iff. destruct w as [|b s]; [done | ]. exists b, s. split; [done | ].
  cbn [forallb] in Hw. apply andb_true_iff in Hw as [Hb _]. by apply negb_true_iff.
Qed.

Lemma special_space b : special b = false → isspace b = false.
Proof. unfold special. by intros [[? ?]%orb_false_iff _]%orb_false_iff. Qed.

Lemma plain_no_quote w : plain w = true → forallb (λ c, negb (is_quote c)) w = true.
Proof.
  intros [_ Hw]%andb_true_iff. rewrite forallb_forall in Hw |- *. intros c Hc. specialize (Hw c Hc).
  apply negb_true_iff in Hw. unfold special in Hw. apply orb_false_iff in Hw as [_ ->]. done.
Qed.

Lemma parse_two_words name w : plain name = true → plain w = true →
  cli_parse_line (name ++ Byte.x20 :: w) max_words = Ret [name; w].
Proof.
  intros Hname Hw. assert (write_line [name; w] = name ++ Byte.x20 :: w) as <-.
  { unfold write_line, write_word. cbn [map]. by rewrite Hname, Hw. }
  destruct (parse_written max_words [] [name; w] (Some (write_line [name; w]))) as (k & Hk).
  - unfold max_words. simpl. lia.
  - repeat constructor; by apply plain_no_quote.
  - by right.
  - done.
  - by apply parse_line_Ret with (f := k).
Qed.

(** A line of two plain words, without a filter. *)
Lemma run_two_words {P : Program} cli name w c cb cli' :
  plain name = true → plain w = true → (∃ l, last_byte name = Some l ∧ l ≠ Byte.x3f) →
  selected cli (d_commands cli) name = Some (c, cli') → c_children c = [] → c_callback c = Some cb →
  cli_run_command cli (name ++ Byte.x20 :: w)
  = ('(rc, cli) ← run_callback cb cli' (cli_command_name [c]) [w];
     cli ← end_filters (d_filters cli) cli;
     Ret (if rc =? CLI_QUIT then rc else CLI_OK, cli)).
Proof.
  intros Hname Hw Hl Hsel Hch Hcb.
  destruct (plain_first name Hname) as (b & s & En & Hb). destruct (plain_first w Hw) as (b' & s' & Ew & Hb').
  unfold cli_run_command. assert (skip_space (name ++ Byte.x20 :: w) = name ++ Byte.x20 :: w) as ->.
  { rewrite En. cbn [app skip_space]. by rewrite (special_space b Hb). }
  rewrite En at 1. cbn [app]. rewrite parse_two_words, bind_Ret_l by done.
  assert (filter_indexes [name; w] = []) as ->.
  { unfold filter_indexes. rewrite En, Ew. cbn [seq length].
    rewrite !filter_cons_False, filter_nil; [reflexivity | | ]; intros E; cbn in E; subst; done. }
  rewrite (find_command_selected _ _ _ _ _ _ _ c cb cli') by done. cbn [length Nat.sub take].
  unfold run_found. cbn [make_filters]. rewrite bind_Ret_l. cbn [Z.eqb].
  destruct (run_callback cb cli' (cli_command_name [c]) [w]) as [[rc cli1] | | | ]; [ | done..].
  rewrite !bind_Ret_l. cbn [Z.eqb CLI_OK]. rewrite bind_Ret_l.
  destruct (end_filters (d_filters cli1) cli1); [ | done..]. by rewrite !bind_Ret_l.
Qed.
(** A command that the word does not begin does not stop the choice. *)
Lemma selected_first pre c post w cli cli' :
  forallb (λ d, negb (strncasecmp (c_command d) w (c_unique_len d) =? 0)
             || negb (strncasecmp (c_command d) w (length w) =? 0)) pre = true →
  try_command cli c w = inr cli' → selected cli (pre ++ c :: post) w = Some (c, cli').
Proof.
  intros Hpre Hc. induction pre as [|d pre IH]; cbn [app selected]; [by rewrite Hc | ].
  cbn [forallb] in Hpre. apply andb_true_iff in Hpre as [Hd Hpre].
  destruct (try_command cli d w) as [x | x] eqn:Et; [by apply IH | ].
  apply try_command_inr in Et as (_ & _ & _ & E1 & E2). by rewrite E1, E2 in Hd.
Qed.

(** ** The commands of the shell *)

Definition is_exec (cli : cli_def) : Prop :=
  d_commands cli = d_commands mb_cli ∧ d_mode cli = MODE_EXEC ∧ 0 ≤ d_privilege cli.

Definition is_config (cli : cli_def) : Prop :=
  d_commands cli = d_commands mb_cli ∧ d_mode cli = MODE_CONFIG ∧ PRIVILEGE_PRIVILEGED ≤ d_privilege cli ∧
  d_filters cli = [].

Lemma mb_selected (i : nat) name c cli cli' :
  d_commands cli = d_commands mb_cli → d_commands mb_cli !! i = Some c →
  forallb (λ d, negb (strncasecmp (c_command d) name (c_unique_len d) =? 0)
             || negb (strncasecmp (c_command d) name (length name) =? 0)) (take i (d_commands mb_cli)) = true →
  try_command cli c name = inr cli' → selected cli (d_commands cli) name = Some (c, cli').
Proof.
  intros -> Hi Hpre Hc. rewrite <- (take_drop_middle _ _ _ Hi). by apply selected_first.
Qed.

Definition command (i : nat) : cli_command := nth i (d_commands mb_cli) (mk_command [] None 0 None 0 0 []).

(** C26: in the shell of monoboot the words after "boot" and "image" are lost.  In the
    mode in which the session begins, "boot w" for any plain word [w] calls the callback
    of boot with the one argument [w], and that boots what it boots without any
    argument, the default; in the configuration mode "image w" does nothing: neither the
    mode nor the prompt changes.  *)
Theorem shell_loses_the_word `{Confuse} (en : env) startup images space w cli :
  plain w = true →
  (is_exec cli →
   (∀ P : Program, cli_run_command cli (bs "boot" ++ Byte.x20 :: w)
      = ('(rc, cli) ← call_command f_boot cli (bs "boot") [w];
         cli ← end_filters (d_filters cli) cli; Ret (if rc =? CLI_QUIT then rc else CLI_OK, cli))) ∧
   (∀ st, run_handler en startup images space f_boot [w] cli st
      = ('(r, st) ← cmd_boot en None st; Ret (r, cli, st)))) ∧
  (is_config cli →
   ∀ st, @cli_run_command _ (shell_program en startup images space st) cli (bs "image" ++ Byte.x20 :: w)
     = Ret (CLI_OK, cli)).
Proof.
  intros Hw. split.
  - intros (Hcmds & Hmode & Hpriv). split; [ | done]. intros P.
    apply (run_two_words cli (bs "boot") w (command 8) (cb_program f_boot) cli); try done.
    + exists Byte.x74. split; [done | discriminate].
    + apply (mb_selected 8); [done | vm_compute; reflexivity | vm_compute; reflexivity | ].
      apply try_command_inr. rewrite Hmode. split_and!; [exact Hpriv | | | vm_compute; reflexivity..].
      * vm_compute. tauto.
      * unfold entered. rewrite Hmode. done.
  - intros (Hcmds & Hmode & Hpriv & Hfilt) st.
    rewrite (run_two_words cli (bs "image") w (command 13) (cb_program f_config_image) cli); try done.
    + cbn [run_callback call_command shell_program].
      change (run_handler en startup images space f_config_image [w] cli st)
        with (Ret (CLI_OK, (cli_set_configmode cli MODE_CONFIG_IMAGE None).2) ≫= λ '(r, cli), Ret (r, cli, st)).
      assert ((cli_set_configmode cli MODE_CONFIG_IMAGE None).2 = cli) as ->.
      { unfold cli_set_configmode. rewrite Hmode. cbn. destruct cli. cbn in Hmode. by rewrite Hmode. }
      rewrite !bind_Ret_l. by rewrite Hfilt.
    + exists Byte.x65. split; [done | discriminate].
    + apply (mb_selected 13); [done | vm_compute; reflexivity | vm_compute; reflexivity | ].
      apply try_command_inr. rewrite Hmode. split_and!; [exact Hpriv | | | vm_compute; reflexivity..].
      * vm_compute. tauto.
      * unfold entered. rewrite Hmode. done.
Qed.

(** ** The exits of monoboot *)

Lemma selected_in cli cs w c cli' : selected cli cs w = Some (c, cli') → c ∈ cs ∧ try_command cli c w = inr cli'.
Proof.
  induction cs as [|d cs IH]; intros Hs; [done | ]. cbn [selected] in Hs.
  destruct (try_command cli d w) as [x | x] eqn:Et; [ | simplify_eq; split; [by left | done]].
  destruct (IH Hs). split; [by right | done].
Qed.

Lemma selected_before cli pre d post w c cli' x :
  try_command cli d w = inr x → selected cli (pre ++ d :: post) w = Some (c, cli') → c ∈ pre ++ [d].
Proof.
  intros Hd. induction pre as [|d' pre IH]; cbn [app selected]; [rewrite Hd; intros [= <- _]; by left | ].
  destruct (try_command cli d' w) as [y | y]; [intros Hs; right; by apply IH | intros [= <- _]; by left].
Qed.

(** No word calls the callback that monoboot registers for "exit": libcli's own exit
    comes first. *)
Lemma own_exit_never_runs cli w c cli' :
  selected cli (d_commands mb_cli) w = Some (c, cli') → c_callback c ≠ Some (cb_program f_config_mode_exit).
Proof.
  intros Hs Hcb. destruct (selected_in _ _ _ _ _ Hs) as [Hin Ht].
  assert (c = command 14 ∨ c = command 16) as Hc.
  { apply list_elem_of_lookup in Hin as [i Hi]. do 17 (destruct i as [|i]; [vm_compute in Hi; injection Hi as <-;
      first [discriminate Hcb | left; reflexivity | right; reflexivity] | ]). vm_compute in Hi. discriminate. }
  apply try_command_inr in Ht as (Hp & _ & _ & E1 & E2).
  assert (∃ x, try_command cli (command 3) w = inr x) as [x Hx].
  { exists (entered cli (command 3)). apply try_command_inr.
    destruct Hc as [-> | ->]; (split_and!; [ | right; left; reflexivity | reflexivity | exact E1 | exact E2]);
      (etrans; [ | exact Hp]); vm_compute; discriminate. }
  assert (d_commands mb_cli = take 3 (d_commands mb_cli) ++ command 3 :: drop 4 (d_commands mb_cli)) as Esplit
    by (vm_compute; reflexivity).
  rewrite Esplit in Hs. apply (selected_before _ _ _ _ _ _ _ _ Hx) in Hs.
  assert (Forall (λ d, c_callback d ≠ Some (cb_program f_config_mode_exit)) (take 3 (d_commands mb_cli) ++ [command 3]))
    as Hnone by (vm_compute; repeat constructor; discriminate).
  rewrite Forall_forall in Hnone. by apply (Hnone c).
Qed.
End commands.

Module Witness.
#[local] Existing Instance MonobootSpec.Witness.confuse.
#[local] Existing Instance CliSpec.Witness.regex.
#[local] Abbreviation st := MonobootSpec.Witness.st.
#[local] Abbreviation en := MonobootSpec.Witness.e.

(** "boot v1" does what "boot" does. *)
Lemma shell_loses_the_word_witness :
  ∃ cli st', @cli_run_command _ (shell_program en None None None st) mb_cli (bs "boot v1") = Ret (CLI_OK, cli) ∧
    run_handler en None None None f_boot [bs "v1"] mb_cli st = Ret (-1, mb_cli, st').
Proof.
  destruct (shell_loses_the_word en None None None (bs "v1") mb_cli) as [Hboot _]; [vm_compute; reflexivity | ].
  destruct Hboot as [Hrun Hst].
  { split_and!; vm_compute; done || discriminate. }
  pose proof (Hrun (shell_program en None None None st)) as Hr. pose proof (Hst st) as Hh.
  assert (match cmd_boot en None st with Ret (r, _) => r | _ => 0 end = -1) as Er by (vm_compute; reflexivity).
  destruct (cmd_boot en None st) as [[r st'] | | | ]; try discriminate Er. subst r.
  rewrite bind_Ret_l in Hh. exists mb_cli, st'. split; [ | done].
  change (bs "boot v1") with (bs "boot" ++ Byte.x20 :: bs "v1"). rewrite Hr.
  change (call_command f_boot mb_cli (bs "boot") [bs "v1"])
    with (run_handler en None None None f_boot [bs "v1"] mb_cli st ≫= λ '(r, cli, _), Ret (r, cli)).
  rewrite Hh. vm_compute. reflexivity.
Defined.
End Witness.
