(* ===== verification/Clitest.v ===== *)
(** The example of libcli (src/libcli/clitest.c): its commands and callbacks, the script
    clitest.txt, and the session on the terminal. *)

From Stdlib Require Import ZArith Lia String.
From stdpp Require Import base tactics list numbers pretty.
From coqutil Require Import Byte.
From S2P Require Import Prelude Words CMem CString Cli CliCommands CliLoop Monoboot MonobootCli.

#[local] Open Scope Z_scope.

Definition MODE_CONFIG_INT : Z := 10.

(** The same text as in monoboot_cli.c. *)
Definition clitest_set_canonical : Z → option Z → Z → Z := set_canonical.

(** ** Commands *)

Section clitest.
Context `{Regex}.

Fixpoint print_arguments (cli : cli_def) (argv : list (list byte)) : outcome cli_def :=
  match argv with
  | [] => Ret cli
  | a :: argv => cli ← cli_print cli (Byte.x09 :: a); print_arguments cli argv
  end.

Definition called (command : list byte) : list byte :=
  bs "called cmd_test with " ++ Byte.x22 :: command ++ [Byte.x22].
Definition arguments (argc : nat) : list byte := bs (pretty (Z.of_nat argc)) ++ bs " arguments:".

Definition cmd_test (cli : cli_def) (command : list byte) (argv : list (list byte)) : outcome (Z * cli_def) :=
  cli ← cli_print cli (called command);
  cli ← cli_print cli (arguments (length argv));
  cli ← print_arguments cli argv;
  Ret (CLI_OK, cli).

Definition cmd_set (cli : cli_def) (argv : list (list byte)) : outcome (Z * cli_def) :=
  match argv with
  | name :: value :: _ =>
      cli ← cli_print cli (bs "Setting " ++ Byte.x22 :: name ++ Byte.x22 :: bs " to " ++ Byte.x22 :: value ++ [Byte.x22]);
      Ret (CLI_OK, cli)
  | _ => cli ← cli_print cli (bs "Specify a variable to set"); Ret (CLI_OK, cli)
  end.

Definition cmd_config_int (cli : cli_def) (argv : list (list byte)) : outcome (Z * cli_def) :=
  match argv with
  | [] => cli ← cli_print cli (bs "Specify an interface to configure"); Ret (CLI_OK, cli)
  | a :: _ =>
      if strcmp a (bs "?") =? 0 then cli ← cli_print cli (bs "  test0/0"); Ret (CLI_OK, cli)
      else if strcasecmp a (bs "test0/0") =? 0 then
        Ret (CLI_OK, (cli_set_configmode cli MODE_CONFIG_INT (Some (bs "test"))).2)
      else cli ← cli_print cli (bs "Unknown interface " ++ a); Ret (CLI_OK, cli)
  end.

Definition cmd_config_int_exit (cli : cli_def) : Z * cli_def :=
  (CLI_OK, (cli_set_configmode cli MODE_CONFIG None).2).

Definition check_auth (username password : list byte) : bool :=
  (strcasecmp username (bs "fred") =? 0) && (strcasecmp password (bs "nerk") =? 0).

Definition test_check_enable (password : list byte) : bool := strcasecmp password (bs "topsecret") =? 0.

(** ** The program *)

Definition f_test : positive := 1.
Definition f_set : positive := 2.
Definition f_config_int : positive := 3.
Definition f_config_int_exit : positive := 4.
Definition f_pc : positive := 5.

(** The callbacks; those for logging in are not registered. *)
Definition clitest_program (crypt : list byte → list byte → list byte) : Program := {|
  call_command := λ f cli command argv,
    if decide (f = f_test) then cmd_test cli command argv
    else if decide (f = f_set) then cmd_set cli argv
    else if decide (f = f_config_int) then cmd_config_int cli argv
    else if decide (f = f_config_int_exit) then Ret (cmd_config_int_exit cli)
    else UB "call of a callback that is not registered";
  call_auth := λ _, check_auth; call_enable := λ _, test_check_enable; call_regular := λ _ cli, Ret (0, cli);
  CliCommands.crypt := crypt
|}.
End clitest.

(** The session with the commands that [main] registers. *)
Definition test_cli : cli_def :=
  let reg (cli : cli_def) (parent : list nat) (name : string) (cb : option positive) (privilege mode : Z)
          (help : option string) :=
    cli_register_command cli parent (bs name) (option_map cb_program cb) privilege mode (option_map bs help) in
  let cli := cli_set_banner cli_init (Some (bs "libcli test environment")) in
  let cli := cli_set_hostname cli (Some (bs "router")) in
  let cli := cli_set_newline cli [newline] in
  let cli := (reg cli [] "test" (Some f_test) PRIVILEGE_UNPRIVILEGED MODE_EXEC None).2 in
  let cli := (reg cli [] "sex" None PRIVILEGE_UNPRIVILEGED MODE_EXEC None).2 in
  let cli := (reg cli [] "simple" None PRIVILEGE_UNPRIVILEGED MODE_EXEC None).2 in
  let cli := (reg cli [] "simon" None PRIVILEGE_UNPRIVILEGED MODE_EXEC None).2 in
  let cli := (reg cli [] "set" (Some f_set) PRIVILEGE_PRIVILEGED MODE_EXEC None).2 in
  let '(c, cli) := reg cli [] "show" None PRIVILEGE_UNPRIVILEGED MODE_EXEC None in
  let cli := (reg cli c "counters" (Some f_test) PRIVILEGE_UNPRIVILEGED MODE_EXEC
                (Some "Show the counters that the system uses")).2 in
  let cli := (reg cli c "junk" (Some f_test) PRIVILEGE_UNPRIVILEGED MODE_EXEC None).2 in
  let cli := (reg cli [] "interface" (Some f_config_int) PRIVILEGE_PRIVILEGED MODE_CONFIG
                (Some "Configure an interface")).2 in
  let cli := (reg cli [] "exit" (Some f_config_int_exit) PRIVILEGE_PRIVILEGED MODE_CONFIG_INT
                (Some "Exit from interface configuration")).2 in
  (reg cli [] "address" (Some f_test) PRIVILEGE_PRIVILEGED MODE_CONFIG_INT (Some "Set IP address")).2%string.

Section main.
Context `{Arch, Regex} (crypt : list byte → list byte → list byte).

#[local] Instance program : Program := clitest_program crypt.

(** The script, when there is one: its output goes to the standard output. *)
Definition run_script (clitest_txt : option (list byte)) (cli : cli_def) : outcome cli_def :=
  match clitest_txt with
  | Some fh =>
      '(_, cli) ← cli_file (cli_print_callback cli (Some f_pc)) fh PRIVILEGE_UNPRIVILEGED MODE_EXEC;
      Ret (cli_print_callback cli None)
  | None => Ret cli
  end.

(** What the standard output shows of the script. *)
Definition script_output (cli : cli_def) : list (list byte) :=
  omap (λ o, match o with Printed _ s => Some s | Sent _ => None end) (d_out cli).

(** The flags of the terminal during the session, those at its end, and the session;
    [cmd] is the memory of its line. *)
Definition clitest_main (clitest_txt : option (list byte)) (cmd : list byte) (input : list event) (tc : Z * Z)
    (garbage : Z) : outcome (Z * Z * cli_def) :=
  cli ← run_script clitest_txt test_cli;
  let before := clitest_set_canonical 0 (Some tc.1) garbage in
  cli ← cli_loop cli cmd input;
  Ret (before, clitest_set_canonical 1 (Some tc.2) garbage, cli).
End main.

(** ** Lemmas *)

Section lemmas.
Context `{Regex}.

Lemma lines_one s : newline ∉ s → lines s = [s].
Proof.
  induction s as [|c s IH]; [done | ]. rewrite not_elem_of_cons. intros [Hc Hs]. cbn [lines].
  destruct (byte_eqb c Byte.x0a) eqn:E; [apply byte_eqb_eq in E as ->; by destruct Hc | ]. by rewrite IH.
Qed.

Lemma print_to_callback cli f s : d_filters cli = [] → d_print_callback cli = Some f → newline ∉ s →
  cli_print cli s = Ret (set_out (d_out cli ++ [Printed f s]) cli).
Proof.
  intros Hf Hp Hs. unfold cli_print, _print. rewrite lines_one by done. cbn [print_lines]. unfold print_line.
  rewrite Hf. cbn [run_filters]. destruct cli; cbn in *. subst. by rewrite bind_Ret_l.
Qed.

Lemma print_arguments_to_callback f argv : ∀ cli, d_filters cli = [] → d_print_callback cli = Some f →
  Forall (λ a, newline ∉ a) argv →
  print_arguments cli argv = Ret (set_out (d_out cli ++ map (λ a, Printed f (Byte.x09 :: a)) argv) cli).
Proof.
  induction argv as [|a argv IH]; intros cli Hf Hp Ha; cbn [print_arguments map].
  { rewrite app_nil_r. by destruct cli. }
  inversion_clear Ha. rewrite (print_to_callback cli f) by (done || (rewrite not_elem_of_cons; split; [done | done])).
  rewrite bind_Ret_l, IH; [ | by destruct cli.. | done]. destruct cli; cbn. by rewrite <- app_assoc.
Qed.

(** What the command test prints to a callback: its name, the number of words and each of them. *)
Lemma cmd_test_prints cli f command argv :
  d_filters cli = [] → d_print_callback cli = Some f → newline ∉ command → Forall (λ a, newline ∉ a) argv →
  newline ∉ arguments (length argv) →
  cmd_test cli command argv
  = Ret (CLI_OK, set_out (d_out cli ++ map (Printed f) (called command :: arguments (length argv) :: map (cons Byte.x09) argv)) cli).
Proof.
  intros Hf Hp Hc Ha Hn. unfold cmd_test. rewrite (print_to_callback cli f), bind_Ret_l; [ | done.. | ].
  2: { unfold called. rewrite !not_elem_of_app, not_elem_of_cons, not_elem_of_app. split_and!; [decided | done | done | decided]. }
  rewrite (print_to_callback _ f), bind_Ret_l by (done || by destruct cli).
  rewrite (print_arguments_to_callback f), bind_Ret_l by (done || by destruct cli).
  destruct cli; cbn. rewrite map_map, <- !app_assoc. done.
Qed.

(** Logging in, if it were asked for, takes one user and one password, in any case. *)
Lemma check_auth_one : check_auth (bs "Fred") (bs "NERK") = true ∧ check_auth (bs "fred") (bs "nerk ") = false.
Proof. by vm_compute. Qed.
End lemmas.

(** A script of three lines: the prefix of a command, a command with words, a command that
    is not for this user. *)
Lemma script_prints :
  match run_script (H0 := {| regcomp := λ _ _ _, false; regexec := λ _ _ _ _, false |}) (λ _ _, [])
          (Some (bs "sh c" ++ newline :: bs "test one two" ++ newline :: bs "set a b" ++ [newline])) test_cli with
  | Ret cli => script_output cli
  | _ => []
  end = [called (bs "show counters"); bs "0 arguments:"; called (bs "test"); bs "2 arguments:";
         Byte.x09 :: bs "one"; Byte.x09 :: bs "two"; bs "Invalid command " ++ Byte.x22 :: bs "set" ++ [Byte.x22]].
Proof. vm_compute. reflexivity. Qed.
